(* ===== verification/_CoqProject ===== *)
-Q . S2P
Prelude.v
CLib.v
Util.v
UtilProps.v
Bpf.v
BpfMachine.v
BpfCompare.v
SyscallFilter.v
Policy.v
FilterCorrect.v
FilterComplete.v
Tables.v
Heap.v
Blocks.v
BlocksProps.v
Codec.v
OS.v
Trace.v
System.v
Jail.v
JailProps.v
JailSpec.v
JailMem.v
JailMemProps.v
Marshal.v
MarshalProps.v
FilterWidths.v
Enter.v
Emits.v
MountProps.v
EnterProps.v
Fds.v
FdsProps.v
Run.v
Preload.v
RunProps.v
HandOver.v
ParentProps.v
WaitProps.v
ConfigParser.v
ConfigProps.v
ConfigMem.v
EnvMem.v
TablesProps.v
Elfparse.v
ElfProps.v
Cli.v
ParseArgs.v
CliProps.v
ArgsInv.v
ArgsProps.v
DynamicPolicy.v
Tools.v
ToolsProps.v
