(* ===== verification/Prelude.v ===== *)
(** * A verification development for Minijail

    Minijail confines a process: a caller fills in a [struct minijail] through
    the API of libminijail.c (or minijail0 does so from its command line), the
    library forks, the parent sets up what needs its privileges and sends the
    configuration through a pipe, and the child, usually inside the preloaded
    library, reads it back and applies it to itself.  System call policies are text
    files that a compiler turns into a classic BPF program for seccomp.

    ** How the sources are modelled

    - C integers are [Z] with the wrap-around of their width written out; a C
      string is the list of its bytes; LP64, little-endian, the "C" locale.
    - A pure function is a function.  A function that can end the process or touch
      memory outside its objects returns an [outcome] (Prelude): [Ret], [Die] or
      [Undef].
    - A function that talks to the kernel or to the part of the C library that
      reads the system's state is a tree of calls, [io] (OS): one branch per
      answer, nothing assumed of the answers.  [wp], [wlp] (OS) and [traces] (Trace)
      speak of all of them, [run] and [run_trace] of those of one host.
    - Linked lists are lists; an array with its count is a list; the bit field of
      flags is a finite set.  Four components are also modelled with their pointers, in
      a heap of objects (Heap): the blocks of the policy compiler (Blocks), what a
      [struct minijail] owns (JailMem), the list of a configuration file (ConfigMem)
      and environment arrays (EnvMem); there an access to a freed object, a second
      free and an object left behind are visible.  Memory allocation succeeds and
      reading an open file does not fail.  Log messages are modelled only where they
      are all a function does.
    - What the build generates or selects (system call and constant tables,
      compile-time switches) is the class [BuildConfig] (Util); the theorems hold
      for every instance, and for the tables of linux-x86 (Tables) with the values any
      headers give their names.  Files that a policy includes come from a function of
      the path.

    ** The files

    - Prelude: integers, strings, outcomes, record update, automation.
    - CLib: the C library functions the sources call on strings and lines.
    - Util, UtilProps: util.c and util.h.
    - Bpf: bpf.c and bpf.h.  BpfMachine: the kernel's machine for the emitted
      instructions, the same with symbolic labels, and [bpf_resolve_jumps] relating
      them.  BpfCompare: 64-bit comparisons out of 32-bit ones.
    - SyscallFilter: syscall_filter.c.  Policy: the meaning of a policy, without
      instructions.  FilterCorrect: the compiler implements it.  FilterComplete: it
      accepts every policy that fits.
    - Tables: libsyscalls.gen.c and libconstants.gen.c of linux-x86.  TablesProps: what
      a policy can say with their names.
    - Heap: a heap of objects, separation, the simulation of a program on values by one
      in memory, linked lists.  Blocks: syscall_filter.c with struct filter_block in
      memory.  BlocksProps: it is the compiler of SyscallFilter, and leaks nothing.
    - Codec: bytes of C objects.  OS, Trace: system calls.  System: system.c and
      landlock_util.c.
    - Jail: [struct minijail] and the configuration API (libminijail.c, lines 84
      to 1559), and the handler of signal_handler.c.  JailProps: its invariant.
      JailSpec: what single functions do.  JailMem: the objects the struct owns, from
      minijail_new to minijail_destroy.  JailMemProps: they hold the values of Jail
      and are freed.
    - Marshal, MarshalProps: minijail_marshal and minijail_unmarshal.  FilterWidths: the
      instructions of a compiled policy fit their fields.
    - Enter: mount_dev to minijail_enter.  Emits: the calls that have succeeded by the time
      of a return.  MountProps, EnterProps: what a return guarantees.
    - Fds: the preserved descriptors (get_child_fds, ensure_no_fd_conflict,
      avoid_pipe_conflicts, redirect_fds).  FdsProps: what is behind each number
      afterwards.
    - Run: the rest of libminijail.c, the pipe of the configuration, both sides of
      minijail_run_internal, the init process, waiting and killing.  Preload:
      libminijailpreload.c.  RunProps, HandOver, ParentProps, WaitProps: the order
      of the steps, the pipe, the parent's part, the status.
    - ConfigParser, ConfigProps: config_parser.c.  ConfigMem: the same in memory.
      EnvMem: minijail_copy_env, minijail_setenv and minijail_free_env (util.c) in
      memory.  Elfparse, ElfProps: elfparse.c.
    - Cli: the values of the options and --gen-config (minijail0_cli.c).  CliProps:
      configuration files are read back.  ParseArgs: parse_args() and main() of
      minijail0.c.  ArgsInv, ArgsProps: what an accepted command line guarantees.
      DynamicPolicy: the same with the preloaded library, across both processes.
    - Tools, ToolsProps: parse_seccomp_policy.cc, dump_constants.cc, syscall_wrapper.c;
      policies that are compiled ahead of time.

    ** What the theorems show

    - Policy compiler (FilterCorrect, FilterComplete, BlocksProps, BpfMachine,
      BpfCompare): a program that
      [compile_filter] returns decides every system call as the policy read from
      the file says; it always decides when the rules name existing arguments; an
      unlisted call gets the default action; no system call is listed twice
      (unless allowed) and the program fits the kernel's limit; resolving labels
      does not change behaviour; every comparison is the 64-bit one its operator
      names.  Conversely a policy that can be read, with distinct system calls and
      within the limits of the label table and of the kernel, is compiled.  The
      compiler in memory returns what the one on lists returns, stays inside its
      objects and frees all it allocated.
    - Tables (TablesProps): every listed system call can be allowed and every listed
      constant compared with; a list of allowed system calls compiles to the filter
      that allows exactly these.
    - Configuration (JailProps, JailSpec): whatever sequence of API calls and
      whatever the kernel answers, the configuration is consistent: counts agree
      with tables, tables stay within their arrays, flags do not contradict each
      other or the fields they stand for; every flag is accounted for when the jail
      crosses execve; a policy that was loaded is the filter in the jail.
    - Memory of a jail (JailMemProps): after any sequence of API calls the objects hold
      the values of the configuration, and minijail_destroy frees all of them but the
      ones that setters overwrote, which are counted.
    - Memory of configuration files and of the environment (ConfigMem, EnvMem): what is
      read back from the objects is what the functions on values say, for every file
      and every sequence of calls, and all of it is freed.
    - Marshalling (MarshalProps): the announced size is exact, a short buffer gets a
      prefix and an error, and reading the bytes back rebuilds the jail.
    - Entering (EnterProps, MountProps): a return from [minijail_enter] means that
      what was asked for was granted, in order; where the code goes on without a part of
      it (a bind mount it passes over, KEEP_CAPS that is locked, strict mode the kernel
      does not know) the trace shows the reason, and what a build leaves out (the filter
      under address sanitizer) is written in the specification; the capability sets are
      exact; with no_new_privs nothing but the last two steps follows the filter;
      mounts are made in order at their place.
    - Running (FdsProps, RunProps, ParentProps): the child's descriptors are the
      ones asked for; execve(2) happens only after the parent's part is done, the
      jail is entered and the hooks have run; the parent finishes its part before it
      releases the child, and kills it when a step fails.
    - The preloaded library (HandOver): it reads the configuration that was sent,
      calls main() only inside the jail, and restores the environment.
    - Waiting (WaitProps): the reported status is the program's, also through the
      init process of a pid namespace.
    - minijail0 (ArgsProps, CliProps, ConfigProps, ElfProps): a command line that is
      accepted describes a consistent jail, and the program is executed in that jail
      only; with -S a static program runs only behind a filter that decides as the
      policy file says, and so does a dynamic one (DynamicPolicy): what the parent writes
      into the pipe makes the library install that filter before it calls main(); a
      generated configuration file is read back as the same options; files are parsed as
      their grammar says; the linkage is that of the program headers.
    - Policies compiled ahead of time (FilterWidths, ToolsProps): the binary that
      parse_seccomp_policy writes is read back by minijail0 as the program that was
      compiled.
    - util.c (UtilProps): parsers against the grammar they document, environment
      arrays as maps, lines and tokens.

    ** Fuel and bounds

    Loops over text ([tokenize_all], [getmultiline], [parse_constant], the lines of a
    policy) take fuel from the length of the text, one more than the most
    iterations it allows; [strtok]-like scans are structural.  The retry loop of
    lookup_user has the fuel its doubling allows, and a theorem that it is enough.
    The policy compiler recurses once into an included file, which cannot include
    another.  The machine's fuel is the program's length, since jumps only go
    forward.  Loops that the kernel's answers can prolong without bound (writing to
    the pipe, waiting, reaping, listing descriptors) take fuel as an argument and end
    in [ILoop], which is not a return; the theorems that such a loop returns say how
    much fuel is enough.

    ** Not modelled

    The Python policy compiler, the Rust bindings, the programs that generate the
    tables, tests, the usage texts; getopt_long(3), whose results are arguments; the C
    library's __libc_start_main, which runs the main function it is given; allocation
    failure; the padding of [struct minijail] in its bytes; Android and 32-bit branches;
    most log messages.  The fork is one call with two answers: the child and the parent
    are the two branches of one program, and what joins them (the pipes) is stated on
    their traces.  The buffers of getline(3) and the strings that are taken apart in place
    are modelled by their contents. *)

From Stdlib Require Export ZArith Ascii String Lia Bool.
From stdpp Require Export base tactics list strings gmap numbers.

#[export] Set Default Goal Selector "!".
#[export] Set Warnings "-clear-no-such-hyp,-level-tolerance".

(** ** Machine integers

    A C integer of [w] bits is a [Z]; the conversions below are the wrap-around
    the C conversion rules give on a two's complement LP64 machine. *)

Definition uwrap (w z : Z) : Z := (z mod 2 ^ w)%Z.
Definition swrap (w z : Z) : Z := ((z + 2 ^ (w - 1)) mod 2 ^ w - 2 ^ (w - 1))%Z.

Abbreviation u8 := (uwrap 8).
Abbreviation u16 := (uwrap 16).
Abbreviation u32 := (uwrap 32).
Abbreviation u64 := (uwrap 64).
Abbreviation s32 := (swrap 32).
Abbreviation s64 := (swrap 64).

Definition LONG_MAX : Z := 9223372036854775807.
Definition LONG_MIN : Z := -9223372036854775808.
Definition ULONG_MAX : Z := 18446744073709551615.

Lemma uwrap_range w z : (0 <= w → 0 <= uwrap w z < 2 ^ w)%Z.
Proof. intros. apply Z.mod_pos_bound, Z.pow_pos_nonneg; lia. Qed.

Lemma uwrap_small w z : (0 <= z < 2 ^ w)%Z → uwrap w z = z.
Proof. apply Z.mod_small. Qed.

(** ** C strings

    The bytes of a C string before its terminating NUL are a [list ascii]; a
    buffer that may hold a NUL in the middle is read as a string by [c_str]. *)

Abbreviation cstr := (list ascii).

Definition str (s : string) : cstr := String.list_ascii_of_string s.

Arguments str _ : simpl never.

Definition NUL : ascii := "000".

(** The C string a byte buffer holds: everything before the first NUL. *)
Fixpoint c_str (buf : list ascii) : cstr :=
  match buf with
  | [] => []
  | c :: rest => if bool_decide (c = NUL) then [] else c :: c_str rest
  end.

(** ** Outcomes

    [Ret a]: the function returned [a]; [Die]: [die()], [pdie()], [abort()] or
    [exit()] ended the process; [Undef]: the code read or wrote outside an
    object, which C leaves undefined. *)

Inductive outcome (A : Type) : Type :=
  | Ret (a : A)
  | Die
  | Undef.
Arguments Ret {A} a.
Arguments Die {A}.
Arguments Undef {A}.

#[export] Instance outcome_ret : MRet outcome := @Ret.
#[export] Instance outcome_bind : MBind outcome := λ A B f m,
  match m with Ret a => f a | Die => Die | Undef => Undef end.

Lemma bind_Ret {A B} (f : A → outcome B) m b :
  mbind f m = Ret b → ∃ a, m = Ret a ∧ f a = Ret b.
Proof. destruct m; simpl; naive_solver. Qed.

(** ** Field update

    [r <| f := v |>] is the record [r] with its field [f] set to [v]; the setter
    of a field is computed from the record's eta-expansion. *)

Class Eta (R : Type) := eta : R → R.
Class Setter {R E : Type} (p : R → E) := modify : (E → E) → R → R.
Arguments modify {R E} p {_} _ _ : simpl never.

Ltac build_setter :=
  match goal with
  | |- @Setter ?R ?E ?p =>
      exact (fun (upd : E -> E) (r : R) => ltac:(
        let body := eval hnf in (@eta R _ r) in
        let body := eval pattern (p r) in body in
        match body with
        | ?ctx _ => let res := eval cbv beta in (ctx (upd (p r))) in exact res
        end))
  end.
#[export] Hint Extern 1 (Setter _) => build_setter : typeclass_instances.

Notation "r <| f := v |>" := (modify f (fun _ => v) r)
  (at level 12, left associativity, f at next level, format "r  <| f  :=  v |>").

(** ** Automation *)

Create HintDb mj discriminated.

(** Invert the successful bind of an outcome computation. *)
Ltac inv_bind :=
  repeat match goal with
  | H : mbind _ _ = Ret _ |- _ =>
      let x := fresh "x" in let E := fresh "E" in
      apply bind_Ret in H as (x & E & H)
  | H : Ret _ = Ret _ |- _ => injection H as H
  | H : Die = Ret _ |- _ => discriminate H
  | H : Undef = Ret _ |- _ => discriminate H
  end.
