(* ===== verification/CLib.v ===== *)
(** * The C library functions the sources call

    Character classes, the [strtol] family, searching and splitting strings, and
    [getline].  These are standard-library functions: each definition follows
    the behaviour ISO C and POSIX document for a string given as the list of its
    bytes, on an LP64 machine and in the "C" locale. *)

From stdpp Require Import pretty.
From S2P Require Import Prelude.
Local Open Scope Z_scope.

(** ** Characters *)

Definition SPACE : ascii := " ".
Definition TAB : ascii := "009".
Definition NL : ascii := "010".
Definition code_of (c : ascii) : Z := Z.of_N (N_of_ascii c).

Definition isblank (c : ascii) : bool := bool_decide (c = SPACE ∨ c = TAB).

(** [isspace]: space and the control characters 9 to 13. *)
Definition isspace (c : ascii) : bool :=
  bool_decide (c = SPACE) || ((9 <=? code_of c) && (code_of c <=? 13)).

Definition isalpha (c : ascii) : bool :=
  ((65 <=? code_of c) && (code_of c <=? 90)) || ((97 <=? code_of c) && (code_of c <=? 122)).

(** The value of a digit of base at most 36. *)
Definition digit_val (c : ascii) : option Z :=
  let n := code_of c in
  if (48 <=? n) && (n <=? 57) then Some (n - 48)
  else if (97 <=? n) && (n <=? 122) then Some (n - 87)
  else if (65 <=? n) && (n <=? 90) then Some (n - 55)
  else None.

Definition is_digit_in (base : Z) (c : ascii) : bool :=
  match digit_val c with Some d => d <? base | None => false end.

(** ** The strtol family *)

Fixpoint skip_space (s : cstr) : cstr :=
  match s with
  | c :: rest => if isspace c then skip_space rest else s
  | [] => []
  end.

Fixpoint scan_digits (base acc : Z) (s : cstr) : Z * cstr :=
  match s with
  | c :: rest =>
      match digit_val c with
      | Some d => if d <? base then scan_digits base (acc * base + d) rest else (acc, s)
      | None => (acc, s)
      end
  | [] => (acc, [])
  end.

Definition scan_sign (s : cstr) : bool * cstr :=
  match s with
  | "-"%char :: rest => (true, rest)
  | "+"%char :: rest => (false, rest)
  | _ => (false, s)
  end.

(** The base in force after an optional 0x or 0 prefix, and the digits left. *)
Definition scan_base (base : Z) (s : cstr) : Z * cstr :=
  match s with
  | "0"%char :: x :: h :: rest =>
      if bool_decide (x = "x"%char ∨ x = "X"%char) && is_digit_in 16 h
         && ((base =? 0) || (base =? 16))
      then (16, h :: rest)
      else (if base =? 0 then 8 else base, s)
  | "0"%char :: _ => (if base =? 0 then 8 else base, s)
  | _ => (if base =? 0 then 10 else base, s)
  end.

(** Sign, magnitude (unbounded) and unparsed rest; [None]: no digits. *)
Definition scan_number (base : Z) (s : cstr) : option (bool * Z * cstr) :=
  let '(neg, s1) := scan_sign (skip_space s) in
  let '(b, s2) := scan_base base s1 in
  match s2 with
  | c :: _ =>
      if is_digit_in b c
      then let '(v, rest) := scan_digits b 0 s2 in Some (neg, v, rest)
      else None
  | [] => None
  end.

Definition signed_of (neg : bool) (v : Z) : Z := if neg then - v else v.

(** [strtol(s, &end, base)]: value, [*end], and whether errno was set to ERANGE. *)
Definition strtol (s : cstr) (base : Z) : Z * cstr * bool :=
  match scan_number base s with
  | None => (0, s, false)
  | Some (neg, v, rest) =>
      let z := signed_of neg v in
      if LONG_MAX <? z then (LONG_MAX, rest, true)
      else if z <? LONG_MIN then (LONG_MIN, rest, true)
      else (z, rest, false)
  end.

(** [strtoul] and [strtoull]: a minus sign negates in the unsigned type. *)
Definition strtoul (s : cstr) (base : Z) : Z * cstr * bool :=
  match scan_number base s with
  | None => (0, s, false)
  | Some (neg, v, rest) =>
      if ULONG_MAX <? v then (ULONG_MAX, rest, true)
      else (u64 (signed_of neg v), rest, false)
  end.

(** ** Comparison, search and splitting *)

Definition streq (s1 s2 : cstr) : bool := bool_decide (s1 = s2).

(** [strncmp(s1, s2, n) == 0] *)
Definition strncmp_eq (s1 s2 : cstr) (n : nat) : bool :=
  bool_decide (take n s1 = take n s2).

(** [strncmp(s, p, strlen(p)) == 0]: [s] starts with [p]. *)
Definition starts_with (p s : cstr) : bool := strncmp_eq s p (length p).

(** [strstr(s, delim)], as what lies before and after the first occurrence. *)
Fixpoint strstr_split (delim s : cstr) : option (cstr * cstr) :=
  if starts_with delim s then Some ([], drop (length delim) s)
  else match s with
       | [] => None
       | c :: rest =>
           match strstr_split delim rest with
           | Some (pre, post) => Some (c :: pre, post)
           | None => None
           end
       end.

(** [strchr(s, c)], as what lies before and after the first [c]. *)
Fixpoint strchr_split (c : ascii) (s : cstr) : option (cstr * cstr) :=
  match s with
  | [] => None
  | x :: rest =>
      if bool_decide (x = c) then Some ([], rest)
      else match strchr_split c rest with
           | Some (pre, post) => Some (x :: pre, post)
           | None => None
           end
  end.

Fixpoint skip_char (c : ascii) (s : cstr) : cstr :=
  match s with
  | x :: rest => if bool_decide (x = c) then skip_char c rest else s
  | [] => []
  end.

(** [strtok_r] with a one-character delimiter set: the next token and what is
    left for the following call; [None]: no token is left. *)
Definition strtok (c : ascii) (s : cstr) : option (cstr * cstr) :=
  match skip_char c s with
  | [] => None
  | s' => match strchr_split c s' with
          | Some (tok, rest) => Some (tok, rest)
          | None => Some (s', [])
          end
  end.

(** [strsep(&s, "c")] on a non-NULL [s]: the token and the new [s]. *)
Definition strsep (c : ascii) (s : cstr) : cstr * option cstr :=
  match strchr_split c s with
  | Some (tok, rest) => (tok, Some rest)
  | None => (s, None)
  end.

(** ** Output *)

(** [printf("%d", z)] *)
Definition fmt_d (z : Z) : cstr := str (pretty z).

(** [snprintf(buf, size, ...)] of an already formatted text. *)
Definition snprintf (size : nat) (text : cstr) : cstr := take (size - 1) text.

(** ** Streams

    An open file is the list of bytes not read yet; reading never fails, so a
    read that returns nothing is at end of file. *)

(** [getline]: the bytes up to and including the next newline; [None] is -1. *)
Fixpoint getline (stream : list ascii) : option (list ascii * list ascii) :=
  match stream with
  | [] => None
  | c :: rest =>
      if bool_decide (c = NL) then Some ([c], rest)
      else match getline rest with
           | Some (line, rest') => Some (c :: line, rest')
           | None => Some ([c], [])
           end
  end.

(** ** Lemmas *)

Lemma scan_digits_suffix base acc s :
  suffix (scan_digits base acc s).2 s.
Proof.
  revert acc; induction s as [|c s IH]; intros acc; simpl; [done|].
  destruct (digit_val c); [|done]. case_match; [|done].
  apply suffix_cons_r, IH.
Qed.

Lemma starts_with_spec p s : starts_with p s = true ↔ prefix p s.
Proof.
  unfold starts_with, strncmp_eq. rewrite bool_decide_eq_true, (take_ge p) by done.
  split; [intros <-; apply prefix_take|]. intros [t ->]. by rewrite take_app_length.
Qed.

Lemma starts_with_app p s : starts_with p (p ++ s) = true.
Proof. apply starts_with_spec. by exists s. Qed.

Lemma strstr_split_Some delim s pre post :
  strstr_split delim s = Some (pre, post) → s = pre ++ delim ++ post.
Proof.
  revert pre post; induction s as [|c s IH]; intros pre post; simpl.
  - destruct (starts_with delim []) eqn:E; [|done]. intros [= <- <-].
    apply starts_with_spec in E as [t Ht]. by destruct delim.
  - destruct (starts_with delim (c :: s)) eqn:E.
    + intros [= <- <-]. apply starts_with_spec in E as [t ->].
      by rewrite drop_app_length.
    + destruct (strstr_split delim s) as [[]|]; [|done].
      intros [= <- <-]. simpl. by f_equal; apply IH.
Qed.

Lemma strstr_split_length delim s pre post :
  strstr_split delim s = Some (pre, post) →
  length s = (length pre + length delim + length post)%nat.
Proof. intros ->%strstr_split_Some. rewrite !length_app. lia. Qed.

Lemma strchr_split_Some c s pre post :
  strchr_split c s = Some (pre, post) → s = pre ++ c :: post ∧ c ∉ pre.
Proof.
  revert pre post; induction s as [|x s IH]; intros pre post; simpl; [done|].
  case_bool_decide as E.
  - intros [= <- <-]. subst. split; [done|set_solver].
  - destruct (strchr_split c s) as [[]|]; [|done]. intros [= <- <-].
    destruct (IH _ _ eq_refl) as [-> ?]. set_solver.
Qed.

Lemma strchr_split_None c s : strchr_split c s = None ↔ c ∉ s.
Proof.
  induction s as [|x s IH]; simpl; [set_solver|].
  case_bool_decide as E; [set_solver|].
  destruct (strchr_split c s) as [[]|]; set_solver.
Qed.

Lemma strchr_split_app c pre post :
  c ∉ pre → strchr_split c (pre ++ c :: post) = Some (pre, post).
Proof.
  induction pre as [|x pre IH]; intros H; simpl.
  - by rewrite bool_decide_true.
  - rewrite bool_decide_false by set_solver. rewrite IH by set_solver. done.
Qed.

Lemma getline_Some stream line rest :
  getline stream = Some (line, rest) →
  stream = line ++ rest ∧ line ≠ [].
Proof.
  revert line rest; induction stream as [|c s IH]; intros line rest; simpl; [done|].
  case_bool_decide; [by intros [= <- <-]|].
  destruct (getline s) as [[l r]|] eqn:E.
  - intros [= <- <-]. destruct (IH _ _ eq_refl) as [-> _]. done.
  - intros [= <- <-]. destruct s; [done|]. simpl in E.
    destruct (bool_decide _); [done|]. by destruct (getline s) as [[]|].
Qed.

Lemma getline_shorter stream line rest :
  getline stream = Some (line, rest) → (length rest < length stream)%nat.
Proof.
  intros [-> H]%getline_Some. rewrite length_app. destruct line; [done|simpl; lia].
Qed.
