(* ===== verification/Util.v ===== *)
(** * util.c and util.h

    Lookup in the generated tables, the constant and size parsers, string
    helpers, buffer cursors, environment arrays, line reading with continuation
    lines, and the logging configuration. *)

From S2P Require Import Prelude CLib.
Local Open Scope Z_scope.

(** ** Build configuration

    What the build generates or selects: the system call and constant tables
    (names with the numbers the kernel headers give), and the compile-time
    switches of util.h, syscall_filter.c and syscall_filter.h, and the paths of the
    preloaded library and of the default new root. *)

Class BuildConfig := {
  syscall_table : list (cstr * Z);
  constant_table : list (cstr * Z);
  debug_logging_allowed : bool;
  seccomp_default_ret_log : bool;
  block_symlinks_in_bindmount_paths : bool;
  block_symlinks_in_noninit_mountns_tmp : bool;
  bindmount_allowed_prefixes : cstr;
  seccomp_can_softfail : bool;
  allow_duplicate_syscalls : bool;
  running_with_asan : bool;
  preloadpath : cstr;
  default_pivot_root : cstr;
  block_noexec_conf : bool;
  enforce_rootfs_conf : bool;
}.

(** System calls used by syslog(3), for x86_64 without Android. *)
Definition log_syscalls : list cstr :=
  [str "socket"; str "connect"; str "sendto"; str "writev"].

Definition EINVAL : Z := 22.
Definition ENOMEM : Z := 12.
Definition ERANGE : Z := 34.

(** ** Table lookup *)

Section Tables.
Context {B : BuildConfig}.

(** [syscall_table_size]: the table's entries and its terminator. *)
Definition get_num_syscalls : nat := S (length syscall_table).

Fixpoint lookup_syscall_from (ind : nat) (entries : list (cstr * Z)) (name : cstr) : Z * Z :=
  match entries with
  | [] => (-1, u64 (-1))
  | (entry_name, nr) :: rest =>
      if nr <? 0 then (-1, u64 (-1))
      else if streq entry_name name then (nr, Z.of_nat ind)
      else lookup_syscall_from (S ind) rest name
  end.

(** The system call number and the index stored through [ind]. *)
Definition lookup_syscall (name : cstr) : Z * Z := lookup_syscall_from 0 syscall_table name.

Fixpoint lookup_syscall_name_from (entries : list (cstr * Z)) (nr : Z) : option cstr :=
  match entries with
  | [] => None
  | (entry_name, entry_nr) :: rest =>
      if entry_nr <? 0 then None
      else if entry_nr =? nr then Some entry_name
      else lookup_syscall_name_from rest nr
  end.

Definition lookup_syscall_name (nr : Z) : option cstr :=
  lookup_syscall_name_from syscall_table nr.

Fixpoint lookup_constant (entries : list (cstr * Z)) (name : cstr) : option Z :=
  match entries with
  | [] => None
  | (entry_name, value) :: rest =>
      if streq entry_name name then Some value else lookup_constant rest name
  end.

(** ** Constants

    A parser reports an error by leaving [*endptr] at the start of the string;
    that result is [None] here. *)

Definition parse_single_constant (constant_str : cstr) : option Z :=
  match lookup_constant constant_table constant_str with
  | Some value => Some (s64 value)
  | None =>
      let '(res, endptr, erange) := strtol constant_str 0 in
      let '(res, endptr, overflow) :=
        if erange then
          if res =? LONG_MAX then
            let '(ures, uend, uerange) := strtoul constant_str 0 in
            (s64 ures, uend, uerange)
          else (res, endptr, true)
        else (res, endptr, false) in
      if overflow then None
      else match endptr with
           | _ :: _ => None
           | [] => if bool_decide (constant_str = []) then None else Some res
           end
  end.

(** Scan for the closing parenthesis with [paren_count] still open. *)
Fixpoint find_close (paren_count : nat) (s : cstr) : option (cstr * cstr) :=
  match s with
  | [] => None
  | c :: rest =>
      let cons_to r :=
        match r with Some (group, after) => Some (c :: group, after) | None => None end in
      if bool_decide (c = "("%char) then cons_to (find_close (S paren_count) rest)
      else if bool_decide (c = ")"%char) then
        match paren_count with
        | S (S n) => cons_to (find_close (S n) rest)
        | _ => Some ([], rest)
        end
      else cons_to (find_close paren_count rest)
  end.

(** The text between the parentheses, and what follows them. *)
Definition tokenize_parenthesized_expression (s : cstr) : option (cstr * cstr) :=
  match s with
  | "("%char :: rest => find_close 1 rest
  | _ => None
  end.

(** The next token of [*stringp] and the new [*stringp]. *)
Definition tokenize (stringp : option cstr) (delim : cstr) : option cstr * option cstr :=
  match stringp with
  | None => (None, None)
  | Some s =>
      match delim with
      | [] => (Some s, None)
      | _ => match strstr_split delim s with
             | Some (ret, rest) => (Some ret, Some rest)
             | None => (Some s, None)
             end
      end
  end.

(** The successive tokens of [while ((t = tokenize(&s, delim)) != NULL)]. *)
Fixpoint tokenize_loop (fuel : nat) (stringp : option cstr) (delim : cstr) : list cstr :=
  match fuel with
  | O => []
  | S n => match tokenize stringp delim with
           | (Some t, rest) => t :: tokenize_loop n rest delim
           | (None, _) => []
           end
  end.

Definition tokenize_all (stringp : option cstr) (delim : cstr) : list cstr :=
  tokenize_loop (S (S (length (default [] stringp)))) stringp delim.

(** The body of the loop of [parse_constant]: [constant_str] may be NULL. *)
Fixpoint parse_constant_loop (fuel : nat) (constant_str : option cstr) (value : Z) : option Z :=
  match fuel with
  | O => None
  | S n =>
    match constant_str with
    | None | Some [] => Some value
    | Some (c :: rest) =>
      let negate := bool_decide (c = "~"%char) in
      let s := if negate then rest else c :: rest in
      let continue (current_value : Z) (next : option cstr) :=
        let current_value := if negate then Z.lnot current_value else current_value in
        parse_constant_loop n next (Z.lor value current_value) in
      if bool_decide (head s = Some "("%char) then
        match tokenize_parenthesized_expression s with
        | None => None
        | Some (group, after) =>
          match (match group with [] => None | _ => parse_constant_loop n (Some group) 0 end) with
          | None => None
          | Some current_value =>
            match after with
            | [] => continue current_value (Some [])
            | "|"%char :: [] => None
            | "|"%char :: after' => continue current_value (Some after')
            | _ => None
            end
          end
        end
      else
        match tokenize (Some s) (str "|") with
        | (Some group, next) =>
          match parse_single_constant group with
          | None => None
          | Some current_value => continue current_value next
          end
        | (None, _) => None
        end
    end
  end.

Definition parse_constant (constant_str : cstr) : option Z :=
  match constant_str with
  | [] => None
  | _ => parse_constant_loop (S (S (length constant_str))) (Some constant_str) 0
  end.

End Tables.

(** ** Sizes *)

Definition size_prefixes : cstr := str "KMGTPE".

(** 1024 to the position of the suffix letter plus one, or 1. *)
Fixpoint size_multiplier (mult : Z) (prefixes : cstr) (last : ascii) : Z :=
  match prefixes with
  | [] => 1
  | p :: rest => if bool_decide (p = last) then mult else size_multiplier (mult * 1024) rest last
  end.

(** The return code and the value written through [result], if any; [errno0]
    is the value errno has on entry. *)
Definition parse_size (errno0 : Z) (sizespec : cstr) : Z * option Z :=
  match sizespec, list.last sizespec with
  | c :: _, Some lastc =>
      if bool_decide (c = "-"%char) then (- EINVAL, None) else
      let multiplier := size_multiplier 1024 size_prefixes lastc in
      let '(parsed, endp, erange) := strtoul sizespec 10 in
      if parsed =? ULONG_MAX then (- (if erange then ERANGE else errno0), None)
      else if ULONG_MAX <=? parsed then (- ERANGE, None)
      else if (negb (multiplier =? 1) && negb (length endp =? 1)%nat)
           || ((multiplier =? 1) && negb (length endp =? 0)%nat)
      then (- EINVAL, None)
      else
        let nsize := u64 (parsed * multiplier) in
        if negb (nsize / multiplier =? parsed) then (- ERANGE, None) else (0, Some nsize)
  | _, _ => (- EINVAL, None)
  end.

(** ** Strings and paths *)

Fixpoint strip_left (s : cstr) : cstr :=
  match s with
  | c :: rest => if isblank c then strip_left rest else s
  | [] => []
  end.

Fixpoint strip_right (s : cstr) : cstr :=
  match s with
  | [] => []
  | c :: rest =>
      match strip_right rest with
      | [] => if isblank c || bool_decide (c = NL) then [] else [c]
      | r => c :: r
      end
  end.

Definition strip (s : cstr) : cstr := strip_right (strip_left s).

Definition path_join (external_path internal_path : cstr) : cstr :=
  external_path ++ str "/" ++ internal_path.

(** An empty [parent] and a non-empty [child] make the code read [parent[-1]]. *)
Definition path_is_parent (parent child : cstr) : outcome bool :=
  if strncmp_eq parent child (length parent) then
    if (length parent <? length child)%nat then
      match list.last parent with
      | None => Undef
      | Some c => Ret (bool_decide (c = "/"%char)
                       || bool_decide (child !! length parent = Some "/"%char))
      end
    else Ret false
  else Ret false.

(** ** Buffer cursors *)

(** The bytes consumed and the rest of the buffer; [None] is NULL. *)
Definition consumebytes (length_ : nat) (buf : list ascii) : option (list ascii * list ascii) :=
  if (length buf <? length_)%nat then None else Some (take length_ buf, drop length_ buf).

(** The string consumed, without its terminator, and the rest of the buffer. *)
Definition consumestr (buf : list ascii) : option (cstr * list ascii) :=
  let len := length (c_str buf) in
  if (len =? length buf)%nat then None
  else match consumebytes (S len) buf with
       | Some (_, rest) => Some (c_str buf, rest)
       | None => None
       end.

(** ** Logging *)

Inductive logging_system_t := LOG_TO_SYSLOG | LOG_TO_FD.

Record logging_config_t := {
  logger : logging_system_t;
  log_fd : Z;
  min_priority : Z;
}.

Definition initial_logging_config : logging_config_t :=
  {| logger := LOG_TO_SYSLOG; log_fd := 0; min_priority := 0 |}.

Definition init_logging (l : logging_system_t) (fd priority : Z) : logging_config_t :=
  {| logger := l; log_fd := fd; min_priority := priority |}.

Inductive log_event :=
  | Syslog (priority : Z) (msg : cstr)
  | FdWrite (fd : Z) (msg : cstr).

(** What logging a formatted message emits. *)
Definition do_log (cfg : logging_config_t) (priority : Z) (msg : cstr) : list log_event :=
  match logger cfg with
  | LOG_TO_SYSLOG => [Syslog priority msg]
  | LOG_TO_FD =>
      if min_priority cfg <? priority then []
      else [FdWrite (log_fd cfg) msg; FdWrite (log_fd cfg) [NL]]
  end.

(** [do_fatal_log] logs whatever the priority and then aborts. *)
Definition do_fatal_log (cfg : logging_config_t) (priority : Z) (msg : cstr)
    : list log_event * outcome unit :=
  (match logger cfg with
   | LOG_TO_SYSLOG => [Syslog priority msg]
   | LOG_TO_FD => [FdWrite (log_fd cfg) msg; FdWrite (log_fd cfg) [NL]]
   end, Die).

(** ** Environment arrays

    A NULL-terminated array of strings is the list of its entries. *)

Definition minijail_copy_env (env : option (list cstr)) : list cstr := default [] env.

Definition env_entry_matches (name entry : cstr) : bool :=
  strncmp_eq entry name (length name) && bool_decide (entry !! length name = Some "="%char).

(** Whether [name] is found, and its index, or else the array's length. *)
Fixpoint getenv_index (envp : list cstr) (name : cstr) : bool * nat :=
  match envp with
  | [] => (false, O)
  | entry :: rest =>
      if env_entry_matches name entry then (true, O)
      else let '(found, i) := getenv_index rest name in (found, S i)
  end.

(** The return code and the array after the call. *)
Definition minijail_setenv (env : option (list cstr)) (name value : option cstr)
    (overwrite : bool) : Z * option (list cstr) :=
  match env, name, value with
  | Some envp, Some (c :: n), Some v =>
      let name := c :: n in
      let new_entry := name ++ str "=" ++ v in
      match getenv_index envp name with
      | (true, i) => if negb overwrite then (0, env) else (0, Some (<[i := new_entry]> envp))
      | (false, _) => (0, Some (envp ++ [new_entry]))
      end
  | _, _, _ => (EINVAL, env)
  end.

Definition minijail_getenv (envp : option (list cstr)) (name : option cstr) : option cstr :=
  match envp, name with
  | Some envp, Some name =>
      match getenv_index envp name with
      | (true, i) => drop (length name + 1) <$> envp !! i
      | (false, _) => None
      end
  | _, _ => None
  end.

(** The returned flag and the array after the call: the last entry takes the
    place of the one removed. *)
Definition minijail_unsetenv (envp : option (list cstr)) (name : option cstr)
    : bool * option (list cstr) :=
  match envp, name with
  | Some envp, Some name =>
      match getenv_index envp name with
      | (true, i) =>
          let last_ := (length envp - 1)%nat in
          match envp !! last_ with
          | Some e => (true, Some (take last_ (<[i := e]> envp)))
          | None => (false, Some envp)
          end
      | (false, _) => (false, Some envp)
      end
  | _, _ => (false, envp)
  end.

(** ** Reading lines *)

Definition BACKSLASH : ascii := "092".

(** Drop a newline at the end of a line. *)
Definition eat_newline (line : list ascii) : list ascii :=
  if bool_decide (list.last line = Some NL) then take (length line - 1) line else line.

(** A line with its continuation lines merged, or [None] for -1, and the stream
    afterwards. *)
Fixpoint getmultiline_fuel (fuel : nat) (stream : list ascii)
    : option (list ascii) * list ascii :=
  match fuel with
  | O => (None, stream)
  | S n =>
      match getline stream with
      | None => (None, stream)
      | Some (line, stream) =>
          let line := eat_newline line in
          if bool_decide (list.last line = Some BACKSLASH) then
            let line := take (length line - 1) line in
            match getmultiline_fuel n stream with
            | (None, stream) => (None, stream)
            | (Some next_line, stream) => (Some (line ++ SPACE :: next_line), stream)
            end
          else (Some line, stream)
      end
  end.

Definition getmultiline (stream : list ascii) : option (list ascii) * list ascii :=
  getmultiline_fuel (S (length stream)) stream.
