(* ===== verification/UtilProps.v ===== *)
(** * Properties of util.c

    Tokenizing, stripping, size and constant parsing, environment arrays,
    buffer cursors and continuation lines. *)

From S2P Require Import Prelude CLib Util.
Local Open Scope Z_scope.

(** ** Tokens *)

(** [join d ts]: the tokens [ts] with the delimiter between them. *)
Fixpoint join (d : cstr) (ts : list cstr) : cstr :=
  match ts with
  | [] => []
  | [t] => t
  | t :: rest => t ++ d ++ join d rest
  end.

Lemma join_cons d t ts : ts ≠ [] → join d (t :: ts) = t ++ d ++ join d ts.
Proof. by destruct ts. Qed.

Lemma strstr_split_first delim s pre post :
  delim ≠ [] → strstr_split delim s = Some (pre, post) → strstr_split delim pre = None.
Proof.
  intros Hd. revert pre post; induction s as [|c s IH]; intros pre post; simpl.
  - destruct (starts_with delim []) eqn:E; [|done]. apply starts_with_spec in E as [t Ht].
    by destruct delim.
  - destruct (starts_with delim (c :: s)) eqn:E.
    + intros [= <- _]. simpl. destruct (starts_with delim []) eqn:E'; [|done].
      apply starts_with_spec in E' as [t Ht]. by destruct delim.
    + destruct (strstr_split delim s) as [[p q]|] eqn:Es; [|done]. intros [= <- <-]. simpl.
      destruct (starts_with delim (c :: p)) eqn:E'.
      * apply starts_with_spec in E' as [t Ht]. apply strstr_split_Some in Es. subst s.
        assert (starts_with delim (c :: p ++ delim ++ q) = true) as E2; [|congruence].
        apply starts_with_spec. exists (t ++ delim ++ q).
        rewrite app_comm_cons, Ht. by rewrite <- app_assoc.
      * by rewrite (IH _ _ eq_refl).
Qed.

Lemma tokenize_Some s delim :
  delim ≠ [] →
  tokenize (Some s) delim =
    match strstr_split delim s with
    | Some (ret, rest) => (Some ret, Some rest)
    | None => (Some s, None)
    end.
Proof. by destruct delim. Qed.

Lemma tokenize_loop_join fuel s delim :
  delim ≠ [] → (length s < fuel)%nat →
  let ts := tokenize_loop (S fuel) (Some s) delim in
  ts ≠ [] ∧ join delim ts = s ∧ Forall (λ t, strstr_split delim t = None) ts.
Proof.
  intros Hd. revert s; induction fuel as [|fuel IH]; intros s Hf; [lia|].
  remember (S fuel) as m. cbn [tokenize_loop]. rewrite tokenize_Some by done. subst m.
  destruct (strstr_split delim s) as [[pre post]|] eqn:E.
  - pose proof (strstr_split_first _ _ _ _ Hd E) as Hn.
    pose proof (strstr_split_length _ _ _ _ E) as Hl. apply strstr_split_Some in E as ->.
    assert (0 < length delim)%nat by (destruct delim; [done|simpl; lia]).
    destruct (IH post) as (Ht & Hj & HF); [lia|]. split_and!; [done| |].
    + rewrite join_cons by done. by rewrite Hj.
    + by constructor.
  - cbn. split_and!; [done|done|by repeat constructor].
Qed.

(** [tokenize] called until it returns NULL splits a string at a non-empty
    delimiter without losing anything: the tokens joined by the delimiter are
    the string, and no token contains the delimiter. *)
Theorem tokenize_all_spec s delim :
  delim ≠ [] →
  join delim (tokenize_all (Some s) delim) = s ∧
  Forall (λ t, strstr_split delim t = None) (tokenize_all (Some s) delim).
Proof. intros Hd. by apply (tokenize_loop_join (S (length s)) s delim); [|lia]. Qed.

Lemma tokenize_all_spec_witness :
  tokenize_all (Some (str "a||b|c||")) (str "||") = [str "a"; str "b|c"; []] ∧
  join (str "||") (tokenize_all (Some (str "a||b|c||")) (str "||")) = str "a||b|c||".
Proof. split; [reflexivity|]. apply tokenize_all_spec. discriminate. Defined.

(** ** Stripping *)

Definition strippable_right (c : ascii) : bool := isblank c || bool_decide (c = NL).

Lemma strip_left_spec s :
  ∃ pre, s = pre ++ strip_left s ∧ Forall isblank pre ∧
         ∀ c, head (strip_left s) = Some c → isblank c = false.
Proof.
  induction s as [|c s (pre & Hs & Hp & Hh)]; simpl.
  - by exists [].
  - destruct (isblank c) eqn:E.
    + exists (c :: pre). split_and!; [by rewrite Hs at 1| |done]. constructor; [by rewrite E|done].
    + exists []. split_and!; [done|done|]. by intros ? [= <-].
Qed.

Lemma strip_right_spec s :
  ∃ post, s = strip_right s ++ post ∧ Forall strippable_right post ∧
          ∀ c, list.last (strip_right s) = Some c → strippable_right c = false.
Proof.
  induction s as [|c s (post & Hs & Hp & Hl)]; simpl.
  - by exists [].
  - destruct (strip_right s) as [|x r] eqn:Er.
    + destruct (isblank c || bool_decide (c = NL)) eqn:E.
      * exists (c :: post). split_and!; [by rewrite Hs at 1| |done].
        constructor; [by unfold strippable_right; rewrite E|done].
      * exists post. split_and!; [by rewrite Hs at 1|done|]. by intros ? [= <-].
    + exists post. split_and!; [by rewrite Hs at 1|done|]. by rewrite last_cons_cons.
Qed.

(** [strip] removes exactly the blanks at the front and the blanks and
    newlines at the end: what is left is a contiguous part of the string that
    neither starts with a blank nor ends with a blank or a newline. *)
Theorem strip_spec s :
  ∃ pre post, s = pre ++ strip s ++ post ∧ Forall isblank pre ∧ Forall strippable_right post ∧
    (∀ c, head (strip s) = Some c → isblank c = false) ∧
    (∀ c, list.last (strip s) = Some c → strippable_right c = false).
Proof.
  unfold strip. destruct (strip_left_spec s) as (pre & Hs & Hp & Hh).
  destruct (strip_right_spec (strip_left s)) as (post & Hs' & Hp' & Hl).
  exists pre, post. split_and!; try done.
  - rewrite Hs at 1. by f_equal.
  - intros c Hc. apply Hh. rewrite Hs'. by destruct (strip_right _).
Qed.

(** ** Decimal numbers *)

Definition is_decimal (c : ascii) : bool := (48 <=? code_of c) && (code_of c <=? 57).

Definition dec_value (ds : cstr) : Z := foldl (λ acc c, acc * 10 + (code_of c - 48)) 0 ds.

Lemma is_decimal_val c : is_decimal c → digit_val c = Some (code_of c - 48) ∧ 0 <= code_of c - 48 < 10.
Proof.
  unfold is_decimal, digit_val. intros H%Is_true_true. rewrite H.
  apply andb_true_iff in H. split; [done|lia].
Qed.

Lemma scan_digits_decimal ds acc rest :
  Forall is_decimal ds → (∀ c, head rest = Some c → is_digit_in 10 c = false) →
  scan_digits 10 acc (ds ++ rest) = (foldl (λ acc c, acc * 10 + (code_of c - 48)) acc ds, rest).
Proof.
  intros Hds Hr. revert acc; induction Hds as [|c ds Hc Hds IH]; intros acc; simpl.
  - destruct rest as [|c rest]; simpl; [done|]. specialize (Hr c eq_refl).
    unfold is_digit_in in Hr. destruct (digit_val c); [|done]. by rewrite Hr.
  - destruct (is_decimal_val c Hc) as [-> ?]. rewrite (proj2 (Z.ltb_lt _ _)) by lia. apply IH.
Qed.

Lemma foldl_dec_nonneg ds acc :
  Forall is_decimal ds → 0 <= acc → 0 <= foldl (λ acc c, acc * 10 + (code_of c - 48)) acc ds.
Proof.
  intros H. revert acc. induction H as [|c ds Hc Hds IH]; intros acc Hacc; simpl; [done|].
  apply IH. destruct (is_decimal_val c Hc). lia.
Qed.

Lemma dec_value_nonneg ds : Forall is_decimal ds → 0 <= dec_value ds.
Proof. intros. by apply foldl_dec_nonneg. Qed.

(** A decimal digit is none of the characters the scanners treat apart. *)
Lemma is_decimal_plain c s :
  is_decimal c → isspace c = false ∧ scan_sign (c :: s) = (false, c :: s).
Proof.
  intros H. destruct c as [b0 b1 b2 b3 b4 b5 b6 b7].
  destruct b7, b6, b5, b4, b3, b2, b1, b0; try done; by vm_compute in H.
Qed.

Lemma scan_base_10 s : scan_base 10 s = (10, s).
Proof.
  destruct s as [|c [|x [|h r]]]; [done| | |].
  all: destruct c as [b0 b1 b2 b3 b4 b5 b6 b7]; destruct b7, b6, b5, b4, b3, b2, b1, b0; try done.
  simpl. by rewrite andb_false_r.
Qed.

Lemma scan_number_decimal ds rest :
  ds ≠ [] → Forall is_decimal ds → (∀ c, head rest = Some c → is_digit_in 10 c = false) →
  scan_number 10 (ds ++ rest) = Some (false, dec_value ds, rest).
Proof.
  intros Hne Hds Hr. destruct ds as [|c ds]; [done|]. inversion Hds as [|? ? Hc Hds']; subst.
  unfold scan_number. destruct (is_decimal_plain c (ds ++ rest) Hc) as [Hsp Hsg].
  simpl skip_space. rewrite Hsp, Hsg, scan_base_10.
  destruct (is_decimal_val c Hc) as [Hv Hlt]. unfold is_digit_in.
  rewrite Hv, (proj2 (Z.ltb_lt _ _)) by lia.
  pose proof (scan_digits_decimal (c :: ds) 0 rest Hds Hr) as Hscan.
  rewrite <- app_comm_cons in Hscan. by rewrite Hscan.
Qed.

(** ** Sizes *)

(** The suffixes of a size and what they stand for. *)
Definition suffix_exponent (sfx : cstr) : option Z :=
  match sfx with
  | [] => Some 0
  | [c] => if bool_decide (c = "K"%char) then Some 1
           else if bool_decide (c = "M"%char) then Some 2
           else if bool_decide (c = "G"%char) then Some 3
           else if bool_decide (c = "T"%char) then Some 4
           else if bool_decide (c = "P"%char) then Some 5
           else if bool_decide (c = "E"%char) then Some 6
           else None
  | _ => None
  end.

Lemma decimal_not_prefix c : is_decimal c → size_multiplier 1024 size_prefixes c = 1.
Proof.
  intros H. destruct c as [b0 b1 b2 b3 b4 b5 b6 b7].
  destruct b7, b6, b5, b4, b3, b2, b1, b0; try done; by vm_compute in H.
Qed.

Lemma suffix_exponent_cases sfx e :
  suffix_exponent sfx = Some e →
  0 <= e <= 6 ∧
  ((sfx = [] ∧ e = 0) ∨
   ∃ c, sfx = [c] ∧ 1 <= e ∧ size_multiplier 1024 size_prefixes c = 1024 ^ e ∧ is_digit_in 10 c = false).
Proof.
  destruct sfx as [|c [|]]; simpl; [intros [= <-]; split; [lia|by left]| |done].
  repeat case_bool_decide; intros [= <-]; (split; [lia|right]); subst; by eexists.
Qed.

(** On a decimal number with an optional K, M, G, T, P or E suffix,
    [parse_size] writes number * 1024^exponent when that fits a size_t and
    returns -ERANGE without writing when it does not; the one exception is the
    number 2^64 - 1 itself, for which it returns the negated errno it was
    called with and writes nothing. *)
Theorem parse_size_spec errno0 ds sfx e :
  ds ≠ [] → Forall is_decimal ds → suffix_exponent sfx = Some e →
  parse_size errno0 (ds ++ sfx) =
    (if dec_value ds =? ULONG_MAX then (- errno0, None)
     else if dec_value ds * 1024 ^ e <=? ULONG_MAX then (0, Some (dec_value ds * 1024 ^ e))
     else (- ERANGE, None)).
Proof.
  intros Hne Hds He. apply suffix_exponent_cases in He as [Hr He].
  pose proof (dec_value_nonneg ds Hds) as H0.
  assert (∃ c s lastc, ds ++ sfx = c :: s ∧ is_decimal c ∧ list.last (ds ++ sfx) = Some lastc ∧
    size_multiplier 1024 size_prefixes lastc = 1024 ^ e ∧
    (∀ c, head sfx = Some c → is_digit_in 10 c = false) ∧
    (if 1024 ^ e =? 1 then length sfx = 0%nat else length sfx = 1%nat))
    as (c & s & lastc & Hcs & Hc & Hlast & Hm & Hsfx & Hlen).
  { destruct ds as [|c ds]; [done|]. inversion Hds; subst. exists c, (ds ++ sfx).
    destruct He as [[-> ->]|(x & -> & Hx & Hmx & Hdx)].
    - rewrite app_nil_r. destruct (list.last (c :: ds)) as [l|] eqn:El; [|by apply last_None in El].
      exists l. split_and!; try done; [by rewrite app_nil_r|]. rewrite Z.pow_0_r. apply decimal_not_prefix.
      apply list.last_Some_elem_of in El. rewrite list.Forall_forall in Hds. by apply Hds.
    - exists x. rewrite last_snoc. split_and!; try done; [by intros ? [= <-]|].
      rewrite (proj2 (Z.eqb_neq _ _)); [done|]. pose proof (Z.pow_gt_1 1024 e). lia. }
  pose proof (scan_number_decimal ds sfx Hne Hds Hsfx) as Hscan.
  rewrite Hcs in *. unfold parse_size, strtoul. rewrite Hscan, Hlast.
  rewrite bool_decide_false by (by intros ->). rewrite Hm.
  assert (0 < 1024 ^ e) by (apply Z.pow_pos_nonneg; lia).
  destruct (ULONG_MAX <? dec_value ds) eqn:Eb.
  { rewrite Z.eqb_refl. rewrite (proj2 (Z.eqb_neq _ _)) by lia.
    rewrite (proj2 (Z.leb_gt _ _)); [done|nia]. }
  apply Z.ltb_ge in Eb. unfold signed_of.
  rewrite uwrap_small by (unfold ULONG_MAX in Eb; lia).
  destruct (dec_value ds =? ULONG_MAX) eqn:Eu; [done|]. apply Z.eqb_neq in Eu.
  rewrite (proj2 (Z.leb_gt _ _)) by lia.
  assert ((negb (1024 ^ e =? 1) && negb (length sfx =? 1)%nat
           || (1024 ^ e =? 1) && negb (length sfx =? 0)%nat) = false) as ->.
  { by destruct (1024 ^ e =? 1); rewrite Hlen. }
  destruct (dec_value ds * 1024 ^ e <=? ULONG_MAX) eqn:Ef.
  - apply Z.leb_le in Ef. rewrite uwrap_small by (unfold ULONG_MAX in Ef; nia).
    rewrite Z.div_mul by lia. by rewrite Z.eqb_refl.
  - apply Z.leb_gt in Ef. rewrite (proj2 (Z.eqb_neq _ _)); [done|].
    intros Hd. pose proof (uwrap_range 64 (dec_value ds * 1024 ^ e)).
    pose proof (Z.mul_div_le (u64 (dec_value ds * 1024 ^ e)) (1024 ^ e)).
    unfold ULONG_MAX in Ef. nia.
Qed.

Lemma parse_size_spec_witness :
  parse_size 0 (str "10" ++ str "K") = (0, Some 10240) ∧
  parse_size 0 (str "16" ++ str "E") = (- ERANGE, None).
Proof.
  split.
  - etrans; [apply (parse_size_spec 0 (str "10") (str "K") 1)|reflexivity];
      [discriminate|by repeat constructor|reflexivity].
  - etrans; [apply (parse_size_spec 0 (str "16") (str "E") 6)|reflexivity];
      [discriminate|by repeat constructor|reflexivity].
Defined.

(** The value errno had before the call can be 0: the number 2^64 - 1 is then
    reported as a success although nothing was written. *)
Lemma parse_size_max_reports_success :
  parse_size 0 (str "18446744073709551615") = (0, None).
Proof. reflexivity. Qed.

(** ** Buffer cursors *)

Lemma c_str_app s rest : NUL ∉ s → c_str (s ++ NUL :: rest) = s.
Proof.
  induction s as [|c s IH]; intros H; simpl; [done|].
  rewrite bool_decide_false by set_solver. rewrite IH by set_solver. done.
Qed.

Lemma consumestr_app s rest : NUL ∉ s → consumestr (s ++ NUL :: rest) = Some (s, rest).
Proof.
  intros H. unfold consumestr. rewrite c_str_app by done.
  rewrite (proj2 (Nat.eqb_neq _ _)) by (rewrite length_app; simpl; lia).
  unfold consumebytes.
  rewrite (proj2 (Nat.ltb_ge _ _)) by (rewrite length_app; simpl; lia).
  rewrite drop_app_ge by lia. by replace (S (length s) - length s)%nat with 1%nat by lia.
Qed.

Lemma consumebytes_app bs rest : consumebytes (length bs) (bs ++ rest) = Some (bs, rest).
Proof.
  unfold consumebytes. rewrite (proj2 (Nat.ltb_ge _ _)) by (rewrite length_app; lia).
  by rewrite take_app_length, drop_app_length.
Qed.

(** What [consumestr] returns is always followed by a NUL in the buffer. *)
Lemma c_str_split buf : c_str buf = buf ∨ ∃ rest, buf = c_str buf ++ NUL :: rest.
Proof.
  induction buf as [|c buf IH]; simpl; [by left|].
  case_bool_decide as E; [right; exists buf; by subst|].
  destruct IH as [IH|[rest IH]]; [left; by rewrite IH|right]. exists rest. simpl. by f_equal.
Qed.

Lemma c_str_no_nul buf : NUL ∉ c_str buf.
Proof. induction buf as [|c buf IH]; simpl; [set_solver|]. case_bool_decide; set_solver. Qed.

(** [consumestr] succeeds exactly when the buffer holds a terminated string
    and then splits the buffer at its terminator. *)
Theorem consumestr_spec buf s rest :
  consumestr buf = Some (s, rest) ↔ buf = s ++ NUL :: rest ∧ NUL ∉ s.
Proof.
  split; [|intros [-> ?]; by apply consumestr_app].
  destruct (c_str_split buf) as [E|[r E]].
  - unfold consumestr. rewrite E. by rewrite Nat.eqb_refl.
  - rewrite E at 1. rewrite consumestr_app by apply c_str_no_nul. intros [= <- <-].
    split; [done|apply c_str_no_nul].
Qed.

(** ** Paths *)

(** [path_is_parent] on a non-empty parent holds exactly when the parent is
    a proper prefix of the child that ends at a path boundary, that is the
    prefix ends in a slash or is followed by one. *)
Theorem path_is_parent_spec parent child :
  parent ≠ [] →
  path_is_parent parent child = Ret true ↔
    ∃ rest, child = parent ++ rest ∧ rest ≠ [] ∧
      (list.last parent = Some "/"%char ∨ head rest = Some "/"%char).
Proof.
  intros Hp. unfold path_is_parent, strncmp_eq. rewrite (take_ge parent) by done.
  destruct (list.last parent) as [c|] eqn:El; [|by apply last_None in El].
  split.
  - case_bool_decide as E; [|done]. destruct (_ <? _)%nat eqn:Elt; [|done]. apply Nat.ltb_lt in Elt.
    intros H. exists (drop (length parent) child). rewrite E at 1. rewrite take_drop.
    split; [done|]. split; [intros Hn%(f_equal length); rewrite length_drop in Hn; simpl in Hn; lia|].
    injection H as H. apply orb_true_iff in H as [H|H]; apply bool_decide_eq_true in H.
    + left. congruence.
    + right. rewrite head_lookup, lookup_drop, Nat.add_0_r. done.
  - intros (rest & -> & Hr & Hb). rewrite take_app_length, bool_decide_true by done.
    rewrite (proj2 (Nat.ltb_lt _ _)) by (rewrite length_app; destruct rest; [done|simpl; lia]).
    f_equal. apply orb_true_iff. destruct Hb as [[= ->]|Hb]; [left; by apply bool_decide_true|right].
    apply bool_decide_true. rewrite lookup_app_r, Nat.sub_diag, <- head_lookup by done. done.
Qed.

Lemma path_is_parent_spec_witness :
  path_is_parent (str "/tmp") (str "/tmp/x") = Ret true ∧
  path_is_parent (str "/tmp") (str "/tmpx") = Ret false.
Proof.
  split; [|reflexivity].
  apply (path_is_parent_spec (str "/tmp") (str "/tmp/x")); [discriminate|].
  exists (str "/x"). split_and!; [reflexivity|discriminate|by right].
Defined.

(** ** Environment arrays *)

Lemma env_entry_matches_spec name entry :
  env_entry_matches name entry = true ↔ ∃ v, entry = name ++ str "=" ++ v.
Proof.
  unfold env_entry_matches, strncmp_eq. rewrite (take_ge name) by done.
  rewrite andb_true_iff, !bool_decide_eq_true. split.
  - intros [Ht Hl]. exists (drop (S (length name)) entry).
    change (entry = name ++ ("="%char :: drop (S (length name)) entry)).
    rewrite <- (drop_S _ _ _ Hl). rewrite <- Ht at 1. by rewrite take_drop.
  - intros [v ->]. split; [by rewrite take_app_length|].
    by rewrite lookup_app_r, Nat.sub_diag by done.
Qed.

(** The entry that decides the value of a name: the first that matches. *)
Lemma getenv_index_spec envp name :
  match getenv_index envp name with
  | (true, i) => ∃ e, envp !! i = Some e ∧ env_entry_matches name e = true
                   ∧ ∀ j e', (j < i)%nat → envp !! j = Some e' → env_entry_matches name e' = false
  | (false, i) => i = length envp ∧ ∀ e, e ∈ envp → env_entry_matches name e = false
  end.
Proof.
  induction envp as [|e envp IH]; simpl; [split; [done|set_solver]|].
  destruct (env_entry_matches name e) eqn:E; [by exists e; split_and!; [..|lia]|].
  destruct (getenv_index envp name) as [[] i]; simpl.
  - destruct IH as (e' & He & Hm & Hj). exists e'. split_and!; [done|done|].
    intros [|j] e'' Hlt; simpl; [by intros [= <-]|]. apply Hj. lia.
  - destruct IH as [-> Hn]. split; [done|]. intros e' [->|?]%elem_of_cons; auto.
Qed.

Lemma env_entry_matches_other name name' v :
  "="%char ∉ name → "="%char ∉ name' → name ≠ name' →
  env_entry_matches name' (name ++ str "=" ++ v) = false.
Proof.
  intros H1 H2 Hne. apply not_true_is_false. intros (v' & Hv)%env_entry_matches_spec.
  change (name ++ "="%char :: v = name' ++ "="%char :: v') in Hv.
  pose proof (strchr_split_app "="%char name v H1) as E1.
  rewrite Hv, strchr_split_app in E1 by done. congruence.
Qed.

Lemma getenv_filter envp name :
  minijail_getenv (Some envp) (Some name) =
    drop (length name + 1) <$> list.head (filter (λ e, env_entry_matches name e = true) envp).
Proof.
  simpl. induction envp as [|e envp IH]; simpl; [done|]. rewrite filter_cons.
  destruct (env_entry_matches name e) eqn:E; [by rewrite decide_True by done|].
  rewrite decide_False by done. rewrite <- IH. by destruct (getenv_index envp name) as [[] i].
Qed.

Lemma filter_insert_none {A} (P : A → Prop) `{∀ x, Decision (P x)} (l : list A) i x y :
  l !! i = Some x → ¬ P x → ¬ P y → filter P (<[i:=y]> l) = filter P l.
Proof.
  intros Hl Hx Hy. rewrite <- (take_drop_middle l i x Hl) at 2.
  rewrite insert_take_drop by (by eapply lookup_lt_Some).
  by rewrite !list.filter_app, !filter_cons_False.
Qed.

Lemma getenv_index_insert envp name entry i :
  getenv_index envp name = (true, i) → env_entry_matches name entry = true →
  getenv_index (<[i:=entry]> envp) name = (true, i).
Proof.
  intros Hi He. revert i Hi; induction envp as [|e envp IH]; intros i; simpl; [done|].
  destruct (env_entry_matches name e) eqn:E; [by intros [= <-]; simpl; rewrite He|].
  destruct (getenv_index envp name) as [[] j]; [|done]. intros [= <-]. simpl.
  by rewrite E, (IH j).
Qed.

Lemma getenv_index_snoc envp name entry :
  (∀ e, e ∈ envp → env_entry_matches name e = false) → env_entry_matches name entry = true →
  getenv_index (envp ++ [entry]) name = (true, length envp).
Proof.
  intros Hn He. induction envp as [|e envp IH]; simpl; [by rewrite He|].
  rewrite Hn by set_solver. rewrite IH by set_solver. done.
Qed.

(** After a successful [minijail_setenv], [minijail_getenv] of the name gives
    the new value, or the old one when the name was set and overwriting was not
    asked for, and every other name keeps its value. *)
Theorem minijail_setenv_getenv envp name value overwrite :
  name ≠ [] → "="%char ∉ name →
  ∃ env', minijail_setenv (Some envp) (Some name) (Some value) overwrite = (0, Some env') ∧
    minijail_getenv (Some env') (Some name) =
      (match minijail_getenv (Some envp) (Some name) with
       | Some old => Some (if overwrite then value else old)
       | None => Some value
       end) ∧
    ∀ name', "="%char ∉ name' → name' ≠ name →
      minijail_getenv (Some env') (Some name') = minijail_getenv (Some envp) (Some name').
Proof.
  intros Hne Hn. destruct name as [|c n]; [done|].
  unfold minijail_setenv. set (name := c :: n) in *. set (entry := name ++ str "=" ++ value).
  assert (Hm : env_entry_matches name entry = true) by (apply env_entry_matches_spec; by exists value).
  assert (Hd : drop (length name + 1) entry = value).
  { unfold entry. rewrite drop_app_ge by lia. by replace (_ + 1 - _)%nat with 1%nat by lia. }
  pose proof (getenv_index_spec envp name) as Hi.
  destruct (getenv_index envp name) as [[] i] eqn:Ei.
  - destruct Hi as (e & He & Hme & Hj).
    assert (Hget : minijail_getenv (Some envp) (Some name) = Some (drop (length name + 1) e)).
    { unfold minijail_getenv. rewrite Ei. by rewrite He. }
    destruct overwrite; simpl negb; cbv iota.
    + eexists. split; [done|]. rewrite Hget. split.
      * unfold minijail_getenv. rewrite (getenv_index_insert _ _ _ _ Ei Hm).
        rewrite list_lookup_insert_eq by (by eapply lookup_lt_Some). simpl fmap. by rewrite <- Hd at 2.
      * intros name' Hn' Hne'. rewrite !getenv_filter. do 2 f_equal.
        eapply filter_insert_none; [done| |].
        -- apply env_entry_matches_spec in Hme as [v ->].
           by rewrite env_entry_matches_other by congruence.
        -- unfold entry. by rewrite env_entry_matches_other by congruence.
    + eexists. split; [done|]. by rewrite Hget.
  - destruct Hi as [-> Hno]. eexists. split; [done|]. split.
    + unfold minijail_getenv. rewrite Ei, (getenv_index_snoc _ _ _ Hno Hm).
      rewrite lookup_app_r, Nat.sub_diag by done. simpl fmap. by rewrite <- Hd at 2.
    + intros name' Hn' Hne'. rewrite !getenv_filter. do 2 f_equal.
      rewrite list.filter_app, filter_cons_False, app_nil_r; [done|].
      unfold entry. by rewrite env_entry_matches_other by congruence.
Qed.

Lemma minijail_setenv_getenv_witness :
  ∃ env', minijail_setenv (Some [str "A=1"; str "B=2"]) (Some (str "A")) (Some (str "3")) true
            = (0, Some env') ∧
    minijail_getenv (Some env') (Some (str "A")) = Some (str "3").
Proof.
  destruct (minijail_setenv_getenv [str "A=1"; str "B=2"] (str "A") (str "3") true)
    as (env' & H1 & H2 & _); [discriminate|set_solver|].
  exists env'. split; [exact H1|exact H2].
Defined.

(** [minijail_unsetenv] reports whether the name was set; when it was, exactly
    one entry for the name is gone and the others are kept up to their order,
    and otherwise the array is unchanged. *)
Theorem minijail_unsetenv_spec envp name :
  match minijail_unsetenv (Some envp) (Some name) with
  | (true, Some env') => ∃ e, env_entry_matches name e = true ∧ envp ≡ₚ e :: env'
  | (false, Some env') => env' = envp ∧ ∀ e, e ∈ envp → env_entry_matches name e = false
  | (_, None) => False
  end.
Proof.
  unfold minijail_unsetenv. pose proof (getenv_index_spec envp name) as Hi.
  destruct (getenv_index envp name) as [[] i]; [|by destruct Hi].
  destruct Hi as (e & He & Hm & _). apply lookup_lt_Some in He as Hlt.
  destruct (lookup_lt_is_Some_2 envp (length envp - 1)) as [x Hx]; [lia|]. rewrite Hx.
  exists e. split; [done|].
  assert (envp = take (length envp - 1) envp ++ [x]) as Hsplit.
  { rewrite <- (take_drop_middle _ _ _ Hx) at 1. f_equal. by rewrite drop_ge by lia. }
  set (l := take (length envp - 1) envp) in *. assert (length l = (length envp - 1)%nat) as Hl.
  { unfold l. rewrite length_take. lia. }
  rewrite Hsplit at 2. rewrite <- Hl in *. rewrite Hsplit in He. clearbody l. subst envp.
  destruct (decide (i < length l)%nat).
  - rewrite lookup_app_l in He by done. rewrite insert_app_l by done.
    rewrite take_app_length'; [|by rewrite length_insert].
    rewrite insert_take_drop by done. rewrite <- (take_drop_middle l i e He) at 1.
    rewrite <- app_assoc. simpl. rewrite <- Permutation_middle. constructor.
    apply Permutation_app_head. by rewrite Permutation_app_comm.
  - rewrite length_app in Hlt; simpl in Hlt. assert (i = length l) as -> by lia.
    rewrite lookup_app_r, Nat.sub_diag in He by done. simplify_eq/=.
    rewrite insert_app_r_alt, Nat.sub_diag by done. rewrite <- Hl, take_app_length.
    by rewrite Permutation_app_comm.
Qed.

(** ** Continuation lines *)

Lemma getline_app l rest : NL ∉ l → getline (l ++ NL :: rest) = Some (l ++ [NL], rest).
Proof.
  induction l as [|c l IH]; intros H; simpl; [done|].
  rewrite bool_decide_false by set_solver. by rewrite IH by set_solver.
Qed.

Lemma eat_newline_app l : eat_newline (l ++ [NL]) = l.
Proof.
  unfold eat_newline. rewrite last_snoc, bool_decide_true by done.
  rewrite length_app. simpl. by rewrite Nat.add_sub, take_app_length.
Qed.

(** A logical line as it is written in a file: every part but the last is
    followed by a backslash and a newline. *)
Fixpoint continued (parts : list cstr) (final : cstr) : list ascii :=
  match parts with
  | [] => final ++ [NL]
  | p :: rest => p ++ BACKSLASH :: NL :: continued rest final
  end.

Lemma getmultiline_fuel_continued fuel parts final rest :
  (length parts < fuel)%nat → Forall (λ p, NL ∉ p) parts → NL ∉ final →
  list.last final ≠ Some BACKSLASH →
  getmultiline_fuel fuel (continued parts final ++ rest) =
    (Some (join (str " ") (parts ++ [final])), rest).
Proof.
  intros Hf Hp Hn Hb. revert fuel Hf; induction Hp as [|p parts Hp _ IH]; intros [|fuel] Hf;
    simpl in Hf; try lia; cbn [continued getmultiline_fuel].
  - rewrite <- app_assoc. simpl app. rewrite getline_app by done. rewrite eat_newline_app.
    by rewrite bool_decide_false.
  - rewrite <- app_assoc. simpl app.
    replace (p ++ BACKSLASH :: NL :: continued parts final ++ rest)
      with ((p ++ [BACKSLASH]) ++ NL :: continued parts final ++ rest) by (by rewrite <- app_assoc).
    rewrite getline_app by (rewrite elem_of_app; set_solver). rewrite eat_newline_app.
    rewrite last_snoc, bool_decide_true by done. rewrite length_app, Nat.add_sub, take_app_length.
    rewrite IH by lia. simpl app. rewrite join_cons; [done|]. by destruct parts.
Qed.

Lemma continued_length parts final : (length parts < length (continued parts final))%nat.
Proof.
  induction parts as [|p parts IH]; simpl; rewrite length_app; simpl; lia.
Qed.

(** [getmultiline] returns one logical line: the parts of a line continued
    with backslashes are joined by single spaces, without the backslashes and
    newlines, and the stream is left right behind the line. *)
Theorem getmultiline_continued parts final rest :
  Forall (λ p, NL ∉ p) parts → NL ∉ final → list.last final ≠ Some BACKSLASH →
  getmultiline (continued parts final ++ rest) = (Some (join (str " ") (parts ++ [final])), rest).
Proof.
  intros. apply getmultiline_fuel_continued; [|done..].
  rewrite length_app. pose proof (continued_length parts final). lia.
Qed.

Lemma getmultiline_continued_witness :
  getmultiline (continued [str "read: \"; str "  arg0 == 1"] (str "|| arg0 == 2") ++ str "next")
    = (Some (str "read: \   arg0 == 1 || arg0 == 2"), str "next").
Proof.
  etrans; [apply getmultiline_continued|reflexivity].
  - by repeat constructor; apply (bool_decide_unpack _).
  - by apply (bool_decide_unpack _).
  - discriminate.
Defined.

(** ** Stripped text *)

(** Text that a line of the file can hold as it is. *)
Record plain (s : cstr) : Prop := {
  plain_nonempty : s ≠ [];
  plain_nl : NL ∉ s;
  plain_nul : NUL ∉ s;
  plain_head : ∀ c, head s = Some c → isblank c = false;
  plain_last : ∀ c, list.last s = Some c → strippable_right c = false ∧ c ≠ BACKSLASH;
}.

Lemma strip_left_id s : (∀ c, head s = Some c → isblank c = false) → strip_left s = s.
Proof. destruct s as [|c s]; intros H; cbn; [done|]. by rewrite (H c). Qed.

Lemma strip_right_id s : (∀ c, list.last s = Some c → strippable_right c = false) → strip_right s = s.
Proof.
  induction s as [|c s IH]; intros H; [done|]. cbn. destruct s as [|d s].
  - cbn. specialize (H c eq_refl). unfold strippable_right in H. by rewrite H.
  - rewrite IH; [done|]. intros x Hx. apply H. by rewrite last_cons_cons.
Qed.

Lemma strip_id s :
  (∀ c, head s = Some c → isblank c = false) →
  (∀ c, list.last s = Some c → strippable_right c = false) → strip s = s.
Proof. intros H1 H2. unfold strip. by rewrite strip_left_id, strip_right_id. Qed.

Lemma strip_right_snoc s c : strippable_right c = true → strip_right (s ++ [c]) = strip_right s.
Proof.
  intros Hc. induction s as [|d s IH]; cbn; [|by rewrite IH]. unfold strippable_right in Hc. by rewrite Hc.
Qed.

Lemma strip_plain s : plain s → strip s = s.
Proof. intros []. apply strip_id; [done|]. intros c Hc. by apply plain_last0. Qed.

Lemma strip_plain_space s : plain s → strip (s ++ [SPACE]) = s.
Proof.
  intros [Hne _ _ Hh Hl]. unfold strip. rewrite strip_left_id.
  - rewrite strip_right_snoc by done. apply strip_right_id. intros c Hc. by apply Hl.
  - destruct s; [done|]. exact Hh.
Qed.

Lemma strip_space_plain s : plain s → strip (SPACE :: s) = s.
Proof. intros Hs. by rewrite <- (strip_plain s Hs) at 2. Qed.

Lemma c_str_plain s : NUL ∉ s → c_str s = s.
Proof.
  induction s as [|c s IH]; intros H; [done|]. apply not_elem_of_cons in H as [Hc Hs]. cbn.
  rewrite bool_decide_false by congruence. by rewrite IH.
Qed.

Lemma getmultiline_plain s rest : plain s → getmultiline (s ++ NL :: rest) = (Some s, rest).
Proof.
  intros []. pose proof (getmultiline_fuel_continued (S (length (s ++ NL :: rest))) [] s rest) as H.
  cbn [continued] in H. rewrite <- app_assoc in H. apply H; [simpl; lia|done..|].
  intros [_ Hc]%plain_last0. done.
Qed.

(** A last line that ends in a backslash at the end of the file is lost. *)
Lemma getmultiline_lost_at_eof l :
  NL ∉ l → getmultiline (l ++ [BACKSLASH]) = (None, []).
Proof.
  intros Hl. assert (getline (l ++ [BACKSLASH]) = Some (l ++ [BACKSLASH], [])) as Hg.
  { induction l as [|c l IH]; simpl; [done|]. rewrite bool_decide_false by set_solver.
    by rewrite IH by set_solver. }
  unfold getmultiline. cbn [getmultiline_fuel]. rewrite Hg. unfold eat_newline. rewrite last_snoc.
  rewrite (bool_decide_false (Some BACKSLASH = Some NL)) by done.
  rewrite last_snoc, bool_decide_true by done. destruct (length _) as [|m] eqn:E.
  - rewrite length_app in E. simpl in E. lia.
  - done.
Qed.

(** ** Constant expressions

    The grammar parse_constant documents: terms separated by bars, a term a
    constant or a parenthesised expression, possibly complemented. *)

Inductive cterm :=
  | CSingle (neg : bool) (text : cstr)
  | CGroup (neg : bool) (ts : list cterm).

Section ConstantExpressions.
Context {B : BuildConfig}.

Definition compl (neg : bool) (v : Z) : Z := if neg then Z.lnot v else v.
Definition tilde (neg : bool) : cstr := if neg then str "~" else [].

Fixpoint print_term (t : cterm) : cstr :=
  match t with
  | CSingle neg text => tilde neg ++ text
  | CGroup neg ts => tilde neg ++ str "(" ++ join (str "|") (print_term <$> ts) ++ str ")"
  end.

Definition print_terms (ts : list cterm) : cstr := join (str "|") (print_term <$> ts).

Fixpoint eval_term (t : cterm) : Z :=
  match t with
  | CSingle neg text => compl neg (default 0 (parse_single_constant text))
  | CGroup neg ts => compl neg (foldl Z.lor 0 (eval_term <$> ts))
  end.

(** The texts a constant may have: no operator characters, and a value. *)
Definition plain_constant (text : cstr) : Prop :=
  is_Some (parse_single_constant text) ∧ text ≠ [] ∧
  Forall (λ c, c ∉ str "()|~") text.

Fixpoint wf_term (t : cterm) : Prop :=
  match t with
  | CSingle _ text => plain_constant text
  | CGroup _ ts => ts ≠ [] ∧ foldr (λ t P, wf_term t ∧ P) True ts
  end.

Definition wf_terms (ts : list cterm) : Prop := foldr (λ t P, wf_term t ∧ P) True ts.

Section TermInd.
Variable P : cterm → Prop.
Hypothesis Hsingle : ∀ neg text, P (CSingle neg text).
Hypothesis Hgroup : ∀ neg ts, Forall P ts → P (CGroup neg ts).

Fixpoint cterm_ind' (t : cterm) : P t :=
  match t with
  | CSingle neg text => Hsingle neg text
  | CGroup neg ts =>
      Hgroup neg ts ((fix go ts : Forall P ts :=
        match ts with
        | [] => @Forall_nil _ P
        | t :: ts => @Forall_cons _ P t ts (cterm_ind' t) (go ts)
        end) ts)
  end.

End TermInd.

(** ** Parentheses are matched *)

Definition prepend (pre : cstr) (r : option (cstr * cstr)) : option (cstr * cstr) :=
  match r with Some (g, a) => Some (pre ++ g, a) | None => None end.

(** Scanning for a closing parenthesis passes over [s] as a whole. *)
Definition transparent (s : cstr) : Prop :=
  ∀ n rest, find_close (S n) (s ++ rest) = prepend s (find_close (S n) rest).

Lemma transparent_nil : transparent [].
Proof. intros n rest. simpl. by destruct (find_close (S n) rest) as [[]|]. Qed.

Lemma transparent_app s1 s2 : transparent s1 → transparent s2 → transparent (s1 ++ s2).
Proof.
  intros H1 H2 n rest. rewrite <- app_assoc, H1, H2.
  destruct (find_close (S n) rest) as [[]|]; simpl; [|done]. by rewrite app_assoc.
Qed.

Lemma transparent_char c : c ≠ "("%char → c ≠ ")"%char → transparent [c].
Proof.
  intros H1 H2 n rest. simpl. rewrite !bool_decide_false by done.
  by destruct (find_close (S n) rest) as [[]|].
Qed.

Lemma transparent_paren s : transparent s → transparent (str "(" ++ s ++ str ")").
Proof.
  intros H n rest. rewrite <- !app_assoc. cbn -[str find_close]. change (str "(") with ["("%char].
  change (str ")") with [")"%char]. cbn [app find_close]. rewrite bool_decide_true by done.
  rewrite H. cbn [find_close]. rewrite bool_decide_false, bool_decide_true by done.
  destruct (find_close (S n) rest) as [[]|]; simpl; [|done]. by rewrite <- app_assoc.
Qed.

Lemma transparent_plain text : Forall (λ c, c ∉ str "()|~") text → transparent text.
Proof.
  induction 1 as [|c text Hc _ IH]; [apply transparent_nil|].
  apply (transparent_app [c]); [|done].
  apply transparent_char; intros ->; apply Hc; unfold str; simpl; set_solver.
Qed.

Lemma transparent_tilde neg : transparent (tilde neg).
Proof. destruct neg; [by apply transparent_char|apply transparent_nil]. Qed.

Lemma transparent_join ss : Forall transparent ss → transparent (join (str "|") ss).
Proof.
  induction 1 as [|s ss Hs Hss IH]; [apply transparent_nil|]. destruct ss; [done|].
  rewrite join_cons by done. apply transparent_app; [done|].
  apply transparent_app; [by apply transparent_char|done].
Qed.

Lemma wf_terms_Forall ts : wf_terms ts ↔ Forall wf_term ts.
Proof.
  induction ts as [|t ts IH]; simpl; [by split|]. by rewrite list.Forall_cons, <- IH.
Qed.

Lemma transparent_term t : wf_term t → transparent (print_term t).
Proof.
  induction t as [neg text|neg ts IH] using cterm_ind'; simpl.
  - intros (_ & _ & H). apply transparent_app; [apply transparent_tilde|by apply transparent_plain].
  - intros [_ H]. apply transparent_app; [apply transparent_tilde|].
    apply transparent_paren, transparent_join. apply wf_terms_Forall in H.
    apply list.Forall_fmap. rewrite list.Forall_forall in IH, H |- *. intros t Ht. simpl. auto.
Qed.

(** ** Parsing inverts printing *)

Lemma plain_not_bar text : Forall (λ c, c ∉ str "()|~") text → "|"%char ∉ text.
Proof. rewrite list.Forall_forall. intros H Hb. apply (H _ Hb). unfold str; simpl. set_solver. Qed.

Lemma strstr_bar_app text rest :
  "|"%char ∉ text → strstr_split (str "|") (text ++ str "|" ++ rest) = Some (text, rest).
Proof.
  change (str "|" ++ rest) with ("|"%char :: rest). change (str "|") with ["|"%char].
  induction text as [|c text IH]; intros H; simpl.
  - by destruct rest.
  - assert (starts_with ["|"%char] (c :: text ++ "|"%char :: rest) = false) as ->.
    { unfold starts_with, strncmp_eq; simpl. apply bool_decide_false. set_solver. }
    by rewrite IH by set_solver.
Qed.

Lemma strstr_bar_None text : "|"%char ∉ text → strstr_split (str "|") text = None.
Proof.
  change (str "|") with ["|"%char]. induction text as [|c text IH]; intros H; simpl; [done|].
  assert (starts_with ["|"%char] (c :: text) = false) as ->.
  { unfold starts_with, strncmp_eq; simpl. apply bool_decide_false. set_solver. }
  by rewrite IH by set_solver.
Qed.

(** The text after a term: nothing, or a bar and more terms. *)
Definition after_term (ts : list cterm) : cstr :=
  match ts with [] => [] | _ => str "|" ++ print_terms ts end.

Lemma print_terms_cons t ts : print_terms (t :: ts) = print_term t ++ after_term ts.
Proof. destruct ts; [unfold print_terms; simpl; by rewrite app_nil_r|done]. Qed.

Lemma print_term_nonempty t : wf_term t → (0 < length (print_term t))%nat.
Proof.
  destruct t as [neg text|neg ts]; simpl; rewrite length_app; [|simpl; lia].
  intros (_ & H & _). destruct text; [done|simpl; lia].
Qed.

Lemma print_terms_nonempty ts : ts ≠ [] → wf_terms ts → (0 < length (print_terms ts))%nat.
Proof.
  destruct ts as [|t ts]; [done|]. intros _ [Ht _]. rewrite print_terms_cons, length_app.
  apply print_term_nonempty in Ht. lia.
Qed.

Lemma tilde_head neg s c :
  head s = Some c → c ≠ "~"%char →
  ∃ x r, tilde neg ++ s = x :: r ∧ bool_decide (x = "~"%char) = neg ∧
         (if neg then r else x :: r) = s.
Proof.
  intros Hs Hc. destruct neg.
  - exists "~"%char, s. by split_and!.
  - destruct s as [|y s]; [done|]. simpl in Hs. simplify_eq. exists c, s.
    split_and!; [done|by apply bool_decide_false|done].
Qed.

Lemma parse_loop_single n neg text ts v x :
  plain_constant text → parse_single_constant text = Some x →
  parse_constant_loop (S n) (Some (tilde neg ++ text ++ after_term ts)) v =
    parse_constant_loop n (match ts with [] => None | _ => Some (print_terms ts) end)
      (Z.lor v (compl neg x)).
Proof.
  intros (_ & Hne & Hpl) Hx. destruct text as [|c0 t0] eqn:Et; [done|]. rewrite <- Et in *.
  assert (c0 ≠ "~"%char ∧ c0 ≠ "("%char) as [Hc1 Hc2].
  { rewrite Et in Hpl. inversion Hpl as [|? ? H]; subst.
    split; intros ->; apply H; unfold str; simpl; set_solver. }
  assert (head (text ++ after_term ts) = Some c0) as Hh by (by rewrite Et).
  destruct (tilde_head neg _ _ Hh Hc1) as (y & r & -> & Hy & Hs).
  cbn [parse_constant_loop]. rewrite Hy, Hs, Hh, (bool_decide_false (Some c0 = _)) by congruence.
  rewrite tokenize_Some by done. pose proof (plain_not_bar _ Hpl) as Hbar.
  destruct ts as [|t ts]; cbn [after_term].
  - rewrite app_nil_r, strstr_bar_None, Hx by done. by destruct neg.
  - rewrite strstr_bar_app, Hx by done. by destruct neg.
Qed.

Lemma parse_loop_group n neg ts0 ts v :
  wf_terms ts0 → ts0 ≠ [] → wf_terms ts →
  parse_constant_loop (S n)
    (Some (tilde neg ++ (str "(" ++ print_terms ts0 ++ str ")") ++ after_term ts)) v =
    match parse_constant_loop n (Some (print_terms ts0)) 0 with
    | None => None
    | Some x => parse_constant_loop n (Some (print_terms ts)) (Z.lor v (compl neg x))
    end.
Proof.
  intros Hw0 Hne Hw.
  destruct (tilde_head neg ((str "(" ++ print_terms ts0 ++ str ")") ++ after_term ts) "("%char)
    as (y & r & -> & Hy & Hs); [done|done|].
  cbn [parse_constant_loop]. rewrite Hy, Hs.
  assert (tokenize_parenthesized_expression ((str "(" ++ print_terms ts0 ++ str ")") ++ after_term ts)
          = Some (print_terms ts0, after_term ts)) as ->.
  { simpl. rewrite <- app_assoc. unfold print_terms.
    rewrite (transparent_join (print_term <$> ts0)); [by simpl; rewrite app_nil_r|].
    apply list.Forall_fmap. apply wf_terms_Forall in Hw0.
    eapply list.Forall_impl; [exact Hw0|]. apply transparent_term. }
  rewrite bool_decide_true by done.
  pose proof (print_terms_nonempty ts0 Hne Hw0) as Hl0.
  destruct (print_terms ts0) as [|p0 s0]; [simpl in Hl0; lia|].
  destruct (parse_constant_loop n (Some (p0 :: s0)) 0) as [x|]; [|done].
  destruct ts as [|t ts]; cbn [after_term]; [by destruct neg|].
  pose proof (print_terms_nonempty (t :: ts) ltac:(done) Hw) as Hl.
  destruct (print_terms (t :: ts)) as [|p s]; [simpl in Hl; lia|]. by destruct neg.
Qed.

Lemma parse_loop_terms n ts v :
  wf_terms ts → (length (print_terms ts) < n)%nat →
  parse_constant_loop n (Some (print_terms ts)) v = Some (foldl Z.lor v (eval_term <$> ts)).
Proof.
  revert ts v; induction n as [|n IH]; intros ts v Hw Hn; [lia|].
  destruct ts as [|t ts]; [done|]. destruct Hw as [Ht Hw]. fold (wf_terms ts) in Hw.
  rewrite print_terms_cons in *. rewrite length_app in Hn.
  pose proof (print_term_nonempty t Ht) as Hl.
  assert (length (print_terms ts) <= length (after_term ts))%nat as Hla
    by (destruct ts; simpl; lia).
  destruct t as [neg text|neg ts0]; cbn [print_term].
  - pose proof Ht as ((x & Hx) & _). rewrite <- app_assoc, (parse_loop_single _ _ _ _ _ x) by done.
    simpl fmap. simpl foldl. rewrite Hx. simpl. destruct ts as [|t ts].
    + by destruct n; [simpl in *; lia|].
    + apply IH; [done|lia].
  - destruct Ht as [Hne Hw0]. rewrite <- app_assoc. fold (print_terms ts0).
    rewrite parse_loop_group by done. simpl in Hl, Hn. rewrite !length_app in Hn. simpl in Hn.
    fold (print_terms ts0) in Hn. rewrite !length_app in Hn; simpl in Hn.
    rewrite (IH ts0 0) by (done || lia). rewrite IH by (done || lia). done.
Qed.

(** C40: [parse_constant] inverts the documented grammar: the text of a
    bar-separated list of constants and parenthesised expressions, each possibly
    complemented, evaluates to the disjunction of its terms. *)
Theorem parse_constant_print ts :
  ts ≠ [] → wf_terms ts →
  parse_constant (print_terms ts) = Some (foldl Z.lor 0 (eval_term <$> ts)).
Proof.
  intros Hne Hw. pose proof (print_terms_nonempty ts Hne Hw) as Hl.
  unfold parse_constant. destruct (print_terms ts) eqn:E; [simpl in Hl; lia|].
  rewrite <- E. apply parse_loop_terms; [done|]. rewrite E. simpl. lia.
Qed.

(** ** Constants fit a long *)

Definition is_long (z : Z) : Prop := LONG_MIN <= z <= LONG_MAX.

Lemma is_long_shiftr z : is_long z ↔ Z.shiftr z 63 = 0 ∨ Z.shiftr z 63 = -1.
Proof.
  rewrite Z.shiftr_div_pow2 by lia. unfold is_long, LONG_MIN, LONG_MAX.
  Z.div_mod_to_equations. lia.
Qed.

Lemma is_long_lor a b : is_long a → is_long b → is_long (Z.lor a b).
Proof.
  rewrite !is_long_shiftr, Z.shiftr_lor. intros [->| ->] [->| ->]; auto.
Qed.

Lemma is_long_compl neg a : is_long a → is_long (compl neg a).
Proof. destruct neg; [|done]. unfold compl, Z.lnot, is_long, LONG_MIN, LONG_MAX. lia. Qed.

Lemma s64_is_long z : is_long (s64 z).
Proof.
  unfold swrap, is_long, LONG_MIN, LONG_MAX.
  pose proof (Z.mod_pos_bound (z + 2 ^ (64 - 1)) (2 ^ 64)). lia.
Qed.

Lemma strtol_is_long s base : is_long (strtol s base).1.1.
Proof.
  unfold strtol, is_long. destruct (scan_number base s) as [[[neg v] rest]|];
    [|unfold LONG_MIN, LONG_MAX; simpl; lia].
  destruct (LONG_MAX <? _) eqn:E1; [unfold LONG_MIN, LONG_MAX; simpl; lia|].
  destruct (_ <? LONG_MIN) eqn:E2; [unfold LONG_MIN, LONG_MAX; simpl; lia|].
  apply Z.ltb_ge in E1, E2. simpl. lia.
Qed.

Lemma parse_single_constant_is_long s v : parse_single_constant s = Some v → is_long v.
Proof.
  unfold parse_single_constant. destruct (lookup_constant constant_table s).
  - intros [= <-]. apply s64_is_long.
  - pose proof (strtol_is_long s 0) as Hl. destruct (strtol s 0) as [[res endp] er]. simpl in Hl.
    destruct (strtoul s 0) as [[ures uend] uer].
    destruct er; [destruct (res =? LONG_MAX)|]; intros H; repeat (case_match; try done); simplify_eq;
      try done; apply s64_is_long.
Qed.

Lemma parse_constant_loop_is_long n s v r :
  is_long v → parse_constant_loop n s v = Some r → is_long r.
Proof.
  revert s v r; induction n as [|n IH]; intros s v r Hv; [done|].
  cbn [parse_constant_loop]. destruct s as [[|c rest]|]; [by intros [= <-]| |by intros [= <-]].
  set (neg := bool_decide (c = "~"%char)). set (s := if neg then rest else c :: rest).
  assert (∀ x next, is_long x →
    parse_constant_loop n next (Z.lor v (if neg then Z.lnot x else x)) = Some r → is_long r) as Hcont.
  { intros x next Hx. apply IH. apply is_long_lor; [done|]. apply (is_long_compl neg x Hx). }
  destruct (bool_decide (head s = _)).
  - destruct (tokenize_parenthesized_expression s) as [[[|g0 g] after]|]; [done| |done].
    destruct (parse_constant_loop n (Some (g0 :: g)) 0) as [x|] eqn:Ex; [|done].
    apply IH in Ex; [|unfold is_long, LONG_MIN, LONG_MAX; lia].
    intros H. repeat (case_match; try discriminate); (eapply Hcont; [exact Ex|eassumption]).
  - destruct (tokenize (Some s) (str "|")) as [[g|] next]; [|done].
    destruct (parse_single_constant g) as [x|] eqn:Ex; [|done].
    apply parse_single_constant_is_long in Ex. by apply Hcont.
Qed.

(** A constant that parses is a value of type long, whatever the text. *)
Theorem parse_constant_is_long s v : parse_constant s = Some v → is_long v.
Proof.
  unfold parse_constant. destruct s; [done|]. apply parse_constant_loop_is_long.
  unfold is_long, LONG_MIN, LONG_MAX. lia.
Qed.

End ConstantExpressions.

(** ** A small configuration for examples: a few rows of the x86_64 tables. *)
Definition example_config : BuildConfig := {|
  syscall_table := [(str "read", 0); (str "write", 1); (str "open", 2); (str "close", 3);
                    (str "ioctl", 16); (str "writev", 20); (str "socket", 41); (str "connect", 42);
                    (str "sendto", 44); (str "exit", 60)];
  constant_table := [(str "EPERM", 1); (str "O_RDONLY", 0); (str "O_WRONLY", 1); (str "O_RDWR", 2);
                     (str "PROT_READ", 1); (str "PROT_WRITE", 2); (str "PROT_EXEC", 4);
                     (str "TCGETS", 21505)];
  debug_logging_allowed := true;
  seccomp_default_ret_log := false;
  block_symlinks_in_bindmount_paths := false;
  block_symlinks_in_noninit_mountns_tmp := false;
  bindmount_allowed_prefixes := str "/dev,/sys";
  seccomp_can_softfail := false;
  allow_duplicate_syscalls := false;
  running_with_asan := false;
  preloadpath := str "/lib/libminijailpreload.so";
  default_pivot_root := str "/var/empty";
  block_noexec_conf := false;
  enforce_rootfs_conf := true;
|}.

Lemma parse_constant_print_witness :
  let ts := [CGroup true [CSingle false (str "PROT_READ"); CSingle false (str "PROT_EXEC")];
             CSingle false (str "0x10")] in
  print_terms ts = str "~(PROT_READ|PROT_EXEC)|0x10" ∧
  parse_constant (B := example_config) (print_terms ts) = Some (-6).
Proof.
  split; [reflexivity|].
  etrans; [apply (parse_constant_print (B := example_config))|reflexivity]; [discriminate|].
  repeat (split; try discriminate); try (by eexists); try (by repeat constructor; apply (bool_decide_unpack _)).
Defined.

Lemma parse_constant_is_long_witness :
  parse_constant (B := example_config) (str "~0x10") = Some (-17) ∧ is_long (-17).
Proof. split; [reflexivity|]. by apply (parse_constant_is_long (B := example_config) (str "~0x10")). Defined.
