(* ===== verification/Bpf.v ===== *)
(** * bpf.c and bpf.h

    The instruction emitters, the size-aware argument comparisons (64-bit
    build), the label table and the jump resolver.  A function of the source
    that fills a buffer and returns the number of instructions written is the
    list of these instructions. *)

From S2P Require Import Prelude CLib Util.
Local Open Scope Z_scope.

(** ** Instructions (struct sock_filter of linux/filter.h) *)

Record sock_filter := Instr { code : Z; jt : Z; jf : Z; k : Z }.

#[export] Instance eta_sock_filter : Eta sock_filter := λ i,
  Instr i.(code) i.(jt) i.(jf) i.(k).
#[export] Instance sock_filter_eq_dec : EqDecision sock_filter.
Proof. solve_decision. Defined.

Definition BPF_LD : Z := 0.
Definition BPF_ST : Z := 2.
Definition BPF_JMP : Z := 5.
Definition BPF_RET : Z := 6.
Definition BPF_W : Z := 0.
Definition BPF_ABS : Z := 32.
Definition BPF_MEM : Z := 96.
Definition BPF_JA : Z := 0.
Definition BPF_JEQ : Z := 16.
Definition BPF_JGT : Z := 32.
Definition BPF_JGE : Z := 48.
Definition BPF_JSET : Z := 64.
Definition BPF_K : Z := 0.
Definition BPF_MAXINSNS : nat := Z.to_nat 4096.

(** ** Comparison operators *)

Definition MIN_OPERATOR : Z := 128.
Definition EQ : Z := 128.
Definition NE : Z := 129.
Definition LT : Z := 130.
Definition LE : Z := 131.
Definition GT : Z := 132.
Definition GE : Z := 133.
Definition SET : Z := 134.
Definition IN : Z := 135.

(** ** Return values and the layout of struct seccomp_data *)

Definition SECCOMP_RET_KILL_PROCESS : Z := 0x80000000.
Definition SECCOMP_RET_KILL : Z := 0x00000000.
Definition SECCOMP_RET_TRAP : Z := 0x00030000.
Definition SECCOMP_RET_ERRNO : Z := 0x00050000.
Definition SECCOMP_RET_LOG : Z := 0x7ffc0000.
Definition SECCOMP_RET_ALLOW : Z := 0x7fff0000.
Definition SECCOMP_RET_DATA : Z := 0x0000ffff.

(** struct seccomp_data: the data a filter inspects. *)
Record seccomp_data := {
  sd_nr : Z;
  sd_arch : Z;
  sd_instruction_pointer : Z;
  sd_args : list Z;
}.

Definition syscall_nr : Z := 0.
Definition arch_nr : Z := 4.
Definition offsetof_args : Z := 16.

(** [offsetof(struct seccomp_data, args[(idx)])] and its high word; [idx] is an
    [int], the offset a [size_t] that the instruction's [k] truncates. *)
Definition LO_ARG (idx : Z) : Z := u64 (offsetof_args + 8 * idx).
Definition HI_ARG (idx : Z) : Z := u64 (LO_ARG idx + 4).

(** AUDIT_ARCH_X86_64, the x86_64 branch of arch.h. *)
Definition MINIJAIL_ARCH_NR : Z := 0xC000003E.

(** ** Emitting one instruction *)

Definition NEXT : Z := 0.
Definition SKIP : Z := 1.
Definition SKIPN (n : Z) : Z := n.

Definition JUMP_JT : Z := 0xff.
Definition JUMP_JF : Z := 0xff.
Definition LABEL_JT : Z := 0xfe.
Definition LABEL_JF : Z := 0xfe.

Definition set_bpf_instr (code_ k_ jt_ jf_ : Z) : sock_filter :=
  Instr (u16 code_) (u8 jt_) (u8 jf_) (u32 k_).

Definition set_bpf_stmt (code_ k_ : Z) : sock_filter := set_bpf_instr code_ k_ 0 0.
Definition set_bpf_jump (code_ k_ jt_ jf_ : Z) : sock_filter := set_bpf_instr code_ k_ jt_ jf_.
Definition set_bpf_lbl (lbl_id : Z) : sock_filter :=
  set_bpf_jump (BPF_JMP + BPF_JA) lbl_id LABEL_JT LABEL_JF.
Definition set_bpf_jump_lbl (lbl_id : Z) : sock_filter :=
  set_bpf_jump (BPF_JMP + BPF_JA) lbl_id JUMP_JT JUMP_JF.
Definition set_bpf_ret_kill : sock_filter := set_bpf_stmt (BPF_RET + BPF_K) SECCOMP_RET_KILL.
Definition set_bpf_ret_kill_process : sock_filter :=
  set_bpf_stmt (BPF_RET + BPF_K) SECCOMP_RET_KILL_PROCESS.
Definition set_bpf_ret_trap : sock_filter := set_bpf_stmt (BPF_RET + BPF_K) SECCOMP_RET_TRAP.
Definition set_bpf_ret_errno (errno_ : Z) : sock_filter :=
  set_bpf_stmt (BPF_RET + BPF_K) (Z.lor SECCOMP_RET_ERRNO (Z.land errno_ SECCOMP_RET_DATA)).
Definition set_bpf_ret_log : sock_filter := set_bpf_stmt (BPF_RET + BPF_K) SECCOMP_RET_LOG.
Definition set_bpf_ret_allow : sock_filter := set_bpf_stmt (BPF_RET + BPF_K) SECCOMP_RET_ALLOW.
Definition bpf_load_syscall_nr : sock_filter := set_bpf_stmt (BPF_LD + BPF_W + BPF_ABS) syscall_nr.

(** ** Architecture and system call number *)

Definition bpf_validate_arch : list sock_filter :=
  [set_bpf_stmt (BPF_LD + BPF_W + BPF_ABS) arch_nr;
   set_bpf_jump (BPF_JMP + BPF_JEQ + BPF_K) MINIJAIL_ARCH_NR SKIP NEXT;
   set_bpf_ret_kill].

Definition bpf_allow_syscall (nr : Z) : list sock_filter :=
  [set_bpf_jump (BPF_JMP + BPF_JEQ + BPF_K) nr NEXT SKIP;
   set_bpf_stmt (BPF_RET + BPF_K) SECCOMP_RET_ALLOW].

Definition bpf_allow_syscall_args (nr id : Z) : list sock_filter :=
  [set_bpf_jump (BPF_JMP + BPF_JEQ + BPF_K) nr NEXT SKIP;
   set_bpf_jump_lbl id].

(** ** Argument loading and comparison, 64-bit build *)

Definition bpf_load_arg (argidx : Z) : list sock_filter :=
  [set_bpf_stmt (BPF_LD + BPF_W + BPF_ABS) (LO_ARG argidx);
   set_bpf_stmt BPF_ST 0;
   set_bpf_stmt (BPF_LD + BPF_W + BPF_ABS) (HI_ARG argidx);
   set_bpf_stmt BPF_ST 1].

Definition lo_word (c : Z) : Z := Z.land c 0xFFFFFFFF.
Definition hi_word (c : Z) : Z := u32 (Z.shiftr c 32).

Definition bpf_comp_jeq32 (c jt_ jf_ : Z) : list sock_filter :=
  [set_bpf_jump (BPF_JMP + BPF_JEQ + BPF_K) (lo_word c) jt_ jf_].

(** A jump offset passed to a comparison is an [unsigned char]. *)
Definition bpf_comp_jeq64 (c jt_ jf_ : Z) : list sock_filter :=
  bpf_comp_jeq32 (hi_word c) NEXT (u8 (SKIPN 2 + jf_))
  ++ [set_bpf_stmt (BPF_LD + BPF_MEM) 0]
  ++ bpf_comp_jeq32 (lo_word c) jt_ jf_.

Definition bpf_comp_jgt32 (c jt_ jf_ : Z) : list sock_filter :=
  [set_bpf_jump (BPF_JMP + BPF_JGT + BPF_K) (lo_word c) jt_ jf_].

Definition bpf_comp_jge32 (c jt_ jf_ : Z) : list sock_filter :=
  [set_bpf_jump (BPF_JMP + BPF_JGE + BPF_K) (lo_word c) jt_ jf_].

Definition bpf_comp_jgt64 (c jt_ jf_ : Z) : list sock_filter :=
  let hi := hi_word c in
  (if hi =? 0 then bpf_comp_jgt32 hi (u8 (SKIPN 2 + jt_)) NEXT
   else bpf_comp_jgt32 hi (u8 (SKIPN 3 + jt_)) NEXT
        ++ bpf_comp_jeq32 hi NEXT (u8 (SKIPN 2 + jf_)))
  ++ [set_bpf_stmt (BPF_LD + BPF_MEM) 0]
  ++ bpf_comp_jgt32 (lo_word c) jt_ jf_.

Definition bpf_comp_jge64 (c jt_ jf_ : Z) : list sock_filter :=
  let hi := hi_word c in
  (if hi =? 0 then bpf_comp_jgt32 hi (u8 (SKIPN 2 + jt_)) NEXT
   else bpf_comp_jgt32 hi (u8 (SKIPN 3 + jt_)) NEXT
        ++ bpf_comp_jeq32 hi NEXT (u8 (SKIPN 2 + jf_)))
  ++ [set_bpf_stmt (BPF_LD + BPF_MEM) 0]
  ++ bpf_comp_jge32 (lo_word c) jt_ jf_.

Definition bpf_comp_jset32 (mask jt_ jf_ : Z) : list sock_filter :=
  [set_bpf_jump (BPF_JMP + BPF_JSET + BPF_K) (lo_word mask) jt_ jf_].

Definition bpf_comp_jset64 (mask jt_ jf_ : Z) : list sock_filter :=
  bpf_comp_jset32 (hi_word mask) (u8 (SKIPN 2 + jt_)) NEXT
  ++ [set_bpf_stmt (BPF_LD + BPF_MEM) 0]
  ++ bpf_comp_jset32 (lo_word mask) jt_ jf_.

(** The 64-bit build maps the size-neutral names to the 64-bit comparisons. *)
Definition bpf_comp_jeq := bpf_comp_jeq64.
Definition bpf_comp_jgt := bpf_comp_jgt64.
Definition bpf_comp_jge := bpf_comp_jge64.
Definition bpf_comp_jset := bpf_comp_jset64.

Definition bpf_comp_jin (mask jt_ jf_ : Z) : list sock_filter :=
  let negative_mask := u64 (Z.lnot mask) in
  bpf_comp_jset negative_mask jf_ jt_.

Definition BPF_LOAD_ARG_LEN : nat := 4.
Definition BPF_COMP_LEN : nat := 3.
Definition BPF_SHORT_GT_GE_COMP_LEN : nat := 3.
Definition BPF_GT_GE_COMP_LEN : nat := 4.
Definition BPF_ARG_COMP_LEN : nat := BPF_LOAD_ARG_LEN + BPF_COMP_LEN.
Definition BPF_ARG_SHORT_GT_GE_COMP_LEN : nat := BPF_LOAD_ARG_LEN + BPF_SHORT_GT_GE_COMP_LEN.
Definition BPF_ARG_GT_GE_COMP_LEN : nat := BPF_LOAD_ARG_LEN + BPF_GT_GE_COMP_LEN.

(** The number of instructions allocated for a comparison. *)
Definition bpf_arg_comp_len (op c : Z) : nat :=
  if (op =? LT) || (op =? LE) || (op =? GT) || (op =? GE) then
    if Z.shiftr c 32 =? 0 then BPF_ARG_SHORT_GT_GE_COMP_LEN + 1
    else BPF_ARG_GT_GE_COMP_LEN + 1
  else BPF_ARG_COMP_LEN + 1.

(** The comparison to emit for an operator, and whether to swap its branches. *)
Definition comp_function_of (op : Z) : option ((Z → Z → Z → list sock_filter) * bool) :=
  if op =? EQ then Some (bpf_comp_jeq, false)
  else if op =? NE then Some (bpf_comp_jeq, true)
  else if op =? LT then Some (bpf_comp_jge, true)
  else if op =? LE then Some (bpf_comp_jgt, true)
  else if op =? GT then Some (bpf_comp_jgt, false)
  else if op =? GE then Some (bpf_comp_jge, false)
  else if op =? SET then Some (bpf_comp_jset, false)
  else if op =? IN then Some (bpf_comp_jin, false)
  else None.

(** [None]: the operator is unknown and the function returns 0. *)
Definition bpf_arg_comp (op argidx c label_id : Z) : option (list sock_filter) :=
  match comp_function_of op with
  | None => None
  | Some (comp_function, flip) =>
      let jt_ := if flip : bool then NEXT else SKIP in
      let jf_ := if flip : bool then SKIP else NEXT in
      Some (bpf_load_arg argidx ++ comp_function c jt_ jf_ ++ [set_bpf_jump_lbl label_id])
  end.

(** ** Labels

    The label table: the entries in use, each a name and a location;
    [UNRESOLVED] is the location of a label not placed yet. *)

Definition MAX_BPF_LABEL_LEN : nat := 32.
Definition BPF_LABELS_MAX : nat := Z.to_nat 512.
Definition UNRESOLVED : Z := 0xffffffff.

Abbreviation bpf_labels := (list (cstr * Z)).

Fixpoint find_label_id (id : nat) (labels : bpf_labels) (label : cstr) : option nat :=
  match labels with
  | [] => None
  | (name, _) :: rest => if streq label name then Some id else find_label_id (S id) rest label
  end.

(** The label's id, or -1 when the table is full, and the table afterwards. *)
Definition bpf_label_id (labels : bpf_labels) (label : cstr) : Z * bpf_labels :=
  match find_label_id 0 labels label with
  | Some id => (Z.of_nat id, labels)
  | None =>
      if (length labels =? BPF_LABELS_MAX)%nat then (-1, labels)
      else (Z.of_nat (length labels), labels ++ [(take MAX_BPF_LABEL_LEN label, UNRESOLVED)])
  end.

Definition free_label_strings (labels : bpf_labels) : bpf_labels := [].

Inductive jump_kind := KJump | KLabel | KPlain.

(** The cases of the resolver's switch on an instruction. *)
Definition kind_of (instr : sock_filter) : jump_kind :=
  if negb (instr.(code) =? BPF_JMP + BPF_JA) then KPlain
  else
    let sel := Z.lor (Z.shiftl instr.(jt) 8) instr.(jf) in
    if sel =? Z.lor (Z.shiftl JUMP_JT 8) JUMP_JF then KJump
    else if sel =? Z.lor (Z.shiftl LABEL_JT 8) LABEL_JF then KLabel
    else KPlain.

(** One iteration of the resolver at [offset]: [None] is the return of -1.  A
    label number outside the table is caught for a jump only; for a label the
    table is read at that number. *)
Definition resolve_one (labels : bpf_labels) (offset : nat) (instr : sock_filter)
    : outcome (option (bpf_labels * sock_filter)) :=
  match kind_of instr with
  | KPlain => Ret (Some (labels, instr))
  | KJump =>
      match labels !! Z.to_nat instr.(k) with
      | None => Ret None
      | Some (_, location) =>
          if location =? UNRESOLVED then Ret None
          else Ret (Some (labels,
                 instr <| k := u32 (location - (Z.of_nat offset + 1)) |>
                       <| jt := 0 |> <| jf := 0 |>))
      end
  | KLabel =>
      match labels !! Z.to_nat instr.(k) with
      | None => Undef
      | Some (name, location) =>
          if negb (location =? UNRESOLVED) then Ret None
          else Ret (Some (<[Z.to_nat instr.(k) := (name, u32 (Z.of_nat offset))]> labels,
                 instr <| k := 0 |> <| jt := 0 |> <| jf := 0 |>))
      end
  end.

(** The backwards walk over the instructions from [offset] on. *)
Fixpoint resolve_from (labels : bpf_labels) (offset : nat) (filter : list sock_filter)
    : outcome (option (bpf_labels * list sock_filter)) :=
  match filter with
  | [] => Ret (Some (labels, []))
  | instr :: rest =>
      r ← resolve_from labels (S offset) rest;
      match r with
      | None => Ret None
      | Some (labels, rest) =>
          r ← resolve_one labels offset instr;
          match r with
          | None => Ret None
          | Some (labels, instr) => Ret (Some (labels, instr :: rest))
          end
      end
  end.

(** The resolved program, or [None] for a return of -1. *)
Definition bpf_resolve_jumps (labels : bpf_labels) (filter : list sock_filter)
    : outcome (option (bpf_labels * list sock_filter)) :=
  if (BPF_MAXINSNS <? length filter)%nat then Ret None
  else resolve_from labels 0 filter.
