(* ===== verification/BpfMachine.v ===== *)
(** * The machine that runs a filter

    The classic BPF virtual machine as the kernel documents it for seccomp
    filters, restricted to the instructions bpf.c can emit; the symbolic machine
    that runs a program whose jumps still name labels; and the proof that
    [bpf_resolve_jumps] turns the second into the first. *)

From S2P Require Import Prelude CLib Util Bpf.
Local Open Scope Z_scope.

(** ** The data a filter inspects, as 32-bit words *)

Definition words_of (z : Z) : list Z := [u32 z; u32 (Z.shiftr z 32)].

Definition data_words (d : seccomp_data) : list Z :=
  [u32 d.(sd_nr); u32 d.(sd_arch)] ++ words_of d.(sd_instruction_pointer)
  ++ mjoin (words_of <$> d.(sd_args)).

(** A load of the word at a byte offset; the kernel rejects a filter that loads
    from an offset that is not a multiple of four or past the end. *)
Definition load_word (d : seccomp_data) (off : Z) : option Z :=
  if off mod 4 =? 0 then data_words d !! Z.to_nat (off / 4) else None.

(** ** One instruction *)

Definition machine : Type := Z * list Z.
Definition BPF_MEMWORDS : nat := 16.
Definition initial_machine : machine := (0, replicate BPF_MEMWORDS 0).
Definition wf_machine (s : machine) : Prop := length s.2 = BPF_MEMWORDS.

Inductive effect :=
  | Skip (n : nat) (s : machine)
  | Return (v : Z)
  | Stuck.

Definition branch (b : bool) (i : sock_filter) (s : machine) : effect :=
  Skip (Z.to_nat (if b then i.(jt) else i.(jf))) s.

Definition step (d : seccomp_data) (i : sock_filter) (s : machine) : effect :=
  let '(a, m) := s in
  let c := i.(code) in
  if c =? BPF_LD + BPF_W + BPF_ABS then
    match load_word d i.(k) with Some v => Skip 0 (v, m) | None => Stuck end
  else if c =? BPF_LD + BPF_MEM then
    match m !! Z.to_nat i.(k) with Some v => Skip 0 (v, m) | None => Stuck end
  else if c =? BPF_ST then
    match m !! Z.to_nat i.(k) with
    | Some _ => Skip 0 (a, <[Z.to_nat i.(k) := a]> m)
    | None => Stuck
    end
  else if c =? BPF_JMP + BPF_JA then Skip (Z.to_nat i.(k)) s
  else if c =? BPF_JMP + BPF_JEQ + BPF_K then branch (a =? i.(k)) i s
  else if c =? BPF_JMP + BPF_JGT + BPF_K then branch (i.(k) <? a) i s
  else if c =? BPF_JMP + BPF_JGE + BPF_K then branch (i.(k) <=? a) i s
  else if c =? BPF_JMP + BPF_JSET + BPF_K then branch (negb (Z.land a i.(k) =? 0)) i s
  else if c =? BPF_RET + BPF_K then Return i.(k)
  else Stuck.

(** ** Running a program

    The rest of a program is the list of the instructions not passed yet; every
    jump goes forward, so the program's length is enough fuel.  [goto] says how
    an instruction selects what runs next. *)

Inductive continuation :=
  | Go (rest : list sock_filter) (s : machine)
  | Done (v : Z)
  | Wrong.

Section Run.
Variable next : sock_filter → list sock_filter → machine → continuation.

Fixpoint run_fuel (fuel : nat) (prog : list sock_filter) (s : machine) : option Z :=
  match fuel, prog with
  | S n, i :: rest =>
      match next i rest s with
      | Go rest s => run_fuel n rest s
      | Done v => Some v
      | Wrong => None
      end
  | _, _ => None
  end.

Definition run (prog : list sock_filter) (s : machine) : option Z :=
  run_fuel (length prog) prog s.

Hypothesis next_forward : ∀ i rest s rest' s',
  next i rest s = Go rest' s' → (length rest' <= length rest)%nat.

Lemma run_fuel_enough n prog s : (length prog <= n)%nat → run_fuel n prog s = run prog s.
Proof.
  unfold run. revert prog s.
  induction n as [n IH] using lt_wf_ind; intros prog s Hn.
  destruct prog as [|i rest]; simpl in *; [by destruct n|].
  destruct n as [|n]; [lia|]. simpl.
  destruct (next i rest s) as [rest' s'| |] eqn:E; [|done|done].
  apply next_forward in E as Hlen.
  rewrite IH by lia. destruct (decide (length rest = n)) as [->|]; [|rewrite (IH (length rest)); [done|lia|lia]].
  rewrite (IH n) by lia. done.
Qed.

Lemma run_cons i rest s :
  run (i :: rest) s =
    match next i rest s with
    | Go rest' s' => run rest' s'
    | Done v => Some v
    | Wrong => None
    end.
Proof.
  unfold run at 1; simpl. destruct (next i rest s) eqn:E; [|done|done].
  apply run_fuel_enough. eauto.
Qed.

End Run.

(** The kernel's machine. *)
Definition next_bpf (d : seccomp_data) (i : sock_filter) (rest : list sock_filter) (s : machine)
    : continuation :=
  match step d i s with
  | Skip n s => Go (drop n rest) s
  | Return v => Done v
  | Stuck => Wrong
  end.

Definition bpf_run (d : seccomp_data) (prog : list sock_filter) : option Z :=
  run (next_bpf d) prog initial_machine.

(** ** The symbolic machine *)

Definition is_label (l : nat) (i : sock_filter) : bool :=
  match kind_of i with KLabel => (Z.to_nat i.(k) =? l)%nat | _ => false end.

(** What follows the label [l] in a program. *)
Fixpoint goto (l : nat) (prog : list sock_filter) : option (list sock_filter) :=
  match prog with
  | [] => None
  | i :: rest => if is_label l i then Some rest else goto l rest
  end.

Definition next_sym (d : seccomp_data) (i : sock_filter) (rest : list sock_filter) (s : machine)
    : continuation :=
  match kind_of i with
  | KPlain => next_bpf d i rest s
  | KLabel => Go rest s
  | KJump => match goto (Z.to_nat i.(k)) rest with Some rest' => Go rest' s | None => Wrong end
  end.

Definition sym_run (d : seccomp_data) (prog : list sock_filter) (s : machine) : option Z :=
  run (next_sym d) prog s.

(** Running from a label. *)
Definition sym_goto (d : seccomp_data) (l : nat) (prog : list sock_filter) (s : machine) : option Z :=
  match goto l prog with Some rest => sym_run d rest s | None => None end.

Lemma next_bpf_forward d i rest s rest' s' :
  next_bpf d i rest s = Go rest' s' → (length rest' <= length rest)%nat.
Proof.
  unfold next_bpf. destruct (step d i s); [|done|done]. intros [= <- _].
  rewrite length_drop. lia.
Qed.

Lemma goto_length l prog rest : goto l prog = Some rest → (length rest < length prog)%nat.
Proof.
  induction prog as [|i prog IH]; simpl; [done|].
  destruct (is_label l i); [intros [= <-]; lia|]. intros H%IH. lia.
Qed.

Lemma next_sym_forward d i rest s rest' s' :
  next_sym d i rest s = Go rest' s' → (length rest' <= length rest)%nat.
Proof.
  unfold next_sym. destruct (kind_of i).
  - destruct (goto _ rest) eqn:E; [|done]. intros [= <- _]. apply goto_length in E. lia.
  - by intros [= <- _].
  - apply next_bpf_forward.
Qed.

Lemma sym_run_cons d i rest s :
  sym_run d (i :: rest) s =
    match next_sym d i rest s with
    | Go rest' s' => sym_run d rest' s'
    | Done v => Some v
    | Wrong => None
    end.
Proof. apply run_cons, next_sym_forward. Qed.

Lemma goto_app l p1 p2 :
  goto l (p1 ++ p2) = match goto l p1 with Some r => Some (r ++ p2) | None => goto l p2 end.
Proof. induction p1 as [|i p1 IH]; simpl; [done|]. by destruct (is_label l i). Qed.

Lemma is_label_kind l i : is_label l i = true → kind_of i = KLabel ∧ Z.to_nat i.(k) = l.
Proof. unfold is_label. destruct (kind_of i); [done| |done]. by intros ?%Nat.eqb_eq. Qed.

(** ** Resolving jumps preserves the behaviour *)

(** A location recorded for the label [l], seen from the program [rest] that
    starts at [off]: none, or the only place that declares the label. *)
Definition place (l : nat) (loc : Z) (off : nat) (rest : list sock_filter) : Prop :=
  (loc = UNRESOLVED ∧ goto l rest = None) ∨
  (∃ p i, loc = Z.of_nat (off + p) ∧ rest !! p = Some i ∧ is_label l i = true
          ∧ goto l rest = Some (drop (S p) rest)).

Definition placed (labels : bpf_labels) (off : nat) (rest : list sock_filter) : Prop :=
  ∀ l name loc, labels !! l = Some (name, loc) → place l loc off rest.

Lemma place_cons l loc off i rest :
  is_label l i = false → place l loc (S off) rest → place l loc off (i :: rest).
Proof.
  intros Hi [[-> Hg]|(p & j & -> & ? & ? & Hg)].
  - left. simpl. by rewrite Hi.
  - right. exists (S p), j. simpl. rewrite Hi. repeat split; try done. lia.
Qed.

Lemma place_here l off i rest :
  is_label l i = true → place l (Z.of_nat off) off (i :: rest).
Proof.
  intros Hi. right. exists 0%nat, i. simpl. rewrite Hi. repeat split; try done. lia.
Qed.

Lemma placed_cons_plain labels off i rest :
  (∀ l, is_label l i = false) → placed labels (S off) rest → placed labels off (i :: rest).
Proof. intros Hi Hp l name loc Hl. eapply place_cons; eauto. Qed.

Lemma placed_step labels off i rest labels' i' :
  Z.of_nat off < 2 ^ 32 - 1 →
  placed labels (S off) rest →
  resolve_one labels off i = Ret (Some (labels', i')) →
  placed labels' off (i :: rest).
Proof.
  intros Hoff Hp Hr. unfold resolve_one in Hr. destruct (kind_of i) eqn:Ek.
  - assert (labels' = labels) as ->.
    { destruct (labels !! _) as [[]|]; [|done]. destruct (_ =? _); simplify_eq; done. }
    apply placed_cons_plain; [|done]. intros l. unfold is_label. by rewrite Ek.
  - destruct (labels !! Z.to_nat (k i)) as [[name0 loc0]|] eqn:E0; [|done].
    destruct (negb _) eqn:Eu; [done|]. simplify_eq. intros l name loc Hl.
    destruct (decide (l = Z.to_nat (k i))) as [->|Hne].
    + rewrite list_lookup_insert_eq in Hl by (by eapply lookup_lt_Some).
      injection Hl as -> <-. rewrite uwrap_small by lia.
      apply place_here. unfold is_label. rewrite Ek. apply Nat.eqb_refl.
    + rewrite list_lookup_insert_ne in Hl by done.
      eapply place_cons; [|by eauto]. unfold is_label. rewrite Ek. by apply Nat.eqb_neq.
  - simplify_eq. apply placed_cons_plain; [|done]. intros l. unfold is_label. by rewrite Ek.
Qed.

Lemma resolve_from_cons labels off i rest labels' prog' :
  resolve_from labels off (i :: rest) = Ret (Some (labels', prog')) →
  ∃ labels1 rest' i',
    resolve_from labels (S off) rest = Ret (Some (labels1, rest')) ∧
    resolve_one labels1 off i = Ret (Some (labels', i')) ∧ prog' = i' :: rest'.
Proof.
  simpl. intros H. inv_bind. destruct x as [[labels1 rest']|]; [|done]. inv_bind.
  destruct x as [[labels2 i']|]; [|done]. simplify_eq. eauto 10.
Qed.

Lemma resolve_from_length labels off prog labels' prog' :
  resolve_from labels off prog = Ret (Some (labels', prog')) → length prog' = length prog.
Proof.
  revert off labels' prog'; induction prog as [|i rest IH]; intros off labels' prog' H.
  - by simplify_eq/=.
  - apply resolve_from_cons in H as (? & ? & ? & H & _ & ->). simpl. by rewrite (IH _ _ _ H).
Qed.

Lemma resolve_from_placed labels off prog labels' prog' :
  Z.of_nat (off + length prog) < 2 ^ 32 - 1 →
  (∀ l name loc, labels !! l = Some (name, loc) → loc = UNRESOLVED) →
  resolve_from labels off prog = Ret (Some (labels', prog')) →
  placed labels' off prog.
Proof.
  intros Hlen Hun. revert off labels' prog' Hlen.
  induction prog as [|i rest IH]; intros off labels' prog' Hlen H.
  - simplify_eq/=. intros l name loc Hl. left. eauto.
  - apply resolve_from_cons in H as (labels1 & ? & ? & H & H1 & ->).
    simpl in Hlen. eapply placed_step; [lia| |exact H1]. eapply IH; [lia|done].
Qed.

(** A resolved instruction runs on the resolved rest as the original one runs on
    the symbolic rest. *)
Lemma resolve_one_sim d labels labels' off i i' rest rest' s :
  Z.of_nat (off + S (length rest)) < 2 ^ 32 - 1 →
  placed labels (S off) rest →
  (∀ n s, run (next_bpf d) (drop n rest') s = sym_run d (drop n rest) s) →
  resolve_one labels off i = Ret (Some (labels', i')) →
  run (next_bpf d) (i' :: rest') s = sym_run d (i :: rest) s.
Proof.
  intros Hlen Hp IH Hr.
  rewrite (run_cons _ (next_bpf_forward d)), sym_run_cons. unfold next_sym.
  unfold resolve_one in Hr. destruct (kind_of i) eqn:Ek.
  - destruct (labels !! Z.to_nat (k i)) as [[name loc]|] eqn:El; [|done].
    destruct (loc =? UNRESOLVED) eqn:Eu; [done|]. simplify_eq.
    assert (code i = BPF_JMP + BPF_JA) as Hc.
    { unfold kind_of in Ek. destruct (code i =? _) eqn:E; [by apply Z.eqb_eq|done]. }
    destruct (Hp _ _ _ El) as [[-> _]|(p & j & -> & Hj & Hl & Hg)]; [done|].
    rewrite Hg. apply lookup_lt_Some in Hj as Hlt.
    unfold next_bpf, step, modify; simpl. destruct s as [a m]. rewrite Hc; simpl.
    rewrite uwrap_small by lia.
    replace (Z.to_nat _) with p by lia.
    rewrite IH. rewrite (drop_S _ _ _ Hj), sym_run_cons. unfold next_sym.
    apply is_label_kind in Hl as [-> _]. done.
  - destruct (labels !! Z.to_nat (k i)) as [[name loc]|] eqn:El; [|done].
    destruct (negb _); [done|]. simplify_eq.
    assert (code i = BPF_JMP + BPF_JA) as Hc.
    { unfold kind_of in Ek. destruct (code i =? _) eqn:E; [by apply Z.eqb_eq|done]. }
    unfold next_bpf, step, modify; simpl. destruct s as [a m]. rewrite Hc; simpl.
    apply (IH 0%nat).
  - simplify_eq. unfold next_bpf. destruct (step d i' s); [apply IH|done|done].
Qed.

Lemma resolve_from_sim d labels off prog labels' prog' n s :
  Z.of_nat (off + length prog) < 2 ^ 32 - 1 →
  (∀ l name loc, labels !! l = Some (name, loc) → loc = UNRESOLVED) →
  resolve_from labels off prog = Ret (Some (labels', prog')) →
  run (next_bpf d) (drop n prog') s = sym_run d (drop n prog) s.
Proof.
  intros Hlen Hun. revert off labels' prog' n s Hlen.
  induction prog as [|i rest IH]; intros off labels' prog' n s Hlen H.
  - simplify_eq/=. by destruct n.
  - apply resolve_from_cons in H as (labels1 & rest' & i' & H & H1 & ->). simpl in Hlen.
    destruct n as [|n]; simpl; [|eapply IH; [|done]; lia].
    eapply resolve_one_sim; [| | |exact H1].
    + simpl in Hlen; lia.
    + eapply resolve_from_placed; [|done|done]. lia.
    + intros m s'. eapply IH; [|done]. lia.
Qed.

(** A program accepted by the resolver declares no label twice. *)
Lemma resolve_from_unique labels off pre i prog labels' prog' l :
  Z.of_nat (off + length (pre ++ i :: prog)) < 2 ^ 32 - 1 →
  (∀ l name loc, labels !! l = Some (name, loc) → loc = UNRESOLVED) →
  resolve_from labels off (pre ++ i :: prog) = Ret (Some (labels', prog')) →
  is_label l i = true → goto l prog = None.
Proof.
  intros Hlen Hun. revert off labels' prog' Hlen.
  induction pre as [|j pre IH]; intros off labels' prog' Hlen H Hi; simpl in *.
  - apply resolve_from_cons in H as (labels1 & rest' & i' & H & H1 & ->).
    eapply resolve_from_placed in H; [|lia|done].
    unfold resolve_one in H1. apply is_label_kind in Hi as [Ek <-]. rewrite Ek in H1.
    destruct (labels1 !! Z.to_nat (k i)) as [[name loc]|] eqn:El; [|done].
    destruct (negb _) eqn:Eu; [done|]. apply negb_false_iff, Z.eqb_eq in Eu.
    destruct (H _ _ _ El) as [[_ ?]|(p & j & Hloc & Hj & _)]; [done|].
    apply lookup_lt_Some in Hj. unfold UNRESOLVED in Eu. lia.
  - apply resolve_from_cons in H as (labels1 & rest' & i' & H & H1 & ->).
    eapply IH; [|done|done]. lia.
Qed.

(** C18: [bpf_resolve_jumps] turns labels into offsets without changing what the
    program does: on success the program keeps its length, and the kernel's
    machine answers on it, for any data, what jumping by label answers on the
    original. *)
Theorem bpf_resolve_jumps_correct labels prog labels' prog' :
  (∀ l name loc, labels !! l = Some (name, loc) → loc = UNRESOLVED) →
  bpf_resolve_jumps labels prog = Ret (Some (labels', prog')) →
  length prog' = length prog ∧
  ∀ d, bpf_run d prog' = sym_run d prog initial_machine.
Proof.
  intros Hun. unfold bpf_resolve_jumps. destruct (_ <? _)%nat eqn:E; [done|].
  apply Nat.ltb_ge in E. unfold BPF_MAXINSNS in E.
  intros H. split; [by eapply resolve_from_length|]. intros d.
  apply (resolve_from_sim d labels 0 prog labels' prog' 0); [simpl; lia|done|done].
Qed.

Lemma bpf_resolve_jumps_correct_witness :
  let prog := [set_bpf_jump_lbl 0; set_bpf_ret_kill; set_bpf_lbl 0; set_bpf_ret_allow] in
  let prog' := [Instr 5 0 0 1; set_bpf_ret_kill; Instr 5 0 0 0; set_bpf_ret_allow] in
  length prog' = length prog ∧ ∀ d, bpf_run d prog' = sym_run d prog initial_machine.
Proof.
  apply (bpf_resolve_jumps_correct [(str "end", UNRESOLVED)] _ [(str "end", 2)]); [|reflexivity].
  intros [|l] name loc H; [by injection H|discriminate].
Defined.
