(* ===== verification/BpfCompare.v ===== *)
(** * The argument comparisons of bpf.c are 64-bit comparisons

    Each comparison is emitted as two or three 32-bit comparisons; run on any
    data they decide the 64-bit relation the policy operator names. *)

From S2P Require Import Prelude CLib Util Bpf BpfMachine.
Local Open Scope Z_scope.

(** ** Specification *)

(** The 64-bit value the loads of [bpf_load_arg] assemble; [None]: a load lies
    outside struct seccomp_data. *)
Definition arg_value (d : seccomp_data) (argidx : Z) : option Z :=
  match load_word d (u32 (LO_ARG argidx)), load_word d (u32 (HI_ARG argidx)) with
  | Some lo, Some hi => Some (lo + 2 ^ 32 * hi)
  | _, _ => None
  end.

(** The relation an operator stands for, on unsigned 64-bit integers. *)
Definition eval_op (op v c : Z) : bool :=
  if op =? EQ then v =? c
  else if op =? NE then negb (v =? c)
  else if op =? LT then v <? c
  else if op =? LE then v <=? c
  else if op =? GT then c <? v
  else if op =? GE then c <=? v
  else if op =? SET then negb (Z.land v c =? 0)
  else if op =? IN then Z.land v (u64 (Z.lnot c)) =? 0
  else false.

(** What the kernel guarantees of the data it hands to a filter. *)
Definition wf_data (d : seccomp_data) : Prop :=
  length d.(sd_args) = 6%nat ∧ Forall (λ a, 0 <= a < 2 ^ 64) d.(sd_args).

(** ** Words *)

Lemma words_of_range z w : w ∈ words_of z → 0 <= w < 2 ^ 32.
Proof.
  unfold words_of. rewrite !elem_of_cons, elem_of_nil.
  intros [->|[->|[]]]; by apply uwrap_range.
Qed.

Lemma data_words_range d w : w ∈ data_words d → 0 <= w < 2 ^ 32.
Proof.
  unfold data_words. rewrite !elem_of_app, list_elem_of_join.
  intros [H|[H|(l & Hw & Hl)]].
  - rewrite !elem_of_cons, elem_of_nil in H. destruct H as [->|[->|[]]]; by apply uwrap_range.
  - by eapply words_of_range.
  - apply list_elem_of_fmap in Hl as (a & -> & _). by eapply words_of_range.
Qed.

Lemma load_word_range d off w : load_word d off = Some w → 0 <= w < 2 ^ 32.
Proof.
  unfold load_word. case_match; [|done]. intros H0.
  by eapply data_words_range, list_elem_of_lookup_2.
Qed.

Lemma arg_words_lookup (args : list Z) n z :
  args !! n = Some z →
  mjoin (words_of <$> args) !! (2 * n)%nat = Some (u32 z) ∧
  mjoin (words_of <$> args) !! (2 * n + 1)%nat = Some (u32 (Z.shiftr z 32)).
Proof.
  revert n; induction args as [|a args IH]; intros n; simpl; [done|].
  destruct n as [|n]; simpl; [by intros [= ->]|]. intros H.
  replace (n + S (n + 0))%nat with (S (2 * n)) by lia.
  replace (S (2 * n) + 1)%nat with (S (2 * n + 1)) by lia. simpl. by apply IH.
Qed.

Lemma hi_lo_combine z : 0 <= z < 2 ^ 64 → u32 z + 2 ^ 32 * u32 (Z.shiftr z 32) = z.
Proof.
  intros. unfold uwrap. rewrite Z.shiftr_div_pow2 by lia.
  rewrite (Z.mod_small (z / 2 ^ 32)).
  - rewrite (Z.div_mod z (2 ^ 32)) at 3 by lia. lia.
  - split; [apply Z.div_pos; lia|]. apply Z.div_lt_upper_bound; lia.
Qed.

(** An argument index of the policy language selects the register it names. *)
Lemma arg_value_arg d argidx :
  wf_data d → 0 <= argidx < 6 → arg_value d argidx = d.(sd_args) !! Z.to_nat argidx.
Proof.
  intros [Hlen Hall] Hi.
  destruct (lookup_lt_is_Some_2 d.(sd_args) (Z.to_nat argidx)) as [z Hz]; [lia|].
  rewrite Hz. apply arg_words_lookup in Hz as Hw. destruct Hw as [Hlo Hhi].
  rewrite Forall_lookup in Hall. specialize (Hall _ _ Hz). simpl in Hall.
  unfold arg_value, load_word, HI_ARG, LO_ARG, offsetof_args.
  rewrite !(uwrap_small _ (16 + 8 * argidx)), !(uwrap_small _ (16 + 8 * argidx + 4)) by lia.
  replace ((16 + 8 * argidx) mod 4) with 0 by (Z.div_mod_to_equations; lia).
  replace ((16 + 8 * argidx + 4) mod 4) with 0 by (Z.div_mod_to_equations; lia).
  replace (Z.to_nat ((16 + 8 * argidx) / 4)) with (4 + 2 * Z.to_nat argidx)%nat
    by (Z.div_mod_to_equations; lia).
  replace (Z.to_nat ((16 + 8 * argidx + 4) / 4)) with (4 + (2 * Z.to_nat argidx + 1))%nat
    by (Z.div_mod_to_equations; lia).
  unfold data_words. rewrite app_assoc, !(lookup_app_r (_ ++ _)) by (simpl; lia).
  replace (4 + 2 * Z.to_nat argidx - _)%nat with (2 * Z.to_nat argidx)%nat by (simpl; lia).
  replace (4 + (2 * Z.to_nat argidx + 1) - _)%nat with (2 * Z.to_nat argidx + 1)%nat
    by (simpl; lia).
  rewrite Hlo, Hhi. simpl. by rewrite hi_lo_combine.
Qed.

(** ** Running the emitted instructions *)

Section Instructions.
Variable d : seccomp_data.

Lemma sym_ld off rest a m :
  sym_run d (set_bpf_stmt (BPF_LD + BPF_W + BPF_ABS) off :: rest) (a, m) =
    match load_word d (u32 off) with Some v => sym_run d rest (v, m) | None => None end.
Proof.
  rewrite sym_run_cons. unfold next_sym, next_bpf; simpl.
  by destruct (load_word d (u32 off)).
Qed.

Lemma sym_st n rest a m :
  0 <= n < 16 → wf_machine (a, m) →
  sym_run d (set_bpf_stmt BPF_ST n :: rest) (a, m) = sym_run d rest (a, <[Z.to_nat n := a]> m).
Proof.
  intros Hn Hm. unfold wf_machine, BPF_MEMWORDS in Hm; simpl in Hm.
  rewrite sym_run_cons. unfold next_sym, next_bpf; simpl.
  rewrite uwrap_small by lia.
  destruct (lookup_lt_is_Some_2 m (Z.to_nat n)) as [x Hx]; [lia|]. by rewrite Hx.
Qed.

Lemma sym_ldmem n rest a m v :
  0 <= n < 16 → m !! Z.to_nat n = Some v →
  sym_run d (set_bpf_stmt (BPF_LD + BPF_MEM) n :: rest) (a, m) = sym_run d rest (v, m).
Proof.
  intros Hn Hv. rewrite sym_run_cons. unfold next_sym, next_bpf; simpl.
  rewrite uwrap_small by lia. by rewrite Hv.
Qed.

Lemma sym_ret c rest s :
  sym_run d (set_bpf_stmt (BPF_RET + BPF_K) c :: rest) s = Some (u32 c).
Proof. rewrite sym_run_cons. by destruct s. Qed.

Lemma sym_lbl id rest s : sym_run d (set_bpf_lbl id :: rest) s = sym_run d rest s.
Proof. by rewrite sym_run_cons. Qed.

Lemma sym_jump_lbl id rest s :
  sym_run d (set_bpf_jump_lbl id :: rest) s = sym_goto d (Z.to_nat (u32 id)) rest s.
Proof.
  rewrite sym_run_cons. unfold next_sym, sym_goto; simpl. by destruct (goto _ rest).
Qed.

(** The test a conditional jump makes. *)
Definition jump_test (jop a c : Z) : bool :=
  if jop =? BPF_JEQ then a =? c
  else if jop =? BPF_JGT then c <? a
  else if jop =? BPF_JGE then c <=? a
  else negb (Z.land a c =? 0).

Lemma sym_jump jop c jt_ jf_ rest a m :
  jop = BPF_JEQ ∨ jop = BPF_JGT ∨ jop = BPF_JGE ∨ jop = BPF_JSET →
  0 <= jt_ < 256 → 0 <= jf_ < 256 →
  sym_run d (set_bpf_jump (BPF_JMP + jop + BPF_K) c jt_ jf_ :: rest) (a, m) =
    sym_run d (drop (Z.to_nat (if jump_test jop a (u32 c) then jt_ else jf_)) rest) (a, m).
Proof.
  intros Hop Ht Hf. rewrite sym_run_cons. unfold next_sym, next_bpf.
  destruct Hop as [->|[->|[->| ->]]]; simpl; unfold branch; simpl;
    rewrite !(uwrap_small 8) by lia; done.
Qed.

(** Loading an argument leaves its low word in M[0] and its high word in A. *)
Lemma sym_load_arg argidx rest s :
  wf_machine s →
  sym_run d (bpf_load_arg argidx ++ rest) s =
    match arg_value d argidx with
    | None => None
    | Some v =>
        sym_run d rest (u32 (Z.shiftr v 32), <[1%nat := u32 (Z.shiftr v 32)]> (<[0%nat := u32 v]> s.2))
    end.
Proof.
  intros Hs. destruct s as [a m]. unfold bpf_load_arg, arg_value. simpl app.
  rewrite sym_ld. destruct (load_word d (u32 (LO_ARG argidx))) as [lo|] eqn:Elo; [|done].
  rewrite sym_st by (lia || done). rewrite sym_ld.
  destruct (load_word d (u32 (HI_ARG argidx))) as [hi|] eqn:Ehi; [|done].
  apply load_word_range in Elo, Ehi.
  rewrite sym_st; [|lia|by unfold wf_machine in *; simpl in *; rewrite length_insert].
  assert (u32 (lo + 2 ^ 32 * hi) = lo) as -> by (unfold uwrap; Z.div_mod_to_equations; lia).
  rewrite Z.shiftr_div_pow2 by lia.
  assert ((lo + 2 ^ 32 * hi) / 2 ^ 32 = hi) as -> by (Z.div_mod_to_equations; lia).
  by rewrite uwrap_small.
Qed.

End Instructions.

(** ** Comparisons *)

Lemma lo_word_spec c : lo_word c = c mod 2 ^ 32.
Proof. unfold lo_word. change 0xFFFFFFFF with (Z.ones 32). by rewrite Z.land_ones. Qed.

Lemma lo_word_u32 c : u32 (lo_word c) = c mod 2 ^ 32.
Proof. unfold uwrap. rewrite lo_word_spec. by rewrite Z.mod_mod. Qed.

Lemma lo_word_small c : 0 <= c < 2 ^ 32 → lo_word c = c.
Proof. intros. rewrite lo_word_spec. by apply Z.mod_small. Qed.

Lemma hi_word_spec c : 0 <= c < 2 ^ 64 → hi_word c = c / 2 ^ 32.
Proof.
  intros. unfold hi_word, uwrap. rewrite Z.shiftr_div_pow2 by lia.
  apply Z.mod_small. Z.div_mod_to_equations; lia.
Qed.

(** What a comparison must do, started with the high word in A and the low word
    in M[0]: go on after [jt_] or [jf_] instructions. *)
Definition compares (comp : Z → Z → Z → list sock_filter) (test : Z → Z → bool) : Prop :=
  ∀ d c jt_ jf_ rest v m,
    0 <= c < 2 ^ 64 → 0 <= v < 2 ^ 64 → (jt_ = 0 ∨ jt_ = 1) → (jf_ = 0 ∨ jf_ = 1) →
    m !! 0%nat = Some (v mod 2 ^ 32) →
    ∃ a, sym_run d (comp c jt_ jf_ ++ rest) (v / 2 ^ 32, m) =
         sym_run d (drop (Z.to_nat (if test v c then jt_ else jf_)) rest) (a, m).

Create HintDb bpf_jumps.
#[export] Hint Extern 1 (_ ∨ _) =>
  (solve [unfold BPF_JEQ, BPF_JGT, BPF_JGE, BPF_JSET; lia | lia]) : bpf_jumps.
#[export] Hint Extern 1 (_ ∧ _) => lia : bpf_jumps.

(** The 64-bit conjunction is non-zero when one of the two 32-bit ones is. *)
Lemma land_words v c :
  0 <= v < 2 ^ 64 → 0 <= c < 2 ^ 64 →
  (Z.land v c =? 0) =
    (Z.land (v / 2 ^ 32) (c / 2 ^ 32) =? 0) && (Z.land (v mod 2 ^ 32) (c mod 2 ^ 32) =? 0).
Proof.
  intros Hv Hc. rewrite <- !Z.shiftr_div_pow2, <- !Z.land_ones, <- Z.shiftr_land by lia.
  replace (Z.land (Z.land v (Z.ones 32)) (Z.land c (Z.ones 32)))
    with (Z.land (Z.land v c) (Z.ones 32)).
  2: { apply Z.bits_inj'; intros n _. rewrite !Z.land_spec.
       by destruct (Z.testbit v n), (Z.testbit c n), (Z.testbit (Z.ones 32) n). }
  assert (0 <= Z.land v c) by (apply Z.land_nonneg; lia).
  rewrite Z.land_ones, Z.shiftr_div_pow2 by lia.
  apply eq_bool_prop_intro. rewrite andb_True, !Is_true_true, !Z.eqb_eq.
  Z.div_mod_to_equations; lia.
Qed.

Section Compare.
Variables (d : seccomp_data) (c jt_ jf_ : Z) (rest : list sock_filter) (v : Z) (m : list Z).
Hypotheses (Hc : 0 <= c < 2 ^ 64) (Hv : 0 <= v < 2 ^ 64).
Hypotheses (Hjt : jt_ = 0 ∨ jt_ = 1) (Hjf : jf_ = 0 ∨ jf_ = 1).
Hypothesis Hm : m !! 0%nat = Some (v mod 2 ^ 32).

Lemma c_hi_range : 0 <= c / 2 ^ 32 < 2 ^ 32.
Proof. Z.div_mod_to_equations; lia. Qed.

(** The final jump of every comparison, on the low words. *)
Lemma sym_low jop :
  jop = BPF_JEQ ∨ jop = BPF_JGT ∨ jop = BPF_JGE ∨ jop = BPF_JSET →
  ∀ a, sym_run d (set_bpf_stmt (BPF_LD + BPF_MEM) 0
                 :: set_bpf_jump (BPF_JMP + jop + BPF_K) (lo_word (lo_word c)) jt_ jf_ :: rest) (a, m) =
  sym_run d (drop (Z.to_nat (if jump_test jop (v mod 2 ^ 32) (c mod 2 ^ 32) then jt_ else jf_)) rest)
    (v mod 2 ^ 32, m).
Proof.
  intros Hop a. erewrite sym_ldmem by (lia || eassumption).
  rewrite sym_jump by (done || lia).
  rewrite (lo_word_small (lo_word c)) by (rewrite lo_word_spec; by apply Z.mod_pos_bound).
  by rewrite lo_word_u32.
Qed.

(** A first jump on the high words, in front of [n] more instructions. *)
Lemma sym_high jop t f code_ :
  jop = BPF_JEQ ∨ jop = BPF_JGT ∨ jop = BPF_JGE ∨ jop = BPF_JSET →
  0 <= t < 256 → 0 <= f < 256 →
  sym_run d (set_bpf_jump (BPF_JMP + jop + BPF_K) (lo_word (hi_word c)) t f :: code_) (v / 2 ^ 32, m) =
  sym_run d (drop (Z.to_nat (if jump_test jop (v / 2 ^ 32) (c / 2 ^ 32) then t else f)) code_)
    (v / 2 ^ 32, m).
Proof.
  intros. rewrite sym_jump by done.
  rewrite hi_word_spec, lo_word_small by (done || apply c_hi_range).
  by rewrite uwrap_small by apply c_hi_range.
Qed.

End Compare.

Ltac simpl_drop :=
  change (Z.to_nat NEXT) with 0%nat; change (Z.to_nat SKIP) with 1%nat;
  change (Z.to_nat 0) with 0%nat; change (Z.to_nat 1) with 1%nat;
  change (Z.to_nat 2) with 2%nat; change (Z.to_nat 3) with 3%nat;
  change (Z.to_nat 4) with 4%nat; cbn [drop].

(** Run a comparison: split on each test of the high words, then on the low ones. *)
Ltac run_compare :=
  repeat first
    [ erewrite sym_low by eauto with bpf_jumps
    | erewrite sym_high by eauto with bpf_jumps;
      match goal with |- context [jump_test ?j (?x / _) ?y] =>
        destruct (jump_test j (x / 2 ^ 32) y) eqn:?E
      end; simpl_drop ].


(** Close a finished run: the tests made and the 64-bit test agree. *)
Ltac close_compare test_tac :=
  eexists;
  repeat match goal with
  | |- context [if ?b then _ else _] => destruct b eqn:?E
  end;
  first [reflexivity | exfalso; unfold jump_test in *; simpl in *; test_tac].

Ltac split_offsets :=
  match goal with
  | Hjt : ?t = 0 ∨ ?t = 1, Hjf : ?f = 0 ∨ ?f = 1 |- _ =>
      destruct Hjt as [->| ->], Hjf as [->| ->]
  end; cbn [Z.add Pos.add Pos.succ]; rewrite ?(uwrap_small 8) by lia.

Lemma compares_jeq64 : compares bpf_comp_jeq64 Z.eqb.
Proof.
  intros d c jt_ jf_ rest v m Hc Hv Hjt Hjf Hm.
  unfold bpf_comp_jeq64, bpf_comp_jeq32, SKIPN, NEXT. simpl app.
  split_offsets.
  all: run_compare.
  all: close_compare ltac:(Z.div_mod_to_equations; lia).
Qed.

Lemma compares_jgt64 : compares bpf_comp_jgt64 (λ v c, c <? v).
Proof.
  intros d c jt_ jf_ rest v m Hc Hv Hjt Hjf Hm.
  unfold bpf_comp_jgt64, bpf_comp_jgt32, bpf_comp_jeq32, SKIPN, NEXT.
  destruct (hi_word c =? 0) eqn:Eh; rewrite hi_word_spec in Eh by done; simpl app.
  all: split_offsets.
  all: run_compare.
  all: close_compare ltac:(Z.div_mod_to_equations; lia).
Qed.

Lemma compares_jge64 : compares bpf_comp_jge64 (λ v c, c <=? v).
Proof.
  intros d c jt_ jf_ rest v m Hc Hv Hjt Hjf Hm.
  unfold bpf_comp_jge64, bpf_comp_jge32, bpf_comp_jgt32, bpf_comp_jeq32, SKIPN, NEXT.
  destruct (hi_word c =? 0) eqn:Eh; rewrite hi_word_spec in Eh by done; simpl app.
  all: split_offsets.
  all: run_compare.
  all: close_compare ltac:(Z.div_mod_to_equations; lia).
Qed.

Lemma compares_jset64 : compares bpf_comp_jset64 (λ v c, negb (Z.land v c =? 0)).
Proof.
  intros d c jt_ jf_ rest v m Hc Hv Hjt Hjf Hm.
  rewrite land_words by done.
  unfold bpf_comp_jset64, bpf_comp_jset32, SKIPN, NEXT. simpl app.
  split_offsets.
  all: run_compare.
  all: close_compare ltac:(lia).
Qed.

Lemma compares_jin : compares bpf_comp_jin (λ v c, Z.land v (u64 (Z.lnot c)) =? 0).
Proof.
  intros d c jt_ jf_ rest v m Hc Hv Hjt Hjf Hm. unfold bpf_comp_jin, bpf_comp_jset.
  destruct (compares_jset64 d (u64 (Z.lnot c)) jf_ jt_ rest v m) as [a Ha];
    [by apply uwrap_range|done|done|done|done|].
  exists a. rewrite Ha. by destruct (Z.land _ _ =? 0).
Qed.

(** ** The whole comparison block *)

Lemma u32_mod z : u32 z = z mod 2 ^ 32.
Proof. done. Qed.

Lemma arg_value_range d argidx v : arg_value d argidx = Some v → 0 <= v < 2 ^ 64.
Proof.
  unfold arg_value. destruct (load_word d (u32 (LO_ARG argidx))) as [lo|] eqn:E1; [|done].
  destruct (load_word d (u32 (HI_ARG argidx))) as [hi|] eqn:E2; [|done].
  apply load_word_range in E1, E2. intros [= <-]. lia.
Qed.

Lemma compares_ext comp test test' :
  compares comp test → (∀ v c, test v c = test' v c) → compares comp test'.
Proof. intros H He d c jt_ jf_ rest v m. rewrite <- He. apply H. Qed.

(** The operator table pairs each operator with a comparison that decides it. *)
Lemma comp_function_of_correct op comp flip :
  comp_function_of op = Some (comp, flip) →
  compares comp (λ v c, if flip then negb (eval_op op v c) else eval_op op v c).
Proof.
  unfold comp_function_of, eval_op.
  repeat match goal with |- context [if op =? ?o then _ else _] => destruct (op =? o) end;
    intros [= <- <-].
  - eapply compares_ext; [apply compares_jeq64|]. intros v c; simpl. lia.
  - eapply compares_ext; [apply compares_jeq64|]. intros v c; simpl. lia.
  - eapply compares_ext; [apply compares_jge64|]. intros v c; simpl. lia.
  - eapply compares_ext; [apply compares_jgt64|]. intros v c; simpl. lia.
  - eapply compares_ext; [apply compares_jgt64|]. intros v c; simpl. lia.
  - eapply compares_ext; [apply compares_jge64|]. intros v c; simpl. lia.
  - eapply compares_ext; [apply compares_jset64|]. intros v c; simpl. lia.
  - eapply compares_ext; [apply compares_jin|]. intros v c; simpl. lia.
Qed.

(** A comparison block goes on behind itself when the relation holds and jumps
    to its label when it does not. *)
Lemma arg_comp_run d op argidx c id block rest s :
  0 <= c < 2 ^ 64 → wf_machine s →
  bpf_arg_comp op argidx c id = Some block →
  match arg_value d argidx with
  | None => sym_run d (block ++ rest) s = None
  | Some v => ∃ s', wf_machine s' ∧
      sym_run d (block ++ rest) s =
        (if eval_op op v c then sym_run d rest s' else sym_goto d (Z.to_nat (u32 id)) rest s')
  end.
Proof.
  intros Hc Hs. unfold bpf_arg_comp.
  destruct (comp_function_of op) as [[comp flip]|] eqn:Eop; [|done].
  intros Hb. apply (inj Some) in Hb as <-.
  apply comp_function_of_correct in Eop.
  rewrite <- !app_assoc, sym_load_arg by done.
  destruct (arg_value d argidx) as [v|] eqn:Ev; [|done]. apply arg_value_range in Ev.
  assert (0 <= v / 2 ^ 32 < 2 ^ 32) by (Z.div_mod_to_equations; lia).
  rewrite Z.shiftr_div_pow2, (uwrap_small 32 (v / 2 ^ 32)) by lia.
  set (m := <[1%nat := _]> _).
  assert (length m = 16%nat) as Hm by (unfold m; by rewrite !length_insert).
  destruct (Eop d c (if flip then NEXT else SKIP) (if flip then SKIP else NEXT)
              (set_bpf_jump_lbl id :: rest) v m) as [a Ha].
  - done.
  - done.
  - destruct flip; unfold NEXT, SKIP; lia.
  - destruct flip; unfold NEXT, SKIP; lia.
  - unfold m. rewrite list_lookup_insert_ne, list_lookup_insert_eq by (unfold wf_machine, BPF_MEMWORDS in Hs; lia).
    done.
  - exists (a, m). split; [done|]. simpl app. rewrite Ha.
    rewrite <- sym_jump_lbl. by destruct flip, (eval_op op v c).
Qed.

(** ** Buffer sizes *)

Lemma comp_jgt64_length c t f :
  length (bpf_comp_jgt64 c t f) = if hi_word c =? 0 then 3%nat else 4%nat.
Proof. unfold bpf_comp_jgt64. by destruct (hi_word c =? 0). Qed.

Lemma comp_jge64_length c t f :
  length (bpf_comp_jge64 c t f) = if hi_word c =? 0 then 3%nat else 4%nat.
Proof. unfold bpf_comp_jge64. by destruct (hi_word c =? 0). Qed.

(** The buffer allocated for an operator holds its comparison and five more
    instructions: the four loads and the jump. *)
Lemma comp_function_length op comp flip c t f :
  0 <= c < 2 ^ 64 → comp_function_of op = Some (comp, flip) →
  bpf_arg_comp_len op c = (length (comp c t f) + 5)%nat.
Proof.
  intros Hc. unfold comp_function_of, bpf_arg_comp_len.
  rewrite Z.shiftr_div_pow2, <- hi_word_spec by lia.
  repeat match goal with |- context [if op =? ?o then Some _ else _] =>
    destruct (op =? o) eqn:?E end;
    intros [= <- <-]; rewrite ?Z.eqb_eq in *; subst op; try reflexivity.
  all: unfold bpf_comp_jgt, bpf_comp_jge; rewrite ?comp_jgt64_length, ?comp_jge64_length.
  all: by destruct (hi_word c =? 0).
Qed.

Lemma arg_comp_length op argidx c id block :
  0 <= c < 2 ^ 64 →
  bpf_arg_comp op argidx c id = Some block → length block = bpf_arg_comp_len op c.
Proof.
  intros Hc. unfold bpf_arg_comp.
  destruct (comp_function_of op) as [[comp flip]|] eqn:Eop; [|done].
  intros Hb. apply (inj Some) in Hb as <-.
  rewrite !length_app, (comp_function_length op comp flip c
    (if flip then NEXT else SKIP) (if flip then SKIP else NEXT)) by done.
  simpl length. lia.
Qed.

(** C19: a comparison block is as long as the buffer allocated for it and decides
    the unsigned 64-bit relation of its operator between the system call's
    argument and the constant: it falls through when the relation holds and
    jumps to its label when it does not. *)
Theorem bpf_arg_comp_correct d op argidx c id block rest s :
  0 <= c < 2 ^ 64 → wf_machine s → wf_data d → 0 <= argidx < 6 →
  bpf_arg_comp op argidx c id = Some block →
  length block = bpf_arg_comp_len op c ∧
  ∃ v s', d.(sd_args) !! Z.to_nat argidx = Some v ∧
    sym_run d (block ++ rest) s =
      if eval_op op v c then sym_run d rest s' else sym_goto d (Z.to_nat (u32 id)) rest s'.
Proof.
  intros Hc Hs Hd Hi Hb. split; [by eapply arg_comp_length|].
  pose proof (arg_comp_run d op argidx c id block rest s Hc Hs Hb) as H.
  rewrite (arg_value_arg d argidx Hd Hi) in H. destruct Hd as [Hl _].
  destruct (lookup_lt_is_Some_2 d.(sd_args) (Z.to_nat argidx)) as [v Hv]; [lia|].
  rewrite Hv in H. destruct H as (s' & _ & H). eauto.
Qed.

Definition example_call : seccomp_data := {|
  sd_nr := 0; sd_arch := 0; sd_instruction_pointer := 0; sd_args := [0x100000005; 0; 0; 0; 0; 0] |}.

Lemma bpf_arg_comp_correct_witness :
  let block := default [] (bpf_arg_comp GT 0 0x100000004 7) in
  length block = bpf_arg_comp_len GT 0x100000004 ∧
  ∃ v s', example_call.(sd_args) !! Z.to_nat 0 = Some v ∧
    sym_run example_call (block ++ [set_bpf_ret_allow]) initial_machine =
      if eval_op GT v 0x100000004 then sym_run example_call [set_bpf_ret_allow] s'
      else sym_goto example_call (Z.to_nat (u32 7)) [set_bpf_ret_allow] s'.
Proof.
  intros block. apply (bpf_arg_comp_correct example_call GT 0 0x100000004 7 block);
    [lia|reflexivity| |lia|reflexivity].
  split; [reflexivity|]. repeat constructor; simpl; lia.
Defined.

(** The code generator refuses exactly the operators the policy language does
    not have. *)
Theorem bpf_arg_comp_refuses op argidx c id :
  bpf_arg_comp op argidx c id = None ↔ ¬ (EQ <= op <= IN).
Proof.
  unfold bpf_arg_comp, comp_function_of, EQ, NE, LT, LE, GT, GE, SET, IN.
  repeat match goal with |- context [if op =? ?o then _ else _] =>
    destruct (op =? o) eqn:?E end; rewrite ?Z.eqb_eq, ?Z.eqb_neq in *; split; try done; lia.
Qed.
