(* ===== verification/SyscallFilter.v ===== *)
(** * syscall_filter.c and syscall_filter.h

    The policy compiler.  A chain of [struct filter_block] is the list of the
    instruction buffers of its nodes; the contents of the files a policy includes come from a file system given as a
    function of the path. *)

From S2P Require Import Prelude CLib Util Bpf.
Local Open Scope Z_scope.

(** ** Data *)

Abbreviation fblocks := (list (list sock_filter)).

Inductive block_action :=
  | ACTION_RET_KILL
  | ACTION_RET_TRAP
  | ACTION_RET_LOG
  | ACTION_RET_KILL_PROCESS.

Record filter_options := {
  action : block_action;
  allow_logging : bool;
  allow_syscalls_for_logging : bool;
  opt_allow_duplicate_syscalls : bool;
}.

(** The file name, [None] for NULL, goes into messages and into the copies below. *)
Record parser_state := { ps_filename : option cstr; ps_line_number : nat }.

Definition str_to_op (op_str : cstr) : Z :=
  if streq op_str (str "==") then EQ
  else if streq op_str (str "!=") then NE
  else if streq op_str (str "<") then LT
  else if streq op_str (str "<=") then LE
  else if streq op_str (str ">") then GT
  else if streq op_str (str ">=") then GE
  else if streq op_str (str "&") then SET
  else if streq op_str (str "in") then IN
  else 0.

(** ** Filter blocks *)

Definition new_filter_block : fblocks := [].

Definition append_filter_block (head : fblocks) (instrs : list sock_filter) : fblocks :=
  head ++ [instrs].

Definition extend_filter_block_list (list_ another : fblocks) : fblocks := list_ ++ another.

(** [head->total_len] *)
Definition total_len (blocks : fblocks) : nat := sum_list (length <$> blocks).

Definition append_ret_kill (head : fblocks) : fblocks := append_filter_block head [set_bpf_ret_kill].
Definition append_ret_kill_process (head : fblocks) : fblocks :=
  append_filter_block head [set_bpf_ret_kill_process].
Definition append_ret_trap (head : fblocks) : fblocks := append_filter_block head [set_bpf_ret_trap].
Definition append_ret_errno (head : fblocks) (errno_val : Z) : fblocks :=
  append_filter_block head [set_bpf_ret_errno errno_val].
Definition append_ret_log (head : fblocks) : fblocks := append_filter_block head [set_bpf_ret_log].

Definition append_allow_syscall (head : fblocks) (nr : Z) : fblocks :=
  append_filter_block head (bpf_allow_syscall nr).

(** Copy the instructions of one block to the buffer from [index] on. *)
Fixpoint flatten_block (instrs filter : list sock_filter) (index cap : nat)
    : option (list sock_filter * nat) :=
  match instrs with
  | [] => Some (filter, index)
  | i :: rest =>
      if (cap <=? index)%nat then None
      else flatten_block rest (<[index := i]> filter) (S index) cap
  end.

(** The buffer after the copy of all blocks; [None] is the return of -1. *)
Fixpoint flatten_block_list (head : fblocks) (filter : list sock_filter) (index cap : nat)
    : option (list sock_filter) :=
  match head with
  | [] => Some filter
  | b :: rest =>
      match flatten_block b filter index cap with
      | None => None
      | Some (filter, index) => flatten_block_list rest filter index cap
      end
  end.

(** ** Labels *)

Definition get_label_id (labels : bpf_labels) (label_str : cstr) : outcome (Z * bpf_labels) :=
  let '(label_id, labels) := bpf_label_id labels label_str in
  if label_id <? 0 then Die else Ret (u32 label_id, labels).

Definition group_end_str (nr idx : Z) : cstr :=
  snprintf MAX_BPF_LABEL_LEN (fmt_d nr ++ str "_" ++ fmt_d idx ++ str "_end").

Definition group_end_lbl (labels : bpf_labels) (nr idx : Z) : outcome (Z * bpf_labels) :=
  get_label_id labels (group_end_str nr idx).

Definition success_str (nr : Z) : cstr := snprintf MAX_BPF_LABEL_LEN (fmt_d nr ++ str "_success").

Definition success_lbl (labels : bpf_labels) (nr : Z) : outcome (Z * bpf_labels) :=
  get_label_id labels (success_str nr).

Definition is_implicit_relative_path (filename : cstr) : bool :=
  negb (bool_decide (filename !! 0%nat = Some "/"%char)) &&
  (negb (bool_decide (filename !! 0%nat = Some "."%char)) ||
   negb (bool_decide (filename !! 1%nat = Some "/"%char))).

(** ** Policy lines *)

Section Compile.
Context {B : BuildConfig}.

(** An atom compares the argument [at_argidx] (an [int]) with the constant
    [at_const] (an [unsigned long]). *)
Record atom := { at_argidx : Z; at_op : Z; at_const : Z }.

(** The first half of [compile_atom]: split and check the text of an atom. *)
Definition parse_atom (text : cstr) : option atom :=
  match strtok SPACE text with
  | None => None
  | Some (argidx_str, rest) =>
  match strtok SPACE rest with
  | None => None
  | Some (operator_str, rest) =>
  match strtok SPACE rest with
  | None => None
  | Some (constant_str, rest) =>
  match strtok SPACE rest with
  | Some _ => None
  | None =>
    if negb (strncmp_eq argidx_str (str "arg") 3) then None else
    let '(argidx, argidx_ptr, _) := strtol (drop 3 argidx_str) 10 in
    if bool_decide (argidx_ptr = drop 3 argidx_str) || negb (bool_decide (argidx_ptr = [])) then None
    else
      let op := str_to_op operator_str in
      if op <? MIN_OPERATOR then None
      else match parse_constant constant_str with
           | None => None
           | Some c => Some {| at_argidx := s32 argidx; at_op := op; at_const := u64 c |}
           end
  end end end end.

(** [None] is the return of -1. *)
Definition compile_atom (head : fblocks) (text : cstr) (labels : bpf_labels) (nr grp_idx : Z)
    : outcome (option (fblocks * bpf_labels)) :=
  match parse_atom text with
  | None => Ret None
  | Some a =>
      '(id, labels) ← group_end_lbl labels nr grp_idx;
      match bpf_arg_comp a.(at_op) a.(at_argidx) a.(at_const) id with
      | None => Ret None
      | Some comp_block => Ret (Some (append_filter_block head comp_block, labels))
      end
  end.

Definition compile_errno (head : fblocks) (ret_errno : cstr) (act : block_action) : option fblocks :=
  match strtok SPACE ret_errno with
  | None => None
  | Some (ret_str, rest) =>
      if negb (starts_with (str "return") ret_str) then None
      else match strtok SPACE rest with
           | Some (errno_val_str, _) =>
               match parse_constant errno_val_str with
               | None => None
               | Some v =>
                   let errno_val := s32 v in
                   if errno_val =? -1 then None else Some (append_ret_errno head errno_val)
               end
           | None =>
               match act with
               | ACTION_RET_KILL => Some (append_ret_kill head)
               | ACTION_RET_KILL_PROCESS => Some (append_ret_kill_process head)
               | ACTION_RET_TRAP => Some (append_ret_trap head)
               | ACTION_RET_LOG => None
               end
           end
  end.

(** The inner loop of [compile_policy_line], over the atoms of a conjunction. *)
Fixpoint compile_atoms (head : fblocks) (atoms : list cstr) (labels : bpf_labels) (nr grp_idx : Z)
    : outcome (option (fblocks * bpf_labels)) :=
  match atoms with
  | [] => Ret (Some (head, labels))
  | comp :: rest =>
      r ← compile_atom head comp labels nr grp_idx;
      match r with
      | None => Ret None
      | Some (head, labels) => compile_atoms head rest labels nr grp_idx
      end
  end.

(** The outer loop, over the conjunctions. *)
Fixpoint compile_groups (head : fblocks) (groups : list cstr) (labels : bpf_labels) (nr grp_idx : Z)
    : outcome (option (fblocks * bpf_labels)) :=
  match groups with
  | [] => Ret (Some (head, labels))
  | group :: rest =>
      r ← compile_atoms head (tokenize_all (Some group) (str "&&")) labels nr grp_idx;
      match r with
      | None => Ret None
      | Some (head, labels) =>
          '(success_id, labels) ← success_lbl labels nr;
          '(end_id, labels) ← group_end_lbl labels nr grp_idx;
          compile_groups
            (append_filter_block head [set_bpf_jump_lbl success_id; set_bpf_lbl end_id])
            rest labels nr (grp_idx + 1)
      end
  end.

Definition append_default (head : fblocks) (act : block_action) : fblocks :=
  match act with
  | ACTION_RET_KILL => append_ret_kill head
  | ACTION_RET_KILL_PROCESS => append_ret_kill_process head
  | ACTION_RET_TRAP => append_ret_trap head
  | ACTION_RET_LOG => append_ret_log head
  end.

(** [None] is the return of NULL. *)
Definition compile_policy_line (nr : Z) (policy_line : cstr) (entry_lbl_id : Z)
    (labels : bpf_labels) (act : block_action) : outcome (option (fblocks * bpf_labels)) :=
  if bool_decide (policy_line = []) then Ret None else
  let head := append_filter_block new_filter_block [set_bpf_lbl entry_lbl_id] in
  if starts_with (str "return") policy_line then
    match compile_errno head policy_line act with
    | None => Ret None
    | Some head => Ret (Some (head, labels))
    end
  else
    let '(arg_filter, ret_errno) :=
      match strtok ";" policy_line with
      | None => (None, None)
      | Some (a, rest) => (Some a, fst <$> strtok ";" rest)
      end in
    r ← compile_groups head (tokenize_all arg_filter (str "||")) labels nr 0;
    match r with
    | None => Ret None
    | Some (head, labels) =>
        match (match ret_errno with
               | Some e => compile_errno head e act
               | None => Some (append_default head act)
               end) with
        | None => Ret None
        | Some head =>
            '(id, labels) ← success_lbl labels nr;
            Ret (Some (append_filter_block head [set_bpf_lbl id; set_bpf_ret_allow], labels))
        end
    end.

(** ** Policy files *)

(** What [compile_file] updates through its pointer arguments. *)
Record compiler := {
  c_head : fblocks;
  c_arg_blocks : option fblocks;
  c_labels : bpf_labels;
  c_previous : list (option parser_state);
}.

#[export] Instance eta_compiler : Eta compiler := λ c,
  {| c_head := c.(c_head); c_arg_blocks := c.(c_arg_blocks); c_labels := c.(c_labels);
     c_previous := c.(c_previous) |}.

(** The name is duplicated: strdup(3) of NULL is undefined. *)
Definition copy_parser_state (src : parser_state) : outcome parser_state :=
  match src.(ps_filename) with Some _ => Ret src | None => Undef end.

(** Whether the system call is new, and the array afterwards. *)
Definition insert_and_check_duplicate_syscall (previous : list (option parser_state))
    (state : parser_state) (ind : Z) : outcome (bool * list (option parser_state)) :=
  if Z.of_nat get_num_syscalls <=? ind then Die
  else match previous !! Z.to_nat ind with
       | None => Undef
       | Some None => dest ← copy_parser_state state; Ret (true, <[Z.to_nat ind := Some dest]> previous)
       | Some (Some _) => Ret (false, previous)
       end.

Fixpoint allow_logging_syscalls_of (names : list cstr) (head : fblocks) : fblocks :=
  match names with
  | [] => head
  | name :: rest =>
      allow_logging_syscalls_of rest (append_allow_syscall head (lookup_syscall name).1)
  end.

Definition allow_logging_syscalls (head : fblocks) : fblocks :=
  allow_logging_syscalls_of log_syscalls head.

(** The file name of an @include statement; [None] is the return of -1. *)
Definition parse_include_statement (policy_line : cstr) (include_level : nat) : option cstr :=
  if negb (starts_with (str "@include") policy_line) then None
  else if negb (bool_decide (policy_line !! 8%nat = Some SPACE)) then None
  else if (0 <? include_level)%nat then None
  else match (strsep SPACE policy_line).2 with
       | None => None
       | Some filename => if is_implicit_relative_path filename then None else Some filename
       end.

(** A policy line in its regular form "name: rule", both sides stripped. *)
Definition split_policy_line (policy_line : cstr) : option (cstr * cstr) :=
  match strsep ":" policy_line with
  | (_, None) => None
  | (syscall_name, Some rest) =>
      let rule := strip rest in
      if bool_decide (rule = []) then None else Some (strip syscall_name, rule)
  end.

(** One regular line: the part of the loop body after the split.  The result is
    whether to continue ([false]: goto out with -1), the new [ret], and the
    state. *)
Definition compile_regular_line (opts : filter_options) (state : parser_state)
    (syscall_name rule : cstr) (ret : Z) (c : compiler) : outcome (bool * Z * compiler) :=
  let '(nr, ind) := lookup_syscall syscall_name in
  if nr <? 0 then
    if opts.(allow_logging) then Ret (true, ret, c) else Ret (false, -1, c)
  else
    '(fresh, previous) ← insert_and_check_duplicate_syscall c.(c_previous) state ind;
    let ret := if negb fresh && negb opts.(opt_allow_duplicate_syscalls) then -1 else ret in
    let c := c <| c_previous := previous |> in
    if streq rule (str "1") then
      Ret (true, ret, c <| c_head := append_allow_syscall c.(c_head) nr |>)
    else
      let '(lid, labels) := bpf_label_id c.(c_labels) syscall_name in
      let id := u32 lid in
      let head := append_filter_block c.(c_head) (bpf_allow_syscall_args nr id) in
      let c := c <| c_labels := labels |> <| c_head := head |> in
      r ← compile_policy_line nr rule id labels opts.(action);
      match r with
      | None => Ret (false, -1, c <| c_arg_blocks := None |>)
      | Some (block, labels) =>
          let arg_blocks :=
            match c.(c_arg_blocks) with
            | Some a => extend_filter_block_list a block
            | None => block
            end in
          Ret (true, ret, c <| c_labels := labels |> <| c_arg_blocks := Some arg_blocks |>)
      end.

Variable fs : cstr → option (list ascii).

(** The loop of [compile_file]; [include] compiles an included file. *)
Fixpoint compile_lines
    (include : cstr → list ascii → compiler → outcome (Z * compiler))
    (opts : filter_options) (include_level : nat) (filename : option cstr)
    (fuel : nat) (stream : list ascii) (line_number : nat) (ret : Z) (c : compiler)
    : outcome (Z * compiler) :=
  match fuel with
  | O => Ret (ret, c)
  | S n =>
    match getmultiline stream with
    | (None, _) => Ret (ret, c)
    | (Some line, stream) =>
      let policy_line := strip (c_str line) in
      let line_number := S line_number in
      let continue := compile_lines include opts include_level filename n stream line_number in
      if bool_decide (head policy_line = Some "#"%char) || bool_decide (policy_line = []) then
        continue ret c
      else if bool_decide (head policy_line = Some "@"%char) then
        if starts_with (str "@frequency") policy_line then continue ret c
        else match parse_include_statement policy_line include_level with
             | None => Ret (-1, c)
             | Some name =>
                 match fs name with
                 | None => Ret (-1, c)
                 | Some contents =>
                     '(r, c) ← include name contents c;
                     if r =? -1 then Ret (-1, c) else continue ret c
                 end
             end
      else
        match split_policy_line policy_line with
        | None => Ret (-1, c)
        | Some (syscall_name, rule) =>
            let state := {| ps_filename := filename; ps_line_number := line_number |} in
            '(go, ret, c) ← compile_regular_line opts state syscall_name rule ret c;
            if go : bool then continue ret c else Ret (ret, c)
        end
    end
  end.

(** An included file: its own @include statements are refused by the level. *)
Definition compile_included (opts : filter_options) (include_level : nat) (filename : cstr)
    (stream : list ascii) (c : compiler) : outcome (Z * compiler) :=
  compile_lines (λ _ _ c, Ret (-1, c)) opts (S include_level) (Some filename) (S (length stream)) stream 0 0 c.

Definition compile_file (opts : filter_options) (include_level : nat) (filename : option cstr)
    (stream : list ascii) (c : compiler) : outcome (Z * compiler) :=
  compile_lines (compile_included opts include_level) opts include_level filename
    (S (length stream)) stream 0 0 c.

Definition zero_instr : sock_filter := Instr 0 0 0 0.

(** The default action, after the last system call. *)
Definition append_final (head : fblocks) (opts : filter_options) : option fblocks :=
  match opts.(action) with
  | ACTION_RET_KILL => Some (append_ret_kill head)
  | ACTION_RET_KILL_PROCESS => Some (append_ret_kill_process head)
  | ACTION_RET_TRAP => Some (append_ret_trap head)
  | ACTION_RET_LOG => if opts.(allow_logging) then Some (append_ret_log head) else None
  end.

(** Sizing, flattening and resolving: the end of [compile_filter]. *)
Definition link_filter (head : fblocks) (arg_blocks : option fblocks) (labels : bpf_labels)
    : outcome (option (list sock_filter)) :=
  let arg_len := match arg_blocks with Some a => total_len a | None => 0%nat end in
  let final_filter_len := (total_len head + arg_len)%nat in
  if (BPF_MAXINSNS <? final_filter_len)%nat then Ret None else
  let final_filter := replicate final_filter_len zero_instr in
  match flatten_block_list head final_filter 0 final_filter_len with
  | None => Ret None
  | Some final_filter =>
    match flatten_block_list (default [] arg_blocks) final_filter (total_len head) final_filter_len with
    | None => Ret None
    | Some final_filter =>
        r ← bpf_resolve_jumps labels final_filter;
        match r with
        | None => Ret None
        | Some (_, final_filter) => Ret (Some final_filter)
        end
    end
  end.

(** The compiled program; [None] is the return of -1. *)
Definition compile_filter (opts : filter_options) (filename : option cstr)
    (initial_file : option (list ascii)) : outcome (option (list sock_filter)) :=
  match initial_file with
  | None => Ret None
  | Some stream =>
      let head := append_filter_block new_filter_block bpf_validate_arch in
      let head := append_filter_block head [bpf_load_syscall_nr] in
      let head := if opts.(allow_syscalls_for_logging) then allow_logging_syscalls head else head in
      '(r, c) ← compile_file opts 0 filename stream
        {| c_head := head; c_arg_blocks := None; c_labels := [];
           c_previous := replicate get_num_syscalls None |};
      if negb (r =? 0) then Ret None else
      match append_final c.(c_head) opts with
      | None => Ret None
      | Some head => link_filter head c.(c_arg_blocks) c.(c_labels)
      end
  end.

End Compile.
