(* ===== verification/Policy.v ===== *)
(** * What a policy means

    The abstract specification of the policy compiler: a policy is a list of
    rules, one per line, a rule a disjunction of conjunctions of comparisons;
    [eval_policy] says what the kernel must answer for a system call.  The
    parsing half of the specification shares the text functions of the compiler
    and knows nothing of instructions, labels or blocks. *)

From S2P Require Import Prelude CLib Util Bpf BpfMachine BpfCompare SyscallFilter.
Local Open Scope Z_scope.

(** ** Verdicts *)

Inductive verdict :=
  | Allow
  | Kill
  | KillProcess
  | Trap
  | Log
  | Errno (e : Z).

(** The value the kernel documents for each answer of a filter. *)
Definition verdict_code (v : verdict) : Z :=
  match v with
  | Allow => 0x7fff0000
  | Kill => 0
  | KillProcess => 0x80000000
  | Trap => 0x00030000
  | Log => 0x7ffc0000
  | Errno e => 0x00050000 + e mod 2 ^ 16
  end.

Definition action_verdict (act : block_action) : verdict :=
  match act with
  | ACTION_RET_KILL => Kill
  | ACTION_RET_TRAP => Trap
  | ACTION_RET_LOG => Log
  | ACTION_RET_KILL_PROCESS => KillProcess
  end.

(** ** Rules *)

(** [RFilter dnf v]: allow when one of the conjunctions of [dnf] holds, answer
    [v] otherwise. *)
Inductive rule :=
  | RAllow
  | RReturn (v : verdict)
  | RFilter (dnf : list (list atom)) (v : verdict).

(** An atom whose argument index leads outside struct seccomp_data has no value. *)
Definition eval_atom (d : seccomp_data) (a : atom) : option bool :=
  v ← arg_value d a.(at_argidx); Some (eval_op a.(at_op) v a.(at_const)).

Fixpoint eval_conj (d : seccomp_data) (atoms : list atom) : option bool :=
  match atoms with
  | [] => Some true
  | a :: rest => b ← eval_atom d a; if b : bool then eval_conj d rest else Some false
  end.

Fixpoint eval_dnf (d : seccomp_data) (dnf : list (list atom)) : option bool :=
  match dnf with
  | [] => Some false
  | g :: rest => b ← eval_conj d g; if b : bool then Some true else eval_dnf d rest
  end.

Definition eval_rule (d : seccomp_data) (r : rule) : option verdict :=
  match r with
  | RAllow => Some Allow
  | RReturn v => Some v
  | RFilter dnf v => b ← eval_dnf d dnf; Some (if b : bool then Allow else v)
  end.

(** ** Policies *)

Record entry := { e_nr : Z; e_ind : Z; e_rule : rule }.

(** The rule of the first entry for the system call decides. *)
Fixpoint eval_entries (d : seccomp_data) (entries : list entry) (dflt : verdict) : option verdict :=
  match entries with
  | [] => Some dflt
  | e :: rest =>
      if u32 d.(sd_nr) =? u32 e.(e_nr) then eval_rule d e.(e_rule) else eval_entries d rest dflt
  end.

Definition eval_policy (d : seccomp_data) (entries : list entry) (dflt : verdict) : option verdict :=
  if u32 d.(sd_arch) =? MINIJAIL_ARCH_NR then eval_entries d entries dflt else Some Kill.

(** ** Reading a policy *)

Section Read.
Context {B : BuildConfig}.

Definition read_errno (text : cstr) (act : block_action) : option verdict :=
  match strtok SPACE text with
  | None => None
  | Some (kw, rest) =>
      if negb (starts_with (str "return") kw) then None
      else match strtok SPACE rest with
           | Some (v, _) =>
               e ← parse_constant v;
               if s32 e =? -1 then None else Some (Errno (s32 e))
           | None => match act with ACTION_RET_LOG => None | _ => Some (action_verdict act) end
           end
  end.

Definition read_dnf (text : option cstr) : option (list (list atom)) :=
  mapM (λ group, mapM parse_atom (tokenize_all (Some group) (str "&&")))
    (tokenize_all text (str "||")).

Definition read_rule (text : cstr) (act : block_action) : option rule :=
  if streq text (str "1") then Some RAllow
  else if bool_decide (text = []) then None
  else if starts_with (str "return") text then RReturn <$> read_errno text act
  else
    let '(filter_text, errno_text) :=
      match strtok ";" text with
      | None => (None, None)
      | Some (f, rest) => (Some f, fst <$> strtok ";" rest)
      end in
    dnf ← read_dnf filter_text;
    v ← match errno_text with
        | Some e => read_errno e act
        | None => Some (action_verdict act)
        end;
    Some (RFilter dnf v).

(** The logical lines of a file, continuation lines merged. *)
Fixpoint lines_of_fuel (fuel : nat) (stream : list ascii) : list cstr :=
  match fuel with
  | O => []
  | S n => match getmultiline stream with
           | (None, _) => []
           | (Some line, stream) => strip (c_str line) :: lines_of_fuel n stream
           end
  end.

Definition lines_of (stream : list ascii) : list cstr := lines_of_fuel (S (length stream)) stream.

(** The entry a regular line stands for: none for an unknown system call when
    the policy is only logged. *)
Definition read_entry (opts : filter_options) (line : cstr) : option (list entry) :=
  '(name, text) ← split_policy_line line;
  let '(nr, ind) := lookup_syscall name in
  if nr <? 0 then if opts.(allow_logging) then Some [] else None
  else r ← read_rule text opts.(action); Some [{| e_nr := nr; e_ind := ind; e_rule := r |}].

(** [include]: what an @include statement reads; [None] where none is allowed. *)
Definition read_line (include : option (cstr → option (list entry))) (opts : filter_options)
    (line : cstr) : option (list entry) :=
  if bool_decide (head line = Some "#"%char) || bool_decide (line = []) then Some []
  else if bool_decide (head line = Some "@"%char) then
    if starts_with (str "@frequency") line then Some []
    else inc ← include; name ← parse_include_statement line 0; inc name
  else read_entry opts line.

Definition read_lines (include : option (cstr → option (list entry))) (opts : filter_options)
    (lines : list cstr) : option (list entry) :=
  mjoin <$> mapM (read_line include opts) lines.

Variable fs : cstr → option (list ascii).

(** A policy file with its includes, one level deep. *)
Definition read_policy (opts : filter_options) (stream : list ascii) : option (list entry) :=
  read_lines (Some (λ name, contents ← fs name; read_lines None opts (lines_of contents)))
    opts (lines_of stream).

(** The system calls syslog(3) needs, allowed ahead of the policy. *)
Definition logging_entries (opts : filter_options) : list entry :=
  if opts.(allow_syscalls_for_logging) then
    (λ name, {| e_nr := (lookup_syscall name).1; e_ind := (lookup_syscall name).2; e_rule := RAllow |})
      <$> log_syscalls
  else [].

End Read.
