(* ===== verification/FilterCorrect.v ===== *)
(** * The policy compiler implements the policy

    From the atoms of a line up to the linked program: the instructions that
    [compile_filter] produces, run by the kernel's machine, answer for every
    system call what [eval_policy] says of the policy read from the file. *)

From S2P Require Import Prelude CLib Util Bpf BpfMachine BpfCompare SyscallFilter Policy UtilProps.
Local Open Scope Z_scope.

(** ** Label tables only grow *)

Definition unresolved (labels : bpf_labels) : Prop :=
  ∀ l name loc, labels !! l = Some (name, loc) → loc = UNRESOLVED.

Definition grows (labels labels' : bpf_labels) : Prop :=
  prefix labels labels' ∧ (unresolved labels → unresolved labels').

#[export] Instance grows_preorder : PreOrder grows.
Proof.
  split; [by split|]. intros l1 l2 l3 [H1 H2] [H3 H4]. split; [by etrans|eauto].
Qed.

(** The number under which a table knows a label. *)
Definition label_of (labels : bpf_labels) (s : cstr) : option Z :=
  (λ n : nat, u32 (Z.of_nat n)) <$> find_label_id 0 labels s.

Lemma find_label_id_app n labels more s id :
  find_label_id n labels s = Some id → find_label_id n (labels ++ more) s = Some id.
Proof.
  revert n; induction labels as [|[name loc] labels IH]; intros n; simpl; [done|].
  destruct (streq s name); eauto.
Qed.

Lemma find_label_id_new n labels s loc :
  find_label_id n labels s = None →
  find_label_id n (labels ++ [(s, loc)]) s = Some (n + length labels)%nat.
Proof.
  revert n; induction labels as [|[name loc'] labels IH]; intros n; simpl.
  - intros _. unfold streq. rewrite bool_decide_true by done. f_equal; lia.
  - destruct (streq s name); [done|]. intros H. rewrite IH by done. f_equal; lia.
Qed.

Lemma label_of_prefix labels labels' s id :
  prefix labels labels' → label_of labels s = Some id → label_of labels' s = Some id.
Proof.
  intros [more ->] H. unfold label_of in *. apply fmap_Some in H as (n & Hn & ->).
  by rewrite (find_label_id_app _ _ _ _ _ Hn).
Qed.

Lemma bpf_label_id_grows labels s : grows labels (bpf_label_id labels s).2.
Proof.
  unfold bpf_label_id. destruct (find_label_id 0 labels s); [done|].
  destruct (_ =? _)%nat; [done|]. simpl. split; [by eexists|].
  intros Hu l name loc H. apply lookup_app_Some in H as [H|[_ H]]; [by eapply Hu|].
  by apply list_lookup_singleton_Some in H as [_ [= _ <-]].
Qed.

Lemma get_label_id_spec labels s id labels' :
  (length s < MAX_BPF_LABEL_LEN)%nat → get_label_id labels s = Ret (id, labels') →
  grows labels labels' ∧ label_of labels' s = Some id.
Proof.
  intros Hs. unfold get_label_id. pose proof (bpf_label_id_grows labels s) as Hg. revert Hg.
  unfold bpf_label_id, label_of. destruct (find_label_id 0 labels s) as [n|] eqn:E.
  - intros Hg. destruct (_ <? 0); [done|]. intros [= <- <-]. by rewrite E.
  - destruct (_ =? _)%nat; [done|]. intros Hg. destruct (_ <? 0); [done|]. intros [= <- <-].
    split; [done|]. rewrite take_ge in * by lia. by rewrite find_label_id_new.
Qed.

Lemma group_end_lbl_spec labels nr idx id labels' :
  group_end_lbl labels nr idx = Ret (id, labels') →
  grows labels labels' ∧ label_of labels' (group_end_str nr idx) = Some id.
Proof. apply get_label_id_spec. unfold group_end_str, snprintf, MAX_BPF_LABEL_LEN. rewrite length_take. lia. Qed.

Lemma success_lbl_spec labels nr id labels' :
  success_lbl labels nr = Ret (id, labels') →
  grows labels labels' ∧ label_of labels' (success_str nr) = Some id.
Proof. apply get_label_id_spec. unfold success_str, snprintf, MAX_BPF_LABEL_LEN. rewrite length_take. lia. Qed.

(** ** Programs that declare each label once *)

Definition unique_labels (prog : list sock_filter) : Prop :=
  ∀ pre i post l, prog = pre ++ i :: post → is_label l i = true → goto l post = None.

Lemma unique_labels_app_r pre prog : unique_labels (pre ++ prog) → unique_labels prog.
Proof. intros H p i post l -> Hi. eapply (H (pre ++ p)); [by rewrite <- app_assoc|done]. Qed.

Lemma unique_labels_cons i prog : unique_labels (i :: prog) → unique_labels prog.
Proof. apply (unique_labels_app_r [i]). Qed.

Lemma goto_skip l code rest :
  unique_labels (code ++ rest) → is_Some (goto l rest) → goto l (code ++ rest) = goto l rest.
Proof.
  induction code as [|i code IH]; intros Hu Hs; simpl; [done|].
  destruct (is_label l i) eqn:E.
  - pose proof (Hu [] i (code ++ rest) l eq_refl E) as Hn.
    rewrite IH in Hn; [|by eapply unique_labels_cons|done]. rewrite Hn in Hs. by destruct Hs.
  - apply IH; [by eapply unique_labels_cons|done].
Qed.

Lemma sym_goto_skip d l code rest s :
  unique_labels (code ++ rest) → is_Some (goto l rest) →
  sym_goto d l (code ++ rest) s = sym_goto d l rest s.
Proof. intros. unfold sym_goto. by rewrite goto_skip. Qed.

Lemma is_label_lbl id : is_label (Z.to_nat (u32 id)) (set_bpf_lbl id) = true.
Proof. unfold is_label; simpl. apply Nat.eqb_refl. Qed.

Lemma goto_lbl_is_Some id code rest :
  is_Some (goto (Z.to_nat (u32 id)) (code ++ set_bpf_lbl id :: rest)).
Proof. rewrite goto_app. destruct (goto _ code); [by eexists|]. simpl. rewrite is_label_lbl. by eexists. Qed.

Lemma sym_goto_lbl d id code rest s :
  unique_labels (code ++ set_bpf_lbl id :: rest) →
  sym_goto d (Z.to_nat (u32 id)) (code ++ set_bpf_lbl id :: rest) s = sym_run d rest s.
Proof.
  intros Hu. rewrite sym_goto_skip; [|done|].
  - unfold sym_goto; simpl. by rewrite is_label_lbl.
  - apply (goto_lbl_is_Some id []).
Qed.

(** ** Tests: code that falls through or jumps to a label *)

(** [code] jumps to the label [id] when [b] is [jump_on] and falls through to
    what follows it when [b] is the other truth value. *)
Definition tests (d : seccomp_data) (code : list sock_filter) (b : option bool)
    (jump_on : bool) (id : Z) : Prop :=
  ∀ rest s, wf_machine s → unique_labels (code ++ rest) →
    is_Some (goto (Z.to_nat (u32 id)) rest) →
    match b with
    | None => sym_run d (code ++ rest) s = None
    | Some x => ∃ s', wf_machine s' ∧
        sym_run d (code ++ rest) s =
          if eqb x jump_on then sym_goto d (Z.to_nat (u32 id)) rest s' else sym_run d rest s'
    end.

Lemma tests_nil d j id : tests d [] (Some (negb j)) j id.
Proof. intros rest s Hs _ _. exists s. by destruct j. Qed.

Lemma tests_app d c1 c2 b1 b2 j id :
  tests d c1 b1 j id → tests d c2 b2 j id →
  tests d (c1 ++ c2) (x ← b1; if eqb x j then Some j else b2) j id.
Proof.
  intros H1 H2 rest s Hs Hu Hg. rewrite <- app_assoc in *.
  pose proof (unique_labels_app_r _ _ Hu) as Hu2.
  specialize (H1 (c2 ++ rest) s Hs Hu). rewrite goto_skip in H1 by done. specialize (H1 Hg).
  destruct b1 as [x|]; simpl; [|done]. destruct H1 as (s1 & Hs1 & ->).
  destruct (eqb x j) eqn:Ex.
  - exists s1. split; [done|]. rewrite eqb_reflx. by apply sym_goto_skip.
  - by apply H2.
Qed.

Lemma tests_ext d c b b' j id : b = b' → tests d c b j id → tests d c b' j id.
Proof. by intros ->. Qed.

(** An atom jumps to the end of its conjunction when it does not hold. *)
Lemma tests_atom d a code id :
  0 <= a.(at_const) < 2 ^ 64 →
  bpf_arg_comp a.(at_op) a.(at_argidx) a.(at_const) id = Some code →
  tests d code (eval_atom d a) false id.
Proof.
  intros Hc Hb rest s Hs _ _. pose proof (arg_comp_run d _ _ _ _ _ rest s Hc Hs Hb) as H.
  unfold eval_atom. destruct (arg_value d (at_argidx a)) as [v|]; simpl; [|done].
  destruct H as (s' & Hs' & ->). exists s'. by destruct (eval_op _ _ _).
Qed.

(** A conjunction followed by the jump to the success label and its own end. *)
Lemma tests_group d code b eid sid :
  tests d code b false eid →
  tests d (code ++ [set_bpf_jump_lbl sid; set_bpf_lbl eid]) b true sid.
Proof.
  intros H rest s Hs Hu Hg. rewrite <- app_assoc in *. simpl in *.
  specialize (H (set_bpf_jump_lbl sid :: set_bpf_lbl eid :: rest) s Hs Hu).
  pose proof (unique_labels_app_r _ _ Hu) as Hu2.
  specialize (H (goto_lbl_is_Some eid [set_bpf_jump_lbl sid] rest)).
  destruct b as [[]|]; [| |done]; destruct H as (s' & Hs' & ->); exists s'; split; try done; simpl.
  - rewrite sym_jump_lbl. apply (sym_goto_skip d _ [set_bpf_lbl eid]); [|done].
    by eapply unique_labels_cons.
  - by apply (sym_goto_lbl d eid [set_bpf_jump_lbl sid]).
Qed.

(** ** Conjunctions, disjunctions and lines *)

Section Line.
Context {B : BuildConfig}.

Lemma parse_atom_const text a : parse_atom text = Some a → 0 <= a.(at_const) < 2 ^ 64.
Proof.
  unfold parse_atom. intros H. repeat (case_match; try done). simplify_eq/=. by apply uwrap_range.
Qed.

Lemma compile_atom_spec head text labels nr idx head' labels' :
  compile_atom head text labels nr idx = Ret (Some (head', labels')) →
  ∃ a code, parse_atom text = Some a ∧ head' = head ++ [code] ∧ grows labels labels' ∧
    ∃ id, label_of labels' (group_end_str nr idx) = Some id ∧
      ∀ d, tests d code (eval_atom d a) false id.
Proof.
  unfold compile_atom. destruct (parse_atom text) as [a|] eqn:Ea; [|done].
  intros H. apply bind_Ret in H as ([id labels1] & Hl & H).
  destruct (bpf_arg_comp _ _ _ id) as [code|] eqn:Eb; [|done]. simplify_eq.
  apply group_end_lbl_spec in Hl as [Hg Hid].
  exists a, code. split_and!; try done. exists id. split; [done|]. intros d.
  by eapply tests_atom; [eapply parse_atom_const|].
Qed.

Lemma compile_atoms_spec atoms head labels nr idx head' labels' :
  compile_atoms head atoms labels nr idx = Ret (Some (head', labels')) →
  ∃ conj code, mapM parse_atom atoms = Some conj ∧ mjoin head' = mjoin head ++ code ∧
    grows labels labels' ∧
    ∀ labelsE id d, prefix labels' labelsE → label_of labelsE (group_end_str nr idx) = Some id →
      tests d code (eval_conj d conj) false id.
Proof.
  revert head labels; induction atoms as [|text atoms IH]; intros head labels H; simpl in H.
  - simplify_eq. exists [], []. rewrite app_nil_r. split_and!; try done. intros. apply (tests_nil _ false).
  - apply bind_Ret in H as ([[head1 labels1]|] & H1 & H); [|done].
    apply compile_atom_spec in H1 as (a & code1 & Ha & -> & Hg1 & id1 & Hid1 & Ht1).
    apply IH in H as (conj & code2 & Hc & Hj & Hg2 & Ht2).
    exists (a :: conj), (code1 ++ code2). split_and!.
    + simpl. by rewrite Ha, Hc.
    + rewrite Hj, join_app; simpl. by rewrite app_nil_r, app_assoc.
    + by etrans.
    + intros labelsE id d Hp Hid.
      assert (label_of labelsE (group_end_str nr idx) = Some id1) as Hid'.
      { eapply label_of_prefix, Hid1. etrans; [apply Hg2|done]. }
      rewrite Hid in Hid'. simplify_eq.
      eapply tests_ext; [|apply tests_app; [apply Ht1|by eapply Ht2]].
      simpl. by destruct (eval_atom d a) as [[]|].
Qed.

Lemma compile_groups_spec groups head labels nr idx head' labels' :
  compile_groups head groups labels nr idx = Ret (Some (head', labels')) →
  ∃ dnf code,
    mapM (λ group, mapM parse_atom (tokenize_all (Some group) (str "&&"))) groups = Some dnf ∧
    mjoin head' = mjoin head ++ code ∧ grows labels labels' ∧
    ∀ labelsE id d, prefix labels' labelsE → label_of labelsE (success_str nr) = Some id →
      tests d code (eval_dnf d dnf) true id.
Proof.
  revert head labels idx; induction groups as [|g groups IH]; intros head labels idx H; simpl in H.
  - simplify_eq. exists [], []. rewrite app_nil_r. split_and!; try done. intros. apply (tests_nil _ true).
  - apply bind_Ret in H as ([[head1 labels1]|] & H1 & H); [|done].
    apply bind_Ret in H as ([sid labels2] & H2 & H).
    apply bind_Ret in H as ([eid labels3] & H3 & H).
    apply compile_atoms_spec in H1 as (conj & code1 & Ha & Hj1 & Hg1 & Ht1).
    apply success_lbl_spec in H2 as [Hg2 Hsid]. apply group_end_lbl_spec in H3 as [Hg3 Heid].
    apply IH in H as (dnf & code2 & Hd & Hj2 & Hg4 & Ht2).
    exists (conj :: dnf), ((code1 ++ [set_bpf_jump_lbl sid; set_bpf_lbl eid]) ++ code2).
    split_and!.
    + apply mapM_Some. constructor; [done|by apply mapM_Some].
    + rewrite Hj2. unfold append_filter_block. rewrite join_app, Hj1. simpl.
      by rewrite <- !app_assoc.
    + etrans; [exact Hg1|]. etrans; [exact Hg2|]. by etrans.
    + intros labelsE id d Hp Hid.
      assert (label_of labelsE (success_str nr) = Some sid) as Hid'.
      { eapply label_of_prefix, Hsid. etrans; [apply Hg3|]. etrans; [apply Hg4|done]. }
      rewrite Hid in Hid'. simplify_eq.
      eapply tests_ext; [|apply tests_app; [apply tests_group, (Ht1 labels3)|by eapply Ht2]].
      * simpl. by destruct (eval_conj d conj) as [[]|].
      * etrans; [apply Hg2|apply Hg3].
      * done.
Qed.

(** ** Return statements *)

Definition ret_instr (v : verdict) : sock_filter := set_bpf_stmt (BPF_RET + BPF_K) (verdict_code v).

Lemma verdict_code_range v : 0 <= verdict_code v < 2 ^ 32.
Proof.
  destruct v; unfold verdict_code; try lia. pose proof (Z.mod_pos_bound e (2 ^ 16)). lia.
Qed.

Lemma sym_ret_verdict d v rest s : sym_run d (ret_instr v :: rest) s = Some (verdict_code v).
Proof. unfold ret_instr. rewrite sym_ret. f_equal. apply uwrap_small, verdict_code_range. Qed.

Lemma ret_errno_code e : set_bpf_ret_errno e = ret_instr (Errno e).
Proof.
  unfold set_bpf_ret_errno, ret_instr. f_equal.
  unfold verdict_code, SECCOMP_RET_ERRNO, SECCOMP_RET_DATA.
  change 0xffff with (Z.ones 16). rewrite Z.land_ones by lia.
  enough (Z.land 327680 (e mod 2 ^ 16) = 0) by (rewrite <- Z.add_lor_land; lia).
  change 327680 with (Z.shiftl 5 16). apply Z.bits_inj'. intros n Hn.
  rewrite Z.land_spec, Z.shiftl_spec, Z.bits_0 by lia.
  destruct (decide (n < 16)).
  - rewrite (Z.testbit_neg_r 5) by lia. done.
  - rewrite Z.mod_pow2_bits_high by lia. apply andb_false_r.
Qed.

Lemma append_default_spec head act :
  append_default head act = head ++ [[ret_instr (action_verdict act)]].
Proof. by destruct act. Qed.

Lemma compile_errno_spec head text act :
  compile_errno head text act = (λ v, head ++ [[ret_instr v]]) <$> read_errno text act.
Proof.
  unfold compile_errno, read_errno. destruct (strtok SPACE text) as [[kw rest]|]; [|done].
  destruct (negb _); [done|]. destruct (strtok SPACE rest) as [[v ?]|].
  - destruct (parse_constant v) as [e|]; simpl; [|done]. destruct (s32 e =? -1); [done|].
    simpl. unfold append_ret_errno, append_filter_block. by rewrite ret_errno_code.
  - by destruct act.
Qed.

(** ** A whole line

    The block of a line: from its entry label on, it answers as the rule says. *)
Lemma compile_policy_line_spec nr text id labels act blocks labels' :
  streq text (str "1") = false →
  compile_policy_line nr text id labels act = Ret (Some (blocks, labels')) →
  ∃ r code, read_rule text act = Some r ∧ mjoin blocks = set_bpf_lbl id :: code ∧
    grows labels labels' ∧
    ∀ d rest s, wf_machine s → unique_labels (code ++ rest) →
      sym_run d (code ++ rest) s = verdict_code <$> eval_rule d r.
Proof.
  intros H1. unfold compile_policy_line, read_rule. rewrite H1.
  case_bool_decide as Ht; [done|]. destruct (starts_with (str "return") text).
  - rewrite compile_errno_spec. destruct (read_errno text act) as [v|]; [|done].
    intros [= <- <-]. exists (RReturn v), [ret_instr v]. split_and!; try done.
    intros. apply sym_ret_verdict.
  - set (p := match strtok _ _ with None => _ | _ => _ end). destruct p as [ft et].
    intros H. apply bind_Ret in H as ([[head labels1]|] & Hgr & H); [|done].
    apply compile_groups_spec in Hgr as (dnf & code & Hd & Hj & Hg & Ht1).
    unfold read_dnf. rewrite Hd. simpl.
    assert (∃ v, match et with Some e => read_errno e act | None => Some (action_verdict act) end
                 = Some v ∧
              match et with Some e => compile_errno head e act
                       | None => Some (append_default head act) end = Some (head ++ [[ret_instr v]]))
      as (v & Hv & Hh).
    { destruct et as [e|].
      - rewrite compile_errno_spec in *. destruct (read_errno e act) as [v|]; [eauto|done].
      - rewrite append_default_spec. eauto. }
    rewrite Hh in H. rewrite Hv. simpl.
    apply bind_Ret in H as ([sid labels2] & Hs & H). simplify_eq.
    apply success_lbl_spec in Hs as [Hg2 Hsid].
    exists (RFilter dnf v), (code ++ [ret_instr v; set_bpf_lbl sid; set_bpf_ret_allow]).
    split_and!; try done.
    + unfold append_filter_block. rewrite !join_app, Hj. simpl. by rewrite <- !app_assoc.
    + by etrans.
    + intros d rest s Hs Hu. rewrite <- app_assoc in *; simpl in *.
      specialize (Ht1 labels' sid d (proj1 Hg2) Hsid _ s Hs Hu
        (goto_lbl_is_Some sid [ret_instr v] _)).
      simpl in Ht1. destruct (eval_dnf d dnf) as [b|]; simpl; [|done].
      destruct Ht1 as (s' & Hs' & ->). destruct b; simpl.
      * etrans; [apply (sym_goto_lbl d sid [ret_instr v]); by eapply unique_labels_app_r|].
        apply (sym_ret_verdict d Allow).
      * apply sym_ret_verdict.
Qed.

End Line.

(** ** Jump table and argument blocks *)

Definition implements (r : rule) (code : list sock_filter) : Prop :=
  ∀ d rest s, wf_machine s → unique_labels (code ++ rest) →
    sym_run d (code ++ rest) s = verdict_code <$> eval_rule d r.

(** [compiled es h a]: the jump table [h] and the argument blocks [a] of [es]. *)
Inductive compiled : list entry → list sock_filter → list sock_filter → Prop :=
  | compiled_nil : compiled [] [] []
  | compiled_allow e es h a :
      e.(e_rule) = RAllow → compiled es h a →
      compiled (e :: es) (bpf_allow_syscall e.(e_nr) ++ h) a
  | compiled_args e es h a id code :
      implements e.(e_rule) code → compiled es h a →
      compiled (e :: es) (bpf_allow_syscall_args e.(e_nr) id ++ h) (set_bpf_lbl id :: code ++ a).

Lemma compiled_app es1 h1 a1 es2 h2 a2 :
  compiled es1 h1 a1 → compiled es2 h2 a2 → compiled (es1 ++ es2) (h1 ++ h2) (a1 ++ a2).
Proof.
  induction 1; intros H2; [done| |]; rewrite <- ?app_comm_cons, <- !app_assoc; constructor; auto.
Qed.

Lemma compiled_run es h a :
  compiled es h a → ∀ d dflt pre m, wf_machine (0, m) →
    unique_labels (h ++ ret_instr dflt :: pre ++ a) →
    sym_run d (h ++ ret_instr dflt :: pre ++ a) (u32 d.(sd_nr), m) =
      verdict_code <$> eval_entries d es dflt.
Proof.
  induction 1 as [|e es h a Hr _ IH|e es h a id code Hr _ IH]; intros d dflt pre m Hm Hu.
  - apply sym_ret_verdict.
  - unfold bpf_allow_syscall in *. simpl app in *.
    rewrite (sym_jump d BPF_JEQ) by (unfold NEXT, SKIP; auto || lia). simpl eval_entries.
    unfold jump_test; simpl (_ =? _). destruct (u32 _ =? u32 _); simpl_drop.
    + rewrite Hr. simpl. apply (sym_ret_verdict d Allow).
    + apply IH; [done|]. by apply (unique_labels_app_r [_; _]) in Hu.
  - unfold bpf_allow_syscall_args in *. simpl app in *.
    rewrite (sym_jump d BPF_JEQ) by (unfold NEXT, SKIP; auto || lia). simpl eval_entries.
    unfold jump_test; simpl (_ =? _).
    apply (unique_labels_app_r [_; _]) in Hu.
    destruct (u32 _ =? u32 _); simpl_drop.
    + rewrite sym_jump_lbl.
      replace (h ++ ret_instr dflt :: pre ++ set_bpf_lbl id :: code ++ a)
        with ((h ++ ret_instr dflt :: pre) ++ set_bpf_lbl id :: code ++ a) in *
        by (by rewrite <- app_assoc).
      rewrite sym_goto_lbl by done. apply Hr; [done|].
      by eapply unique_labels_cons, unique_labels_app_r.
    + replace (pre ++ set_bpf_lbl id :: code ++ a) with ((pre ++ set_bpf_lbl id :: code) ++ a) in *
        by (by rewrite <- app_assoc).
      by apply IH.
Qed.

(** The whole program in front of its jump table. *)
Lemma compiled_program_run es h a d dflt :
  compiled es h a →
  unique_labels (bpf_validate_arch ++ bpf_load_syscall_nr :: h ++ ret_instr dflt :: a) →
  sym_run d (bpf_validate_arch ++ bpf_load_syscall_nr :: h ++ ret_instr dflt :: a) initial_machine =
    verdict_code <$> eval_policy d es dflt.
Proof.
  intros Hc Hu. unfold bpf_validate_arch, bpf_load_syscall_nr in *. simpl app in *.
  unfold initial_machine. rewrite sym_ld.
  change (load_word d (u32 arch_nr)) with (Some (u32 d.(sd_arch))). cbv iota.
  rewrite (sym_jump d BPF_JEQ) by (unfold NEXT, SKIP; auto || lia).
  unfold jump_test; simpl (_ =? BPF_JEQ). unfold eval_policy.
  change (u32 MINIJAIL_ARCH_NR) with MINIJAIL_ARCH_NR.
  destruct (u32 (sd_arch d) =? MINIJAIL_ARCH_NR); simpl_drop.
  - rewrite sym_ld. change (load_word d (u32 syscall_nr)) with (Some (u32 d.(sd_nr))). cbv iota.
    apply (compiled_run es h a Hc d dflt []); [done|].
    by apply (unique_labels_app_r [_; _; _; _]) in Hu.
  - apply (sym_ret_verdict d Kill).
Qed.

(** ** Files *)

Definition args_code (c : compiler) : list sock_filter := mjoin (default [] c.(c_arg_blocks)).

(** What compiling the entries [es] adds to the compiler's state. *)
Record extends (opts : filter_options) (c c' : compiler) (es : list entry) : Prop := {
  ext_labels : grows c.(c_labels) c'.(c_labels);
  ext_code : ∃ h a, compiled es h a ∧ mjoin c'.(c_head) = mjoin c.(c_head) ++ h
               ∧ args_code c' = args_code c ++ a;
  ext_seen : ∀ i st, c.(c_previous) !! i = Some (Some st) → c'.(c_previous) !! i = Some (Some st);
  ext_new : opts.(opt_allow_duplicate_syscalls) = false →
    NoDup (e_ind <$> es) ∧
    Forall (λ e, (∀ st, c.(c_previous) !! Z.to_nat e.(e_ind) ≠ Some (Some st)) ∧
                 ∃ st, c'.(c_previous) !! Z.to_nat e.(e_ind) = Some (Some st)) es;
}.

Lemma extends_nil opts c : extends opts c c [].
Proof.
  split; [done| |done|].
  - exists [], []. rewrite !app_nil_r. split_and!; [constructor|done|done].
  - intros _. split; constructor.
Qed.

Lemma extends_app opts c1 c2 c3 es1 es2 :
  extends opts c1 c2 es1 → extends opts c2 c3 es2 → extends opts c1 c3 (es1 ++ es2).
Proof.
  intros [G1 (h1 & a1 & C1 & H1 & A1) S1 N1] [G2 (h2 & a2 & C2 & H2 & A2) S2 N2]. split.
  - by etrans.
  - exists (h1 ++ h2), (a1 ++ a2). split_and!; [by apply compiled_app| |].
    + by rewrite H2, H1, app_assoc.
    + by rewrite A2, A1, app_assoc.
  - eauto.
  - intros Hd. destruct (N1 Hd) as [D1 F1], (N2 Hd) as [D2 F2].
    rewrite list.Forall_forall in F1. rewrite list.Forall_forall in F2. split.
    + rewrite fmap_app. apply list.NoDup_app. split_and!; [done| |done].
      intros i (e1 & -> & H1')%list_elem_of_fmap (e2 & He & H2')%list_elem_of_fmap.
      destruct (F1 _ H1') as [_ [st Hst]], (F2 _ H2') as [Hno _]. rewrite He in Hst. by eapply Hno.
    + apply list.Forall_app. split; apply list.Forall_forall; intros e He.
      * destruct (F1 _ He) as [? [st ?]]. eauto.
      * destruct (F2 _ He) as [Hno ?]. split; [|done]. intros st Hst. by eapply Hno, S1.
Qed.

Section File.
Context {B : BuildConfig}.

Lemma insert_and_check_spec previous st ind fresh previous' :
  insert_and_check_duplicate_syscall previous st ind = Ret (fresh, previous') →
  (∀ i st', previous !! i = Some (Some st') → previous' !! i = Some (Some st')) ∧
  (fresh = true → previous !! Z.to_nat ind = Some None ∧
                  previous' !! Z.to_nat ind = Some (Some st)).
Proof.
  unfold insert_and_check_duplicate_syscall, copy_parser_state. destruct (_ <=? _); [done|].
  destruct (previous !! Z.to_nat ind) as [[]|] eqn:E; [by intros [= <- <-]| |done].
  destruct (ps_filename st); [|done]. intros [= <- <-]. split.
  - intros i st' Hi. rewrite list_lookup_insert_ne; [done|]. by intros <-; simplify_eq.
  - intros _. split; [done|]. apply list_lookup_insert_eq. by eapply lookup_lt_Some.
Qed.

(** One entry whose number was new or may be repeated. *)
Lemma extends_one opts c c' e h a fresh st :
  grows c.(c_labels) c'.(c_labels) → compiled [e] h a →
  mjoin c'.(c_head) = mjoin c.(c_head) ++ h → args_code c' = args_code c ++ a →
  insert_and_check_duplicate_syscall c.(c_previous) st e.(e_ind) = Ret (fresh, c'.(c_previous)) →
  negb fresh && negb opts.(opt_allow_duplicate_syscalls) = false →
  extends opts c c' [e].
Proof.
  intros Hg Hc Hh Ha Hi Hd. apply insert_and_check_spec in Hi as [Hs Hn].
  split; [done|by eauto|done|]. intros Ed. rewrite Ed in Hd.
  destruct fresh; [|done]. destruct (Hn eq_refl) as [H1 H2].
  split; [apply NoDup_singleton|]. apply list.Forall_singleton. split; [congruence|eauto].
Qed.

Lemma compile_regular_line_spec opts st name text line ret c go ret' c' :
  split_policy_line line = Some (name, text) →
  compile_regular_line opts st name text ret c = Ret (go, ret', c') →
  if go then ret' = -1 ∨ (ret' = ret ∧ ∃ es, read_entry opts line = Some es ∧ extends opts c c' es)
  else ret' = -1.
Proof.
  intros Hl. unfold compile_regular_line, read_entry. rewrite Hl. simpl.
  destruct (lookup_syscall name) as [nr ind] eqn:El. destruct (nr <? 0).
  { destruct (allow_logging opts); intros [= <- <- <-]; [|done].
    right. split; [done|]. exists []. split; [done|apply extends_nil]. }
  intros H. apply bind_Ret in H as ([fresh prev] & Hi & H).
  destruct (negb fresh && negb _) eqn:Ed.
  { destruct (streq text (str "1")); [simplify_eq; by left|].
    destruct (bpf_label_id _ _). apply bind_Ret in H as ([[]|] & _ & H); simplify_eq; [by left|done]. }
  destruct (streq text (str "1")) eqn:E1.
  - simplify_eq. right. split; [done|]. unfold read_rule. rewrite E1. simpl. eexists. split; [done|].
    eapply extends_one; [| |simpl| |exact Hi|exact Ed]; simpl.
    + done.
    + by apply compiled_allow; [|constructor].
    + unfold modify, append_allow_syscall, append_filter_block; simpl.
      by rewrite join_app.
    + by rewrite app_nil_r.
  - destruct (bpf_label_id _ _) as [lid labels1] eqn:Eid.
    apply bind_Ret in H as ([[block labels2]|] & Hp & H); [|by simplify_eq].
    simplify_eq. right. split; [done|].
    apply compile_policy_line_spec in Hp as (r & code & Hr & Hj & Hg & Hc); [|done].
    rewrite Hr. simpl. eexists. split; [done|].
    eapply extends_one; [| |simpl| |exact Hi|exact Ed]; simpl.
    + etrans; [|exact Hg]. pose proof (bpf_label_id_grows (c_labels c) name) as Hg'.
      unfold modify in Eid; simpl in Eid. by rewrite Eid in Hg'.
    + by eapply (compiled_args _ [] [] [] (u32 lid)); [|constructor].
    + unfold modify, append_filter_block; simpl. by rewrite join_app.
    + unfold args_code, modify; simpl. rewrite app_nil_r.
      destruct (c_arg_blocks c) as [b|]; simpl; [|by rewrite Hj].
      unfold extend_filter_block_list. by rewrite join_app, Hj.
Qed.


Variable fs : cstr → option (list ascii).

Section Lines.
Variables (opts : filter_options) (level : nat).
Variable include : cstr → list ascii → compiler → outcome (Z * compiler).
Variable inc : option (cstr → option (list entry)).

(** What compiling an included file must achieve, against the specification's
    reading of it. *)
Hypothesis include_ok : ∀ line name contents c r c',
  parse_include_statement line level = Some name → fs name = Some contents →
  include name contents c = Ret (r, c') →
  r = -1 ∨ ∃ read es, inc = Some read ∧ parse_include_statement line 0 = Some name
                      ∧ read name = Some es ∧ extends opts c c' es.

Lemma compile_lines_spec fuel stream filename n ret c r c' :
  compile_lines fs include opts level filename fuel stream n ret c = Ret (r, c') →
  r = -1 ∨ (r = ret ∧ ∃ es, read_lines inc opts (lines_of_fuel fuel stream) = Some es
                            ∧ extends opts c c' es).
Proof.
  revert stream n ret c.
  assert (∀ line lines es1 c1 c2 r ret, read_line inc opts line = Some es1 →
    extends opts c1 c2 es1 →
    r = -1 ∨ (r = ret ∧ ∃ es, read_lines inc opts lines = Some es ∧ extends opts c2 c' es) →
    r = -1 ∨ (r = ret ∧ ∃ es, read_lines inc opts (line :: lines) = Some es
                              ∧ extends opts c1 c' es)) as Hcons.
  { intros line lines es1 c1 c2 r' ret' Hl He [?|(-> & es & Hr & He')]; [by left|]. right.
    split; [done|]. exists (es1 ++ es). split; [|by eapply extends_app].
    unfold read_lines in *. simpl. rewrite Hl. simpl. destruct (mapM _ lines); [|done].
    by simplify_eq/=. }
  induction fuel as [|fuel IH]; intros stream n ret c H; simpl in H.
  { simplify_eq. right. split; [done|]. exists []. split; [done|apply extends_nil]. }
  simpl. destruct (getmultiline stream) as [[line|] rest].
  2: { simplify_eq. right. split; [done|]. exists []. split; [done|apply extends_nil]. }
  set (pl := strip (c_str line)) in *.
  destruct (bool_decide (head pl = Some "#"%char) || bool_decide (pl = [])) eqn:E1.
  { eapply Hcons; [|apply extends_nil|by eapply IH]. unfold read_line. by rewrite E1. }
  destruct (bool_decide (head pl = Some "@"%char)) eqn:E2.
  { destruct (starts_with (str "@frequency") pl) eqn:E3.
    { eapply Hcons; [|apply extends_nil|by eapply IH]. unfold read_line. by rewrite E1, E2, E3. }
    destruct (parse_include_statement pl level) as [name|] eqn:E4; [|simplify_eq; by left].
    destruct (fs name) as [contents|] eqn:E5; [|simplify_eq; by left].
    apply bind_Ret in H as ([r1 c1] & Hinc & H).
    destruct (r1 =? -1) eqn:E6; [simplify_eq; by left|].
    destruct (include_ok _ _ _ _ _ _ E4 E5 Hinc) as [->|(read & es & Hi & Hp & Hr & He)]; [done|].
    eapply Hcons; [|exact He|by eapply IH]. unfold read_line.
    by rewrite E1, E2, E3, Hi, Hp. }
  destruct (split_policy_line pl) as [[name text]|] eqn:E3; [|simplify_eq; by left].
  apply bind_Ret in H as ([[go ret1] c1] & Hreg & H).
  eapply compile_regular_line_spec in Hreg; [|done]. destruct go; [|simplify_eq; by left].
  apply IH in H. destruct Hreg as [->|(-> & es & Hr & He)].
  { left. by destruct H as [?|[? _]]. }
  eapply Hcons; [|exact He|exact H]. unfold read_line. by rewrite E1, E2.
Qed.

End Lines.

Lemma compile_included_spec opts filename stream c r c' :
  compile_included fs opts 0 filename stream c = Ret (r, c') →
  r = -1 ∨ ∃ es, read_lines None opts (lines_of stream) = Some es ∧ extends opts c c' es.
Proof.
  intros H. unfold compile_included in H.
  eapply (compile_lines_spec opts 1 _ None) in H as [?|(_ & es & ? & ?)].
  - by left.
  - right. by exists es.
  - intros ? ? ? ? ? ? _ _ [= <- _]. by left.
Qed.

Lemma compile_file_spec opts filename stream c r c' :
  compile_file fs opts 0 filename stream c = Ret (r, c') →
  r = -1 ∨ (r = 0 ∧ ∃ es, read_policy fs opts stream = Some es ∧ extends opts c c' es).
Proof.
  intros H. unfold compile_file in H. unfold read_policy.
  eapply compile_lines_spec in H; [exact H|].
  intros line name contents c1 r1 c2 Hp Hf Hi. apply compile_included_spec in Hi as [?|(es & Hr & He)].
  - by left.
  - right. eexists _, es. split_and!; [done|done| |done]. simpl. by rewrite Hf.
Qed.

(** ** Flattening and linking *)

Lemma flatten_block_spec instrs pre post cap :
  cap = (length pre + length post)%nat →
  flatten_block instrs (pre ++ post) (length pre) cap =
    if (length instrs <=? length post)%nat
    then Some (pre ++ instrs ++ drop (length instrs) post, (length pre + length instrs)%nat)
    else None.
Proof.
  revert pre post; induction instrs as [|i instrs IH]; intros pre post Hcap; simpl.
  { by rewrite Nat.add_0_r. }
  destruct post as [|x post]; simpl.
  { rewrite (proj2 (Nat.leb_le _ _)); [done|simpl in Hcap; lia]. }
  simpl in Hcap. rewrite (proj2 (Nat.leb_gt _ _)) by lia.
  rewrite insert_app_r_alt, Nat.sub_diag by done. simpl.
  specialize (IH (pre ++ [i]) post). rewrite length_app in IH; simpl in IH.
  rewrite <- app_assoc, Nat.add_1_r in IH. simpl in IH. rewrite IH by lia.
  destruct (_ <=? _)%nat; [|done]. rewrite <- app_assoc. simpl. do 2 f_equal. lia.
Qed.

Lemma total_len_mjoin (blocks : fblocks) : total_len blocks = length (mjoin blocks).
Proof. unfold total_len. induction blocks; simpl; [done|]. rewrite length_app. by f_equal. Qed.

Lemma flatten_block_list_spec (blocks : fblocks) pre post cap :
  cap = (length pre + length post)%nat → (total_len blocks <= length post)%nat →
  flatten_block_list blocks (pre ++ post) (length pre) cap =
    Some (pre ++ mjoin blocks ++ drop (total_len blocks) post).
Proof.
  rewrite total_len_mjoin.
  revert pre post; induction blocks as [|b blocks IH]; intros pre post Hcap Hlen; simpl; [done|].
  simpl in Hlen. rewrite length_app in *. rewrite flatten_block_spec by done.
  rewrite (proj2 (Nat.leb_le _ _)) by lia.
  rewrite app_assoc, <- length_app, IH, <- !app_assoc, drop_drop; [done| |].
  - rewrite length_app, length_drop. lia.
  - rewrite length_drop. lia.
Qed.

(** Sizing and flattening succeed whenever the program is small enough, and
    produce the concatenation of all blocks. *)
Lemma link_filter_spec (head : fblocks) arg_blocks labels :
  link_filter head arg_blocks labels =
    let prog : list sock_filter := mjoin (M:=list) head ++ mjoin (M:=list) (default [] arg_blocks) in
    if (BPF_MAXINSNS <? length prog)%nat then Ret None
    else match resolve_from labels 0 prog with
         | Ret r => Ret (option_map snd r)
         | Die => Die
         | Undef => Undef
         end.
Proof.
  unfold link_filter.
  replace (match arg_blocks with Some a => total_len a | None => 0%nat end)
    with (total_len (default [] arg_blocks)) by (by destruct arg_blocks).
  rewrite !total_len_mjoin, <- length_app. simpl.
  set (prog := mjoin head ++ _). destruct (_ <? _)%nat eqn:E; [done|].
  pose proof (flatten_block_list_spec head [] (replicate (length prog) zero_instr) (length prog)) as H1.
  simpl in H1. rewrite H1; [|by rewrite length_replicate|].
  2: { rewrite length_replicate, total_len_mjoin. unfold prog. rewrite length_app. lia. }
  rewrite total_len_mjoin, drop_replicate. unfold prog at 1. rewrite length_app.
  replace (_ + _ - _)%nat with (length (mjoin (default [] arg_blocks))) by lia.
  rewrite flatten_block_list_spec.
  2: { unfold prog. by rewrite length_app, length_replicate. }
  2: { by rewrite length_replicate, total_len_mjoin. }
  rewrite total_len_mjoin, drop_replicate, Nat.sub_diag, app_nil_r. fold prog.
  unfold bpf_resolve_jumps. rewrite E.
  destruct (resolve_from labels 0 prog) as [[[]|]| |]; done.
Qed.

Lemma resolve_unique_labels labels prog r :
  Z.of_nat (length prog) < 2 ^ 32 - 1 → unresolved labels →
  resolve_from labels 0 prog = Ret (Some r) → unique_labels prog.
Proof.
  intros Hlen Hun H pre i post l -> Hi. destruct r as [labels' prog'].
  exact (resolve_from_unique labels 0 pre i post labels' prog' l Hlen Hun H Hi).
Qed.

(** ** The whole compiler *)

Definition initial_compiler (opts : filter_options) : compiler :=
  {| c_head := (if opts.(allow_syscalls_for_logging)
                then allow_logging_syscalls [bpf_validate_arch; [bpf_load_syscall_nr]]
                else [bpf_validate_arch; [bpf_load_syscall_nr]]);
     c_arg_blocks := None; c_labels := []; c_previous := replicate get_num_syscalls None |}.

(** The logging system calls are the first entries of the jump table. *)
Lemma initial_compiler_code opts :
  ∃ h, compiled (logging_entries opts) h [] ∧
    mjoin (M:=list) (initial_compiler opts).(c_head) = bpf_validate_arch ++ bpf_load_syscall_nr :: h.
Proof.
  unfold initial_compiler, logging_entries; cbn [c_head].
  destruct (allow_syscalls_for_logging opts).
  - unfold log_syscalls, allow_logging_syscalls; cbn [allow_logging_syscalls_of log_syscalls fmap list_fmap].
    eexists. split.
    + do 4 (apply compiled_allow; [done|]). constructor.
    + done.
  - exists []. split; [constructor|done].
Qed.

Lemma append_final_spec (head : fblocks) opts head' :
  append_final head opts = Some head' → head' = head ++ [[ret_instr (action_verdict opts.(action))]].
Proof.
  unfold append_final. destruct (action opts); try by intros [= <-].
  destruct (allow_logging opts); [by intros [= <-]|done].
Qed.

Lemma compile_filter_inv opts filename stream prog :
  compile_filter fs opts filename (Some stream) = Ret (Some prog) →
  ∃ es c' h a labels',
    read_policy fs opts stream = Some es ∧ extends opts (initial_compiler opts) c' es ∧
    compiled (logging_entries opts ++ es) h a ∧
    let source := bpf_validate_arch ++ bpf_load_syscall_nr :: h
                  ++ ret_instr (action_verdict opts.(action)) :: a in
    (length source <= BPF_MAXINSNS)%nat ∧ unresolved c'.(c_labels) ∧
    resolve_from c'.(c_labels) 0 source = Ret (Some (labels', prog)).
Proof.
  unfold compile_filter. intros H. apply bind_Ret in H as ([r c'] & Hf & H).
  change (compile_file fs opts 0 filename stream (initial_compiler opts) = Ret (r, c')) in Hf.
  destruct (r =? 0) eqn:Er; [|done]. simpl in H. apply Z.eqb_eq in Er as ->.
  apply compile_file_spec in Hf as [?|(_ & es & Hr & He)]; [done|].
  destruct (append_final _ opts) as [head|] eqn:Eh; [|done]. apply append_final_spec in Eh as ->.
  destruct (initial_compiler_code opts) as (h0 & Hc0 & Hh0).
  pose proof He as [Hg (h & a & Hc & Hh & Ha) _ _].
  rewrite link_filter_spec in H. rewrite join_app, Hh, Hh0 in H. simpl app in H.
  change (mjoin (default [] (c_arg_blocks c'))) with (args_code c') in H. rewrite Ha in H.
  change (args_code (initial_compiler opts) ++ a) with a in H.
  cbv zeta in H. destruct (_ <? _)%nat eqn:El; [done|]. apply Nat.ltb_ge in El.
  destruct (resolve_from _ _ _) as [[[labels' prog']|]| |] eqn:Hres; try done.
  clear Ha Hh Hh0. simplify_eq/=.
  exists es, c', (h0 ++ h), a, labels'. split_and!; try done.
  - by apply (compiled_app _ _ []).
  - revert El. simpl. rewrite !length_app. simpl. lia.
  - apply Hg. intros l name loc Hl. done.
  - rewrite <- Hres. f_equal. simpl. by rewrite <- !app_assoc.
Qed.

Lemma compile_filter_run opts filename stream prog :
  compile_filter fs opts filename (Some stream) = Ret (Some prog) →
  ∃ es, read_policy fs opts stream = Some es ∧
    (opts.(opt_allow_duplicate_syscalls) = false → NoDup (e_ind <$> es)) ∧
    (5 <= length prog <= BPF_MAXINSNS)%nat ∧
    ∀ d, bpf_run d prog =
      verdict_code <$> eval_policy d (logging_entries opts ++ es) (action_verdict opts.(action)).
Proof.
  intros H. apply compile_filter_inv in H as (es & c' & h & a & labels' & Hr & He & Hc & Hl & Hu & Hs).
  exists es. split; [done|]. split; [intros Hd; by apply (ext_new _ _ _ _ He)|].
  split.
  { rewrite (resolve_from_length _ _ _ _ _ Hs). split; [|done].
    simpl. rewrite length_app. simpl. lia. }
  intros d.
  assert (Z.of_nat (length (bpf_validate_arch ++ bpf_load_syscall_nr :: h
      ++ ret_instr (action_verdict opts.(action)) :: a)) < 2 ^ 32 - 1) as Hlen
    by (unfold BPF_MAXINSNS in Hl; lia).
  etrans; [exact (resolve_from_sim d c'.(c_labels) 0 _ labels' prog 0 initial_machine Hlen Hu Hs)|].
  apply (compiled_program_run _ _ _ _ _ Hc). by eapply resolve_unique_labels.
Qed.

(** C1: a program that [compile_filter] returns, run by the kernel's machine on any
    system call, answers what the policy in the file means: first the calls
    logging needs, then the first entry for the call, a disjunction of
    conjunctions of unsigned 64-bit comparisons, then the default action; any
    other architecture is killed. *)
Theorem compile_filter_correct opts filename stream prog :
  compile_filter fs opts filename (Some stream) = Ret (Some prog) →
  ∃ es, read_policy fs opts stream = Some es ∧
    ∀ d, bpf_run d prog =
      verdict_code <$> eval_policy d (logging_entries opts ++ es) (action_verdict opts.(action)).
Proof. intros H. apply compile_filter_run in H as (es & ? & _ & _ & ?). eauto. Qed.

(** C29: unless duplicates are allowed, a policy that compiles names no entry of the
    system call table twice, included files taken together; and the program
    never exceeds the kernel's limit of 4096 instructions. *)
Theorem compile_filter_bounds opts filename stream prog :
  compile_filter fs opts filename (Some stream) = Ret (Some prog) →
  (5 <= length prog <= BPF_MAXINSNS)%nat ∧
  ∃ es, read_policy fs opts stream = Some es ∧
    (opts.(opt_allow_duplicate_syscalls) = false → NoDup (e_ind <$> es)).
Proof. intros H. apply compile_filter_run in H as (es & ? & ? & ? & _). eauto. Qed.

(** ** Policies that only name real arguments always get an answer *)

Definition atom_in_range (a : atom) : Prop := 0 <= a.(at_argidx) < 6.

Definition rule_in_range (r : rule) : Prop :=
  match r with RFilter dnf _ => Forall (Forall atom_in_range) dnf | _ => True end.

Lemma eval_atom_total d a : wf_data d → atom_in_range a → is_Some (eval_atom d a).
Proof.
  intros Hd Ha. unfold eval_atom. rewrite arg_value_arg by done. destruct Hd as [Hl _].
  destruct (lookup_lt_is_Some_2 d.(sd_args) (Z.to_nat a.(at_argidx))) as [v Hv];
    [unfold atom_in_range in Ha; lia|].
  rewrite Hv. by eexists.
Qed.

Lemma eval_dnf_total d dnf :
  wf_data d → Forall (Forall atom_in_range) dnf → is_Some (eval_dnf d dnf).
Proof.
  intros Hd. induction 1 as [|g dnf Hg _ IH]; [by eexists|]. simpl.
  assert (is_Some (eval_conj d g)) as [b ->].
  { induction Hg as [|a g Ha _ IHg]; [by eexists|]. simpl.
    destruct (eval_atom_total d a Hd Ha) as [b ->]. simpl. by destruct b. }
  simpl. destruct b; [by eexists|done].
Qed.

Lemma eval_entries_total d es dflt :
  wf_data d → Forall (λ e, rule_in_range e.(e_rule)) es → is_Some (eval_entries d es dflt).
Proof.
  intros Hd. induction 1 as [|e es He _ IH]; [by eexists|]. simpl.
  destruct (_ =? _); [|done]. destruct (e_rule e) as [|v|dnf v]; [by eexists|by eexists|].
  simpl. destruct (eval_dnf_total d dnf Hd He) as [b ->]. by eexists.
Qed.

Lemma logging_entries_in_range opts :
  Forall (λ e, rule_in_range e.(e_rule)) (logging_entries opts).
Proof. unfold logging_entries. destruct (allow_syscalls_for_logging opts); by repeat constructor. Qed.

(** C28: a compiled policy whose comparisons only name the arguments 0 to 5 always
    decides: for every system call the kernel can present, the program returns
    the code of a verdict and never reads outside struct seccomp_data. *)
Theorem compile_filter_decides opts filename stream prog es d :
  compile_filter fs opts filename (Some stream) = Ret (Some prog) →
  read_policy fs opts stream = Some es → Forall (λ e, rule_in_range e.(e_rule)) es → wf_data d →
  ∃ v, bpf_run d prog = Some (verdict_code v) ∧
    (u32 d.(sd_arch) ≠ MINIJAIL_ARCH_NR → v = Kill).
Proof.
  intros H Hes Hr Hd. apply compile_filter_run in H as (es' & Hes' & _ & _ & Hrun). simplify_eq.
  rewrite Hrun. unfold eval_policy. destruct (_ =? MINIJAIL_ARCH_NR) eqn:E.
  - destruct (eval_entries_total d (logging_entries opts ++ es') (action_verdict opts.(action)))
      as [v ->]; [done|apply list.Forall_app; auto using logging_entries_in_range|].
    exists v. split; [done|]. intros Hne. by apply Z.eqb_eq in E.
  - by exists Kill.
Qed.

Lemma eval_entries_default d es dflt :
  Forall (λ e, u32 d.(sd_nr) ≠ u32 e.(e_nr)) es → eval_entries d es dflt = Some dflt.
Proof. induction 1 as [|e es Hne _ IH]; [done|]. simpl. by rewrite (proj2 (Z.eqb_neq _ _)). Qed.

(** C9: default deny: a system call whose number no line of the policy names (and
    that logging does not need) gets the default action, and a call made from
    another architecture is killed, whatever the policy says. *)
Theorem compile_filter_default_deny opts filename stream prog es d :
  compile_filter fs opts filename (Some stream) = Ret (Some prog) →
  read_policy fs opts stream = Some es →
  Forall (λ e, u32 d.(sd_nr) ≠ u32 e.(e_nr)) (logging_entries opts ++ es) →
  bpf_run d prog =
    Some (if u32 d.(sd_arch) =? MINIJAIL_ARCH_NR
          then verdict_code (action_verdict opts.(action)) else verdict_code Kill).
Proof.
  intros H Hes Hn. apply compile_filter_run in H as (es' & Hes' & _ & _ & Hrun). simplify_eq.
  rewrite Hrun. unfold eval_policy. destruct (_ =? MINIJAIL_ARCH_NR); [|done].
  by rewrite eval_entries_default.
Qed.

End File.

(** ** Examples *)

Definition example_opts : filter_options := {|
  action := ACTION_RET_KILL_PROCESS; allow_logging := false;
  allow_syscalls_for_logging := true; opt_allow_duplicate_syscalls := false |}.

(** A policy with an include, a continuation line and every kind of rule. *)
Definition example_fs (path : cstr) : option (list ascii) :=
  if streq path (str "./common.policy")
  then Some (str "# shared" ++ [NL] ++ str "exit: 1" ++ [NL]) else None.

Definition example_policy : list ascii :=
  str "read: 1" ++ [NL] ++
  str "@include ./common.policy" ++ [NL] ++
  str "open: arg1 == O_RDONLY || \" ++ [NL] ++
  str "  arg1 in O_RDWR|0x80000 && arg2 < 0x100000001; return EPERM" ++ [NL] ++
  str "close: return 9" ++ [NL].

Definition example_program : option (list sock_filter) :=
  Eval vm_compute in
  match compile_filter (B := example_config) example_fs example_opts (Some (str "p")) (Some example_policy)
  with Ret p => p | _ => None end.

Definition example_data (nr arg1 arg2 : Z) : seccomp_data :=
  {| sd_nr := nr; sd_arch := MINIJAIL_ARCH_NR; sd_instruction_pointer := 0;
     sd_args := [0; arg1; arg2; 0; 0; 0] |}.

Lemma example_compiles :
  compile_filter (B := example_config) example_fs example_opts (Some (str "p")) (Some example_policy)
  = Ret (Some (default [] example_program)).
Proof. vm_compute. reflexivity. Qed.

Lemma compile_filter_correct_witness :
  ∃ es, read_policy (B := example_config) example_fs example_opts example_policy = Some es ∧
    ∀ d, bpf_run d (default [] example_program) =
      verdict_code <$> eval_policy d (logging_entries (B := example_config) example_opts ++ es)
        KillProcess.
Proof.
  apply (compile_filter_correct (B := example_config) example_fs example_opts (Some (str "p")) example_policy).
  vm_compute. reflexivity.
Defined.

(** What the compiled example answers on a few calls. *)
Lemma example_verdicts :
  (λ d, bpf_run d (default [] example_program)) <$>
    [example_data 0 0 0; example_data 60 0 0; example_data 2 0 7; example_data 2 2 0x100000000;
     example_data 2 2 0x100000001; example_data 2 4 0; example_data 3 0 0; example_data 20 0 0;
     example_data 99 0 0]
  = (Some ∘ verdict_code) <$>
    [Allow; Allow; Allow; Allow; Errno 1; Errno 1; Errno 9; Allow; KillProcess].
Proof. vm_compute. reflexivity. Qed.

Definition example_entries : list entry :=
  Eval vm_compute in
  default [] (read_policy (B := example_config) example_fs example_opts example_policy).

Lemma compile_filter_bounds_witness :
  (5 <= length (default [] example_program) <= BPF_MAXINSNS)%nat ∧
  ∃ es, read_policy (B := example_config) example_fs example_opts example_policy = Some es ∧
    (example_opts.(opt_allow_duplicate_syscalls) = false → NoDup (e_ind <$> es)).
Proof.
  apply (compile_filter_bounds (B := example_config) example_fs example_opts (Some (str "p")) example_policy).
  vm_compute. reflexivity.
Defined.

Lemma compile_filter_decides_witness :
  ∃ v, bpf_run (example_data 2 4 0) (default [] example_program) = Some (verdict_code v) ∧
    (u32 MINIJAIL_ARCH_NR ≠ MINIJAIL_ARCH_NR → v = Kill).
Proof.
  apply (compile_filter_decides (B := example_config) example_fs example_opts (Some (str "p")) example_policy
           (default [] example_program) example_entries (example_data 2 4 0)).
  - vm_compute. reflexivity.
  - vm_compute. reflexivity.
  - repeat constructor; unfold atom_in_range; simpl; lia.
  - split; [reflexivity|]. repeat constructor; simpl; lia.
Defined.

Lemma compile_filter_default_deny_witness :
  bpf_run (example_data 99 0 0) (default [] example_program) = Some (verdict_code KillProcess).
Proof.
  apply (compile_filter_default_deny (B := example_config) example_fs example_opts (Some (str "p"))
           example_policy (default [] example_program) example_entries (example_data 99 0 0)).
  - vm_compute. reflexivity.
  - vm_compute. reflexivity.
  - repeat constructor; vm_compute; discriminate.
Defined.
