(* ===== verification/FilterComplete.v ===== *)
(** * The policy compiler accepts every policy that fits

    The converse of the correctness of [compile_filter]: a policy that the specification
    can read, with one line per system call, few enough labels and a program within the
    kernel's limit, is compiled.  The labels of the emitted code are distinct and every
    jump finds its label behind it, so the resolver succeeds. *)

From S2P Require Import Prelude CLib Util Bpf BpfMachine BpfCompare SyscallFilter Policy UtilProps FilterCorrect.
From stdpp Require Import pretty.
Local Open Scope Z_scope.

(** ** Printed numbers *)

Lemma pretty_go_digits k x s :
  (x < 10 ^ N.of_nat k)%N →
  ∃ ds, str (pretty_N_go x s) = ds ++ str s ∧ Forall is_decimal ds ∧ (length ds <= k)%nat ∧
    (0 < x → ds ≠ [])%N.
Proof.
  revert x s; induction k as [|k IH]; intros x s Hx.
  { exists []. simpl in Hx. replace x with 0%N by lia. rewrite pretty_N_go_0.
    split_and!; [done|done|simpl; lia|lia]. }
  destruct (decide (x = 0)%N) as [->|Hne].
  { exists []. rewrite pretty_N_go_0. split_and!; [done|done|simpl; lia|lia]. }
  rewrite pretty_N_go_step by lia.
  destruct (IH (x `div` 10)%N (String (pretty_N_char (x `mod` 10)) s)) as (ds & -> & Hd & Hl & _).
  { apply N.Div0.div_lt_upper_bound. replace (N.of_nat (S k)) with (N.succ (N.of_nat k)) in Hx by lia.
    by rewrite N.pow_succ_r' in Hx. }
  exists (ds ++ [pretty_N_char (x `mod` 10)]). split_and!.
  - by rewrite <- app_assoc.
  - apply list.Forall_app. split; [done|]. apply list.Forall_singleton. unfold pretty_N_char. by repeat case_match.
  - rewrite length_app. simpl. lia.
  - by destruct ds.
Qed.

Lemma fmt_d_digits (k : nat) z :
  0 <= z < 10 ^ Z.of_nat k → (0 < k)%nat →
  Forall is_decimal (fmt_d z) ∧ fmt_d z ≠ [] ∧ (length (fmt_d z) <= k)%nat.
Proof.
  intros Hz Hk. unfold fmt_d. change (pretty z) with (pretty_Z z).
  destruct z as [|p|p]; [|change (pretty_Z (Z.pos p)) with (pretty_N_go (N.pos p) "")|lia].
  - split_and!; [by apply list.Forall_singleton|done|simpl; lia].
  - destruct (pretty_go_digits k (N.pos p) "") as (ds & -> & Hd & Hl & Hne).
    { lia. }
    change (str "") with (@nil ascii). rewrite app_nil_r. split_and!; [done|by apply Hne|done].
Qed.

#[export] Instance str_inj : Inj (=) (=) str.
Proof.
  intros s t H. rewrite <- (String.string_of_list_ascii_of_string s).
  rewrite <- (String.string_of_list_ascii_of_string t). by f_equal.
Qed.

#[export] Instance fmt_d_inj : Inj (=) (=) fmt_d.
Proof. intros x y H%str_inj. by apply (inj pretty) in H. Qed.

(** ** Labels that are declared and used *)

Definition declared (i : sock_filter) : option nat :=
  match kind_of i with KLabel => Some (Z.to_nat i.(k)) | _ => None end.

Definition decls (code : list sock_filter) : list nat := omap declared code.

(** Every jump of [code] goes to a label declared behind it, in [code] or in [after]. *)
Fixpoint jumps_ok (code : list sock_filter) (after : list nat) : Prop :=
  match code with
  | [] => True
  | i :: rest =>
      (kind_of i = KJump → Z.to_nat i.(k) ∈ decls rest ++ after) ∧ jumps_ok rest after
  end.

Lemma decls_app c1 c2 : decls (c1 ++ c2) = decls c1 ++ decls c2.
Proof. apply omap_app. Qed.

Lemma jumps_ok_app c1 c2 after :
  jumps_ok c1 (decls c2 ++ after) → jumps_ok c2 after → jumps_ok (c1 ++ c2) after.
Proof.
  induction c1 as [|i c1 IH]; intros H1 H2; [done|]. destruct H1 as [Hi H1]. split; [|by apply IH].
  by rewrite decls_app, <- app_assoc.
Qed.

Lemma jumps_ok_mono code after after' : after ⊆ after' → jumps_ok code after → jumps_ok code after'.
Proof.
  intros Ha. induction code as [|i code IH]; [done|]. intros [Hi H]. split; [|by apply IH].
  intros Hk. specialize (Hi Hk). set_solver.
Qed.

Definition plain_code (code : list sock_filter) : Prop := Forall (λ i, kind_of i = KPlain) code.

Lemma plain_decls code : plain_code code → decls code = [].
Proof. induction 1 as [|i code Hi _ IH]; [done|]. unfold decls. simpl. unfold declared at 1. by rewrite Hi. Qed.

Lemma plain_jumps_ok code after : plain_code code → jumps_ok code after.
Proof. induction 1 as [|i code Hi _ IH]; [done|]. split; [by rewrite Hi|done]. Qed.

Lemma decls_lbl id : decls [set_bpf_lbl id] = [Z.to_nat (u32 id)].
Proof. done. Qed.

Lemma decls_jump_lbl id : decls [set_bpf_jump_lbl id] = [].
Proof. done. Qed.

Lemma arg_comp_plain op argidx c id code :
  bpf_arg_comp op argidx c id = Some code →
  ∃ pre, code = pre ++ [set_bpf_jump_lbl id] ∧ plain_code pre.
Proof.
  unfold bpf_arg_comp. destruct (comp_function_of op) as [[comp flip]|] eqn:E; [|done].
  intros Hb. apply (inj Some) in Hb as <-. eexists. rewrite app_assoc. split; [done|].
  apply list.Forall_app. split; [by repeat constructor|].
  unfold comp_function_of in E.
  repeat match type of E with context [if ?b then _ else _] => destruct b end; simplify_eq;
    unfold bpf_comp_jgt, bpf_comp_jge, bpf_comp_jgt64, bpf_comp_jge64;
    repeat match goal with |- context [hi_word ?c =? 0] => destruct (hi_word c =? 0) end; by repeat constructor.
Qed.

Lemma arg_comp_labels op argidx c id code :
  bpf_arg_comp op argidx c id = Some code →
  decls code = [] ∧ jumps_ok code [Z.to_nat (u32 id)].
Proof.
  intros (pre & -> & Hp)%arg_comp_plain. split.
  - by rewrite decls_app, plain_decls.
  - apply jumps_ok_app; [by apply plain_jumps_ok|]. split; [|done]. intros _. apply list_elem_of_singleton. done.
Qed.

(** ** The resolver succeeds *)

Lemma resolve_from_total labels off prog :
  Z.of_nat (off + length prog) < 2 ^ 32 - 1 → unresolved labels →
  NoDup (decls prog) → Forall (λ l, l < length labels)%nat (decls prog) → jumps_ok prog [] →
  ∃ labels' prog', resolve_from labels off prog = Ret (Some (labels', prog')) ∧
    length labels' = length labels ∧
    ∀ l name loc, labels' !! l = Some (name, loc) → loc ≠ UNRESOLVED ↔ l ∈ decls prog.
Proof.
  revert off; induction prog as [|i prog IH]; intros off Hlen Hun Hnd Hlt Hj.
  { exists labels, []. split_and!; [done|done|]. intros l name loc Hl. split; [|set_solver].
    intros Hloc. destruct Hloc. by eapply Hun. }
  simpl in Hlen. destruct Hj as [Hi Hj]. unfold decls in Hnd, Hlt. simpl in Hnd, Hlt.
  unfold declared at 1 in Hnd. unfold declared at 1 in Hlt. fold (decls prog) in Hnd, Hlt.
  destruct (IH (S off)) as (L1 & prog1 & E1 & Hl1 & Hs1); [lia|done| | |done|].
  1,2: destruct (kind_of i); [done| |done]. { by inversion Hnd. } { by inversion Hlt. }
  simpl. rewrite E1. simpl. unfold decls; simpl. unfold declared at 1. fold (decls prog).
  unfold resolve_one. destruct (kind_of i) eqn:Ek.
  - specialize (Hi eq_refl). rewrite app_nil_r in Hi.
    assert (Z.to_nat (k i) < length L1)%nat as [[name loc] Hx]%lookup_lt_is_Some
      by (rewrite Hl1; by apply (proj1 (list.Forall_forall _ _) Hlt)).
    rewrite Hx, (proj2 (Z.eqb_neq _ _)) by (by apply (Hs1 _ _ _ Hx)). simpl. eauto 10.
  - inversion Hnd as [|? ? Hno Hnd']; inversion Hlt as [|? ? Hb Hlt']; subst.
    assert (is_Some (L1 !! Z.to_nat (k i))) as [[name loc] Hx] by (apply lookup_lt_is_Some; lia).
    rewrite Hx. destruct (decide (loc = UNRESOLVED)) as [->|Hne]; [|by apply (Hs1 _ _ _ Hx) in Hne].
    simpl. eexists _, _. split_and!; [done|by rewrite length_insert|].
    intros l n' loc' Hl. destruct (decide (l = Z.to_nat (k i))) as [->|Hne].
    + rewrite list_lookup_insert_eq in Hl by (by eapply lookup_lt_Some). injection Hl as <- <-.
      split; [set_solver|]. intros _. rewrite uwrap_small by lia. unfold UNRESOLVED. lia.
    + rewrite list_lookup_insert_ne in Hl by done. rewrite (Hs1 _ _ _ Hl). set_solver.
  - simpl. eauto 10.
Qed.

(** ** Room in the label table *)

(** What asking for a label adds to the table. *)
Definition cost (labels : bpf_labels) (s : cstr) : nat :=
  match label_of labels s with Some _ => 0 | None => 1 end.

Lemma cost_prefix labels labels' s : prefix labels labels' → (cost labels' s <= cost labels s)%nat.
Proof.
  intros Hp. unfold cost. destruct (label_of labels s) as [id|] eqn:E; [|by destruct (label_of labels' s); lia].
  by rewrite (label_of_prefix _ _ _ _ Hp E).
Qed.

Lemma cost_known labels s id : label_of labels s = Some id → cost labels s = 0%nat.
Proof. unfold cost. by intros ->. Qed.

Lemma cost_le labels s : (cost labels s <= 1)%nat.
Proof. unfold cost. destruct (label_of labels s); lia. Qed.

Lemma bpf_label_id_total labels s :
  (length s <= MAX_BPF_LABEL_LEN)%nat → (length labels + cost labels s <= BPF_LABELS_MAX)%nat →
  ∃ lid labels', bpf_label_id labels s = (lid, labels') ∧ 0 <= lid ∧ grows labels labels' ∧
    label_of labels' s = Some (u32 lid) ∧ length labels' = (length labels + cost labels s)%nat.
Proof.
  intros Hs Hr. pose proof (bpf_label_id_grows labels s) as Hg. revert Hg Hr.
  unfold bpf_label_id, cost, label_of. destruct (find_label_id 0 labels s) as [n|] eqn:E; simpl.
  - intros Hg _. eexists _, _. rewrite E. split_and!; [done|lia|done|done|lia].
  - intros Hg Hr. rewrite (proj2 (Nat.eqb_neq _ _)) in * by lia. eexists _, _.
    split_and!; [done|lia|done| |by rewrite length_app].
    rewrite take_ge by done. by rewrite find_label_id_new.
Qed.

Lemma get_label_id_total labels s :
  (length s <= MAX_BPF_LABEL_LEN)%nat → (length labels + cost labels s <= BPF_LABELS_MAX)%nat →
  ∃ id labels', get_label_id labels s = Ret (id, labels') ∧ grows labels labels' ∧
    label_of labels' s = Some id ∧ length labels' = (length labels + cost labels s)%nat.
Proof.
  intros Hs Hr. destruct (bpf_label_id_total labels s Hs Hr) as (lid & L & E & H0 & Hg & Hid & Hl).
  unfold get_label_id. rewrite E, (proj2 (Z.ltb_ge _ _)) by lia. eauto 10.
Qed.

Lemma group_end_str_short nr idx : (length (group_end_str nr idx) <= MAX_BPF_LABEL_LEN)%nat.
Proof. unfold group_end_str, snprintf, MAX_BPF_LABEL_LEN. rewrite length_take. lia. Qed.

Lemma success_str_short nr : (length (success_str nr) <= MAX_BPF_LABEL_LEN)%nat.
Proof. unfold success_str, snprintf, MAX_BPF_LABEL_LEN. rewrite length_take. lia. Qed.

Lemma group_end_lbl_total labels nr idx :
  (length labels + cost labels (group_end_str nr idx) <= BPF_LABELS_MAX)%nat →
  ∃ id labels', group_end_lbl labels nr idx = Ret (id, labels') ∧ grows labels labels' ∧
    label_of labels' (group_end_str nr idx) = Some id ∧
    length labels' = (length labels + cost labels (group_end_str nr idx))%nat.
Proof. apply get_label_id_total, group_end_str_short. Qed.

Lemma success_lbl_total labels nr :
  (length labels + cost labels (success_str nr) <= BPF_LABELS_MAX)%nat →
  ∃ id labels', success_lbl labels nr = Ret (id, labels') ∧ grows labels labels' ∧
    label_of labels' (success_str nr) = Some id ∧
    length labels' = (length labels + cost labels (success_str nr))%nat.
Proof. apply get_label_id_total, success_str_short. Qed.

Lemma bind_is_Ret {A B} (f : A → outcome B) m a : m = Ret a → mbind f m = f a.
Proof. by intros ->. Qed.

(** [label_at labels l s]: the table knows the label [s] by the number [l]. *)
Definition label_at (labels : bpf_labels) (l : nat) (s : cstr) : Prop :=
  ∃ id, label_of labels s = Some id ∧ l = Z.to_nat (u32 id).

Lemma find_label_id_spec n labels s id :
  find_label_id n labels s = Some id →
  (n <= id < n + length labels)%nat ∧ ∃ loc, labels !! (id - n)%nat = Some (s, loc).
Proof.
  revert n; induction labels as [|[name loc] labels IH]; intros n; simpl; [done|].
  destruct (streq s name) eqn:E.
  - intros [= ->]. apply bool_decide_eq_true in E as ->. split; [lia|]. rewrite Nat.sub_diag. eauto.
  - intros H. apply IH in H as [Hr [loc' Hl]]. split; [lia|]. exists loc'.
    by replace (id - n)%nat with (S (id - S n))%nat by lia.
Qed.

Lemma label_at_lookup labels l s :
  Z.of_nat (length labels) < 2 ^ 32 → label_at labels l s → ∃ loc, labels !! l = Some (s, loc).
Proof.
  intros Hl (id & (n & Hn & ->)%fmap_Some & ->). apply find_label_id_spec in Hn as [Hr [loc H]].
  rewrite Nat.sub_0_r in H. exists loc. rewrite !uwrap_small by (rewrite ?uwrap_small; lia). by rewrite Nat2Z.id.
Qed.

Lemma label_at_NoDup labels ls names :
  Z.of_nat (length labels) < 2 ^ 32 → Forall2 (label_at labels) ls names → NoDup names →
  NoDup ls ∧ Forall (λ l, l < length labels)%nat ls.
Proof.
  intros Hlen. induction 1 as [|l s ls names Hl Hls IH]; intros Hnd; [split; constructor|].
  inversion Hnd as [|? ? Hno Hnd']; subst. destruct (IH Hnd') as [H1 H2].
  destruct (label_at_lookup _ _ _ Hlen Hl) as [loc Hx]. split; constructor; try done.
  - intros Hin. destruct Hno. apply list_elem_of_lookup in Hin as [i Hi].
    destruct (Forall2_lookup_l _ _ _ _ _ Hls Hi) as (s' & Hs' & Hat).
    destruct (label_at_lookup _ _ _ Hlen Hat) as [loc' Hx']. simplify_eq. by eapply list_elem_of_lookup_2.
  - by eapply lookup_lt_Some.
Qed.

(** ** What a rule takes *)

Fixpoint group_end_names (nr : Z) (dnf : list (list atom)) (idx : Z) : list cstr :=
  match dnf with
  | [] => []
  | _ :: rest => group_end_str nr idx :: group_end_names nr rest (idx + 1)
  end.

(** The labels the code of a rule declares, its entry label first. *)
Definition rule_labels (name : cstr) (nr : Z) (r : rule) : list cstr :=
  match r with
  | RAllow => []
  | RReturn _ => [name]
  | RFilter dnf _ => name :: group_end_names nr dnf 0 ++ [success_str nr]
  end.

Definition atom_len (a : atom) : nat := bpf_arg_comp_len a.(at_op) a.(at_const).
Definition conj_len (g : list atom) : nat := sum_list_with atom_len g.
Definition dnf_len (dnf : list (list atom)) : nat := sum_list_with (λ g, conj_len g + 2)%nat dnf.

(** The instructions of a rule behind the jump table. *)
Definition rule_len (r : rule) : nat :=
  match r with
  | RAllow => 0
  | RReturn _ => 2
  | RFilter dnf _ => 4 + dnf_len dnf
  end.

(** ** Lines compile *)

Section Line.
Context {B : BuildConfig}.

Lemma str_to_op_known op : MIN_OPERATOR <= str_to_op op → is_Some (comp_function_of (str_to_op op)).
Proof.
  unfold str_to_op. repeat (match goal with |- context [streq ?a ?b] => destruct (streq a b) end; [by eexists|]).
  unfold MIN_OPERATOR. lia.
Qed.

Lemma parse_atom_comp text a id :
  parse_atom text = Some a → is_Some (bpf_arg_comp a.(at_op) a.(at_argidx) a.(at_const) id).
Proof.
  unfold parse_atom. intros H. repeat (case_match; try done). simplify_eq/=.
  unfold bpf_arg_comp. edestruct str_to_op_known as [[comp flip] Hc]; [by apply Z.ltb_ge|].
  rewrite Hc. by eexists.
Qed.

Lemma compile_atom_total head text labels nr idx a :
  parse_atom text = Some a →
  (length labels + cost labels (group_end_str nr idx) <= BPF_LABELS_MAX)%nat →
  ∃ code labels', compile_atom head text labels nr idx = Ret (Some (head ++ [code], labels')) ∧
    grows labels labels' ∧ length labels' = (length labels + cost labels (group_end_str nr idx))%nat ∧
    length code = atom_len a ∧ decls code = [] ∧
    ∃ id, label_of labels' (group_end_str nr idx) = Some id ∧ jumps_ok code [Z.to_nat (u32 id)].
Proof.
  intros Ha Hr. unfold compile_atom. rewrite Ha.
  destruct (group_end_lbl_total labels nr idx Hr) as (id & L & E & Hg & Hid & Hl).
  rewrite (bind_is_Ret _ _ _ E). destruct (parse_atom_comp text a id Ha) as [code Hc]. rewrite Hc.
  destruct (arg_comp_labels _ _ _ _ _ Hc) as [Hd Hj]. exists code, L. split_and!; try done.
  - eapply arg_comp_length; [|done]. by eapply parse_atom_const.
  - eauto.
Qed.

Lemma compile_atoms_total atoms head labels nr idx conj :
  mapM parse_atom atoms = Some conj →
  (length labels + cost labels (group_end_str nr idx) <= BPF_LABELS_MAX)%nat →
  ∃ head' labels' code, compile_atoms head atoms labels nr idx = Ret (Some (head', labels')) ∧
    mjoin head' = mjoin head ++ code ∧ grows labels labels' ∧
    (length labels' + cost labels' (group_end_str nr idx) =
       length labels + cost labels (group_end_str nr idx))%nat ∧
    length code = conj_len conj ∧ decls code = [] ∧
    ∀ labelsE id, prefix labels' labelsE → label_of labelsE (group_end_str nr idx) = Some id →
      jumps_ok code [Z.to_nat (u32 id)].
Proof.
  revert head labels conj; induction atoms as [|text atoms IH]; intros head labels conj Hm Hr.
  { injection Hm as <-. exists head, labels, []. rewrite app_nil_r. by split_and!. }
  simpl in Hm. destruct (parse_atom text) as [a|] eqn:Ea; [|done]. simpl in Hm.
  destruct (mapM parse_atom atoms) as [conj'|] eqn:Em; [|done]. injection Hm as <-.
  destruct (compile_atom_total head text labels nr idx a Ea Hr)
    as (code1 & L1 & E1 & Hg1 & Hl1 & Hn1 & Hd1 & id1 & Hid1 & Hj1).
  pose proof (cost_known _ _ _ Hid1) as Hc1.
  destruct (IH (head ++ [code1]) L1 conj' eq_refl) as (head2 & L2 & code2 & E2 & Hh2 & Hg2 & Hl2 & Hn2 & Hd2 & Hj2);
    [lia|].
  exists head2, L2, (code1 ++ code2). cbn [compile_atoms]. rewrite E1. split_and!.
  - done.
  - rewrite Hh2, join_app. simpl. by rewrite app_nil_r, app_assoc.
  - by etrans.
  - lia.
  - by rewrite length_app, Hn1, Hn2.
  - by rewrite decls_app, Hd1, Hd2.
  - intros LE id Hp Hid. assert (id1 = id) as ->.
    { eapply label_of_prefix in Hid1; [|etrans; [apply Hg2|exact Hp]]. congruence. }
    apply jumps_ok_app; [by rewrite Hd2|by eapply Hj2].
Qed.

Lemma compile_groups_total groups head labels nr idx dnf :
  mapM (λ group, mapM parse_atom (tokenize_all (Some group) (str "&&"))) groups = Some dnf →
  (length labels + length dnf + cost labels (success_str nr) <= BPF_LABELS_MAX)%nat →
  ∃ head' labels' code, compile_groups head groups labels nr idx = Ret (Some (head', labels')) ∧
    mjoin head' = mjoin head ++ code ∧ grows labels labels' ∧
    (length labels' + cost labels' (success_str nr) <=
       length labels + length dnf + cost labels (success_str nr))%nat ∧
    length code = dnf_len dnf ∧
    ∀ labelsE id, prefix labels' labelsE → label_of labelsE (success_str nr) = Some id →
      jumps_ok code [Z.to_nat (u32 id)] ∧
      Forall2 (label_at labelsE) (decls code) (group_end_names nr dnf idx).
Proof.
  revert head labels idx dnf; induction groups as [|g groups IH]; intros head labels idx dnf Hm Hr.
  { injection Hm as <-. exists head, labels, []. rewrite app_nil_r. split_and!; try done. simpl; lia. }
  apply mapM_Some in Hm. inversion Hm as [|? conj ? dnf' Ha Hms]; subst. apply mapM_Some in Hms.
  cbn [compile_groups group_end_names]. simpl length in Hr. pose proof (cost_le labels (group_end_str nr idx)) as Hce.
  destruct (compile_atoms_total _ head labels nr idx conj Ha)
    as (h1 & L1 & c1 & E1 & Hh1 & Hg1 & Hl1 & Hn1 & Hd1 & Hj1); [lia|].
  pose proof (cost_prefix _ _ (success_str nr) (proj1 Hg1)) as Hc1.
  destruct (success_lbl_total L1 nr) as (sid & L2 & E2 & Hg2 & Hsid & Hl2); [lia|].
  pose proof (cost_prefix _ _ (group_end_str nr idx) (proj1 Hg2)) as Hc2.
  destruct (group_end_lbl_total L2 nr idx) as (eid & L3 & E3 & Hg3 & Heid & Hl3); [lia|].
  pose proof (label_of_prefix _ _ _ _ (proj1 Hg3) Hsid) as Hsid3. pose proof (cost_known _ _ _ Hsid3) as Hc3.
  destruct (IH (append_filter_block h1 [set_bpf_jump_lbl sid; set_bpf_lbl eid]) L3 (idx + 1) dnf' Hms)
    as (h4 & L4 & c4 & E4 & Hh4 & Hg4 & Hl4 & Hn4 & Hj4); [lia|].
  exists h4, L4, ((c1 ++ [set_bpf_jump_lbl sid; set_bpf_lbl eid]) ++ c4).
  rewrite (bind_is_Ret _ _ _ E1), (bind_is_Ret _ _ _ E2), (bind_is_Ret _ _ _ E3). split_and!.
  - done.
  - rewrite Hh4. unfold append_filter_block. rewrite join_app, Hh1. cbn. by rewrite <- !app_assoc.
  - etrans; [exact Hg1|]. etrans; [exact Hg2|]. by etrans.
  - simpl length. lia.
  - rewrite !length_app, Hn1, Hn4. cbn. unfold dnf_len. simpl. lia.
  - intros LE id Hp Hid.
    assert (prefix L3 LE) as HpE by (etrans; [apply Hg4|done]).
    assert (sid = id) as ->.
    { pose proof (label_of_prefix _ _ _ _ HpE Hsid3). congruence. }
    pose proof (label_of_prefix _ _ _ _ HpE Heid) as HeE.
    destruct (Hj4 LE id Hp Hid) as [Hj Hf]. split.
    + rewrite <- app_assoc. apply jumps_ok_app; [|split; [|split; [done|done]]].
      * eapply jumps_ok_mono; [|apply (Hj1 LE eid); [|done]].
        -- cbn. set_solver.
        -- etrans; [|exact HpE]. etrans; [apply Hg2|apply Hg3].
      * intros _. cbn. set_solver.
    + rewrite !decls_app, Hd1. cbn. constructor; [by exists eid|done].
Qed.

(** The code of a line with arguments, behind its entry label. *)
Lemma compile_policy_line_total nr text id labels act r :
  streq text (str "1") = false → read_rule text act = Some r →
  (length labels + length (rule_labels [] nr r) <= S BPF_LABELS_MAX)%nat →
  ∃ blocks labels' code, compile_policy_line nr text id labels act = Ret (Some (blocks, labels')) ∧
    mjoin blocks = set_bpf_lbl id :: code ∧ grows labels labels' ∧
    (S (length labels') <= length labels + length (rule_labels [] nr r))%nat ∧
    S (length code) = rule_len r ∧ jumps_ok code [] ∧
    ∀ labelsE name, prefix labels' labelsE → label_at labelsE (Z.to_nat (u32 id)) name →
      Forall2 (label_at labelsE) (decls (set_bpf_lbl id :: code)) (rule_labels name nr r).
Proof.
  intros H1. unfold read_rule, compile_policy_line. rewrite H1. case_bool_decide as Ht; [done|].
  destruct (starts_with (str "return") text).
  - rewrite compile_errno_spec. destruct (read_errno text act) as [v|]; [|done]. intros [= <-] Hr. cbn in Hr.
    eexists _, labels, [ret_instr v]. split_and!; try done; [cbn; lia|].
    intros LE name _ Hat. by constructor.
  - set (p := match strtok _ _ with None => _ | _ => _ end). destruct p as [ft et]. cbn beta iota.
    unfold read_dnf. destruct (mapM _ _) as [dnf|] eqn:Ed; [|done]. cbn.
    destruct (match et with Some e => read_errno e act | None => _ end) as [v|] eqn:Ev; [|done].
    intros [= <-] Hr. cbn in Hr. rewrite length_app in Hr. cbn in Hr.
    pose proof (cost_le labels (success_str nr)) as Hc.
    assert (∀ i, length (group_end_names nr dnf i) = length dnf) as Hgl
      by (clear; induction dnf; intros i; [done|]; cbn; by f_equal).
    rewrite Hgl in Hr.
    destruct (compile_groups_total _ [[set_bpf_lbl id]] labels nr 0 dnf Ed)
      as (h1 & L1 & c1 & E1 & Hh1 & Hg1 & Hl1 & Hn1 & Hj1); [lia|].
    unfold append_filter_block at 1, new_filter_block. cbn [app].
    rewrite (bind_is_Ret _ _ _ E1).
    assert (match et with Some e => compile_errno h1 e act | None => Some (append_default h1 act) end
            = Some (h1 ++ [[ret_instr v]])) as ->.
    { destruct et as [e|]; [by rewrite compile_errno_spec, Ev|]. injection Ev as <-. by rewrite append_default_spec. }
    destruct (success_lbl_total L1 nr) as (sid & L2 & E2 & Hg2 & Hsid & Hl2); [lia|].
    rewrite (bind_is_Ret _ _ _ E2).
    destruct (Hj1 L2 sid (proj1 Hg2) Hsid) as [Hj _].
    eexists _, L2, (c1 ++ [ret_instr v; set_bpf_lbl sid; set_bpf_ret_allow]). split_and!.
    + done.
    + unfold append_filter_block. rewrite !join_app, Hh1. cbn. by rewrite <- !app_assoc.
    + by etrans.
    + cbn. rewrite length_app, Hgl. cbn. lia.
    + rewrite length_app, Hn1. cbn. lia.
    + apply jumps_ok_app; [|by split_and!]. by cbn.
    + intros LE name Hp Hat. pose proof (label_of_prefix _ _ _ _ Hp Hsid) as HsE.
      change (set_bpf_lbl id :: c1 ++ ?x) with ([set_bpf_lbl id] ++ c1 ++ x). rewrite !decls_app. cbn [rule_labels].
      constructor; [done|]. apply Forall2_app.
      * apply (Hj1 LE sid); [|done]. etrans; [apply Hg2|done].
      * constructor; [by exists sid|constructor].
Qed.

End Line.

(** ** The labels of a policy are distinct *)

Lemma decimal_no_underscore ds : Forall is_decimal ds → "_"%char ∉ ds.
Proof. intros Hd Hin. by apply (proj1 (list.Forall_forall _ _) Hd) in Hin. Qed.

Lemma number_prefix d1 d2 r1 r2 :
  Forall is_decimal d1 → Forall is_decimal d2 →
  d1 ++ "_"%char :: r1 = d2 ++ "_"%char :: r2 → d1 = d2 ∧ r1 = r2.
Proof.
  intros H1%decimal_no_underscore H2%decimal_no_underscore E.
  apply (f_equal (strchr_split "_"%char)) in E. rewrite !strchr_split_app in E by done. by simplify_eq.
Qed.

Definition small_nr (nr : Z) : Prop := 0 <= nr < 2 ^ 31.

Lemma small_nr_digits nr :
  small_nr nr → Forall is_decimal (fmt_d nr) ∧ fmt_d nr ≠ [] ∧ (length (fmt_d nr) <= 10)%nat.
Proof. intros H. apply fmt_d_digits; [unfold small_nr in H; lia|lia]. Qed.

Lemma small_idx_digits idx :
  0 <= idx < 1000 → Forall is_decimal (fmt_d idx) ∧ fmt_d idx ≠ [] ∧ (length (fmt_d idx) <= 3)%nat.
Proof. intros H. apply fmt_d_digits; [exact H|lia]. Qed.

Lemma group_end_str_eq nr idx :
  small_nr nr → 0 <= idx < 1000 → group_end_str nr idx = fmt_d nr ++ "_"%char :: fmt_d idx ++ str "_end".
Proof.
  intros (_ & _ & Hl)%small_nr_digits Hi. destruct (small_idx_digits idx Hi) as (_ & _ & Hl').
  unfold group_end_str, snprintf. rewrite take_ge; [done|]. rewrite !length_app.
  change (length (str "_")) with 1%nat. change (length (str "_end")) with 4%nat. unfold MAX_BPF_LABEL_LEN. lia.
Qed.

Lemma success_str_eq nr : small_nr nr → success_str nr = fmt_d nr ++ "_"%char :: str "success".
Proof.
  intros (_ & _ & Hl)%small_nr_digits. unfold success_str, snprintf. rewrite take_ge; [done|].
  rewrite length_app. change (length (str "_success")) with 8%nat. unfold MAX_BPF_LABEL_LEN. lia.
Qed.

(** The labels that carry the number [nr]. *)
Definition numbered (nr : Z) (s : cstr) : Prop := ∃ r, s = fmt_d nr ++ "_"%char :: r.

Lemma numbered_inj nr nr' s : small_nr nr → small_nr nr' → numbered nr s → numbered nr' s → nr = nr'.
Proof.
  intros (H & _)%small_nr_digits (H' & _)%small_nr_digits [r ->] [r' E].
  apply number_prefix in E as [E _]; [|done..]. by apply (inj fmt_d) in E.
Qed.

Definition head_decimal (s : cstr) : bool := match s with c :: _ => is_decimal c | [] => false end.

Lemma numbered_head nr s : small_nr nr → numbered nr s → head_decimal s = true.
Proof.
  intros (H & Hne & _)%small_nr_digits [r ->]. destruct (fmt_d nr) as [|c ds]; [done|].
  inversion H; subst. by apply Is_true_true.
Qed.

Lemma group_end_names_idx nr dnf idx s :
  s ∈ group_end_names nr dnf idx → ∃ i, idx <= i < idx + Z.of_nat (length dnf) ∧ s = group_end_str nr i.
Proof.
  revert idx; induction dnf as [|g dnf IH]; intros idx; cbn [group_end_names]; [set_solver|].
  rewrite elem_of_cons. intros [->|Hs]; [exists idx; simpl length; split; [lia|done]|].
  apply IH in Hs as (i & Hi & ->). exists i. simpl length. split; [lia|done].
Qed.

Lemma group_end_names_NoDup nr dnf idx :
  small_nr nr → 0 <= idx → idx + Z.of_nat (length dnf) < 1000 → NoDup (group_end_names nr dnf idx).
Proof.
  intros Hn. revert idx; induction dnf as [|g dnf IH]; intros idx H0 Hlt; cbn [group_end_names]; [constructor|].
  simpl length in Hlt. constructor; [|apply IH; lia].
  intros (i & Hi & E)%group_end_names_idx. rewrite !group_end_str_eq in E by (done || lia).
  apply small_nr_digits in Hn as (Hd & _). apply number_prefix in E as [_ E]; [|done..].
  destruct (small_idx_digits idx) as [Hx _]; [lia|]. destruct (small_idx_digits i) as [Hy _]; [lia|].
  apply number_prefix in E as [E%(inj fmt_d) _]; [lia|done..].
Qed.

(** The labels of one rule: its entry label and labels with its number. *)
Lemma rule_labels_split name nr r :
  small_nr nr → (length (rule_labels name nr r) <= BPF_LABELS_MAX)%nat →
  ∃ ls, rule_labels name nr r = (match r with RAllow => [] | _ => [name] end) ++ ls ∧
    NoDup ls ∧ Forall (numbered nr) ls.
Proof.
  intros Hn Hl. destruct r as [|v|dnf v]; [exists []; by repeat constructor..|].
  cbn [rule_labels] in *. eexists. split; [done|].
  assert (Z.of_nat (length dnf) < 1000) as Hd.
  { assert (∀ i, length (group_end_names nr dnf i) = length dnf) as Hgl
      by (clear; induction dnf; intros i; [done|]; cbn; by f_equal).
    cbn in Hl. rewrite length_app, Hgl in Hl. unfold BPF_LABELS_MAX in Hl. lia. }
  split.
  - apply list.NoDup_app. split_and!; [by apply group_end_names_NoDup| |apply NoDup_singleton].
    intros s (i & Hi & ->)%group_end_names_idx [E|?%not_elem_of_nil]%elem_of_cons; [|done].
    rewrite group_end_str_eq, success_str_eq in E by (done || lia).
    apply small_nr_digits in Hn as (Hdec & _). apply number_prefix in E as [_ E]; [|done..].
    destruct (small_idx_digits i) as (Hx & Hne & _); [lia|].
    destruct (fmt_d i) as [|c ds]; [done|]. injection E as -> _. by inversion Hx.
  - apply list.Forall_app. split.
    + apply list.Forall_forall. intros s (i & Hi & ->)%group_end_names_idx.
      rewrite group_end_str_eq by (done || lia). by eexists.
    + apply list.Forall_singleton. rewrite success_str_eq by done. by eexists.
Qed.

(** ** Entries of a policy *)

Section Policies.
Context {B : BuildConfig}.

Definition entry_name (e : entry) : cstr := default [] (fst <$> syscall_table !! Z.to_nat e.(e_ind)).
Definition entry_labels (e : entry) : list cstr := rule_labels (entry_name e) e.(e_nr) e.(e_rule).
Definition policy_labels (es : list entry) : list cstr := mjoin (entry_labels <$> es).
Definition args_len (es : list entry) : nat := sum_list_with (λ e, rule_len e.(e_rule)) es.

Lemma policy_labels_cons e es : policy_labels (e :: es) = entry_labels e ++ policy_labels es.
Proof. done. Qed.

Lemma policy_labels_one e : policy_labels [e] = entry_labels e.
Proof. unfold policy_labels. cbn. apply app_nil_r. Qed.

Lemma policy_labels_app es1 es2 : policy_labels (es1 ++ es2) = policy_labels es1 ++ policy_labels es2.
Proof. unfold policy_labels. by rewrite fmap_app, join_app. Qed.

(** What the generated table of system calls promises: names that fit a label and do not
    start with a digit, and distinct numbers of an [int]. *)
Record table_ok : Prop := {
  tab_names : Forall (λ p, (length p.1 <= MAX_BPF_LABEL_LEN)%nat ∧ head_decimal p.1 = false) syscall_table;
  tab_small : Forall (λ p, p.2 < 2 ^ 31) syscall_table;
  tab_numbers : NoDup (snd <$> syscall_table);
}.

Lemma lookup_syscall_from_found n tbl name nr ind :
  lookup_syscall_from n tbl name = (nr, ind) → 0 <= nr →
  ∃ i, ind = Z.of_nat (n + i) ∧ tbl !! i = Some (name, nr).
Proof.
  revert n; induction tbl as [|[name' nr'] tbl IH]; intros n; simpl; [intros [= <- <-] ?; lia|].
  destruct (nr' <? 0); [intros [= <- <-] ?; lia|]. destruct (streq name' name) eqn:E.
  - intros [= <- <-] _. apply bool_decide_eq_true in E as ->. exists 0%nat. split; [lia|done].
  - intros H H0. destruct (IH _ H H0) as (i & -> & Hi). exists (S i). split; [lia|done].
Qed.

(** An entry that stands for a system call of the table. *)
Definition entry_ok (e : entry) : Prop :=
  0 <= e.(e_nr) ∧ 0 <= e.(e_ind) ∧ syscall_table !! Z.to_nat e.(e_ind) = Some (entry_name e, e.(e_nr)) ∧
  lookup_syscall (entry_name e) = (e.(e_nr), e.(e_ind)).

Lemma lookup_syscall_entry name nr ind r :
  lookup_syscall name = (nr, ind) → 0 <= nr →
  let e := {| e_nr := nr; e_ind := ind; e_rule := r |} in entry_ok e ∧ entry_name e = name.
Proof.
  intros H H0. destruct (lookup_syscall_from_found _ _ _ _ _ H H0) as (i & Hi & Hl). intros e.
  assert (entry_name e = name) as Hn. { unfold entry_name, e. cbn. rewrite Hi, Nat2Z.id. cbn. by rewrite Hl. }
  split; [|done]. split_and!; cbn; [done|lia| |by rewrite Hn].
  rewrite Hn, Hi, Nat2Z.id. exact Hl.
Qed.

Lemma read_entry_ok opts line es : read_entry opts line = Some es → Forall entry_ok es.
Proof.
  unfold read_entry. destruct (split_policy_line line) as [[name text]|]; [|done]. cbn.
  destruct (lookup_syscall name) as [nr ind] eqn:El. destruct (nr <? 0) eqn:En.
  - destruct (allow_logging opts); [|done]. by intros [= <-].
  - destruct (read_rule _ _) as [r|]; [|done]. intros [= <-]. apply list.Forall_singleton.
    by eapply lookup_syscall_entry; [|apply Z.ltb_ge].
Qed.

Lemma read_lines_ok inc opts lines es :
  (∀ read name es, inc = Some read → read name = Some es → Forall entry_ok es) →
  read_lines inc opts lines = Some es → Forall entry_ok es.
Proof.
  intros Hinc. unfold read_lines. destruct (mapM _ lines) as [ess|] eqn:E; [|done]. intros [= <-].
  apply mapM_Some in E. induction E as [|line es lines ess Hl _ IH]; [constructor|].
  apply list.Forall_app. split; [|done]. unfold read_line in Hl. destruct (_ || _); [by simplify_eq|].
  case_bool_decide; [|by eapply read_entry_ok]. destruct (starts_with _ _); [by simplify_eq|].
  destruct inc as [read|]; [|done]. cbn in Hl. destruct (parse_include_statement line 0); [|done]. by eapply Hinc.
Qed.

Lemma read_policy_ok fs opts stream es : read_policy fs opts stream = Some es → Forall entry_ok es.
Proof.
  apply read_lines_ok. intros read name es' [= <-] H. destruct (fs name); [|done]. cbn in H.
  by eapply read_lines_ok; [|exact H].
Qed.

(** ** Distinct labels *)

Section Distinct.
Hypothesis Htab : table_ok.

Lemma entry_ok_small e : entry_ok e → small_nr e.(e_nr).
Proof.
  destruct Htab as [_ Hsmall _]. intros (H0 & _ & Hl & _). split; [done|].
  by apply (list.Forall_lookup_1 _ _ _ _ Hsmall) in Hl.
Qed.

Lemma entry_name_not_numbered e e' : entry_ok e → entry_ok e' → ¬ numbered e'.(e_nr) (entry_name e).
Proof.
  destruct Htab as [Hnames _ _]. intros (_ & _ & Hl & _) He' Hnum.
  apply (list.Forall_lookup_1 _ _ _ _ Hnames) in Hl as [_ Hh].
  pose proof (numbered_head _ _ (entry_ok_small _ He') Hnum) as Hd. cbn in Hh. congruence.
Qed.

Lemma entry_name_short e : entry_ok e → (length (entry_name e) <= MAX_BPF_LABEL_LEN)%nat.
Proof.
  destruct Htab as [Hnames _ _]. intros (_ & _ & Hl & _).
  by apply (list.Forall_lookup_1 _ _ _ _ Hnames) in Hl as [? _].
Qed.

Lemma entry_labels_NoDup e :
  entry_ok e → (length (entry_labels e) <= BPF_LABELS_MAX)%nat →
  NoDup (entry_labels e) ∧ ∀ s, s ∈ entry_labels e → s = entry_name e ∨ numbered e.(e_nr) s.
Proof.
  intros He Hl. destruct (rule_labels_split (entry_name e) (e_nr e) (e_rule e)) as (ls & Hls & Hnd & Hf);
    [by apply entry_ok_small|done|]. unfold entry_labels. rewrite Hls. rewrite list.Forall_forall in Hf. split.
  - apply list.NoDup_app. split_and!; [destruct (e_rule e); repeat constructor; set_solver| |done].
    intros s Hs1 Hs2%Hf. apply (entry_name_not_numbered e e); [done..|]. destruct (e_rule e); set_solver.
  - intros s [Hs|Hs]%elem_of_app; [|by right; apply Hf]. left. destruct (e_rule e); set_solver.
Qed.

(** Two entries of different system calls have no label in common. *)
Lemma entries_share_no_label e e' s :
  entry_ok e → entry_ok e' → e.(e_ind) ≠ e'.(e_ind) →
  s = entry_name e ∨ numbered e.(e_nr) s → s = entry_name e' ∨ numbered e'.(e_nr) s → False.
Proof.
  intros He He' Hne [Hn1|Hn1] [Hn2|Hn2]; try subst s.
  - apply Hne. destruct He as (_ & _ & _ & H1), He' as (_ & _ & _ & H2). congruence.
  - by apply (entry_name_not_numbered e e').
  - by apply (entry_name_not_numbered e' e).
  - pose proof (numbered_inj _ _ _ (entry_ok_small _ He) (entry_ok_small _ He') Hn1 Hn2) as E. apply Hne.
    destruct Htab as [_ _ Hnums], He as (_ & ? & H1 & _), He' as (_ & ? & H2 & _).
    assert (Z.to_nat (e_ind e) = Z.to_nat (e_ind e')); [|lia].
    eapply (list.NoDup_lookup _ _ _ (e_nr e) Hnums); rewrite list_lookup_fmap; [by rewrite H1|by rewrite H2, E].
Qed.

Lemma entry_labels_length e es : e ∈ es → (length (entry_labels e) <= length (policy_labels es))%nat.
Proof.
  intros (l1 & l2 & ->)%list_elem_of_split. rewrite policy_labels_app, policy_labels_cons, !length_app. lia.
Qed.

(** The labels of entries with distinct system calls are distinct. *)
Lemma policy_labels_NoDup es :
  Forall entry_ok es → NoDup (e_ind <$> es) → (length (policy_labels es) <= BPF_LABELS_MAX)%nat →
  NoDup (policy_labels es).
Proof.
  induction 1 as [|e es He Hes IH]; intros Hnd Hl; [constructor|].
  rewrite policy_labels_cons in *. rewrite length_app in Hl. inversion Hnd as [|? ? Hno Hnd']; subst.
  destruct (entry_labels_NoDup e He) as [Hnd1 Hin]; [lia|].
  apply list.NoDup_app. split_and!; [done| |apply IH; [done|lia]].
  intros s Hs (ls & Hs' & Hls)%list_elem_of_join. apply list_elem_of_fmap in Hls as (e' & -> & He').
  pose proof (proj1 (list.Forall_forall _ _) Hes e' He') as Hok'.
  pose proof (entry_labels_length _ _ He') as Hl'.
  destruct (entry_labels_NoDup e' Hok') as [_ Hin']; [lia|].
  eapply (entries_share_no_label e e'); eauto.
  intros E. apply Hno. rewrite E. by apply list_elem_of_fmap_2.
Qed.

End Distinct.

(** ** Files compile *)

(** What compiling the entries [es] adds to the compiler's state. *)
Record adds (c c' : compiler) (es : list entry) : Prop := {
  add_labels : grows c.(c_labels) c'.(c_labels);
  add_room : (length c'.(c_labels) <= length c.(c_labels) + length (policy_labels es))%nat;
  add_previous : ∀ i : Z, 0 <= i → i ∉ (e_ind <$> es) →
    c'.(c_previous) !! Z.to_nat i = c.(c_previous) !! Z.to_nat i;
  add_code : ∃ h a, mjoin c'.(c_head) = mjoin c.(c_head) ++ h ∧ args_code c' = args_code c ++ a ∧
    length h = (2 * length es)%nat ∧ length a = args_len es ∧
    decls h = [] ∧ jumps_ok h (decls a) ∧ jumps_ok a [] ∧
    ∀ labelsE, prefix c'.(c_labels) labelsE → Forall2 (label_at labelsE) (decls a) (policy_labels es);
}.

Lemma adds_nil c : adds c c [].
Proof.
  split; [done|simpl; lia|done|]. exists [], []. rewrite !app_nil_r. by split_and!.
Qed.

Lemma args_len_app es1 es2 : args_len (es1 ++ es2) = (args_len es1 + args_len es2)%nat.
Proof. unfold args_len. induction es1; simpl; lia. Qed.

Lemma adds_app c1 c2 c3 es1 es2 : adds c1 c2 es1 → adds c2 c3 es2 → adds c1 c3 (es1 ++ es2).
Proof.
  intros [G1 R1 P1 (h1 & a1 & H1 & A1 & Lh1 & La1 & D1 & J1 & K1 & F1)]
    [G2 R2 P2 (h2 & a2 & H2 & A2 & Lh2 & La2 & D2 & J2 & K2 & F2)]. split.
  - by etrans.
  - rewrite policy_labels_app, length_app. lia.
  - intros i Hi. rewrite fmap_app, not_elem_of_app. intros [N1 N2]. by rewrite P2, P1.
  - exists (h1 ++ h2), (a1 ++ a2). rewrite H2, H1, A2, A1, !length_app, args_len_app, !decls_app, D1, D2.
    split_and!; [by rewrite app_assoc|by rewrite app_assoc|lia|lia|done| | |].
    + apply jumps_ok_app.
      * rewrite D2. eapply jumps_ok_mono; [|exact J1]. set_solver.
      * eapply jumps_ok_mono; [|exact J2]. set_solver.
    + apply jumps_ok_app; [|done]. eapply jumps_ok_mono; [|exact K1]. set_solver.
    + intros LE Hp. rewrite policy_labels_app. apply Forall2_app; [|by apply F2].
      apply F1. etrans; [apply G2|done].
Qed.

(** The state is ready for [es]: system calls of the table not seen yet, room for labels. *)
Record ready (c : compiler) (es : list entry) : Prop := {
  rdy_ok : Forall entry_ok es;
  rdy_NoDup : NoDup (e_ind <$> es);
  rdy_fresh : Forall (λ e, c.(c_previous) !! Z.to_nat e.(e_ind) = Some None) es;
  rdy_room : (length c.(c_labels) + length (policy_labels es) <= BPF_LABELS_MAX)%nat;
}.

Lemma ready_app c c' es1 es2 :
  ready c (es1 ++ es2) → ready c es1 ∧ (adds c c' es1 → ready c' es2).
Proof.
  intros [Hok Hnd Hf Hr]. rewrite policy_labels_app, length_app in Hr. rewrite fmap_app in Hnd.
  apply list.NoDup_app in Hnd as (Hnd1 & Hx & Hnd2). apply list.Forall_app in Hok as [Hok1 Hok2], Hf as [Hf1 Hf2].
  split; [split; [done..|lia]|]. intros [_ Hroom Hprev _]. split; [done..| |lia].
  rewrite list.Forall_forall in Hok2. rewrite list.Forall_forall in Hf2. apply list.Forall_forall. intros e He.
  rewrite Hprev; [by apply Hf2|by destruct (Hok2 e He) as (_ & ? & _)|].
  intros Hin. eapply Hx; [exact Hin|]. by apply list_elem_of_fmap_2.
Qed.

(** An entry is appended to the jump table, its rule to the argument blocks. *)
Lemma adds_one c c' e h a :
  grows c.(c_labels) c'.(c_labels) →
  (length c'.(c_labels) <= length c.(c_labels) + length (entry_labels e))%nat →
  (∃ st, c'.(c_previous) = <[Z.to_nat e.(e_ind) := st]> c.(c_previous)) → 0 <= e.(e_ind) →
  mjoin c'.(c_head) = mjoin c.(c_head) ++ h → args_code c' = args_code c ++ a →
  length h = 2%nat → length a = rule_len e.(e_rule) → decls h = [] → jumps_ok h (decls a) → jumps_ok a [] →
  (∀ labelsE, prefix c'.(c_labels) labelsE → Forall2 (label_at labelsE) (decls a) (entry_labels e)) →
  adds c c' [e].
Proof.
  intros Hg Hr [st Hp] H0 Hh Ha Lh La Dh Jh Ja Hf.
  pose proof (policy_labels_one e) as Hl. split; [done|by rewrite Hl| |].
  - intros i Hi Hno. rewrite Hp. apply list_lookup_insert_ne. apply not_elem_of_cons in Hno as [Hno _]. lia.
  - exists h, a. rewrite Hl. split_and!; try done. unfold args_len. simpl. lia.
Qed.

Lemma insert_fresh previous st e :
  entry_ok e → is_Some st.(ps_filename) → previous !! Z.to_nat e.(e_ind) = Some None →
  insert_and_check_duplicate_syscall previous st e.(e_ind) =
    Ret (true, <[Z.to_nat e.(e_ind) := Some st]> previous).
Proof.
  intros (_ & H0 & Hl & _) [f Hf] Hp. apply lookup_lt_Some in Hl.
  unfold insert_and_check_duplicate_syscall, copy_parser_state.
  unfold get_num_syscalls. rewrite (proj2 (Z.leb_gt _ _)) by lia. by rewrite Hp, Hf.
Qed.

(** A rule that is not a plain permission has an entry label. *)
Lemma read_rule_labels name nr text act r :
  streq text (str "1") = false → read_rule text act = Some r →
  (1 <= length (rule_labels name nr r))%nat ∧ length (rule_labels name nr r) = length (rule_labels [] nr r).
Proof.
  intros E1 Er. split; [|by destruct r]. unfold read_rule in Er. rewrite E1 in Er.
  destruct r; [|simpl; lia..]. exfalso. repeat (case_match; try done); simplify_option_eq.
Qed.

Section Files.
Hypothesis Htab : table_ok.

Lemma compile_regular_line_total opts st name text line ret c es :
  is_Some st.(ps_filename) →
  split_policy_line line = Some (name, text) → read_entry opts line = Some es → ready c es →
  ∃ c', compile_regular_line opts st name text ret c = Ret (true, ret, c') ∧ adds c c' es.
Proof.
  intros Hst Hl. unfold compile_regular_line, read_entry. rewrite Hl. cbn.
  destruct (lookup_syscall name) as [nr ind] eqn:El. destruct (nr <? 0) eqn:En.
  { destruct (allow_logging opts); [|done]. intros [= <-] _. eauto using adds_nil. }
  apply Z.ltb_ge in En. destruct (read_rule text (action opts)) as [r|] eqn:Er; [|done]. intros [= <-] Hrdy.
  destruct (lookup_syscall_entry _ _ _ r El En) as [Hok Hname]. set (e := {| e_nr := nr |}) in *.
  destruct Hrdy as [_ _ Hf Hroom]. apply (proj1 (list.Forall_singleton _ _)) in Hf.
  pose proof (insert_fresh (c_previous c) st e Hok Hst Hf) as Hi. change (e_ind e) with ind in Hi.
  rewrite (bind_is_Ret _ _ _ Hi). cbn [negb andb]. destruct (streq text (str "1")) eqn:E1.
  { unfold read_rule in Er. rewrite E1 in Er. injection Er as <-. eexists. split; [done|].
    eapply (adds_one _ _ e (bpf_allow_syscall nr) []); unfold args_code, modify; simpl; try done.
    - lia.
    - by eexists.
    - by destruct Hok as (_ & ? & _).
    - unfold append_allow_syscall, append_filter_block. by rewrite join_app.
    - by rewrite app_nil_r. }
  rewrite policy_labels_one in Hroom. unfold entry_labels in Hroom. rewrite Hname in Hroom. cbn in Hroom.
  pose proof (cost_le (c_labels c) name) as Hcost.
  destruct (read_rule_labels name nr text _ r E1 Er) as [H1 Hlen].
  destruct (bpf_label_id_total (c_labels c) name) as (lid & L1 & Eid & _ & Hg1 & Hat & Hl1);
    [rewrite <- Hname; by apply entry_name_short|lia|].
  unfold modify at 1; cbn. rewrite Eid.
  destruct (compile_policy_line_total nr text (u32 lid) L1 (action opts) r E1 Er)
    as (blocks & L2 & code & E2 & Hb & Hg2 & Hl2 & Hn & Hj & Hf2); [lia|].
  rewrite (bind_is_Ret _ _ _ E2). eexists. split; [done|].
  eapply (adds_one _ _ e (bpf_allow_syscall_args nr (u32 lid)) (set_bpf_lbl (u32 lid) :: code));
    unfold args_code, modify; simpl; try done.
  - by etrans.
  - unfold entry_labels. rewrite Hname. simpl. lia.
  - by eexists.
  - by destruct Hok as (_ & ? & _).
  - unfold append_filter_block. by rewrite join_app.
  - destruct (c_arg_blocks c) as [b|]; simpl; [|done].
    unfold extend_filter_block_list. by rewrite join_app, Hb.
  - split_and!; [done| |done]. intros _. apply list_elem_of_here.
  - intros LE Hp. unfold entry_labels. rewrite Hname. apply Hf2; [done|].
    exists (u32 lid). split; [|done]. eapply label_of_prefix; [|exact Hat]. etrans; [apply Hg2|done].
Qed.

Variable fs : cstr → option (list ascii).

Section Lines.
Variables (opts : filter_options) (level : nat).
Variable include : cstr → list ascii → compiler → outcome (Z * compiler).
Variable inc : option (cstr → option (list entry)).

(** An included file compiles to what the specification reads from it. *)
Hypothesis include_total : ∀ read line name es c,
  inc = Some read → parse_include_statement line 0 = Some name → read name = Some es → ready c es →
  parse_include_statement line level = Some name ∧
  ∃ contents c', fs name = Some contents ∧ include name contents c = Ret (0, c') ∧ adds c c' es.

Lemma compile_lines_total fuel stream filename n ret c es :
  read_lines inc opts (lines_of_fuel fuel stream) = Some es → ready c es →
  ∃ c', compile_lines fs include opts level (Some filename) fuel stream n ret c = Ret (ret, c') ∧ adds c c' es.
Proof.
  unfold read_lines. revert stream n c es; induction fuel as [|fuel IH]; intros stream n c es.
  { intros [= <-] _. exists c. split; [done|apply adds_nil]. }
  cbn [lines_of_fuel compile_lines]. destruct (getmultiline stream) as [[line|] rest].
  2: { intros [= <-] _. exists c. split; [done|apply adds_nil]. }
  set (pl := strip (c_str line)). cbn [mapM]. intros Hread Hrdy.
  destruct (read_line inc opts pl) as [es1|] eqn:E1; [|done]. cbn in Hread.
  destruct (mapM _ _) as [ess|] eqn:E2; [|done]. injection Hread as <-.
  change (mjoin (es1 :: ess)) with (es1 ++ mjoin ess) in *. specialize (IH rest (S n)). rewrite E2 in IH.
  match goal with |- ∃ c', ?lhs = _ ∧ _ => enough (∃ c1, adds c c1 es1 ∧
    lhs = compile_lines fs include opts level (Some filename) fuel rest (S n) ret c1) as (c1 & Ha & ->) end.
  { destruct (ready_app c c1 es1 (mjoin ess) Hrdy) as [_ Hr2].
    destruct (IH c1 _ eq_refl (Hr2 Ha)) as (c' & Hc' & Ha'). exists c'. split; [done|by eapply adds_app]. }
  destruct (ready_app c c es1 (mjoin ess) Hrdy) as [Hr1 _]. clear IH Hrdy. unfold read_line in E1.
  destruct (bool_decide _ || bool_decide _).
  { injection E1 as <-. exists c. split; [apply adds_nil|done]. }
  destruct (bool_decide _).
  { destruct (starts_with _ pl); [injection E1 as <-; exists c; split; [apply adds_nil|done]|].
    destruct inc as [read|] eqn:Einc; [|done]. cbn in E1.
    destruct (parse_include_statement pl 0) as [name|] eqn:Ep; [|done]. cbn in E1.
    destruct (include_total read pl name es1 c eq_refl Ep E1 Hr1) as (-> & contents & c1 & -> & Hi & Ha).
    exists c1. split; [done|]. by rewrite (bind_is_Ret _ _ _ Hi). }
  destruct (split_policy_line pl) as [[name text]|] eqn:Es.
  2: { unfold read_entry in E1. by rewrite Es in E1. }
  edestruct (compile_regular_line_total opts {| ps_filename := Some filename; ps_line_number := S n |})
    as (c1 & Hc1 & Ha); [by exists filename|exact Es|exact E1|exact Hr1|].
  exists c1. split; [exact Ha|]. by rewrite (bind_is_Ret _ _ _ Hc1).
Qed.

End Lines.

Lemma compile_file_total opts filename stream c es :
  read_policy fs opts stream = Some es → ready c es →
  ∃ c', compile_file fs opts 0 (Some filename) stream c = Ret (0, c') ∧ adds c c' es.
Proof.
  apply compile_lines_total. intros read line name es1 c1 [= <-] Hp Hread Hrdy. split; [done|].
  destruct (fs name) as [contents|]; [|done]. cbn in Hread.
  destruct (compile_lines_total opts 1 (λ _ _ c, Ret (-1, c)) None) with
    (fuel := S (length contents)) (stream := contents) (filename := name) (n := 0%nat) (ret := 0) (c := c1) (es := es1)
    as (c2 & H2 & Ha); [done|done|done|]. eauto.
Qed.

(** ** The whole compiler *)

(** The length of the program of a policy. *)
Definition policy_len (opts : filter_options) (es : list entry) : nat :=
  5 + 2 * length (logging_entries opts ++ es) + args_len es.

Lemma initial_compiler_head opts :
  ∃ h, mjoin (initial_compiler opts).(c_head) = bpf_validate_arch ++ bpf_load_syscall_nr :: h ∧
    plain_code h ∧ length h = (2 * length (logging_entries opts))%nat.
Proof.
  unfold initial_compiler, logging_entries; cbn [c_head]. destruct (allow_syscalls_for_logging opts).
  - eexists. split; [reflexivity|]. split; [by repeat constructor|done].
  - exists []. split; [reflexivity|]. split; [constructor|done].
Qed.

Lemma append_final_total (head : fblocks) opts :
  (opts.(action) = ACTION_RET_LOG → opts.(allow_logging) = true) →
  append_final head opts = Some (head ++ [[ret_instr (action_verdict opts.(action))]]).
Proof. unfold append_final. intros H. destruct (action opts); try done. by rewrite H. Qed.

Lemma link_filter_total (head : fblocks) arg_blocks labels :
  let prog := mjoin (M:=list) head ++ mjoin (M:=list) (default [] arg_blocks) in
  (length prog <= BPF_MAXINSNS)%nat → unresolved labels →
  NoDup (decls prog) → Forall (λ l, l < length labels)%nat (decls prog) → jumps_ok prog [] →
  ∃ prog', link_filter head arg_blocks labels = Ret (Some prog') ∧ length prog' = length prog.
Proof.
  intros prog Hlen Hun Hnd Hlt Hj. rewrite link_filter_spec. fold prog. cbv zeta.
  rewrite (proj2 (Nat.ltb_ge _ _)) by done.
  destruct (resolve_from_total labels 0 prog) as (L & prog' & E & _); try done.
  { unfold BPF_MAXINSNS in Hlen. simpl. lia. }
  rewrite E. exists prog'. split; [done|]. by eapply resolve_from_length.
Qed.

Lemma initial_compiler_ready opts es :
  Forall entry_ok es → NoDup (e_ind <$> es) → (length (policy_labels es) <= BPF_LABELS_MAX)%nat →
  ready (initial_compiler opts) es.
Proof.
  intros Hok Hnd Hlab. split; [done..| |done]. apply list.Forall_forall. intros e He.
  apply lookup_replicate. split; [done|].
  destruct (proj1 (list.Forall_forall _ _) Hok e He) as (_ & _ & Hl%lookup_lt_Some & _).
  unfold get_num_syscalls. lia.
Qed.

(** A prologue without labels, a jump table into the argument blocks, the default. *)
Lemma program_jumps pre h ret a :
  plain_code pre → kind_of ret = KPlain → decls h = [] → jumps_ok h (decls a) → jumps_ok a [] →
  decls (pre ++ h ++ ret :: a) = decls a ∧ jumps_ok (pre ++ h ++ ret :: a) [].
Proof.
  intros Hp Hr Dh Jh Ja. assert (decls (ret :: a) = decls a) as Ht.
  { unfold decls; cbn. unfold declared at 1. by rewrite Hr. }
  split; [by rewrite !decls_app, plain_decls, Dh, Ht|].
  apply jumps_ok_app; [by apply plain_jumps_ok|]. apply jumps_ok_app; [|split; [by rewrite Hr|done]].
  rewrite Ht. eapply jumps_ok_mono; [|exact Jh]. set_solver.
Qed.

Lemma compile_filter_link opts filename stream c (head : fblocks) :
  compile_file fs opts 0 (Some filename) stream (initial_compiler opts) = Ret (0, c) →
  append_final c.(c_head) opts = Some head →
  compile_filter fs opts (Some filename) (Some stream) = link_filter head c.(c_arg_blocks) c.(c_labels).
Proof. intros H1 H2. etrans; [exact (bind_is_Ret _ _ _ H1)|]. cbn [Z.eqb negb]. by rewrite H2. Qed.

Lemma compile_filter_succeeds opts filename stream es :
  read_policy fs opts stream = Some es → NoDup (e_ind <$> es) →
  (opts.(action) = ACTION_RET_LOG → opts.(allow_logging) = true) →
  (policy_len opts es <= BPF_MAXINSNS)%nat → (length (policy_labels es) <= BPF_LABELS_MAX)%nat →
  ∃ prog, compile_filter fs opts (Some filename) (Some stream) = Ret (Some prog) ∧ length prog = policy_len opts es.
Proof.
  intros Hread Hnd Hact Hlen Hlab. pose proof (read_policy_ok _ _ _ _ Hread) as Hok.
  destruct (compile_file_total opts filename stream _ es Hread (initial_compiler_ready opts es Hok Hnd Hlab))
    as (c' & Hc & [[Hp Hun] Hroom _ (h & a & Hh & Ha & Lh & La & Dh & Jh & Ja & Hf)]).
  destruct (initial_compiler_head opts) as (h0 & Hh0 & Pl0 & Lh0).
  rewrite (compile_filter_link _ _ _ _ _ Hc (append_final_total _ _ Hact)).
  assert (args_code c' = a) as Hargs by done. unfold args_code in Hargs.
  set (head := c_head c' ++ _). set (pre := bpf_validate_arch ++ bpf_load_syscall_nr :: h0) in *.
  set (ret := ret_instr _) in head.
  assert (plain_code pre) as Hplain
    by (apply list.Forall_app; split; [by repeat constructor|by constructor]).
  destruct (program_jumps pre h ret a) as [Hdecls Hjumps]; [done..|].
  assert (mjoin head ++ mjoin (default [] c'.(c_arg_blocks)) = pre ++ h ++ ret :: a) as Hprog.
  { unfold head. rewrite join_app, Hh, Hh0, Hargs. by rewrite <- !app_assoc. }
  assert (length (pre ++ h ++ ret :: a) = policy_len opts es) as Hl.
  { unfold policy_len, pre. rewrite !length_app. cbn. lia. }
  destruct (label_at_NoDup c'.(c_labels) (decls a) (policy_labels es)) as [Hnd' Hlt].
  { cbn in Hroom. unfold BPF_LABELS_MAX in Hlab. lia. }
  { by apply Hf. }
  { by apply policy_labels_NoDup. }
  destruct (link_filter_total head c'.(c_arg_blocks) c'.(c_labels)) as (prog & E & Hlp);
    rewrite ?Hprog, ?Hdecls, ?Hl in *; try done.
  - apply Hun. intros l name loc Hl'. done.
  - by exists prog.
Qed.
End Files.
End Policies.

(** C2: [compile_filter] is complete: a policy that reads as entries for distinct system
    calls, whose labels fit the label table and whose program fits the kernel's limit, is
    compiled; the program has exactly the length the policy takes, and answers for every
    system call what the policy says. *)
Theorem compile_filter_total {B : BuildConfig} fs opts filename stream es :
  table_ok → read_policy fs opts stream = Some es → NoDup (e_ind <$> es) →
  (opts.(action) = ACTION_RET_LOG → opts.(allow_logging) = true) →
  (policy_len opts es <= BPF_MAXINSNS)%nat → (length (policy_labels es) <= BPF_LABELS_MAX)%nat →
  ∃ prog, compile_filter fs opts (Some filename) (Some stream) = Ret (Some prog) ∧
    length prog = policy_len opts es ∧
    ∀ d, bpf_run d prog =
      verdict_code <$> eval_policy d (logging_entries opts ++ es) (action_verdict opts.(action)).
Proof.
  intros Htab Hread Hnd Hact Hlen Hlab.
  destruct (compile_filter_succeeds Htab fs opts filename stream es) as (prog & E & Hl); [done..|].
  exists prog. split; [done|]. split; [done|].
  destruct (compile_filter_run _ _ _ _ _ E) as (es' & Hread' & _ & _ & Hrun).
  rewrite Hread in Hread'. by injection Hread' as <-.
Qed.

(** The policy with an include, a continuation line and every kind of rule. *)
Definition example_entries : list entry :=
  Eval vm_compute in default [] (read_policy (B := example_config) example_fs example_opts example_policy).

Lemma example_table_ok : table_ok (B := example_config).
Proof. split; apply (bool_decide_unpack _); vm_compute; exact I. Qed.

Lemma compile_filter_total_witness :
  ∃ prog, compile_filter (B := example_config) example_fs example_opts (Some (str "p")) (Some example_policy)
            = Ret (Some prog) ∧
    length prog = 56%nat ∧
    ∀ d, bpf_run d prog = verdict_code <$>
      eval_policy d (logging_entries (B := example_config) example_opts ++ example_entries) KillProcess.
Proof.
  apply (compile_filter_total (B := example_config) example_fs example_opts (str "p") example_policy
           example_entries).
  - exact example_table_ok.
  - vm_compute. reflexivity.
  - apply (bool_decide_unpack _). vm_compute. exact I.
  - done.
  - apply (bool_decide_unpack _). vm_compute. exact I.
  - apply (bool_decide_unpack _). vm_compute. exact I.
Defined.
