(* ===== verification/Tables.v ===== *)
(** * The generated tables of linux-x86

    libsyscalls.gen.c and libconstants.gen.c: the names of the system calls and of the
    constants that a policy may use, in the order of the files.  An entry is there when
    its macro is defined by the system's headers, with the value they give it, which is
    a parameter. *)

From S2P Require Import Prelude CLib Util.
Local Open Scope string_scope.

(** ** libsyscalls.gen.c *)

Definition syscalls_1 : list string :=
  ["read"; "write"; "open"; "close"; "stat"; "fstat"; "lstat"; "poll"; "lseek"; "mmap"; "mprotect";
   "munmap"; "brk"; "rt_sigaction"; "rt_sigprocmask"; "rt_sigreturn"; "ioctl"; "pread64";
   "pwrite64"; "readv"; "writev"; "access"; "pipe"; "select"; "sched_yield"; "mremap"; "msync";
   "mincore"; "madvise"; "shmget"; "shmat"; "shmctl"; "dup"; "dup2"; "pause"; "nanosleep";
   "getitimer"; "alarm"; "setitimer"; "getpid"; "sendfile"; "socket"; "connect"; "accept"; "sendto";
   "recvfrom"; "sendmsg"; "recvmsg"; "shutdown"].

Definition syscalls_2 : list string :=
  ["bind"; "listen"; "getsockname"; "getpeername"; "socketpair"; "setsockopt"; "getsockopt";
   "clone"; "fork"; "vfork"; "execve"; "exit"; "wait4"; "kill"; "uname"; "semget"; "semop";
   "semctl"; "shmdt"; "msgget"; "msgsnd"; "msgrcv"; "msgctl"; "fcntl"; "flock"; "fsync";
   "fdatasync"; "truncate"; "ftruncate"; "getdents"; "getcwd"; "chdir"; "fchdir"; "rename"; "mkdir";
   "rmdir"; "creat"; "link"; "unlink"; "symlink"; "readlink"; "chmod"; "fchmod"; "chown"; "fchown";
   "lchown"; "umask"; "gettimeofday"; "getrlimit"].

Definition syscalls_3 : list string :=
  ["getrusage"; "sysinfo"; "times"; "ptrace"; "getuid"; "syslog"; "getgid"; "setuid"; "setgid";
   "geteuid"; "getegid"; "setpgid"; "getppid"; "getpgrp"; "setsid"; "setreuid"; "setregid";
   "getgroups"; "setgroups"; "setresuid"; "getresuid"; "setresgid"; "getresgid"; "getpgid";
   "setfsuid"; "setfsgid"; "getsid"; "capget"; "capset"; "rt_sigpending"; "rt_sigtimedwait";
   "rt_sigqueueinfo"; "rt_sigsuspend"; "sigaltstack"; "utime"; "mknod"; "uselib"; "personality";
   "ustat"; "statfs"; "fstatfs"; "sysfs"; "getpriority"; "setpriority"; "sched_setparam";
   "sched_getparam"; "sched_setscheduler"; "sched_getscheduler"; "sched_get_priority_max"].

Definition syscalls_4 : list string :=
  ["sched_get_priority_min"; "sched_rr_get_interval"; "mlock"; "munlock"; "mlockall"; "munlockall";
   "vhangup"; "modify_ldt"; "pivot_root"; "_sysctl"; "prctl"; "arch_prctl"; "adjtimex"; "setrlimit";
   "chroot"; "sync"; "acct"; "settimeofday"; "mount"; "umount2"; "swapon"; "swapoff"; "reboot";
   "sethostname"; "setdomainname"; "iopl"; "ioperm"; "create_module"; "init_module";
   "delete_module"; "get_kernel_syms"; "query_module"; "quotactl"; "nfsservctl"; "getpmsg";
   "putpmsg"; "afs_syscall"; "tuxcall"; "security"; "gettid"; "readahead"; "setxattr"; "lsetxattr";
   "fsetxattr"; "getxattr"; "lgetxattr"; "fgetxattr"; "listxattr"; "llistxattr"].

Definition syscalls_5 : list string :=
  ["flistxattr"; "removexattr"; "lremovexattr"; "fremovexattr"; "tkill"; "time"; "futex";
   "sched_setaffinity"; "sched_getaffinity"; "set_thread_area"; "io_setup"; "io_destroy";
   "io_getevents"; "io_submit"; "io_cancel"; "get_thread_area"; "lookup_dcookie"; "epoll_create";
   "epoll_ctl_old"; "epoll_wait_old"; "remap_file_pages"; "getdents64"; "set_tid_address";
   "restart_syscall"; "semtimedop"; "fadvise64"; "timer_create"; "timer_settime"; "timer_gettime";
   "timer_getoverrun"; "timer_delete"; "clock_settime"; "clock_gettime"; "clock_getres";
   "clock_nanosleep"; "exit_group"; "epoll_wait"; "epoll_ctl"; "tgkill"; "utimes"; "vserver";
   "mbind"; "set_mempolicy"; "get_mempolicy"; "mq_open"; "mq_unlink"; "mq_timedsend";
   "mq_timedreceive"; "mq_notify"].

Definition syscalls_6 : list string :=
  ["mq_getsetattr"; "kexec_load"; "waitid"; "add_key"; "request_key"; "keyctl"; "ioprio_set";
   "ioprio_get"; "inotify_init"; "inotify_add_watch"; "inotify_rm_watch"; "migrate_pages"; "openat";
   "mkdirat"; "mknodat"; "fchownat"; "futimesat"; "newfstatat"; "unlinkat"; "renameat"; "linkat";
   "symlinkat"; "readlinkat"; "fchmodat"; "faccessat"; "pselect6"; "ppoll"; "unshare";
   "set_robust_list"; "get_robust_list"; "splice"; "tee"; "sync_file_range"; "vmsplice";
   "move_pages"; "utimensat"; "epoll_pwait"; "signalfd"; "timerfd_create"; "eventfd"; "fallocate";
   "timerfd_settime"; "timerfd_gettime"; "accept4"; "signalfd4"; "eventfd2"; "epoll_create1";
   "dup3"; "pipe2"].

Definition syscalls_7 : list string :=
  ["inotify_init1"; "preadv"; "pwritev"; "rt_tgsigqueueinfo"; "perf_event_open"; "recvmmsg";
   "fanotify_init"; "fanotify_mark"; "prlimit64"; "name_to_handle_at"; "open_by_handle_at";
   "clock_adjtime"; "syncfs"; "sendmmsg"; "setns"; "getcpu"; "process_vm_readv";
   "process_vm_writev"; "kcmp"; "finit_module"; "sched_setattr"; "sched_getattr"; "renameat2";
   "seccomp"; "getrandom"; "memfd_create"; "kexec_file_load"; "bpf"; "execveat"; "userfaultfd";
   "membarrier"; "mlock2"; "copy_file_range"; "preadv2"; "pwritev2"; "pkey_mprotect"; "pkey_alloc";
   "pkey_free"; "statx"; "io_pgetevents"; "rseq"; "pidfd_send_signal"; "io_uring_setup";
   "io_uring_enter"; "io_uring_register"; "open_tree"; "move_mount"; "fsopen"; "fsconfig"].

Definition syscalls_8 : list string :=
  ["fsmount"; "fspick"; "pidfd_open"; "clone3"; "close_range"; "openat2"; "pidfd_getfd";
   "faccessat2"; "process_madvise"].

Definition syscall_names : list string :=
  syscalls_1 ++ syscalls_2 ++ syscalls_3 ++ syscalls_4 ++ syscalls_5 ++ syscalls_6 ++ syscalls_7 ++
  syscalls_8.

(** ** libconstants.gen.c *)

Definition constants_1 : list string :=
  ["AF_ALG"; "AF_APPLETALK"; "AF_ASH"; "AF_ATMPVC"; "AF_ATMSVC"; "AF_AX25"; "AF_BLUETOOTH";
   "AF_BRIDGE"; "AF_CAIF"; "AF_CAN"; "AF_ECONET"; "AF_FILE"; "AF_IB"; "AF_IEEE802154"; "AF_INET6";
   "AF_INET"; "AF_IPX"; "AF_IRDA"; "AF_ISDN"; "AF_IUCV"; "AF_KCM"; "AF_KEY"; "AF_LLC"; "AF_LOCAL";
   "AF_MAX"; "AF_MPLS"; "AF_NETBEUI"; "AF_NETLINK"; "AF_NETROM"; "AF_NFC"; "AF_PACKET"; "AF_PHONET";
   "AF_PPPOX"; "AF_QIPCRTR"; "AF_RDS"; "AF_ROSE"; "AF_ROUTE"; "AF_RXRPC"; "AF_SECURITY"; "AF_SMC";
   "AF_SNA"; "AF_TIPC"; "AF_UNIX"; "AF_UNSPEC"; "AF_VSOCK"; "AF_WANPIPE"; "AF_X25"; "AF_XDP";
   "ARCH_GET_CPUID"].

Definition constants_2 : list string :=
  ["ARCH_GET_FS"; "ARCH_GET_GS"; "ARCH_MAP_VDSO_32"; "ARCH_MAP_VDSO_64"; "ARCH_MAP_VDSO_X32";
   "ARCH_SET_CPUID"; "ARCH_SET_FS"; "ARCH_SET_GS"; "ARG_MAX"; "ASYNCB_AUTO_IRQ"; "ASYNCB_AUTOPROBE";
   "ASYNCB_BOOT_AUTOCONF"; "ASYNCB_BUGGY_UART"; "ASYNCB_CALLOUT_NOHUP"; "ASYNCB_CHECK_CD";
   "ASYNCB_CLOSING"; "ASYNCB_CONS_FLOW"; "ASYNCB_CTS_FLOW"; "ASYNCB_FIRST_KERNEL";
   "ASYNCB_FOURPORT"; "ASYNCB_HARDPPS_CD"; "ASYNCB_HUP_NOTIFY"; "ASYNCB_INITIALIZED";
   "ASYNCB_LAST_USER"; "ASYNCB_LOW_LATENCY"; "ASYNCB_MAGIC_MULTIPLIER"; "ASYNCB_NORMAL_ACTIVE";
   "ASYNCB_PGRP_LOCKOUT"; "ASYNCB_SAK"; "ASYNCB_SESSION_LOCKOUT"; "ASYNCB_SHARE_IRQ";
   "ASYNCB_SKIP_TEST"; "ASYNCB_SPD_HI"; "ASYNCB_SPD_SHI"; "ASYNCB_SPD_VHI"; "ASYNCB_SPLIT_TERMIOS";
   "ASYNCB_SUSPENDED"; "ASYNC_CLOSING_WAIT_INF"; "ASYNC_CLOSING_WAIT_NONE"; "AT_EACCESS";
   "AT_REMOVEDIR"; "AT_SYMLINK_FOLLOW"; "AT_SYMLINK_NOFOLLOW"; "AUDIT_ADD"; "AUDIT_ADD_RULE";
   "AUDIT_ALWAYS"; "AUDIT_ANOM_ABEND"; "AUDIT_ANOM_CREAT"; "AUDIT_ANOM_LINK"].

Definition constants_3 : list string :=
  ["AUDIT_ANOM_PROMISCUOUS"; "AUDIT_ARCH"; "AUDIT_ARG0"; "AUDIT_AVC"; "AUDIT_AVC_PATH";
   "AUDIT_BIT_MASK"; "AUDIT_BITMASK_SIZE"; "AUDIT_BPF"; "AUDIT_BPRM_FCAPS"; "AUDIT_CAPSET";
   "AUDIT_CLASS_CHATTR"; "AUDIT_CLASS_CHATTR_32"; "AUDIT_CLASS_DIR_WRITE";
   "AUDIT_CLASS_DIR_WRITE_32"; "AUDIT_CLASS_READ_32"; "AUDIT_CLASS_READ"; "AUDIT_CLASS_SIGNAL_32";
   "AUDIT_CLASS_SIGNAL"; "AUDIT_CLASS_WRITE_32"; "AUDIT_CLASS_WRITE"; "AUDIT_COMPARE_AUID_TO_EUID";
   "AUDIT_COMPARE_AUID_TO_FSUID"; "AUDIT_COMPARE_AUID_TO_OBJ_UID"; "AUDIT_COMPARE_AUID_TO_SUID";
   "AUDIT_COMPARE_EGID_TO_FSGID"; "AUDIT_COMPARE_EGID_TO_OBJ_GID"; "AUDIT_COMPARE_EGID_TO_SGID";
   "AUDIT_COMPARE_EUID_TO_FSUID"; "AUDIT_COMPARE_EUID_TO_OBJ_UID"; "AUDIT_COMPARE_EUID_TO_SUID";
   "AUDIT_COMPARE_FSGID_TO_OBJ_GID"; "AUDIT_COMPARE_FSUID_TO_OBJ_UID"; "AUDIT_COMPARE_GID_TO_EGID";
   "AUDIT_COMPARE_GID_TO_FSGID"; "AUDIT_COMPARE_GID_TO_OBJ_GID"; "AUDIT_COMPARE_GID_TO_SGID";
   "AUDIT_COMPARE_SGID_TO_FSGID"; "AUDIT_COMPARE_SGID_TO_OBJ_GID"; "AUDIT_COMPARE_SUID_TO_FSUID";
   "AUDIT_COMPARE_SUID_TO_OBJ_UID"; "AUDIT_COMPARE_UID_TO_AUID"; "AUDIT_COMPARE_UID_TO_EUID";
   "AUDIT_COMPARE_UID_TO_FSUID"; "AUDIT_COMPARE_UID_TO_OBJ_UID"; "AUDIT_COMPARE_UID_TO_SUID";
   "AUDIT_CONFIG_CHANGE"; "AUDIT_CWD"; "AUDIT_DAEMON_ABORT"; "AUDIT_DAEMON_CONFIG"].

Definition constants_4 : list string :=
  ["AUDIT_DAEMON_END"; "AUDIT_DAEMON_START"; "AUDIT_DEL"; "AUDIT_DEL_RULE"; "AUDIT_DEVMAJOR";
   "AUDIT_DEVMINOR"; "AUDIT_DIR"; "AUDIT_EGID"; "AUDIT_EOE"; "AUDIT_EQUAL"; "AUDIT_EUID";
   "AUDIT_EXE"; "AUDIT_EXECVE"; "AUDIT_EXIT"; "AUDIT_FAIL_PANIC"; "AUDIT_FAIL_PRINTK";
   "AUDIT_FAIL_SILENT"; "AUDIT_FANOTIFY"; "AUDIT_FD_PAIR"; "AUDIT_FEATURE_BITMAP_BACKLOG_LIMIT";
   "AUDIT_FEATURE_BITMAP_BACKLOG_WAIT_TIME"; "AUDIT_FEATURE_BITMAP_EXCLUDE_EXTEND";
   "AUDIT_FEATURE_BITMAP_EXECUTABLE_PATH"; "AUDIT_FEATURE_BITMAP_FILTER_FS";
   "AUDIT_FEATURE_BITMAP_LOST_RESET"; "AUDIT_FEATURE_BITMAP_SESSIONID_FILTER";
   "AUDIT_FEATURE_CHANGE"; "AUDIT_FEATURE_LOGINUID_IMMUTABLE"; "AUDIT_FEATURE_ONLY_UNSET_LOGINUID";
   "AUDIT_FEATURE_VERSION"; "AUDIT_FIELD_COMPARE"; "AUDIT_FILETYPE"; "AUDIT_FILTER_ENTRY";
   "AUDIT_FILTER_EXCLUDE"; "AUDIT_FILTER_EXIT"; "AUDIT_FILTER_FS"; "AUDIT_FILTERKEY";
   "AUDIT_FILTER_PREPEND"; "AUDIT_FILTER_TASK"; "AUDIT_FILTER_TYPE"; "AUDIT_FILTER_USER";
   "AUDIT_FILTER_WATCH"; "AUDIT_FIRST_KERN_ANOM_MSG"; "AUDIT_FIRST_USER_MSG";
   "AUDIT_FIRST_USER_MSG2"; "AUDIT_FSGID"; "AUDIT_FSTYPE"; "AUDIT_FSUID"; "AUDIT_GET"].

Definition constants_5 : list string :=
  ["AUDIT_GET_FEATURE"; "AUDIT_GID"; "AUDIT_GREATER_THAN"; "AUDIT_INODE"; "AUDIT_INTEGRITY_DATA";
   "AUDIT_INTEGRITY_EVM_XATTR"; "AUDIT_INTEGRITY_HASH"; "AUDIT_INTEGRITY_METADATA";
   "AUDIT_INTEGRITY_PCR"; "AUDIT_INTEGRITY_POLICY_RULE"; "AUDIT_INTEGRITY_RULE";
   "AUDIT_INTEGRITY_STATUS"; "AUDIT_IPC"; "AUDIT_IPC_SET_PERM"; "AUDIT_KERNEL";
   "AUDIT_KERNEL_OTHER"; "AUDIT_KERN_MODULE"; "AUDIT_LAST_FEATURE"; "AUDIT_LAST_KERN_ANOM_MSG";
   "AUDIT_LAST_USER_MSG"; "AUDIT_LAST_USER_MSG2"; "AUDIT_LESS_THAN"; "AUDIT_LIST";
   "AUDIT_LIST_RULES"; "AUDIT_LOGIN"; "AUDIT_LOGINUID"; "AUDIT_LOGINUID_SET";
   "AUDIT_MAC_CALIPSO_ADD"; "AUDIT_MAC_CALIPSO_DEL"; "AUDIT_MAC_CIPSOV4_ADD";
   "AUDIT_MAC_CIPSOV4_DEL"; "AUDIT_MAC_CONFIG_CHANGE"; "AUDIT_MAC_IPSEC_ADDSA";
   "AUDIT_MAC_IPSEC_ADDSPD"; "AUDIT_MAC_IPSEC_DELSA"; "AUDIT_MAC_IPSEC_DELSPD";
   "AUDIT_MAC_IPSEC_EVENT"; "AUDIT_MAC_MAP_ADD"; "AUDIT_MAC_MAP_DEL"; "AUDIT_MAC_POLICY_LOAD";
   "AUDIT_MAC_STATUS"; "AUDIT_MAC_UNLBL_ALLOW"; "AUDIT_MAC_UNLBL_STCADD"; "AUDIT_MAC_UNLBL_STCDEL";
   "AUDIT_MAKE_EQUIV"; "AUDIT_MAX_FIELD_COMPARE"; "AUDIT_MAX_FIELDS"; "AUDIT_MAX_KEY_LEN";
   "AUDIT_MESSAGE_TEXT_MAX"].

Definition constants_6 : list string :=
  ["AUDIT_MMAP"; "AUDIT_MQ_GETSETATTR"; "AUDIT_MQ_NOTIFY"; "AUDIT_MQ_OPEN"; "AUDIT_MQ_SENDRECV";
   "AUDIT_MSGTYPE"; "AUDIT_NEGATE"; "AUDIT_NETFILTER_CFG"; "AUDIT_NETFILTER_PKT"; "AUDIT_NEVER";
   "AUDIT_NOT_EQUAL"; "AUDIT_NR_FILTERS"; "AUDIT_OBJ_GID"; "AUDIT_OBJ_LEV_HIGH";
   "AUDIT_OBJ_LEV_LOW"; "AUDIT_OBJ_PID"; "AUDIT_OBJ_ROLE"; "AUDIT_OBJ_TYPE"; "AUDIT_OBJ_UID";
   "AUDIT_OBJ_USER"; "AUDIT_PATH"; "AUDIT_PERM"; "AUDIT_PERM_ATTR"; "AUDIT_PERM_EXEC";
   "AUDIT_PERM_READ"; "AUDIT_PERM_WRITE"; "AUDIT_PERS"; "AUDIT_PID"; "AUDIT_POSSIBLE"; "AUDIT_PPID";
   "AUDIT_PROCTITLE"; "AUDIT_REPLACE"; "AUDIT_SADDR_FAM"; "AUDIT_SECCOMP"; "AUDIT_SELINUX_ERR";
   "AUDIT_SESSIONID"; "AUDIT_SET"; "AUDIT_SET_FEATURE"; "AUDIT_SGID"; "AUDIT_SIGNAL_INFO";
   "AUDIT_SOCKADDR"; "AUDIT_SOCKETCALL"; "AUDIT_STATUS_BACKLOG_LIMIT";
   "AUDIT_STATUS_BACKLOG_WAIT_TIME"; "AUDIT_STATUS_ENABLED"; "AUDIT_STATUS_FAILURE";
   "AUDIT_STATUS_LOST"; "AUDIT_STATUS_PID"; "AUDIT_STATUS_RATE_LIMIT"].

Definition constants_7 : list string :=
  ["AUDIT_SUBJ_CLR"; "AUDIT_SUBJ_ROLE"; "AUDIT_SUBJ_SEN"; "AUDIT_SUBJ_TYPE"; "AUDIT_SUBJ_USER";
   "AUDIT_SUCCESS"; "AUDIT_SUID"; "AUDIT_SYSCALL"; "AUDIT_SYSCALL_CLASSES"; "AUDIT_TIME_ADJNTPVAL";
   "AUDIT_TIME_INJOFFSET"; "AUDIT_TRIM"; "AUDIT_TTY"; "AUDIT_TTY_GET"; "AUDIT_TTY_SET"; "AUDIT_UID";
   "AUDIT_UNUSED_BITS"; "AUDIT_USER"; "AUDIT_USER_AVC"; "AUDIT_USER_TTY";
   "AUDIT_VERSION_BACKLOG_LIMIT"; "AUDIT_VERSION_BACKLOG_WAIT_TIME"; "AUDIT_VERSION_LATEST";
   "AUDIT_WATCH"; "AUDIT_WATCH_INS"; "AUDIT_WATCH_LIST"; "AUDIT_WATCH_REM"; "B0"; "B1000000";
   "B110"; "B1152000"; "B115200"; "B1200"; "B134"; "B1500000"; "B150"; "B1800"; "B19200";
   "B2000000"; "B200"; "B230400"; "B2400"; "B2500000"; "B3000000"; "B300"; "B3500000"; "B38400";
   "B4000000"; "B460800"].

Definition constants_8 : list string :=
  ["B4800"; "B50"; "B500000"; "B576000"; "B57600"; "B600"; "B75"; "B921600"; "B9600"; "BIG_ENDIAN";
   "BLKALIGNOFF"; "BLKBSZGET"; "BLKBSZSET"; "BLKDISCARD"; "BLKDISCARDZEROES"; "BLKFLSBUF";
   "BLKFRAGET"; "BLKFRASET"; "BLKGETSIZE64"; "BLKGETSIZE"; "BLKIOMIN"; "BLKIOOPT"; "BLKPBSZGET";
   "BLKRAGET"; "BLKRASET"; "BLKROGET"; "BLKROSET"; "BLKROTATIONAL"; "BLKRRPART"; "BLKSECDISCARD";
   "BLKSECTGET"; "BLKSECTSET"; "BLKSSZGET"; "BLKTRACESETUP"; "BLKTRACESTART"; "BLKTRACESTOP";
   "BLKTRACETEARDOWN"; "BLKZEROOUT"; "BLOCK_SIZE_BITS"; "BMAP_IOCTL"; "BOTHER"; "BRKINT"; "BS0";
   "BS1"; "BSDLY"; "BUS_ADRALN"; "BUS_ADRERR"; "BUS_MCEERR_AO"; "BUS_MCEERR_AR"].

Definition constants_9 : list string :=
  ["BUS_OBJERR"; "BYTE_ORDER"; "CBAUD"; "CBAUDEX"; "CIBAUD"; "CLD_CONTINUED"; "CLD_DUMPED";
   "CLD_EXITED"; "CLD_KILLED"; "CLD_STOPPED"; "CLD_TRAPPED"; "CLOCAL"; "CLONE_ARGS_SIZE_VER0";
   "CLONE_ARGS_SIZE_VER1"; "CLONE_ARGS_SIZE_VER2"; "CLONE_CHILD_CLEARTID"; "CLONE_CHILD_SETTID";
   "CLONE_CLEAR_SIGHAND"; "CLONE_DETACHED"; "CLONE_FILES"; "CLONE_FS"; "CLONE_INTO_CGROUP";
   "CLONE_IO"; "CLONE_NEWCGROUP"; "CLONE_NEWIPC"; "CLONE_NEWNET"; "CLONE_NEWNS"; "CLONE_NEWPID";
   "CLONE_NEWTIME"; "CLONE_NEWUSER"; "CLONE_NEWUTS"; "CLONE_PARENT"; "CLONE_PARENT_SETTID";
   "CLONE_PIDFD"; "CLONE_PTRACE"; "CLONE_SETTLS"; "CLONE_SIGHAND"; "CLONE_SYSVSEM"; "CLONE_THREAD";
   "CLONE_UNTRACED"; "CLONE_VFORK"; "CLONE_VM"; "CMSPAR"; "CR0"; "CR1"; "CR2"; "CR3"; "CRDLY";
   "CREAD"].

Definition constants_10 : list string :=
  ["CRTSCTS"; "CS5"; "CS6"; "CS7"; "CS8"; "CSIGNAL"; "CSIZE"; "CSTOPB"; "CTSXON"; "DSRXON";
   "DTRXOFF"; "E2BIG"; "EACCES"; "EADDRINUSE"; "EADDRNOTAVAIL"; "EADV"; "EAFNOSUPPORT"; "EAGAIN";
   "EALREADY"; "EBADE"; "EBADF"; "EBADFD"; "EBADMSG"; "EBADR"; "EBADRQC"; "EBADSLT"; "EBFONT";
   "EBUSY"; "ECANCELED"; "ECHILD"; "ECHO"; "ECHOCTL"; "ECHOE"; "ECHOK"; "ECHOKE"; "ECHONL";
   "ECHOPRT"; "ECHRNG"; "ECOMM"; "ECONNABORTED"; "ECONNREFUSED"; "ECONNRESET"; "EDEADLK";
   "EDEADLOCK"; "EDESTADDRREQ"; "EDOM"; "EDOTDOT"; "EDQUOT"; "EEXIST"].

Definition constants_11 : list string :=
  ["EFAULT"; "EFBIG"; "EHOSTDOWN"; "EHOSTUNREACH"; "EHWPOISON"; "EIDRM"; "EILSEQ"; "EINPROGRESS";
   "EINTR"; "EINVAL"; "EIO"; "EISCONN"; "EISDIR"; "EISNAM"; "EKEYEXPIRED"; "EKEYREJECTED";
   "EKEYREVOKED"; "EL2HLT"; "EL2NSYNC"; "EL3HLT"; "EL3RST"; "ELIBACC"; "ELIBBAD"; "ELIBEXEC";
   "ELIBMAX"; "ELIBSCN"; "ELNRNG"; "ELOOP"; "EM_386"; "EM_486"; "EM_68K"; "EM_860"; "EM_88K";
   "EM_AARCH64"; "EM_ALPHA"; "EM_ALTERA_NIOS2"; "EM_ARCOMPACT"; "EM_ARCV2"; "EM_ARM"; "EM_BLACKFIN";
   "EM_BPF"; "EM_CRIS"; "EM_CSKY"; "EM_CYGNUS_M32R"; "EM_CYGNUS_MN10300"; "EMEDIUMTYPE"; "EMFILE";
   "EM_FRV"; "EM_H8_300"].

Definition constants_12 : list string :=
  ["EM_HEXAGON"; "EM_IA_64"; "EMLINK"; "EM_M32"; "EM_M32R"; "EM_MICROBLAZE"; "EM_MIPS";
   "EM_MIPS_RS3_LE"; "EM_MIPS_RS4_BE"; "EM_MN10300"; "EM_NDS32"; "EM_NONE"; "EM_OPENRISC";
   "EM_PARISC"; "EM_PPC"; "EM_PPC64"; "EM_RISCV"; "EM_S390"; "EM_S390_OLD"; "EMSGSIZE"; "EM_SH";
   "EM_SPARC"; "EM_SPARC32PLUS"; "EM_SPARCV9"; "EM_SPU"; "EM_TI_C6000"; "EM_TILEGX"; "EM_TILEPRO";
   "EMULTIHOP"; "EM_UNICORE"; "EM_X86_64"; "EM_XTENSA"; "ENAMETOOLONG"; "ENAVAIL"; "ENETDOWN";
   "ENETRESET"; "ENETUNREACH"; "ENFILE"; "ENOANO"; "ENOBUFS"; "ENOCSI"; "ENODATA"; "ENODEV";
   "ENOENT"; "ENOEXEC"; "ENOKEY"; "ENOLCK"; "ENOLINK"; "ENOMEDIUM"].

Definition constants_13 : list string :=
  ["ENOMEM"; "ENOMSG"; "ENONET"; "ENOPKG"; "ENOPROTOOPT"; "ENOSPC"; "ENOSR"; "ENOSTR"; "ENOSYS";
   "ENOTBLK"; "ENOTCONN"; "ENOTDIR"; "ENOTEMPTY"; "ENOTNAM"; "ENOTRECOVERABLE"; "ENOTSOCK";
   "ENOTSUP"; "ENOTTY"; "ENOTUNIQ"; "ENXIO"; "EOPNOTSUPP"; "EOVERFLOW"; "EOWNERDEAD"; "EPERM";
   "EPFNOSUPPORT"; "EPIPE"; "EPROTO"; "EPROTONOSUPPORT"; "EPROTOTYPE"; "ERANGE"; "EREMCHG";
   "EREMOTE"; "EREMOTEIO"; "ERESTART"; "ERFKILL"; "EROFS"; "ESHUTDOWN"; "ESOCKTNOSUPPORT"; "ESPIPE";
   "ESRCH"; "ESRMNT"; "ESTALE"; "ESTRPIPE"; "ETIME"; "ETIMEDOUT"; "ETOOMANYREFS"; "ETXTBSY";
   "EUCLEAN"; "EUNATCH"].

Definition constants_14 : list string :=
  ["EUSERS"; "EWOULDBLOCK"; "EXDEV"; "EXFULL"; "EXTA"; "EXTB"; "EXTPROC"; "FAPPEND"; "FASYNC";
   "FD_2M"; "FD_BROKEN_DCL"; "FD_CLOEXEC"; "FDCLRPRM"; "FD_DEBUG"; "FDDEFMEDIAPRM"; "FDDEFPRM";
   "FD_DRIVER_VERSION"; "FDEJECT"; "FD_FILL_BYTE"; "FDFLUSH"; "FDFMTBEG"; "FDFMTEND"; "FDFMTTRK";
   "FDGETDRVPRM"; "FDGETDRVSTAT"; "FDGETDRVTYP"; "FDGETFDCSTAT"; "FDGETMAXERRS"; "FDGETMEDIAPRM";
   "FDGETPRM"; "FD_INVERTED_DCL"; "FDMSGOFF"; "FDMSGON"; "FD_PERP"; "FDPOLLDRVSTAT"; "FDRAWCMD";
   "FD_RAW_DISK_CHANGE"; "FD_RAW_FAILURE"; "FD_RAW_HARDFAILURE"; "FD_RAW_INTR"; "FD_RAW_MORE";
   "FD_RAW_NEED_DISK"; "FD_RAW_NEED_SEEK"; "FD_RAW_NO_MOTOR"; "FD_RAW_NO_MOTOR_AFTER";
   "FD_RAW_READ"; "FD_RAW_SOFTFAILURE"; "FD_RAW_SPIN"; "FD_RAW_STOP_IF_FAILURE"].

Definition constants_15 : list string :=
  ["FD_RAW_STOP_IF_SUCCESS"; "FD_RAW_WRITE"; "FDRESET"; "FD_SECTBASEMASK"; "FDSETDRVPRM";
   "FDSETEMSGTRESH"; "FDSETMAXERRS"; "FDSETMEDIAPRM"; "FDSETPRM"; "FD_SETSIZE";
   "FD_SILENT_DCL_CLEAR"; "FD_SIZECODEMASK"; "FD_STRETCH"; "FD_SWAPSIDES"; "FDTWADDLE"; "F_DUPFD";
   "F_DUPFD_CLOEXEC"; "FDWERRORCLR"; "FDWERRORGET"; "FD_ZEROBASED"; "F_EXLCK"; "FF0"; "FF1";
   "FFDLY"; "FFSYNC"; "F_GETFD"; "F_GETFL"; "F_GETLK"; "F_GETLK64"; "F_GETOWN"; "FIBMAP"; "FICLONE";
   "FICLONERANGE"; "FIDEDUPERANGE"; "FIFREEZE"; "FIGETBSZ"; "FILE_DEDUPE_RANGE_DIFFERS";
   "FILE_DEDUPE_RANGE_SAME"; "FIOASYNC"; "FIOCLEX"; "FIOGETOWN"; "FIONBIO"; "FIONCLEX"; "FIONREAD";
   "FIOQSIZE"; "FIOSETOWN"; "FITHAW"; "FITRIM"; "F_LOCK"].

Definition constants_16 : list string :=
  ["FLUSHO"; "FNDELAY"; "FNONBLOCK"; "F_OK"; "FPE_CONDTRAP"; "FPE_FLTDIV"; "FPE_FLTINV";
   "FPE_FLTOVF"; "FPE_FLTRES"; "FPE_FLTSUB"; "FPE_FLTUND"; "FPE_FLTUNK"; "FPE_INTDIV"; "FPE_INTOVF";
   "FP_XSTATE_MAGIC1"; "FP_XSTATE_MAGIC2"; "FP_XSTATE_MAGIC2_SIZE"; "F_RDLCK"; "FS_APPEND_FL";
   "FS_BTREE_FL"; "FS_CASEFOLD_FL"; "FS_COMPRBLK_FL"; "FS_COMPR_FL"; "FSCRYPT_KEY_DESC_PREFIX_SIZE";
   "FSCRYPT_KEY_DESCRIPTOR_SIZE"; "FSCRYPT_KEY_IDENTIFIER_SIZE";
   "FSCRYPT_KEY_REMOVAL_STATUS_FLAG_FILES_BUSY"; "FSCRYPT_KEY_REMOVAL_STATUS_FLAG_OTHER_USERS";
   "FSCRYPT_KEY_SPEC_TYPE_DESCRIPTOR"; "FSCRYPT_KEY_SPEC_TYPE_IDENTIFIER";
   "FSCRYPT_KEY_STATUS_ABSENT"; "FSCRYPT_KEY_STATUS_FLAG_ADDED_BY_SELF";
   "FSCRYPT_KEY_STATUS_INCOMPLETELY_REMOVED"; "FSCRYPT_KEY_STATUS_PRESENT"; "FSCRYPT_MAX_KEY_SIZE";
   "FSCRYPT_MODE_ADIANTUM"; "FSCRYPT_MODE_AES_128_CBC"; "FSCRYPT_MODE_AES_128_CTS";
   "FSCRYPT_MODE_AES_256_CTS"; "FSCRYPT_MODE_AES_256_XTS"; "FSCRYPT_POLICY_FLAG_DIRECT_KEY";
   "FSCRYPT_POLICY_FLAG_IV_INO_LBLK_64"; "FSCRYPT_POLICY_FLAGS_PAD_16";
   "FSCRYPT_POLICY_FLAGS_PAD_32"; "FSCRYPT_POLICY_FLAGS_PAD_4"; "FSCRYPT_POLICY_FLAGS_PAD_8";
   "FSCRYPT_POLICY_FLAGS_PAD_MASK"; "FSCRYPT_POLICY_FLAGS_VALID"; "FSCRYPT_POLICY_V1"].

Definition constants_17 : list string :=
  ["FSCRYPT_POLICY_V2"; "FS_DIRSYNC_FL"; "FS_DIRTY_FL"; "FS_EA_INODE_FL"; "FS_ENCRYPT_FL";
   "FS_ENCRYPTION_MODE_ADIANTUM"; "FS_ENCRYPTION_MODE_AES_128_CBC";
   "FS_ENCRYPTION_MODE_AES_128_CTS"; "FS_ENCRYPTION_MODE_AES_256_CBC";
   "FS_ENCRYPTION_MODE_AES_256_CTS"; "FS_ENCRYPTION_MODE_AES_256_GCM";
   "FS_ENCRYPTION_MODE_AES_256_XTS"; "FS_ENCRYPTION_MODE_INVALID";
   "FS_ENCRYPTION_MODE_SPECK128_256_CTS"; "FS_ENCRYPTION_MODE_SPECK128_256_XTS"; "FS_EOFBLOCKS_FL";
   "F_SETFD"; "F_SETFL"; "F_SETLK"; "F_SETLK64"; "F_SETLKW64"; "F_SETLKW"; "F_SETOWN";
   "FS_EXTENT_FL"; "FS_FL_USER_MODIFIABLE"; "FS_FL_USER_VISIBLE"; "F_SHLCK"; "FS_HUGE_FILE_FL";
   "FS_IMAGIC_FL"; "FS_IMMUTABLE_FL"; "FS_INDEX_FL"; "FS_INLINE_DATA_FL"; "FS_IOC32_GETFLAGS";
   "FS_IOC32_GETVERSION"; "FS_IOC32_SETFLAGS"; "FS_IOC32_SETVERSION"; "FS_IOC_ADD_ENCRYPTION_KEY";
   "FS_IOC_FIEMAP"; "FS_IOC_FSGETXATTR"; "FS_IOC_FSSETXATTR"; "FS_IOC_GET_ENCRYPTION_KEY_STATUS";
   "FS_IOC_GET_ENCRYPTION_NONCE"; "FS_IOC_GET_ENCRYPTION_POLICY_EX"; "FS_IOC_GET_ENCRYPTION_POLICY";
   "FS_IOC_GET_ENCRYPTION_PWSALT"; "FS_IOC_GETFLAGS"; "FS_IOC_GETFSLABEL"; "FS_IOC_GETVERSION";
   "FS_IOC_REMOVE_ENCRYPTION_KEY_ALL_USERS"].

Definition constants_18 : list string :=
  ["FS_IOC_REMOVE_ENCRYPTION_KEY"; "FS_IOC_SET_ENCRYPTION_POLICY"; "FS_IOC_SETFLAGS";
   "FS_IOC_SETFSLABEL"; "FS_IOC_SETVERSION"; "FS_JOURNAL_DATA_FL"; "FS_KEY_DESC_PREFIX";
   "FS_KEY_DESC_PREFIX_SIZE"; "FS_KEY_DESCRIPTOR_SIZE"; "FSLABEL_MAX"; "FS_MAX_KEY_SIZE";
   "FSMOUNT_CLOEXEC"; "FS_NOATIME_FL"; "FS_NOCOMP_FL"; "FS_NOCOW_FL"; "FS_NODUMP_FL";
   "FS_NOTAIL_FL"; "FSOPEN_CLOEXEC"; "FSPICK_CLOEXEC"; "FSPICK_EMPTY_PATH"; "FSPICK_NO_AUTOMOUNT";
   "FSPICK_SYMLINK_NOFOLLOW"; "FS_POLICY_FLAG_DIRECT_KEY"; "FS_POLICY_FLAGS_PAD_16";
   "FS_POLICY_FLAGS_PAD_32"; "FS_POLICY_FLAGS_PAD_4"; "FS_POLICY_FLAGS_PAD_8";
   "FS_POLICY_FLAGS_PAD_MASK"; "FS_POLICY_FLAGS_VALID"; "FS_PROJINHERIT_FL"; "FS_RESERVED_FL";
   "FS_SECRM_FL"; "FS_SYNC_FL"; "FS_TOPDIR_FL"; "FS_UNRM_FL"; "FS_VERITY_FL"; "FS_XFLAG_APPEND";
   "FS_XFLAG_COWEXTSIZE"; "FS_XFLAG_DAX"; "FS_XFLAG_EXTSIZE"; "FS_XFLAG_EXTSZINHERIT";
   "FS_XFLAG_FILESTREAM"; "FS_XFLAG_HASATTR"; "FS_XFLAG_IMMUTABLE"; "FS_XFLAG_NOATIME";
   "FS_XFLAG_NODEFRAG"; "FS_XFLAG_NODUMP"; "FS_XFLAG_NOSYMLINKS"; "FS_XFLAG_PREALLOC"].

Definition constants_19 : list string :=
  ["FS_XFLAG_PROJINHERIT"; "FS_XFLAG_REALTIME"; "FS_XFLAG_RTINHERIT"; "FS_XFLAG_SYNC"; "FTD_MSG";
   "F_TEST"; "F_TLOCK"; "F_ULOCK"; "F_UNLCK"; "F_WRLCK"; "HUGETLB_FLAG_ENCODE_MASK";
   "HUGETLB_FLAG_ENCODE_SHIFT"; "HUPCL"; "IBSHIFT"; "ICANON"; "ICRNL"; "IEXTEN"; "IGNBRK"; "IGNCR";
   "IGNPAR"; "ILL_BADIADDR"; "ILL_BADSTK"; "ILL_COPROC"; "ILL_ILLADR"; "ILL_ILLOPC"; "ILL_ILLOPN";
   "ILL_ILLTRP"; "ILL_PRVOPC"; "ILL_PRVREG"; "IMAXBEL"; "INLCR"; "INPCK"; "INR_OPEN_CUR";
   "INR_OPEN_MAX"; "ISIG"; "ISTRIP"; "IUCLC"; "IUTF8"; "IXANY"; "IXOFF"; "IXON"; "LINK_MAX";
   "LITTLE_ENDIAN"; "LOCK_EX"; "LOCK_NB"; "LOCK_SH"; "LOCK_UN"; "LO_CRYPT_BLOW";
   "LO_CRYPT_CAST128"].

Definition constants_20 : list string :=
  ["LO_CRYPT_CRYPTOAPI"; "LO_CRYPT_DES"; "LO_CRYPT_DUMMY"; "LO_CRYPT_FISH2"; "LO_CRYPT_IDEA";
   "LO_CRYPT_NONE"; "LO_CRYPT_SKIPJACK"; "LO_CRYPT_XOR"; "LO_KEY_SIZE"; "LO_NAME_SIZE";
   "LOOP_CHANGE_FD"; "LOOP_CLR_FD"; "LOOP_CTL_ADD"; "LOOP_CTL_GET_FREE"; "LOOP_CTL_REMOVE";
   "LOOP_GET_STATUS"; "LOOP_GET_STATUS64"; "LOOP_SET_BLOCK_SIZE"; "LOOP_SET_CAPACITY";
   "LOOP_SET_DIRECT_IO"; "LOOP_SET_FD"; "LOOP_SET_STATUS"; "LOOP_SET_STATUS64"; "MADV_COLD";
   "MADV_DODUMP"; "MADV_DOFORK"; "MADV_DONTDUMP"; "MADV_DONTFORK"; "MADV_DONTNEED"; "MADV_FREE";
   "MADV_HUGEPAGE"; "MADV_HWPOISON"; "MADV_KEEPONFORK"; "MADV_MERGEABLE"; "MADV_NOHUGEPAGE";
   "MADV_NORMAL"; "MADV_PAGEOUT"; "MADV_RANDOM"; "MADV_REMOVE"; "MADV_SEQUENTIAL";
   "MADV_SOFT_OFFLINE"; "MADV_UNMERGEABLE"; "MADV_WILLNEED"; "MADV_WIPEONFORK"; "MAP_32BIT";
   "MAP_ANON"; "MAP_ANONYMOUS"; "MAP_DENYWRITE"; "MAP_DENYWRITE"].

Definition constants_21 : list string :=
  ["MAP_EXECUTABLE"; "MAP_EXECUTABLE"; "MAP_FILE"; "MAP_FIXED"; "MAP_FIXED_NOREPLACE";
   "MAP_GROWSDOWN"; "MAP_GROWSDOWN"; "MAP_HUGE_16GB"; "MAP_HUGE_16MB"; "MAP_HUGE_1GB";
   "MAP_HUGE_1MB"; "MAP_HUGE_256MB"; "MAP_HUGE_2GB"; "MAP_HUGE_2MB"; "MAP_HUGE_32MB";
   "MAP_HUGE_512KB"; "MAP_HUGE_512MB"; "MAP_HUGE_64KB"; "MAP_HUGE_8MB"; "MAP_HUGE_MASK";
   "MAP_HUGE_MASK"; "MAP_HUGE_SHIFT"; "MAP_HUGE_SHIFT"; "MAP_HUGETLB"; "MAP_HUGETLB"; "MAP_LOCKED";
   "MAP_LOCKED"; "MAP_NONBLOCK"; "MAP_NONBLOCK"; "MAP_NORESERVE"; "MAP_NORESERVE"; "MAP_POPULATE";
   "MAP_POPULATE"; "MAP_PRIVATE"; "MAP_SHARED"; "MAP_SHARED_VALIDATE"; "MAP_STACK"; "MAP_STACK";
   "MAP_SYNC"; "MAP_SYNC"; "MAP_TYPE"; "MAP_UNINITIALIZED"; "MAX_CANON"; "MAX_INPUT";
   "MAX_LO_CRYPT"; "MCL_CURRENT"; "MCL_FUTURE"; "MCL_ONFAULT"; "MINIJAIL_ARCH_BITS"].

Definition constants_22 : list string :=
  ["MINIJAIL_ARCH_NR"; "MINSIGSTKSZ"; "MLOCK_ONFAULT"; "MOUNT_ATTR__ATIME"; "MOUNT_ATTR_NOATIME";
   "MOUNT_ATTR_NODEV"; "MOUNT_ATTR_NODIRATIME"; "MOUNT_ATTR_NOEXEC"; "MOUNT_ATTR_NOSUID";
   "MOUNT_ATTR_RDONLY"; "MOUNT_ATTR_RELATIME"; "MOUNT_ATTR_STRICTATIME"; "MOVE_MOUNT_F_AUTOMOUNTS";
   "MOVE_MOUNT_F_EMPTY_PATH"; "MOVE_MOUNT_F_SYMLINKS"; "MOVE_MOUNT__MASK";
   "MOVE_MOUNT_T_AUTOMOUNTS"; "MOVE_MOUNT_T_EMPTY_PATH"; "MOVE_MOUNT_T_SYMLINKS";
   "MREMAP_DONTUNMAP"; "MREMAP_FIXED"; "MREMAP_MAYMOVE"; "MS_ASYNC"; "MS_BIND"; "MS_DIRSYNC";
   "MSG_BATCH"; "MSG_CMSG_CLOEXEC"; "MSG_CONFIRM"; "MSG_CTRUNC"; "MSG_DONTROUTE"; "MSG_DONTWAIT";
   "MSG_EOR"; "MSG_ERRQUEUE"; "MSG_FASTOPEN"; "MSG_FIN"; "MSG_MORE"; "MSG_NOSIGNAL"; "MSG_OOB";
   "MSG_PEEK"; "MSG_PROXY"; "MSG_RST"; "MSG_SYN"; "MSG_TRUNC"; "MSG_WAITALL"; "MSG_WAITFORONE";
   "MSG_ZEROCOPY"; "MS_INVALIDATE"; "MS_MANDLOCK"; "MS_MGC_MSK"].

Definition constants_23 : list string :=
  ["MS_MGC_VAL"; "MS_MOVE"; "MS_NOATIME"; "MS_NODEV"; "MS_NODIRATIME"; "MS_NOEXEC"; "MS_NOSUID";
   "MS_RDONLY"; "MS_REC"; "MS_REMOUNT"; "MS_SILENT"; "MS_SYNC"; "MS_SYNCHRONOUS"; "MS_VERBOSE";
   "NAME_MAX"; "NCC"; "NCCS"; "NFDBITS"; "NFF"; "NGREG"; "NGROUPS_MAX"; "NL0"; "NL1"; "NLDLY";
   "NOFLSH"; "NPROTO"; "NR_FILE"; "NR_OPEN"; "NSIG"; "O_ACCMODE"; "O_APPEND"; "O_ASYNC";
   "O_CLOEXEC"; "O_CREAT"; "OCRNL"; "O_DIRECTORY"; "O_DSYNC"; "O_EXCL"; "OFDEL"; "OFILL"; "O_FSYNC";
   "OLCUC"; "O_NDELAY"; "ONLCR"; "ONLRET"; "ONOCR"; "O_NOCTTY"; "O_NOFOLLOW"; "O_NONBLOCK"].

Definition constants_24 : list string :=
  ["OPEN_TREE_CLOEXEC"; "OPEN_TREE_CLONE"; "OPOST"; "O_RDONLY"; "O_RDWR"; "O_RSYNC"; "O_SYNC";
   "O_TRUNC"; "OVERCOMMIT_ALWAYS"; "OVERCOMMIT_GUESS"; "OVERCOMMIT_NEVER"; "O_WRONLY"; "PARENB";
   "PARMRK"; "PARODD"; "PATH_MAX"; "PDP_ENDIAN"; "PENDIN"; "PF_ALG"; "PF_APPLETALK"; "PF_ASH";
   "PF_ATMPVC"; "PF_ATMSVC"; "PF_AX25"; "PF_BLUETOOTH"; "PF_BRIDGE"; "PF_CAIF"; "PF_CAN";
   "PF_ECONET"; "PF_FILE"; "PF_IB"; "PF_IEEE802154"; "PF_INET"; "PF_INET6"; "PF_IPX"; "PF_IRDA";
   "PF_ISDN"; "PF_IUCV"; "PF_KCM"; "PF_KEY"; "PF_LLC"; "PF_LOCAL"; "PF_MAX"; "PF_MPLS";
   "PF_NETBEUI"; "PF_NETLINK"; "PF_NETROM"; "PF_NFC"; "PF_PACKET"].

Definition constants_25 : list string :=
  ["PF_PHONET"; "PF_PPPOX"; "PF_QIPCRTR"; "PF_RDS"; "PF_ROSE"; "PF_ROUTE"; "PF_RXRPC";
   "PF_SECURITY"; "PF_SMC"; "PF_SNA"; "PF_TIPC"; "PF_UNIX"; "PF_UNSPEC"; "PF_VSOCK"; "PF_WANPIPE";
   "PF_X25"; "PF_XDP"; "PIPE_BUF"; "PKEY_DISABLE_ACCESS"; "PKEY_DISABLE_WRITE"; "POLL_ERR";
   "POLL_HUP"; "POLL_IN"; "POLL_MSG"; "POLL_OUT"; "POLL_PRI"; "PORT_16450"; "PORT_16550";
   "PORT_16550A"; "PORT_16650"; "PORT_16650V2"; "PORT_16654"; "PORT_16750"; "PORT_16850";
   "PORT_16C950"; "PORT_8250"; "PORT_CIRRUS"; "PORT_MAX"; "PORT_RSA"; "PORT_STARTECH";
   "PORT_UNKNOWN"; "POSIX_FADV_DONTNEED"; "POSIX_FADV_NOREUSE"; "POSIX_FADV_NORMAL";
   "POSIX_FADV_RANDOM"; "POSIX_FADV_SEQUENTIAL"; "POSIX_FADV_WILLNEED"; "POSIX_MADV_DONTNEED";
   "POSIX_MADV_NORMAL"].

Definition constants_26 : list string :=
  ["POSIX_MADV_RANDOM"; "POSIX_MADV_SEQUENTIAL"; "POSIX_MADV_WILLNEED"; "PR_CAP_AMBIENT";
   "PR_CAP_AMBIENT_CLEAR_ALL"; "PR_CAP_AMBIENT_IS_SET"; "PR_CAP_AMBIENT_LOWER";
   "PR_CAP_AMBIENT_RAISE"; "PR_CAPBSET_DROP"; "PR_CAPBSET_READ"; "PR_ENDIAN_BIG";
   "PR_ENDIAN_LITTLE"; "PR_ENDIAN_PPC_LITTLE"; "PR_FPEMU_NOPRINT"; "PR_FPEMU_SIGFPE";
   "PR_FP_EXC_ASYNC"; "PR_FP_EXC_DISABLED"; "PR_FP_EXC_DIV"; "PR_FP_EXC_INV"; "PR_FP_EXC_NONRECOV";
   "PR_FP_EXC_OVF"; "PR_FP_EXC_PRECISE"; "PR_FP_EXC_RES"; "PR_FP_EXC_SW_ENABLE"; "PR_FP_EXC_UND";
   "PR_GET_CHILD_SUBREAPER"; "PR_GET_DUMPABLE"; "PR_GET_ENDIAN"; "PR_GET_FPEMU"; "PR_GET_FPEXC";
   "PR_GET_FP_MODE"; "PR_GET_IO_FLUSHER"; "PR_GET_KEEPCAPS"; "PR_GET_NAME"; "PR_GET_NO_NEW_PRIVS";
   "PR_GET_PDEATHSIG"; "PR_GET_SECCOMP"; "PR_GET_SECUREBITS"; "PR_GET_SPECULATION_CTRL";
   "PR_GET_TAGGED_ADDR_CTRL"; "PR_GET_THP_DISABLE"; "PR_GET_TID_ADDRESS"; "PR_GET_TIMERSLACK";
   "PR_GET_TIMING"; "PR_GET_TSC"; "PR_GET_UNALIGN"; "PRIO_MAX"; "PRIO_PGRP"; "PRIO_PROCESS"].

Definition constants_27 : list string :=
  ["PRIO_USER"; "PR_MCE_KILL"; "PR_MCE_KILL_CLEAR"; "PR_MCE_KILL_DEFAULT"; "PR_MCE_KILL_EARLY";
   "PR_MCE_KILL_GET"; "PR_MCE_KILL_LATE"; "PR_MCE_KILL_SET"; "PR_MPX_DISABLE_MANAGEMENT";
   "PR_MPX_ENABLE_MANAGEMENT"; "PROT_EXEC"; "PROT_GROWSDOWN"; "PROT_GROWSUP"; "PROT_NONE";
   "PROT_READ"; "PROT_SEM"; "PROT_WRITE"; "PR_PAC_RESET_KEYS"; "PR_SET_CHILD_SUBREAPER";
   "PR_SET_DUMPABLE"; "PR_SET_ENDIAN"; "PR_SET_FPEMU"; "PR_SET_FPEXC"; "PR_SET_FP_MODE";
   "PR_SET_IO_FLUSHER"; "PR_SET_KEEPCAPS"; "PR_SET_MM"; "PR_SET_MM_ARG_END"; "PR_SET_MM_ARG_START";
   "PR_SET_MM_AUXV"; "PR_SET_MM_BRK"; "PR_SET_MM_END_CODE"; "PR_SET_MM_END_DATA";
   "PR_SET_MM_ENV_END"; "PR_SET_MM_ENV_START"; "PR_SET_MM_EXE_FILE"; "PR_SET_MM_MAP";
   "PR_SET_MM_MAP_SIZE"; "PR_SET_MM_START_BRK"; "PR_SET_MM_START_CODE"; "PR_SET_MM_START_DATA";
   "PR_SET_MM_START_STACK"; "PR_SET_NAME"; "PR_SET_NO_NEW_PRIVS"; "PR_SET_PDEATHSIG";
   "PR_SET_PTRACER"; "PR_SET_SECCOMP"; "PR_SET_SECUREBITS"; "PR_SET_SPECULATION_CTRL"].

Definition constants_28 : list string :=
  ["PR_SET_TAGGED_ADDR_CTRL"; "PR_SET_THP_DISABLE"; "PR_SET_TIMERSLACK"; "PR_SET_TIMING";
   "PR_SET_TSC"; "PR_SET_UNALIGN"; "PR_SPEC_INDIRECT_BRANCH"; "PR_SPEC_NOT_AFFECTED";
   "PR_SPEC_STORE_BYPASS"; "PR_SVE_GET_VL"; "PR_SVE_SET_VL"; "PR_SVE_VL_LEN_MASK";
   "PR_TASK_PERF_EVENTS_DISABLE"; "PR_TASK_PERF_EVENTS_ENABLE"; "PR_TIMING_STATISTICAL";
   "PR_TIMING_TIMESTAMP"; "PR_TSC_ENABLE"; "PR_TSC_SIGSEGV"; "PR_UNALIGN_NOPRINT";
   "PR_UNALIGN_SIGBUS"; "RLIMIT_AS"; "RLIMIT_CORE"; "RLIMIT_CPU"; "RLIMIT_DATA"; "RLIMIT_FSIZE";
   "RLIMIT_LOCKS"; "RLIMIT_MEMLOCK"; "RLIMIT_MSGQUEUE"; "RLIMIT_NICE"; "RLIMIT_NLIMITS";
   "RLIMIT_NOFILE"; "RLIMIT_NPROC"; "RLIMIT_OFILE"; "RLIMIT_RSS"; "RLIMIT_RTPRIO"; "RLIMIT_RTTIME";
   "RLIMIT_SIGPENDING"; "RLIMIT_STACK"; "RLIM_NLIMITS"; "RLIM_SAVED_CUR"; "RLIM_SAVED_MAX"; "R_OK";
   "RTSXOFF"; "RUSAGE_CHILDREN"; "RUSAGE_SELF"; "SA_INTERRUPT"; "SA_NOCLDSTOP"; "SA_NOCLDWAIT";
   "SA_NODEFER"].

Definition constants_29 : list string :=
  ["SA_NOMASK"; "SA_ONESHOT"; "SA_ONSTACK"; "SA_RESETHAND"; "SA_RESTART"; "SA_SIGINFO"; "SA_STACK";
   "S_BLKSIZE"; "SCHED_BATCH"; "SCHED_DEADLINE"; "SCHED_FIFO"; "SCHED_FLAG_DL_OVERRUN";
   "SCHED_FLAG_KEEP_PARAMS"; "SCHED_FLAG_KEEP_POLICY"; "SCHED_FLAG_RECLAIM";
   "SCHED_FLAG_RESET_ON_FORK"; "SCHED_FLAG_UTIL_CLAMP_MAX"; "SCHED_FLAG_UTIL_CLAMP_MIN";
   "SCHED_IDLE"; "SCHED_NORMAL"; "SCHED_RESET_ON_FORK"; "SCHED_RR"; "SCM_RIGHTS";
   "SCM_TIMESTAMPING_OPT_STATS"; "SCM_TIMESTAMPING_PKTINFO"; "SCM_TIMESTAMPING"; "SCM_TIMESTAMPNS";
   "SCM_TIMESTAMP"; "SCM_TXTIME"; "SCM_WIFI_STATUS"; "SEEK_CUR"; "SEEK_DATA"; "SEEK_END";
   "SEEK_HOLE"; "SEEK_MAX"; "SEEK_SET"; "SEGV_ACCADI"; "SEGV_ACCERR"; "SEGV_ADIDERR";
   "SEGV_ADIPERR"; "SEGV_BNDERR"; "SEGV_MAPERR"; "SEGV_PKUERR"; "SERIAL_IO_AU"; "SERIAL_IO_HUB6";
   "SERIAL_IO_MEM16"; "SERIAL_IO_MEM"; "SERIAL_IO_MEM32"; "SERIAL_IO_MEM32BE"].

Definition constants_30 : list string :=
  ["SERIAL_IO_PORT"; "SERIAL_IO_TSI"; "SHUT_RD"; "SHUT_RDWR"; "SHUT_WR"; "SI_ASYNCIO"; "SI_ASYNCNL";
   "SI_DETHREAD"; "S_IEXEC"; "S_IFBLK"; "S_IFCHR"; "S_IFDIR"; "S_IFIFO"; "S_IFLNK"; "S_IFMT";
   "S_IFREG"; "S_IFSOCK"; "SIGABRT"; "SIGALRM"; "SIGBUS"; "SIGBUS"; "SIGCHLD"; "SIGCHLD"; "SIGCLD";
   "SIGCONT"; "SIGCONT"; "SIGEV_NONE"; "SIGEV_SIGNAL"; "SIGEV_THREAD_ID"; "SIGEV_THREAD"; "SIGFPE";
   "SIGHUP"; "SIGILL"; "SIGINT"; "SIGIO"; "SIGIOT"; "SIGKILL"; "SIGPIPE"; "SIGPOLL"; "SIGPOLL";
   "SIGPROF"; "SIGPWR"; "SIGQUIT"; "SIGSEGV"; "SIGSTKFLT"; "SIGSTKSZ"; "SIGSTOP"; "SIGSTOP";
   "SIGSYS"].

Definition constants_31 : list string :=
  ["SIGSYS"; "SIGTERM"; "SIGTRAP"; "SIGTSTP"; "SIGTSTP"; "SIGTTIN"; "SIGTTOU"; "SIGURG"; "SIGURG";
   "SIGUSR1"; "SIGUSR1"; "SIGUSR2"; "SIGUSR2"; "SIGVTALRM"; "SIGWINCH"; "SIGXCPU"; "SIGXFSZ";
   "SI_KERNEL"; "SI_MESGQ"; "SIOCADDDLCI"; "SIOCADDMULTI"; "SIOCADDRT"; "SIOCATMARK";
   "SIOCBONDCHANGEACTIVE"; "SIOCBONDENSLAVE"; "SIOCBONDINFOQUERY"; "SIOCBONDRELEASE";
   "SIOCBONDSETHWADDR"; "SIOCBONDSLAVEINFOQUERY"; "SIOCBRADDBR"; "SIOCBRADDIF"; "SIOCBRDELBR";
   "SIOCBRDELIF"; "SIOCDARP"; "SIOCDELDLCI"; "SIOCDELMULTI"; "SIOCDELRT"; "SIOCDEVPRIVATE";
   "SIOCDIFADDR"; "SIOCDRARP"; "SIOCETHTOOL"; "SIOCGARP"; "SIOCGHWTSTAMP"; "SIOCGIFADDR";
   "SIOCGIFBR"; "SIOCGIFBRDADDR"; "SIOCGIFCONF"; "SIOCGIFCOUNT"; "SIOCGIFDSTADDR"].

Definition constants_32 : list string :=
  ["SIOCGIFENCAP"; "SIOCGIFFLAGS"; "SIOCGIFHWADDR"; "SIOCGIFINDEX"; "SIOCGIFMAP"; "SIOCGIFMEM";
   "SIOCGIFMETRIC"; "SIOCGIFMTU"; "SIOCGIFNAME"; "SIOCGIFNETMASK"; "SIOCGIFPFLAGS"; "SIOCGIFSLAVE";
   "SIOCGIFTXQLEN"; "SIOCGIFVLAN"; "SIOCGMIIPHY"; "SIOCGMIIREG"; "SIOCGPGRP"; "SIOCGRARP";
   "SIOCGSKNS"; "SIOCGSTAMP"; "SIOCGSTAMP_NEW"; "SIOCGSTAMPNS"; "SIOCGSTAMPNS_NEW"; "SIOCINQ";
   "SIOCOUTQNSD"; "SIOCOUTQ"; "SIOCPROTOPRIVATE"; "SIOCRTMSG"; "SIOCSARP"; "SIOCSHWTSTAMP";
   "SIOCSIFADDR"; "SIOCSIFBR"; "SIOCSIFBRDADDR"; "SIOCSIFDSTADDR"; "SIOCSIFENCAP"; "SIOCSIFFLAGS";
   "SIOCSIFHWADDR"; "SIOCSIFHWBROADCAST"; "SIOCSIFLINK"; "SIOCSIFMAP"; "SIOCSIFMEM";
   "SIOCSIFMETRIC"; "SIOCSIFMTU"; "SIOCSIFNAME"; "SIOCSIFNETMASK"; "SIOCSIFPFLAGS"; "SIOCSIFSLAVE";
   "SIOCSIFTXQLEN"; "SIOCSIFVLAN"].

Definition constants_33 : list string :=
  ["SIOCSMIIREG"; "SIOCSPGRP"; "SIOCSRARP"; "SIOCWANDEV"; "SIOGIFINDEX"; "SI_QUEUE"; "S_IREAD";
   "S_IRUSR"; "S_ISGID"; "SI_SIGIO"; "S_ISUID"; "S_ISVTX"; "SI_TIMER"; "SI_TKILL"; "SI_USER";
   "S_IWRITE"; "S_IWUSR"; "S_IXUSR"; "SO_ACCEPTCONN"; "SO_ATTACH_BPF"; "SO_ATTACH_FILTER";
   "SO_ATTACH_REUSEPORT_CBPF"; "SO_ATTACH_REUSEPORT_EBPF"; "SO_BINDTODEVICE"; "SO_BINDTOIFINDEX";
   "SO_BPF_EXTENSIONS"; "SO_BROADCAST"; "SO_BSDCOMPAT"; "SO_BUSY_POLL"; "SOCK_CLOEXEC"; "SOCK_DCCP";
   "SOCK_DGRAM"; "SOCK_IOC_TYPE"; "SOCK_NONBLOCK"; "SOCK_PACKET"; "SOCK_RAW"; "SOCK_RDM";
   "SOCK_SEQPACKET"; "SOCK_STREAM"; "SO_CNX_ADVICE"; "SO_COOKIE"; "SO_DEBUG"; "SO_DETACH_BPF";
   "SO_DETACH_FILTER"; "SO_DETACH_REUSEPORT_BPF"; "SO_DOMAIN"; "SO_DONTROUTE"; "SO_ERROR";
   "SO_GET_FILTER"].

Definition constants_34 : list string :=
  ["SO_INCOMING_CPU"; "SO_INCOMING_NAPI_ID"; "SO_KEEPALIVE"; "SOL_AAL"; "SOL_ALG"; "SOL_ATM";
   "SOL_BLUETOOTH"; "SOL_CAIF"; "SOL_DCCP"; "SOL_DECNET"; "SO_LINGER"; "SOL_IRDA"; "SOL_IUCV";
   "SOL_KCM"; "SOL_LLC"; "SOL_NETBEUI"; "SOL_NETLINK"; "SOL_NFC"; "SO_LOCK_FILTER"; "SOL_PACKET";
   "SOL_PNPIPE"; "SOL_PPPOL2TP"; "SOL_RAW"; "SOL_RDS"; "SOL_RXRPC"; "SOL_SOCKET"; "SOL_TIPC";
   "SOL_TLS"; "SOL_X25"; "SOL_XDP"; "SO_MARK"; "SOMAXCONN"; "SO_MAX_PACING_RATE"; "SO_MEMINFO";
   "SO_NO_CHECK"; "SO_NOFCS"; "SO_OOBINLINE"; "SO_PASSCRED"; "SO_PASSSEC"; "SO_PEEK_OFF";
   "SO_PEERCRED"; "SO_PEERGROUPS"; "SO_PEERNAME"; "SO_PEERSEC"; "SO_PRIORITY"; "SO_PROTOCOL";
   "SO_RCVBUF"; "SO_RCVBUFFORCE"; "SO_RCVLOWAT"].

Definition constants_35 : list string :=
  ["SO_RCVTIMEO_NEW"; "SO_RCVTIMEO_OLD"; "SO_RCVTIMEO"; "SO_REUSEADDR"; "SO_REUSEPORT";
   "SO_RXQ_OVFL"; "SO_SECURITY_AUTHENTICATION"; "SO_SECURITY_ENCRYPTION_NETWORK";
   "SO_SECURITY_ENCRYPTION_TRANSPORT"; "SO_SELECT_ERR_QUEUE"; "SO_SNDBUF"; "SO_SNDBUFFORCE";
   "SO_SNDLOWAT"; "SO_SNDTIMEO_NEW"; "SO_SNDTIMEO_OLD"; "SO_SNDTIMEO"; "SO_TIMESTAMPING_NEW";
   "SO_TIMESTAMPING_OLD"; "SO_TIMESTAMPING"; "SO_TIMESTAMP_NEW"; "SO_TIMESTAMPNS_NEW";
   "SO_TIMESTAMPNS_OLD"; "SO_TIMESTAMPNS"; "SO_TIMESTAMP_OLD"; "SO_TIMESTAMP"; "SO_TXTIME";
   "SO_TYPE"; "SO_WIFI_STATUS"; "SO_ZEROCOPY"; "SS_DISABLE"; "SS_ONSTACK";
   "SYNC_FILE_RANGE_WAIT_AFTER"; "SYNC_FILE_RANGE_WAIT_BEFORE"; "SYNC_FILE_RANGE_WRITE";
   "SYS_ACCEPT4"; "SYS_ACCEPT"; "SYS_BIND"; "SYS_CONNECT"; "SYS_GETPEERNAME"; "SYS_GETSOCKNAME";
   "SYS_GETSOCKOPT"; "SYS_LISTEN"; "SYS_RECV"; "SYS_RECVFROM"; "SYS_RECVMMSG"; "SYS_RECVMSG";
   "SYS_SEND"; "SYS_SENDMMSG"; "SYS_SENDMSG"].

Definition constants_36 : list string :=
  ["SYS_SENDTO"; "SYS_SETSOCKOPT"; "SYS_SHUTDOWN"; "SYS_SOCKET"; "SYS_SOCKETPAIR"; "TAB0"; "TAB1";
   "TAB2"; "TAB3"; "TABDLY"; "TCFLSH"; "TCGETA"; "TCGETS"; "TCGETS2"; "TCGETX"; "TCIFLUSH";
   "TCIOFF"; "TCIOFLUSH"; "TCION"; "TCOFLUSH"; "TCOOFF"; "TCOON"; "TCSADRAIN"; "TCSAFLUSH";
   "TCSANOW"; "TCSBRK"; "TCSBRKP"; "TCSETA"; "TCSETAF"; "TCSETAW"; "TCSETS"; "TCSETS2"; "TCSETSF";
   "TCSETSF2"; "TCSETSW"; "TCSETSW2"; "TCSETX"; "TCSETXF"; "TCSETXW"; "TCXONC"; "TIOCCBRK";
   "TIOCCONS"; "TIOCEXCL"; "TIOCGDEV"; "TIOCGETD"; "TIOCGEXCL"; "TIOCGICOUNT"; "TIOCGISO7816";
   "TIOCGLCKTRMIOS"].

Definition constants_37 : list string :=
  ["TIOCGPGRP"; "TIOCGPKT"; "TIOCGPTLCK"; "TIOCGPTN"; "TIOCGPTPEER"; "TIOCGRS485"; "TIOCGSERIAL";
   "TIOCGSID"; "TIOCGSOFTCAR"; "TIOCGWINSZ"; "TIOCINQ"; "TIOCLINUX"; "TIOCMBIC"; "TIOCMBIS";
   "TIOCM_CAR"; "TIOCM_CD"; "TIOCM_CTS"; "TIOCM_DSR"; "TIOCM_DTR"; "TIOCMGET"; "TIOCMIWAIT";
   "TIOCM_LE"; "TIOCM_LOOP"; "TIOCM_OUT1"; "TIOCM_OUT2"; "TIOCM_RI"; "TIOCM_RNG"; "TIOCM_RTS";
   "TIOCMSET"; "TIOCM_SR"; "TIOCM_ST"; "TIOCNOTTY"; "TIOCNXCL"; "TIOCOUTQ"; "TIOCPKT";
   "TIOCPKT_DATA"; "TIOCPKT_DOSTOP"; "TIOCPKT_FLUSHREAD"; "TIOCPKT_FLUSHWRITE"; "TIOCPKT_IOCTL";
   "TIOCPKT_NOSTOP"; "TIOCPKT_START"; "TIOCPKT_STOP"; "TIOCSBRK"; "TIOCSCTTY"; "TIOCSERCONFIG";
   "TIOCSERGETLSR"; "TIOCSERGETMULTI"; "TIOCSERGSTRUCT"].

Definition constants_38 : list string :=
  ["TIOCSERGWILD"; "TIOCSERSETMULTI"; "TIOCSERSWILD"; "TIOCSER_TEMT"; "TIOCSETD"; "TIOCSIG";
   "TIOCSISO7816"; "TIOCSLCKTRMIOS"; "TIOCSPGRP"; "TIOCSPTLCK"; "TIOCSRS485"; "TIOCSSERIAL";
   "TIOCSSOFTCAR"; "TIOCSTI"; "TIOCSWINSZ"; "TIOCVHANGUP"; "TOSTOP"; "UART_CLEAR_FIFO";
   "UART_NATSEMI"; "UART_STARTECH"; "UART_USE_FIFO"; "VDISCARD"; "VEOF"; "VEOL"; "VEOL2"; "VERASE";
   "VINTR"; "VKILL"; "VLNEXT"; "VMIN"; "VQUIT"; "VREPRINT"; "VSTART"; "VSTOP"; "VSUSP"; "VSWTC";
   "VT0"; "VT1"; "VTDLY"; "VTIME"; "VWERASE"; "WCHAR_MAX"; "WCHAR_MIN"; "W_OK"; "XATTR_LIST_MAX";
   "XATTR_NAME_MAX"; "XATTR_SIZE_MAX"; "XCASE"; "X_OK"].

Definition constants_39 : list string :=
  ["XTABS"].

Definition constant_names : list string :=
  constants_1 ++ constants_2 ++ constants_3 ++ constants_4 ++ constants_5 ++ constants_6 ++
  constants_7 ++ constants_8 ++ constants_9 ++ constants_10 ++ constants_11 ++ constants_12 ++
  constants_13 ++ constants_14 ++ constants_15 ++ constants_16 ++ constants_17 ++ constants_18 ++
  constants_19 ++ constants_20 ++ constants_21 ++ constants_22 ++ constants_23 ++ constants_24 ++
  constants_25 ++ constants_26 ++ constants_27 ++ constants_28 ++ constants_29 ++ constants_30 ++
  constants_31 ++ constants_32 ++ constants_33 ++ constants_34 ++ constants_35 ++ constants_36 ++
  constants_37 ++ constants_38 ++ constants_39.

(** ** The tables *)

Section Tables.
(** The macros after the headers, with their values. *)
Variable macro : string → option Z.

(** [#ifdef __NR_name] [{ "name", __NR_name },] [#endif] *)
Definition syscall_entry (name : string) : option (cstr * Z) :=
  nr ← macro ("__NR_" +:+ name); Some (str name, nr).

Definition x86_syscall_table : list (cstr * Z) := omap syscall_entry syscall_names.

(** [#ifdef NAME] [{ "NAME", (unsigned long) NAME },] [#endif] *)
Definition constant_entry (name : string) : option (cstr * Z) :=
  v ← macro name; Some (str name, u64 v).

Definition x86_constant_table : list (cstr * Z) := omap constant_entry constant_names.
End Tables.
