(* ===== verification/Heap.v ===== *)
(** * Memory

    C objects that are reached through pointers: a heap maps addresses to objects,
    an access through NULL or to an object that is not there is undefined, and an
    object that is allocated is a new one.  A program over the heap is compared with
    the function on values that it implements: [sim] is a simulation with the frame
    built in, so that what a program does not own it does not change. *)

From AAC_tactics Require Import AAC.
From S2P Require Import Prelude.

Abbreviation loc := positive.
Abbreviation heap V := (gmap loc V).

Definition hm (V A : Type) : Type := heap V → outcome (A * heap V).

#[export] Instance hm_ret {V} : MRet (hm V) := λ A a h, Ret (a, h).
#[export] Instance hm_bind {V} : MBind (hm V) := λ A B f m h, '(a, h) ← m h; f a h.

Section Heap.
Context {V : Type}.

Definition load (l : loc) : hm V V :=
  λ h, match h !! l with Some v => Ret (v, h) | None => Undef end.
Definition alloc (v : V) : hm V loc :=
  λ h, let l := fresh (dom h) in Ret (l, <[l := v]> h).
Definition free (l : loc) : hm V unit :=
  λ h, match h !! l with Some _ => Ret (tt, delete l h) | None => Undef end.

(** Change one object. *)
Definition update (l : loc) (f : V → V) : hm V unit :=
  λ h, match h !! l with Some v => Ret (tt, <[l := f v]> h) | None => Undef end.

(** A pointer that is followed. *)
Definition target (p : option loc) : hm V loc :=
  λ h, match p with Some l => Ret (l, h) | None => Undef end.

Definition undefined {A} : hm V A := λ _, Undef.

(** A step that does not use the heap. *)
Definition pure_ {A} (o : outcome A) : hm V A := λ h, a ← o; Ret (a, h).

(** ** Assertions *)

Definition hprop : Type := heap V → Prop.

Definition emp : hprop := λ h, h = ∅.
Definition pts (l : loc) (v : V) : hprop := λ h, h = {[l := v]}.
Definition sep (P Q : hprop) : hprop := λ h, ∃ h1 h2, h = h1 ∪ h2 ∧ h1 ##ₘ h2 ∧ P h1 ∧ Q h2.
Definition hpure (φ : Prop) : hprop := λ h, φ ∧ h = ∅.
Definition hequiv (P Q : hprop) : Prop := ∀ h, P h ↔ Q h.

End Heap.

Arguments hprop V : clear implicits.

Declare Scope heap_scope.
Delimit Scope heap_scope with heap.
Bind Scope heap_scope with hprop.
Notation "l ↦ v" := (pts l v) (at level 20) : heap_scope.
Notation "P ∗ Q" := (sep P Q) (at level 80, right associativity) : heap_scope.
Notation "P ≡h Q" := (hequiv P Q) (at level 85, no associativity) : heap_scope.
Local Open Scope heap_scope.

Section Laws.
Context {V : Type}.
Implicit Type P : hprop V.

#[export] Instance hequiv_equivalence : Equivalence (@hequiv V).
Proof. split; [done|intros P Q H h; symmetry; apply H|intros P Q R H1 H2 h; etrans; [apply H1|apply H2]]. Qed.

#[export] Instance sep_proper : Proper (hequiv ==> hequiv ==> hequiv) (@sep V).
Proof. intros P P' HP Q Q' HQ h. split; intros (h1 & h2 & ? & ? & ?%HP & ?%HQ); by exists h1, h2. Qed.

Lemma sep_comm P Q : P ∗ Q ≡h Q ∗ P.
Proof.
  intros h. split; intros (h1 & h2 & -> & Hd & H1 & H2); exists h2, h1;
    (split_and!; [by apply map_union_comm|done|done|done]).
Qed.

Lemma sep_assoc P Q R : (P ∗ Q) ∗ R ≡h P ∗ (Q ∗ R).
Proof.
  intros h. split.
  - intros (h12 & h3 & -> & Hd & (h1 & h2 & -> & Hd' & H1 & H2) & H3).
    apply map_disjoint_union_l in Hd as [Hd1 Hd2].
    exists h1, (h2 ∪ h3). split_and!; [by rewrite (assoc_L (∪))|by apply map_disjoint_union_r_2|done|].
    by exists h2, h3.
  - intros (h1 & h23 & -> & Hd & H1 & (h2 & h3 & -> & Hd' & H2 & H3)).
    apply map_disjoint_union_r in Hd as [Hd1 Hd2].
    exists (h1 ∪ h2), h3. split_and!; [by rewrite (assoc_L (∪))|by apply map_disjoint_union_l_2| |done].
    by exists h1, h2.
Qed.

Lemma sep_emp P : P ∗ emp ≡h P.
Proof.
  intros h. split.
  - intros (h1 & h2 & -> & _ & H1 & ->). by rewrite map_union_empty.
  - intros H. exists h, ∅. split_and!; [by rewrite map_union_empty|apply map_disjoint_empty_r|done|done].
Qed.

Lemma sep_left_comm P Q R : P ∗ (Q ∗ R) ≡h Q ∗ (P ∗ R).
Proof. rewrite <- !sep_assoc. by rewrite (sep_comm P Q). Qed.

(** Assertions are compared up to the order and the grouping of their parts. *)
#[export] Instance aac_sep_assoc : AAC.Associative (@hequiv V) sep.
Proof. intros P Q R. by rewrite sep_assoc. Qed.
#[export] Instance aac_sep_comm : AAC.Commutative (@hequiv V) sep.
Proof. intros P Q. apply sep_comm. Qed.
#[export] Instance aac_sep_unit : AAC.Unit (@hequiv V) sep emp.
Proof. constructor; intros P; [rewrite sep_comm|]; apply sep_emp. Qed.
#[export] Instance aac_sep_lift : AAC.AAC_lift (@hequiv V) hequiv.
Proof.
  split; [apply _|]. intros P P' H Q Q' H'.
  split; intros E; [by rewrite <- H, E|by rewrite H, E].
Qed.

Lemma bind_step {A C} (m : hm V A) (f : A → hm V C) h a h' :
  m h = Ret (a, h') → (m ≫= f) h = f a h'.
Proof. intros E. unfold mbind, hm_bind. by rewrite E. Qed.

(** ** Simulation

    From a heap that satisfies [P], next to any other heap, the program [m] does
    what the value [o] says: it ends in the same way, returns a related result in a
    heap that satisfies [Q], and leaves the other heap as it is. *)
Definition sim {A B} (P : hprop V) (m : hm V A) (o : outcome B) (Q : A → B → hprop V) : Prop :=
  ∀ h hf, P h → h ##ₘ hf →
    match o with
    | Ret b => ∃ a h', m (h ∪ hf) = Ret (a, h' ∪ hf) ∧ h' ##ₘ hf ∧ Q a b h'
    | Die => m (h ∪ hf) = Die
    | Undef => m (h ∪ hf) = Undef
    end.

#[export] Instance sim_proper {A B} : Proper (hequiv ==> eq ==> eq ==> eq ==> iff) (@sim A B).
Proof. intros P P' HP m ? <- o ? <- Q ? <-. split; intros H h hf HPh; apply H; by apply HP. Qed.

Lemma sim_pre {A B} P P' (m : hm V A) (o : outcome B) Q : P' ≡h P → sim P m o Q → sim P' m o Q.
Proof. intros H Hs h hf HP. apply Hs. by apply H. Qed.

Lemma sim_weaken {A B} P P' (m : hm V A) (o : outcome B) Q :
  (∀ h, P' h → P h) → sim P m o Q → sim P' m o Q.
Proof. intros H Hs h hf HP. apply Hs. by apply H. Qed.

Lemma sep_mono_r P Q Q' : (∀ h, Q h → Q' h) → ∀ h, (P ∗ Q) h → (P ∗ Q') h.
Proof. intros HQ h (h1 & h2 & -> & Hd & H1 & H2). exists h1, h2. by split_and!; auto. Qed.

Lemma sep_mono_l P P' Q : (∀ h, P h → P' h) → ∀ h, (P ∗ Q) h → (P' ∗ Q) h.
Proof. intros HP h (h1 & h2 & -> & Hd & H1 & H2). exists h1, h2. by split_and!; auto. Qed.

Lemma sim_ret {A B} (P : hprop V) (a : A) (b : B) Q : (∀ h, P h → Q a b h) → sim P (mret a) (Ret b) Q.
Proof. intros H h hf HP Hd. exists a, h. by split_and!; auto. Qed.

Lemma sim_ex {A B X} (F : X → hprop V) R (m : hm V A) (o : outcome B) Q :
  (∀ x, sim (F x ∗ R) m o Q) → sim ((λ h, ∃ x, F x h) ∗ R) m o Q.
Proof. intros H h hf (h1 & h2 & -> & Hd & (x & Hx) & HR). apply (H x). by exists h1, h2. Qed.

Lemma sim_and {A B} (φ : Prop) P R (m : hm V A) (o : outcome B) Q :
  (φ → sim (P ∗ R) m o Q) → sim ((λ h, φ ∧ P h) ∗ R) m o Q.
Proof. intros H h hf (h1 & h2 & -> & Hd & (Hφ & HP) & HR). apply (H Hφ). by exists h1, h2. Qed.

Lemma sim_pure {A B} P (o : outcome A) (f : A → hm V B) {C} (g : A → outcome C) Q :
  (∀ a, o = Ret a → sim P (f a) (g a) Q) → sim P (pure_ o ≫= f) (o ≫= g) Q.
Proof.
  intros H h hf HP Hd. unfold mbind, hm_bind, pure_. destruct o as [a| |]; cbn; [|done|done].
  by apply (H a).
Qed.

(** The single steps, in front of the rest of the program. *)

Lemma sim_load {A B} l v R (f : V → hm V A) (o : outcome B) Q :
  sim (l ↦ v ∗ R) (f v) o Q → sim (l ↦ v ∗ R) (load l ≫= f) o Q.
Proof.
  intros H h hf HP Hd. specialize (H h hf HP Hd). destruct HP as (h1 & h2 & -> & Hd12 & Hp & HR). red in Hp. subst h1.
  assert (load l ({[l := v]} ∪ h2 ∪ hf) = Ret (v, {[l := v]} ∪ h2 ∪ hf)) as E.
  { unfold load. by rewrite <- (assoc_L (∪)), <- insert_union_singleton_l, lookup_insert_eq. }
  by rewrite (bind_step _ _ _ _ _ E).
Qed.

Lemma sim_update {A B} l v g R (f : unit → hm V A) (o : outcome B) Q :
  sim (l ↦ g v ∗ R) (f tt) o Q → sim (l ↦ v ∗ R) (update l g ≫= f) o Q.
Proof.
  intros H h hf (h1 & h2 & -> & Hd12 & Hp & HR) Hd. red in Hp. subst h1.
  apply map_disjoint_union_l in Hd as [Hd1 Hd2]. apply map_disjoint_singleton_l in Hd12, Hd1.
  specialize (H ({[l := g v]} ∪ h2) hf).
  assert (update l g ({[l := v]} ∪ h2 ∪ hf) = Ret (tt, {[l := g v]} ∪ h2 ∪ hf)) as E.
  { unfold update. rewrite <- !(assoc_L (∪)), <- !insert_union_singleton_l, lookup_insert_eq.
    by rewrite insert_insert_eq. }
  rewrite (bind_step _ _ _ _ _ E). apply H.
  - exists {[l := g v]}, h2. by split_and!; [|apply map_disjoint_singleton_l| |].
  - apply map_disjoint_union_l_2; [by apply map_disjoint_singleton_l|done].
Qed.

Lemma sim_alloc {A B} v P (f : loc → hm V A) (o : outcome B) Q :
  (∀ l, sim (l ↦ v ∗ P) (f l) o Q) → sim P (alloc v ≫= f) o Q.
Proof.
  intros H h hf HP Hd. unfold mbind, hm_bind, alloc. cbn. set (l := fresh _).
  assert ((h ∪ hf) !! l = None) as Hl by (apply not_elem_of_dom, is_fresh).
  apply lookup_union_None in Hl as [Hl1 Hl2].
  specialize (H l ({[l := v]} ∪ h) hf). rewrite insert_union_singleton_l, (assoc_L (∪)). apply H.
  - exists {[l := v]}, h. by split_and!; [|apply map_disjoint_singleton_l| |].
  - apply map_disjoint_union_l_2; [by apply map_disjoint_singleton_l|done].
Qed.

Lemma sim_free {A B} l v P (f : unit → hm V A) (o : outcome B) Q :
  sim P (f tt) o Q → sim (l ↦ v ∗ P) (free l ≫= f) o Q.
Proof.
  intros H h hf (h1 & h2 & -> & Hd12 & Hp & HP) Hd. red in Hp. subst h1.
  apply map_disjoint_union_l in Hd as [Hd1 Hd2]. apply map_disjoint_singleton_l in Hd12, Hd1.
  unfold mbind, hm_bind, free.
  rewrite <- (assoc_L (∪)), <- insert_union_singleton_l, lookup_insert_eq. cbn.
  rewrite delete_insert_id by (by apply lookup_union_None). by apply H.
Qed.

Lemma sim_target {A B} l P (f : loc → hm V A) (o : outcome B) Q :
  sim P (f l) o Q → sim P (target (Some l) ≫= f) o Q.
Proof. by intros H h hf HP Hd; apply H. Qed.

(** Sequences. *)

Lemma sim_ext {A B} P (m m' : hm V A) (o o' : outcome B) Q :
  (∀ h, m h = m' h) → o = o' → sim P m' o' Q → sim P m o Q.
Proof. intros Hm -> H h hf HP Hd. rewrite Hm. by apply H. Qed.

Lemma sim_assoc_l {A B C D} P (m : hm V A) (k : A → hm V B) (f : B → hm V C) (o : outcome D) Q :
  sim P (m ≫= λ a, k a ≫= f) o Q → sim P ((m ≫= k) ≫= f) o Q.
Proof.
  apply sim_ext; [|done]. intros h. unfold mbind, hm_bind. by destruct (m h) as [[a' h']| |].
Qed.

Lemma sim_assoc_r {A B C D} P (m : hm V D) (o : outcome A) (k : A → outcome B) (f : B → outcome C) Q :
  sim P m (o ≫= λ a, k a ≫= f) Q → sim P m ((o ≫= k) ≫= f) Q.
Proof. apply sim_ext; [done|by destruct o]. Qed.

Lemma sim_ret_l {A B D} P (a : A) (f : A → hm V B) (o : outcome D) Q :
  sim P (f a) o Q → sim P (mret a ≫= f) o Q.
Proof. by intros H h hf HP Hd; apply H. Qed.

Lemma sim_ret_r {A B D} P (b : B) (g : B → outcome A) (m : hm V D) Q :
  sim P m (g b) Q → sim P m (Ret b ≫= g) Q.
Proof. done. Qed.

Lemma sim_tail {A B} P (m : hm V A) (o : outcome B) Q :
  sim P (m ≫= mret) (o ≫= Ret) Q → sim P m o Q.
Proof.
  apply sim_ext; [|by destruct o]. intros h. unfold mbind, hm_bind, mret, hm_ret.
  by destruct (m h) as [[a' h']| |].
Qed.

(** A program that owns nothing leaves every heap as it is. *)
Lemma sim_emp {A B} (m : hm V A) (o : outcome B) (r : A → B → Prop) h :
  sim emp m o (λ a b, hpure (r a b)) →
  match o with
  | Ret b => ∃ a, m h = Ret (a, h) ∧ r a b
  | Die => m h = Die
  | Undef => m h = Undef
  end.
Proof.
  intros H. specialize (H ∅ h eq_refl (map_disjoint_empty_l h)). rewrite map_empty_union in H.
  destruct o; [|done|done]. destruct H as (a' & h' & E & _ & Hr & ->).
  rewrite map_empty_union in E. eauto.
Qed.
End Laws.

(** ** Linked lists

    A node of the list at [l] holds the element [x] and the link [next]; it has an
    object at [l] and may own more. *)

Section Lists.
Context {V X : Type} (node_at : loc → X → option loc → hprop V).

(** The nodes with the elements [xs], from [p] up to [q]. *)
Fixpoint lseg (p q : option loc) (xs : list X) : hprop V :=
  match xs with
  | [] => hpure (p = q)
  | x :: xs => λ h, ∃ l next, p = Some l ∧ (node_at l x next ∗ lseg next q xs) h
  end.

Lemma lseg_app p q r xs xs' h : (lseg p q xs ∗ lseg q r xs') h → lseg p r (xs ++ xs') h.
Proof.
  revert p h. induction xs as [|x xs IH]; intros p h (h1 & h2 & -> & Hd & H1 & H2).
  - destruct H1 as [-> ->]. by rewrite map_empty_union.
  - destruct H1 as (l & next & -> & H1). exists l, next. split; [done|].
    eapply sep_mono_r; [apply IH|]. apply sep_assoc. by exists h1, h2.
Qed.

Lemma lseg_cons l x next q xs h : (node_at l x next ∗ lseg next q xs) h → lseg (Some l) q (x :: xs) h.
Proof. intros H. by exists l, next. Qed.

Lemma lseg_one l x next h : node_at l x next h → lseg (Some l) next [x] h.
Proof.
  intros H. exists l, next. split; [done|]. exists h, ∅.
  split_and!; [by rewrite map_union_empty|apply map_disjoint_empty_r|done|done].
Qed.

Hypothesis node_object : ∀ l x next h, node_at l x next h → is_Some (h !! l).

Lemma lseg_size p q xs h : lseg p q xs h → length xs ≤ size h.
Proof.
  revert p h. induction xs as [|x xs IH]; intros p h; [intros; cbn; lia|].
  intros (l & next & -> & (h1 & h2 & -> & Hd & [v Hv]%node_object & H%IH)). cbn.
  rewrite (map_size_disj_union h1 h2) by done.
  assert (size h1 ≠ 0); [|lia]. intros E%map_size_empty_inv. subst. by rewrite lookup_empty in Hv.
Qed.

(** A loop over the nodes needs no more steps than there are objects. *)
Lemma lseg_fuel p q xs h hf : lseg p q xs h → h ##ₘ hf → length xs ≤ size (h ∪ hf).
Proof. intros H%lseg_size Hd. rewrite (map_size_disj_union h hf Hd). lia. Qed.
End Lists.

(** ** Automation

    [sim_step] makes one step: sequences are reassociated, returned values handed on,
    and an access is made with its object moved to the front of the assertion. *)

Ltac sim_front X :=
  lazymatch goal with
  | |- sim ?P _ _ _ =>
      lazymatch P with
      | X ∗ _ => idtac
      | context C [X] =>
          lazymatch type of X with
          | hprop ?V => let P' := context C [@emp V] in apply (sim_pre (X ∗ P')); [aac_reflexivity|]
          end
      end
  end.

Ltac sim_focus l :=
  lazymatch goal with
  | |- sim ?P _ _ _ => lazymatch P with context [@pts ?V l ?v] => sim_front (@pts V l v) end
  end.

Ltac sim_step :=
  lazymatch goal with
  | |- sim _ ((_ ≫= _) ≫= _) _ _ => apply sim_assoc_l
  | |- sim _ _ ((_ ≫= _) ≫= _) _ => apply sim_assoc_r
  | |- sim _ _ (Ret _ ≫= _) _ => apply sim_ret_r; cbn beta iota
  | |- sim _ (mret _ ≫= _) _ _ => apply sim_ret_l; cbn beta iota
  | |- sim _ (load ?l ≫= _) _ _ => sim_focus l; apply sim_load
  | |- sim _ (update ?l _ ≫= _) _ _ => sim_focus l; apply sim_update
  | |- sim _ (free ?l ≫= _) _ _ => sim_focus l; apply sim_free
  | |- sim _ (target (Some _) ≫= _) _ _ => apply sim_target
  | |- sim _ (alloc _ ≫= _) _ _ => apply sim_alloc; intros ?
  | |- sim _ (pure_ ?o ≫= _) (?o ≫= _) _ => apply sim_pure; intros ? ?
  end.

Ltac sim_steps := repeat sim_step.
