(* ===== verification/Blocks.v ===== *)
(** * The block lists of syscall_filter.c

    The policy compiler as it works on memory: chains of [struct filter_block] that
    are linked through [next], with the last node and the total length kept in the
    first one.  [SyscallFilter] has the same functions on lists of instruction
    buffers.  An instruction buffer belongs to the node that points to it. *)

From S2P Require Import Prelude CLib Util Bpf SyscallFilter Heap.
Local Open Scope Z_scope.

(** ** The nodes *)

Record filter_block := {
  fb_instrs : option (list sock_filter);
  fb_len : nat;
  fb_next : option loc;
  fb_last : option loc;
  fb_total_len : nat;
}.

#[export] Instance eta_filter_block : Eta filter_block := λ b,
  {| fb_instrs := b.(fb_instrs); fb_len := b.(fb_len); fb_next := b.(fb_next); fb_last := b.(fb_last);
     fb_total_len := b.(fb_total_len) |}.

Abbreviation mem A := (hm filter_block A).

(** What calloc(3) leaves. *)
Definition zero_block : filter_block :=
  {| fb_instrs := None; fb_len := 0; fb_next := None; fb_last := None; fb_total_len := 0 |}.

Definition new_filter_block_p : mem loc := alloc zero_block.

Definition append_filter_block_p (head : loc) (instrs : list sock_filter) : mem unit :=
  let len := length instrs in
  h ← load head;
  new_last ← match h.(fb_instrs) with
             | None => mret head
             | Some _ =>
                 new_last ← new_filter_block_p;
                 _ ← match h.(fb_next) with
                     | Some _ =>
                         last ← target h.(fb_last);
                         _ ← update last (λ b, b <| fb_next := Some new_last |>);
                         update head (λ b, b <| fb_last := Some new_last |>)
                     | None =>
                         update head (λ b, b <| fb_next := Some new_last |> <| fb_last := Some new_last |>)
                     end;
                 _ ← update head (λ b, b <| fb_total_len := (b.(fb_total_len) + len)%nat |>);
                 mret new_last
             end;
  update new_last (λ b, b <| fb_instrs := Some instrs |> <| fb_len := len |> <| fb_total_len := len |>
                          <| fb_next := None |> <| fb_last := None |>).

Definition extend_filter_block_list_p (list_ another : loc) : mem unit :=
  l ← load list_;
  _ ← match l.(fb_last) with
      | Some last =>
          _ ← update last (λ b, b <| fb_next := Some another |>);
          a ← load another;
          update list_ (λ b, b <| fb_last := a.(fb_last) |>)
      | None =>
          _ ← update list_ (λ b, b <| fb_next := Some another |>);
          a ← load another;
          update list_ (λ b, b <| fb_last := a.(fb_last) |>)
      end;
  a ← load another;
  update list_ (λ b, b <| fb_total_len := (b.(fb_total_len) + a.(fb_total_len))%nat |>).

Definition append_ret_kill_p (head : loc) : mem unit := append_filter_block_p head [set_bpf_ret_kill].
Definition append_ret_kill_process_p (head : loc) : mem unit :=
  append_filter_block_p head [set_bpf_ret_kill_process].
Definition append_ret_trap_p (head : loc) : mem unit := append_filter_block_p head [set_bpf_ret_trap].
Definition append_ret_errno_p (head : loc) (errno_val : Z) : mem unit :=
  append_filter_block_p head [set_bpf_ret_errno errno_val].
Definition append_ret_log_p (head : loc) : mem unit := append_filter_block_p head [set_bpf_ret_log].
Definition append_allow_syscall_p (head : loc) (nr : Z) : mem unit :=
  append_filter_block_p head (bpf_allow_syscall nr).

(** The loops over a chain.  A chain has no more nodes than there are objects; one
    that never ends is not a return. *)
Fixpoint flatten_from (fuel : nat) (curr : option loc) (filter : list sock_filter) (index cap : nat)
    : mem (option (list sock_filter)) :=
  match curr, fuel with
  | None, _ => mret (Some filter)
  | Some _, O => undefined
  | Some l, S fuel =>
      b ← load l;
      let instrs := default [] b.(fb_instrs) in
      if (length instrs <? b.(fb_len))%nat then undefined
      else match flatten_block (take b.(fb_len) instrs) filter index cap with
           | None => mret None
           | Some (filter, index) => flatten_from fuel b.(fb_next) filter index cap
           end
  end.

Definition flatten_block_list_p (head : option loc) (filter : list sock_filter) (index cap : nat)
    : mem (option (list sock_filter)) := λ h, flatten_from (size h) head filter index cap h.

Fixpoint free_from (fuel : nat) (current : option loc) : mem unit :=
  match current, fuel with
  | None, _ => mret tt
  | Some _, O => undefined
  | Some l, S fuel => b ← load l; _ ← free l; free_from fuel b.(fb_next)
  end.

Definition free_block_list_p (head : option loc) : mem unit := λ h, free_from (size h) head h.

(** ** Policy lines *)

Section Compile.
Context {B : BuildConfig}.

Definition compile_atom_p (head : loc) (text : cstr) (labels : bpf_labels) (nr grp_idx : Z)
    : mem (option bpf_labels) :=
  match parse_atom text with
  | None => mret None
  | Some a =>
      '(id, labels) ← pure_ (group_end_lbl labels nr grp_idx);
      match bpf_arg_comp a.(at_op) a.(at_argidx) a.(at_const) id with
      | None => mret None
      | Some comp_block => _ ← append_filter_block_p head comp_block; mret (Some labels)
      end
  end.

(** [false] is the return of -1. *)
Definition compile_errno_p (head : loc) (ret_errno : cstr) (act : block_action) : mem bool :=
  match strtok SPACE ret_errno with
  | None => mret false
  | Some (ret_str, rest) =>
      if negb (starts_with (str "return") ret_str) then mret false
      else match strtok SPACE rest with
           | Some (errno_val_str, _) =>
               match parse_constant errno_val_str with
               | None => mret false
               | Some v =>
                   let errno_val := s32 v in
                   if errno_val =? -1 then mret false
                   else (_ ← append_ret_errno_p head errno_val; mret true)
               end
           | None =>
               match act with
               | ACTION_RET_KILL => _ ← append_ret_kill_p head; mret true
               | ACTION_RET_KILL_PROCESS => _ ← append_ret_kill_process_p head; mret true
               | ACTION_RET_TRAP => _ ← append_ret_trap_p head; mret true
               | ACTION_RET_LOG => mret false
               end
           end
  end.

Fixpoint compile_atoms_p (head : loc) (atoms : list cstr) (labels : bpf_labels) (nr grp_idx : Z)
    : mem (option bpf_labels) :=
  match atoms with
  | [] => mret (Some labels)
  | comp :: rest =>
      r ← compile_atom_p head comp labels nr grp_idx;
      match r with
      | None => mret None
      | Some labels => compile_atoms_p head rest labels nr grp_idx
      end
  end.

Fixpoint compile_groups_p (head : loc) (groups : list cstr) (labels : bpf_labels) (nr grp_idx : Z)
    : mem (option bpf_labels) :=
  match groups with
  | [] => mret (Some labels)
  | group :: rest =>
      r ← compile_atoms_p head (tokenize_all (Some group) (str "&&")) labels nr grp_idx;
      match r with
      | None => mret None
      | Some labels =>
          '(success_id, labels) ← pure_ (success_lbl labels nr);
          '(end_id, labels) ← pure_ (group_end_lbl labels nr grp_idx);
          _ ← append_filter_block_p head [set_bpf_jump_lbl success_id; set_bpf_lbl end_id];
          compile_groups_p head rest labels nr (grp_idx + 1)
      end
  end.

Definition append_default_p (head : loc) (act : block_action) : mem unit :=
  match act with
  | ACTION_RET_KILL => append_ret_kill_p head
  | ACTION_RET_KILL_PROCESS => append_ret_kill_process_p head
  | ACTION_RET_TRAP => append_ret_trap_p head
  | ACTION_RET_LOG => append_ret_log_p head
  end.

(** The error exit: the blocks are freed and NULL is returned. *)
Definition discard {A} (head : loc) : mem (option A) := _ ← free_block_list_p (Some head); mret None.

Definition compile_policy_line_p (nr : Z) (policy_line : cstr) (entry_lbl_id : Z)
    (labels : bpf_labels) (act : block_action) : mem (option (loc * bpf_labels)) :=
  if bool_decide (policy_line = []) then mret None else
  head ← new_filter_block_p;
  _ ← append_filter_block_p head [set_bpf_lbl entry_lbl_id];
  if starts_with (str "return") policy_line then
    ok ← compile_errno_p head policy_line act;
    if ok : bool then mret (Some (head, labels)) else discard head
  else
    let '(arg_filter, ret_errno) :=
      match strtok ";" policy_line with
      | None => (None, None)
      | Some (a, rest) => (Some a, fst <$> strtok ";" rest)
      end in
    r ← compile_groups_p head (tokenize_all arg_filter (str "||")) labels nr 0;
    match r with
    | None => discard head
    | Some labels =>
        ok ← match ret_errno with
             | Some e => compile_errno_p head e act
             | None => _ ← append_default_p head act; mret true
             end;
        if negb ok then discard head
        else
          '(id, labels) ← pure_ (success_lbl labels nr);
          _ ← append_filter_block_p head [set_bpf_lbl id; set_bpf_ret_allow];
          mret (Some (head, labels))
    end.

(** ** Policy files *)

(** What compile_file() changes: the list [head] stays where it is. *)
Record compiler_p := {
  p_arg_blocks : option loc;
  p_labels : bpf_labels;
  p_previous : list (option parser_state);
}.

#[export] Instance eta_compiler_p : Eta compiler_p := λ c,
  {| p_arg_blocks := c.(p_arg_blocks); p_labels := c.(p_labels); p_previous := c.(p_previous) |}.

Fixpoint allow_logging_syscalls_of_p (names : list cstr) (head : loc) : mem unit :=
  match names with
  | [] => mret tt
  | name :: rest =>
      _ ← append_allow_syscall_p head (lookup_syscall name).1;
      allow_logging_syscalls_of_p rest head
  end.

Definition allow_logging_syscalls_p (head : loc) : mem unit :=
  allow_logging_syscalls_of_p log_syscalls head.

Definition compile_regular_line_p (opts : filter_options) (state : parser_state) (head : loc)
    (syscall_name rule : cstr) (ret : Z) (c : compiler_p) : mem (bool * Z * compiler_p) :=
  let '(nr, ind) := lookup_syscall syscall_name in
  if nr <? 0 then
    if opts.(allow_logging) then mret (true, ret, c) else mret (false, -1, c)
  else
    '(fresh, previous) ← pure_ (insert_and_check_duplicate_syscall c.(p_previous) state ind);
    let ret := if negb fresh && negb opts.(opt_allow_duplicate_syscalls) then -1 else ret in
    let c := c <| p_previous := previous |> in
    if streq rule (str "1") then
      _ ← append_allow_syscall_p head nr;
      mret (true, ret, c)
    else
      let '(lid, labels) := bpf_label_id c.(p_labels) syscall_name in
      let id := u32 lid in
      _ ← append_filter_block_p head (bpf_allow_syscall_args nr id);
      let c := c <| p_labels := labels |> in
      r ← compile_policy_line_p nr rule id labels opts.(action);
      match r with
      | None =>
          _ ← match c.(p_arg_blocks) with
              | Some a => free_block_list_p (Some a)
              | None => mret tt
              end;
          mret (false, -1, c <| p_arg_blocks := None |>)
      | Some (block, labels) =>
          arg_blocks ← match c.(p_arg_blocks) with
                       | Some a => _ ← extend_filter_block_list_p a block; mret a
                       | None => mret block
                       end;
          mret (true, ret, c <| p_labels := labels |> <| p_arg_blocks := Some arg_blocks |>)
      end.

Variable fs : cstr → option (list ascii).

Fixpoint compile_lines_p
    (include : cstr → list ascii → compiler_p → mem (Z * compiler_p))
    (opts : filter_options) (include_level : nat) (filename : option cstr) (head_ : loc)
    (fuel : nat) (stream : list ascii) (line_number : nat) (ret : Z) (c : compiler_p)
    : mem (Z * compiler_p) :=
  match fuel with
  | O => mret (ret, c)
  | S n =>
    match getmultiline stream with
    | (None, _) => mret (ret, c)
    | (Some line, stream) =>
      let policy_line := strip (c_str line) in
      let line_number := S line_number in
      let continue := compile_lines_p include opts include_level filename head_ n stream line_number in
      if bool_decide (head policy_line = Some "#"%char) || bool_decide (policy_line = []) then
        continue ret c
      else if bool_decide (head policy_line = Some "@"%char) then
        if starts_with (str "@frequency") policy_line then continue ret c
        else match parse_include_statement policy_line include_level with
             | None => mret (-1, c)
             | Some name =>
                 match fs name with
                 | None => mret (-1, c)
                 | Some contents =>
                     '(r, c) ← include name contents c;
                     if r =? -1 then mret (-1, c) else continue ret c
                 end
             end
      else
        match split_policy_line policy_line with
        | None => mret (-1, c)
        | Some (syscall_name, rule) =>
            let state := {| ps_filename := filename; ps_line_number := line_number |} in
            '(go, ret, c) ← compile_regular_line_p opts state head_ syscall_name rule ret c;
            if go : bool then continue ret c else mret (ret, c)
        end
    end
  end.

Definition compile_included_p (opts : filter_options) (include_level : nat) (head_ : loc)
    (filename : cstr) (stream : list ascii) (c : compiler_p) : mem (Z * compiler_p) :=
  compile_lines_p (λ _ _ c, mret (-1, c)) opts (S include_level) (Some filename) head_
    (S (length stream)) stream 0 0 c.

Definition compile_file_p (opts : filter_options) (include_level : nat) (filename : option cstr)
    (head_ : loc) (stream : list ascii) (c : compiler_p) : mem (Z * compiler_p) :=
  compile_lines_p (compile_included_p opts include_level head_) opts include_level filename head_
    (S (length stream)) stream 0 0 c.

(** [false] is the error exit. *)
Definition append_final_p (head : loc) (opts : filter_options) : mem bool :=
  match opts.(action) with
  | ACTION_RET_KILL => _ ← append_ret_kill_p head; mret true
  | ACTION_RET_KILL_PROCESS => _ ← append_ret_kill_process_p head; mret true
  | ACTION_RET_TRAP => _ ← append_ret_trap_p head; mret true
  | ACTION_RET_LOG => if opts.(allow_logging) then (_ ← append_ret_log_p head; mret true) else mret false
  end.

Definition link_filter_p (head : loc) (arg_blocks : option loc) (labels : bpf_labels)
    : mem (option (list sock_filter)) :=
  h ← load head;
  arg_len ← match arg_blocks with
            | Some a => b ← load a; mret b.(fb_total_len)
            | None => mret 0%nat
            end;
  let final_filter_len := (h.(fb_total_len) + arg_len)%nat in
  if (BPF_MAXINSNS <? final_filter_len)%nat then mret None else
  let final_filter := replicate final_filter_len zero_instr in
  r ← flatten_block_list_p (Some head) final_filter 0 final_filter_len;
  match r with
  | None => mret None
  | Some final_filter =>
      h ← load head;
      r ← flatten_block_list_p arg_blocks final_filter h.(fb_total_len) final_filter_len;
      match r with
      | None => mret None
      | Some final_filter =>
          r ← pure_ (bpf_resolve_jumps labels final_filter);
          mret (snd <$> r)
      end
  end.

(** The label free_filter is on every path behind the first allocation. *)
Definition compile_filter_p (opts : filter_options) (filename : option cstr)
    (initial_file : option (list ascii)) : mem (option (list sock_filter)) :=
  match initial_file with
  | None => mret None
  | Some stream =>
      head ← new_filter_block_p;
      _ ← append_filter_block_p head bpf_validate_arch;
      _ ← append_filter_block_p head [bpf_load_syscall_nr];
      _ ← (if opts.(allow_syscalls_for_logging) then allow_logging_syscalls_p head else mret tt);
      '(r, c) ← compile_file_p opts 0 filename head stream
        {| p_arg_blocks := None; p_labels := []; p_previous := replicate get_num_syscalls None |};
      prog ← (if negb (r =? 0) then mret None
              else
                ok ← append_final_p head opts;
                if negb ok then mret None else link_filter_p head c.(p_arg_blocks) c.(p_labels));
      _ ← free_block_list_p (Some head);
      _ ← free_block_list_p c.(p_arg_blocks);
      mret prog
  end.
End Compile.
