(* ===== verification/BlocksProps.v ===== *)
(** * The block lists in memory

    Each operation of [Blocks] does to a chain in memory what the operation of the
    same name in [SyscallFilter] does to the list of its buffers.  The lemmas [sim_*]
    are stated with the rest of the program behind the operation and everything else
    that is owned next to its chain, so that a proof walks through the code. *)

From AAC_tactics Require Import AAC.
From S2P Require Import Prelude CLib Util Bpf SyscallFilter Heap Blocks.
Local Open Scope heap_scope.

Abbreviation assertion := (hprop filter_block).

(** ** Chains

    The fields [last] and [total_len] have a meaning in the first node only. *)

Definition node (b : list sock_filter) (next last : option loc) (total : nat) : filter_block :=
  {| fb_instrs := Some b; fb_len := length b; fb_next := next; fb_last := last; fb_total_len := total |}.

Definition node_at (l : loc) (b : list sock_filter) (next : option loc) : assertion := λ h,
  ∃ last total, (l ↦ node b next last total) h.

Abbreviation seg := (lseg node_at).

(** The list that starts at [l]. *)
Inductive blocks (l : loc) : fblocks → assertion :=
  | blocks_nil h : (l ↦ zero_block) h → blocks l [] h
  | blocks_one b h : (l ↦ node b None None (length b)) h → blocks l [b] h
  | blocks_more b bs e z next la t h :
      (l ↦ node b (Some next) (Some z) (total_len (b :: bs ++ [e])) ∗
       seg (Some next) (Some z) bs ∗ z ↦ node e None la t) h →
      blocks l (b :: bs ++ [e]) h.

Lemma node_object l b next h : node_at l b next h → is_Some (h !! l).
Proof. intros (last & total & ->). by rewrite lookup_singleton_eq. Qed.

Lemma seg_one l b q la t h : (l ↦ node b q la t) h → seg (Some l) q [b] h.
Proof. intros H. apply lseg_one. by exists la, t. Qed.

Lemma seg_cons l b q la t r bs h : (l ↦ node b q la t ∗ seg q r bs) h → seg (Some l) r (b :: bs) h.
Proof.
  intros H. apply (lseg_cons _ _ _ q). revert h H. apply sep_mono_l. intros h H. by exists la, t.
Qed.

Lemma blocks_seg l bs h : bs ≠ [] → blocks l bs h → seg (Some l) None bs h.
Proof.
  intros Hne H. destruct H as [h H|b h H|b bs e z next la t h H]; [done|by eapply seg_one|].
  apply (seg_cons _ _ (Some next) (Some z) (total_len (b :: bs ++ [e]))).
  revert h H. apply sep_mono_r. intros h H. apply (lseg_app _ _ (Some z)).
  revert h H. apply sep_mono_r, seg_one.
Qed.

(** ** The loops *)

Lemma flatten_from_spec p bs filter index cap n h hf :
  seg p None bs h → h ##ₘ hf → length bs ≤ n →
  flatten_from n p filter index cap (h ∪ hf) = Ret (flatten_block_list bs filter index cap, h ∪ hf).
Proof.
  revert p filter index n h hf. induction bs as [|b bs IH]; intros p filter index n h hf Hs Hd Hn.
  - destruct Hs as [-> ->]. by destruct n.
  - destruct Hs as (l & next & -> & (h1 & h2 & -> & Hd' & (last & total & ->) & Hs)).
    destruct n as [|n]; [cbn in Hn; lia|]. cbn [flatten_from flatten_block_list].
    rewrite (bind_step _ _ _ (node b next last total) ({[l := node b next last total]} ∪ h2 ∪ hf)).
    2:{ unfold load. by rewrite <- (assoc_L (∪)), <- insert_union_singleton_l, lookup_insert_eq. }
    change (fb_len _) with (length b). change (default [] _) with b. change (fb_next _) with next.
    rewrite Nat.ltb_irrefl, firstn_all. destruct (flatten_block b filter index cap) as [[f' i']|]; [|reflexivity].
    apply map_disjoint_union_l in Hd as [Hd1 Hd2].
    rewrite (map_union_comm {[l := _]} h2) by done. rewrite <- (assoc_L (∪)).
    apply IH; [done| |cbn in Hn; lia]. by apply map_disjoint_union_r_2.
Qed.

Lemma free_from_spec p bs n h hf :
  seg p None bs h → h ##ₘ hf → length bs ≤ n → free_from n p (h ∪ hf) = Ret (tt, hf).
Proof.
  revert p n h. induction bs as [|b bs IH]; intros p n h Hs Hd Hn.
  - destruct Hs as [-> ->]. rewrite map_empty_union. by destruct n.
  - destruct Hs as (l & next & -> & (h1 & h2 & -> & Hd' & (last & total & ->) & Hs)).
    destruct n as [|n]; [cbn in Hn; lia|]. cbn [free_from].
    apply map_disjoint_union_l in Hd as [Hd1 Hd2]. apply map_disjoint_singleton_l in Hd', Hd1.
    rewrite <- (assoc_L (∪)), <- insert_union_singleton_l.
    unfold mbind, hm_bind, load, free. rewrite lookup_insert_eq. cbn. rewrite lookup_insert_eq. cbn.
    rewrite delete_insert_id by (by apply lookup_union_None). apply IH; [done..|cbn in Hn; lia].
Qed.

Ltac fields :=
  cbv beta iota delta [modify node zero_block fb_instrs fb_len fb_next fb_last fb_total_len].
Ltac block_steps := unfold new_filter_block_p; repeat (fields; sim_step); fields.

Ltac owns P := apply (sim_pre P); [fields; aac_reflexivity|].

(** ** One operation in front of the rest of a program *)

Section Ops.
Context {A C : Type} (o : outcome C) (Q : A → C → assertion).
Implicit Types (bs : fblocks) (l : loc) (R : assertion).

Lemma blocks_zero l : l ↦ zero_block ≡h blocks l [].
Proof. intros h. split; [apply blocks_nil|by inversion 1]. Qed.

Lemma sim_blocks R l bs (m : mem A) :
  (bs = [] → sim (l ↦ zero_block ∗ R) m o Q) →
  (∀ b, bs = [b] → sim (l ↦ node b None None (length b) ∗ R) m o Q) →
  (∀ b mid e z next la t, bs = b :: mid ++ [e] →
     sim ((l ↦ node b (Some next) (Some z) (total_len bs) ∗ seg (Some next) (Some z) mid ∗ z ↦ node e None la t) ∗ R)
       m o Q) →
  sim (blocks l bs ∗ R) m o Q.
Proof.
  intros H0 H1 H2 h hf (h1 & h2 & -> & Hd12 & HB & HR) Hd.
  destruct HB as [h1 H|b h1 H|b bs e z next la t h1 H].
  - apply (H0 eq_refl); [by exists h1, h2|done].
  - apply (H1 b eq_refl); [by exists h1, h2|done].
  - apply (H2 b bs e z next la t eq_refl); [by exists h1, h2|done].
Qed.

Lemma total_len_app bs bs' : total_len (bs ++ bs') = total_len bs + total_len bs'.
Proof. unfold total_len. by rewrite fmap_app, sum_list_with_app. Qed.

Lemma length_append bs i : length (append_filter_block bs i) = S (length bs).
Proof. unfold append_filter_block. rewrite length_app. cbn. lia. Qed.

Lemma sim_append R l bs i (f : unit → mem A) :
  sim (blocks l (append_filter_block bs i) ∗ R) (f tt) o Q →
  sim (blocks l bs ∗ R) (append_filter_block_p l i ≫= f) o Q.
Proof.
  intros H. unfold append_filter_block_p. apply sim_blocks.
  - intros ->. block_steps. owns (l ↦ node i None None (length i) ∗ R).
    revert H. apply sim_weaken, sep_mono_l, blocks_one.
  - intros b ->. block_steps.
    owns ((l ↦ node b (Some l0) (Some l0) (length b + length i) ∗ emp ∗ l0 ↦ node i None None (length i)) ∗ R).
    revert H. apply sim_weaken, sep_mono_l. intros h H.
    apply (blocks_more l b [] i l0 l0 None (length i)). unfold total_len. cbn. rewrite Nat.add_0_r.
    revert h H. apply sep_mono_r, sep_mono_l. by intros h.
  - intros b mid e z next la t ->. block_steps.
    owns ((l ↦ node b (Some next) (Some l0) (total_len (b :: mid ++ [e]) + length i) ∗ 
           (seg (Some next) (Some z) mid ∗ z ↦ node e (Some l0) la t) ∗
           l0 ↦ node i None None (length i)) ∗ R).
    revert H. apply sim_weaken, sep_mono_l. intros h H.
    apply (blocks_more l b (mid ++ [e]) i l0 next None (length i)).
    replace (total_len (b :: (mid ++ [e]) ++ [i])) with (total_len (b :: mid ++ [e]) + length i).
    2:{ change (b :: (mid ++ [e]) ++ [i]) with ((b :: mid ++ [e]) ++ [i]). rewrite total_len_app.
        unfold total_len. cbn. lia. }
    revert h H. apply sep_mono_r, sep_mono_l. intros h H.
    apply (lseg_app _ _ (Some z)). revert h H. apply sep_mono_r, seg_one.
Qed.

(** The second list has at least two blocks: its [last] is set. *)
Lemma sim_extend R l l' bs bs' (f : unit → mem A) :
  bs ≠ [] → 2 ≤ length bs' →
  sim (blocks l (bs ++ bs') ∗ R) (f tt) o Q →
  sim (blocks l bs ∗ blocks l' bs' ∗ R) (extend_filter_block_list_p l l' ≫= f) o Q.
Proof.
  intros Hne Hlen H. unfold extend_filter_block_list_p.
  assert (total_len (bs ++ bs') = total_len bs + total_len bs') as Ht by apply total_len_app.
  apply sim_blocks; [done|intros b ->|intros b mid e z next la t ->]; sim_front (blocks l' bs');
    (apply sim_blocks; [intros ->; cbn in Hlen; lia|intros b' ->; cbn in Hlen; lia|]);
    intros b' mid' e' z' next' la' t' ->; block_steps.
  - owns ((l ↦ node b (Some l') (Some z') (length b + total_len (b' :: mid' ++ [e'])) ∗
       (l' ↦ node b' (Some next') (Some z') (total_len (b' :: mid' ++ [e'])) ∗ seg (Some next') (Some z') mid') ∗
       z' ↦ node e' None la' t') ∗ R).
    revert H. apply sim_weaken, sep_mono_l. intros h H.
    apply (blocks_more l b (b' :: mid') e' z' l' la' t'). cbn [app] in Ht |- *. rewrite Ht.
    unfold total_len at 1. cbn [fmap list_fmap sum_list sum_list_with id]. rewrite Nat.add_0_r.
    revert h H. apply sep_mono_r, sep_mono_l, seg_cons.
  - owns ((l ↦ node b (Some next) (Some z') (total_len (b :: mid ++ [e]) + total_len (b' :: mid' ++ [e'])) ∗
       (seg (Some next) (Some z) mid ∗ z ↦ node e (Some l') la t ∗
        l' ↦ node b' (Some next') (Some z') (total_len (b' :: mid' ++ [e'])) ∗ seg (Some next') (Some z') mid') ∗
       z' ↦ node e' None la' t') ∗ R).
    revert H. apply sim_weaken, sep_mono_l. intros h H.
    replace ((b :: mid ++ [e]) ++ b' :: mid' ++ [e']) with (b :: (mid ++ e :: b' :: mid') ++ [e']) in *
      by (cbn; by rewrite <- !(assoc_L (++))).
    apply (blocks_more l b (mid ++ e :: b' :: mid') e' z' next la' t'). rewrite Ht.
    revert h H. apply sep_mono_r, sep_mono_l. intros h H. apply (lseg_app _ _ (Some z)).
    revert h H. apply sep_mono_r. intros h H. apply (seg_cons _ _ (Some l') la t).
    revert h H. apply sep_mono_r. intros h H. by eapply seg_cons.
Qed.

(** A chain that ends is walked, and freed, to its end. *)

Lemma sim_flatten R (P : assertion) p bs filter index cap (f : option (list sock_filter) → mem A) :
  (∀ h, P h → seg p None bs h) →
  sim (P ∗ R) (f (flatten_block_list bs filter index cap)) o Q →
  sim (P ∗ R) (flatten_block_list_p p filter index cap ≫= f) o Q.
Proof.
  intros HS H h hf HP Hd. specialize (H h hf HP Hd). destruct HP as (h1 & h2 & -> & Hd12 & Hs%HS & HR).
  apply map_disjoint_union_l in Hd as [Hd1 Hd2]. pose proof (map_disjoint_union_r_2 _ _ _ Hd12 Hd1).
  erewrite bind_step; [exact H|]. unfold flatten_block_list_p. rewrite <- !(assoc_L (∪)).
  apply flatten_from_spec; [done..|by eapply lseg_fuel; [apply node_object|..]].
Qed.

Lemma sim_free_list R (P : assertion) p bs (f : unit → mem A) :
  (∀ h, P h → seg p None bs h) →
  sim R (f tt) o Q → sim (P ∗ R) (free_block_list_p p ≫= f) o Q.
Proof.
  intros HS H h hf (h1 & h2 & -> & Hd12 & Hs%HS & HR) Hd.
  apply map_disjoint_union_l in Hd as [Hd1 Hd2]. pose proof (map_disjoint_union_r_2 _ _ _ Hd12 Hd1).
  erewrite bind_step; [by apply (H h2 hf)|]. unfold free_block_list_p. rewrite <- !(assoc_L (∪)).
  apply (free_from_spec _ bs); [done..|by eapply lseg_fuel; [apply node_object|..]].
Qed.
End Ops.

(** ** Policy lines *)

Section Lines.
Context {B : BuildConfig} {A C : Type} (Q : A → C → assertion).
Implicit Types (bs : fblocks) (l : loc) (R : assertion) (o : outcome C).

Lemma sim_discard R l bs {X} (f : option X → mem A) o :
  bs ≠ [] → sim R (f None) o Q → sim (blocks l bs ∗ R) (discard l ≫= f) o Q.
Proof.
  intros Hne H. unfold discard. sim_step.
  eapply sim_free_list; [intros h; by apply blocks_seg|]. by sim_step.
Qed.

Lemma sim_compile_atom R l bs text labels nr grp f g :
  (∀ bs' lb, length bs < length bs' → sim (blocks l bs' ∗ R) (f (Some lb)) (g (Some (bs', lb))) Q) →
  sim (blocks l bs ∗ R) (f None) (g None) Q →
  sim (blocks l bs ∗ R) (compile_atom_p l text labels nr grp ≫= f) (compile_atom bs text labels nr grp ≫= g) Q.
Proof.
  intros HS HN. unfold compile_atom_p, compile_atom. destruct (parse_atom text) as [a|]; [|by sim_steps].
  sim_steps. destruct a0 as [id lb]. destruct (bpf_arg_comp _ _ _ _) as [comp|]; [|by sim_steps].
  sim_step. apply sim_append. sim_steps. apply HS.
  rewrite length_append. lia.
Qed.

Lemma sim_compile_errno R l bs e act f o :
  match compile_errno bs e act with
  | Some bs' => length bs < length bs' → sim (blocks l bs' ∗ R) (f true) o Q
  | None => sim (blocks l bs ∗ R) (f false) o Q
  end →
  sim (blocks l bs ∗ R) (compile_errno_p l e act ≫= f) o Q.
Proof.
  assert (∀ i, length bs < length (append_filter_block bs i)) as Hl by (intros i; rewrite length_append; lia).
  unfold compile_errno_p, compile_errno, append_ret_errno_p, append_ret_kill_p, append_ret_kill_process_p,
    append_ret_trap_p, append_ret_errno, append_ret_kill, append_ret_kill_process, append_ret_trap.
  intros H.
  repeat (case_match; cbn [negb] in *; try (sim_step; apply sim_append); sim_steps; simplify_eq; auto).
Qed.

Lemma sim_compile_atoms R l atoms bs labels nr grp f g :
  (∀ bs' lb, length bs ≤ length bs' → sim (blocks l bs' ∗ R) (f (Some lb)) (g (Some (bs', lb))) Q) →
  (∀ bs', length bs ≤ length bs' → sim (blocks l bs' ∗ R) (f None) (g None) Q) →
  sim (blocks l bs ∗ R) (compile_atoms_p l atoms labels nr grp ≫= f)
    (compile_atoms bs atoms labels nr grp ≫= g) Q.
Proof.
  revert bs labels. induction atoms as [|a atoms IH]; intros bs labels HS HN.
  - cbn. sim_steps. by apply HS.
  - cbn [compile_atoms_p compile_atoms]. sim_steps.
    apply sim_compile_atom; [|sim_steps; by apply HN].
    intros bs' lb Hl. apply IH; [intros bs'' lb'' Hl''; apply HS; lia|intros bs'' Hl''; apply HN; lia].
Qed.
Lemma sim_compile_groups R l groups bs labels nr grp f g :
  (∀ bs' lb, length bs ≤ length bs' → sim (blocks l bs' ∗ R) (f (Some lb)) (g (Some (bs', lb))) Q) →
  (∀ bs', length bs ≤ length bs' → sim (blocks l bs' ∗ R) (f None) (g None) Q) →
  sim (blocks l bs ∗ R) (compile_groups_p l groups labels nr grp ≫= f)
    (compile_groups bs groups labels nr grp ≫= g) Q.
Proof.
  revert bs labels grp. induction groups as [|gr groups IH]; intros bs labels grp HS HN.
  - cbn. sim_steps. by apply HS.
  - cbn [compile_groups_p compile_groups]. sim_steps.
    apply sim_compile_atoms; [|intros bs' Hl; sim_steps; by apply HN].
    intros bs' lb Hl. sim_steps. destruct a as [sid lb1]. sim_steps. destruct a as [eid lb2]. sim_step.
    apply sim_append.
    apply IH; [intros bs'' lb'' Hl''; apply HS|intros bs'' Hl''; apply HN];
      rewrite length_append in Hl''; lia.
Qed.

Lemma sim_append_default R l bs act (f : unit → mem A) o :
  sim (blocks l (append_default bs act) ∗ R) (f tt) o Q →
  sim (blocks l bs ∗ R) (append_default_p l act ≫= f) o Q.
Proof. destruct act; apply sim_append. Qed.

Lemma length_append_default bs act : length (append_default bs act) = S (length bs).
Proof. destruct act; apply length_append. Qed.

Lemma sim_compile_policy_line R nr line id labels act f g :
  (∀ l bs lb, 2 ≤ length bs → sim (blocks l bs ∗ R) (f (Some (l, lb))) (g (Some (bs, lb))) Q) →
  sim R (f None) (g None) Q →
  sim R (compile_policy_line_p nr line id labels act ≫= f) (compile_policy_line nr line id labels act ≫= g) Q.
Proof.
  intros HS HN. unfold compile_policy_line_p, compile_policy_line, new_filter_block_p.
  destruct (bool_decide (line = [])); [by sim_steps|]. sim_steps.
  rewrite blocks_zero.
  apply sim_append. cbn [app].
  change (append_filter_block new_filter_block [set_bpf_lbl id]) with [[set_bpf_lbl id]].
  destruct (starts_with (str "return") line).
  - sim_steps. apply sim_compile_errno. destruct (compile_errno _ _ _) as [bs'|].
    + intros Hl. sim_steps. by apply HS.
    + sim_steps. by apply sim_discard.
  - destruct (match strtok ";" line with Some _ => _ | None => _ end) as [arg_filter ret_errno].
    sim_steps. apply sim_compile_groups.
    2:{ intros bs' Hl. sim_steps. apply sim_discard; [by intros ->; cbn in Hl; lia|done]. }
    intros bs' lb Hl.
    assert (bs' ≠ []) as Hne by (by intros ->; cbn in Hl; lia). cbn in Hl.
    destruct ret_errno as [e|]; sim_steps; [apply sim_compile_errno; destruct (compile_errno _ _ _) as [bs''|]|].
    + intros Hl''. cbn [negb]. sim_steps. destruct a as [id0 lb0]. sim_step. apply sim_append. sim_steps.
      apply HS. rewrite length_append. lia.
    + sim_steps. by apply sim_discard.
    + apply sim_append_default. cbn [negb]. sim_steps. cbn [negb]. sim_steps.
      destruct a as [id0 lb0]. sim_step. apply sim_append. sim_steps.
      apply HS. rewrite length_append, length_append_default. lia.
Qed.
End Lines.

(** ** Policy files *)

(** The blocks of the argument filters: each line adds at least two. *)
Definition args (p : option loc) (a : option fblocks) : assertion := λ h,
  match p, a with
  | Some l, Some bs => 2 ≤ length bs ∧ blocks l bs h
  | None, None => h = ∅
  | _, _ => False
  end.

(** The state in memory that goes with [c]: [p] is where the argument filters are. *)
Definition low (c : compiler) (p : option loc) : compiler_p :=
  {| p_arg_blocks := p; p_labels := c.(c_labels); p_previous := c.(c_previous) |}.

Definition state_at (l : loc) (c : compiler) (p : option loc) : assertion :=
  blocks l c.(c_head) ∗ args p c.(c_arg_blocks).

Lemma args_seg p a h : args p a h → seg p None (default [] a) h.
Proof.
  intros H. destruct p as [l|], a as [bs|]; try done. destruct H as [Hl H].
  apply (blocks_seg l bs); [|done]. intros ->. cbn in Hl. lia.
Qed.

Section Files.
Context {B : BuildConfig} {A C : Type} (Q : A → C → assertion).
Implicit Types (bs : fblocks) (l : loc) (R : assertion) (o : outcome C).

Lemma sim_args R p a (m : mem A) o :
  (p = None → a = None → sim R m o Q) →
  (∀ l bs, p = Some l → a = Some bs → 2 ≤ length bs → sim (blocks l bs ∗ R) m o Q) →
  sim (args p a ∗ R) m o Q.
Proof.
  intros HN HS h hf (h1 & h2 & -> & Hd12 & HA & HR) Hd.
  destruct p as [l|], a as [bs|]; try done.
  - destruct HA as [Hl HA]. apply (HS l bs); [done..| |done]. by exists h1, h2.
  - red in HA. subst h1. rewrite map_empty_union in Hd |- *. by apply HN.
Qed.

Lemma sim_free_args R p a (f : unit → mem A) o :
  sim R (f tt) o Q → sim (args p a ∗ R) (free_block_list_p p ≫= f) o Q.
Proof.
  intros H. apply (sim_free_list o Q R _ p (default [] a)); [apply args_seg|done].
Qed.

Lemma args_some l bs : 2 ≤ length bs → args (Some l) (Some bs) ≡h blocks l bs.
Proof. intros Hl h. split; [by intros [_ H]|by intros H]. Qed.

Lemma args_none : args None None ≡h emp.
Proof. done. Qed.

Lemma append_ne bs i : append_filter_block bs i ≠ [].
Proof. intros H%(f_equal length). by rewrite length_append in H. Qed.

Lemma sim_open R l c p (m : mem A) o :
  sim (blocks l c.(c_head) ∗ args p c.(c_arg_blocks) ∗ R) m o Q → sim (state_at l c p ∗ R) m o Q.
Proof. apply sim_pre. unfold state_at. aac_reflexivity. Qed.

Lemma sim_close R l c p bs a (m : mem A) o :
  bs = c.(c_head) → a = c.(c_arg_blocks) →
  sim (state_at l c p ∗ R) m o Q → sim (blocks l bs ∗ args p a ∗ R) m o Q.
Proof. intros -> ->. apply sim_pre. unfold state_at. aac_reflexivity. Qed.

Ltac compiler_fields :=
  cbv beta iota delta [modify c_head c_arg_blocks c_labels c_previous p_arg_blocks p_labels p_previous].

Ltac finish H c' p' :=
  apply (sim_close _ _ c' p'); [done..|]; refine (H _ _ c' p' _); apply append_ne.

Lemma sim_compile_regular_line R opts state l name rule ret c p f g :
  c.(c_head) ≠ [] →
  (∀ go ret' c' p', c'.(c_head) ≠ [] →
     sim (state_at l c' p' ∗ R) (f (go, ret', low c' p')) (g (go, ret', c')) Q) →
  sim (state_at l c p ∗ R) (compile_regular_line_p opts state l name rule ret (low c p) ≫= f)
    (compile_regular_line opts state name rule ret c ≫= g) Q.
Proof.
  intros Hne H. destruct c as [hd ab lb pv].
  unfold compile_regular_line_p, compile_regular_line, append_allow_syscall_p, low.
  destruct (lookup_syscall name) as [nr ind]. case_match; [case_match; sim_steps; by apply H|].
  compiler_fields. sim_steps. destruct a as [fresh previous]. apply sim_open. compiler_fields.
  destruct (streq rule (str "1")).
  - sim_step. apply sim_append. sim_steps. finish H (Build_compiler (append_allow_syscall hd nr) ab lb previous) p.
  - destruct (bpf_label_id lb name) as [lid labels]. sim_step. apply sim_append. sim_steps.
    set (hd' := append_filter_block _ _).
    apply sim_compile_policy_line; [intros l' bs lb' Hl|]; sim_front (args p ab).
    + apply sim_args; [intros -> ->|intros la ba -> -> Hla]; sim_steps.
      * owns (blocks l hd' ∗ blocks l' bs ∗ R). rewrite <- (args_some l' bs) by done.
        finish H (Build_compiler hd' (Some bs) lb' previous) (Some l').
      * owns (blocks la ba ∗ blocks l' bs ∗ blocks l hd' ∗ R).
        apply sim_extend; [by destruct ba; cbn in Hla; [lia|]|done|]. sim_steps.
        owns (blocks l hd' ∗ blocks la (ba ++ bs) ∗ R). rewrite <- (args_some la (ba ++ bs)) by (rewrite length_app; lia).
        finish H (Build_compiler hd' (Some (extend_filter_block_list ba bs)) lb' previous) (Some la).
    + assert (sim (blocks l hd' ∗ R)
        (f (false, -1, {| p_arg_blocks := None; p_labels := labels; p_previous := previous |}))
        (g (false, -1, Build_compiler hd' None labels previous)) Q)%Z as Hend.
      { owns (blocks l hd' ∗ emp ∗ R). rewrite <- args_none.
        finish H (Build_compiler hd' None labels previous) (@None loc). }
      destruct p as [la|]; sim_steps.
      * apply sim_free_args. sim_steps. revert Hend. apply sim_pre. aac_reflexivity.
      * apply sim_args; [intros _ Ea|done]. revert Hend. apply sim_pre. aac_reflexivity.
Qed.
(** What a routine that compiles a file has to do from any state, whatever follows. *)
Definition compiles R l (m : compiler_p → mem (Z * compiler_p)) (o : compiler → outcome (Z * compiler)) : Prop :=
  ∀ c p f g, c.(c_head) ≠ [] →
    (∀ r c' p', c'.(c_head) ≠ [] → sim (state_at l c' p' ∗ R) (f (r, low c' p')) (g (r, c')) Q) →
    sim (state_at l c p ∗ R) (m (low c p) ≫= f) (o c ≫= g) Q.

Lemma sim_compile_lines R fs l inc_p inc opts level filename fuel stream ln ret :
  (∀ name contents, compiles R l (inc_p name contents) (inc name contents)) →
  compiles R l (compile_lines_p fs inc_p opts level filename l fuel stream ln ret)
    (compile_lines fs inc opts level filename fuel stream ln ret).
Proof.
  intros Hinc. revert stream ln ret. induction fuel as [|n IH]; intros stream ln ret c p f g Hne H.
  { cbn. sim_steps. by apply H. }
  cbn [compile_lines_p compile_lines]. destruct (getmultiline stream) as [[line|] stream']; [|sim_steps; by apply H].
  case_match; [by apply IH|]. case_match.
  - case_match; [by apply IH|]. case_match; [|sim_steps; by apply H]. case_match; [|sim_steps; by apply H].
    sim_steps. apply Hinc; [done|]. intros r c' p' Hne'. case_match; [sim_steps; by apply H|by apply IH].
  - case_match; [|sim_steps; by apply H]. destruct p0 as [name rule]. sim_steps.
    apply sim_compile_regular_line; [done|]. intros go ret' c' p' Hne'.
    destruct go; [by apply IH|sim_steps; by apply H].
Qed.

Lemma sim_compile_file R fs l opts level filename stream :
  compiles R l (compile_file_p fs opts level filename l stream) (compile_file fs opts level filename stream).
Proof.
  apply sim_compile_lines. intros name contents. apply sim_compile_lines.
  intros name' contents' c p f g Hne H. sim_steps. by apply H.
Qed.

Lemma sim_allow_logging R names l bs (f : unit → mem A) o :
  sim (blocks l (allow_logging_syscalls_of names bs) ∗ R) (f tt) o Q →
  sim (blocks l bs ∗ R) (allow_logging_syscalls_of_p names l ≫= f) o Q.
Proof.
  revert bs. induction names as [|n names IH]; intros bs H; cbn in *; [by sim_steps|].
  sim_step. apply sim_append. by apply IH.
Qed.

Lemma sim_append_final R l bs opts f o :
  match append_final bs opts with
  | Some bs' => bs' ≠ [] → sim (blocks l bs' ∗ R) (f true) o Q
  | None => sim (blocks l bs ∗ R) (f false) o Q
  end →
  sim (blocks l bs ∗ R) (append_final_p l opts ≫= f) o Q.
Proof.
  unfold append_final_p, append_final. intros H.
  destruct (action opts); [..|destruct (allow_logging opts)|]; sim_step; try done.
  all: try (apply sim_append; sim_step; apply H, append_ne).
Qed.

Lemma blocks_head l bs h : blocks l bs h → ∃ b, h !! l = Some b ∧ b.(fb_total_len) = total_len bs.
Proof.
  intros [h' H|b h' H|b mid e z next la t h' H].
  - red in H. subst. exists zero_block. by rewrite lookup_singleton_eq.
  - red in H. subst. exists (node b None None (length b)). rewrite lookup_singleton_eq.
    split; [done|]. unfold total_len. cbn. lia.
  - destruct H as (h1 & h2 & -> & _ & H1 & _). red in H1. subst. eexists.
    split; [apply lookup_union_Some_l, lookup_singleton_eq|done].
Qed.

Lemma sim_load_head R l bs (f : filter_block → mem A) o :
  (∀ b, b.(fb_total_len) = total_len bs → sim (blocks l bs ∗ R) (f b) o Q) →
  sim (blocks l bs ∗ R) (load l ≫= f) o Q.
Proof.
  intros H h hf HP Hd. pose proof HP as (h1 & h2 & -> & _ & (b & Hb & Ht)%blocks_head & _).
  erewrite bind_step; [exact (H b Ht _ _ HP Hd)|].
  unfold load. by rewrite (lookup_union_Some_l _ _ _ b) by (by apply lookup_union_Some_l).
Qed.

Definition args_len (a : option fblocks) : nat := match a with Some a => total_len a | None => 0 end.

Lemma sim_args_len R p a (f : nat → mem A) o :
  sim (args p a ∗ R) (f (args_len a)) o Q →
  sim (args p a ∗ R)
    (match p with Some l => b ← load l; mret b.(fb_total_len) | None => mret 0 end ≫= f) o Q.
Proof.
  intros H. apply sim_args; [intros -> ->|intros l bs -> -> Hl]; cbn in H.
  - sim_step. by rewrite args_none, sep_comm, sep_emp in H.
  - rewrite args_some in H by done. sim_step. apply sim_load_head. intros b ->. by sim_step.
Qed.

Lemma sim_link_filter R l bs p a labels f g :
  bs ≠ [] →
  (∀ r, sim (blocks l bs ∗ args p a ∗ R) (f r) (g r) Q) →
  sim (blocks l bs ∗ args p a ∗ R) (link_filter_p l p labels ≫= f) (link_filter bs a labels ≫= g) Q.
Proof.
  intros Hne H. unfold link_filter_p, link_filter. sim_step. apply sim_load_head. intros b ->.
  sim_step. rewrite sep_left_comm. apply sim_args_len. rewrite sep_left_comm. fold (args_len a).
  case_match; [by sim_steps|]. sim_step. eapply sim_flatten; [intros h; by apply blocks_seg|].
  destruct (flatten_block_list bs _ _ _) as [filter|]; [|by sim_steps].
  sim_step. apply sim_load_head. intros b' ->. sim_step. rewrite sep_left_comm.
  eapply sim_flatten; [apply args_seg|]. rewrite sep_left_comm.
  destruct (flatten_block_list (default [] a) _ _ _) as [filter'|]; [|by sim_steps].
  sim_steps. destruct a0 as [[lb prog]|]; by sim_steps.
Qed.
End Files.

(** ** The compiler *)

Section Compiler.
Context {B : BuildConfig}.

Lemma length_allow_logging names bs : length bs ≤ length (allow_logging_syscalls_of names bs).
Proof.
  revert bs. induction names as [|n names IH]; intros bs; cbn; [done|].
  etrans; [|apply IH]. unfold append_allow_syscall. rewrite length_append. lia.
Qed.

(** The label free_filter. *)
Lemma sim_free_filter l bs p a (prog : option (list sock_filter)) :
  bs ≠ [] →
  sim (blocks l bs ∗ args p a ∗ emp)
    (_ ← free_block_list_p (Some l); (_ ← free_block_list_p p; mret prog) ≫= mret) (Ret prog)
    (λ a b, hpure (a = b)).
Proof.
  intros Hne. eapply sim_free_list; [intros h; by apply blocks_seg|].
  sim_step. apply sim_free_args. sim_steps. by apply sim_ret.
Qed.

Definition prologue (opts : filter_options) : fblocks :=
  let head := append_filter_block (append_filter_block new_filter_block bpf_validate_arch) [bpf_load_syscall_nr] in
  if opts.(allow_syscalls_for_logging) then allow_logging_syscalls head else head.

Lemma prologue_ne opts : prologue opts ≠ [].
Proof.
  unfold prologue. case_match; [|done]. intros Hn%(f_equal length).
  pose proof (length_allow_logging log_syscalls
    (append_filter_block (append_filter_block new_filter_block bpf_validate_arch) [bpf_load_syscall_nr])) as Hl.
  unfold allow_logging_syscalls in Hn. rewrite Hn, !length_append in Hl. cbn in Hl. lia.
Qed.

Lemma sim_compile_filter fs opts filename file :
  sim emp (compile_filter_p fs opts filename file) (compile_filter fs opts filename file)
    (λ a b, hpure (a = b)).
Proof.
  apply sim_tail. unfold compile_filter_p, compile_filter, new_filter_block_p, allow_logging_syscalls_p.
  destruct file as [stream|]; sim_steps; [|by apply sim_ret].
  rewrite blocks_zero. apply sim_append. sim_step. apply sim_append. sim_step.
  fold (prologue opts). pose proof (prologue_ne opts) as Hne.
  assert (∀ k o, sim (blocks l (prologue opts) ∗ emp) (k tt) o (λ a b, hpure (a = b)) →
    sim (blocks l (append_filter_block (append_filter_block [] bpf_validate_arch) [bpf_load_syscall_nr]) ∗ emp)
      ((if allow_syscalls_for_logging opts then allow_logging_syscalls_of_p log_syscalls l else mret tt) ≫= k)
      o (λ a b : option (list sock_filter), hpure (a = b))) as Hlog.
  { intros k o. unfold prologue. case_match; intros Hk; [by apply sim_allow_logging|by sim_step]. }
  apply Hlog. clear Hlog. sim_step. owns (blocks l (prologue opts) ∗ emp ∗ emp). rewrite <- args_none at 1.
  apply (sim_close _ _ _ {| c_head := prologue opts; c_arg_blocks := None; c_labels := [];
                            c_previous := replicate get_num_syscalls None |} None); [done..|].
  apply sim_compile_file; [done|]. intros r c p Hc. apply sim_open. cbn [low p_arg_blocks p_labels].
  destruct (negb (r =? 0)%Z); sim_steps; [by apply sim_free_filter|].
  apply sim_append_final. destruct (append_final (c_head c) opts) as [bs|]; cbn [negb].
  - intros Hbs. apply sim_link_filter; [done|]. intros prog. sim_steps. by apply sim_free_filter.
  - sim_steps. by apply sim_free_filter.
Qed.

(** The operations rely on the lists having two blocks: a list that is extended with
    a single block has a successor and no last node.  A second extension loses that
    block although its instructions are counted, and an append follows NULL. *)
Definition single (i : sock_filter) : mem loc :=
  l ← new_filter_block_p; _ ← append_filter_block_p l [i]; mret l.

Example extend_single_loses i j k :
  ('(h, _) ← (a ← single i; b ← single j; c ← single k;
             _ ← extend_filter_block_list_p a b; _ ← extend_filter_block_list_p a c;
             h ← load a; r ← flatten_block_list_p (Some a) (replicate 3 zero_instr) 0 3;
             mret (h.(fb_total_len), r)) ∅; Ret h) = Ret (3, Some [i; k; zero_instr]).
Proof. by vm_compute. Qed.

Example append_after_single i j k :
  (a ← single i; b ← single j; _ ← extend_filter_block_list_p a b; append_filter_block_p a [k]) ∅ = Undef.
Proof. by vm_compute. Qed.

Lemma compile_filter_p_spec fs opts filename file h :
  compile_filter_p fs opts filename file h =
    prog ← compile_filter fs opts filename file; Ret (prog, h).
Proof.
  pose proof (sim_emp _ _ _ h (sim_compile_filter fs opts filename file)) as H.
  destruct (compile_filter fs opts filename file) as [prog| |]; [|done|done].
  by destruct H as (prog' & E & <-).
Qed.

(** C3: the compiler in memory is the compiler on lists.  On any policy on which the
    compiler on lists is defined, compile_filter() returns the same program, or fails in
    the same way; then no access is outside an object it allocated, every loop over a
    chain ends, and whatever it returns it leaves no block behind and changes nothing
    else: the memory is what it was.  The blocks add no undefined behaviour of their
    own: where the compiler in memory is undefined the one on lists is, as it can be for
    a label table that runs over and for a missing file name. *)
Theorem compile_filter_refines fs opts filename file h :
  compile_filter_p fs opts filename file h =
    (prog ← compile_filter fs opts filename file; Ret (prog, h)) ∧
  (compile_filter fs opts filename file ≠ Undef → compile_filter_p fs opts filename file h ≠ Undef).
Proof. rewrite compile_filter_p_spec. split; [done|]. by destruct (compile_filter fs opts filename file). Qed.
End Compiler.
