(* ===== verification/Codec.v ===== *)
(** * Fixed-size encodings of C objects

    What copying an object's bytes to a buffer and back preserves: little-endian
    integers, pointers as null or not, arrays and structs.  A codec pairs an
    encoder with a decoder that consumes exactly the object's size. *)

From S2P Require Import Prelude CLib Util.
Local Open Scope Z_scope.

(** ** Little-endian integers *)

Definition byte_of (z : Z) : ascii := ascii_of_N (Z.to_N (z mod 256)).

Fixpoint le_bytes (n : nat) (z : Z) : list ascii :=
  match n with
  | O => []
  | S n => byte_of z :: le_bytes n (z / 256)
  end.

Fixpoint le_value (bs : list ascii) : Z :=
  match bs with
  | [] => 0
  | b :: rest => code_of b + 256 * le_value rest
  end.

Lemma length_le_bytes n z : length (le_bytes n z) = n.
Proof. revert z; induction n as [|n IH]; intros z; simpl; [done|]. by rewrite IH. Qed.

Lemma code_of_byte_of z : code_of (byte_of z) = z mod 256.
Proof.
  unfold code_of, byte_of. pose proof (Z.mod_pos_bound z 256).
  rewrite N_ascii_embedding; [rewrite Z2N.id; lia|].
  change 256%N with (Z.to_N 256). apply Z2N.inj_lt; lia.
Qed.

Lemma le_value_bytes n z : 0 <= z < 2 ^ (8 * Z.of_nat n) → le_value (le_bytes n z) = z.
Proof.
  revert z; induction n as [|n IH]; intros z Hz; simpl.
  - change (2 ^ (8 * Z.of_nat 0)) with 1 in Hz. lia.
  - rewrite code_of_byte_of, IH.
    + pose proof (Z.div_mod z 256). lia.
    + rewrite Nat2Z.inj_succ in Hz.
      replace (2 ^ (8 * Z.succ (Z.of_nat n))) with (256 * 2 ^ (8 * Z.of_nat n)) in Hz.
      2: { replace (8 * Z.succ (Z.of_nat n)) with (8 + 8 * Z.of_nat n) by lia.
           rewrite Z.pow_add_r by lia. done. }
      split; [apply Z.div_pos; lia|apply Z.div_lt_upper_bound; lia].
Qed.

(** ** Codecs *)

Record codec (A : Type) := {
  size : nat;
  enc : A → list ascii;
  dec : list ascii → A;
}.
Arguments size {A} c.
Arguments enc {A} c a.
Arguments dec {A} c bs.

(** [faithful c P]: what satisfies [P] survives, and the size is right. *)
Class faithful {A} (c : codec A) (P : A → Prop) : Prop := {
  enc_size a : length (enc c a) = size c;
  dec_enc a : P a → dec c (enc c a) = a;
}.

(** Unsigned integers of [n] bytes. *)
Definition c_uint (n : nat) : codec Z := {| size := n; enc := le_bytes n; dec := le_value |}.

#[export] Instance faithful_uint n : faithful (c_uint n) (λ z, 0 <= z < 2 ^ (8 * Z.of_nat n)).
Proof. split; simpl; [apply length_le_bytes|apply le_value_bytes]. Qed.

(** Signed integers of 4 bytes. *)
Definition c_int : codec Z :=
  {| size := 4; enc := λ z, le_bytes 4 (u32 z); dec := λ bs, s32 (le_value bs) |}.

#[export] Instance faithful_int : faithful c_int (λ z, - 2 ^ 31 <= z < 2 ^ 31).
Proof.
  split; [intros; apply length_le_bytes|]. intros z Hz. cbn [dec enc c_int].
  rewrite le_value_bytes by (apply (uwrap_range 32); lia). unfold uwrap, swrap.
  change (32 - 1) with 31. Z.div_mod_to_equations. lia.
Qed.

(** Pointers: null or not. *)
Definition c_ptr : codec bool :=
  {| size := 8; enc := λ b : bool, le_bytes 8 (if b then 1 else 0); dec := λ bs, negb (le_value bs =? 0) |}.

#[export] Instance faithful_ptr : faithful c_ptr (λ _ : bool, True).
Proof. split; [intros; apply length_le_bytes|by intros []]. Qed.

Definition c_pair {A B} (ca : codec A) (cb : codec B) : codec (A * B) := {|
  size := size ca + size cb;
  enc := λ p, enc ca p.1 ++ enc cb p.2;
  dec := λ bs, (dec ca (take (size ca) bs), dec cb (drop (size ca) bs));
|}.

Declare Scope codec_scope.
Delimit Scope codec_scope with codec.
Notation "c ⊠ d" := (c_pair c d) (at level 39, right associativity) : codec_scope.

#[export] Instance faithful_pair {A B} (ca : codec A) (cb : codec B) P Q :
  faithful ca P → faithful cb Q → faithful (c_pair ca cb) (λ p, P p.1 ∧ Q p.2).
Proof.
  intros Ha Hb. split; simpl.
  - intros [a b]. rewrite length_app. by rewrite (enc_size (c:=ca)), (enc_size (c:=cb)).
  - intros [a b] [Pa Qb]. simpl in *. pose proof (enc_size (c:=ca) a) as Hs.
    rewrite take_app_length', drop_app_length' by done.
    by rewrite (dec_enc (c:=ca)), (dec_enc (c:=cb)) by done.
Qed.

(** An array of [n] elements; a shorter list is padded. *)
Fixpoint enc_array {A} (c : codec A) (pad : A) (n : nat) (l : list A) : list ascii :=
  match n with
  | O => []
  | S n => enc c (default pad (head l)) ++ enc_array c pad n (tail l)
  end.

Fixpoint dec_array {A} (c : codec A) (n : nat) (bs : list ascii) : list A :=
  match n with
  | O => []
  | S n => dec c (take (size c) bs) :: dec_array c n (drop (size c) bs)
  end.

Definition c_array {A} (c : codec A) (pad : A) (n : nat) : codec (list A) := {|
  size := n * size c; enc := enc_array c pad n; dec := dec_array c n |}.

#[export] Instance faithful_array {A} (c : codec A) pad n P :
  faithful c P → faithful (c_array c pad n) (λ l, length l = n ∧ Forall P l).
Proof.
  intros Hc. split; simpl.
  - intros l. revert l; induction n as [|n IH]; intros l; simpl; [done|].
    by rewrite length_app, (enc_size (c:=c)), IH.
  - intros l [Hl HP]. revert n Hl. induction HP as [|a l Ha HP IH]; intros [|n] Hl; try done; simpl in *.
    pose proof (enc_size (c:=c) a) as Hs. rewrite take_app_length', drop_app_length' by done.
    rewrite (dec_enc (c:=c)) by done. f_equal. apply IH. lia.
Qed.

(** A type whose values are carried as those of another. *)
Definition c_map {A B} (f : A → B) (g : B → A) (c : codec B) : codec A := {|
  size := size c; enc := λ a, enc c (f a); dec := λ bs, g (dec c bs) |}.

Lemma faithful_map {A B} (f : A → B) (g : B → A) (c : codec B) P (Q : A → Prop) :
  faithful c P → (∀ a, Q a → P (f a) ∧ g (f a) = a) → faithful (c_map f g c) Q.
Proof.
  intros Hc Hf. split; simpl.
  - intros a. apply (enc_size (c:=c)).
  - intros a Ha. destruct (Hf a Ha) as [HP Hg]. by rewrite (dec_enc (c:=c)).
Qed.
