(* ===== verification/OS.v ===== *)
(** * Calls to the operating system

    A function that calls the kernel or the part of the C library that reads the
    system's state is a tree of calls: each node names the call with its
    arguments and has one branch per answer.  Nothing is assumed of the answers
    here: [wp] quantifies over all of them, and [run] follows the answers of one
    host and records the calls made. *)

From S2P Require Import Prelude CLib Util Bpf.
Local Open Scope Z_scope.

(** ** Calls and answers *)

Inductive oscall :=
  | Prctl (op : Z) (args : list Z)
  | PrctlSeccomp (prog : option (list sock_filter))
  | PrctlAltSyscall (table : option cstr)
  | SysSeccomp (op flag : Z) (prog : option (list sock_filter))
  | Open (path : cstr) (oflag mode : Z)
  | Write (fd : Z) (data : list ascii)
  | Read (fd n : Z)
  | Close (fd : Z)
  | Dup2 (oldfd newfd : Z)
  | Fcntl (fd cmd arg : Z)
  | FopenRead (path : cstr)
  | FdopenRead (fd : Z)
  | FopenWrite (path : cstr)
  | Fprintf (path : cstr) (text : cstr)
  | Fwrite (path : cstr) (data : list ascii)
  | Fclose (path : cstr)
  | Stat (path : cstr)
  | Access (path : cstr) (mode : Z)
  | Fstat (fd : Z)
  | Statvfs (path : cstr)
  | Statfs (path : cstr)
  | Mkdir (path : cstr) (mode : Z)
  | Mkdirat (dirfd : Z) (path : cstr) (mode : Z)
  | Mkdtemp (template : cstr)
  | Mknodat (dirfd : Z) (path : cstr) (mode major minor : Z)
  | Symlinkat (target : cstr) (dirfd : Z) (path : cstr)
  | Chown (path : cstr) (owner group : Z)
  | Fchown (fd owner group : Z)
  | Rmdir (path : cstr)
  | Umask (mode : Z)
  | Chdir (path : cstr)
  | Fchdir (fd : Z)
  | Chroot (path : cstr)
  | PivotRoot (new_root put_old : cstr)
  | Mount (src : option cstr) (dest : cstr) (type : option cstr) (mflags : Z) (data : option cstr)
  | Umount2 (path : cstr) (uflags : Z)
  | Unshare (cflags : Z)
  | Setns (fd nstype : Z)
  | Sethostname (name : cstr)
  | Socket (domain type : Z)
  | Ioctl (fd request arg : Z)
  | Setgroups (gids : list Z)
  | Initgroups (name : cstr) (group : Z)
  | Setresuid (u : Z)
  | Setresgid (g : Z)
  | Setrlimit (type cur max : Z)
  | Prlimit (pid type cur max : Z)
  | CapGetProc
  | CapGetBound (cap : Z)
  | CapGetFlag (cap : Z)
  | CapFromText (text : cstr)
  | CapClear
  | CapSetFlag (which cap : Z) (on : bool)
  | CapSetProc
  | CapFree
  | Sigaction (sig : Z)
  | SignalDefault (sig : Z)
  | SigUnblock (sig : Z)
  | SigBlock (sig : Z)
  | SigSetmask (restore : bool)
  | Sigtimedwait (sig : Z)
  | SignalInitTerm
  | Setsid
  | Isatty (fd : Z)
  | Keyctl (op : Z)
  | Clone (cflags : Z)
  | Fork
  | Execve (path : cstr) (argv envp : list cstr)
  | Fexecve (fd : Z) (argv envp : list cstr)
  | Kill (pid sig : Z)
  | Waitpid (pid : Z)
  | Wait
  | Exit (status : Z)
  | Getpid
  | Getuid
  | Getgid
  | Geteuid
  | Getegid
  | Setpgid
  | Pipe
  | Realpath (path : cstr)
  | Getpwnam_r (name : cstr) (bufsize : Z)
  | Getgrnam_r (name : cstr) (bufsize : Z)
  | Sysconf (name : Z)
  | LandlockCreateRuleset (handled : option Z) (lflags : Z)
  | LandlockAddRule (ruleset_fd fd allowed : Z)
  | LandlockRestrictSelf (ruleset_fd : Z)
  | RunHook (hook_ payload : Z)
  | Opendir (path : cstr)
  | Readdir
  | Closedir
  | Dlopen (path : cstr)
  | Dlsym (symbol : cstr)
  | Dlclose
  | CallMain (argv envp : list cstr).

(** What a call answers: its return value, errno after it, and what it stores
    through its pointer arguments, as bytes or as numbers. *)
Record answer := Answer {
  rv : Z;
  eno : Z;
  bytes : option (list ascii);
  nums : list Z;
}.

Definition ok : answer := Answer 0 0 None [].
Definition fails (e : Z) : answer := Answer (-1) e None [].
Definition returns (v : Z) : answer := Answer v 0 None [].

(** ** Programs

    A normal return; the end of the process (die(), _exit(2), a successful
    execve(2)), which is never a return; an access outside an object; a loop that
    has used up its fuel, which is not a return either. *)

Inductive io (A : Type) : Type :=
  | IRet (a : A)
  | IDie
  | IUndef
  | ILoop
  | ICall (c : oscall) (k : answer → io A).
Arguments IRet {A} a.
Arguments IDie {A}.
Arguments IUndef {A}.
Arguments ILoop {A}.
Arguments ICall {A} c k.

#[export] Instance io_ret : MRet io := @IRet.
#[export] Instance io_bind : MBind io := λ A B f,
  fix go m := match m with
              | IRet a => f a
              | IDie => IDie
              | IUndef => IUndef
              | ILoop => ILoop
              | ICall c k => ICall c (λ ans, go (k ans))
              end.

(** Make a call. *)
Definition call (c : oscall) : io answer := ICall c IRet.

Definition lift {A} (m : outcome A) : io A :=
  match m with Ret a => IRet a | Die => IDie | Undef => IUndef end.

(** ** All behaviours

    [wp m P]: whatever the answers, [m] does not touch memory outside its objects
    and every normal return satisfies [P] (a call to die() ends the process). *)
Fixpoint wp {A} (m : io A) (P : A → Prop) : Prop :=
  match m with
  | IRet a => P a
  | IDie | ILoop => True
  | IUndef => False
  | ICall c k => ∀ ans, wp (k ans) P
  end.

Lemma wp_bind {A B} (f : A → io B) m P : wp (m ≫= f) P ↔ wp m (λ a, wp (f a) P).
Proof.
  induction m as [a| | | |c k IH]; try done. simpl. split; intros H ans; by apply IH.
Qed.

Lemma wp_mono {A} (m : io A) (P Q : A → Prop) : (∀ a, P a → Q a) → wp m P → wp m Q.
Proof. intros H. induction m as [a| | | |c k IH]; simpl; eauto. Qed.

Lemma wp_conj {A} (m : io A) (P Q : A → Prop) : wp m P → wp m Q → wp m (λ a, P a ∧ Q a).
Proof. induction m as [a| | | |c k IH]; simpl; eauto. Qed.

(** [wlp m P]: the same for the normal returns only. *)
Fixpoint wlp {A} (m : io A) (P : A → Prop) : Prop :=
  match m with
  | IRet a => P a
  | IDie | IUndef | ILoop => True
  | ICall c k => ∀ ans, wlp (k ans) P
  end.

Lemma wlp_bind {A B} (f : A → io B) m P : wlp m (λ a, wlp (f a) P) → wlp (m ≫= f) P.
Proof. induction m as [a| | | |c k IH]; try done. simpl. intros H ans. by apply IH. Qed.

Lemma wlp_mono {A} (m : io A) (P Q : A → Prop) : (∀ a, P a → Q a) → wlp m P → wlp m Q.
Proof. intros H. induction m as [a| | | |c k IH]; simpl; eauto. Qed.

Lemma wlp_true {A} (m : io A) : wlp m (λ _, True).
Proof. induction m as [a| | | |c k IH]; simpl; eauto. Qed.

Lemma wlp_lift {A} (m : outcome A) (P : A → Prop) : (∀ a, m = Ret a → P a) → wlp (lift m) P.
Proof. destruct m; simpl; auto. Qed.

Lemma wlp_call (c : oscall) (P : answer → Prop) : (∀ a, P a) → wlp (call c) P.
Proof. done. Qed.

Lemma wp_wlp {A} (m : io A) P : wp m P → wlp m P.
Proof. induction m as [a| | | |c k IH]; simpl; eauto. Qed.

(** ** One behaviour

    A host answers a call from its state. *)

Section Host.
Context {H : Type} (host : oscall → H → answer * H).

Inductive result (A : Type) :=
  | Finished (a : A)
  | Died
  | Undefined
  | Looping.
Arguments Finished {A} a.
Arguments Died {A}.
Arguments Undefined {A}.
Arguments Looping {A}.

(** The result, the calls made in order, and the host's state afterwards. *)
Fixpoint run {A} (m : io A) (h : H) : result A * list oscall * H :=
  match m with
  | IRet a => (Finished a, [], h)
  | IDie => (Died, [], h)
  | IUndef => (Undefined, [], h)
  | ILoop => (Looping, [], h)
  | ICall c k =>
      let '(ans, h) := host c h in
      let '(r, t, h) := run (k ans) h in
      (r, c :: t, h)
  end.

Lemma run_wp {A} (m : io A) P h :
  wp m P →
  match (run m h).1.1 with Finished a => P a | Died | Looping => True | Undefined => False end.
Proof.
  revert h; induction m as [a| | | |c k IH]; intros h; simpl; try done.
  intros Hw. destruct (host c h) as [ans h'].
  specialize (IH ans h' (Hw ans)). by destruct (run (k ans) h') as [[[] t] h''].
Qed.

End Host.
Arguments Finished {A} a.
Arguments Died {A}.
Arguments Undefined {A}.
Arguments Looping {A}.

(** ** Errors and flags of the headers *)

Definition EPERM : Z := 1.
Definition ENOENT : Z := 2.
Definition EINTR : Z := 4.
Definition EEXIST : Z := 17.
Definition ENOSYS : Z := 38.
Definition ELOOP : Z := 40.
Definition EOPNOTSUPP : Z := 95.
Definition EFAULT : Z := 14.
Definition E2BIG : Z := 7.

Definition O_RDONLY : Z := 0.
Definition O_WRONLY : Z := 1.
Definition O_RDWR : Z := 2.
Definition O_CREAT : Z := 64.
Definition O_DIRECTORY : Z := 65536.
Definition O_CLOEXEC : Z := 524288.
Definition O_PATH : Z := 2097152.

Definition S_IFMT : Z := 61440.
Definition S_ISDIR (mode : Z) : bool := Z.land mode S_IFMT =? 16384.
Definition S_ISBLK (mode : Z) : bool := Z.land mode S_IFMT =? 24576.
Definition S_ISCHR (mode : Z) : bool := Z.land mode S_IFMT =? 8192.

Definition MS_RDONLY : Z := 1.
Definition MS_NOSUID : Z := 2.
Definition MS_NODEV : Z := 4.
Definition MS_NOEXEC : Z := 8.
Definition MS_REMOUNT : Z := 32.
Definition MS_NOSYMFOLLOW : Z := 256.
Definition MS_NOATIME : Z := 1024.
Definition MS_NODIRATIME : Z := 2048.
Definition MS_BIND : Z := 4096.
Definition MS_MOVE : Z := 8192.
Definition MS_REC : Z := 16384.
Definition MS_PRIVATE : Z := 262144.
Definition MS_SLAVE : Z := 524288.
Definition MS_SHARED : Z := 1048576.
Definition MS_UNBINDABLE : Z := 131072.
Definition MS_RELATIME : Z := 2097152.

Definition CLONE_NEWNS : Z := 0x00020000.
Definition CLONE_NEWCGROUP : Z := 0x02000000.
Definition CLONE_NEWUTS : Z := 0x04000000.
Definition CLONE_NEWIPC : Z := 0x08000000.
Definition CLONE_NEWUSER : Z := 0x10000000.
Definition CLONE_NEWPID : Z := 0x20000000.
Definition CLONE_NEWNET : Z := 0x40000000.
Definition MNT_DETACH : Z := 2.
Definition SIGCHLD : Z := 17.
Definition SIGKILL : Z := 9.
Definition SIGSYS : Z := 31.

Definition PR_SET_SECCOMP : Z := 22.
Definition PR_GET_SECUREBITS : Z := 27.
Definition PR_SET_SECUREBITS : Z := 28.
Definition PR_SET_NO_NEW_PRIVS : Z := 38.
Definition PR_CAP_AMBIENT : Z := 47.
Definition PR_CAP_AMBIENT_IS_SET : Z := 1.
Definition PR_CAP_AMBIENT_RAISE : Z := 2.
Definition PR_CAP_AMBIENT_CLEAR_ALL : Z := 4.
Definition PR_CAPBSET_DROP : Z := 24.
Definition SECCOMP_MODE_STRICT : Z := 1.
Definition SECCOMP_MODE_FILTER : Z := 2.
Definition SECCOMP_SET_MODE_FILTER : Z := 1.
Definition SECCOMP_FILTER_FLAG_TSYNC : Z := 1.
Definition SECCOMP_FILTER_FLAG_SPEC_ALLOW : Z := 4.
