(* ===== verification/Trace.v ===== *)
(** * Traces of calls

    What a program has asked of the system, with the answers, by the time it
    returns.  [traces m P] says that every trace that leads to a normal return
    satisfies [P]; it composes without naming the calls of the other parts. *)

From S2P Require Import Prelude OS.
Local Open Scope Z_scope.

Notation event := (oscall * answer)%type.
Notation trace := (list event).

Fixpoint traces {A} (m : io A) (P : A → trace → Prop) : Prop :=
  match m with
  | IRet a => P a []
  | IDie | IUndef | ILoop => True
  | ICall c k => ∀ ans, traces (k ans) (λ a t, P a ((c, ans) :: t))
  end.

Lemma traces_mono {A} (m : io A) (P Q : A → trace → Prop) :
  (∀ a t, P a t → Q a t) → traces m P → traces m Q.
Proof.
  revert P Q. induction m as [a| | | |c k IH]; simpl; intros P Q HPQ; auto.
  intros H ans. eapply IH; [|apply H]. eauto.
Qed.

Lemma traces_bind {A B} (m : io A) (f : A → io B) P :
  traces m (λ a t, traces (f a) (λ b t', P b (t ++ t'))) → traces (m ≫= f) P.
Proof.
  revert P. induction m as [a| | | |c k IH]; intros P; simpl; try done.
  intros H ans. apply IH. apply H.
Qed.

Lemma traces_true {A} (m : io A) : traces m (λ _ _, True).
Proof. induction m as [a| | | |c k IH]; simpl; auto. Qed.

Lemma traces_conj {A} (m : io A) (P Q : A → trace → Prop) :
  traces m P → traces m Q → traces m (λ a t, P a t ∧ Q a t).
Proof. revert P Q. induction m as [a| | | |c k IH]; simpl; intros P Q; auto. Qed.

Lemma traces_lift {A} (m : outcome A) (P : A → trace → Prop) :
  (∀ a, m = Ret a → P a []) → traces (lift m) P.
Proof. destruct m; simpl; auto. Qed.

(** The calls a program can make at all. *)
Fixpoint calls_only {A} (Q : oscall → Prop) (m : io A) : Prop :=
  match m with
  | ICall c k => Q c ∧ ∀ ans, calls_only Q (k ans)
  | _ => True
  end.

Lemma calls_only_bind {A B} Q (m : io A) (f : A → io B) :
  calls_only Q m → (∀ a, calls_only Q (f a)) → calls_only Q (m ≫= f).
Proof. induction m as [a| | | |c k IH]; simpl; intros Hm Hf; auto. destruct Hm. split; auto. Qed.

Lemma calls_only_traces {A} Q (m : io A) :
  calls_only Q m → traces m (λ _ t, Forall (λ e : event, Q e.1) t).
Proof.
  induction m as [a| | | |c k IH]; simpl; intros Hm; auto. destruct Hm as [Hc Hk]. intros ans.
  eapply traces_mono; [|apply IH, Hk]. simpl. auto.
Qed.

Lemma calls_only_mono {A} (Q R : oscall → Prop) (m : io A) :
  (∀ c, Q c → R c) → calls_only Q m → calls_only R m.
Proof. intros H. induction m as [a| | | |c k IH]; simpl; naive_solver. Qed.

Lemma calls_only_lift {A} Q (m : outcome A) : calls_only Q (lift m).
Proof. by destruct m. Qed.

Lemma calls_only_call Q c : Q c → calls_only Q (call c).
Proof. by split. Qed.

(** ** The calls as they are made

    [before m t P]: after the trace [t], every call [c] that [m] makes satisfies
    [P] with the trace in front of it, on every path, returning or not. *)
Fixpoint before {A} (m : io A) (t : trace) (P : oscall → trace → Prop) : Prop :=
  match m with
  | ICall c k => P c t ∧ ∀ ans, before (k ans) (t ++ [(c, ans)]) P
  | _ => True
  end.

Lemma before_bind {A B} (m : io A) (f : A → io B) t P :
  before m t P → traces m (λ a t', before (f a) (t ++ t') P) → before (m ≫= f) t P.
Proof.
  revert t. induction m as [a| | | |c k IH]; intros t; simpl; try done.
  - intros _. by rewrite app_nil_r.
  - intros [Hc Hk] Ht. split; [done|]. intros ans. apply IH; [done|].
    eapply traces_mono; [|apply Ht]. intros a t' H. cbn in H. by rewrite <- app_assoc.
Qed.

Lemma before_only {A} (Q : oscall → Prop) (m : io A) t P :
  calls_only Q m → (∀ c t, Q c → P c t) → before m t P.
Proof.
  intros Hm HP. revert t. induction m as [a| | | |c k IH]; intros t; simpl; try done.
  destruct Hm as [Hc Hk]. split; [by apply HP|]. intros ans. by apply IH.
Qed.

Lemma before_mono {A} (m : io A) t (P Q : oscall → trace → Prop) :
  (∀ c t, P c t → Q c t) → before m t P → before m t Q.
Proof.
  intros HPQ. revert t. induction m as [a| | | |c k IH]; intros t; simpl; try done.
  intros [Hc Hk]. split; [by apply HPQ|]. intros ans. by apply IH.
Qed.

Lemma before_shift {A} (m : io A) t0 (P Q : oscall → trace → Prop) :
  (∀ c t, P c t → Q c (t0 ++ t)) → before m [] P → before m t0 Q.
Proof.
  intros HPQ. assert (∀ t, before m t P → before m (t0 ++ t) Q) as H.
  { induction m as [a| | | |c k IH]; intros t; simpl; try done.
    intros [Hc Hk]. split; [by apply HPQ|]. intros ans. rewrite <- app_assoc. by apply IH. }
  intros Hm. specialize (H [] Hm). by rewrite app_nil_r in H.
Qed.

(** A trace that [m] can have made so far. *)
Fixpoint partial {A} (m : io A) (t : trace) : Prop :=
  match t, m with
  | [], _ => True
  | (c, ans) :: t, ICall c' k => c' = c ∧ partial (k ans) t
  | _ :: _, _ => False
  end.

Lemma before_partial {A} (m : io A) t0 P t1 c ans t2 :
  before m t0 P → partial m (t1 ++ (c, ans) :: t2) → P c (t0 ++ t1).
Proof.
  revert t0 t1. induction m as [a| | | |c' k IH]; intros t0 [|[c1 a1] t1]; simpl; try done.
  - intros [HP _] [-> _]. by rewrite app_nil_r.
  - intros [_ Hk] [-> Ht]. specialize (IH a1 _ t1 (Hk a1) Ht). by rewrite <- app_assoc in IH.
Qed.

(** A complete run that returns. *)
Fixpoint ran {A} (m : io A) (t : trace) (a : A) : Prop :=
  match m, t with
  | IRet a', [] => a' = a
  | ICall c k, (c', ans) :: t => c = c' ∧ ran (k ans) t a
  | _, _ => False
  end.

Lemma traces_ran {A} (m : io A) : traces m (λ a t, ran m t a).
Proof.
  induction m as [a| | | |c k IH]; simpl; auto. intros ans. eapply traces_mono; [|apply IH]. by split.
Qed.

Lemma ran_traces {A} (m : io A) P t a : traces m P → ran m t a → P a t.
Proof.
  revert P t. induction m as [a'| | | |c k IH]; intros P [|[c' ans] t]; simpl; try done.
  - by intros ? <-.
  - intros H [<- Hr]. exact (IH ans _ t (H ans) Hr).
Qed.

(** The traces that end in the end of the process. *)
Fixpoint deaths {A} (m : io A) (P : trace → Prop) : Prop :=
  match m with
  | IDie => P []
  | ICall c k => ∀ ans, deaths (k ans) (λ t, P ((c, ans) :: t))
  | _ => True
  end.

Lemma deaths_bind {A B} (m : io A) (f : A → io B) P :
  deaths m P → traces m (λ a t, deaths (f a) (λ t', P (t ++ t'))) → deaths (m ≫= f) P.
Proof.
  revert P. induction m as [a| | | |c k IH]; intros P; simpl; try done.
  intros Hd Ht ans. by apply IH.
Qed.

Lemma deaths_mono {A} (m : io A) (P Q : trace → Prop) :
  (∀ t, P t → Q t) → deaths m P → deaths m Q.
Proof.
  revert P Q. induction m as [a| | | |c k IH]; simpl; intros P Q HPQ; eauto.
  intros H ans. eapply IH; [|apply H]. simpl. auto.
Qed.

(** ** Runs that return

    [total K m t P]: after the trace [t], every run of [m] whose trace satisfies
    [K] at each point returns normally, and then [P] holds. *)
Fixpoint total {A} (K : trace → Prop) (m : io A) (t : trace) (P : A → trace → Prop) : Prop :=
  match m with
  | IRet a => P a t
  | IDie | IUndef | ILoop => False
  | ICall c k => ∀ ans, K (t ++ [(c, ans)]) → total K (k ans) (t ++ [(c, ans)]) P
  end.

Lemma total_bind {A B} K (m : io A) (f : A → io B) t P :
  total K m t (λ a t', total K (f a) t' P) → total K (m ≫= f) t P.
Proof.
  revert t. induction m as [a| | | |c k IH]; intros t; simpl; try done.
  intros H ans HK. by apply IH, H.
Qed.

Lemma total_mono {A} K (m : io A) t (P Q : A → trace → Prop) :
  (∀ a t, P a t → Q a t) → total K m t P → total K m t Q.
Proof.
  intros HPQ. revert t. induction m as [a| | | |c k IH]; intros t; simpl; eauto.
Qed.

Lemma total_traces {A} K (m : io A) t P :
  total K m t P → traces m (λ a t', (∀ t1 t2, t' = t1 ++ t2 → K (t ++ t1)) → P a (t ++ t')).
Proof.
  intros Hm. cut (∀ C : Prop, (C → total K m t P) → traces m (λ a t',
    C → (∀ t1 t2, t' = t1 ++ t2 → K (t ++ t1)) → P a (t ++ t'))).
  { intros H. eapply traces_mono; [|apply (H True)]; [|done]. auto. }
  clear Hm. revert t. induction m as [a| | | |c k IH]; intros t C H; simpl; try done.
  - intros HC _. rewrite app_nil_r. by apply H.
  - intros ans. eapply traces_mono; [|apply (IH ans (t ++ [(c, ans)]) (C ∧ K (t ++ [(c, ans)])))].
    + intros a t' Ht' HC HK. rewrite (cons_middle (c, ans) t t'), app_assoc. apply Ht'.
      * split; [done|]. by apply (HK [(c, ans)] t').
      * intros t1 t2 ->. rewrite <- app_assoc. by apply (HK ((c, ans) :: t1) t2).
    + intros [HC HK]. by apply H.
Qed.

(** Every path of [m] ends in a return or in undefined behaviour. *)
Fixpoint ends_in_return {A} (m : io A) : Prop :=
  match m with
  | IRet _ | IUndef => True
  | IDie | ILoop => False
  | ICall c k => ∀ ans, ends_in_return (k ans)
  end.

Lemma ends_in_return_bind {A B} (m : io A) (f : A → io B) :
  ends_in_return m → (∀ a, ends_in_return (f a)) → ends_in_return (m ≫= f).
Proof. induction m as [a| | | |c k IH]; simpl; auto. Qed.

Lemma wp_total {A} K (m : io A) t (P : A → Prop) :
  wp m P → ends_in_return m → total K m t (λ a _, P a).
Proof. revert t. induction m as [a| | | |c k IH]; simpl; auto. Qed.

(** ** Facts about a trace *)

(** The call was made and succeeded. *)
Definition did (t : trace) (c : oscall) : Prop := Exists (λ e : event, e.1 = c ∧ rv e.2 = 0) t.

Lemma did_app t t' c : did (t ++ t') c ↔ did t c ∨ did t' c.
Proof. apply list.Exists_app. Qed.

Lemma did_cons e t c : did (e :: t) c ↔ (e.1 = c ∧ rv e.2 = 0) ∨ did t c.
Proof. apply List.Exists_cons. Qed.

Lemma did_nil c : ¬ did [] c.
Proof. intros H. inversion H. Qed.

(** [t1] comes before [t2] in a program that runs [m] then [f]: a normal return of
    both. *)
Lemma traces_seq {A B} (m : io A) (f : A → io B) (P : A → trace → Prop) (Q : A → B → trace → Prop) R :
  traces m P → (∀ a, traces (f a) (Q a)) →
  (∀ a b t t', P a t → Q a b t' → R b (t ++ t')) → traces (m ≫= f) R.
Proof.
  intros Hm Hf HR. apply traces_bind. eapply traces_mono; [|exact Hm]. intros a t HP.
  eapply traces_mono; [|apply Hf]. simpl. eauto.
Qed.

(** ** A run gives one of the traces *)

Section Host.
Context {H : Type} (host : oscall → H → answer * H).

(** The result with the whole trace. *)
Fixpoint run_trace {A} (m : io A) (h : H) : result A * trace * H :=
  match m with
  | IRet a => (Finished a, [], h)
  | IDie => (Died, [], h)
  | IUndef => (Undefined, [], h)
  | ILoop => (Looping, [], h)
  | ICall c k =>
      let '(ans, h) := host c h in
      let '(r, t, h) := run_trace (k ans) h in
      (r, (c, ans) :: t, h)
  end.

Lemma run_trace_partial {A} (m : io A) h : partial m (run_trace m h).1.2.
Proof.
  revert h. induction m as [a| | | |c k IH]; intros h; simpl; try done.
  destruct (host c h) as [ans h']. specialize (IH ans h').
  by destruct (run_trace (k ans) h') as [[r t] h''].
Qed.

Lemma run_trace_ran {A} (m : io A) h a : (run_trace m h).1.1 = Finished a → ran m (run_trace m h).1.2 a.
Proof.
  revert h. induction m as [a'| | | |c k IH]; intros h; simpl; try done; [by intros [=]|].
  destruct (host c h) as [ans h1]. specialize (IH ans h1).
  destruct (run_trace (k ans) h1) as [[r t] h2]. cbn in *. auto.
Qed.

Lemma run_trace_forall {A} (P : event → Prop) (m : io A) h :
  (∀ c h, P (c, (host c h).1)) → Forall P (run_trace m h).1.2.
Proof.
  intros HP. revert h. induction m as [a'| | | |c k IH]; intros h; simpl; try done.
  specialize (HP c h). destruct (host c h) as [ans h1]. specialize (IH ans h1).
  destruct (run_trace (k ans) h1) as [[r t] h2]. by constructor.
Qed.

Lemma run_traces {A} (m : io A) P h :
  traces m P →
  match run_trace m h with (Finished a, t, _) => P a t | _ => True end.
Proof.
  revert P h. induction m as [a| | | |c k IH]; intros P h; simpl; try done.
  intros Hm. destruct (host c h) as [ans h']. specialize (IH ans _ h' (Hm ans)).
  by destruct (run_trace (k ans) h') as [[[] t] h''].
Qed.

End Host.
