(* ===== verification/System.v ===== *)
(** * system.c and landlock_util.c

    Thin layers over kernel and C library calls.  Messages written to the log are
    not modelled; closing a descriptor at the end of its scope is a [Close] call
    (attribute_cleanup_fd closes only descriptors that are not negative). *)

From S2P Require Import Prelude CLib Util OS.
Local Open Scope Z_scope.

(** ** Secure bits *)

Definition SECBIT_NOROOT : Z := 1.
Definition SECBIT_NOROOT_LOCKED : Z := 2.
Definition SECBIT_KEEP_CAPS : Z := 16.
Definition SECBIT_KEEP_CAPS_LOCKED : Z := 32.
Definition SECBIT_NO_CAP_AMBIENT_RAISE : Z := 64.
Definition SECBIT_NO_CAP_AMBIENT_RAISE_LOCKED : Z := 128.
Definition SECURE_ALL_BITS : Z := 0x55.
Definition SECURE_ALL_LOCKS : Z := 0xaa.

Definition secure_noroot_set_and_locked (mask : Z) : bool :=
  Z.land mask (Z.lor SECBIT_NOROOT SECBIT_NOROOT_LOCKED)
  =? Z.lor SECBIT_NOROOT SECBIT_NOROOT_LOCKED.

(** The bits to set, given the current ones where KEEP_CAPS is not required. *)
Definition securebits_to_set (skip_mask : Z) (current : option Z) : Z :=
  let securebits := Z.lor SECURE_ALL_BITS SECURE_ALL_LOCKS in
  let securebits :=
    match current with
    | Some cur =>
        if negb (Z.land cur SECBIT_KEEP_CAPS_LOCKED =? 0) && (Z.land cur SECBIT_KEEP_CAPS =? 0)
        then Z.ldiff securebits SECBIT_KEEP_CAPS else securebits
    | None => securebits
    end in
  let securebits :=
    Z.ldiff securebits (Z.lor SECBIT_NO_CAP_AMBIENT_RAISE SECBIT_NO_CAP_AMBIENT_RAISE_LOCKED) in
  Z.ldiff securebits skip_mask.

Definition set_securebits (securebits : Z) : io Z :=
  if securebits =? 0 then mret 0
  else
    a ← call (Prctl PR_SET_SECUREBITS [securebits]);
    mret (if rv a <? 0 then -1 else 0).

Definition lock_securebits (skip_mask : Z) (require_keep_caps : bool) : io Z :=
  if require_keep_caps then set_securebits (securebits_to_set skip_mask None)
  else
    a ← call (Prctl PR_GET_SECUREBITS []);
    if rv a <? 0 then mret (-1)
    else set_securebits (securebits_to_set skip_mask (Some (rv a))).

(** ** Files under /proc and pid files *)

(** attribute_cleanup_fd *)
Definition cleanup_fd (fd : Z) : io unit :=
  if fd <? 0 then mret tt else (_ ← call (Close fd); mret tt).

Definition write_proc_file (pid : Z) (content basename : cstr) : io Z :=
  let full := str "/proc/" ++ fmt_d pid ++ str "/" ++ basename in
  if (32 <=? length full)%nat then mret (-1)
  else
    a ← call (Open full (Z.lor O_WRONLY O_CLOEXEC) 0);
    let fd := rv a in
    if fd <? 0 then mret (- eno a)
    else
      a ← call (Write fd content);
      let written := rv a in
      _ ← cleanup_fd fd;
      if written <? 0 then mret (- eno a)
      else if written <? Z.of_nat (length content) then mret (-1) else mret 0.

(** The non-Android branch: [bytes] of the answer is the file's content. *)
Definition get_last_valid_cap : io Z :=
  a ← call (FopenRead (str "/proc/sys/kernel/cap_last_cap"));
  match bytes a with
  | None => IDie
  | Some content =>
      match scan_number 10 (c_str content) with
      | None => IDie
      | Some (neg, v, _) => mret (u32 (signed_of neg v))
      end
  end.

Definition cap_ambient_supported : io bool :=
  a ← call (Prctl PR_CAP_AMBIENT [PR_CAP_AMBIENT_IS_SET; 0; 0; 0]);
  mret (0 <=? rv a).

Definition AF_LOCAL : Z := 1.
Definition SOCK_DGRAM : Z := 2.
Definition SOCK_CLOEXEC : Z := 524288.
Definition SIOCGIFFLAGS : Z := 0x8913.
Definition SIOCSIFFLAGS : Z := 0x8914.
Definition IFF_UP : Z := 1.
Definition IFF_RUNNING : Z := 64.

(** The flags of the interface are the number stored by the first ioctl. *)
Definition config_net_loopback : io Z :=
  a ← call (Socket AF_LOCAL (Z.lor SOCK_DGRAM SOCK_CLOEXEC));
  let sock := rv a in
  if sock <? 0 then mret (-1)
  else
    a ← call (Ioctl sock SIOCGIFFLAGS 0);
    if rv a <? 0 then (_ ← cleanup_fd sock; mret (-1))
    else
      let ifr_flags := Z.lor (default 0 (head (nums a))) (Z.lor IFF_UP IFF_RUNNING) in
      a ← call (Ioctl sock SIOCSIFFLAGS ifr_flags);
      _ ← cleanup_fd sock;
      mret (if rv a <? 0 then -1 else 0).

Definition write_pid_to_path (pid : Z) (path : cstr) : io Z :=
  a ← call (FopenWrite path);
  if rv a <? 0 then mret (- eno a)
  else
    a ← call (Fprintf path (fmt_d pid ++ [NL]));
    if rv a <? 0 then (_ ← call (Fclose path); mret (-1))
    else
      a ← call (Fclose path);
      mret (if rv a =? 0 then 0 else - eno a).

(** ** Mount destinations *)

(** The proper prefixes of [path] that end in front of a slash, after the first
    character: the directories mkdir_p creates. *)
Fixpoint parent_dirs (seen rest : cstr) : list cstr :=
  match rest with
  | [] => []
  | c :: rest' =>
      if bool_decide (c = "/"%char) then seen :: parent_dirs (seen ++ [c]) rest'
      else parent_dirs (seen ++ [c]) rest'
  end.

Fixpoint mkdir_all (dirs : list cstr) (mode : Z) : io Z :=
  match dirs with
  | [] => mret 0
  | d :: rest =>
      a ← call (Mkdir d mode);
      if negb (rv a =? 0) && negb (eno a =? EEXIST) then mret (- eno a) else mkdir_all rest mode
  end.

(** An empty path makes the code search behind the string's terminator. *)
Definition mkdir_p (path : cstr) (mode : Z) (isdir : bool) : io Z :=
  match path with
  | [] => IUndef
  | c :: rest =>
      rc ← mkdir_all (parent_dirs [c] rest) mode;
      if negb (rc =? 0) then mret rc
      else if isdir then
        a ← call (Mkdir path mode);
        if negb (rv a =? 0) && negb (eno a =? EEXIST) then mret (- eno a) else mret 0
      else mret 0
  end.

(** The error, or the flags of the file system that holds [source]. *)
Definition get_mount_flags (source : cstr) : io (Z + Z) :=
  a ← call (Statvfs source);
  if rv a =? 0 then mret (inr (default 0 (head (nums a)))) else mret (inl (- eno a)).

(** What [stat] stores: the mode. *)
Definition st_mode (a : answer) : Z := default 0 (head (nums a)).

Definition create_mount_destination (dest : cstr) (uid gid : Z) (domkdir : bool) : io Z :=
  rc ← mkdir_p dest 493 domkdir;
  if negb (rc =? 0) then mret rc
  else
    rc ← (if domkdir then mret 0
          else
            a ← call (Open dest (Z.lor O_RDWR (Z.lor O_CREAT O_CLOEXEC)) 448);
            if rv a <? 0 then mret (- eno a) else (_ ← cleanup_fd (rv a); mret 0));
    if negb (rc =? 0) then mret rc
    else
      a ← call (Chown dest uid gid);
      mret (if rv a =? 0 then 0 else - eno a).

Definition setup_mount_destination (source dest : cstr) (uid gid : Z) (bind : bool) : io Z :=
  a ← call (Stat dest);
  if rv a =? 0 then mret 0
  else if bool_decide (head source = Some "/"%char) then
    a ← call (Stat source);
    if negb (rv a =? 0) then mret (- eno a)
    else
      let mode := st_mode a in
      create_mount_destination dest uid gid
        (S_ISDIR mode || (negb bind && (S_ISBLK mode || S_ISCHR mode)))
  else if bind then mret (- EINVAL)
  else create_mount_destination dest uid gid true.

(** ** Users and groups *)

Definition SC_GETGR_R_SIZE_MAX : Z := 69.
Definition SC_GETPW_R_SIZE_MAX : Z := 70.
Definition MAX_PWENT_SZ : Z := 1048576.
Definition MAX_GRENT_SZ : Z := 1048576.

(** The retry loop: [call_r sz] asks with a buffer of [sz] bytes; the loop body
    runs at least once. *)
Fixpoint lookup_loop {A} (fuel : nat) (call_r : Z → oscall) (found : list Z → option A)
    (max sz : Z) : io (Z + A) :=
  match fuel with
  | O => mret (inl (- ERANGE))
  | S n =>
      a ← call (call_r sz);
      let err := rv a in
      if err =? ERANGE then
        let sz := sz * 2 in
        if sz <=? max then lookup_loop n call_r found max sz else mret (inl (- ERANGE))
      else if negb (err =? 0) then mret (inl (- err))
      else match found (nums a) with
           | None => mret (inl (- ENOENT))
           | Some r => mret (inr r)
           end
  end.

(** Twenty-one doublings take any positive size past the limit. *)
Definition lookup_fuel : nat := 22.

Definition lookup_user (user : cstr) : io (Z + (Z * Z)) :=
  a ← call (Sysconf SC_GETPW_R_SIZE_MAX);
  let sz := if rv a =? -1 then 65536 else rv a in
  lookup_loop lookup_fuel (Getpwnam_r user)
    (λ l, match l with [u; g] => Some (u32 u, u32 g) | _ => None end) MAX_PWENT_SZ sz.

Definition lookup_group (group : cstr) : io (Z + Z) :=
  a ← call (Sysconf SC_GETGR_R_SIZE_MAX);
  let sz := if rv a =? -1 then 65536 else rv a in
  lookup_loop lookup_fuel (Getgrnam_r group)
    (λ l, match l with [g] => Some (u32 g) | _ => None end) MAX_GRENT_SZ sz.

(** ** Seccomp support *)

(** The non-Android branch; the answer's bytes are the content of the file. *)
Definition seccomp_action_is_available (wanted : cstr) : io bool :=
  a ← call (FopenRead (str "/proc/sys/kernel/seccomp/actions_avail"));
  match bytes a with
  | None => mret false
  | Some content =>
      match getline content with
      | None => mret false
      | Some (line, _) =>
          mret (match strstr_split wanted (c_str line) with Some _ => true | None => false end)
      end
  end.

Definition seccomp_ret_log_available : io bool := seccomp_action_is_available (str "log").

Definition seccomp_ret_kill_process_available : io bool :=
  seccomp_action_is_available (str "kill_process").

Definition sys_set_no_new_privs : io bool :=
  a ← call (Prctl PR_SET_NO_NEW_PRIVS [1; 0; 0; 0]);
  mret (rv a =? 0).

Definition seccomp_filter_flags_available (sflags : Z) : io bool :=
  a ← call (SysSeccomp SECCOMP_SET_MODE_FILTER sflags None);
  mret (negb (rv a =? -1) || negb (eno a =? EINVAL)).

(** ** Paths *)

(** Whether [path] is its own resolution [rp], up to one trailing slash. *)
Definition canonical_of (path rp : cstr) : bool :=
  streq path rp ||
  ((length path =? length rp + 1)%nat && strncmp_eq path rp (length rp)
   && bool_decide (list.last path = Some "/"%char)).

Definition is_canonical_path (path : cstr) : io bool :=
  a ← call (Realpath path);
  match bytes a with
  | None => mret false
  | Some rp => mret (canonical_of path rp)
  end.

(** ** landlock_util.c *)

Definition LANDLOCK_ACCESS_FS_EXECUTE : Z := 2 ^ 0.
Definition LANDLOCK_ACCESS_FS_WRITE_FILE : Z := 2 ^ 1.
Definition LANDLOCK_ACCESS_FS_READ_FILE : Z := 2 ^ 2.
Definition LANDLOCK_ACCESS_FS_READ_DIR : Z := 2 ^ 3.
Definition LANDLOCK_ACCESS_FS_REMOVE_DIR : Z := 2 ^ 4.
Definition LANDLOCK_ACCESS_FS_REMOVE_FILE : Z := 2 ^ 5.
Definition LANDLOCK_ACCESS_FS_MAKE_CHAR : Z := 2 ^ 6.
Definition LANDLOCK_ACCESS_FS_MAKE_DIR : Z := 2 ^ 7.
Definition LANDLOCK_ACCESS_FS_MAKE_REG : Z := 2 ^ 8.
Definition LANDLOCK_ACCESS_FS_MAKE_SOCK : Z := 2 ^ 9.
Definition LANDLOCK_ACCESS_FS_MAKE_FIFO : Z := 2 ^ 10.
Definition LANDLOCK_ACCESS_FS_MAKE_BLOCK : Z := 2 ^ 11.
Definition LANDLOCK_ACCESS_FS_MAKE_SYM : Z := 2 ^ 12.
Definition LANDLOCK_ACCESS_FS_REFER : Z := 2 ^ 13.

Definition or_all (l : list Z) : Z := foldr Z.lor 0 l.

Definition ACCESS_FS_ROUGHLY_READ : Z :=
  or_all [LANDLOCK_ACCESS_FS_READ_FILE; LANDLOCK_ACCESS_FS_READ_DIR].
Definition ACCESS_FS_ROUGHLY_READ_EXECUTE : Z :=
  or_all [LANDLOCK_ACCESS_FS_EXECUTE; LANDLOCK_ACCESS_FS_READ_FILE; LANDLOCK_ACCESS_FS_READ_DIR].
Definition ACCESS_FS_ROUGHLY_BASIC_WRITE : Z :=
  or_all [LANDLOCK_ACCESS_FS_WRITE_FILE; LANDLOCK_ACCESS_FS_REMOVE_DIR;
          LANDLOCK_ACCESS_FS_REMOVE_FILE; LANDLOCK_ACCESS_FS_MAKE_DIR; LANDLOCK_ACCESS_FS_MAKE_REG].
Definition ACCESS_FS_ROUGHLY_EDIT : Z :=
  or_all [LANDLOCK_ACCESS_FS_WRITE_FILE; LANDLOCK_ACCESS_FS_REMOVE_DIR;
          LANDLOCK_ACCESS_FS_REMOVE_FILE].
Definition ACCESS_FS_ROUGHLY_FULL_WRITE : Z :=
  or_all [LANDLOCK_ACCESS_FS_WRITE_FILE; LANDLOCK_ACCESS_FS_REMOVE_DIR;
          LANDLOCK_ACCESS_FS_REMOVE_FILE; LANDLOCK_ACCESS_FS_MAKE_CHAR;
          LANDLOCK_ACCESS_FS_MAKE_DIR; LANDLOCK_ACCESS_FS_MAKE_REG;
          LANDLOCK_ACCESS_FS_MAKE_SOCK; LANDLOCK_ACCESS_FS_MAKE_FIFO;
          LANDLOCK_ACCESS_FS_MAKE_BLOCK; LANDLOCK_ACCESS_FS_MAKE_SYM].
Definition ACCESS_FILE : Z :=
  or_all [LANDLOCK_ACCESS_FS_EXECUTE; LANDLOCK_ACCESS_FS_WRITE_FILE; LANDLOCK_ACCESS_FS_READ_FILE].
Definition HANDLED_ACCESS_TYPES : Z :=
  Z.lor ACCESS_FS_ROUGHLY_READ_EXECUTE ACCESS_FS_ROUGHLY_FULL_WRITE.
Definition LANDLOCK_ABI_FS_REFER_SUPPORTED : Z := 2.
Definition LANDLOCK_CREATE_RULESET_VERSION : Z := 1.

Definition populate_ruleset_internal (path : cstr) (ruleset_fd allowed_access : Z) : io bool :=
  a ← call (Open path (Z.lor O_PATH O_CLOEXEC) 0);
  let fd := rv a in
  if fd <? 0 then mret false
  else
    a ← call (Fstat fd);
    if negb (rv a =? 0) then (_ ← cleanup_fd fd; mret false)
    else
      let allowed :=
        if S_ISDIR (st_mode a) then allowed_access else Z.land allowed_access ACCESS_FILE in
      a ← call (LandlockAddRule ruleset_fd fd allowed);
      _ ← cleanup_fd fd;
      mret (rv a =? 0).
