(* ===== verification/Jail.v ===== *)
(** * struct minijail and the configuration API of libminijail.c

    The jail's configuration record, every function of the API that fills it in,
    the two functions that strip it on its way to the jailed process, and the
    parts of system.c these call.  A bit field of [flags] is a member of a finite
    set; a linked list with its head and tail pointers is a list; an array with
    its count is a list whose length is the count; memory allocation succeeds. *)

From S2P Require Import Prelude CLib Util Bpf SyscallFilter OS System.
Local Open Scope Z_scope.

(** ** Flags *)

Inductive jflag :=
  | F_uid | F_gid | F_inherit_suppl_gids | F_set_suppl_gids
  | F_keep_suppl_gids | F_use_caps | F_capbset_drop | F_set_ambient_caps
  | F_vfs | F_enter_vfs | F_pids | F_ipc
  | F_uts | F_net | F_enter_net | F_ns_cgroups
  | F_userns | F_disable_setgroups | F_seccomp | F_remount_proc_ro
  | F_no_new_privs | F_seccomp_filter | F_seccomp_filter_tsync | F_seccomp_filter_logging
  | F_seccomp_filter_allow_speculation | F_chroot | F_pivot_root | F_mount_dev
  | F_mount_tmp | F_do_init | F_run_as_init | F_pid_file
  | F_cgroups | F_alt_syscall | F_reset_signal_mask | F_reset_signal_handlers
  | F_close_open_fds | F_new_session_keyring | F_forward_signals | F_setsid
  | F_using_minimalistic_mountns | F_enable_fs_restrictions | F_enable_profile_fs_restrictions | F_enable_default_runtime.

Definition all_flags : list jflag :=
  [F_uid; F_gid; F_inherit_suppl_gids; F_set_suppl_gids;
   F_keep_suppl_gids; F_use_caps; F_capbset_drop; F_set_ambient_caps;
   F_vfs; F_enter_vfs; F_pids; F_ipc;
   F_uts; F_net; F_enter_net; F_ns_cgroups;
   F_userns; F_disable_setgroups; F_seccomp; F_remount_proc_ro;
   F_no_new_privs; F_seccomp_filter; F_seccomp_filter_tsync; F_seccomp_filter_logging;
   F_seccomp_filter_allow_speculation; F_chroot; F_pivot_root; F_mount_dev;
   F_mount_tmp; F_do_init; F_run_as_init; F_pid_file;
   F_cgroups; F_alt_syscall; F_reset_signal_mask; F_reset_signal_handlers;
   F_close_open_fds; F_new_session_keyring; F_forward_signals; F_setsid;
   F_using_minimalistic_mountns; F_enable_fs_restrictions; F_enable_profile_fs_restrictions; F_enable_default_runtime].

(** The position of a flag's bit in the struct. *)
Definition jflag_index (f : jflag) : nat :=
  match f with
  | F_uid => 0 | F_gid => 1 | F_inherit_suppl_gids => 2 | F_set_suppl_gids => 3
  | F_keep_suppl_gids => 4 | F_use_caps => 5 | F_capbset_drop => 6 | F_set_ambient_caps => 7
  | F_vfs => 8 | F_enter_vfs => 9 | F_pids => 10 | F_ipc => 11
  | F_uts => 12 | F_net => 13 | F_enter_net => 14 | F_ns_cgroups => 15
  | F_userns => 16 | F_disable_setgroups => 17 | F_seccomp => 18 | F_remount_proc_ro => 19
  | F_no_new_privs => 20 | F_seccomp_filter => 21 | F_seccomp_filter_tsync => 22 | F_seccomp_filter_logging => 23
  | F_seccomp_filter_allow_speculation => 24 | F_chroot => 25 | F_pivot_root => 26 | F_mount_dev => 27
  | F_mount_tmp => 28 | F_do_init => 29 | F_run_as_init => 30 | F_pid_file => 31
  | F_cgroups => 32 | F_alt_syscall => 33 | F_reset_signal_mask => 34 | F_reset_signal_handlers => 35
  | F_close_open_fds => 36 | F_new_session_keyring => 37 | F_forward_signals => 38 | F_setsid => 39
  | F_using_minimalistic_mountns => 40 | F_enable_fs_restrictions => 41 | F_enable_profile_fs_restrictions => 42 | F_enable_default_runtime => 43
  end.

#[export] Instance jflag_eq_dec : EqDecision jflag.
Proof. solve_decision. Defined.

#[export] Program Instance jflag_countable : Countable jflag :=
  inj_countable jflag_index (λ n, all_flags !! n) _.
Next Obligation. by intros []. Qed.

(** ** Records *)

Record minijail_rlimit := { rl_type : Z; rl_cur : Z; rl_max : Z }.

Record mountpoint := {
  m_src : cstr;
  m_dest : cstr;
  m_type : cstr;
  m_data : option cstr;
  m_flags : Z;
}.

Record remount := { remount_mount_name : cstr; remount_remount_mode : Z }.

Definition MINIJAIL_HOOK_EVENT_PRE_DROP_CAPS : Z := 0.
Definition MINIJAIL_HOOK_EVENT_PRE_EXECVE : Z := 1.
Definition MINIJAIL_HOOK_EVENT_PRE_CHROOT : Z := 2.
Definition MINIJAIL_HOOK_EVENT_MAX : Z := 3.

(** A hook: its function and payload, both addresses, and its event. *)
Record hook := { h_hook : Z; h_payload : Z; h_event : Z }.

Record fs_rule := { fr_path : cstr; fr_landlock_flags : Z }.

Record preserved_fd := { parent_fd : Z; child_fd : Z }.

Record minijail := {
  flags : gset jflag;
  uid : Z;
  gid : Z;
  usergid : Z;
  user : option cstr;
  suppl_gid_count : Z;
  suppl_gid_list : option (list Z);
  caps : Z;
  cap_bset : Z;
  initpid : Z;
  mountns_fd : Z;
  netns_fd : Z;
  fs_rules_fd : Z;
  fs_rules_landlock_abi : Z;
  chrootdir : option cstr;
  pid_file_path : option cstr;
  uidmap : option cstr;
  gidmap : option cstr;
  hostname : option cstr;
  preload_path : option cstr;
  filename : option cstr;
  filter_len : Z;
  filter_prog : option (list sock_filter);
  alt_syscall_table : option cstr;
  mounts : list mountpoint;
  mounts_count : Z;
  remount_mode : Z;
  remounts : list remount;
  tmpfs_size : Z;
  fs_rules : list fs_rule;
  fs_rules_count : Z;
  cgroups : list cstr;
  rlimits : list minijail_rlimit;
  securebits_skip_mask : Z;
  hooks : list hook;
  preserved_fds : list preserved_fd;
  seccomp_policy_path : option cstr;
}.

#[export] Instance eta_minijail : Eta minijail := λ j, {|
  flags := j.(flags); uid := j.(uid);
  gid := j.(gid); usergid := j.(usergid);
  user := j.(user); suppl_gid_count := j.(suppl_gid_count);
  suppl_gid_list := j.(suppl_gid_list); caps := j.(caps);
  cap_bset := j.(cap_bset); initpid := j.(initpid);
  mountns_fd := j.(mountns_fd); netns_fd := j.(netns_fd);
  fs_rules_fd := j.(fs_rules_fd); fs_rules_landlock_abi := j.(fs_rules_landlock_abi);
  chrootdir := j.(chrootdir); pid_file_path := j.(pid_file_path);
  uidmap := j.(uidmap); gidmap := j.(gidmap);
  hostname := j.(hostname); preload_path := j.(preload_path);
  filename := j.(filename); filter_len := j.(filter_len);
  filter_prog := j.(filter_prog); alt_syscall_table := j.(alt_syscall_table);
  mounts := j.(mounts); mounts_count := j.(mounts_count);
  remount_mode := j.(remount_mode); remounts := j.(remounts);
  tmpfs_size := j.(tmpfs_size); fs_rules := j.(fs_rules);
  fs_rules_count := j.(fs_rules_count); cgroups := j.(cgroups);
  rlimits := j.(rlimits); securebits_skip_mask := j.(securebits_skip_mask);
  hooks := j.(hooks); preserved_fds := j.(preserved_fds);
  seccomp_policy_path := j.(seccomp_policy_path)
|}.

Definition MAX_CGROUPS : nat := 10.
Definition MAX_RLIMITS : nat := 32.
Definition MAX_PRESERVED_FDS : nat := 128.

(** Reading and writing one flag. *)
Definition flag (j : minijail) (f : jflag) : bool := bool_decide (f ∈ j.(flags)).
Definition set_flag (f : jflag) (j : minijail) : minijail := j <| flags := {[f]} ∪ j.(flags) |>.
Definition clear_flag (f : jflag) (j : minijail) : minijail := j <| flags := j.(flags) ∖ {[f]} |>.
Definition assign_flag (f : jflag) (b : bool) (j : minijail) : minijail :=
  if b then set_flag f j else clear_flag f j.

Section Build.
Context {B : BuildConfig}.

Definition seccomp_is_logging_allowed (j : minijail) : bool :=
  seccomp_default_ret_log || flag j F_seccomp_filter_logging.

Definition free_mounts_list (j : minijail) : minijail := j <| mounts := [] |>.
Definition free_remounts_list (j : minijail) : minijail := j <| remounts := [] |>.
Definition free_fs_rules_list (j : minijail) : minijail := j <| fs_rules := [] |>.

(** ** Stripping *)

Definition preenter_cleared : gset jflag :=
  {[F_vfs; F_enter_vfs; F_ns_cgroups; F_net; F_uts; F_remount_proc_ro; F_pids; F_do_init;
    F_run_as_init; F_pid_file; F_cgroups; F_forward_signals; F_setsid;
    F_using_minimalistic_mountns; F_enable_profile_fs_restrictions; F_enable_default_runtime]}.

Definition minijail_preenter (j : minijail) : minijail :=
  free_remounts_list (j <| flags := j.(flags) ∖ preenter_cleared |> <| remount_mode := 0 |>).

Definition preexec_kept : gset jflag :=
  {[F_vfs; F_enter_vfs; F_ns_cgroups; F_net; F_uts; F_remount_proc_ro; F_userns;
    F_using_minimalistic_mountns; F_enable_fs_restrictions; F_enable_profile_fs_restrictions;
    F_enable_default_runtime]}.

Definition minijail_preexec (j : minijail) : minijail :=
  free_fs_rules_list (free_mounts_list
    (j <| user := None |> <| suppl_gid_list := None |> <| preload_path := None |>))
  <| flags := j.(flags) ∩ preexec_kept |>.

(** ** Creation *)

Definition minijail_new : minijail := {|
  flags := {[F_enable_fs_restrictions; F_enable_profile_fs_restrictions; F_enable_default_runtime]};
  uid := 0; gid := 0; usergid := 0; user := None; suppl_gid_count := 0; suppl_gid_list := None;
  caps := 0; cap_bset := 0; initpid := 0; mountns_fd := 0; netns_fd := 0; fs_rules_fd := -1;
  fs_rules_landlock_abi := -1; chrootdir := None; pid_file_path := None; uidmap := None;
  gidmap := None; hostname := None; preload_path := None; filename := None; filter_len := 0;
  filter_prog := None; alt_syscall_table := None; mounts := []; mounts_count := 0;
  remount_mode := MS_PRIVATE; remounts := []; tmpfs_size := 0; fs_rules := []; fs_rules_count := 0;
  cgroups := []; rlimits := []; securebits_skip_mask := 0; hooks := []; preserved_fds := [];
  seccomp_policy_path := None |}.

(** ** Users and groups *)

Definition minijail_change_uid (j : minijail) (u : Z) : outcome minijail :=
  if u =? 0 then Die else Ret (set_flag F_uid (j <| uid := u |>)).

Definition minijail_change_gid (j : minijail) (g : Z) : outcome minijail :=
  if g =? 0 then Die else Ret (set_flag F_gid (j <| gid := g |>)).

(** [list_] holds the [size] group ids passed. *)
Definition minijail_set_supplementary_gids (j : minijail) (list_ : list Z) : outcome minijail :=
  if flag j F_inherit_suppl_gids then Die
  else if flag j F_keep_suppl_gids then Die
  else if bool_decide (list_ = []) then
    Ret (set_flag F_set_suppl_gids (j <| suppl_gid_list := None |> <| suppl_gid_count := 0 |>))
  else
    Ret (set_flag F_set_suppl_gids
           (j <| suppl_gid_list := Some list_ |> <| suppl_gid_count := Z.of_nat (length list_) |>)).

Definition minijail_keep_supplementary_gids (j : minijail) : minijail :=
  set_flag F_keep_suppl_gids j.

Definition minijail_change_user (j : minijail) (name : cstr) : io (Z * minijail) :=
  r ← lookup_user name;
  match r with
  | inl rc => mret (rc, j)
  | inr (u, g) =>
      j ← lift (minijail_change_uid j u);
      mret (0, j <| user := Some name |> <| usergid := g |>)
  end.

Definition minijail_change_group (j : minijail) (name : cstr) : io (Z * minijail) :=
  r ← lookup_group name;
  match r with
  | inl rc => mret (rc, j)
  | inr g => j ← lift (minijail_change_gid j g); mret (0, j)
  end.

Definition minijail_inherit_usergroups (j : minijail) : minijail := set_flag F_inherit_suppl_gids j.

(** ** Seccomp options *)

Definition minijail_use_seccomp (j : minijail) : minijail := set_flag F_seccomp j.
Definition minijail_no_new_privs (j : minijail) : minijail := set_flag F_no_new_privs j.
Definition minijail_use_seccomp_filter (j : minijail) : minijail := set_flag F_seccomp_filter j.

Definition filter_installed (j : minijail) : bool :=
  (0 <? j.(filter_len)) && bool_decide (is_Some j.(filter_prog)).

Definition minijail_set_seccomp_filter_tsync (j : minijail) : io minijail :=
  if filter_installed j then IDie
  else if seccomp_is_logging_allowed j then
    avail ← seccomp_ret_log_available;
    if negb avail then IDie else mret (set_flag F_seccomp_filter_tsync j)
  else mret (set_flag F_seccomp_filter_tsync j).

Definition minijail_set_seccomp_filter_allow_speculation (j : minijail) : outcome minijail :=
  if filter_installed j then Die else Ret (set_flag F_seccomp_filter_allow_speculation j).

Definition minijail_log_seccomp_filter_failures (j : minijail) : io minijail :=
  let finish j := if debug_logging_allowed then set_flag F_seccomp_filter_logging j else j in
  if filter_installed j then IDie
  else if flag j F_seccomp_filter_tsync then
    avail ← seccomp_ret_log_available;
    if negb avail then IDie else mret (finish j)
  else mret (finish j).

(** ** Simple switches *)

Definition minijail_set_using_minimalistic_mountns (j : minijail) : minijail :=
  set_flag F_using_minimalistic_mountns j.
Definition minijail_set_enable_default_runtime (j : minijail) (enable : bool) : minijail :=
  assign_flag F_enable_default_runtime enable j.
Definition minijail_get_enable_default_runtime (j : minijail) : bool :=
  flag j F_enable_default_runtime.
Definition minijail_disable_fs_restrictions (j : minijail) : minijail :=
  clear_flag F_enable_fs_restrictions j.
Definition minijail_set_enable_profile_fs_restrictions (j : minijail) : minijail :=
  set_flag F_enable_profile_fs_restrictions j.

Definition minijail_use_caps (j : minijail) (capmask : Z) : minijail :=
  let j := if flag j F_capbset_drop then clear_flag F_capbset_drop (j <| cap_bset := 0 |>) else j in
  set_flag F_use_caps (j <| caps := capmask |>).

Definition minijail_capbset_drop (j : minijail) (capmask : Z) : outcome minijail :=
  if flag j F_use_caps then Die
  else Ret (set_flag F_capbset_drop (j <| cap_bset := capmask |>)).

Definition minijail_set_ambient_caps (j : minijail) : minijail := set_flag F_set_ambient_caps j.
Definition minijail_reset_signal_mask (j : minijail) : minijail := set_flag F_reset_signal_mask j.
Definition minijail_reset_signal_handlers (j : minijail) : minijail :=
  set_flag F_reset_signal_handlers j.
Definition minijail_namespace_vfs (j : minijail) : minijail := set_flag F_vfs j.

Definition minijail_namespace_enter_vfs (j : minijail) (ns_path : cstr) : io minijail :=
  a ← call (Open ns_path O_RDONLY 0);
  if rv a <? 0 then IDie else mret (set_flag F_enter_vfs (j <| mountns_fd := rv a |>)).

Definition minijail_new_session_keyring (j : minijail) : minijail :=
  set_flag F_new_session_keyring j.
Definition minijail_skip_setting_securebits (j : minijail) (mask : Z) : minijail :=
  j <| securebits_skip_mask := mask |>.
Definition minijail_remount_mode (j : minijail) (mode : Z) : minijail := j <| remount_mode := mode |>.
Definition minijail_skip_remount_private (j : minijail) : minijail := j <| remount_mode := 0 |>.

Definition minijail_namespace_pids (j : minijail) : minijail :=
  set_flag F_do_init (set_flag F_pids (set_flag F_remount_proc_ro (set_flag F_vfs j))).
Definition minijail_namespace_pids_rw_proc (j : minijail) : minijail :=
  set_flag F_do_init (set_flag F_pids (set_flag F_vfs j)).
Definition minijail_namespace_ipc (j : minijail) : minijail := set_flag F_ipc j.
Definition minijail_namespace_uts (j : minijail) : minijail := set_flag F_uts j.

Definition minijail_namespace_set_hostname (j : minijail) (name : cstr) : Z * minijail :=
  if bool_decide (is_Some j.(hostname)) then (- EINVAL, j)
  else (0, minijail_namespace_uts j <| hostname := Some name |>).

Definition minijail_namespace_net (j : minijail) : minijail := set_flag F_net j.

Definition minijail_namespace_enter_net (j : minijail) (ns_path : cstr) : io minijail :=
  a ← call (Open ns_path O_RDONLY 0);
  if rv a <? 0 then IDie else mret (set_flag F_enter_net (j <| netns_fd := rv a |>)).

Definition minijail_namespace_cgroups (j : minijail) : minijail := set_flag F_ns_cgroups j.
Definition minijail_close_open_fds (j : minijail) : minijail := set_flag F_close_open_fds j.
Definition minijail_remount_proc_readonly (j : minijail) : minijail :=
  set_flag F_remount_proc_ro (set_flag F_vfs j).
Definition minijail_namespace_user (j : minijail) : minijail := set_flag F_userns j.
Definition minijail_namespace_user_disable_setgroups (j : minijail) : minijail :=
  set_flag F_disable_setgroups j.

Definition comma_to_newline (c : ascii) : ascii := if bool_decide (c = ","%char) then NL else c.

Definition minijail_uidmap (j : minijail) (map_ : cstr) : Z * minijail :=
  (0, j <| uidmap := Some (comma_to_newline <$> map_) |>).
Definition minijail_gidmap (j : minijail) (map_ : cstr) : Z * minijail :=
  (0, j <| gidmap := Some (comma_to_newline <$> map_) |>).

Definition minijail_run_as_init (j : minijail) : minijail := set_flag F_run_as_init j.

(** ** Root directory and paths *)

Definition minijail_enter_chroot (j : minijail) (dir : cstr) : Z * minijail :=
  if bool_decide (is_Some j.(chrootdir)) then (- EINVAL, j)
  else (0, set_flag F_chroot (j <| chrootdir := Some dir |>)).

Definition minijail_enter_pivot_root (j : minijail) (dir : cstr) : Z * minijail :=
  if bool_decide (is_Some j.(chrootdir)) then (- EINVAL, j)
  else (0, set_flag F_pivot_root (j <| chrootdir := Some dir |>)).

(** The loop of [minijail_get_original_path] over the mounts. *)
Fixpoint original_path_in (ms : list mountpoint) (path_inside_chroot : cstr) : option cstr :=
  match ms with
  | [] => None
  | b :: rest =>
      if streq b.(m_dest) path_inside_chroot then Some b.(m_src)
      else if strncmp_eq b.(m_dest) path_inside_chroot (length b.(m_dest)) then
        Some (path_join b.(m_src) (drop (length b.(m_dest)) path_inside_chroot))
      else original_path_in rest path_inside_chroot
  end.

Definition minijail_get_original_path (j : minijail) (path_inside_chroot : cstr) : cstr :=
  match original_path_in j.(mounts) path_inside_chroot with
  | Some p => p
  | None =>
      match j.(chrootdir) with
      | Some dir => path_join dir path_inside_chroot
      | None => path_inside_chroot
      end
  end.

(** ** Mounts *)

Definition minijail_mount_dev (j : minijail) : minijail := set_flag F_mount_dev j.

Definition minijail_mount_tmp_size (j : minijail) (size : Z) : minijail :=
  set_flag F_mount_tmp (j <| tmpfs_size := size |>).

Definition minijail_mount_tmp (j : minijail) : minijail :=
  minijail_mount_tmp_size j (64 * 1024 * 1024).

Definition mount_has_bind_flag (m : mountpoint) : bool := negb (Z.land m.(m_flags) MS_BIND =? 0).
Definition mount_has_readonly_flag (m : mountpoint) : bool :=
  negb (Z.land m.(m_flags) MS_RDONLY =? 0).
Definition mount_events_allowed (m : mountpoint) : bool :=
  negb (Z.land m.(m_flags) MS_SHARED =? 0) || negb (Z.land m.(m_flags) MS_SLAVE =? 0).

(** The mount data after the defaults: [None] is NULL. *)
Definition mount_data (type : cstr) (data : option cstr) : option cstr :=
  match data with
  | None | Some [] => if streq type (str "tmpfs") then Some (str "mode=0755,size=10M") else data
  | Some _ => data
  end.

Definition default_mount_flags : Z := Z.lor MS_NODEV (Z.lor MS_NOEXEC MS_NOSUID).

Definition minijail_mount_with_data (j : minijail) (src dest type : cstr) (mflags : Z)
    (data : option cstr) : Z * minijail :=
  if negb (bool_decide (head dest = Some "/"%char)) then (- EINVAL, j)
  else
    let m := {| m_src := src; m_dest := dest; m_type := type; m_data := mount_data type data;
                m_flags := if mflags =? 0 then default_mount_flags else mflags |} in
    let j := if negb (flag j F_enter_vfs) then minijail_namespace_vfs j else j in
    (0, j <| mounts := j.(mounts) ++ [m] |> <| mounts_count := u64 (j.(mounts_count) + 1) |>).

Definition minijail_mount (j : minijail) (src dest type : cstr) (mflags : Z) : Z * minijail :=
  minijail_mount_with_data j src dest type mflags None.

(** The loop of [is_valid_bind_path] over the allowed prefixes. *)
Fixpoint has_allowed_prefix (prefixes : list cstr) (path : cstr) : outcome bool :=
  match prefixes with
  | [] => Ret false
  | p :: rest => b ← path_is_parent p path; if b : bool then Ret true else has_allowed_prefix rest path
  end.

Definition is_valid_bind_path (path : cstr) : io bool :=
  if negb block_symlinks_in_bindmount_paths then mret true
  else
    canonical ← is_canonical_path path;
    if canonical : bool then mret true
    else lift (has_allowed_prefix (tokenize_all (Some bindmount_allowed_prefixes) (str ",")) path).

Definition minijail_bind (j : minijail) (src dest : cstr) (writeable : bool) : io (Z * minijail) :=
  valid ← is_valid_bind_path src;
  if negb valid then mret (- ELOOP, j)
  else
    let mflags := if writeable then MS_BIND else Z.lor MS_BIND MS_RDONLY in
    mret (minijail_mount j src dest (str "minijail_bind") mflags).

Definition minijail_add_remount (j : minijail) (mount_name : cstr) (mode : Z) : Z * minijail :=
  if negb (bool_decide (head mount_name = Some "/"%char)) then (- EINVAL, j)
  else
    (0, j <| remounts := j.(remounts) ++
               [{| remount_mount_name := mount_name; remount_remount_mode := mode |}] |>).

(** ** Bounded tables *)

Definition minijail_write_pid_file (j : minijail) (path : cstr) : Z * minijail :=
  (0, set_flag F_pid_file (j <| pid_file_path := Some path |>)).

Definition minijail_add_to_cgroup (j : minijail) (path : cstr) : Z * minijail :=
  if (MAX_CGROUPS <=? length j.(cgroups))%nat then (- ENOMEM, j)
  else (0, set_flag F_cgroups (j <| cgroups := j.(cgroups) ++ [path] |>)).

Definition minijail_rlimit_ (j : minijail) (type cur max : Z) : Z * minijail :=
  if (MAX_RLIMITS <=? length j.(rlimits))%nat then (- ENOMEM, j)
  else if existsb (λ r, r.(rl_type) =? type) j.(rlimits) then (- EEXIST, j)
  else (0, j <| rlimits := j.(rlimits) ++ [{| rl_type := type; rl_cur := cur; rl_max := max |}] |>).

Definition minijail_forward_signals (j : minijail) : Z * minijail :=
  (0, set_flag F_forward_signals j).
Definition minijail_create_session (j : minijail) : Z * minijail := (0, set_flag F_setsid j).

Definition minijail_add_hook (j : minijail) (hook_ payload event : Z) : Z * minijail :=
  if MINIJAIL_HOOK_EVENT_MAX <=? event then (- EINVAL, j)
  else (0, j <| hooks := j.(hooks) ++
                  [{| h_hook := hook_; h_payload := payload; h_event := event |}] |>).

Definition minijail_preserve_fd (j : minijail) (pfd cfd : Z) : Z * minijail :=
  if (pfd <? 0) || (cfd <? 0) then (- EINVAL, j)
  else if (MAX_PRESERVED_FDS <=? length j.(preserved_fds))%nat then (- ENOMEM, j)
  else (0, j <| preserved_fds := j.(preserved_fds) ++ [{| parent_fd := pfd; child_fd := cfd |}] |>).

Definition minijail_set_preload_path (j : minijail) (path : cstr) : Z * minijail :=
  if bool_decide (is_Some j.(preload_path)) then (- EINVAL, j)
  else (0, j <| preload_path := Some path |>).

Definition minijail_use_alt_syscall (j : minijail) (table : cstr) : Z * minijail :=
  (0, set_flag F_alt_syscall (j <| alt_syscall_table := Some table |>)).

(** ** Landlock rules *)

Definition fs_refer_restriction_supported (j : minijail) : io (bool * minijail) :=
  j ← (if j.(fs_rules_landlock_abi) <? 0 then
         a ← call (LandlockCreateRuleset None LANDLOCK_CREATE_RULESET_VERSION);
         mret (if 0 <? rv a then j <| fs_rules_landlock_abi := rv a |> else j)
       else mret j);
  mret (LANDLOCK_ABI_FS_REFER_SUPPORTED <=? j.(fs_rules_landlock_abi), j).

Definition setup_fs_rules_fd (j : minijail) : io (Z * minijail) :=
  '(refer, j) ← fs_refer_restriction_supported j;
  let handled :=
    if refer : bool then Z.lor HANDLED_ACCESS_TYPES LANDLOCK_ACCESS_FS_REFER
    else HANDLED_ACCESS_TYPES in
  a ← call (LandlockCreateRuleset (Some handled) 0);
  let j := j <| fs_rules_fd := rv a |> in
  mret (if rv a <? 0 then eno a else 0, j).

Definition add_fs_restriction_path (j : minijail) (path : cstr) (landlock_flags : Z)
    : io (Z * minijail) :=
  let j := j <| fs_rules := j.(fs_rules) ++
                  [{| fr_path := path; fr_landlock_flags := landlock_flags |}] |> in
  j ← (if j.(fs_rules_count) =? 0 then '(_, j) ← setup_fs_rules_fd j; mret j else mret j);
  mret (0, j <| fs_rules_count := u64 (j.(fs_rules_count) + 1) |>).

(** The negation of the internal function's result, as the API returns it. *)
Definition negated (m : io (Z * minijail)) : io (Z * minijail) :=
  '(rc, j) ← m; mret (if rc =? 0 then 1 else 0, j).

Definition minijail_add_fs_restriction_rx (j : minijail) (path : cstr) : io (Z * minijail) :=
  negated (add_fs_restriction_path j path ACCESS_FS_ROUGHLY_READ_EXECUTE).
Definition minijail_add_fs_restriction_ro (j : minijail) (path : cstr) : io (Z * minijail) :=
  negated (add_fs_restriction_path j path ACCESS_FS_ROUGHLY_READ).
Definition minijail_add_fs_restriction_rw (j : minijail) (path : cstr) : io (Z * minijail) :=
  negated (add_fs_restriction_path j path
             (Z.lor ACCESS_FS_ROUGHLY_READ ACCESS_FS_ROUGHLY_BASIC_WRITE)).

Definition minijail_add_fs_restriction_advanced_rw (j : minijail) (path : cstr)
    : io (Z * minijail) :=
  let landlock_flags := u16 (Z.lor ACCESS_FS_ROUGHLY_READ ACCESS_FS_ROUGHLY_FULL_WRITE) in
  '(refer, j) ← fs_refer_restriction_supported j;
  let landlock_flags :=
    if refer : bool then u16 (Z.lor landlock_flags LANDLOCK_ACCESS_FS_REFER) else landlock_flags in
  negated (add_fs_restriction_path j path landlock_flags).

Definition minijail_add_fs_restriction_edit (j : minijail) (path : cstr) : io (Z * minijail) :=
  negated (add_fs_restriction_path j path (Z.lor ACCESS_FS_ROUGHLY_READ ACCESS_FS_ROUGHLY_EDIT)).
Definition minijail_add_fs_restriction_access_rights (j : minijail) (path : cstr)
    (landlock_flags : Z) : io (Z * minijail) :=
  negated (add_fs_restriction_path j path (u16 landlock_flags)).

Definition minijail_is_fs_restriction_available : io bool :=
  a ← call (LandlockCreateRuleset None LANDLOCK_CREATE_RULESET_VERSION); mret (0 <? rv a).
Definition minijail_is_fs_restriction_ruleset_initialized (j : minijail) : bool :=
  0 <=? j.(fs_rules_fd).

Fixpoint add_fs_restrictions_rx (j : minijail) (paths : list cstr) : io minijail :=
  match paths with
  | [] => mret j
  | p :: rest => '(_, j) ← minijail_add_fs_restriction_rx j p; add_fs_restrictions_rx j rest
  end.

Definition minijail_enable_default_fs_restrictions (j : minijail) : io minijail :=
  add_fs_restrictions_rx j
    [str "/lib"; str "/lib64"; str "/usr/lib"; str "/usr/lib64";
     str "/bin"; str "/sbin"; str "/usr/sbin"; str "/usr/bin"].

(** The loop of [minijail_add_minimalistic_mountns_fs_rules] over the mounts. *)
Fixpoint add_mount_fs_rules (j : minijail) (ms : list mountpoint) : io minijail :=
  match ms with
  | [] => mret j
  | m :: rest =>
      '(_, j) ← minijail_add_fs_restriction_rx j m.(m_dest);
      j ← (if negb (mount_has_readonly_flag m) || mount_events_allowed m then
             '(_, j) ← minijail_add_fs_restriction_advanced_rw j m.(m_dest); mret j
           else mret j);
      add_mount_fs_rules j rest
  end.

Definition minijail_add_minimalistic_mountns_fs_rules (j : minijail) : io minijail :=
  if negb (flag j F_using_minimalistic_mountns) || negb (flag j F_enable_profile_fs_restrictions)
  then mret j
  else
    let enabled := negb (bool_decide (j.(mounts) = [])) in
    j ← add_mount_fs_rules j j.(mounts);
    if enabled then
      j ← minijail_enable_default_fs_restrictions j;
      '(_, j) ← minijail_add_fs_restriction_edit j (str "/dev");
      '(_, j) ← minijail_add_fs_restriction_ro j (str "/proc");
      if flag j F_vfs then
        '(_, j) ← minijail_add_fs_restriction_rw j (str "/tmp"); mret j
      else mret j
    else mret j.

(** ** Seccomp filters *)

Definition clear_seccomp_options (j : minijail) : minijail :=
  j <| flags := j.(flags) ∖ {[F_seccomp_filter; F_seccomp_filter_tsync; F_seccomp_filter_logging;
                              F_seccomp_filter_allow_speculation; F_no_new_privs]} |>
    <| filter_len := 0 |> <| filter_prog := None |> <| seccomp_policy_path := None |>.

Definition seccomp_should_use_filters (j : minijail) : io (bool * minijail) :=
  a ← call (PrctlSeccomp None);
  if (rv a =? -1) && ((eno a =? EINVAL) && seccomp_can_softfail) then
    mret (false, clear_seccomp_options j)
  else
    tsync_unsupported ←
      (if flag j F_seccomp_filter_tsync then
         a ← call (SysSeccomp SECCOMP_SET_MODE_FILTER SECCOMP_FILTER_FLAG_TSYNC None);
         mret ((rv a =? -1) && ((eno a =? ENOSYS) || (eno a =? EINVAL)) && seccomp_can_softfail)
       else mret false);
    if tsync_unsupported : bool then mret (false, clear_seccomp_options j)
    else if flag j F_seccomp_filter_allow_speculation then
      avail ← seccomp_filter_flags_available SECCOMP_FILTER_FLAG_SPEC_ALLOW;
      mret (true, if negb avail then clear_flag F_seccomp_filter_allow_speculation j else j)
    else mret (true, j).

Definition set_seccomp_filters_internal (j : minijail) (filter : list sock_filter) : minijail :=
  j <| filter_len := Z.of_nat (length filter) |> <| filter_prog := Some filter |>.

(** The options [parse_seccomp_filters] compiles a policy with; whether RET_LOG is
    available is read once and remembered by the source. *)
Definition seccomp_filter_options (j : minijail) : io filter_options :=
  let logging := debug_logging_allowed && seccomp_is_logging_allowed j in
  let options act for_logging :=
    {| action := act; allow_logging := logging; allow_syscalls_for_logging := for_logging;
       opt_allow_duplicate_syscalls := allow_duplicate_syscalls |} in
  if logging then
    avail ← seccomp_ret_log_available;
    mret (options (if avail : bool then ACTION_RET_LOG else ACTION_RET_TRAP) (negb avail))
  else if flag j F_seccomp_filter_tsync then
    avail ← seccomp_ret_kill_process_available;
    mret (options (if avail : bool then ACTION_RET_KILL_PROCESS else ACTION_RET_TRAP) false)
  else mret (options ACTION_RET_KILL false).

Variable fs : cstr → option (list ascii).

(** The return code; [-1] when the policy does not compile. *)
Definition parse_seccomp_filters (j : minijail) (name : cstr) (policy_file : list ascii)
    : io (Z * minijail) :=
  opts ← seccomp_filter_options j;
  r ← lift (compile_filter fs opts (Some name) (Some policy_file));
  match r with
  | None => mret (-1, j)
  | Some prog => mret (0, set_seccomp_filters_internal j prog)
  end.

Definition minijail_parse_seccomp_filters (j : minijail) (path : cstr) : io minijail :=
  '(use, j) ← seccomp_should_use_filters j;
  if negb use then mret j
  else match fs path with
       | None => IDie
       | Some file =>
           '(rc, j) ← parse_seccomp_filters j path file;
           if negb (rc =? 0) then IDie else mret (j <| seccomp_policy_path := Some path |>)
       end.

(** The stream behind a descriptor is what the answer of fdopen carries. *)
Definition minijail_parse_seccomp_filters_from_fd (j : minijail) (fd : Z) : io minijail :=
  '(use, j) ← seccomp_should_use_filters j;
  if negb use then mret j
  else
    a ← call (FdopenRead fd);
    match bytes a with
    | None => IDie
    | Some file =>
        a ← call (Realpath (str "/proc/self/fd/" ++ fmt_d fd));
        '(rc, j) ← parse_seccomp_filters j (default (str "<fd>") (bytes a)) file;
        if negb (rc =? 0) then IDie else mret (j <| seccomp_policy_path := bytes a |>)
    end.

Definition minijail_set_seccomp_filters (j : minijail) (filter : list sock_filter) : io minijail :=
  '(use, j) ← seccomp_should_use_filters j;
  if negb use then mret j
  else if seccomp_is_logging_allowed j then IDie
  else mret (set_seccomp_filters_internal j filter).

(** ** Logging *)

Definition minijail_log_to_fd (fd min_priority : Z) : logging_config_t :=
  init_logging LOG_TO_FD fd min_priority.

Definition kAltSyscallNamePlaceholder : cstr := str "<unknown: alt_syscall active>".

(** [None] for the jail is NULL; [None] for the name too. *)
Definition minijail_syscall_name (j : option minijail) (nr : Z) : option cstr :=
  match j with
  | Some j => if flag j F_alt_syscall then Some kAltSyscallNamePlaceholder else lookup_syscall_name nr
  | None => lookup_syscall_name nr
  end.

Definition LOG_ERR : Z := 3.

(** die() in the process [pid]. *)
Definition die (cfg : logging_config_t) (pid : Z) (msg : cstr) : list log_event * outcome unit :=
  do_fatal_log cfg LOG_ERR (str "libminijail[" ++ fmt_d pid ++ str "]: " ++ msg).

(** signal_handler.c: the handler of SIGSYS, for the system call [nr] that the signal names. *)
Definition log_sigsys_handler (cfg : logging_config_t) (pid nr : Z) : list log_event * outcome unit :=
  die cfg pid (str "blocked syscall: " ++ match lookup_syscall_name nr with
                                          | Some syscall_name => syscall_name
                                          | None => fmt_d nr
                                          end).

End Build.
