(* ===== verification/JailProps.v ===== *)
(** * Properties of the configuration API

    Every configuration the API can build is well formed, whatever the kernel
    answers; what is stripped on the way to the jailed process; and which filter
    ends up in the jail. *)

From S2P Require Import Prelude CLib Util Bpf SyscallFilter OS System Jail.
Local Open Scope Z_scope.

(** ** Well-formed configurations *)

(** Tables agree with their counts and stay within their arrays. *)
Record tables_ok (j : minijail) : Prop := {
  tok_mounts : j.(mounts_count) = u64 (Z.of_nat (length j.(mounts)));
  tok_fs_rules : j.(fs_rules_count) = u64 (Z.of_nat (length j.(fs_rules)));
  tok_filter : j.(filter_len) = match j.(filter_prog) with
                                | Some p => Z.of_nat (length p) | None => 0 end;
  tok_gids : j.(suppl_gid_count) = match j.(suppl_gid_list) with
                                   | Some l => Z.of_nat (length l) | None => 0 end;
  tok_cgroups : (length j.(cgroups) <= MAX_CGROUPS)%nat;
  tok_rlimits : (length j.(rlimits) <= MAX_RLIMITS)%nat ∧ NoDup (rl_type <$> j.(rlimits));
  tok_fds : (length j.(preserved_fds) <= MAX_PRESERVED_FDS)%nat ∧
            Forall (λ p, 0 <= p.(parent_fd) ∧ 0 <= p.(child_fd)) j.(preserved_fds);
  tok_hooks : Forall (λ h, h.(h_event) < MINIJAIL_HOOK_EVENT_MAX) j.(hooks);
  tok_mount : Forall (λ m, head m.(m_dest) = Some "/"%char ∧ m.(m_flags) ≠ 0) j.(mounts);
  tok_remounts : Forall (λ r, head r.(remount_mount_name) = Some "/"%char) j.(remounts);
}.

(** What a flag promises of the other flags and fields. *)
Record flags_ok (j : minijail) : Prop := {
  fok_uid : F_uid ∈ j.(flags) → j.(uid) ≠ 0;
  fok_gid : F_gid ∈ j.(flags) → j.(gid) ≠ 0;
  fok_caps : ¬ (F_use_caps ∈ j.(flags) ∧ F_capbset_drop ∈ j.(flags));
  fok_bset : F_capbset_drop ∉ j.(flags) → j.(cap_bset) = 0;
  fok_root : ¬ (F_chroot ∈ j.(flags) ∧ F_pivot_root ∈ j.(flags));
  fok_rootdir : j.(chrootdir) = None → F_chroot ∉ j.(flags) ∧ F_pivot_root ∉ j.(flags);
  fok_ns : j.(mounts) ≠ [] → F_vfs ∈ j.(flags) ∨ F_enter_vfs ∈ j.(flags);
  fok_hostname : is_Some j.(hostname) → F_uts ∈ j.(flags);
  fok_pids : F_pids ∈ j.(flags) → F_vfs ∈ j.(flags) ∧ F_do_init ∈ j.(flags);
  fok_pid_file : F_pid_file ∈ j.(flags) → is_Some j.(pid_file_path);
  fok_cgroups : j.(cgroups) ≠ [] → F_cgroups ∈ j.(flags);
  fok_alt : F_alt_syscall ∈ j.(flags) → is_Some j.(alt_syscall_table);
}.

Definition jail_ok (j : minijail) : Prop := tables_ok j ∧ flags_ok j.

(** Flags another field or flag depends on when they are set. *)
Definition critical_flags : gset jflag :=
  {[F_uid; F_gid; F_use_caps; F_capbset_drop; F_chroot; F_pivot_root; F_pids; F_pid_file;
    F_cgroups; F_alt_syscall]}.

(** Flags another field or flag depends on when they are cleared. *)
Definition supporting_flags : gset jflag := 
  {[F_vfs; F_enter_vfs; F_uts; F_do_init; F_cgroups; F_capbset_drop]}.

(** Read a field of an updated record: the new value, or the field before. *)
Ltac read_field :=
  match goal with
  | |- context [?p (@modify ?R ?E ?q ?s ?g ?r)] =>
      first
        [ change (p (@modify R E q s g r)) with (p r)
        | let v := eval cbv beta in (g (q r)) in change (p (@modify R E q s g r)) with v ]
  end.

Ltac unfold_jail :=
  unfold set_flag, clear_flag, assign_flag, flag in *; cbn [fst snd] in *; repeat read_field.

(** The invariant of an update, field by field, each from the same field before. *)
Ltac tables_solve Ht :=
  destruct Ht; split; unfold_jail; try assumption.

Ltac flags_solve Hf :=
  let H := fresh "Hold" in
  split;
    [pose proof (fok_uid _ Hf) as H | pose proof (fok_gid _ Hf) as H
    | pose proof (fok_caps _ Hf) as H | pose proof (fok_bset _ Hf) as H
    | pose proof (fok_root _ Hf) as H | pose proof (fok_rootdir _ Hf) as H
    | pose proof (fok_ns _ Hf) as H | pose proof (fok_hostname _ Hf) as H
    | pose proof (fok_pids _ Hf) as H | pose proof (fok_pid_file _ Hf) as H
    | pose proof (fok_cgroups _ Hf) as H | pose proof (fok_alt _ Hf) as H];
  clear Hf; unfold_jail; try assumption; set_unfold; naive_solver.

Ltac jail_solve :=
  match goal with
  | H : jail_ok _ |- _ =>
      let Ht := fresh "Ht" in let Hf := fresh "Hf" in
      destruct H as [Ht Hf]; split; [clear Hf; tables_solve Ht | clear Ht; flags_solve Hf]
  end.

Lemma set_flag_ok f j : f ∉ critical_flags → jail_ok j → jail_ok (set_flag f j).
Proof. unfold critical_flags. intros Hf Hj. jail_solve. Qed.

Lemma clear_flag_ok f j : f ∉ supporting_flags → jail_ok j → jail_ok (clear_flag f j).
Proof. unfold supporting_flags. intros Hf Hj. jail_solve. Qed.

(** A flag outside the critical ones, by computation. *)
Ltac plain_flag := apply set_flag_ok; [by apply (bool_decide_unpack _); vm_compute|].

Lemma minijail_new_ok : jail_ok minijail_new.
Proof.
  split; split; cbn; try done; try constructor; try (set_unfold; naive_solver).
  all: try lia; constructor.
Qed.

Section Api.
Context {B : BuildConfig}.

Lemma change_uid_ok j u j' : jail_ok j → minijail_change_uid j u = Ret j' → jail_ok j'.
Proof.
  unfold minijail_change_uid. destruct (u =? 0) eqn:E; [done|]. apply Z.eqb_neq in E.
  intros Hj [= <-]. jail_solve.
Qed.

Lemma change_gid_ok j g j' : jail_ok j → minijail_change_gid j g = Ret j' → jail_ok j'.
Proof.
  unfold minijail_change_gid. destruct (g =? 0) eqn:E; [done|]. apply Z.eqb_neq in E.
  intros Hj [= <-]. jail_solve.
Qed.

Lemma set_supplementary_gids_ok j l j' :
  jail_ok j → minijail_set_supplementary_gids j l = Ret j' → jail_ok j'.
Proof.
  unfold minijail_set_supplementary_gids. intros Hj.
  destruct (flag j F_inherit_suppl_gids); [done|]. destruct (flag j F_keep_suppl_gids); [done|].
  case_bool_decide; intros [= <-]; plain_flag; jail_solve; done.
Qed.

Lemma clear_capbset_ok j :
  jail_ok j → jail_ok (clear_flag F_capbset_drop (j <| cap_bset := 0 |>)).
Proof. intros Hj. jail_solve. Qed.

Lemma use_caps_ok j m : jail_ok j → jail_ok (minijail_use_caps j m).
Proof.
  intros Hj. unfold minijail_use_caps. set (j1 := if flag j F_capbset_drop then _ else _).
  assert (jail_ok j1 ∧ F_capbset_drop ∉ j1.(flags)) as [Hj1 Hn].
  { unfold j1, flag. case_bool_decide; [|done]. split; [by apply clear_capbset_ok|].
    unfold_jail. set_solver. }
  clearbody j1. jail_solve.
Qed.

Lemma capbset_drop_ok j m j' : jail_ok j → minijail_capbset_drop j m = Ret j' → jail_ok j'.
Proof.
  intros Hj. unfold minijail_capbset_drop. destruct (flag j F_use_caps) eqn:E; [done|].
  unfold flag in E. apply bool_decide_eq_false in E. intros [= <-]. jail_solve.
Qed.

Lemma set_flag_comm f g j : set_flag f (set_flag g j) = set_flag g (set_flag f j).
Proof. destruct j. unfold set_flag, modify. simpl. f_equal. set_solver. Qed.

Lemma set_pids_ok j :
  jail_ok j → F_vfs ∈ j.(flags) → F_do_init ∈ j.(flags) → jail_ok (set_flag F_pids j).
Proof. intros Hj H1 H2. jail_solve. Qed.

Lemma namespace_pids_ok j : jail_ok j → jail_ok (minijail_namespace_pids j).
Proof.
  intros. unfold minijail_namespace_pids. rewrite set_flag_comm. apply set_pids_ok.
  - by do 3 plain_flag.
  - unfold_jail. set_solver.
  - unfold_jail. set_solver.
Qed.

Lemma namespace_pids_rw_proc_ok j : jail_ok j → jail_ok (minijail_namespace_pids_rw_proc j).
Proof.
  intros. unfold minijail_namespace_pids_rw_proc. rewrite set_flag_comm. apply set_pids_ok.
  - by do 2 plain_flag.
  - unfold_jail. set_solver.
  - unfold_jail. set_solver.
Qed.

Lemma set_hostname_ok j name : jail_ok j → jail_ok (minijail_namespace_set_hostname j name).2.
Proof.
  intros Hj. unfold minijail_namespace_set_hostname, minijail_namespace_uts.
  case_bool_decide; [done|]. cbn [snd]. jail_solve.
Qed.

Lemma enter_chroot_ok j dir : jail_ok j → jail_ok (minijail_enter_chroot j dir).2.
Proof.
  intros Hj. unfold minijail_enter_chroot. case_bool_decide as E; [done|].
  apply eq_None_not_Some in E. pose proof (fok_rootdir j (proj2 Hj) E) as [? ?].
  cbn [snd]. jail_solve.
Qed.

Lemma enter_pivot_root_ok j dir : jail_ok j → jail_ok (minijail_enter_pivot_root j dir).2.
Proof.
  intros Hj. unfold minijail_enter_pivot_root. case_bool_decide as E; [done|].
  apply eq_None_not_Some in E. pose proof (fok_rootdir j (proj2 Hj) E) as [? ?].
  cbn [snd]. jail_solve.
Qed.

Lemma u64_succ n : u64 (u64 (Z.of_nat n) + 1) = u64 (Z.of_nat (n + 1)).
Proof. unfold uwrap. rewrite Zplus_mod_idemp_l. f_equal. lia. Qed.

Lemma mount_with_data_ok j src dest type mf data :
  jail_ok j → jail_ok (minijail_mount_with_data j src dest type mf data).2.
Proof.
  intros Hj. unfold minijail_mount_with_data. case_bool_decide as Ed; [|done]. simpl negb. cbv iota.
  set (m := {| m_src := _ |}). set (j1 := if negb _ then _ else _).
  assert (jail_ok j1 ∧ (F_vfs ∈ j1.(flags) ∨ F_enter_vfs ∈ j1.(flags))
          ∧ j1.(mounts) = j.(mounts) ∧ j1.(mounts_count) = j.(mounts_count)) as (Hj1 & Hns & _ & _).
  { unfold j1, flag, minijail_namespace_vfs. case_bool_decide; simpl; [by eauto|].
    split_and!; [by plain_flag| |done|done].
    left. unfold_jail. set_solver. }
  assert (m.(m_flags) ≠ 0).
  { unfold m; simpl. destruct (mf =? 0) eqn:E; [done|]. by apply Z.eqb_neq. }
  clearbody j1. clear Hj. jail_solve.
  - rewrite tok_mounts0, u64_succ, length_app. done.
  - apply list.Forall_app. split; [done|]. by apply list.Forall_singleton.
Qed.

Lemma add_remount_ok j name mode : jail_ok j → jail_ok (minijail_add_remount j name mode).2.
Proof.
  intros Hj. unfold minijail_add_remount. case_bool_decide as Ed; [|done]. simpl.
  jail_solve.
  apply list.Forall_app. split; [done|]. by apply list.Forall_singleton.
Qed.

Lemma add_to_cgroup_ok j path : jail_ok j → jail_ok (minijail_add_to_cgroup j path).2.
Proof.
  intros Hj. unfold minijail_add_to_cgroup. destruct (_ <=? _)%nat eqn:E; [done|].
  apply Nat.leb_gt in E. simpl.
  jail_solve.
  rewrite length_app. simpl. lia.
Qed.

Lemma rlimit_ok j t c m : jail_ok j → jail_ok (minijail_rlimit_ j t c m).2.
Proof.
  intros Hj. unfold minijail_rlimit_. destruct (_ <=? _)%nat eqn:E; [done|].
  apply Nat.leb_gt in E. destruct (existsb _ _) eqn:Ex; [done|]. simpl.
  jail_solve.
  split; [rewrite length_app; simpl; lia|]. destruct tok_rlimits0 as [_ Hn].
  rewrite fmap_app. apply list.NoDup_app. split_and!; [done| |apply NoDup_singleton].
  intros x (r & -> & Hr)%list_elem_of_fmap Hx. apply list_elem_of_singleton in Hx.
  apply not_true_iff_false in Ex. apply Ex, existsb_exists. exists r.
  split; [by apply list_elem_of_In|by apply Z.eqb_eq].
Qed.

Lemma add_hook_ok j h p e : jail_ok j → jail_ok (minijail_add_hook j h p e).2.
Proof.
  intros Hj. unfold minijail_add_hook. destruct (_ <=? _) eqn:E; [done|].
  apply Z.leb_gt in E. simpl. jail_solve.
  apply list.Forall_app. split; [done|]. by apply list.Forall_singleton.
Qed.

Lemma preserve_fd_ok j pfd cfd : jail_ok j → jail_ok (minijail_preserve_fd j pfd cfd).2.
Proof.
  intros Hj. unfold minijail_preserve_fd. destruct (_ || _) eqn:E; [done|].
  destruct (_ <=? _)%nat eqn:E2; [done|]. apply Nat.leb_gt in E2. apply orb_false_iff in E.
  simpl. jail_solve.
  split; [rewrite length_app; simpl; lia|]. apply list.Forall_app.
  split; [apply tok_fds0|]. apply list.Forall_singleton. simpl. lia.
Qed.

(** ** Calls that ask the kernel *)

Lemma wlp_bind_any {A C} (m : io A) (f : A → io C) P : (∀ a, wlp (f a) P) → wlp (m ≫= f) P.
Proof. intros H. apply wlp_bind. eapply wlp_mono; [|apply wlp_true]. auto. Qed.

Lemma lookup_loop_error {A} n call_r (found : list Z → option A) max sz :
  wlp (lookup_loop n call_r found max sz) (λ r, match r with inl rc => rc ≠ 0 | inr _ => True end).
Proof.
  revert sz. induction n as [|n IH]; intros sz; [done|]. cbn. intros a. destruct (rv a =? ERANGE).
  - destruct (_ <=? max); [apply IH|done].
  - destruct (rv a =? 0) eqn:E; cbn [negb].
    + by destruct (found _).
    + apply Z.eqb_neq in E. cbn. lia.
Qed.

Lemma change_user_ok j name : jail_ok j → wlp (minijail_change_user j name) (λ r, jail_ok r.2).
Proof.
  intros Hj. apply wlp_bind_any. intros [rc|[u g]]; [done|]. apply wlp_bind, wlp_lift.
  intros j1 H1. eapply change_uid_ok in H1; [|done]. clear Hj. simpl. jail_solve.
Qed.

Lemma change_group_ok j name : jail_ok j → wlp (minijail_change_group j name) (λ r, jail_ok r.2).
Proof.
  intros Hj. apply wlp_bind_any. intros [rc|g]; [done|]. apply wlp_bind, wlp_lift.
  intros j1 H1. by eapply change_gid_ok in H1.
Qed.

Lemma bind_ok j src dest w : jail_ok j → wlp (minijail_bind j src dest w) (λ r, jail_ok r.2).
Proof.
  intros Hj. apply wlp_bind_any. intros []; simpl; [|done]. by apply mount_with_data_ok.
Qed.

(** Probing Landlock changes the remembered ABI and the ruleset only. *)
Lemma refer_supported_frame j :
  wlp (fs_refer_restriction_supported j) (λ r, ∃ abi, r.2 = j <| fs_rules_landlock_abi := abi |>).
Proof.
  unfold fs_refer_restriction_supported. apply wlp_bind.
  destruct (_ <? 0); simpl; [intros a; destruct (0 <? rv a)|]; eauto.
  all: exists j.(fs_rules_landlock_abi); by destruct j.
Qed.

Lemma setup_fs_rules_fd_frame j :
  wlp (setup_fs_rules_fd j)
    (λ r, ∃ abi fd, r.2 = j <| fs_rules_landlock_abi := abi |> <| fs_rules_fd := fd |>).
Proof.
  apply wlp_bind. eapply wlp_mono; [|apply refer_supported_frame].
  intros [refer j1] [abi Hj1] a. simpl in *. subst. eauto.
Qed.

Lemma refer_supported_ok j :
  jail_ok j → wlp (fs_refer_restriction_supported j) (λ r, jail_ok r.2).
Proof.
  intros Hj. eapply wlp_mono; [|apply refer_supported_frame]. intros [? r] [abi Hr]. simpl in *. subst. jail_solve.
Qed.

Lemma add_fs_restriction_path_ok j path f :
  jail_ok j → wlp (add_fs_restriction_path j path f) (λ r, jail_ok r.2).
Proof.
  intros Hj. unfold add_fs_restriction_path. set (j1 := j <| fs_rules := _ |>). apply wlp_bind.
  apply (wlp_mono _ (λ j', ∃ abi fd, j' = j1 <| fs_rules_landlock_abi := abi |> <| fs_rules_fd := fd |>)).
  - intros j' (abi & fd & ->). unfold j1. simpl. jail_solve.
    rewrite tok_fs_rules0, u64_succ, length_app. done.
  - destruct (_ =? 0).
    + apply wlp_bind. eapply wlp_mono; [|apply setup_fs_rules_fd_frame].
      intros [rc j'] (abi & fd & Hj'). simpl in *. subst. eauto.
    + simpl. exists j.(fs_rules_landlock_abi), j.(fs_rules_fd). by destruct j.
Qed.

Lemma negated_ok m :
  wlp m (λ r, jail_ok r.2) → wlp (negated m) (λ r, jail_ok r.2).
Proof. intros H. apply wlp_bind. eapply wlp_mono; [|exact H]. by intros [rc j] Hj. Qed.

Lemma advanced_rw_ok j path :
  jail_ok j → wlp (minijail_add_fs_restriction_advanced_rw j path) (λ r, jail_ok r.2).
Proof.
  intros Hj. apply wlp_bind. eapply wlp_mono; [|by apply refer_supported_ok].
  intros [refer j1] Hj1. by apply negated_ok, add_fs_restriction_path_ok.
Qed.

(** A call whose code is ignored, followed by more. *)
Lemma wlp_then (m : io (Z * minijail)) (f : minijail → io minijail) :
  wlp m (λ r, jail_ok r.2) → (∀ j, jail_ok j → wlp (f j) jail_ok) →
  wlp ('(_, j) ← m; f j) jail_ok.
Proof. intros H Hf. apply wlp_bind. eapply wlp_mono; [|exact H]. intros [rc j]. apply Hf. Qed.

Lemma wlp_then' (m : io minijail) (f : minijail → io minijail) :
  wlp m jail_ok → (∀ j, jail_ok j → wlp (f j) jail_ok) → wlp (j ← m; f j) jail_ok.
Proof. intros H Hf. apply wlp_bind. eapply wlp_mono; [|exact H]. apply Hf. Qed.

Lemma default_fs_restrictions_ok j :
  jail_ok j → wlp (minijail_enable_default_fs_restrictions j) jail_ok.
Proof.
  unfold minijail_enable_default_fs_restrictions. generalize [str "/lib"; str "/lib64"; str "/usr/lib";
    str "/usr/lib64"; str "/bin"; str "/sbin"; str "/usr/sbin"; str "/usr/bin"].
  intros paths. revert j. induction paths as [|p paths IH]; intros j Hj; [done|].
  apply wlp_then; [|auto]. by apply negated_ok, add_fs_restriction_path_ok.
Qed.

Lemma add_mount_fs_rules_ok ms j : jail_ok j → wlp (add_mount_fs_rules j ms) jail_ok.
Proof.
  revert j. induction ms as [|m ms IH]; intros j Hj; [done|].
  apply wlp_then; [by apply negated_ok, add_fs_restriction_path_ok|]. intros j1 Hj1.
  apply wlp_then'; [|auto]. destruct (_ || _); [|done].
  by apply wlp_then; [apply advanced_rw_ok|].
Qed.

Lemma minimalistic_rules_ok j :
  jail_ok j → wlp (minijail_add_minimalistic_mountns_fs_rules j) jail_ok.
Proof.
  intros Hj. unfold minijail_add_minimalistic_mountns_fs_rules. destruct (_ || _); [done|].
  apply wlp_then'; [by apply add_mount_fs_rules_ok|]. intros j1 Hj1.
  destruct (negb _); [|done]. apply wlp_then'; [by apply default_fs_restrictions_ok|].
  intros j2 Hj2. apply wlp_then; [by apply negated_ok, add_fs_restriction_path_ok|].
  intros j3 Hj3. apply wlp_then; [by apply negated_ok, add_fs_restriction_path_ok|].
  intros j4 Hj4. destruct (flag j4 F_vfs); [|done].
  by apply wlp_then; [apply negated_ok, add_fs_restriction_path_ok|].
Qed.

Lemma clear_seccomp_options_ok j : jail_ok j → jail_ok (clear_seccomp_options j).
Proof. intros Hj. unfold clear_seccomp_options. jail_solve; done. Qed.

Lemma should_use_filters_ok j :
  jail_ok j → wlp (seccomp_should_use_filters j) (λ r, jail_ok r.2).
Proof.
  intros Hj. apply wlp_bind, wlp_call. intros a. destruct (_ && _); [by apply clear_seccomp_options_ok|].
  apply wlp_bind_any. intros []; [by apply clear_seccomp_options_ok|].
  destruct (flag j F_seccomp_filter_allow_speculation); [|done].
  apply wlp_bind_any. intros []; [done|]. simpl. apply clear_flag_ok; [|done].
  by apply (bool_decide_unpack _); vm_compute.
Qed.

Lemma set_filters_ok j prog : jail_ok j → jail_ok (set_seccomp_filters_internal j prog).
Proof. intros Hj. unfold set_seccomp_filters_internal. jail_solve; done. Qed.

(** ** All calls *)

Inductive api_call :=
  | A_keep_supplementary_gids
  | A_inherit_usergroups
  | A_use_seccomp
  | A_no_new_privs
  | A_use_seccomp_filter
  | A_set_using_minimalistic_mountns
  | A_disable_fs_restrictions
  | A_set_enable_profile_fs_restrictions
  | A_set_ambient_caps
  | A_reset_signal_mask
  | A_reset_signal_handlers
  | A_namespace_vfs
  | A_new_session_keyring
  | A_skip_remount_private
  | A_namespace_pids
  | A_namespace_pids_rw_proc
  | A_namespace_ipc
  | A_namespace_uts
  | A_namespace_net
  | A_namespace_cgroups
  | A_close_open_fds
  | A_remount_proc_readonly
  | A_namespace_user
  | A_namespace_user_disable_setgroups
  | A_run_as_init
  | A_mount_dev
  | A_mount_tmp
  | A_set_enable_default_runtime (b : bool)
  | A_use_caps (m : Z)
  | A_skip_setting_securebits (m : Z)
  | A_remount_mode (m : Z)
  | A_mount_tmp_size (sz : Z)
  | A_change_uid (u : Z)
  | A_change_gid (g : Z)
  | A_set_supplementary_gids (l : list Z)
  | A_capbset_drop (m : Z)
  | A_set_seccomp_filter_allow_speculation
  | A_namespace_set_hostname (name : cstr)
  | A_uidmap (m : cstr)
  | A_gidmap (m : cstr)
  | A_enter_chroot (dir : cstr)
  | A_enter_pivot_root (dir : cstr)
  | A_write_pid_file (path : cstr)
  | A_add_to_cgroup (path : cstr)
  | A_set_preload_path (path : cstr)
  | A_use_alt_syscall (table : cstr)
  | A_mount_with_data (src : cstr) (dest : cstr) (type : cstr) (mf : Z) (data : option cstr)
  | A_mount (src : cstr) (dest : cstr) (type : cstr) (mf : Z)
  | A_add_remount (name : cstr) (mode : Z)
  | A_rlimit (t : Z) (c : Z) (m : Z)
  | A_forward_signals
  | A_create_session
  | A_add_hook (h : Z) (p : Z) (e : Z)
  | A_preserve_fd (p : Z) (c : Z)
  | A_change_user (name : cstr)
  | A_change_group (name : cstr)
  | A_bind (src : cstr) (dest : cstr) (w : bool)
  | A_add_fs_restriction_rx (path : cstr)
  | A_add_fs_restriction_ro (path : cstr)
  | A_add_fs_restriction_rw (path : cstr)
  | A_add_fs_restriction_advanced_rw (path : cstr)
  | A_add_fs_restriction_edit (path : cstr)
  | A_add_fs_restriction_access_rights (path : cstr) (f : Z)
  | A_set_seccomp_filter_tsync
  | A_log_seccomp_filter_failures
  | A_enable_default_fs_restrictions
  | A_add_minimalistic_mountns_fs_rules
  | A_namespace_enter_vfs (path : cstr)
  | A_namespace_enter_net (path : cstr)
  | A_parse_seccomp_filters (path : cstr)
  | A_parse_seccomp_filters_from_fd (fd : Z)
  | A_set_seccomp_filters (prog : list sock_filter).

Variable fs : cstr → option (list ascii).

Definition void (m : io minijail) : io (Z * minijail) := j ← m; mret (0, j).

Definition api_step (c : api_call) (j : minijail) : io (Z * minijail) :=
  match c with
  | A_keep_supplementary_gids => mret (0, minijail_keep_supplementary_gids j)
  | A_inherit_usergroups => mret (0, minijail_inherit_usergroups j)
  | A_use_seccomp => mret (0, minijail_use_seccomp j)
  | A_no_new_privs => mret (0, minijail_no_new_privs j)
  | A_use_seccomp_filter => mret (0, minijail_use_seccomp_filter j)
  | A_set_using_minimalistic_mountns => mret (0, minijail_set_using_minimalistic_mountns j)
  | A_disable_fs_restrictions => mret (0, minijail_disable_fs_restrictions j)
  | A_set_enable_profile_fs_restrictions => mret (0, minijail_set_enable_profile_fs_restrictions j)
  | A_set_ambient_caps => mret (0, minijail_set_ambient_caps j)
  | A_reset_signal_mask => mret (0, minijail_reset_signal_mask j)
  | A_reset_signal_handlers => mret (0, minijail_reset_signal_handlers j)
  | A_namespace_vfs => mret (0, minijail_namespace_vfs j)
  | A_new_session_keyring => mret (0, minijail_new_session_keyring j)
  | A_skip_remount_private => mret (0, minijail_skip_remount_private j)
  | A_namespace_pids => mret (0, minijail_namespace_pids j)
  | A_namespace_pids_rw_proc => mret (0, minijail_namespace_pids_rw_proc j)
  | A_namespace_ipc => mret (0, minijail_namespace_ipc j)
  | A_namespace_uts => mret (0, minijail_namespace_uts j)
  | A_namespace_net => mret (0, minijail_namespace_net j)
  | A_namespace_cgroups => mret (0, minijail_namespace_cgroups j)
  | A_close_open_fds => mret (0, minijail_close_open_fds j)
  | A_remount_proc_readonly => mret (0, minijail_remount_proc_readonly j)
  | A_namespace_user => mret (0, minijail_namespace_user j)
  | A_namespace_user_disable_setgroups => mret (0, minijail_namespace_user_disable_setgroups j)
  | A_run_as_init => mret (0, minijail_run_as_init j)
  | A_mount_dev => mret (0, minijail_mount_dev j)
  | A_mount_tmp => mret (0, minijail_mount_tmp j)
  | A_set_enable_default_runtime b => mret (0, minijail_set_enable_default_runtime j b)
  | A_use_caps m => mret (0, minijail_use_caps j m)
  | A_skip_setting_securebits m => mret (0, minijail_skip_setting_securebits j m)
  | A_remount_mode m => mret (0, minijail_remount_mode j m)
  | A_mount_tmp_size sz => mret (0, minijail_mount_tmp_size j sz)
  | A_change_uid u => void (lift (minijail_change_uid j u))
  | A_change_gid g => void (lift (minijail_change_gid j g))
  | A_set_supplementary_gids l => void (lift (minijail_set_supplementary_gids j l))
  | A_capbset_drop m => void (lift (minijail_capbset_drop j m))
  | A_set_seccomp_filter_allow_speculation =>
      void (lift (minijail_set_seccomp_filter_allow_speculation j))
  | A_namespace_set_hostname name => mret (minijail_namespace_set_hostname j name)
  | A_uidmap m => mret (minijail_uidmap j m)
  | A_gidmap m => mret (minijail_gidmap j m)
  | A_enter_chroot dir => mret (minijail_enter_chroot j dir)
  | A_enter_pivot_root dir => mret (minijail_enter_pivot_root j dir)
  | A_write_pid_file path => mret (minijail_write_pid_file j path)
  | A_add_to_cgroup path => mret (minijail_add_to_cgroup j path)
  | A_set_preload_path path => mret (minijail_set_preload_path j path)
  | A_use_alt_syscall table => mret (minijail_use_alt_syscall j table)
  | A_mount_with_data src dest type mf data => mret (minijail_mount_with_data j src dest type mf data)
  | A_mount src dest type mf => mret (minijail_mount j src dest type mf)
  | A_add_remount name mode => mret (minijail_add_remount j name mode)
  | A_rlimit t c m => mret (minijail_rlimit_ j t c m)
  | A_forward_signals => mret (minijail_forward_signals j)
  | A_create_session => mret (minijail_create_session j)
  | A_add_hook h p e => mret (minijail_add_hook j h p e)
  | A_preserve_fd p c => mret (minijail_preserve_fd j p c)
  | A_change_user name => minijail_change_user j name
  | A_change_group name => minijail_change_group j name
  | A_bind src dest w => minijail_bind j src dest w
  | A_add_fs_restriction_rx path => minijail_add_fs_restriction_rx j path
  | A_add_fs_restriction_ro path => minijail_add_fs_restriction_ro j path
  | A_add_fs_restriction_rw path => minijail_add_fs_restriction_rw j path
  | A_add_fs_restriction_advanced_rw path => minijail_add_fs_restriction_advanced_rw j path
  | A_add_fs_restriction_edit path => minijail_add_fs_restriction_edit j path
  | A_add_fs_restriction_access_rights path f => 
      minijail_add_fs_restriction_access_rights j path f
  | A_set_seccomp_filter_tsync => void (minijail_set_seccomp_filter_tsync j)
  | A_log_seccomp_filter_failures => void (minijail_log_seccomp_filter_failures j)
  | A_enable_default_fs_restrictions => void (minijail_enable_default_fs_restrictions j)
  | A_add_minimalistic_mountns_fs_rules => void (minijail_add_minimalistic_mountns_fs_rules j)
  | A_namespace_enter_vfs path => void (minijail_namespace_enter_vfs j path)
  | A_namespace_enter_net path => void (minijail_namespace_enter_net j path)
  | A_parse_seccomp_filters path => void (minijail_parse_seccomp_filters fs j path)
  | A_parse_seccomp_filters_from_fd fd => void (minijail_parse_seccomp_filters_from_fd fs j fd)
  | A_set_seccomp_filters prog => void (minijail_set_seccomp_filters j prog)
  end.

Lemma void_ok m : wlp m jail_ok → wlp (void m) (λ r, jail_ok r.2).
Proof. intros H. apply wlp_bind. eapply wlp_mono; [|exact H]. done. Qed.

Lemma wlp_lift_ok (m : outcome minijail) :
  (∀ j', m = Ret j' → jail_ok j') → wlp (void (lift m)) (λ r, jail_ok r.2).
Proof. intros H. by apply void_ok, wlp_lift. Qed.

Lemma parse_filters_ok j name file :
  jail_ok j → wlp (parse_seccomp_filters fs j name file) (λ r, jail_ok r.2).
Proof.
  intros Hj. apply wlp_bind_any. intros opts. apply wlp_bind_any. intros [prog|]; [|done].
  by apply set_filters_ok.
Qed.

Lemma policy_path_ok j p : jail_ok j → jail_ok (j <| seccomp_policy_path := p |>).
Proof. intros Hj. jail_solve. Qed.

Lemma parse_seccomp_filters_path_ok j path :
  jail_ok j → wlp (minijail_parse_seccomp_filters fs j path) jail_ok.
Proof.
  intros Hj. apply wlp_bind. eapply wlp_mono; [|by apply should_use_filters_ok].
  intros [use j1] Hj1. destruct use; simpl; [|done]. destruct (fs path) as [file|]; [|done].
  apply wlp_bind. eapply wlp_mono; [|by apply parse_filters_ok].
  intros [rc j2] Hj2. destruct (negb _); [done|]. by apply policy_path_ok.
Qed.

Lemma parse_seccomp_filters_fd_ok j fd :
  jail_ok j → wlp (minijail_parse_seccomp_filters_from_fd fs j fd) jail_ok.
Proof.
  intros Hj. apply wlp_bind. eapply wlp_mono; [|by apply should_use_filters_ok].
  intros [use j1] Hj1. destruct use; simpl; [|done]. intros a. destruct (bytes a) as [file|]; [|done].
  intros a2. apply wlp_bind. eapply wlp_mono; [|by apply parse_filters_ok].
  intros [rc j2] Hj2. destruct (negb _); [done|]. by apply policy_path_ok.
Qed.

Lemma set_seccomp_filters_ok j prog :
  jail_ok j → wlp (minijail_set_seccomp_filters j prog) jail_ok.
Proof.
  intros Hj. apply wlp_bind. eapply wlp_mono; [|by apply should_use_filters_ok].
  intros [use j1] Hj1. destruct use; simpl; [|done].
  destruct (seccomp_is_logging_allowed j1); [done|]. by apply set_filters_ok.
Qed.

Lemma enter_ns_ok path f :
  f ∉ critical_flags → ∀ upd : Z → minijail, (∀ fd, jail_ok (upd fd)) →
  wlp (a ← call (Open path O_RDONLY 0); if rv a <? 0 then IDie else mret (set_flag f (upd (rv a)))) jail_ok.
Proof.
  intros Hf upd Hu a. simpl. destruct (rv a <? 0); [done|]. by apply set_flag_ok.
Qed.

Create HintDb jail.
#[local] Hint Resolve namespace_pids_ok namespace_pids_rw_proc_ok use_caps_ok set_hostname_ok
  enter_chroot_ok enter_pivot_root_ok add_to_cgroup_ok mount_with_data_ok add_remount_ok rlimit_ok
  add_hook_ok preserve_fd_ok change_user_ok change_group_ok bind_ok advanced_rw_ok
  add_fs_restriction_path_ok negated_ok void_ok default_fs_restrictions_ok minimalistic_rules_ok
  parse_seccomp_filters_path_ok parse_seccomp_filters_fd_ok set_seccomp_filters_ok
  change_uid_ok change_gid_ok set_supplementary_gids_ok capbset_drop_ok wlp_lift_ok : jail.

Lemma remount_proc_ok j : jail_ok j → jail_ok (minijail_remount_proc_readonly j).
Proof. intros Hj. unfold minijail_remount_proc_readonly. by do 2 plain_flag. Qed.

Lemma tsync_ok j : jail_ok j → wlp (minijail_set_seccomp_filter_tsync j) jail_ok.
Proof.
  intros Hj. unfold minijail_set_seccomp_filter_tsync. destruct (filter_installed j); [done|].
  destruct (seccomp_is_logging_allowed j); [|by simpl; plain_flag].
  apply wlp_bind_any. intros []; simpl; [by plain_flag|done].
Qed.

Lemma log_failures_ok j : jail_ok j → wlp (minijail_log_seccomp_filter_failures j) jail_ok.
Proof.
  intros Hj. unfold minijail_log_seccomp_filter_failures. destruct (filter_installed j); [done|].
  assert (jail_ok (if debug_logging_allowed then set_flag F_seccomp_filter_logging j else j)) as Hf.
  { destruct debug_logging_allowed; [by plain_flag|done]. }
  destruct (flag j F_seccomp_filter_tsync); [|done].
  apply wlp_bind_any. intros []; simpl; done.
Qed.

Lemma allow_speculation_ok j j' :
  jail_ok j → minijail_set_seccomp_filter_allow_speculation j = Ret j' → jail_ok j'.
Proof.
  intros Hj. unfold minijail_set_seccomp_filter_allow_speculation.
  destruct (filter_installed j); [done|]. intros [= <-]. by plain_flag.
Qed.

#[local] Hint Resolve remount_proc_ok tsync_ok log_failures_ok allow_speculation_ok : jail.

Lemma ret_ok (r : Z * minijail) : jail_ok r.2 → wlp (mret r) (λ r, jail_ok r.2).
Proof. done. Qed.

Lemma field_ok j :
  jail_ok j →
  (∀ m, jail_ok (j <| remount_mode := m |>)) ∧ (∀ m, jail_ok (j <| securebits_skip_mask := m |>)) ∧
  (∀ m, jail_ok (j <| tmpfs_size := m |>)) ∧ (∀ m, jail_ok (j <| uidmap := m |>)) ∧
  (∀ m, jail_ok (j <| gidmap := m |>)) ∧ (∀ m, jail_ok (j <| preload_path := m |>)) ∧
  (∀ m, jail_ok (j <| mountns_fd := m |>)) ∧ (∀ m, jail_ok (j <| netns_fd := m |>)).
Proof. intros Hj. split_and!; intros m; jail_solve. Qed.

Lemma write_pid_file_ok j path : jail_ok j → jail_ok (minijail_write_pid_file j path).2.
Proof. intros Hj. unfold minijail_write_pid_file. cbn [snd]. jail_solve. Qed.

Lemma use_alt_syscall_ok j table : jail_ok j → jail_ok (minijail_use_alt_syscall j table).2.
Proof. intros Hj. unfold minijail_use_alt_syscall. cbn [snd]. jail_solve. Qed.

Lemma set_enable_default_runtime_ok j b :
  jail_ok j → jail_ok (minijail_set_enable_default_runtime j b).
Proof.
  intros Hj. destruct b; simpl; [by plain_flag|]. apply clear_flag_ok; [|done].
  by apply (bool_decide_unpack _); vm_compute.
Qed.

Lemma disable_fs_restrictions_ok j : jail_ok j → jail_ok (minijail_disable_fs_restrictions j).
Proof.
  intros Hj. apply clear_flag_ok; [|done]. by apply (bool_decide_unpack _); vm_compute.
Qed.

Lemma set_preload_path_ok j path : jail_ok j → jail_ok (minijail_set_preload_path j path).2.
Proof.
  intros Hj. unfold minijail_set_preload_path. case_bool_decide; [done|]. by apply field_ok.
Qed.

#[local] Hint Resolve ret_ok write_pid_file_ok use_alt_syscall_ok set_enable_default_runtime_ok
  disable_fs_restrictions_ok set_preload_path_ok : jail.

Lemma api_step_ok c j : jail_ok j → wlp (api_step c j) (λ r, jail_ok r.2).
Proof.
  intros Hj. destruct c; cbn [api_step].
  all: try (by eauto 4 with jail).
  all: try (by simpl; plain_flag).
  all: pose proof (field_ok j Hj) as (Hmode & Hbits & Htmp & Huid & Hgid & _ & Hmnt & Hnet).
  - apply Hmode.
  - simpl. plain_flag. apply Htmp.
  - apply Hbits.
  - apply Hmode.
  - simpl. plain_flag. apply Htmp.
  - apply Huid.
  - apply Hgid.
  - apply void_ok. refine (enter_ns_ok path F_enter_vfs _ (λ fd, j <| mountns_fd := fd |>) Hmnt).
    by apply (bool_decide_unpack _); vm_compute.
  - apply void_ok. refine (enter_ns_ok path F_enter_net _ (λ fd, j <| netns_fd := fd |>) Hnet).
    by apply (bool_decide_unpack _); vm_compute.
Qed.

(** A sequence of calls; a call that returns an error leaves the rest to run. *)
Fixpoint api_run (calls : list api_call) (j : minijail) : io minijail :=
  match calls with
  | [] => mret j
  | c :: rest => '(_, j) ← api_step c j; api_run rest j
  end.

Lemma api_run_ok calls j : jail_ok j → wlp (api_run calls j) jail_ok.
Proof.
  revert j. induction calls as [|c calls IH]; intros j Hj; [done|].
  apply wlp_then; [by apply api_step_ok|auto].
Qed.

(** C24: every configuration the API can build, by any sequence of calls and
    whatever the kernel answers to them, is well formed: counts agree with their
    lists and stay within their arrays, no limit or capability setting is given
    twice, mount points are absolute and come with a mount namespace, at most one
    of chroot and pivot_root is chosen and has its directory, a pid namespace comes with
    a mount namespace and an init process, the flags for the user and the group stand for
    ids other than 0, those for a pid file and an alternate system call table for a path
    and a name, and a host name or cgroups come with their flag.  (The filter and the
    inherited groups have no such promise: minijail_use_seccomp_filter and
    minijail_inherit_usergroups may come before, or without, the program and the user.) *)
Theorem api_invariant calls : wlp (api_run calls minijail_new) jail_ok.
Proof. apply api_run_ok, minijail_new_ok. Qed.

End Api.
