(* ===== verification/JailSpec.v ===== *)
(** * What the configuration functions do

    Stripping before and after execve, the filter that ends up in a jail, mounts
    and their defaults, bind sources, secure bits and user lookup. *)

From S2P Require Import Prelude CLib Util UtilProps Bpf BpfMachine SyscallFilter Policy FilterCorrect.
From S2P Require Import OS Trace System Jail JailProps.
Local Open Scope Z_scope.

(** ** Stripping *)

(** What only the parent acts on: neither the child before execve nor the
    preloaded library after it needs these. *)
Definition parent_only : gset jflag :=
  {[F_pids; F_do_init; F_run_as_init; F_pid_file; F_cgroups; F_forward_signals; F_setsid]}.

Definition accounted (f : jflag) : bool :=
  (bool_decide (f ∈ preexec_kept) || bool_decide (f ∉ preenter_cleared) || bool_decide (f ∈ parent_only))
  && eqb (bool_decide (f ∈ preexec_kept) && bool_decide (f ∉ preenter_cleared))
         (bool_decide (f = F_userns ∨ f = F_enable_fs_restrictions)).

Lemma all_accounted f : accounted f = true.
Proof.
  assert (forallb accounted all_flags = true) as H by (vm_compute; reflexivity).
  rewrite forallb_forall in H. apply H. destruct f; simpl; tauto.
Qed.

(** Every flag is accounted for when a jail crosses execve: a flag that the
    preloaded library does not see (it was stripped by [minijail_preenter]) and
    that the child lost before execve (it was not kept by [minijail_preexec]) is
    one the parent alone acts on; and what both keep is the user namespace and the
    Landlock switch only. *)
Theorem strip_accounts_for_flags j f :
  f ∈ j.(flags) →
  (f ∈ (minijail_preexec j).(flags) ∨ f ∈ (minijail_preenter j).(flags) ∨ f ∈ parent_only) ∧
  (f ∈ (minijail_preexec j).(flags) ∧ f ∈ (minijail_preenter j).(flags) ↔
   f = F_userns ∨ f = F_enable_fs_restrictions).
Proof.
  intros Hf. pose proof (all_accounted f) as H. unfold accounted in H.
  apply andb_true_iff in H as [H1 H2]. apply eqb_prop in H2.
  assert (f ∈ (minijail_preexec j).(flags) ↔ f ∈ preexec_kept) as ->.
  { change (f ∈ j.(flags) ∩ preexec_kept ↔ f ∈ preexec_kept).
    rewrite elem_of_intersection. tauto. }
  assert (f ∈ (minijail_preenter j).(flags) ↔ f ∉ preenter_cleared) as ->.
  { change (f ∈ j.(flags) ∖ preenter_cleared ↔ f ∉ preenter_cleared).
    rewrite elem_of_difference. tauto. }
  rewrite !orb_true_iff, !bool_decide_eq_true in H1. split; [tauto|].
  rewrite <- (bool_decide_eq_true (f = F_userns ∨ _)), <- H2, andb_true_iff, !bool_decide_eq_true.
  done.
Qed.

Lemma strip_accounts_for_flags_witness :
  F_vfs ∈ (minijail_namespace_vfs minijail_new).(flags) ∧
  ¬ (F_vfs ∈ (minijail_preexec (minijail_namespace_vfs minijail_new)).(flags) ∧
     F_vfs ∈ (minijail_preenter (minijail_namespace_vfs minijail_new)).(flags)).
Proof.
  assert (F_vfs ∈ (minijail_namespace_vfs minijail_new).(flags)) as H
    by (apply (bool_decide_unpack _); vm_compute; exact I).
  split; [exact H|].
  destruct (strip_accounts_for_flags (minijail_namespace_vfs minijail_new) F_vfs H) as [_ [H1 _]].
  intros H2. destruct (H1 H2); discriminate.
Defined.

(** ** The filter in the jail *)

Section Filters.
Context {B : BuildConfig}.

Lemma seccomp_filter_options_spec j :
  wlp (seccomp_filter_options j) (λ opts,
    opts.(allow_logging) = debug_logging_allowed && seccomp_is_logging_allowed j ∧
    opts.(opt_allow_duplicate_syscalls) = allow_duplicate_syscalls ∧
    (opts.(action) = ACTION_RET_LOG → opts.(allow_logging) = true) ∧
    (opts.(allow_syscalls_for_logging) = true →
       opts.(allow_logging) = true ∧ opts.(action) = ACTION_RET_TRAP)).
Proof.
  unfold seccomp_filter_options. destruct (_ && _).
  - apply wlp_bind_any. intros []; simpl; naive_solver.
  - destruct (flag j F_seccomp_filter_tsync); [|simpl; naive_solver].
    apply wlp_bind_any. intros []; simpl; naive_solver.
Qed.

Variable fs : cstr → option (list ascii).

(** The kernel's answers on the program are those of the policy in [file].  Unless
    failures are only logged, no call the policy does not allow goes through. *)
Definition decides (prog : list sock_filter) (logging : bool) (file : list ascii) : Prop :=
  ∃ opts es,
    opts.(allow_logging) = logging ∧ read_policy fs opts file = Some es ∧
    (logging = false → opts.(action) ≠ ACTION_RET_LOG ∧ logging_entries opts = []) ∧
    ∀ d, bpf_run d prog =
      verdict_code <$> eval_policy d (logging_entries opts ++ es) (action_verdict opts.(action)).

(** The jail holds a program for the policy in [file], and its length is recorded. *)
Definition enforces (j : minijail) (logging : bool) (file : list ascii) : Prop :=
  ∃ prog, j.(filter_prog) = Some prog ∧ j.(filter_len) = Z.of_nat (length prog) ∧ decides prog logging file.

Lemma parse_seccomp_filters_spec j name file :
  wlp (parse_seccomp_filters fs j name file) (λ r,
    (r.1 = -1 ∧ r.2 = j) ∨
    (r.1 = 0 ∧ enforces r.2 (debug_logging_allowed && seccomp_is_logging_allowed j) file ∧
     r.2.(flags) = j.(flags))).
Proof.
  apply wlp_bind. eapply wlp_mono; [|apply seccomp_filter_options_spec].
  intros opts (Hl & Hd & Ha & Hs). apply wlp_bind, wlp_lift. intros [prog|] Hc; [|by left].
  right. split; [done|]. split; [|done].
  apply compile_filter_run in Hc as (es & Hr & _ & _ & Hrun).
  exists prog. split_and!; [done|done|]. exists opts, es. split_and!; try done.
  intros E. rewrite E in Hl. split; [by intros ?%Ha; congruence|].
  unfold logging_entries. destruct (allow_syscalls_for_logging opts); [|done].
  destruct (Hs eq_refl). congruence.
Qed.

Lemma should_use_filters_spec j :
  wlp (seccomp_should_use_filters j) (λ r,
    (r.1 = true ∧ seccomp_is_logging_allowed r.2 = seccomp_is_logging_allowed j ∧
     (F_seccomp_filter ∈ r.2.(flags) ↔ F_seccomp_filter ∈ j.(flags))) ∨
    (r.1 = false ∧ seccomp_can_softfail = true ∧ r.2 = clear_seccomp_options j)).
Proof.
  unfold seccomp_should_use_filters. apply wlp_bind, wlp_call. intros a.
  destruct ((rv a =? -1) && _) eqn:E1.
  { right. apply andb_true_iff in E1 as [_ E1]. by apply andb_true_iff in E1 as [_ ->]. }
  apply wlp_bind.
  apply (wlp_mono _ (λ b, b = true → seccomp_can_softfail = true)).
  - intros b Hb. destruct b; [right; simpl; auto|].
    destruct (flag j F_seccomp_filter_allow_speculation); [|by left].
    apply wlp_bind_any. intros avail. left. destruct avail; simpl; [done|]. split_and!; [done| |].
    + unfold seccomp_is_logging_allowed. f_equal. unfold_jail. apply bool_decide_ext. set_solver.
    + unfold_jail. set_solver.
  - destruct (flag j F_seccomp_filter_tsync); [|done]. apply wlp_bind, wlp_call. intros b.
    simpl. intros H%andb_true_iff. tauto.
Qed.

Lemma parse_filters_enforced j path :
  wlp (minijail_parse_seccomp_filters fs j path) (λ j',
    (∃ file, fs path = Some file ∧ j'.(seccomp_policy_path) = Some path ∧
       enforces j' (debug_logging_allowed && seccomp_is_logging_allowed j) file ∧
       (F_seccomp_filter ∈ j'.(flags) ↔ F_seccomp_filter ∈ j.(flags)) ∧
       seccomp_is_logging_allowed j' = seccomp_is_logging_allowed j) ∨
    (seccomp_can_softfail = true ∧ j'.(filter_prog) = None ∧ F_seccomp_filter ∉ j'.(flags))).
Proof.
  apply wlp_bind. eapply wlp_mono; [|apply should_use_filters_spec].
  intros [use j1] [(Hu & Hl & Hf)|(Hu & Hs & Hj)]; simpl in *; subst use; simpl.
  - destruct (fs path) as [file|]; [|done]. apply wlp_bind.
    eapply wlp_mono; [|apply parse_seccomp_filters_spec].
    intros [rc j2] [[Hrc _]|(Hrc & He & Hfl)]; simpl in *; subst rc; simpl; [done|].
    left. exists file. split_and!; try done.
    + rewrite <- Hl. exact He.
    + rewrite <- Hf, <- Hfl. done.
    + rewrite <- Hl. unfold seccomp_is_logging_allowed, flag. by rewrite <- Hfl.
  - subst. right. split_and!; [done|done|].
    unfold clear_seccomp_options. unfold_jail. set_solver.
Qed.

(** C27: when [minijail_parse_seccomp_filters] returns, the jail holds a program that
    enforces the policy in the file for every system call; unless failures are to
    be logged, the default action is fatal and nothing is allowed beyond the
    policy.  The one other way to return is the soft failure that the build must
    allow, which leaves the jail without filter and without the filter flag. *)
Theorem parse_seccomp_filters_enforces j path :
  wlp (minijail_parse_seccomp_filters fs j path) (λ j',
    (∃ file, fs path = Some file ∧ j'.(seccomp_policy_path) = Some path ∧
       enforces j' (debug_logging_allowed && seccomp_is_logging_allowed j) file ∧
       (F_seccomp_filter ∈ j'.(flags) ↔ F_seccomp_filter ∈ j.(flags))) ∨
    (seccomp_can_softfail = true ∧ j'.(filter_prog) = None ∧ F_seccomp_filter ∉ j'.(flags))).
Proof.
  eapply wlp_mono; [|apply parse_filters_enforced].
  intros j' [(file & H1 & H2 & H3 & H4 & _)|H]; [left; by exists file|by right].
Qed.

End Filters.

(** ** Mounts *)

Section Mounts.
Context {B : BuildConfig}.

(** [minijail_mount_with_data] refuses a destination that is not absolute and
    changes nothing then; otherwise it adds exactly one mount, at the end of the
    list, whose flags are never empty and whose data on tmpfs is never left to
    the kernel's permissive default, and it forces a mount namespace unless an
    existing one is to be entered. *)
Theorem mount_with_data_spec j src dest type mf data :
  let '(rc, j') := minijail_mount_with_data j src dest type mf data in
  (head dest ≠ Some "/"%char → rc = - EINVAL ∧ j' = j) ∧
  (head dest = Some "/"%char →
     rc = 0 ∧
     ∃ m, j'.(mounts) = j.(mounts) ++ [m] ∧
       m.(m_src) = src ∧ m.(m_dest) = dest ∧ m.(m_type) = type ∧
       m.(m_flags) = (if mf =? 0 then 14 else mf) ∧ m.(m_flags) ≠ 0 ∧
       (type = str "tmpfs" → ∃ d, m.(m_data) = Some d ∧ d ≠ [] ∧
          (default [] data = [] → d = str "mode=0755,size=10M")) ∧
       (data = None → type ≠ str "tmpfs" → m.(m_data) = None) ∧
       (F_vfs ∈ j'.(flags) ∨ F_enter_vfs ∈ j'.(flags))).
Proof.
  unfold minijail_mount_with_data. case_bool_decide as Ed; simpl; [|done].
  split; [done|]. intros _. split; [done|]. set (j1 := if negb _ then _ else _).
  assert (j1.(mounts) = j.(mounts) ∧ (F_vfs ∈ j1.(flags) ∨ F_enter_vfs ∈ j1.(flags))) as [Hm Hv].
  { unfold j1, minijail_namespace_vfs. unfold_jail. case_bool_decide; simpl; [auto|].
    split; [done|]. left. unfold_jail. set_solver. }
  clearbody j1. eexists. split; [unfold_jail; by rewrite Hm|]. simpl.
  split_and!; try done.
  - destruct (mf =? 0) eqn:E; [done|by apply Z.eqb_neq].
  - intros ->. unfold mount_data, streq. rewrite bool_decide_true by done.
    destruct data as [[|c d]|]; eexists; (split; [done|]); by split.
  - intros -> Ht. unfold mount_data, streq. by rewrite bool_decide_false.
Qed.

Lemma canonical_of_spec path rp :
  canonical_of path rp = true ↔ path = rp ∨ path = rp ++ str "/".
Proof.
  unfold canonical_of, streq, strncmp_eq. rewrite orb_true_iff, !andb_true_iff, !bool_decide_eq_true.
  rewrite (take_ge rp) by done. rewrite Nat.eqb_eq. split; [intros [?|[[Hl Ht] Hs]]; [by left|]|].
  - right. assert (length (drop (length rp) path) = 1%nat) as Hd by (rewrite length_drop; lia).
    pose proof (take_drop (length rp) path) as E. rewrite Ht in E.
    destruct (drop (length rp) path) as [|c [|]]; try done. subst path.
    rewrite last_snoc in Hs. by simplify_eq.
  - change (str "/") with ["/"%char]. intros [->| ->]; [by left|right]. rewrite length_app, take_app_length, last_snoc. by split_and!.
Qed.

(** ** Bind sources *)

(** The path lies properly under the prefix. *)
Definition lies_under (prefix path : cstr) : Prop :=
  ∃ rest, path = prefix ++ rest ∧ rest ≠ [] ∧ (list.last prefix = Some "/"%char ∨ head rest = Some "/"%char).

(** The prefixes of the build, between commas. *)
Definition allowed_prefix (p : cstr) : Prop :=
  p ∈ tokenize_all (Some bindmount_allowed_prefixes) (str ",").

(** The kernel resolves the path to itself, up to one trailing slash. *)
Definition resolves_to_itself (t : trace) (path : cstr) : Prop :=
  ∃ ans rp, (Realpath path, ans) ∈ t ∧ bytes ans = Some rp ∧ (path = rp ∨ path = rp ++ str "/").

(** The kernel resolves the path to another one or not at all, and no prefix covers it. *)
Definition not_canonical (t : trace) (path : cstr) : Prop :=
  block_symlinks_in_bindmount_paths = true ∧
  (∃ ans, (Realpath path, ans) ∈ t ∧
     ∀ rp, bytes ans = Some rp → path ≠ rp ∧ path ≠ rp ++ str "/") ∧
  ∀ p, allowed_prefix p → ¬ lies_under p path.

Lemma path_is_parent_iff p path b : path_is_parent p path = Ret b → b = true ↔ lies_under p path.
Proof.
  destruct p as [|x p].
  - unfold path_is_parent. cbn. destruct path as [|c path]; cbn; [|done]. intros [= <-].
    split; [done|]. intros (rest & ? & ? & _). by subst.
  - intros H. rewrite <- (path_is_parent_spec (x :: p) path) by done. rewrite H. split; congruence.
Qed.

Lemma has_allowed_prefix_spec prefixes path b :
  has_allowed_prefix prefixes path = Ret b → b = true ↔ ∃ p, p ∈ prefixes ∧ lies_under p path.
Proof.
  revert b. induction prefixes as [|p ps IH]; intros b; cbn [has_allowed_prefix].
  { intros [= <-]. split; [done|]. intros (p & Hp & _). by apply elem_of_nil in Hp. }
  intros H. apply bind_Ret in H as (c & Hc%path_is_parent_iff & H).
  setoid_rewrite elem_of_cons. destruct c.
  - injection H as <-. split; [|done]. intros _. exists p. split; [by left|by apply Hc].
  - rewrite (IH _ H). split; [intros (q & ? & ?); eauto|]. intros (q & [->|Hq] & Hu); [|eauto].
    by apply Hc in Hu.
Qed.

Lemma is_valid_bind_path_traces path :
  traces (is_valid_bind_path path) (λ valid t,
    (valid = true →
       block_symlinks_in_bindmount_paths = false ∨ resolves_to_itself t path ∨
       ∃ p, allowed_prefix p ∧ lies_under p path) ∧
    (valid = false → not_canonical t path)).
Proof.
  unfold is_valid_bind_path, is_canonical_path. destruct block_symlinks_in_bindmount_paths eqn:Eb; cbn [negb];
    [|split; [by left|done]].
  intros ans. set (t := [(Realpath path, ans)]). assert ((Realpath path, ans) ∈ t) as Hin by left.
  assert (∀ rp, canonical_of path rp = false → path ≠ rp ∧ path ≠ rp ++ str "/") as Hno.
  { intros rp Ec. assert (¬ (path = rp ∨ path = rp ++ str "/")) by (rewrite <- canonical_of_spec; congruence). tauto. }
  assert (∀ valid t', has_allowed_prefix (tokenize_all (Some bindmount_allowed_prefixes) (str ",")) path = Ret valid →
    (∀ rp, bytes ans = Some rp → path ≠ rp ∧ path ≠ rp ++ str "/") →
    (valid = true → true = false ∨ resolves_to_itself (t ++ t') path ∨ ∃ p, allowed_prefix p ∧ lies_under p path) ∧
    (valid = false → not_canonical (t ++ t') path)) as Hpre.
  { intros valid t' Hv%has_allowed_prefix_spec Hn. split.
    - intros ->. right. right. by apply Hv.
    - intros ->. split_and!; [done|exists ans; split; [apply elem_of_app; by left|done]|].
      intros p Hp Hu. destruct Hv as [_ Hv]. discriminate Hv. by exists p. }
  cbn [call mbind io_bind]. destruct (bytes ans) as [rp|] eqn:Er; [destruct (canonical_of path rp) eqn:Ec|].
  - split; [|done]. intros _. right. left. exists ans, rp. split_and!; [done|done|by apply canonical_of_spec].
  - apply traces_lift. intros valid Hv. apply (Hpre valid []); [done|]. intros ? [= <-]. by apply Hno.
  - apply traces_lift. intros valid Hv. by apply (Hpre valid []).
Qed.

(** C37: the check of a bind source, for every answer of the kernel.  Where the build blocks
    symbolic links a source is accepted only if the kernel resolves it to itself (up to
    one trailing slash) or it lies under one of the allowed prefixes, at a boundary of
    the path, and refused only if neither holds; other builds accept every source. *)
Theorem is_valid_bind_path_spec path :
  traces (is_valid_bind_path path) (λ valid t,
    (valid = true →
       block_symlinks_in_bindmount_paths = false ∨ resolves_to_itself t path ∨
       ∃ p, allowed_prefix p ∧ lies_under p path) ∧
    (valid = false → not_canonical t path)).
Proof. apply is_valid_bind_path_traces. Qed.

(** The original path is found by string prefix, so a mount on /x also claims /xy. *)
Lemma original_path_ignores_boundary :
  minijail_get_original_path
    (minijail_mount minijail_new (str "/src") (str "/x") (str "none") MS_BIND).2 (str "/xy")
  = str "/src/y".
Proof. reflexivity. Qed.

End Mounts.

(** ** Secure bits *)

(** The bits [lock_securebits] sets are all eight but those the caller asked to
    leave alone, the two that forbid raising ambient capabilities, and KEEP_CAPS
    when it is already locked off. *)
Theorem securebits_to_set_spec skip current i :
  0 <= i →
  Z.testbit (securebits_to_set skip current) i =
    negb (Z.testbit skip i) && (i <? 6) &&
    negb ((i =? 4) && match current with
                      | Some cur => Z.testbit cur 5 && negb (Z.testbit cur 4)
                      | None => false
                      end).
Proof.
  intros Hi. unfold securebits_to_set. cbv zeta. rewrite !Z.ldiff_spec.
  assert (∀ cur n, 0 <= n → (Z.land cur (2 ^ n) =? 0) = negb (Z.testbit cur n)) as Hland.
  { intros cur n Hn. apply eq_bool_prop_intro. rewrite negb_True, !Is_true_true, Z.eqb_eq. split.
    - intros H. apply (f_equal (λ z, Z.testbit z n)) in H.
      rewrite Z.land_spec, Z.pow2_bits_true, Z.bits_0 in H by done.
      rewrite andb_true_r in H. congruence.
    - intros H. apply Z.bits_inj'. intros m Hm. rewrite Z.land_spec, Z.bits_0.
      destruct (decide (m = n)) as [->|]; [|by rewrite Z.pow2_bits_false, andb_false_r by done].
      by destruct (Z.testbit cur n). }
  assert (8 <= i → Z.testbit 0xff i = false) as Hhigh.
  { intros H8. apply Z.bits_above_log2; [done|]. change (Z.log2 0xff) with 7. lia. }
  destruct (decide (8 <= i)) as [H8|H8].
  { rewrite (proj2 (Z.ltb_ge i 6)), andb_false_r by lia. cbn [andb].
    change (Z.lor SECURE_ALL_BITS SECURE_ALL_LOCKS) with 0xff.
    by repeat case_match; rewrite ?Z.ldiff_spec, (Hhigh H8). }
  assert (i = 0 ∨ i = 1 ∨ i = 2 ∨ i = 3 ∨ i = 4 ∨ i = 5 ∨ i = 6 ∨ i = 7) as Hcases by lia.
  destruct current as [cur|].
  - change SECBIT_KEEP_CAPS_LOCKED with (2 ^ 5). change (Z.land cur SECBIT_KEEP_CAPS) with (Z.land cur (2 ^ 4)).
    rewrite (Hland cur 5), (Hland cur 4) by lia. rewrite negb_involutive.
    repeat destruct Hcases as [->|Hcases]; try subst i;
      destruct (Z.testbit cur 5), (Z.testbit cur 4); simpl;
      rewrite ?andb_true_r, ?andb_false_r; try done; by destruct (Z.testbit skip _).
  - repeat destruct Hcases as [->|Hcases]; try subst i; simpl;
      rewrite ?andb_true_r, ?andb_false_r; try done; by destruct (Z.testbit skip _).
Qed.

Lemma securebits_to_set_spec_witness :
  Z.testbit (securebits_to_set 3 (Some 32)) 4 = false ∧
  Z.testbit (securebits_to_set 3 (Some 32)) 5 = true.
Proof.
  split; (etrans; [apply securebits_to_set_spec; lia|reflexivity]).
Defined.

(** ** Looking up users and groups *)

Lemma lookup_loop_S {A H} (host : oscall → H → answer * H) call_r (found : list Z → option A)
    max sz n h :
  run host (lookup_loop (S n) call_r found max sz) h =
    let '(a, h') := host (call_r sz) h in
    let '(r, t, h') :=
      run host (if rv a =? ERANGE then
                  if sz * 2 <=? max then lookup_loop n call_r found max (sz * 2)
                  else mret (inl (- ERANGE))
                else if negb (rv a =? 0) then mret (inl (- rv a))
                else match found (nums a) with
                     | None => mret (inl (- ENOENT))
                     | Some r => mret (inr r)
                     end) h' in
    (r, call_r sz :: t, h').
Proof. done. Qed.

Lemma lookup_loop_enough {A H} (host : oscall → H → answer * H) call_r (found : list Z → option A)
    max sz n h :
  1 <= sz → max < sz * 2 ^ Z.of_nat n →
  ∀ extra, run host (lookup_loop (S n + extra) call_r found max sz) h
           = run host (lookup_loop (S n) call_r found max sz) h.
Proof.
  intros Hsz Hmax extra. revert sz h Hsz Hmax. induction n as [|n IH]; intros sz h Hsz Hmax.
  - rewrite Nat.add_succ_l, !lookup_loop_S. destruct (host (call_r sz) h) as [a h'].
    change (Z.of_nat 0) with 0 in Hmax. by rewrite (proj2 (Z.leb_gt _ _)) by lia.
  - rewrite Nat.add_succ_l, !(lookup_loop_S _ _ _ _ sz). destruct (host (call_r sz) h) as [a h'].
    destruct (rv a =? ERANGE); [|done]. destruct (sz * 2 <=? max); [|done].
    rewrite IH; [done|lia|]. rewrite Nat2Z.inj_succ, Z.pow_succ_r in Hmax by lia. lia.
Qed.

(** Looking up a user ends after at most twenty-two questions: once the C library
    suggests a positive buffer size, more turns of the retry loop than the model
    allows would not change the outcome, whatever the database answers. *)
Theorem lookup_user_terminates {H} (host : oscall → H → answer * H) user sz extra h :
  1 <= sz →
  let found l := match l with [u; g] => Some (u32 u, u32 g) | _ => None end in
  run host (lookup_loop (lookup_fuel + extra) (Getpwnam_r user) found MAX_PWENT_SZ sz) h
  = run host (lookup_loop lookup_fuel (Getpwnam_r user) found MAX_PWENT_SZ sz) h.
Proof.
  intros Hsz found. apply (lookup_loop_enough host _ found _ sz 21); [done|].
  unfold MAX_PWENT_SZ. change (2 ^ Z.of_nat 21) with 2097152. lia.
Qed.

Lemma lookup_user_terminates_witness :
  let host c (h : nat) := (match c with
    | Getpwnam_r _ sz => if sz <? 5000 then Answer ERANGE 0 None [] else Answer 0 0 None [1000; 100]
    | _ => ok end, S h) in
  let found l := match l with [u; g] => Some (u32 u, u32 g) | _ => None end in
  run host (lookup_loop (lookup_fuel + 10) (Getpwnam_r (str "u")) found MAX_PWENT_SZ 1024) 0%nat
  = (Finished (inr (1000, 100)), [Getpwnam_r (str "u") 1024; Getpwnam_r (str "u") 2048;
       Getpwnam_r (str "u") 4096; Getpwnam_r (str "u") 8192], 4%nat).
Proof.
  intros host found. etrans; [apply (lookup_user_terminates host (str "u") 1024 10); lia|reflexivity].
Defined.
