(* ===== verification/JailMem.v ===== *)
(** * The objects of struct minijail in memory

    The pointers of [struct minijail] (libminijail.c) and the objects they own: the
    strings that the setters duplicate, the group list, the filter program, the four
    lists with a head and a tail pointer, and the array of cgroup paths.  [Jail] has
    the same functions on values.  What is modelled here is what a call allocates,
    links and frees; its other effects are in [Jail]. *)

From S2P Require Import Prelude CLib Util Bpf OS Jail Heap.
Local Open Scope Z_scope.

(** ** Objects *)

(** The nodes of the lists: [struct mountpoint], [struct minijail_remount], [struct
    fs_rule] and [struct hook], without their [next]. *)
Inductive nval :=
  | NMount (src dest type data : option loc) (mflags : Z)
  | NRemount (mount_name : option loc) (mode : Z)
  | NRule (path : option loc) (landlock_flags : Z)
  | NHook (h : hook).

Inductive object :=
  | OStr (s : cstr)
  | OGids (l : list Z)
  | OInstrs (prog : list sock_filter)
  | OFprog (filter : option loc)
  | ONode (v : nval) (next : option loc).

Abbreviation jm A := (hm object A).

(** The [char *] members. *)
Inductive sfield :=
  | S_user | S_chrootdir | S_pid_file_path | S_uidmap | S_gidmap | S_hostname
  | S_preload_path | S_filename | S_alt_syscall_table | S_seccomp_policy_path.

#[export] Instance sfield_eq_dec : EqDecision sfield.
Proof. solve_decision. Defined.

(** [mounts_head] and [mounts_tail], and so on. *)
Record queue := { q_head : option loc; q_tail : option loc }.

Inductive qfield := Q_mounts | Q_remounts | Q_fs_rules | Q_hooks.

#[export] Instance qfield_eq_dec : EqDecision qfield.
Proof. solve_decision. Defined.

Record jail_p := {
  p_str : sfield → option loc;
  p_queue : qfield → queue;
  p_suppl_gid_list : option loc;
  p_filter_prog : option loc;
  p_cgroups : list loc;
}.

#[export] Instance eta_jail_p : Eta jail_p := λ j,
  {| p_str := j.(p_str); p_queue := j.(p_queue); p_suppl_gid_list := j.(p_suppl_gid_list);
     p_filter_prog := j.(p_filter_prog); p_cgroups := j.(p_cgroups) |}.

(** Assign one member. *)
Definition set_str (f : sfield) (p : option loc) (j : jail_p) : jail_p :=
  j <| p_str := λ g, if decide (g = f) then p else j.(p_str) g |>.
Definition set_queue (f : qfield) (q : queue) (j : jail_p) : jail_p :=
  j <| p_queue := λ g, if decide (g = f) then q else j.(p_queue) g |>.

(** What calloc(3) leaves of the pointers. *)
Definition minijail_new_p : jail_p :=
  {| p_str := λ _, None; p_queue := λ _, {| q_head := None; q_tail := None |};
     p_suppl_gid_list := None; p_filter_prog := None; p_cgroups := [] |}.

(** ** C library *)

Definition strdup (s : cstr) : jm loc := alloc (OStr s).

(** free(3) does nothing with NULL. *)
Definition free_opt (p : option loc) : jm unit :=
  match p with Some l => free l | None => mret tt end.

(** ** Lists *)

Definition set_next (n : option loc) (o : object) : object :=
  match o with ONode v _ => ONode v n | o => o end.

(** Link the new node [m] behind the tail. *)
Definition queue_append (q : queue) (m : loc) : jm queue :=
  match q.(q_tail) with
  | Some t => _ ← update t (set_next (Some m)); mret {| q_head := q.(q_head); q_tail := Some m |}
  | None => mret {| q_head := Some m; q_tail := Some m |}
  end.

(** The members of a node that are freed with it, in the order of the source. *)
Definition owned_by (v : nval) : list (option loc) :=
  match v with
  | NMount src dest type data _ => [data; type; dest; src]
  | NRemount name _ => [name]
  | NRule path _ => [path]
  | NHook _ => []
  end.

Fixpoint free_each (ps : list (option loc)) : jm unit :=
  match ps with
  | [] => mret tt
  | p :: ps => _ ← free_opt p; free_each ps
  end.

Fixpoint free_nodes (fuel : nat) (head : option loc) : jm unit :=
  match head, fuel with
  | None, _ => mret tt
  | Some _, O => undefined
  | Some l, S fuel =>
      o ← load l;
      match o with
      | ONode v next => _ ← free_each (owned_by v); _ ← free l; free_nodes fuel next
      | _ => undefined
      end
  end.

Definition free_list_p (f : qfield) (j : jail_p) : jm jail_p :=
  _ ← (λ h, free_nodes (size h) (j.(p_queue) f).(q_head) h);
  mret (set_queue f {| q_head := None; q_tail := None |} j).

Definition free_mounts_list_p : jail_p → jm jail_p := free_list_p Q_mounts.
Definition free_remounts_list_p : jail_p → jm jail_p := free_list_p Q_remounts.
Definition free_fs_rules_list_p : jail_p → jm jail_p := free_list_p Q_fs_rules.

Definition add_node (f : qfield) (m : loc) (j : jail_p) : jm jail_p :=
  q ← queue_append (j.(p_queue) f) m;
  mret (set_queue f q j).

(** ** Setters *)

(** [j->f = strdup(s)] *)
Definition assign_str (f : sfield) (s : cstr) (j : jail_p) : jm jail_p :=
  l ← strdup s; mret (set_str f (Some l) j).

(** A setter that refuses a member that is set. *)
Definition assign_once (f : sfield) (s : cstr) (j : jail_p) : jm jail_p :=
  match j.(p_str) f with
  | Some _ => mret j
  | None => assign_str f s j
  end.

Definition minijail_set_supplementary_gids_p (list_ : list Z) (j : jail_p) : jm jail_p :=
  if bool_decide (list_ = []) then mret (j <| p_suppl_gid_list := None |>)
  else l ← alloc (OGids list_); mret (j <| p_suppl_gid_list := Some l |>).

Definition minijail_change_user_p : cstr → jail_p → jm jail_p := assign_str S_user.
Definition minijail_namespace_set_hostname_p : cstr → jail_p → jm jail_p := assign_once S_hostname.

Definition minijail_uidmap_p (map_ : cstr) : jail_p → jm jail_p :=
  assign_str S_uidmap (comma_to_newline <$> map_).
Definition minijail_gidmap_p (map_ : cstr) : jail_p → jm jail_p :=
  assign_str S_gidmap (comma_to_newline <$> map_).

Definition minijail_enter_chroot_p : cstr → jail_p → jm jail_p := assign_once S_chrootdir.
Definition minijail_enter_pivot_root_p : cstr → jail_p → jm jail_p := assign_once S_chrootdir.
Definition minijail_write_pid_file_p : cstr → jail_p → jm jail_p := assign_str S_pid_file_path.
Definition minijail_set_preload_path_p : cstr → jail_p → jm jail_p := assign_once S_preload_path.
Definition minijail_use_alt_syscall_p : cstr → jail_p → jm jail_p := assign_str S_alt_syscall_table.

(** [j->filename = strdup(config->filename)] in minijail_run_config_internal(). *)
Definition set_filename_p : cstr → jail_p → jm jail_p := assign_str S_filename.

Definition minijail_add_to_cgroup_p (path : cstr) (j : jail_p) : jm jail_p :=
  if (MAX_CGROUPS <=? length j.(p_cgroups))%nat then mret j
  else l ← strdup path; mret (j <| p_cgroups := j.(p_cgroups) ++ [l] |>).

Definition strdup_opt (s : option cstr) : jm (option loc) :=
  match s with Some s => l ← strdup s; mret (Some l) | None => mret None end.

Definition minijail_mount_with_data_p (src dest type : cstr) (mflags : Z) (data : option cstr)
    (j : jail_p) : jm jail_p :=
  if negb (bool_decide (head dest = Some "/"%char)) then mret j
  else
    m ← alloc (ONode (NMount None None None None 0) None);
    d ← strdup dest;
    s ← strdup src;
    t ← strdup type;
    da ← strdup_opt (mount_data type data);
    let mflags := if mflags =? 0 then default_mount_flags else mflags in
    _ ← update m (λ _, ONode (NMount (Some s) (Some d) (Some t) da mflags) None);
    add_node Q_mounts m j.

Definition minijail_add_remount_p (mount_name : cstr) (mode : Z) (j : jail_p) : jm jail_p :=
  if negb (bool_decide (head mount_name = Some "/"%char)) then mret j
  else
    m ← alloc (ONode (NRemount None 0) None);
    n ← strdup mount_name;
    _ ← update m (λ _, ONode (NRemount (Some n) mode) None);
    add_node Q_remounts m j.

Definition minijail_add_hook_p (hook_ payload event : Z) (j : jail_p) : jm jail_p :=
  if MINIJAIL_HOOK_EVENT_MAX <=? event then mret j
  else
    c ← alloc (ONode (NHook {| h_hook := 0; h_payload := 0; h_event := 0 |}) None);
    _ ← update c (λ _, ONode (NHook {| h_hook := hook_; h_payload := payload; h_event := event |}) None);
    add_node Q_hooks c j.

Definition add_fs_restriction_path_p (path : cstr) (landlock_flags : Z) (j : jail_p) : jm jail_p :=
  r ← alloc (ONode (NRule None 0) None);
  p ← strdup path;
  _ ← update r (λ _, ONode (NRule (Some p) landlock_flags) None);
  add_node Q_fs_rules r j.

(** ** The filter *)

Definition free_str (f : sfield) (j : jail_p) : jm jail_p :=
  _ ← free_opt (j.(p_str) f); mret (set_str f None j).

Definition clear_seccomp_options_p (j : jail_p) : jm jail_p :=
  free_str S_seccomp_policy_path (j <| p_filter_prog := None |>).

(** Free a program and its instructions. *)
Definition free_fprog (p : option loc) : jm unit :=
  match p with
  | None => mret tt
  | Some l =>
      o ← load l;
      match o with OFprog filter => _ ← free_opt filter; free l | _ => undefined end
  end.

(** The program is a copy, or the one parse_seccomp_filters() built. *)
Definition set_seccomp_filters_internal_p (filter : list sock_filter) (j : jail_p) : jm jail_p :=
  fprog ← alloc (OFprog None);
  i ← alloc (OInstrs filter);
  _ ← update fprog (λ _, OFprog (Some i));
  _ ← free_fprog j.(p_filter_prog);
  mret (j <| p_filter_prog := Some fprog |>).

(** The policy path after a policy was compiled: [None] when the path of the
    descriptor is not known. *)
Definition set_seccomp_policy_path_p (path : option cstr) (j : jail_p) : jm jail_p :=
  j ← free_str S_seccomp_policy_path j;
  p ← strdup_opt path;
  mret (set_str S_seccomp_policy_path p j).

(** ** Stripping and the end *)

Definition minijail_preenter_p (j : jail_p) : jm jail_p := free_remounts_list_p j.

Definition minijail_preexec_p (j : jail_p) : jm jail_p :=
  j ← free_str S_user j;
  _ ← free_opt j.(p_suppl_gid_list);
  let j := j <| p_suppl_gid_list := None |> in
  j ← free_str S_preload_path j;
  j ← free_mounts_list_p j;
  free_fs_rules_list_p j.

(** The struct itself is a value here: its own free() is not seen. *)
Definition minijail_destroy_p (j : jail_p) : jm unit :=
  _ ← free_fprog j.(p_filter_prog);
  j ← free_mounts_list_p j;
  j ← free_remounts_list_p j;
  j ← free_list_p Q_hooks j;
  j ← free_fs_rules_list_p j;
  _ ← free_opt (j.(p_str) S_user);
  _ ← free_opt j.(p_suppl_gid_list);
  _ ← free_each [j.(p_str) S_chrootdir; j.(p_str) S_pid_file_path; j.(p_str) S_uidmap; j.(p_str) S_gidmap;
                 j.(p_str) S_hostname; j.(p_str) S_preload_path; j.(p_str) S_filename;
                 j.(p_str) S_alt_syscall_table];
  _ ← free_each (Some <$> j.(p_cgroups));
  free_opt (j.(p_str) S_seccomp_policy_path).

(** ** The error exits of minijail_unmarshal() *)

Inductive label :=
  | bad_cgroups | bad_fs_rules | bad_mounts | bad_filter_prog_instrs | bad_filters | bad_syscall_table
  | bad_hostname | bad_chrootdir | bad_gid_list | clear_pointers.

#[export] Instance label_eq_dec : EqDecision label.
Proof. solve_decision. Defined.

(** The labels in the order of the source: control falls through to the ones below. *)
Definition labels : list label :=
  [bad_cgroups; bad_fs_rules; bad_mounts; bad_filter_prog_instrs; bad_filters; bad_syscall_table;
   bad_hostname; bad_chrootdir; bad_gid_list; clear_pointers].

Definition at_label (l : label) (j : jail_p) : jm jail_p :=
  match l with
  | bad_cgroups =>
      j ← free_mounts_list_p j;
      j ← free_remounts_list_p j;
      _ ← free_each (Some <$> j.(p_cgroups));
      mret j
  | bad_fs_rules => free_fs_rules_list_p j
  | bad_mounts =>
      _ ← match j.(p_filter_prog) with
          | None => mret tt
          | Some p => o ← load p; match o with OFprog filter => free_opt filter | _ => undefined end
          end;
      mret j
  | bad_filter_prog_instrs => _ ← free_opt j.(p_filter_prog); mret j
  | bad_filters => _ ← free_opt (j.(p_str) S_alt_syscall_table); mret j
  | bad_syscall_table => _ ← free_opt (j.(p_str) S_hostname); mret j
  | bad_hostname => _ ← free_opt (j.(p_str) S_chrootdir); mret j
  | bad_chrootdir => _ ← free_opt j.(p_suppl_gid_list); mret j
  | bad_gid_list => _ ← free_opt (j.(p_str) S_user); mret j
  | clear_pointers =>
      mret (set_str S_user None (set_str S_chrootdir None (set_str S_hostname None
             (set_str S_alt_syscall_table None (set_str S_seccomp_policy_path None
               (j <| p_suppl_gid_list := None |> <| p_cgroups := [] |>))))))
  end.

Fixpoint fall_through (ls : list label) (j : jail_p) : jm jail_p :=
  match ls with
  | [] => mret j
  | l :: ls => j ← at_label l j; fall_through ls j
  end.

(** [goto l] *)
Fixpoint goto_label (l : label) (ls : list label) (j : jail_p) : jm jail_p :=
  match ls with
  | [] => mret j
  | l' :: rest => if decide (l' = l) then fall_through ls j else goto_label l rest j
  end.

(** ** Calls *)

Inductive mcall :=
  | M_set_supplementary_gids (l : list Z)
  | M_change_user (name : cstr)
  | M_namespace_set_hostname (name : cstr)
  | M_uidmap (m : cstr)
  | M_gidmap (m : cstr)
  | M_enter_chroot (dir : cstr)
  | M_enter_pivot_root (dir : cstr)
  | M_write_pid_file (path : cstr)
  | M_set_preload_path (path : cstr)
  | M_use_alt_syscall (table : cstr)
  | M_set_filename (path : cstr)
  | M_add_to_cgroup (path : cstr)
  | M_mount_with_data (src dest type : cstr) (mflags : Z) (data : option cstr)
  | M_add_remount (name : cstr) (mode : Z)
  | M_add_hook (h p e : Z)
  | M_add_fs_restriction_path (path : cstr) (landlock_flags : Z)
  | M_clear_seccomp_options
  | M_set_seccomp_filters (prog : list sock_filter)
  | M_set_seccomp_policy_path (path : option cstr)
  | M_preenter
  | M_preexec.

Definition mcall_p (c : mcall) : jail_p → jm jail_p :=
  match c with
  | M_set_supplementary_gids l => minijail_set_supplementary_gids_p l
  | M_change_user name => minijail_change_user_p name
  | M_namespace_set_hostname name => minijail_namespace_set_hostname_p name
  | M_uidmap m => minijail_uidmap_p m
  | M_gidmap m => minijail_gidmap_p m
  | M_enter_chroot dir => minijail_enter_chroot_p dir
  | M_enter_pivot_root dir => minijail_enter_pivot_root_p dir
  | M_write_pid_file path => minijail_write_pid_file_p path
  | M_set_preload_path path => minijail_set_preload_path_p path
  | M_use_alt_syscall table => minijail_use_alt_syscall_p table
  | M_set_filename path => set_filename_p path
  | M_add_to_cgroup path => minijail_add_to_cgroup_p path
  | M_mount_with_data src dest type mf data => minijail_mount_with_data_p src dest type mf data
  | M_add_remount name mode => minijail_add_remount_p name mode
  | M_add_hook h p e => minijail_add_hook_p h p e
  | M_add_fs_restriction_path path fl => add_fs_restriction_path_p path fl
  | M_clear_seccomp_options => clear_seccomp_options_p
  | M_set_seccomp_filters prog => set_seccomp_filters_internal_p prog
  | M_set_seccomp_policy_path path => set_seccomp_policy_path_p path
  | M_preenter => minijail_preenter_p
  | M_preexec => minijail_preexec_p
  end.

Fixpoint mcalls_p (cs : list mcall) (j : jail_p) : jm jail_p :=
  match cs with
  | [] => mret j
  | c :: cs => j ← mcall_p c j; mcalls_p cs j
  end.

(** The life of a jail. *)
Definition jail_life (cs : list mcall) : jm unit :=
  j ← mcalls_p cs minijail_new_p; minijail_destroy_p j.
