(* ===== verification/JailMemProps.v ===== *)
(** * Ownership of the objects of struct minijail

    Whatever is called on a jail, its pointers own what they point to, with the values
    that [Jail] gives its members, and minijail_destroy() frees all of it.  What a
    setter loses when it is called twice is counted. *)

From AAC_tactics Require Import AAC.
From S2P Require Import Prelude CLib Util Bpf OS System Jail JailProps Heap JailMem.
Local Open Scope heap_scope.

Abbreviation assertion := (hprop object).

(** ** Assertions about several objects *)

(** One part for each key. *)
Fixpoint each {K} (P : K → assertion) (ks : list K) : assertion :=
  match ks with [] => emp | k :: ks => P k ∗ each P ks end.

Lemma each_ext {K} (P P' : K → assertion) ks :
  (∀ k, k ∈ ks → P k ≡h P' k) → each P ks ≡h each P' ks.
Proof.
  induction ks as [|k ks IH]; intros H; cbn; [done|].
  rewrite (H k) by (by left). rewrite IH; [done|]. intros k' Hk. apply H. by right.
Qed.

(** The parts but the one for [k]. *)
Definition but {K} `{EqDecision K} (k : K) (P : K → assertion) (k' : K) : assertion :=
  if decide (k' = k) then emp else P k'.

Lemma each_split {K} `{EqDecision K} (P : K → assertion) k ks :
  NoDup ks → k ∈ ks → each P ks ≡h P k ∗ each (but k P) ks.
Proof.
  induction 1 as [|k' ks Hk' Hnd IH]; intros Hk; [by apply elem_of_nil in Hk|].
  cbn [each]. unfold but at 1. destruct (decide (k' = k)) as [->|Hne].
  - rewrite (each_ext (but k P) P); [aac_reflexivity|]. intros k' Hin. unfold but.
    by destruct (decide (k' = k)) as [->|].
  - apply elem_of_cons in Hk as [->|Hk]; [done|]. rewrite (IH Hk). apply sep_left_comm.
Qed.

Lemma each_but {K} `{EqDecision K} (P P' : K → assertion) k ks :
  (∀ k', k' ≠ k → P k' ≡h P' k') → each (but k P) ks ≡h each (but k P') ks.
Proof. intros H. apply each_ext. intros k' _. unfold but. by destruct (decide (k' = k)); [|apply H]. Qed.

(** [n] objects that nothing points to any more. *)
Definition lost (n : nat) : assertion := λ h, size h = n.

Lemma lost_0 : lost 0 ≡h emp.
Proof. intros h. unfold lost, emp. split; [apply map_size_empty_inv|by intros ->]. Qed.

Lemma lost_pts l v h : (l ↦ v) h → lost 1 h.
Proof. intros ->. apply map_size_singleton. Qed.

Lemma lost_sep m n h : (lost m ∗ lost n) h → lost (m + n) h.
Proof. intros (h1 & h2 & -> & Hd & <- & <-). by apply map_size_disj_union. Qed.

(** A pointer and the value it leads to, or NULL and no value. *)
Definition opt_at {X} (P : loc → X → assertion) (p : option loc) (x : option X) : assertion :=
  match p, x with
  | Some l, Some x => P l x
  | None, None => emp
  | _, _ => λ _, False
  end.

Definition str_at (l : loc) (s : cstr) : assertion := l ↦ OStr s.
Definition gids_at (l : loc) (g : list Z) : assertion := l ↦ OGids g.
Definition prog_at (l : loc) (prog : list sock_filter) : assertion := λ h,
  ∃ i, (l ↦ OFprog (Some i) ∗ i ↦ OInstrs prog) h.

Fixpoint strs_at (ls : list loc) (ss : list cstr) : assertion :=
  match ls, ss with
  | [], [] => emp
  | l :: ls, s :: ss => str_at l s ∗ strs_at ls ss
  | _, _ => λ _, False
  end.

(** ** The values *)

Inductive item :=
  | IMount (m : mountpoint)
  | IRemount (r : remount)
  | IRule (r : fs_rule)
  | IHook (h : hook).

Definition nval_at (v : nval) (x : item) : assertion :=
  match v, x with
  | NMount (Some s) (Some d) (Some t) da mf, IMount m => λ h,
      mf = m.(m_flags) ∧
      (str_at s m.(m_src) ∗ str_at d m.(m_dest) ∗ str_at t m.(m_type) ∗ opt_at str_at da m.(m_data)) h
  | NRemount (Some n) mode, IRemount r => λ h,
      mode = r.(remount_remount_mode) ∧ str_at n r.(remount_mount_name) h
  | NRule (Some p) fl, IRule r => λ h, fl = r.(fr_landlock_flags) ∧ str_at p r.(fr_path) h
  | NHook k, IHook k' => hpure (k = k')
  | _, _ => λ _, False
  end.

Definition item_at (l : loc) (x : item) (next : option loc) : assertion := λ h,
  ∃ v, (l ↦ ONode v next ∗ nval_at v x) h.

(** The list behind a head and a tail pointer. *)
Inductive queue_at : queue → list item → assertion :=
  | queue_nil h : h = ∅ → queue_at {| q_head := None; q_tail := None |} [] h
  | queue_snoc hd z xs x h :
      (lseg item_at (Some hd) (Some z) xs ∗ item_at z x None) h →
      queue_at {| q_head := Some hd; q_tail := Some z |} (xs ++ [x]) h.

(** The members of a jail that are reached through pointers. *)
Record view := {
  v_str : sfield → option cstr;
  v_queue : qfield → list item;
  v_gids : option (list Z);
  v_prog : option (list sock_filter);
  v_cgroups : list cstr;
}.

#[export] Instance eta_view : Eta view := λ v,
  {| v_str := v.(v_str); v_queue := v.(v_queue); v_gids := v.(v_gids); v_prog := v.(v_prog);
     v_cgroups := v.(v_cgroups) |}.

Definition all_sfields : list sfield :=
  [S_user; S_chrootdir; S_pid_file_path; S_uidmap; S_gidmap; S_hostname; S_preload_path; S_filename;
   S_alt_syscall_table; S_seccomp_policy_path].
Definition all_qfields : list qfield := [Q_mounts; Q_remounts; Q_fs_rules; Q_hooks].

Definition str_part (j : jail_p) (v : view) (f : sfield) : assertion := opt_at str_at (j.(p_str) f) (v.(v_str) f).
Definition queue_part (j : jail_p) (v : view) (f : qfield) : assertion := queue_at (j.(p_queue) f) (v.(v_queue) f).

Definition jail_at (j : jail_p) (v : view) : assertion :=
  each (str_part j v) all_sfields ∗ each (queue_part j v) all_qfields ∗
  opt_at gids_at j.(p_suppl_gid_list) v.(v_gids) ∗
  opt_at prog_at j.(p_filter_prog) v.(v_prog) ∗
  strs_at j.(p_cgroups) v.(v_cgroups).

(** ** Taking one member out *)

Definition vset_str (f : sfield) (x : option cstr) (v : view) : view :=
  v <| v_str := λ g, if decide (g = f) then x else v.(v_str) g |>.
Definition vset_queue (f : qfield) (xs : list item) (v : view) : view :=
  v <| v_queue := λ g, if decide (g = f) then xs else v.(v_queue) g |>.

(** The jail without the member [f]. *)
Definition without_str (f : sfield) (j : jail_p) (v : view) : assertion :=
  each (but f (str_part j v)) all_sfields ∗ each (queue_part j v) all_qfields ∗
  opt_at gids_at j.(p_suppl_gid_list) v.(v_gids) ∗
  opt_at prog_at j.(p_filter_prog) v.(v_prog) ∗
  strs_at j.(p_cgroups) v.(v_cgroups).
Definition without_queue (f : qfield) (j : jail_p) (v : view) : assertion :=
  each (str_part j v) all_sfields ∗ each (but f (queue_part j v)) all_qfields ∗
  opt_at gids_at j.(p_suppl_gid_list) v.(v_gids) ∗
  opt_at prog_at j.(p_filter_prog) v.(v_prog) ∗
  strs_at j.(p_cgroups) v.(v_cgroups).

Lemma all_sfields_spec f : NoDup all_sfields ∧ f ∈ all_sfields.
Proof. split; [|destruct f]; compute_done. Qed.
Lemma all_qfields_spec f : NoDup all_qfields ∧ f ∈ all_qfields.
Proof. split; [|destruct f]; compute_done. Qed.

Lemma set_str_eq f p j : (set_str f p j).(p_str) f = p.
Proof. exact (decide_True _ _ eq_refl). Qed.
Lemma set_str_ne f g p j : g ≠ f → (set_str f p j).(p_str) g = j.(p_str) g.
Proof. exact (decide_False _ _). Qed.
Lemma vset_str_eq f x v : (vset_str f x v).(v_str) f = x.
Proof. exact (decide_True _ _ eq_refl). Qed.
Lemma vset_str_ne f g x v : g ≠ f → (vset_str f x v).(v_str) g = v.(v_str) g.
Proof. exact (decide_False _ _). Qed.
Lemma set_queue_eq f p j : (set_queue f p j).(p_queue) f = p.
Proof. exact (decide_True _ _ eq_refl). Qed.
Lemma set_queue_ne f g p j : g ≠ f → (set_queue f p j).(p_queue) g = j.(p_queue) g.
Proof. exact (decide_False _ _). Qed.
Lemma vset_queue_eq f x v : (vset_queue f x v).(v_queue) f = x.
Proof. exact (decide_True _ _ eq_refl). Qed.
Lemma vset_queue_ne f g x v : g ≠ f → (vset_queue f x v).(v_queue) g = v.(v_queue) g.
Proof. exact (decide_False _ _). Qed.

Lemma jail_take_str f j v : jail_at j v ≡h opt_at str_at (j.(p_str) f) (v.(v_str) f) ∗ without_str f j v.
Proof.
  destruct (all_sfields_spec f) as [Hnd Hf]. unfold jail_at, without_str.
  rewrite (each_split (str_part j v) f) by done. unfold str_part at 1. aac_reflexivity.
Qed.

Lemma jail_put_str f p x j v :
  jail_at (set_str f p j) (vset_str f x v) ≡h opt_at str_at p x ∗ without_str f j v.
Proof.
  rewrite (jail_take_str f), set_str_eq, vset_str_eq.
  unfold without_str. rewrite (each_but _ (str_part j v)); [done|].
  intros g Hg. unfold str_part. by rewrite set_str_ne, vset_str_ne.
Qed.

Lemma without_str_set f p j v : without_str f (set_str f p j) v ≡h without_str f j v.
Proof.
  unfold without_str. rewrite (each_but (str_part (set_str f p j) v) (str_part j v)); [done|].
  intros g Hg. unfold str_part. by rewrite set_str_ne.
Qed.

Lemma jail_take_queue f j v : jail_at j v ≡h queue_at (j.(p_queue) f) (v.(v_queue) f) ∗ without_queue f j v.
Proof.
  destruct (all_qfields_spec f) as [Hnd Hf]. unfold jail_at, without_queue.
  rewrite (each_split (queue_part j v) f) by done. unfold queue_part at 1. aac_reflexivity.
Qed.

Lemma jail_put_queue f q xs j v :
  jail_at (set_queue f q j) (vset_queue f xs v) ≡h queue_at q xs ∗ without_queue f j v.
Proof.
  rewrite (jail_take_queue f), set_queue_eq, vset_queue_eq.
  unfold without_queue. rewrite (each_but _ (queue_part j v)); [done|].
  intros g Hg. unfold queue_part. by rewrite set_queue_ne, vset_queue_ne.
Qed.

Definition without_gids (j : jail_p) (v : view) : assertion :=
  each (str_part j v) all_sfields ∗ each (queue_part j v) all_qfields ∗
  opt_at prog_at j.(p_filter_prog) v.(v_prog) ∗ strs_at j.(p_cgroups) v.(v_cgroups).
Definition without_prog (j : jail_p) (v : view) : assertion :=
  each (str_part j v) all_sfields ∗ each (queue_part j v) all_qfields ∗
  opt_at gids_at j.(p_suppl_gid_list) v.(v_gids) ∗ strs_at j.(p_cgroups) v.(v_cgroups).
Definition without_cgroups (j : jail_p) (v : view) : assertion :=
  each (str_part j v) all_sfields ∗ each (queue_part j v) all_qfields ∗
  opt_at gids_at j.(p_suppl_gid_list) v.(v_gids) ∗ opt_at prog_at j.(p_filter_prog) v.(v_prog).

Lemma jail_take_gids j v : jail_at j v ≡h opt_at gids_at j.(p_suppl_gid_list) v.(v_gids) ∗ without_gids j v.
Proof. unfold jail_at, without_gids. aac_reflexivity. Qed.
Lemma jail_put_gids p g j v :
  jail_at (j <| p_suppl_gid_list := p |>) (v <| v_gids := g |>) ≡h opt_at gids_at p g ∗ without_gids j v.
Proof. etrans; [apply jail_take_gids|]. reflexivity. Qed.

Lemma jail_take_prog j v : jail_at j v ≡h opt_at prog_at j.(p_filter_prog) v.(v_prog) ∗ without_prog j v.
Proof. unfold jail_at, without_prog. aac_reflexivity. Qed.
Lemma jail_put_prog p g j v :
  jail_at (j <| p_filter_prog := p |>) (v <| v_prog := g |>) ≡h opt_at prog_at p g ∗ without_prog j v.
Proof. etrans; [apply jail_take_prog|]. reflexivity. Qed.

Lemma jail_take_cgroups j v : jail_at j v ≡h strs_at j.(p_cgroups) v.(v_cgroups) ∗ without_cgroups j v.
Proof. unfold jail_at, without_cgroups. aac_reflexivity. Qed.
Lemma jail_put_cgroups p g j v :
  jail_at (j <| p_cgroups := p |>) (v <| v_cgroups := g |>) ≡h strs_at p g ∗ without_cgroups j v.
Proof. etrans; [apply jail_take_cgroups|]. reflexivity. Qed.

Lemma strs_app ls ss l s : strs_at (ls ++ [l]) (ss ++ [s]) ≡h str_at l s ∗ strs_at ls ss.
Proof.
  revert ss. induction ls as [|l' ls IH]; intros [|s' ss]; cbn.
  - done.
  - destruct ss; cbn; intros h; split; try (by intros (h1 & h2 & _ & _ & _ & [])).
  - destruct ls; cbn; intros h; split; try (by intros (h1 & h2 & _ & _ & _ & [])).
  - rewrite IH. apply sep_left_comm.
Qed.

(** ** What the calls do to the values, and what they lose *)

Definition count {X} (n : nat) (x : option X) : nat := match x with Some _ => n | None => 0 end.

Definition vset_once (f : sfield) (s : cstr) (v : view) : view :=
  match v.(v_str) f with Some _ => v | None => vset_str f (Some s) v end.

Definition vpush (f : qfield) (x : item) (v : view) : view := vset_queue f (v.(v_queue) f ++ [x]) v.

Definition absolute (path : cstr) : bool := bool_decide (head path = Some "/"%char).

Definition after (c : mcall) (v : view) : view :=
  match c with
  | M_set_supplementary_gids l => v <| v_gids := if bool_decide (l = []) then None else Some l |>
  | M_change_user name => vset_str S_user (Some name) v
  | M_namespace_set_hostname name => vset_once S_hostname name v
  | M_uidmap m => vset_str S_uidmap (Some (comma_to_newline <$> m)) v
  | M_gidmap m => vset_str S_gidmap (Some (comma_to_newline <$> m)) v
  | M_enter_chroot dir | M_enter_pivot_root dir => vset_once S_chrootdir dir v
  | M_write_pid_file path => vset_str S_pid_file_path (Some path) v
  | M_set_preload_path path => vset_once S_preload_path path v
  | M_use_alt_syscall table => vset_str S_alt_syscall_table (Some table) v
  | M_set_filename path => vset_str S_filename (Some path) v
  | M_add_to_cgroup path =>
      if (MAX_CGROUPS <=? length v.(v_cgroups))%nat then v else v <| v_cgroups := v.(v_cgroups) ++ [path] |>
  | M_mount_with_data src dest type mf data =>
      if negb (absolute dest) then v
      else vpush Q_mounts (IMount {| m_src := src; m_dest := dest; m_type := type; m_data := mount_data type data;
                                     m_flags := if (mf =? 0)%Z then default_mount_flags else mf |}) v
  | M_add_remount name mode =>
      if negb (absolute name) then v
      else vpush Q_remounts (IRemount {| remount_mount_name := name; remount_remount_mode := mode |}) v
  | M_add_hook h p e =>
      if (MINIJAIL_HOOK_EVENT_MAX <=? e)%Z then v
      else vpush Q_hooks (IHook {| h_hook := h; h_payload := p; h_event := e |}) v
  | M_add_fs_restriction_path path fl =>
      vpush Q_fs_rules (IRule {| fr_path := path; fr_landlock_flags := fl |}) v
  | M_clear_seccomp_options => vset_str S_seccomp_policy_path None (v <| v_prog := None |>)
  | M_set_seccomp_filters prog => v <| v_prog := Some prog |>
  | M_set_seccomp_policy_path path => vset_str S_seccomp_policy_path path v
  | M_preenter => vset_queue Q_remounts [] v
  | M_preexec =>
      vset_queue Q_fs_rules [] (vset_queue Q_mounts []
        (vset_str S_preload_path None (vset_str S_user None v <| v_gids := None |>)))
  end.

(** The objects whose last pointer a call overwrites. *)
Definition lost_by (c : mcall) (v : view) : nat :=
  match c with
  | M_set_supplementary_gids _ => count 1 v.(v_gids)
  | M_change_user _ => count 1 (v.(v_str) S_user)
  | M_uidmap _ => count 1 (v.(v_str) S_uidmap)
  | M_gidmap _ => count 1 (v.(v_str) S_gidmap)
  | M_write_pid_file _ => count 1 (v.(v_str) S_pid_file_path)
  | M_use_alt_syscall _ => count 1 (v.(v_str) S_alt_syscall_table)
  | M_set_filename _ => count 1 (v.(v_str) S_filename)
  | M_clear_seccomp_options => count 2 v.(v_prog)
  | _ => 0
  end.

Definition no_view : view :=
  {| v_str := λ _, None; v_queue := λ _, []; v_gids := None; v_prog := None; v_cgroups := [] |}.

Fixpoint afters (cs : list mcall) (v : view) : view :=
  match cs with [] => v | c :: cs => afters cs (after c v) end.

Fixpoint lost_in (cs : list mcall) (v : view) : nat :=
  match cs with
  | [] => 0
  | c :: cs => lost_by c v + lost_in cs (after c v)
  end.

(** ** Steps *)

Section Steps.
Context {A C : Type} (o : outcome C) (Q : A → C → assertion).
Implicit Types (R : assertion) (j : jail_p) (v : view).

Lemma sim_opt {X} (P : loc → X → assertion) R p x (m : jm A) :
  (p = None → x = None → sim R m o Q) →
  (∀ l y, p = Some l → x = Some y → sim (P l y ∗ R) m o Q) →
  sim (opt_at P p x ∗ R) m o Q.
Proof.
  intros HN HS. destruct p as [l|], x as [y|]; cbn.
  - by apply HS.
  - by intros h hf (h1 & h2 & _ & _ & [] & _).
  - by intros h hf (h1 & h2 & _ & _ & [] & _).
  - rewrite sep_comm, sep_emp. by apply HN.
Qed.

Lemma lost_opt {X} (P : loc → X → assertion) c p x n :
  (∀ l y h, P l y h → lost c h) → ∀ h, (opt_at P p x ∗ lost n) h → lost (count c x + n) h.
Proof.
  intros HP h H. apply lost_sep. revert h H. apply sep_mono_l. intros h.
  destruct p as [l|], x as [y|]; try done; cbn; [apply HP|]. by apply lost_0.
Qed.

Lemma sim_free_str R p x (f : unit → jm A) :
  sim R (f tt) o Q → sim (opt_at str_at p x ∗ R) (free_opt p ≫= f) o Q.
Proof.
  intros H. apply sim_opt; [intros -> ->|intros l s -> ->]; cbn; [by sim_steps|].
  unfold str_at. by sim_steps.
Qed.

Lemma sim_free_gids R p x (f : unit → jm A) :
  sim R (f tt) o Q → sim (opt_at gids_at p x ∗ R) (free_opt p ≫= f) o Q.
Proof.
  intros H. apply sim_opt; [intros -> ->|intros l s -> ->]; cbn; [by sim_steps|].
  unfold gids_at. by sim_steps.
Qed.

Lemma sim_free_fprog R p x (f : unit → jm A) :
  sim R (f tt) o Q → sim (opt_at prog_at p x ∗ R) (free_fprog p ≫= f) o Q.
Proof.
  intros H. apply sim_opt; [intros -> ->|intros l s -> ->]; cbn; [by sim_steps|].
  apply (sim_ex (λ i, l ↦ OFprog (Some i) ∗ i ↦ OInstrs s)). intros i. sim_steps. cbn [free_opt]. sim_steps.
  revert H. apply sim_pre. aac_reflexivity.
Qed.

Lemma sim_free_nval R x w (f : unit → jm A) :
  sim R (f tt) o Q → sim (nval_at w x ∗ R) (free_each (owned_by w) ≫= f) o Q.
Proof.
  intros H. destruct w as [[s|] [d|] [t|] da mf|[n|] mode|[p|] fl|k], x as [m|r|r|k'];
    try (by intros h hf (h1 & h2 & _ & _ & [] & _)); cbn [nval_at owned_by free_each].
  - apply sim_and. intros ->. unfold str_at at 1 2 3. sim_step.
    sim_front (opt_at str_at da (m_data m)). apply sim_free_str. cbn [free_opt]. sim_steps.
    revert H. apply sim_pre. aac_reflexivity.
  - apply sim_and. intros ->. unfold str_at. cbn [free_opt]. by sim_steps.
  - apply sim_and. intros ->. unfold str_at. cbn [free_opt]. by sim_steps.
  - sim_steps. revert H. apply sim_weaken. intros h (h1 & h2 & -> & _ & [_ ->] & HR).
    by rewrite map_empty_union.
Qed.

Lemma item_object l x next h : item_at l x next h → is_Some (h !! l).
Proof.
  intros (w & h1 & h2 & -> & _ & -> & _). exists (ONode w next).
  by apply lookup_union_Some_l, lookup_singleton_eq.
Qed.

Lemma sim_free_nodes R n p xs (f : unit → jm A) :
  length xs ≤ n → sim R (f tt) o Q →
  sim (lseg item_at p None xs ∗ R) (free_nodes n p ≫= f) o Q.
Proof.
  revert p n. induction xs as [|x xs IH]; intros p n Hn H; cbn [lseg].
  - intros h hf (h1 & h2 & -> & _ & [-> ->] & HR) Hd. rewrite map_empty_union in *.
    destruct n; by apply H.
  - apply (sim_ex (λ l h, ∃ next, p = Some l ∧ (item_at l x next ∗ lseg item_at next None xs) h)). intros l.
    apply (sim_ex (λ next h, p = Some l ∧ (item_at l x next ∗ lseg item_at next None xs) h)). intros next.
    apply sim_and. intros ->. destruct n as [|n]; [cbn in Hn; lia|]. cbn [free_nodes].
    rewrite sep_assoc. unfold item_at at 1.
    apply (sim_ex (λ w, l ↦ ONode w next ∗ nval_at w x)). intros w. sim_steps.
    sim_front (nval_at w x). apply sim_free_nval. sim_steps.
    apply (sim_pre (lseg item_at next None xs ∗ R)); [aac_reflexivity|].
    apply IH; [cbn in Hn; lia|done].
Qed.

Lemma queue_lseg q xs h : queue_at q xs h → lseg item_at q.(q_head) None xs h.
Proof.
  intros [h' ->|hd z xs' x h' H]; [done|]. apply (lseg_app _ _ (Some z)). revert h' H.
  apply sep_mono_r, lseg_one.
Qed.

Lemma sim_free_queue R j f xs (k : jail_p → jm A) :
  sim R (k (set_queue f {| q_head := None; q_tail := None |} j)) o Q →
  sim (queue_at (j.(p_queue) f) xs ∗ R) (free_list_p f j ≫= k) o Q.
Proof.
  intros H. unfold free_list_p. sim_step.
  assert (∀ n, length xs ≤ n → sim (queue_at (p_queue j f) xs ∗ R)
      (free_nodes n (q_head (p_queue j f)) ≫= λ _, mret (set_queue f {| q_head := None; q_tail := None |} j) ≫= k)
      o Q) as Hn.
  { intros n Hn. eapply sim_weaken; [apply sep_mono_l, queue_lseg|]. apply sim_free_nodes; [done|]. by sim_steps. }
  intros h hf HP Hd.
  assert (length xs ≤ size (h ∪ hf)) as Hl.
  { destruct HP as (h1 & h2 & -> & Hd12 & HQ%queue_lseg & _). rewrite <- (assoc_L (∪)).
    apply map_disjoint_union_l in Hd as [Hd1 Hd2].
    eapply lseg_fuel; [apply item_object|done|]. by apply map_disjoint_union_r_2. }
  exact (Hn _ Hl h hf HP Hd).
Qed.

Lemma sim_free_list_p R j v f (k : jail_p → jm A) :
  (∀ j', j' = set_queue f {| q_head := None; q_tail := None |} j →
     sim (jail_at j' (vset_queue f [] v) ∗ R) (k j') o Q) →
  sim (jail_at j v ∗ R) (free_list_p f j ≫= k) o Q.
Proof.
  intros H. specialize (H _ eq_refl). rewrite jail_put_queue, sep_assoc in H.
  rewrite (jail_take_queue f), sep_assoc. apply sim_free_queue. revert H. apply sim_weaken.
  intros h Hh. exists ∅, h.
  split_and!; [by rewrite map_empty_union|apply map_disjoint_empty_l|by apply queue_nil|done].
Qed.

Lemma sim_queue R q xs (m : jm A) :
  (q = {| q_head := None; q_tail := None |} → xs = [] → sim R m o Q) →
  (∀ hd z ys y w, q = {| q_head := Some hd; q_tail := Some z |} → xs = ys ++ [y] →
     sim (lseg item_at (Some hd) (Some z) ys ∗ z ↦ ONode w None ∗ nval_at w y ∗ R) m o Q) →
  sim (queue_at q xs ∗ R) m o Q.
Proof.
  intros H0 H1 h hf (h1 & h2 & -> & Hd12 & HQ & HR) Hd.
  destruct HQ as [h' ->|hd z ys y h' (ha & hb & -> & Hdab & Ha & (w & Hw))].
  - rewrite map_empty_union in *. by apply (H0 eq_refl eq_refl).
  - apply (H1 hd z ys y w eq_refl eq_refl); [|done].
    apply map_disjoint_union_l in Hd12 as [Hda Hdb]. exists ha, (hb ∪ h2).
    split_and!; [by rewrite (assoc_L (∪))|by apply map_disjoint_union_r_2|done|].
    apply sep_assoc. by exists hb, h2.
Qed.

Lemma sim_add_node R j v f m w x (k : jail_p → jm A) :
  (∀ j', sim (jail_at j' (vpush f x v) ∗ R) (k j') o Q) →
  sim (jail_at j v ∗ m ↦ ONode w None ∗ nval_at w x ∗ R) (add_node f m j ≫= k) o Q.
Proof.
  intros H. rewrite (jail_take_queue f), sep_assoc. unfold add_node, queue_append.
  apply sim_queue; [intros Hq Hx|intros hd z ys y w' Hq Hx]; rewrite Hq; cbn [q_tail q_head]; sim_steps.
  - specialize (H (set_queue f {| q_head := Some m; q_tail := Some m |} j)).
    unfold vpush in H. rewrite jail_put_queue, Hx, sep_assoc in H.
    apply (sim_pre ((m ↦ ONode w None ∗ nval_at w x) ∗ without_queue f j v ∗ R)); [aac_reflexivity|].
    revert H. apply sim_weaken, sep_mono_l. intros h Hh. apply (queue_snoc m m []). exists ∅, h.
    split_and!; [by rewrite map_empty_union|apply map_disjoint_empty_l|done|by exists w].
  - specialize (H (set_queue f {| q_head := Some hd; q_tail := Some m |} j)).
    unfold vpush in H. rewrite jail_put_queue, Hx, sep_assoc in H.
    apply (sim_pre (((lseg item_at (Some hd) (Some z) ys ∗ z ↦ ONode w' (Some m) ∗ nval_at w' y) ∗
                     m ↦ ONode w None ∗ nval_at w x) ∗ without_queue f j v ∗ R)); [cbn; aac_reflexivity|].
    revert H. apply sim_weaken, sep_mono_l. intros h (h1 & h2 & -> & Hd & H1 & H2).
    apply queue_snoc. exists h1, h2. split_and!; [done|done| |by exists w].
    apply (lseg_app _ _ (Some z)). revert h1 Hd H1. intros h1 _. revert h1. apply sep_mono_r.
    intros h1 H1. apply lseg_one. by exists w'.
Qed.

Lemma sim_assign R j v n f s (k : jail_p → jm A) :
  (∀ j', sim (jail_at j' (vset_str f (Some s) v) ∗ lost (count 1 (v.(v_str) f) + n) ∗ R) (k j') o Q) →
  sim (jail_at j v ∗ lost n ∗ R) (assign_str f s j ≫= k) o Q.
Proof.
  intros H. unfold assign_str, strdup. sim_steps. specialize (H (set_str f (Some l) j)).
  rewrite jail_put_str in H. rewrite (jail_take_str f).
  apply (sim_pre ((opt_at str_at (p_str j f) (v_str v f) ∗ lost n) ∗
                  (opt_at str_at (Some l) (Some s) ∗ without_str f j v) ∗ R)); [cbn; unfold str_at; aac_reflexivity|].
  rewrite sep_left_comm in H. revert H. apply sim_weaken, sep_mono_l. apply lost_opt. intros l' x h. apply lost_pts.
Qed.
Lemma strs_length ls ss h : strs_at ls ss h → length ls = length ss.
Proof.
  revert ss h. induction ls as [|l ls IH]; intros [|s ss] h; cbn; try done.
  intros (h1 & h2 & _ & _ & _ & H%IH). by f_equal.
Qed.

Lemma sim_cgroups_length R j v (m : jm A) :
  (length j.(p_cgroups) = length v.(v_cgroups) → sim (jail_at j v ∗ R) m o Q) → sim (jail_at j v ∗ R) m o Q.
Proof.
  intros H h hf HP Hd. apply H; [|done|done].
  destruct HP as (h1 & h2 & _ & _ & H1%jail_take_cgroups & _).
  destruct H1 as (h3 & h4 & _ & _ & H3%strs_length & _). done.
Qed.

Lemma sim_assign_once R j v f s (k : jail_p → jm A) :
  (∀ j', sim (jail_at j' (vset_once f s v) ∗ R) (k j') o Q) →
  sim (jail_at j v ∗ R) (assign_once f s j ≫= k) o Q.
Proof.
  intros H. unfold assign_once, vset_once in *.
  assert (p_str j f = None → v_str v f = None → sim (jail_at j v ∗ R) (assign_str f s j ≫= k) o Q) as HN.
  { intros Ep Ev. rewrite Ev in H. unfold assign_str, strdup. sim_steps.
    specialize (H (set_str f (Some l) j)). rewrite jail_put_str in H. rewrite (jail_take_str f), Ep, Ev.
    revert H. apply sim_pre. cbn. unfold str_at. aac_reflexivity. }
  destruct (p_str j f) as [l|] eqn:Ep, (v_str v f) as [x|] eqn:Ev.
  1: by sim_steps.
  3: by apply HN.
  all: rewrite (jail_take_str f), Ep, Ev; cbn;
    by intros h hf (h1 & h2 & _ & _ & (h3 & h4 & _ & _ & [] & _) & _).
Qed.

Lemma sim_free_member R j v f (k : jail_p → jm A) :
  (∀ j', j' = set_str f None j → sim (jail_at j' (vset_str f None v) ∗ R) (k j') o Q) →
  sim (jail_at j v ∗ R) (free_str f j ≫= k) o Q.
Proof.
  intros H. specialize (H _ eq_refl). rewrite jail_put_str in H. rewrite (jail_take_str f), sep_assoc.
  unfold free_str. sim_step. apply sim_free_str. sim_steps. revert H. apply sim_pre. cbn. aac_reflexivity.
Qed.

Lemma sim_free_gids_member R j v (k : unit → jm A) :
  (sim (jail_at (j <| p_suppl_gid_list := None |>) (v <| v_gids := None |>) ∗ R) (k tt) o Q) →
  sim (jail_at j v ∗ R) (free_opt j.(p_suppl_gid_list) ≫= k) o Q.
Proof.
  intros H. rewrite jail_put_gids in H. rewrite jail_take_gids, sep_assoc.
  apply sim_free_gids. revert H. apply sim_pre. cbn. aac_reflexivity.
Qed.
Lemma sim_set_gids R j v n l (k : jail_p → jm A) :
  (∀ j', sim (jail_at j' (after (M_set_supplementary_gids l) v) ∗
              lost (lost_by (M_set_supplementary_gids l) v + n) ∗ R) (k j') o Q) →
  sim (jail_at j v ∗ lost n ∗ R) (minijail_set_supplementary_gids_p l j ≫= k) o Q.
Proof.
  intros H. cbn [after lost_by] in H. unfold minijail_set_supplementary_gids_p.
  rewrite jail_take_gids.
  assert (∀ p, sim ((opt_at gids_at p (if bool_decide (l = []) then None else Some l) ∗ without_gids j v) ∗
    (opt_at gids_at (p_suppl_gid_list j) (v_gids v) ∗ lost n) ∗ R) (k (j <| p_suppl_gid_list := p |>)) o Q) as Hp.
  { intros p. specialize (H (j <| p_suppl_gid_list := p |>)). rewrite jail_put_gids in H. revert H.
    apply sim_weaken, sep_mono_r, sep_mono_l, lost_opt. intros l' x h. apply lost_pts. }
  destruct (bool_decide (l = [])); sim_steps; (eapply sim_pre; [|apply Hp]); cbn; unfold gids_at; aac_reflexivity.
Qed.

Lemma sim_set_prog R j v prog (k : jail_p → jm A) :
  (∀ j', sim (jail_at j' (v <| v_prog := Some prog |>) ∗ R) (k j') o Q) →
  sim (jail_at j v ∗ R) (set_seccomp_filters_internal_p prog j ≫= k) o Q.
Proof.
  intros H. unfold set_seccomp_filters_internal_p. sim_steps. rewrite jail_take_prog.
  sim_front (opt_at prog_at (p_filter_prog j) (v_prog v)). apply sim_free_fprog. sim_steps.
  specialize (H (j <| p_filter_prog := Some l |>)). rewrite jail_put_prog in H. cbn [opt_at] in H.
  apply (sim_pre (((l ↦ OFprog (Some l0) ∗ l0 ↦ OInstrs prog) ∗ without_prog j v) ∗ R)); [aac_reflexivity|].
  revert H. apply sim_weaken, sep_mono_l, sep_mono_l. intros h Hh. by exists l0.
Qed.

Lemma sim_add_cgroup R j v path (k : jail_p → jm A) :
  (∀ j', sim (jail_at j' (after (M_add_to_cgroup path) v) ∗ R) (k j') o Q) →
  sim (jail_at j v ∗ R) (minijail_add_to_cgroup_p path j ≫= k) o Q.
Proof.
  intros H. apply sim_cgroups_length. intros E. unfold minijail_add_to_cgroup_p, strdup. cbn [after] in H.
  rewrite E. case_match; sim_steps; [apply H|].
  specialize (H (j <| p_cgroups := p_cgroups j ++ [l] |>)). rewrite jail_put_cgroups, strs_app in H.
  rewrite jail_take_cgroups. revert H. apply sim_pre. unfold str_at. aac_reflexivity.
Qed.
Lemma sim_strdup_opt R s (k : option loc → jm A) :
  (∀ p, sim (opt_at str_at p s ∗ R) (k p) o Q) → sim R (strdup_opt s ≫= k) o Q.
Proof.
  intros H. unfold strdup_opt, strdup. destruct s as [s|]; sim_steps.
  - exact (H (Some l)).
  - specialize (H None). revert H. apply sim_pre. cbn. aac_reflexivity.
Qed.

Lemma sim_new_node (own : assertion) R j v f l w x (k : jail_p → jm A) :
  (∀ h, own h → nval_at w x h) →
  (∀ j', sim (jail_at j' (vpush f x v) ∗ R) (k j') o Q) →
  sim (l ↦ ONode w None ∗ own ∗ jail_at j v ∗ R) (add_node f l j ≫= k) o Q.
Proof.
  intros Hw H. apply (sim_pre (jail_at j v ∗ l ↦ ONode w None ∗ own ∗ R)); [aac_reflexivity|].
  eapply sim_weaken; [apply sep_mono_r, sep_mono_r, sep_mono_l, Hw|]. by apply sim_add_node.
Qed.

Lemma sim_mount R j v src dest type mf data (k : jail_p → jm A) :
  (∀ j', sim (jail_at j' (after (M_mount_with_data src dest type mf data) v) ∗ R) (k j') o Q) →
  sim (jail_at j v ∗ R) (minijail_mount_with_data_p src dest type mf data j ≫= k) o Q.
Proof.
  intros H. unfold minijail_mount_with_data_p, strdup. cbn [after] in H. fold (absolute dest).
  destruct (negb (absolute dest)); sim_steps; [apply H|].
  apply sim_strdup_opt. intros p. sim_steps.
  set (w := NMount (Some l1) (Some l0) (Some l2) p _).
  set (m := {| m_src := src |}) in H.
  apply (sim_pre (l ↦ ONode w None ∗
    (l1 ↦ OStr src ∗ l0 ↦ OStr dest ∗ l2 ↦ OStr type ∗ opt_at str_at p (mount_data type data)) ∗
    jail_at j v ∗ R)); [aac_reflexivity|].
  eapply sim_new_node; [|apply H]. by intros h.
Qed.

Lemma lost_prog l prog h : prog_at l prog h → lost 2 h.
Proof. intros (i & h1 & h2 & -> & Hd & H1%lost_pts & H2%lost_pts). apply (lost_sep 1 1). by exists h1, h2. Qed.

Lemma sim_mcall R j v n c (k : jail_p → jm A) :
  (∀ j', sim (jail_at j' (after c v) ∗ lost (lost_by c v + n) ∗ R) (k j') o Q) →
  sim (jail_at j v ∗ lost n ∗ R) (mcall_p c j ≫= k) o Q.
Proof.
  intros H. destruct c; cbn [mcall_p].
  - by apply sim_set_gids.
  - by apply sim_assign.
  - by apply sim_assign_once.
  - by apply sim_assign.
  - by apply sim_assign.
  - by apply sim_assign_once.
  - by apply sim_assign_once.
  - by apply sim_assign.
  - by apply sim_assign_once.
  - by apply sim_assign.
  - by apply sim_assign.
  - by apply sim_add_cgroup.
  - by apply sim_mount.
  - unfold minijail_add_remount_p, strdup. cbn [after] in H. fold (absolute name).
    destruct (negb (absolute name)); sim_steps; [apply H|].
    apply (sim_pre (l ↦ ONode (NRemount (Some l0) mode) None ∗ l0 ↦ OStr name ∗ jail_at j v ∗ lost n ∗ R));
      [aac_reflexivity|]. eapply sim_new_node; [|apply H]. by intros h.
  - unfold minijail_add_hook_p. cbn [after] in H. case_match; sim_steps; [apply H|].
    set (x := {| h_hook := h |}).
    apply (sim_pre (l ↦ ONode (NHook x) None ∗ emp ∗ jail_at j v ∗ lost n ∗ R));
      [aac_reflexivity|]. eapply sim_new_node; [|apply H]. by intros h'.
  - unfold add_fs_restriction_path_p, strdup. cbn [after] in H. sim_steps.
    apply (sim_pre (l ↦ ONode (NRule (Some l0) landlock_flags) None ∗ l0 ↦ OStr path ∗ jail_at j v ∗ lost n ∗ R));
      [aac_reflexivity|]. eapply sim_new_node; [|apply H]. by intros h.
  - unfold clear_seccomp_options_p.
    apply (sim_pre (jail_at (j <| p_filter_prog := None |>) (v <| v_prog := None |>) ∗
                    (opt_at prog_at (p_filter_prog j) (v_prog v) ∗ lost n) ∗ R)).
    { rewrite jail_put_prog, jail_take_prog. cbn. aac_reflexivity. }
    apply sim_free_member. intros j' ->. eapply sim_weaken; [|apply H].
    apply sep_mono_r, sep_mono_l, lost_opt. apply lost_prog.
  - by apply sim_set_prog.
  - unfold set_seccomp_policy_path_p. sim_step. apply sim_free_member. intros j' ->. sim_step.
    apply sim_strdup_opt. intros p. sim_steps.
    eapply sim_pre; [|apply H]. cbn [after]. rewrite !jail_put_str, without_str_set. cbn. aac_reflexivity.
  - by apply sim_free_list_p.
  - unfold minijail_preexec_p, free_mounts_list_p, free_fs_rules_list_p. sim_step.
    apply sim_free_member. intros j' ->. sim_step. apply sim_free_gids_member.
    sim_steps. apply sim_free_member. intros j' ->. sim_step.
    apply sim_free_list_p. intros j' ->. apply sim_free_list_p. intros j' ->. apply H.
Qed.
Lemma sim_mcalls R cs j v n (k : jail_p → jm A) :
  (∀ j', sim (jail_at j' (afters cs v) ∗ lost (lost_in cs v + n) ∗ R) (k j') o Q) →
  sim (jail_at j v ∗ lost n ∗ R) (mcalls_p cs j ≫= k) o Q.
Proof.
  revert j v n. induction cs as [|c cs IH]; intros j v n H; cbn [mcalls_p lost_in] in *.
  - sim_steps. apply H.
  - sim_step. apply sim_mcall. intros j'. apply IH. intros j''.
    by replace (lost_in cs (after c v) + (lost_by c v + n)) with (lost_by c v + lost_in cs (after c v) + n) by lia.
Qed.

Lemma sim_free_strs R ls ss (k : unit → jm A) :
  sim R (k tt) o Q → sim (strs_at ls ss ∗ R) (free_each (Some <$> ls) ≫= k) o Q.
Proof.
  revert ss. induction ls as [|l ls IH]; intros [|s ss] H; cbn;
    try (by intros h hf (h1 & h2 & _ & _ & [] & _)).
  - sim_steps. revert H. apply sim_pre. aac_reflexivity.
  - unfold str_at. sim_steps.
    apply (sim_pre (strs_at ls ss ∗ R)); [aac_reflexivity|]. by apply IH.
Qed.

Ltac free_front_queue v :=
  lazymatch goal with
  | |- sim _ (free_list_p ?f ?j ≫= _) _ _ => apply (sim_free_queue _ j f (v_queue v f))
  end.

Lemma sim_destroy R j v (k : unit → jm A) :
  sim R (k tt) o Q → sim (jail_at j v ∗ R) (minijail_destroy_p j ≫= k) o Q.
Proof.
  intros H. unfold minijail_destroy_p, free_mounts_list_p, free_remounts_list_p, free_fs_rules_list_p.
  unfold jail_at. cbn [each all_sfields all_qfields free_each].
  sim_step. sim_front (opt_at prog_at (p_filter_prog j) (v_prog v)). apply sim_free_fprog. sim_step.
  sim_front (queue_part j v Q_mounts). free_front_queue v. sim_step.
  sim_front (queue_part j v Q_remounts). free_front_queue v. sim_step.
  sim_front (queue_part j v Q_hooks). free_front_queue v. sim_step.
  sim_front (queue_part j v Q_fs_rules). free_front_queue v. sim_step.
  set (j' := set_queue Q_fs_rules _ _).
  change (p_suppl_gid_list j') with (p_suppl_gid_list j). change (p_cgroups j') with (p_cgroups j).
  change (p_str j') with (p_str j).
  sim_front (str_part j v S_user). apply sim_free_str. sim_step.
  sim_front (opt_at gids_at (p_suppl_gid_list j) (v_gids v)). apply sim_free_gids. sim_steps.
  sim_front (str_part j v S_chrootdir). apply sim_free_str. sim_step.
  sim_front (str_part j v S_pid_file_path). apply sim_free_str. sim_step.
  sim_front (str_part j v S_uidmap). apply sim_free_str. sim_step.
  sim_front (str_part j v S_gidmap). apply sim_free_str. sim_step.
  sim_front (str_part j v S_hostname). apply sim_free_str. sim_step.
  sim_front (str_part j v S_preload_path). apply sim_free_str. sim_step.
  sim_front (str_part j v S_filename). apply sim_free_str. sim_step.
  sim_front (str_part j v S_alt_syscall_table). apply sim_free_str. sim_steps.
  sim_front (strs_at (p_cgroups j) (v_cgroups v)). apply sim_free_strs.
  sim_front (str_part j v S_seccomp_policy_path). apply sim_free_str.
  revert H. apply sim_pre. aac_reflexivity.
Qed.
End Steps.

Lemma queue_part_new f : queue_part minijail_new_p no_view f ≡h emp.
Proof. intros h. split; [|by intros ->; apply queue_nil]. intros H. by inversion H. Qed.

Lemma jail_at_new : jail_at minijail_new_p no_view ≡h emp.
Proof.
  unfold jail_at. cbn [each all_sfields all_qfields]. rewrite !queue_part_new.
  change (str_part minijail_new_p no_view) with (λ _ : sfield, @emp object). cbn. aac_reflexivity.
Qed.

Lemma new_jail : emp ≡h jail_at minijail_new_p no_view ∗ lost 0 ∗ emp.
Proof. rewrite lost_0, jail_at_new. aac_reflexivity. Qed.

(** C12: The jail's memory, over its life: after any sequence of calls minijail_destroy()
    frees every object the jail still owns, each exactly once, and nothing else: memory is
    what it was before minijail_new(), next to the objects that were lost, whose number
    is given by the calls that overwrite a pointer; no access is outside an object. *)
Theorem jail_life_frees cs h :
  ∃ hl, jail_life cs h = Ret (tt, hl ∪ h) ∧ hl ##ₘ h ∧ size hl = lost_in cs no_view.
Proof.
  assert (sim emp (jail_life cs) (Ret tt) (λ _ _, lost (lost_in cs no_view))) as H.
  { unfold jail_life. rewrite new_jail. apply sim_mcalls. intros j. rewrite Nat.add_0_r. apply sim_tail.
    apply (sim_destroy _ _ (lost (lost_in cs no_view) ∗ emp)). apply sim_ret. intros h' Hh.
    by apply sep_emp. }
  specialize (H ∅ h eq_refl (map_disjoint_empty_l h)). rewrite map_empty_union in H.
  destruct H as ([] & hl & E & Hd & Hs). by exists hl.
Qed.

(** The setters without a check lose the string of an earlier call. *)
Example uidmap_twice : lost_in [M_uidmap (str "0 0 1"); M_uidmap (str "0 1000 1")] no_view = 1.
Proof. reflexivity. Qed.

(** After an error behind the filter minijail_unmarshal() leaves a pointer to the program
    it has freed: minijail_destroy() uses it again. *)
Example unmarshal_error_then_destroy prog :
  (j ← mcalls_p [M_set_seccomp_filters prog] minijail_new_p;
   j ← goto_label bad_mounts labels j; minijail_destroy_p j) ∅ = Undef.
Proof. by vm_compute. Qed.

(** ** The values are those of [Jail] *)

Section Values.
Context {B : BuildConfig}.

Definition view_of (j : minijail) : view := {|
  v_str f := match f with
             | S_user => j.(user) | S_chrootdir => j.(chrootdir) | S_pid_file_path => j.(pid_file_path)
             | S_uidmap => j.(uidmap) | S_gidmap => j.(gidmap) | S_hostname => j.(hostname)
             | S_preload_path => j.(preload_path) | S_filename => j.(filename)
             | S_alt_syscall_table => j.(alt_syscall_table) | S_seccomp_policy_path => j.(seccomp_policy_path)
             end;
  v_queue f := match f with
               | Q_mounts => IMount <$> j.(mounts) | Q_remounts => IRemount <$> j.(remounts)
               | Q_fs_rules => IRule <$> j.(fs_rules) | Q_hooks => IHook <$> j.(hooks)
               end;
  v_gids := j.(suppl_gid_list); v_prog := j.(filter_prog); v_cgroups := j.(cgroups) |}.

Definition same_view (v v' : view) : Prop :=
  (∀ f, v.(v_str) f = v'.(v_str) f) ∧ (∀ f, v.(v_queue) f = v'.(v_queue) f) ∧
  v.(v_gids) = v'.(v_gids) ∧ v.(v_prog) = v'.(v_prog) ∧ v.(v_cgroups) = v'.(v_cgroups).

#[export] Instance jail_at_proper j : Proper (same_view ==> hequiv) (jail_at j).
Proof.
  intros v v' (Hs & Hq & Hg & Hp & Hc). unfold jail_at. rewrite Hg, Hp, Hc.
  rewrite (each_ext (str_part j v) (str_part j v')), (each_ext (queue_part j v) (queue_part j v')).
  - done.
  - intros f _. unfold queue_part. by rewrite Hq.
  - intros f _. unfold str_part. by rewrite Hs.
Qed.

(** The function on values for each call; the first result is the function's, or 0. *)
Definition jail_step (c : mcall) (j : minijail) : io (Z * minijail) :=
  match c with
  | M_set_supplementary_gids l => j ← lift (minijail_set_supplementary_gids j l); mret (0%Z, j)
  | M_change_user name => minijail_change_user j name
  | M_namespace_set_hostname name => mret (minijail_namespace_set_hostname j name)
  | M_uidmap m => mret (minijail_uidmap j m)
  | M_gidmap m => mret (minijail_gidmap j m)
  | M_enter_chroot dir => mret (minijail_enter_chroot j dir)
  | M_enter_pivot_root dir => mret (minijail_enter_pivot_root j dir)
  | M_write_pid_file path => mret (minijail_write_pid_file j path)
  | M_set_preload_path path => mret (minijail_set_preload_path j path)
  | M_use_alt_syscall table => mret (minijail_use_alt_syscall j table)
  | M_set_filename path => mret (0%Z, j <| filename := Some path |>)
  | M_add_to_cgroup path => mret (minijail_add_to_cgroup j path)
  | M_mount_with_data src dest type mf data => mret (minijail_mount_with_data j src dest type mf data)
  | M_add_remount name mode => mret (minijail_add_remount j name mode)
  | M_add_hook h p e => mret (minijail_add_hook j h p e)
  | M_add_fs_restriction_path path fl => add_fs_restriction_path j path fl
  | M_clear_seccomp_options => mret (0%Z, clear_seccomp_options j)
  | M_set_seccomp_filters prog => mret (0%Z, set_seccomp_filters_internal j prog)
  | M_set_seccomp_policy_path path => mret (0%Z, j <| seccomp_policy_path := path |>)
  | M_preenter => mret (0%Z, minijail_preenter j)
  | M_preexec => mret (0%Z, minijail_preexec j)
  end.

(** Compare the members one by one. *)
Ltac views :=
  split_and!; [intros []|intros []|..]; try reflexivity.

Lemma same_view_refl v : same_view v v.
Proof. done. Qed.

Lemma once_view f s j :
  v_str (view_of j) f = None → vset_once f s (view_of j) = vset_str f (Some s) (view_of j).
Proof. unfold vset_once. by intros ->. Qed.

Lemma user_view j name :
  wlp (minijail_change_user j name) (λ r,
    if (r.1 =? 0)%Z then same_view (view_of r.2) (vset_str S_user (Some name) (view_of j))
    else same_view (view_of r.2) (view_of j)).
Proof.
  apply wlp_bind. unfold lookup_user. apply wlp_bind_any. intros a.
  eapply wlp_mono; [|apply lookup_loop_error]. intros [rc|[u g]] Hrc; cbn.
  - by destruct (rc =? 0)%Z eqn:E; [apply Z.eqb_eq in E|].
  - apply wlp_bind, wlp_lift. intros j' Hj'. unfold minijail_change_uid in Hj'. case_match; simplify_eq. cbn. views.
Qed.

Lemma rule_view j path fl :
  wlp (add_fs_restriction_path j path fl) (λ r,
    r.1 = 0%Z ∧ same_view (view_of r.2) (after (M_add_fs_restriction_path path fl) (view_of j))).
Proof.
  unfold add_fs_restriction_path. set (j1 := j <| fs_rules := _ |>). apply wlp_bind.
  apply (wlp_mono _ (λ j', ∃ abi fd, j' = j1 <| fs_rules_landlock_abi := abi |> <| fs_rules_fd := fd |>)).
  - intros j' (abi & fd & ->). split; [done|]. views. exact (fmap_app IRule (fs_rules j) [_]).
  - destruct (_ =? 0)%Z.
    + apply wlp_bind. eapply wlp_mono; [|apply setup_fs_rules_fd_frame].
      intros [rc j'] (abi & fd & Hj'). cbn in *. subst. eauto.
    + exists j1.(fs_rules_landlock_abi), j1.(fs_rules_fd). by destruct j.
Qed.

Lemma jail_step_view c j :
  wlp (jail_step c j) (λ r,
    if (r.1 =? 0)%Z then same_view (view_of r.2) (after c (view_of j)) else same_view (view_of r.2) (view_of j)).
Proof.
  destruct c; cbn [jail_step].
  - apply wlp_bind, wlp_lift. intros j' H. unfold minijail_set_supplementary_gids in H. cbn.
    repeat case_match; simplify_eq; views.
  - apply user_view.
  - cbn. unfold minijail_namespace_set_hostname. case_bool_decide as E; cbn; [done|].
    apply eq_None_not_Some in E. rewrite once_view by exact E. views.
  - cbn. views.
  - cbn. views.
  - cbn. unfold minijail_enter_chroot. case_bool_decide as E; cbn; [done|].
    apply eq_None_not_Some in E. rewrite once_view by exact E. views.
  - cbn. unfold minijail_enter_pivot_root. case_bool_decide as E; cbn; [done|].
    apply eq_None_not_Some in E. rewrite once_view by exact E. views.
  - cbn. views.
  - cbn. unfold minijail_set_preload_path. case_bool_decide as E; cbn; [done|].
    apply eq_None_not_Some in E. rewrite once_view by exact E. views.
  - cbn. views.
  - cbn. views.
  - unfold minijail_add_to_cgroup, after. change (v_cgroups (view_of j)) with (cgroups j).
    destruct (_ <=? _)%nat; cbn; [done|]. views.
  - cbn. unfold minijail_mount_with_data. fold (absolute dest). destruct (absolute dest); cbn; [|done].
    destruct (negb (flag j F_enter_vfs)); views; exact (fmap_app IMount (mounts j) [_]).
  - cbn. unfold minijail_add_remount. fold (absolute name). destruct (absolute name); cbn; [|done].
    views. exact (fmap_app IRemount (remounts j) [_]).
  - cbn. unfold minijail_add_hook. destruct (_ <=? _)%Z; cbn; [done|].
    views. exact (fmap_app IHook (hooks j) [_]).
  - eapply wlp_mono; [|apply rule_view]. by intros [rc j'] [-> H].
  - cbn. views.
  - cbn. views.
  - cbn. views.
  - cbn. views.
  - cbn. views.
Qed.
#[export] Instance same_view_equivalence : Equivalence same_view.
Proof.
  split.
  - done.
  - intros v v' (Hs & Hq & Hg & Hp & Hc). by split_and!.
  - intros v1 v2 v3 (Hs & Hq & Hg & Hp & Hc) (Hs' & Hq' & Hg' & Hp' & Hc').
    split_and!; [intros f; by rewrite Hs|intros f; by rewrite Hq|congruence..].
Qed.

#[export] Instance vset_str_proper f x : Proper (same_view ==> same_view) (vset_str f x).
Proof.
  intros v v' (Hs & Hq & Hg & Hp & Hc). split_and!; [|done..]. intros g.
  destruct (decide (g = f)) as [->|]; [by rewrite !vset_str_eq|by rewrite !vset_str_ne].
Qed.
#[export] Instance vset_queue_proper f xs : Proper (same_view ==> same_view) (vset_queue f xs).
Proof.
  intros v v' (Hs & Hq & Hg & Hp & Hc). split_and!; [done| |done..]. intros g.
  destruct (decide (g = f)) as [->|]; [by rewrite !vset_queue_eq|by rewrite !vset_queue_ne].
Qed.
#[export] Instance vset_once_proper f s : Proper (same_view ==> same_view) (vset_once f s).
Proof. intros v v' H. unfold vset_once. rewrite (proj1 H f). case_match; [done|by rewrite H]. Qed.
#[export] Instance vpush_proper f x : Proper (same_view ==> same_view) (vpush f x).
Proof. intros v v' H. unfold vpush. rewrite (proj1 (proj2 H) f). by rewrite H. Qed.
#[export] Instance vset_gids_proper g : Proper (same_view ==> same_view) (λ v, v <| v_gids := g |>).
Proof. intros v v' (Hs & Hq & Hg & Hp & Hc). by split_and!. Qed.
#[export] Instance vset_prog_proper g : Proper (same_view ==> same_view) (λ v, v <| v_prog := g |>).
Proof. intros v v' (Hs & Hq & Hg & Hp & Hc). by split_and!. Qed.

#[export] Instance after_proper c : Proper (same_view ==> same_view) (after c).
Proof.
  intros v v' H. destruct c; cbn [after]; try (by rewrite H); try (case_match; [done|by rewrite H]).
  destruct H as (Hs & Hq & Hg & Hp & Hc). rewrite Hc. by case_match; split_and!.
Qed.

(** The calls of [cs] on values: those that succeeded, and the jail. *)
Fixpoint jail_steps (cs : list mcall) (j : minijail) : io (list mcall * minijail) :=
  match cs with
  | [] => mret ([], j)
  | c :: cs =>
      '(rc, j) ← jail_step c j;
      '(took, j) ← jail_steps cs j;
      mret (if (rc =? 0)%Z then c :: took else took, j)
  end.

Lemma jail_steps_view cs j v :
  same_view (view_of j) v → wlp (jail_steps cs j) (λ r, same_view (view_of r.2) (afters r.1 v)).
Proof.
  revert j v. induction cs as [|c cs IH]; intros j v Hv; [done|]. cbn [jail_steps].
  apply wlp_bind. eapply wlp_mono; [|apply jail_step_view]. intros [rc j'] Hj. cbn in Hj.
  apply wlp_bind. destruct (rc =? 0)%Z.
  - eapply wlp_mono; [|apply (IH j' (after c v))]; [by intros [took j'']|]. by rewrite Hj, Hv.
  - eapply wlp_mono; [|apply (IH j' v)]; [by intros [took j'']|]. by rewrite Hj.
Qed.

(** C11: The memory of a jail holds the values of [Jail]: whatever the kernel answers, when
    a sequence of calls on a new jail has led to the value [j], the same calls in memory,
    those that succeeded, have led to pointers that own, at distinct addresses, exactly
    the members of [j], next to the objects that were lost; nothing else has changed. *)
Theorem jail_memory cs :
  wlp (jail_steps cs minijail_new) (λ '(took, j), ∀ h, ∃ p hm,
    mcalls_p took minijail_new_p h = Ret (p, hm ∪ h) ∧ hm ##ₘ h ∧
    (jail_at p (view_of j) ∗ lost (lost_in took no_view)) hm).
Proof.
  eapply wlp_mono; [|apply (jail_steps_view cs minijail_new no_view)]; [|by split_and!; [intros []|intros []|..]].
  intros [took j] Hv h. cbn in Hv.
  assert (sim emp (mcalls_p took minijail_new_p) (Ret tt)
    (λ p _, jail_at p (view_of j) ∗ lost (lost_in took no_view))) as H.
  { apply sim_tail. rewrite new_jail. apply sim_mcalls. intros p. rewrite Nat.add_0_r, <- Hv.
    apply sim_ret. intros h' Hh. revert h' Hh. apply sep_mono_r. intros h'. apply sep_emp. }
  specialize (H ∅ h eq_refl (map_disjoint_empty_l h)). rewrite map_empty_union in H.
  destruct H as (p & hm & E & Hd & Hs). by exists p, hm.
Qed.
End Values.
