(* ===== verification/Marshal.v ===== *)
(** * Marshalling a jail (minijail_marshal, minijail_unmarshal)

    The parent writes the struct's bytes and then every object its pointers lead
    to; the preloaded library reads them back.  The struct's image is the
    encoding of its members in declaration order, pointers as null or not; the
    padding the compiler adds is not modelled. *)

From S2P Require Import Prelude CLib Util UtilProps Bpf SyscallFilter OS System Jail Codec.
Local Open Scope Z_scope.

(** ** The image of struct minijail *)

(** A set of flags as the bits of an integer. *)
Definition mask_of (S : gset jflag) (l : list jflag) : Z :=
  foldr (λ f acc, if bool_decide (f ∈ S) then Z.lor (2 ^ Z.of_nat (jflag_index f)) acc else acc) 0 l.

Definition flags_mask (S : gset jflag) : Z := mask_of S all_flags.

Definition flags_of_mask (z : Z) : gset jflag :=
  list_to_set (filter (λ f, Z.testbit z (Z.of_nat (jflag_index f)) = true) all_flags).

Definition c_flags : codec (gset jflag) := c_map flags_mask flags_of_mask (c_uint 8).

Definition c_rlimit : codec (Z * (Z * Z)) := c_pair c_int (c_pair (c_uint 8) (c_uint 8)).
Definition zero_rlimit : Z * (Z * Z) := (0, (0, 0)).
Definition rlimit_tuple (r : minijail_rlimit) : Z * (Z * Z) := (r.(rl_type), (r.(rl_cur),
  r.(rl_max))).
Definition rlimit_of (t : Z * (Z * Z)) : minijail_rlimit :=
  {| rl_type := t.1; rl_cur := t.2.1; rl_max := t.2.2 |}.

Definition c_fd : codec (Z * Z) := c_pair c_int c_int.
Definition zero_fd : Z * Z := (0, 0).
Definition fd_tuple (p : preserved_fd) : Z * Z := (p.(parent_fd), p.(child_fd)).
Definition fd_of (t : Z * Z) : preserved_fd := {| parent_fd := t.1; child_fd := t.2 |}.

Definition nonnull {A} (o : option A) : bool := match o with Some _ => true | None => false end.
Definition nonempty {A} (l : list A) : bool := match l with [] => false | _ => true end.

(** The first [n] elements of an array whose tail holds [x]. *)
Definition pad {A} (n : nat) (x : A) (l : list A) : list A := l ++ replicate (n - length l) x.

Record image := {
  im_flags : gset jflag;
  im_uid : Z;
  im_gid : Z;
  im_usergid : Z;
  im_user : bool;
  im_suppl_gid_count : Z;
  im_suppl_gid_list : bool;
  im_caps : Z;
  im_cap_bset : Z;
  im_initpid : Z;
  im_mountns_fd : Z;
  im_netns_fd : Z;
  im_fs_rules_fd : Z;
  im_fs_rules_landlock_abi : Z;
  im_chrootdir : bool;
  im_pid_file_path : bool;
  im_uidmap : bool;
  im_gidmap : bool;
  im_hostname : bool;
  im_preload_path : bool;
  im_filename : bool;
  im_filter_len : Z;
  im_filter_prog : bool;
  im_alt_syscall_table : bool;
  im_mounts_head : bool;
  im_mounts_tail : bool;
  im_mounts_count : Z;
  im_remount_mode : Z;
  im_remounts_head : bool;
  im_remounts_tail : bool;
  im_tmpfs_size : Z;
  im_fs_rules_head : bool;
  im_fs_rules_tail : bool;
  im_fs_rules_count : Z;
  im_cgroups : list bool;
  im_cgroup_count : Z;
  im_rlimits : list (Z * (Z * Z));
  im_rlimit_count : Z;
  im_securebits_skip_mask : Z;
  im_hooks_head : bool;
  im_hooks_tail : bool;
  im_preserved_fds : list (Z * Z);
  im_preserved_fd_count : Z;
  im_seccomp_policy_path : bool;
}.

Definition image_tuple (i : image) :=
  (i.(im_flags), (i.(im_uid), (i.(im_gid), (i.(im_usergid), (i.(im_user), (i.(im_suppl_gid_count),
    (i.(im_suppl_gid_list), (i.(im_caps), (i.(im_cap_bset), (i.(im_initpid), (i.(im_mountns_fd),
    (i.(im_netns_fd), (i.(im_fs_rules_fd), (i.(im_fs_rules_landlock_abi), (i.(im_chrootdir),
    (i.(im_pid_file_path), (i.(im_uidmap), (i.(im_gidmap), (i.(im_hostname), (i.(im_preload_path),
    (i.(im_filename), (i.(im_filter_len), (i.(im_filter_prog), (i.(im_alt_syscall_table),
    (i.(im_mounts_head), (i.(im_mounts_tail), (i.(im_mounts_count), (i.(im_remount_mode),
    (i.(im_remounts_head), (i.(im_remounts_tail), (i.(im_tmpfs_size), (i.(im_fs_rules_head),
    (i.(im_fs_rules_tail), (i.(im_fs_rules_count), (i.(im_cgroups), (i.(im_cgroup_count),
    (i.(im_rlimits), (i.(im_rlimit_count), (i.(im_securebits_skip_mask), (i.(im_hooks_head),
    (i.(im_hooks_tail), (i.(im_preserved_fds), (i.(im_preserved_fd_count),
    i.(im_seccomp_policy_path)))))))))))))))))))))))))))))))))))))))))))).

Definition image_of_tuple (t : (gset jflag) * (Z * (Z * (Z * (bool * (Z * (bool * (Z * (Z * (Z *
  (Z * (Z * (Z * (Z * (bool * (bool * (bool * (bool * (bool * (bool * (bool * (Z * (bool * (bool *
  (bool * (bool * (Z * (Z * (bool * (bool * (Z * (bool * (bool * (Z * ((list bool) * (Z * ((list
  (Z * (Z * Z))) * (Z * (Z * (bool * (bool * ((list (Z * Z)) * (Z *
  (bool)))))))))))))))))))))))))))))))))))))))))))) : image :=
  let '(v0, (v1, (v2, (v3, (v4, (v5, (v6, (v7, (v8, (v9, (v10, (v11, (v12, (v13, (v14, (v15, (v16,
    (v17, (v18, (v19, (v20, (v21, (v22, (v23, (v24, (v25, (v26, (v27, (v28, (v29, (v30, (v31,
    (v32, (v33, (v34, (v35, (v36, (v37, (v38, (v39, (v40, (v41, (v42,
    v43))))))))))))))))))))))))))))))))))))))))))) := t in
  {| im_flags := v0; im_uid := v1; im_gid := v2; im_usergid := v3; im_user := v4;
    im_suppl_gid_count := v5; im_suppl_gid_list := v6; im_caps := v7; im_cap_bset := v8;
    im_initpid := v9; im_mountns_fd := v10; im_netns_fd := v11; im_fs_rules_fd := v12;
    im_fs_rules_landlock_abi := v13; im_chrootdir := v14; im_pid_file_path := v15; im_uidmap :=
    v16; im_gidmap := v17; im_hostname := v18; im_preload_path := v19; im_filename := v20;
    im_filter_len := v21; im_filter_prog := v22; im_alt_syscall_table := v23; im_mounts_head :=
    v24; im_mounts_tail := v25; im_mounts_count := v26; im_remount_mode := v27; im_remounts_head
    := v28; im_remounts_tail := v29; im_tmpfs_size := v30; im_fs_rules_head := v31;
    im_fs_rules_tail := v32; im_fs_rules_count := v33; im_cgroups := v34; im_cgroup_count := v35;
    im_rlimits := v36; im_rlimit_count := v37; im_securebits_skip_mask := v38; im_hooks_head :=
    v39; im_hooks_tail := v40; im_preserved_fds := v41; im_preserved_fd_count := v42;
    im_seccomp_policy_path := v43 |}.

Definition c_image : codec image :=
  c_map image_tuple image_of_tuple
    (c_flags ⊠ c_uint 4 ⊠ c_uint 4 ⊠ c_uint 4 ⊠ c_ptr ⊠ c_uint 8 ⊠ c_ptr ⊠ c_uint 8 ⊠ c_uint 8 ⊠
     c_int ⊠ c_int ⊠ c_int ⊠ c_int ⊠ c_int ⊠
     c_ptr ⊠ c_ptr ⊠ c_ptr ⊠ c_ptr ⊠ c_ptr ⊠ c_ptr ⊠ c_ptr ⊠
     c_uint 8 ⊠ c_ptr ⊠ c_ptr ⊠ c_ptr ⊠ c_ptr ⊠ c_uint 8 ⊠ c_uint 8 ⊠ c_ptr ⊠ c_ptr ⊠ c_uint 8 ⊠
     c_ptr ⊠ c_ptr ⊠ c_uint 8 ⊠ c_array c_ptr false MAX_CGROUPS ⊠ c_uint 8 ⊠
     c_array c_rlimit zero_rlimit MAX_RLIMITS ⊠ c_uint 8 ⊠ c_uint 8 ⊠ c_ptr ⊠ c_ptr ⊠
     c_array c_fd zero_fd MAX_PRESERVED_FDS ⊠ c_uint 8 ⊠ c_ptr)%codec.

(** The struct as it lies in memory. *)
Definition image_of (j : minijail) : image := {|
  im_flags := j.(flags);
  im_uid := j.(uid);
  im_gid := j.(gid);
  im_usergid := j.(usergid);
  im_user := nonnull j.(user);
  im_suppl_gid_count := j.(suppl_gid_count);
  im_suppl_gid_list := nonnull j.(suppl_gid_list);
  im_caps := j.(caps);
  im_cap_bset := j.(cap_bset);
  im_initpid := j.(initpid);
  im_mountns_fd := j.(mountns_fd);
  im_netns_fd := j.(netns_fd);
  im_fs_rules_fd := j.(fs_rules_fd);
  im_fs_rules_landlock_abi := j.(fs_rules_landlock_abi);
  im_chrootdir := nonnull j.(chrootdir);
  im_pid_file_path := nonnull j.(pid_file_path);
  im_uidmap := nonnull j.(uidmap);
  im_gidmap := nonnull j.(gidmap);
  im_hostname := nonnull j.(hostname);
  im_preload_path := nonnull j.(preload_path);
  im_filename := nonnull j.(filename);
  im_filter_len := j.(filter_len);
  im_filter_prog := nonnull j.(filter_prog);
  im_alt_syscall_table := nonnull j.(alt_syscall_table);
  im_mounts_head := nonempty j.(mounts);
  im_mounts_tail := nonempty j.(mounts);
  im_mounts_count := j.(mounts_count);
  im_remount_mode := j.(remount_mode);
  im_remounts_head := nonempty j.(remounts);
  im_remounts_tail := nonempty j.(remounts);
  im_tmpfs_size := j.(tmpfs_size);
  im_fs_rules_head := nonempty j.(fs_rules);
  im_fs_rules_tail := nonempty j.(fs_rules);
  im_fs_rules_count := j.(fs_rules_count);
  im_cgroups := pad MAX_CGROUPS false ((λ _, true) <$> j.(cgroups));
  im_cgroup_count := Z.of_nat (length j.(cgroups));
  im_rlimits := pad MAX_RLIMITS zero_rlimit (rlimit_tuple <$> j.(rlimits));
  im_rlimit_count := Z.of_nat (length j.(rlimits));
  im_securebits_skip_mask := j.(securebits_skip_mask);
  im_hooks_head := nonempty j.(hooks);
  im_hooks_tail := nonempty j.(hooks);
  im_preserved_fds := pad MAX_PRESERVED_FDS zero_fd (fd_tuple <$> j.(preserved_fds));
  im_preserved_fd_count := Z.of_nat (length j.(preserved_fds));
  im_seccomp_policy_path := nonnull j.(seccomp_policy_path) |}.

Definition sizeof_minijail : nat := size c_image.

(** ** Writing *)

(** The cursor: bytes written so far, room left, and bytes asked for. *)
Record marshal_state := { ms_out : list ascii; ms_available : nat; ms_total : nat }.

Definition marshal_state_init (available : nat) : marshal_state :=
  {| ms_out := []; ms_available := available; ms_total := 0 |}.

Definition marshal_append (src : list ascii) (st : marshal_state) : marshal_state :=
  let copy_len := Nat.min st.(ms_available) (length src) in
  {| ms_out := st.(ms_out) ++ take copy_len src;
     ms_available := st.(ms_available) - copy_len;
     ms_total := st.(ms_total) + length src |}.

Definition marshal_append_string (src : cstr) (st : marshal_state) : marshal_state :=
  marshal_append (src ++ [NUL]) st.

Definition c_has_data : codec Z := c_int.
Definition c_mount_flags : codec Z := c_uint 8.
Definition c_landlock_flags : codec Z := c_uint 8.
Definition c_gid : codec Z := c_uint 4.

(** struct sock_filter *)
Definition c_instr : codec sock_filter :=
  c_map (λ i, (i.(code), (i.(jt), (i.(jf), i.(k)))))
    (λ t, Instr t.1 t.2.1 t.2.2.1 t.2.2.2)
    (c_uint 2 ⊠ c_uint 1 ⊠ c_uint 1 ⊠ c_uint 4)%codec.

Definition marshal_mount (m : mountpoint) (st : marshal_state) : marshal_state :=
  let st := marshal_append (m.(m_src) ++ [NUL]) st in
  let st := marshal_append (m.(m_dest) ++ [NUL]) st in
  let st := marshal_append (m.(m_type) ++ [NUL]) st in
  let st := marshal_append (enc c_has_data (if nonnull m.(m_data) then 1 else 0)) st in
  let st := match m.(m_data) with Some d => marshal_append (d ++ [NUL]) st | None => st end in
  marshal_append (enc c_mount_flags m.(m_flags)) st.

Definition marshal_fs_rule (r : fs_rule) (st : marshal_state) : marshal_state :=
  let st := marshal_append (r.(fr_path) ++ [NUL]) st in
  marshal_append (enc c_landlock_flags r.(fr_landlock_flags)) st.

Definition marshal_opt (o : option cstr) (st : marshal_state) : marshal_state :=
  match o with Some s => marshal_append_string s st | None => st end.

Fixpoint marshal_list {A} (f : A → marshal_state → marshal_state) (l : list A) (st : marshal_state)
    : marshal_state :=
  match l with [] => st | a :: rest => marshal_list f rest (f a st) end.

Definition minijail_marshal_helper (j : minijail) (st : marshal_state) : marshal_state :=
  let st := marshal_append (enc c_image (image_of j)) st in
  let st := marshal_opt j.(user) st in
  let st := match j.(suppl_gid_list) with
            | Some l => marshal_append (mjoin (enc c_gid <$> l)) st
            | None => st
            end in
  let st := marshal_opt j.(chrootdir) st in
  let st := marshal_opt j.(hostname) st in
  let st := marshal_opt j.(alt_syscall_table) st in
  let st := match j.(filter_prog) with
            | Some fp => if flag j F_seccomp_filter
                         then marshal_append (mjoin (enc c_instr <$> fp)) st else st
            | None => st
            end in
  let st := marshal_list marshal_mount j.(mounts) st in
  let st := marshal_list marshal_append_string j.(cgroups) st in
  let st := marshal_list marshal_fs_rule j.(fs_rules) st in
  let st := marshal_append (enc c_int j.(fs_rules_fd)) st in
  marshal_opt j.(seccomp_policy_path) st.

Definition minijail_size (j : minijail) : nat :=
  (minijail_marshal_helper j (marshal_state_init 0)).(ms_total).

(** Whether the buffer was too small, and what was written to it. *)
Definition minijail_marshal (j : minijail) (available : nat) : bool * list ascii :=
  let st := minijail_marshal_helper j (marshal_state_init available) in
  ((available <? st.(ms_total))%nat, st.(ms_out)).

(** ** Reading *)

Section Read.
Context {B : BuildConfig}.

(** The struct right after the copy and the reset of its pointers: scalars and
    embedded arrays are there, everything behind a pointer is not. *)
Definition of_image (i : image) : minijail := {|
  flags := i.(im_flags); uid := i.(im_uid); gid := i.(im_gid); usergid := i.(im_usergid);
  user := None; suppl_gid_count := i.(im_suppl_gid_count); suppl_gid_list := None;
  caps := i.(im_caps); cap_bset := i.(im_cap_bset); initpid := i.(im_initpid);
  mountns_fd := i.(im_mountns_fd); netns_fd := i.(im_netns_fd); fs_rules_fd := i.(im_fs_rules_fd);
  fs_rules_landlock_abi := i.(im_fs_rules_landlock_abi); chrootdir := None; pid_file_path := None;
  uidmap := None; gidmap := None; hostname := None; preload_path := None; filename := None;
  filter_len := i.(im_filter_len); filter_prog := None; alt_syscall_table := None; mounts := [];
  mounts_count := i.(im_mounts_count); remount_mode := i.(im_remount_mode); remounts := [];
  tmpfs_size := i.(im_tmpfs_size); fs_rules := []; fs_rules_count := i.(im_fs_rules_count);
  cgroups := []; rlimits := rlimit_of <$> take (Z.to_nat i.(im_rlimit_count)) i.(im_rlimits);
  securebits_skip_mask := i.(im_securebits_skip_mask); hooks := [];
  preserved_fds := fd_of <$> take (Z.to_nat i.(im_preserved_fd_count)) i.(im_preserved_fds);
  seccomp_policy_path := None |}.

(** The state after the label clear_pointers. *)
Definition clear_pointers (j : minijail) : minijail :=
  j <| user := None |> <| suppl_gid_list := None |> <| chrootdir := None |> <| hostname := None |>
    <| alt_syscall_table := None |> <| cgroups := [] |> <| fs_rules_count := 0 |>
    <| seccomp_policy_path := None |>.

(** goto to one of the labels from bad_mounts down. *)
Definition fail (j : minijail) : io (Z * minijail) := mret (- EINVAL, clear_pointers j).

Definition bad_fs_rules (j : minijail) : io (Z * minijail) := fail (free_fs_rules_list j).

Definition bad_cgroups (j : minijail) : io (Z * minijail) :=
  bad_fs_rules (free_remounts_list (free_mounts_list j)).

(** A string behind a pointer that was not null. *)
Definition consume_opt (present : bool) (buf : list ascii) : option (option cstr * list ascii) :=
  if present then '(s, buf) ← consumestr buf; Some (Some s, buf) else Some (None, buf).

Definition NGROUPS_MAX : Z := 65536.
Definition USHRT_MAX : Z := 65535.

Definition consume_gids (present : bool) (count : Z) (buf : list ascii)
    : option (option (list Z) * list ascii) :=
  if present then
    if NGROUPS_MAX <? count then None
    else
      '(bs, buf) ← consumebytes (Z.to_nat count * size c_gid) buf;
      Some (Some (dec_array c_gid (Z.to_nat count) bs), buf)
  else Some (None, buf).

Definition consume_filter (present : bool) (ninstrs : Z) (buf : list ascii)
    : option (option (list sock_filter) * list ascii) :=
  if present && (0 <? ninstrs) then
    if USHRT_MAX <? ninstrs then None
    else
      '(bs, buf) ← consumebytes (Z.to_nat ninstrs * size c_instr) buf;
      Some (Some (dec_array c_instr (Z.to_nat ninstrs) bs), buf)
  else Some (None, buf).

(** One mount; the rest of the buffer is [None] for a goto bad_mounts. *)
Definition unmarshal_mount (j : minijail) (buf : list ascii) : minijail * option (list ascii) :=
  match (
    '(src, buf) ← consumestr buf;
    '(dest, buf) ← consumestr buf;
    '(type, buf) ← consumestr buf;
    '(has_data, buf) ← consumebytes (size c_has_data) buf;
    '(data, buf) ← consume_opt (negb (dec c_has_data has_data =? 0)) buf;
    '(mf, buf) ← consumebytes (size c_mount_flags) buf;
    Some (src, dest, type, data, dec c_mount_flags mf, buf))
  with
  | None => (j, None)
  | Some (src, dest, type, data, mf, buf) =>
      let '(rc, j) := minijail_mount_with_data j src dest type mf data in
      (j, if rc =? 0 then Some buf else None)
  end.

Fixpoint unmarshal_mounts (count : nat) (j : minijail) (buf : list ascii)
    : minijail * option (list ascii) :=
  match count with
  | O => (j, Some buf)
  | S n => match unmarshal_mount j buf with
           | (j, None) => (j, None)
           | (j, Some buf) => unmarshal_mounts n j buf
           end
  end.

(** The index into the array of [MAX_CGROUPS] pointers is not checked. *)
Fixpoint unmarshal_cgroups (count : nat) (j : minijail) (buf : list ascii)
    : io (minijail * option (list ascii)) :=
  match count with
  | O => mret (j, Some buf)
  | S n => match consumestr buf with
           | None => mret (j, None)
           | Some (cgroup, buf) =>
               if (MAX_CGROUPS <=? length j.(cgroups))%nat then IUndef
               else unmarshal_cgroups n (j <| cgroups := j.(cgroups) ++ [cgroup] |>) buf
           end
  end.

(** The flags of a rule are copied from the address [consumebytes] returned
    without a check for NULL. *)
Fixpoint unmarshal_fs_rules (count : nat) (j : minijail) (buf : list ascii)
    : io (minijail * option (list ascii)) :=
  match count with
  | O => mret (j, Some buf)
  | S n =>
      match consumestr buf with
      | None => mret (j, None)
      | Some (path, buf) =>
          match consumebytes (size c_landlock_flags) buf with
          | None => IUndef
          | Some (bs, buf) =>
              let landlock_flags := dec c_landlock_flags bs in
              if landlock_flags =? 0 then mret (j, None)
              else
                '(_, j) ← add_fs_restriction_path j path landlock_flags;
                unmarshal_fs_rules n j buf
          end
      end
  end.

(** The strings, the group list and the filter, in front of the mounts. *)
Definition unmarshal_pointers (i : image) (buf : list ascii) : option (minijail * list ascii) :=
  '(user_, buf) ← consume_opt i.(im_user) buf;
  '(gids, buf) ← consume_gids i.(im_suppl_gid_list) i.(im_suppl_gid_count) buf;
  '(chrootdir_, buf) ← consume_opt i.(im_chrootdir) buf;
  '(hostname_, buf) ← consume_opt i.(im_hostname) buf;
  '(table, buf) ← consume_opt i.(im_alt_syscall_table) buf;
  '(prog, buf) ← consume_filter (bool_decide (F_seccomp_filter ∈ i.(im_flags))) i.(im_filter_len) buf;
  Some (of_image i <| user := user_ |> <| suppl_gid_list := gids |> <| chrootdir := chrootdir_ |>
          <| hostname := hostname_ |> <| alt_syscall_table := table |> <| filter_prog := prog |>, buf).

(** The return code and the jail; [j0] is the jail passed in. *)
Definition minijail_unmarshal (j0 : minijail) (serialized : list ascii) : io (Z * minijail) :=
  match consumebytes sizeof_minijail serialized with
  | None => mret (- EINVAL, j0)
  | Some (bs, buf) =>
    let i := dec c_image bs in
    match unmarshal_pointers i buf with
    | None => fail (of_image i)
    | Some (j, buf) =>
      match unmarshal_mounts (Z.to_nat i.(im_mounts_count)) (j <| mounts_count := 0 |>) buf with
      | (j, None) => fail j
      | (j, Some buf) =>
        r ← unmarshal_cgroups (Z.to_nat i.(im_cgroup_count)) j buf;
        match r with
        | (j, None) => bad_cgroups j
        | (j, Some buf) =>
          r ← unmarshal_fs_rules (Z.to_nat i.(im_fs_rules_count)) (j <| fs_rules_count := 0 |>) buf;
          match r with
          | (j, None) => bad_fs_rules j
          | (j, Some buf) =>
            match consumebytes (size c_int) buf with
            | None => IUndef
            | Some (bs, buf) =>
              let j := j <| fs_rules_fd := dec c_int bs |> in
              if dec c_int bs =? 0 then bad_cgroups j
              else
                match consume_opt i.(im_seccomp_policy_path) buf with
                | None => bad_cgroups j
                | Some (path, _) => mret (0, j <| seccomp_policy_path := path |>)
                end
            end
          end
        end
      end
    end
  end.

Definition minijail_copy_jail (from out : minijail) : io (Z * minijail) :=
  let sz := minijail_size from in
  if (sz =? 0)%nat then mret (- EINVAL, out)
  else
    let '(err, buf) := minijail_marshal from sz in
    if err : bool then mret (1, out) else minijail_unmarshal out buf.

End Read.
