(* ===== verification/MarshalProps.v ===== *)
(** * Marshalling preserves a jail

    The bytes written are a fixed serialization, truncated to the buffer; reading
    it back rebuilds the jail, up to what is deliberately not sent. *)

From S2P Require Import Prelude CLib Util UtilProps Bpf SyscallFilter OS System Jail JailProps Codec Marshal.
Local Open Scope Z_scope.

(** ** Writing is appending *)

Lemma marshal_append_app a b st :
  marshal_append b (marshal_append a st) = marshal_append (a ++ b) st.
Proof.
  destruct st as [out av tot]. unfold marshal_append; simpl. rewrite !length_app. f_equal.
  - rewrite <- app_assoc. f_equal. rewrite take_app.
    destruct (decide (length a <= av)%nat).
    + rewrite (Nat.min_r av (length a)) by lia.
      rewrite (take_ge a (length a)) by lia. rewrite (take_ge a) by lia. do 2 f_equal. lia.
    + rewrite (Nat.min_l av (length a)) by lia. rewrite Nat.sub_diag. simpl.
      rewrite (Nat.min_l av (length a + length b)) by lia.
      replace (av - length a)%nat with 0%nat by lia. done.
  - lia.
  - lia.
Qed.

Lemma marshal_append_nil st : marshal_append [] st = st.
Proof.
  destruct st as [out av tot]. unfold marshal_append; simpl.
  rewrite Nat.min_0_r; simpl. rewrite app_nil_r. f_equal; lia.
Qed.

Definition opt_bytes (o : option cstr) : list ascii :=
  match o with Some s => s ++ [NUL] | None => [] end.

Definition mount_bytes (m : mountpoint) : list ascii :=
  (m.(m_src) ++ [NUL]) ++ (m.(m_dest) ++ [NUL]) ++ (m.(m_type) ++ [NUL])
  ++ enc c_has_data (if nonnull m.(m_data) then 1 else 0)
  ++ opt_bytes m.(m_data) ++ enc c_mount_flags m.(m_flags).

Definition fs_rule_bytes (r : fs_rule) : list ascii :=
  (r.(fr_path) ++ [NUL]) ++ enc c_landlock_flags r.(fr_landlock_flags).

Definition filter_bytes (j : minijail) : list ascii :=
  match j.(filter_prog) with
  | Some fp => if flag j F_seccomp_filter then mjoin (enc c_instr <$> fp) else []
  | None => []
  end.

Definition gid_bytes (o : option (list Z)) : list ascii :=
  match o with Some l => mjoin (enc c_gid <$> l) | None => [] end.

(** The whole serialization of a jail. *)
Definition serialize (j : minijail) : list ascii :=
  enc c_image (image_of j) ++ opt_bytes j.(user) ++ gid_bytes j.(suppl_gid_list)
  ++ opt_bytes j.(chrootdir) ++ opt_bytes j.(hostname) ++ opt_bytes j.(alt_syscall_table)
  ++ filter_bytes j ++ mjoin (mount_bytes <$> j.(mounts))
  ++ mjoin ((λ s, s ++ [NUL]) <$> j.(cgroups)) ++ mjoin (fs_rule_bytes <$> j.(fs_rules))
  ++ enc c_int j.(fs_rules_fd) ++ opt_bytes j.(seccomp_policy_path).

Arguments serialize : simpl never.

Lemma marshal_opt_spec o st : marshal_opt o st = marshal_append (opt_bytes o) st.
Proof. destruct o; [done|]. by rewrite marshal_append_nil. Qed.

Lemma marshal_list_spec {A} (f : A → marshal_state → marshal_state) (g : A → list ascii) l st :
  (∀ a st, f a st = marshal_append (g a) st) →
  marshal_list f l st = marshal_append (mjoin (g <$> l)) st.
Proof.
  intros Hf. revert st; induction l as [|a l IH]; intros st; simpl; [by rewrite marshal_append_nil|].
  by rewrite IH, Hf, marshal_append_app.
Qed.

Lemma marshal_mount_spec m st : marshal_mount m st = marshal_append (mount_bytes m) st.
Proof.
  unfold marshal_mount, mount_bytes.
  destruct (m_data m); simpl opt_bytes; rewrite !marshal_append_app, <- ?app_assoc; done.
Qed.

Lemma marshal_fs_rule_spec r st : marshal_fs_rule r st = marshal_append (fs_rule_bytes r) st.
Proof. unfold marshal_fs_rule, fs_rule_bytes. by rewrite marshal_append_app. Qed.

Lemma marshal_helper_spec j st :
  minijail_marshal_helper j st = marshal_append (serialize j) st.
Proof.
  unfold minijail_marshal_helper, serialize.
  assert (∀ st, match j.(filter_prog) with
          | Some fp => if flag j F_seccomp_filter
                       then marshal_append (mjoin (enc c_instr <$> fp)) st else st
          | None => st end = marshal_append (filter_bytes j) st) as Hf.
  { intros s. unfold filter_bytes. destruct (filter_prog j); [destruct (flag _ _)|];
      by rewrite ?marshal_append_nil. }
  assert (∀ st, match j.(suppl_gid_list) with
          | Some l => marshal_append (mjoin (enc c_gid <$> l)) st | None => st end
          = marshal_append (gid_bytes j.(suppl_gid_list)) st) as Hg.
  { intros s. destruct (suppl_gid_list j); [done|]. by rewrite marshal_append_nil. }
  cbv zeta. rewrite !marshal_opt_spec, Hg, Hf.
  rewrite (marshal_list_spec _ _ j.(mounts) _ marshal_mount_spec).
  rewrite (marshal_list_spec _ _ j.(fs_rules) _ marshal_fs_rule_spec).
  rewrite (marshal_list_spec _ (λ s, s ++ [NUL]) j.(cgroups) _ ltac:(done)).
  by rewrite !marshal_append_app, <- ?app_assoc.
Qed.

Lemma minijail_size_spec j : minijail_size j = length (serialize j).
Proof. unfold minijail_size. by rewrite marshal_helper_spec. Qed.

Lemma minijail_marshal_spec j available :
  minijail_marshal j available =
    ((available <? length (serialize j))%nat, take available (serialize j)).
Proof.
  unfold minijail_marshal. rewrite marshal_helper_spec. generalize (serialize j). intros s.
  unfold marshal_append, marshal_state_init; simpl. f_equal.
  destruct (decide (available <= length s)%nat).
  - by rewrite Nat.min_l.
  - rewrite Nat.min_r, (take_ge _ available), take_ge by lia. done.
Qed.

(** [minijail_size] is the length of the serialization, and [minijail_marshal]
    writes exactly its part that fits the buffer and reports whether something is
    missing; a buffer of the announced size receives all of it. *)
Theorem marshal_spec j available :
  minijail_size j = length (serialize j) ∧
  minijail_marshal j available =
    ((available <? length (serialize j))%nat, take available (serialize j)) ∧
  minijail_marshal j (minijail_size j) = (false, serialize j).
Proof.
  rewrite !minijail_marshal_spec, minijail_size_spec. split_and!; [done|done|].
  f_equal; [apply Nat.ltb_irrefl|by apply take_ge].
Qed.

(** ** The image survives *)

Definition fits (n : nat) (z : Z) : Prop := 0 <= z < 2 ^ (8 * Z.of_nat n).
Definition is_int (z : Z) : Prop := - 2 ^ 31 <= z < 2 ^ 31.

Lemma jflag_index_inj f g : jflag_index f = jflag_index g → f = g.
Proof.
  intros H. assert (∀ f, all_flags !! jflag_index f = Some f) as Hl by (by intros []).
  pose proof (Hl f) as Hf. rewrite H, Hl in Hf. congruence.
Qed.

Lemma mask_of_bit S l f :
  Z.testbit (mask_of S l) (Z.of_nat (jflag_index f)) = bool_decide (f ∈ S) && bool_decide (f ∈ l).
Proof.
  induction l as [|g l IH]; simpl; [by rewrite Z.bits_0, andb_false_r|].
  assert (Z.testbit (2 ^ Z.of_nat (jflag_index g)) (Z.of_nat (jflag_index f)) = bool_decide (f = g)) as Hb.
  { rewrite Z.pow2_bits_eqb by lia. destruct (decide (f = g)) as [->|Hne].
    - rewrite bool_decide_true by done. apply Z.eqb_refl.
    - rewrite bool_decide_false by done. apply Z.eqb_neq. intros H%Nat2Z.inj%jflag_index_inj. congruence. }
  destruct (decide (g ∈ S)) as [Hg|Hg];
    [rewrite (bool_decide_true (g ∈ S)) by done|rewrite (bool_decide_false (g ∈ S)) by done].
  - rewrite Z.lor_spec, Hb, IH. destruct (decide (f = g)) as [->|Hne].
    + rewrite (bool_decide_true (g ∈ S)), (bool_decide_true (g = g)),
        (bool_decide_true (g ∈ g :: l)) by set_solver. done.
    + rewrite (bool_decide_false (f = g)) by done. simpl. f_equal. apply bool_decide_ext. set_solver.
  - rewrite IH. destruct (decide (f = g)) as [->|Hne].
    + by rewrite (bool_decide_false (g ∈ S)).
    + f_equal. apply bool_decide_ext. set_solver.
Qed.

Lemma mask_of_land S l : Z.land (mask_of S l) (Z.ones 64) = mask_of S l.
Proof.
  induction l as [|f l IH]; simpl; [done|]. case_bool_decide; [|done].
  rewrite Z.land_lor_distr_l, IH. f_equal.
  rewrite Z.land_ones by lia. apply Z.mod_small. split; [lia|].
  apply Z.pow_lt_mono_r; [lia|lia|]. by destruct f.
Qed.

Lemma all_flags_complete f : f ∈ all_flags.
Proof. apply (list_elem_of_lookup_2 _ (jflag_index f)). by destruct f. Qed.

#[export] Instance faithful_flags : faithful c_flags (λ _ : gset jflag, True).
Proof.
  eapply (faithful_map _ _ _ _ _ (faithful_uint 8)). intros S _. split.
  - pose proof (mask_of_land S all_flags) as H. rewrite Z.land_ones in H by lia.
    unfold flags_mask. rewrite <- H. apply Z.mod_pos_bound. lia.
  - apply leibniz_equiv. intros f. unfold flags_of_mask.
    rewrite elem_of_list_to_set, list_elem_of_filter.
    unfold flags_mask. rewrite mask_of_bit.
    rewrite (bool_decide_true (f ∈ all_flags)) by apply all_flags_complete.
    rewrite andb_true_r, bool_decide_eq_true. split; [tauto|]. intros. split; [done|].
    apply all_flags_complete.
Qed.

Definition wf_rlimit (t : Z * (Z * Z)) : Prop := is_int t.1 ∧ fits 8 t.2.1 ∧ fits 8 t.2.2.
Definition wf_fd (t : Z * Z) : Prop := is_int t.1 ∧ is_int t.2.

Record wf_image (i : image) : Prop := {
  wf_u32 : fits 4 i.(im_uid) ∧ fits 4 i.(im_gid) ∧ fits 4 i.(im_usergid);
  wf_u64 : fits 8 i.(im_suppl_gid_count) ∧ fits 8 i.(im_caps) ∧ fits 8 i.(im_cap_bset)
           ∧ fits 8 i.(im_filter_len) ∧ fits 8 i.(im_mounts_count) ∧ fits 8 i.(im_remount_mode)
           ∧ fits 8 i.(im_tmpfs_size) ∧ fits 8 i.(im_fs_rules_count) ∧ fits 8 i.(im_cgroup_count)
           ∧ fits 8 i.(im_rlimit_count) ∧ fits 8 i.(im_securebits_skip_mask)
           ∧ fits 8 i.(im_preserved_fd_count);
  wf_ints : is_int i.(im_initpid) ∧ is_int i.(im_mountns_fd) ∧ is_int i.(im_netns_fd)
            ∧ is_int i.(im_fs_rules_fd) ∧ is_int i.(im_fs_rules_landlock_abi);
  wf_arrays : length i.(im_cgroups) = MAX_CGROUPS ∧
              (length i.(im_rlimits) = MAX_RLIMITS ∧ Forall wf_rlimit i.(im_rlimits)) ∧
              (length i.(im_preserved_fds) = MAX_PRESERVED_FDS ∧ Forall wf_fd i.(im_preserved_fds));
}.

#[export] Instance faithful_rlimit : faithful c_rlimit wf_rlimit.
Proof.
  apply (faithful_pair c_int (c_pair (c_uint 8) (c_uint 8)) is_int (λ p, fits 8 p.1 ∧ fits 8 p.2));
    [apply faithful_int|].
  apply (faithful_pair (c_uint 8) (c_uint 8) (fits 8) (fits 8)); apply faithful_uint.
Qed.

#[export] Instance faithful_fd : faithful c_fd wf_fd.
Proof. apply (faithful_pair c_int c_int is_int is_int); apply faithful_int. Qed.

#[export] Instance faithful_image : faithful c_image wf_image.
Proof.
  unfold c_image. eapply faithful_map; [apply _|]. intros i [H1 H2 H3 H4].
  split; [|by destruct i]. simpl. unfold fits, is_int in *.
  destruct H1 as (? & ? & ?), H2 as (? & ? & ? & ? & ? & ? & ? & ? & ? & ? & ? & ?),
    H3 as (? & ? & ? & ? & ?), H4 as (? & ? & ?).
  repeat first [exact I | assumption | split]. by apply list.Forall_true.
Qed.

(** ** What can be sent *)

Definition wf_instr (i : sock_filter) : Prop :=
  fits 2 i.(code) ∧ fits 1 i.(jt) ∧ fits 1 i.(jf) ∧ fits 4 i.(k).

Definition no_nul (s : cstr) : Prop := NUL ∉ s.
Definition opt_no_nul (o : option cstr) : Prop := match o with Some s => no_nul s | None => True end.

Record wf_mount (m : mountpoint) : Prop := {
  wfm_src : no_nul m.(m_src);
  wfm_dest : no_nul m.(m_dest);
  wfm_abs : head m.(m_dest) = Some "/"%char;
  wfm_type : no_nul m.(m_type);
  wfm_data : opt_no_nul m.(m_data);
  wfm_default : mount_data m.(m_type) m.(m_data) = m.(m_data);
  wfm_flags : fits 8 m.(m_flags) ∧ m.(m_flags) ≠ 0;
}.

Definition wf_fs_rule (r : fs_rule) : Prop :=
  no_nul r.(fr_path) ∧ fits 8 r.(fr_landlock_flags) ∧ r.(fr_landlock_flags) ≠ 0.

(** A configuration whose numbers fit their C types, whose strings are C strings,
    and whose tables agree with their counts. *)
Record marshalable (j : minijail) : Prop := {
  ma_tables : tables_ok j;
  ma_u32 : fits 4 j.(uid) ∧ fits 4 j.(gid) ∧ fits 4 j.(usergid);
  ma_u64 : fits 8 j.(caps) ∧ fits 8 j.(cap_bset) ∧ fits 8 j.(remount_mode) ∧ fits 8 j.(tmpfs_size)
           ∧ fits 8 j.(securebits_skip_mask);
  ma_ints : is_int j.(initpid) ∧ is_int j.(mountns_fd) ∧ is_int j.(netns_fd)
            ∧ is_int j.(fs_rules_fd) ∧ is_int j.(fs_rules_landlock_abi);
  ma_rlimits : Forall (λ r, wf_rlimit (rlimit_tuple r)) j.(rlimits);
  ma_fds : Forall (λ p, wf_fd (fd_tuple p)) j.(preserved_fds);
  ma_gids : Z.of_nat (length (default [] j.(suppl_gid_list))) <= NGROUPS_MAX ∧
            Forall (fits 4) (default [] j.(suppl_gid_list));
  ma_filter : Z.of_nat (length (default [] j.(filter_prog))) <= USHRT_MAX ∧
              Forall wf_instr (default [] j.(filter_prog));
  ma_strings : opt_no_nul j.(user) ∧ opt_no_nul j.(chrootdir) ∧ opt_no_nul j.(hostname)
               ∧ opt_no_nul j.(alt_syscall_table) ∧ opt_no_nul j.(seccomp_policy_path)
               ∧ Forall no_nul j.(cgroups);
  ma_mounts : Forall wf_mount j.(mounts) ∧ Z.of_nat (length j.(mounts)) < 2 ^ 64;
  ma_fs_rules : Forall wf_fs_rule j.(fs_rules) ∧ Z.of_nat (length j.(fs_rules)) < 2 ^ 64;
  ma_fs_rules_fd : j.(fs_rules_fd) ≠ 0;
}.

(** The condition can be computed. *)
#[export] Instance fits_dec n z : Decision (fits n z).
Proof. unfold fits. apply _. Defined.
#[export] Instance is_int_dec z : Decision (is_int z).
Proof. unfold is_int. apply _. Defined.
#[export] Instance no_nul_dec s : Decision (no_nul s).
Proof. unfold no_nul. apply _. Defined.
#[export] Instance opt_no_nul_dec o : Decision (opt_no_nul o).
Proof. destruct o; apply _. Defined.
#[export] Instance wf_instr_dec i : Decision (wf_instr i).
Proof. unfold wf_instr. apply _. Defined.
#[export] Instance wf_fs_rule_dec r : Decision (wf_fs_rule r).
Proof. unfold wf_fs_rule. apply _. Defined.
#[export] Instance wf_rlimit_dec r : Decision (wf_rlimit r).
Proof. unfold wf_rlimit. apply _. Defined.
#[export] Instance wf_fd_dec p : Decision (wf_fd p).
Proof. unfold wf_fd. apply _. Defined.

#[export] Instance tables_ok_dec j : Decision (tables_ok j).
Proof.
  refine (cast_if (decide (
    j.(mounts_count) = u64 (Z.of_nat (length j.(mounts))) ∧
    j.(fs_rules_count) = u64 (Z.of_nat (length j.(fs_rules))) ∧
    j.(filter_len) = match j.(filter_prog) with Some p => Z.of_nat (length p) | None => 0 end ∧
    j.(suppl_gid_count) = match j.(suppl_gid_list) with Some l => Z.of_nat (length l) | None => 0 end ∧
    (length j.(cgroups) <= MAX_CGROUPS)%nat ∧
    ((length j.(rlimits) <= MAX_RLIMITS)%nat ∧ NoDup (rl_type <$> j.(rlimits))) ∧
    ((length j.(preserved_fds) <= MAX_PRESERVED_FDS)%nat ∧
     Forall (λ p, 0 <= p.(parent_fd) ∧ 0 <= p.(child_fd)) j.(preserved_fds)) ∧
    Forall (λ h, h.(h_event) < MINIJAIL_HOOK_EVENT_MAX) j.(hooks) ∧
    Forall (λ m, head m.(m_dest) = Some "/"%char ∧ m.(m_flags) ≠ 0) j.(mounts) ∧
    Forall (λ r, head r.(remount_mount_name) = Some "/"%char) j.(remounts))));
    [split; tauto|intros []; tauto].
Defined.

#[export] Instance wf_mount_dec m : Decision (wf_mount m).
Proof.
  refine (cast_if (decide (
    no_nul m.(m_src) ∧ no_nul m.(m_dest) ∧ head m.(m_dest) = Some "/"%char ∧ no_nul m.(m_type) ∧
    opt_no_nul m.(m_data) ∧ mount_data m.(m_type) m.(m_data) = m.(m_data) ∧
    (fits 8 m.(m_flags) ∧ m.(m_flags) ≠ 0))));
    [split; tauto|intros []; tauto].
Defined.

#[export] Instance marshalable_dec j : Decision (marshalable j).
Proof.
  refine (cast_if (decide (
    tables_ok j ∧ (fits 4 j.(uid) ∧ fits 4 j.(gid) ∧ fits 4 j.(usergid)) ∧
    (fits 8 j.(caps) ∧ fits 8 j.(cap_bset) ∧ fits 8 j.(remount_mode) ∧ fits 8 j.(tmpfs_size)
     ∧ fits 8 j.(securebits_skip_mask)) ∧
    (is_int j.(initpid) ∧ is_int j.(mountns_fd) ∧ is_int j.(netns_fd)
     ∧ is_int j.(fs_rules_fd) ∧ is_int j.(fs_rules_landlock_abi)) ∧
    Forall (λ r, wf_rlimit (rlimit_tuple r)) j.(rlimits) ∧
    Forall (λ p, wf_fd (fd_tuple p)) j.(preserved_fds) ∧
    (Z.of_nat (length (default [] j.(suppl_gid_list))) <= NGROUPS_MAX ∧
     Forall (fits 4) (default [] j.(suppl_gid_list))) ∧
    (Z.of_nat (length (default [] j.(filter_prog))) <= USHRT_MAX ∧
     Forall wf_instr (default [] j.(filter_prog))) ∧
    (opt_no_nul j.(user) ∧ opt_no_nul j.(chrootdir) ∧ opt_no_nul j.(hostname)
     ∧ opt_no_nul j.(alt_syscall_table) ∧ opt_no_nul j.(seccomp_policy_path)
     ∧ Forall no_nul j.(cgroups)) ∧
    (Forall wf_mount j.(mounts) ∧ Z.of_nat (length j.(mounts)) < 2 ^ 64) ∧
    (Forall wf_fs_rule j.(fs_rules) ∧ Z.of_nat (length j.(fs_rules)) < 2 ^ 64) ∧
    j.(fs_rules_fd) ≠ 0)));
    [split; tauto|intros []; tauto].
Defined.

(** The filter that is sent: only when filtering is on, and not an empty one. *)
Definition sent_filter (j : minijail) : option (list sock_filter) :=
  match j.(filter_prog) with
  | Some (i :: p) => if flag j F_seccomp_filter then Some (i :: p) else None
  | _ => None
  end.

(** Mounts force the mount namespace flag again when they are read. *)
Definition sent_flags (S : gset jflag) (ms : list mountpoint) : gset jflag :=
  if bool_decide (ms = []) || bool_decide (F_enter_vfs ∈ S) then S else {[F_vfs]} ∪ S.

(** What arrives of a jail. *)
Definition sent (j : minijail) : minijail :=
  j <| preload_path := None |> <| filename := None |> <| pid_file_path := None |>
    <| uidmap := None |> <| gidmap := None |> <| remounts := [] |> <| hooks := [] |>
    <| filter_prog := sent_filter j |> <| flags := sent_flags j.(flags) j.(mounts) |>.

(** ** Reading back the parts *)

Section RoundTrip.
Context {B : BuildConfig}.

Lemma consumestr_bytes s rest : no_nul s → consumestr ((s ++ [NUL]) ++ rest) = Some (s, rest).
Proof. intros H. rewrite <- app_assoc. by apply consumestr_app. Qed.

Lemma consume_opt_bytes o rest :
  opt_no_nul o → consume_opt (nonnull o) (opt_bytes o ++ rest) = Some (o, rest).
Proof.
  destruct o as [s|]; [|done]. intros H. unfold consume_opt; simpl nonnull; cbv iota.
  simpl opt_bytes. by rewrite consumestr_bytes.
Qed.

Lemma consume_enc {A} (c : codec A) P a rest :
  faithful c P → consumebytes (size c) (enc c a ++ rest) = Some (enc c a, rest).
Proof. intros Hc. rewrite <- (enc_size (c:=c) a). apply consumebytes_app. Qed.

Lemma mjoin_cons {A} (x : list A) l : mjoin (x :: l) = x ++ mjoin l.
Proof. done. Qed.

Lemma length_join_enc {A} (c : codec A) P l :
  faithful c P → length (mjoin (enc c <$> l)) = (length l * size c)%nat.
Proof.
  intros Hc. induction l as [|a l IH]; [done|]. rewrite fmap_cons; simpl mjoin.
  rewrite length_app, (enc_size (c:=c)). simpl length. rewrite Nat.mul_succ_l, Nat.add_comm. by f_equal.
Qed.

Lemma dec_array_join {A} (c : codec A) P l :
  faithful c P → Forall P l → dec_array c (length l) (mjoin (enc c <$> l)) = l.
Proof.
  intros Hc. induction 1 as [|a l Ha Hl IH]; [done|]. rewrite fmap_cons; simpl.
  pose proof (enc_size (c:=c) a) as Hs. rewrite take_app_length', drop_app_length' by done.
  rewrite (dec_enc (c:=c)) by done. by f_equal.
Qed.

Lemma consume_join {A} (c : codec A) P l rest :
  faithful c P →
  consumebytes (length l * size c) (mjoin (enc c <$> l) ++ rest) = Some (mjoin (enc c <$> l), rest).
Proof.
  intros Hc. pose proof (length_join_enc c P l Hc) as Hl. rewrite <- Hl. apply consumebytes_app.
Qed.

#[local] Instance faithful_gid : faithful c_gid (fits 4) := faithful_uint 4.

#[export] Instance faithful_instr : faithful c_instr wf_instr.
Proof.
  eapply faithful_map; [apply _|]. intros i (? & ? & ? & ?). split; [|by destruct i].
  simpl. unfold fits in *. repeat first [assumption | split].
Qed.

Lemma consume_gids_bytes o count rest :
  count = match o with Some l => Z.of_nat (length l) | None => 0 end →
  Z.of_nat (length (default [] o)) <= NGROUPS_MAX → Forall (fits 4) (default [] o) →
  consume_gids (nonnull o) count (gid_bytes o ++ rest) = Some (o, rest).
Proof.
  intros -> Hn HF. destruct o as [l|]; simpl in *; [|done]. unfold consume_gids.
  rewrite (proj2 (Z.ltb_ge _ _)) by done. rewrite Nat2Z.id.
  change 4%nat with (size c_gid). rewrite (consume_join c_gid (fits 4)) by apply _. simpl.
  rewrite (dec_array_join c_gid (fits 4)); [done|apply _|done].
Qed.

Lemma consume_filter_bytes j rest :
  tables_ok j → Z.of_nat (length (default [] j.(filter_prog))) <= USHRT_MAX →
  Forall wf_instr (default [] j.(filter_prog)) →
  consume_filter (bool_decide (F_seccomp_filter ∈ j.(flags))) j.(filter_len)
    (filter_bytes j ++ rest) = Some (sent_filter j, rest).
Proof.
  intros Ht Hn HF. rewrite (tok_filter _ Ht). unfold filter_bytes, sent_filter, consume_filter, flag.
  destruct (filter_prog j) as [p|]; simpl in Hn, HF.
  - destruct (bool_decide (F_seccomp_filter ∈ flags j)); simpl andb; cbv iota;
      destruct p as [|i p]; try done.
    rewrite (proj2 (Z.ltb_lt _ _)) by (simpl; lia).
    rewrite (proj2 (Z.ltb_ge _ _)) by done. rewrite Nat2Z.id.
    rewrite (consume_join c_instr wf_instr) by apply _. cbn [mbind option_bind].
    rewrite (dec_array_join c_instr wf_instr); [done|apply _|done].
  - by rewrite andb_false_r.
Qed.

(** *** Mounts *)

Definition with_mounts (S : gset jflag) (ms : list mountpoint) (n : Z) (j : minijail) : minijail :=
  j <| flags := S |> <| mounts := ms |> <| mounts_count := n |>.

Lemma with_mounts_id j : with_mounts j.(flags) j.(mounts) j.(mounts_count) j = j.
Proof. by destruct j. Qed.

Lemma with_mounts_twice S ms n S' ms' n' j :
  with_mounts S ms n (with_mounts S' ms' n' j) = with_mounts S ms n j.
Proof. done. Qed.

Lemma mount_with_data_again j m :
  wf_mount m →
  minijail_mount_with_data j m.(m_src) m.(m_dest) m.(m_type) m.(m_flags) m.(m_data) =
    (0, with_mounts (sent_flags j.(flags) [m]) (j.(mounts) ++ [m]) (u64 (j.(mounts_count) + 1)) j).
Proof.
  intros [_ _ Habs _ _ Hdef [_ Hf]]. unfold minijail_mount_with_data.
  rewrite bool_decide_true by done. simpl negb; cbv iota.
  rewrite (proj2 (Z.eqb_neq _ _)) by done. rewrite Hdef.
  replace {| m_src := _; m_dest := _; m_type := _; m_data := _; m_flags := _ |} with m by (by destruct m).
  unfold sent_flags, flag. rewrite (bool_decide_false ([m] = [])) by done. simpl orb.
  destruct (bool_decide (F_enter_vfs ∈ flags j)); simpl negb; cbv iota; [by destruct j|done].
Qed.

Lemma unmarshal_mount_spec j m rest :
  wf_mount m →
  unmarshal_mount j (mount_bytes m ++ rest) =
    (with_mounts (sent_flags j.(flags) [m]) (j.(mounts) ++ [m]) (u64 (j.(mounts_count) + 1)) j,
     Some rest).
Proof.
  intros Hm. pose proof Hm as [Hsrc Hdest _ Htype Hdata _ [Hfits _]].
  unfold unmarshal_mount, mount_bytes. rewrite <- !(app_assoc _ _ rest).
  rewrite consumestr_bytes by done. cbn [mbind option_bind].
  rewrite consumestr_bytes by done. cbn [mbind option_bind].
  rewrite consumestr_bytes by done. cbn [mbind option_bind].
  rewrite (consume_enc c_has_data is_int) by apply faithful_int. cbn [mbind option_bind].
  rewrite (dec_enc (c:=c_has_data) (P:=is_int)) by (destruct (nonnull _); unfold is_int; lia).
  replace (negb _) with (nonnull (m_data m)) by (by destruct (m_data m)).
  rewrite consume_opt_bytes by done. cbn [mbind option_bind].
  rewrite (consume_enc c_mount_flags (fits 8)) by apply faithful_uint. cbn [mbind option_bind].
  rewrite (dec_enc (c:=c_mount_flags) (P:=fits 8)) by done.
  by rewrite mount_with_data_again.
Qed.

Lemma sent_flags_cons S m ms : sent_flags (sent_flags S [m]) ms = sent_flags S (m :: ms).
Proof.
  unfold sent_flags. rewrite (bool_decide_false ([m] = [])), (bool_decide_false (m :: ms = [])) by done.
  simpl orb. destruct (decide (F_enter_vfs ∈ S)) as [H|H].
  - rewrite (bool_decide_true (F_enter_vfs ∈ S)) by done. cbv iota.
    rewrite (bool_decide_true (F_enter_vfs ∈ S)) by done. by destruct (bool_decide (ms = [])).
  - rewrite (bool_decide_false (F_enter_vfs ∈ S)) by done.
    case_bool_decide; [done|]. simpl. rewrite bool_decide_false.
    + apply leibniz_equiv. intros f. rewrite !elem_of_union. tauto.
    + rewrite elem_of_union, elem_of_singleton. naive_solver.
Qed.

Lemma u64_add_1 n a : u64 (u64 (n + 1) + Z.of_nat a) = u64 (n + Z.of_nat (S a)).
Proof. unfold uwrap. rewrite Zplus_mod_idemp_l. f_equal. lia. Qed.

Lemma unmarshal_mounts_spec ms j rest :
  Forall wf_mount ms → u64 j.(mounts_count) = j.(mounts_count) →
  unmarshal_mounts (length ms) j (mjoin (mount_bytes <$> ms) ++ rest) =
    (with_mounts (sent_flags j.(flags) ms) (j.(mounts) ++ ms)
       (u64 (j.(mounts_count) + Z.of_nat (length ms))) j, Some rest).
Proof.
  intros HF. revert j. induction HF as [|m ms Hm HF IH]; intros j Hn.
  - simpl. f_equal. rewrite app_nil_r, Z.add_0_r, Hn. symmetry. apply with_mounts_id.
  - rewrite fmap_cons. simpl. rewrite <- app_assoc, unmarshal_mount_spec by done.
    rewrite IH by apply Zmod_mod. f_equal.
    rewrite (with_mounts_twice _ _ _ (sent_flags (flags j) [m])).
    change (flags (with_mounts ?S _ _ _)) with S. change (mounts (with_mounts _ ?l _ _)) with l.
    change (mounts_count (with_mounts _ _ ?n _)) with n.
    rewrite sent_flags_cons, <- app_assoc, u64_add_1. done.
Qed.

(** *** Cgroups *)

Lemma unmarshal_cgroups_spec cs j rest (P : minijail * option (list ascii) → Prop) :
  Forall no_nul cs → (length j.(cgroups) + length cs <= MAX_CGROUPS)%nat →
  P (j <| cgroups := j.(cgroups) ++ cs |>, Some rest) →
  wp (unmarshal_cgroups (length cs) j (mjoin ((λ s, s ++ [NUL]) <$> cs) ++ rest)) P.
Proof.
  intros HF. revert j. induction HF as [|c cs Hc HF IH]; intros j Hlen HP.
  - simpl. rewrite app_nil_r in HP. replace (j <| cgroups := cgroups j |>) with j in HP; [done|by destruct j].
  - rewrite fmap_cons, mjoin_cons, <- (app_assoc (c ++ _)). cbn [length unmarshal_cgroups].
    rewrite consumestr_bytes by done. cbn [length] in Hlen. rewrite (proj2 (Nat.leb_gt _ _)) by lia. apply IH.
    + change (cgroups (j <| cgroups := ?l |>)) with l. rewrite length_app; simpl; lia.
    + change (cgroups (j <| cgroups := ?l |>)) with l. rewrite <- app_assoc. exact HP.
Qed.

(** *** Landlock rules *)

Definition with_rules (rs : list fs_rule) (n abi fd : Z) (j : minijail) : minijail :=
  j <| fs_rules := rs |> <| fs_rules_count := n |> <| fs_rules_landlock_abi := abi |>
    <| fs_rules_fd := fd |>.

Lemma with_rules_id j :
  with_rules j.(fs_rules) j.(fs_rules_count) j.(fs_rules_landlock_abi) j.(fs_rules_fd) j = j.
Proof. by destruct j. Qed.

Lemma with_rules_count rs n abi fd m j :
  with_rules rs n abi fd (j <| fs_rules_count := m |>) = with_rules rs n abi fd j.
Proof. done. Qed.

Lemma refer_supported_wp j (P : bool * minijail → Prop) :
  (∀ refer abi, (0 <= j.(fs_rules_landlock_abi) → abi = j.(fs_rules_landlock_abi)) →
     P (refer, j <| fs_rules_landlock_abi := abi |>)) →
  wp (fs_refer_restriction_supported j) P.
Proof.
  intros HP. unfold fs_refer_restriction_supported. apply wp_bind.
  assert (∀ b, P (b, j)) as HPj.
  { intros b. replace j with (j <| fs_rules_landlock_abi := j.(fs_rules_landlock_abi) |>)
      by (by destruct j). by apply HP. }
  destruct (_ <? 0) eqn:E; [|apply HPj]. apply Z.ltb_lt in E.
  intros a. simpl. destruct (0 <? rv a); [apply HP; lia|apply HPj].
Qed.

Lemma add_fs_restriction_path_wp j path f (P : Z * minijail → Prop) :
  (∀ abi fd, (0 <= j.(fs_rules_landlock_abi) → abi = j.(fs_rules_landlock_abi)) →
     P (0, with_rules (j.(fs_rules) ++ [{| fr_path := path; fr_landlock_flags := f |}])
             (u64 (j.(fs_rules_count) + 1)) abi fd j)) →
  wp (add_fs_restriction_path j path f) P.
Proof.
  intros HP. unfold add_fs_restriction_path. apply wp_bind.
  change (fs_rules_count (j <| fs_rules := _ |>)) with (fs_rules_count j).
  destruct (_ =? 0).
  - unfold setup_fs_rules_fd. apply wp_bind, wp_bind, refer_supported_wp.
    intros refer abi Habi a. simpl. by apply HP.
  - simpl. specialize (HP j.(fs_rules_landlock_abi) j.(fs_rules_fd) ltac:(done)).
    by destruct j.
Qed.

Lemma unmarshal_fs_rules_spec rs j rest (P : minijail * option (list ascii) → Prop) :
  Forall wf_fs_rule rs → u64 j.(fs_rules_count) = j.(fs_rules_count) →
  (∀ abi fd, (rs = [] ∨ 0 <= j.(fs_rules_landlock_abi) → abi = j.(fs_rules_landlock_abi)) →
     P (with_rules (j.(fs_rules) ++ rs) (u64 (j.(fs_rules_count) + Z.of_nat (length rs))) abi fd j,
        Some rest)) →
  wp (unmarshal_fs_rules (length rs) j (mjoin (fs_rule_bytes <$> rs) ++ rest)) P.
Proof.
  intros HF. revert j. induction HF as [|r rs (Hp & Hfit & Hf) HF IH]; intros j Hn HP.
  - specialize (HP j.(fs_rules_landlock_abi) j.(fs_rules_fd) ltac:(done)). simpl in *.
    by rewrite app_nil_r, Z.add_0_r, Hn, with_rules_id in HP.
  - rewrite fmap_cons, mjoin_cons. unfold fs_rule_bytes at 1. rewrite <- !(app_assoc _ _ _).
    cbn [length unmarshal_fs_rules].
    rewrite (app_assoc (fr_path r)), consumestr_bytes by done.
    rewrite (consume_enc c_landlock_flags (fits 8)) by apply faithful_uint.
    rewrite (dec_enc (c:=c_landlock_flags) (P:=fits 8)) by done.
    rewrite (proj2 (Z.eqb_neq _ _)) by done.
    apply wp_bind, add_fs_restriction_path_wp. intros abi fd Habi. apply IH; [apply Zmod_mod|].
    intros abi' fd' Habi'.
    change (fs_rules (with_rules ?l _ _ _ _)) with l.
    change (fs_rules_count (with_rules _ ?n _ _ _)) with n.
    change (fs_rules_landlock_abi (with_rules _ _ ?a _ _)) with a in Habi'.
    rewrite <- app_assoc, u64_add_1.
    replace {| fr_path := _; fr_landlock_flags := _ |} with r by (by destruct r).
    apply (HP abi' fd'). intros [?|H]; [done|]. rewrite <- Habi by done. apply Habi'. right.
    by rewrite Habi.
Qed.

(** *** The image and the whole *)

Lemma pad_length {A} n (x : A) l : (length l <= n)%nat → length (pad n x l) = n.
Proof. intros. unfold pad. rewrite length_app, length_replicate. lia. Qed.

Lemma pad_Forall {A} n (x : A) l (P : A → Prop) : P x → Forall P l → Forall P (pad n x l).
Proof. intros. apply list.Forall_app. split; [done|]. by apply Forall_replicate. Qed.

Lemma pad_take {A C} n (x : C) (f : A → C) (g : C → A) l :
  (∀ a, g (f a) = a) → g <$> take (Z.to_nat (Z.of_nat (length l))) (pad n x (f <$> l)) = l.
Proof.
  intros Hgf. rewrite Nat2Z.id. unfold pad. rewrite take_app_length' by (by rewrite length_fmap).
  rewrite <- list_fmap_compose. rewrite <- (list_fmap_id l) at 2. by apply list_fmap_ext; intros; simpl.
Qed.

Lemma u64_fits n : fits 8 (u64 n).
Proof. apply Z.mod_pos_bound. lia. Qed.

Lemma marshalable_image j : marshalable j → wf_image (image_of j).
Proof.
  intros [Ht H32 (? & ? & ? & ? & ?) Hi Hr Hfd [Hg _] [Hf _] _ _ _ _]. pose proof Ht as Ht'. destruct Ht.
  split; unfold image_of; simpl; [done| |done|].
  - rewrite tok_mounts, tok_fs_rules, tok_filter, tok_gids.
    destruct tok_rlimits as [Hrl _], tok_fds as [Hfds _].
    assert (∀ n : nat, Z.of_nat n <= 2 ^ 17 → fits 8 (Z.of_nat n)) as Hn by (unfold fits; lia).
    assert (fits 8 0) by (unfold fits; lia).
    unfold NGROUPS_MAX, USHRT_MAX, MAX_CGROUPS, MAX_RLIMITS, MAX_PRESERVED_FDS in *.
    split_and!; try apply u64_fits; try done; try (apply Hn; lia).
    + destruct (suppl_gid_list j); simpl in *; [apply Hn; lia|done].
    + destruct (filter_prog j); simpl in *; [apply Hn; lia|done].
  - rewrite !pad_length by (rewrite length_fmap; tauto). repeat split; try done.
    + apply pad_Forall; [unfold wf_rlimit, is_int, fits; simpl; lia|]. by apply list.Forall_fmap.
    + apply pad_Forall; [unfold wf_fd, is_int; simpl; lia|]. by apply list.Forall_fmap.
Qed.

(** The jail in front of the mounts: no list has been read yet. *)
Definition before_mounts (j : minijail) : minijail :=
  sent j <| flags := j.(flags) |> <| mounts := [] |> <| cgroups := [] |> <| fs_rules := [] |>
         <| seccomp_policy_path := None |>.

Lemma unmarshal_pointers_spec j rest :
  marshalable j →
  unmarshal_pointers (image_of j)
    (opt_bytes j.(user) ++ gid_bytes j.(suppl_gid_list) ++ opt_bytes j.(chrootdir)
     ++ opt_bytes j.(hostname) ++ opt_bytes j.(alt_syscall_table) ++ filter_bytes j ++ rest)
  = Some (before_mounts j, rest).
Proof.
  intros [Ht _ _ _ _ _ [Hg1 Hg2] [Hf1 Hf2] (Hu & Hc & Hh & Ha & _) _ _ _].
  unfold unmarshal_pointers. cbn [image_of im_user im_suppl_gid_list im_suppl_gid_count im_chrootdir
    im_hostname im_alt_syscall_table im_flags im_filter_len].
  rewrite consume_opt_bytes by done. cbn [mbind option_bind].
  rewrite consume_gids_bytes by (done || apply (tok_gids _ Ht)). cbn [mbind option_bind].
  do 3 (rewrite consume_opt_bytes by done; cbn [mbind option_bind]).
  rewrite consume_filter_bytes by done. cbn [mbind option_bind].
  f_equal. f_equal. unfold before_mounts, sent, of_image, image_of.
  cbn [im_rlimits im_rlimit_count im_preserved_fds im_preserved_fd_count].
  rewrite (pad_take _ _ rlimit_tuple rlimit_of) by (by intros []).
  rewrite (pad_take _ _ fd_tuple fd_of) by (by intros []).
  by destruct j.
Qed.

Lemma marshalable_counts j :
  marshalable j →
  Z.to_nat j.(mounts_count) = length j.(mounts) ∧ Z.to_nat j.(fs_rules_count) = length j.(fs_rules).
Proof.
  intros [Ht _ _ _ _ _ _ _ _ [_ Hm] [_ Hr] _].
  rewrite (tok_mounts _ Ht), (tok_fs_rules _ Ht), !uwrap_small by lia. lia.
Qed.

(** The jail after the mounts, after the cgroups, and at the end. *)
Definition after_mounts (j : minijail) : minijail :=
  before_mounts j <| flags := sent_flags j.(flags) j.(mounts) |> <| mounts := j.(mounts) |>.

Definition after_cgroups (j : minijail) : minijail := after_mounts j <| cgroups := j.(cgroups) |>.

(** Both sides of an equation between updates of [j], computed. *)
Ltac jail_eq j :=
  unfold after_cgroups, after_mounts, before_mounts, sent, with_rules, with_mounts;
  generalize (sent_flags (flags j) (mounts j)) as S, (sent_filter j) as p; intros S p;
  destruct j; vm_compute; reflexivity.

Lemma mounts_step j :
  marshalable j →
  ∀ rest, unmarshal_mounts (length j.(mounts)) (before_mounts j <| mounts_count := 0 |>)
            (mjoin (mount_bytes <$> j.(mounts)) ++ rest) = (after_mounts j, Some rest).
Proof.
  intros Hj rest. rewrite unmarshal_mounts_spec by (done || apply (ma_mounts _ Hj)).
  apply (f_equal (λ x, (x, Some rest))).
  change (mounts_count (before_mounts j <| mounts_count := 0 |>)) with 0.
  change (mounts (before_mounts j <| mounts_count := 0 |>)) with (@nil mountpoint).
  change (flags (before_mounts j <| mounts_count := 0 |>)) with (flags j).
  rewrite Z.add_0_l, <- (tok_mounts _ (ma_tables _ Hj)), app_nil_l. jail_eq j.
Qed.

Lemma cgroups_step j rest (P : minijail * option (list ascii) → Prop) :
  marshalable j → P (after_cgroups j, Some rest) →
  wp (unmarshal_cgroups (length j.(cgroups)) (after_mounts j)
        (mjoin ((λ s, s ++ [NUL]) <$> j.(cgroups)) ++ rest)) P.
Proof.
  intros Hj HP. apply unmarshal_cgroups_spec; [apply (ma_strings _ Hj)| |exact HP].
  apply (tok_cgroups _ (ma_tables _ Hj)).
Qed.

Lemma fs_rules_step j rest (P : minijail * option (list ascii) → Prop) :
  marshalable j →
  (∀ abi fd, (j.(fs_rules) = [] ∨ 0 <= j.(fs_rules_landlock_abi) → abi = j.(fs_rules_landlock_abi)) →
     P (with_rules j.(fs_rules) j.(fs_rules_count) abi fd (after_cgroups j), Some rest)) →
  wp (unmarshal_fs_rules (length j.(fs_rules)) (after_cgroups j <| fs_rules_count := 0 |>)
        (mjoin (fs_rule_bytes <$> j.(fs_rules)) ++ rest)) P.
Proof.
  intros Hj HP. apply unmarshal_fs_rules_spec; [apply (ma_fs_rules _ Hj)|done|]. intros abi fd Habi.
  change (fs_rules_count (after_cgroups j <| fs_rules_count := 0 |>)) with 0.
  change (fs_rules (after_cgroups j <| fs_rules_count := 0 |>)) with (@nil fs_rule).
  rewrite Z.add_0_l, <- (tok_fs_rules _ (ma_tables _ Hj)), app_nil_l.
  rewrite with_rules_count. apply HP. exact Habi.
Qed.

Lemma last_step j abi fd :
  with_rules j.(fs_rules) j.(fs_rules_count) abi fd (after_cgroups j)
    <| fs_rules_fd := j.(fs_rules_fd) |> <| seccomp_policy_path := j.(seccomp_policy_path) |>
  = sent j <| fs_rules_landlock_abi := abi |>.
Proof. jail_eq j. Qed.

Lemma unmarshal_serialize j0 j :
  marshalable j →
  wp (minijail_unmarshal j0 (serialize j)) (λ r,
    r.1 = 0 ∧ ∃ abi, (j.(fs_rules) = [] ∨ 0 <= j.(fs_rules_landlock_abi) →
                        abi = j.(fs_rules_landlock_abi)) ∧
              r.2 = sent j <| fs_rules_landlock_abi := abi |>).
Proof.
  intros Hj. pose proof (marshalable_counts j Hj) as [Hmc Hrc]. unfold minijail_unmarshal, serialize.
  rewrite (consume_enc c_image wf_image) by apply _.
  rewrite (dec_enc (c:=c_image) (P:=wf_image)) by (by apply marshalable_image).
  cbv zeta. rewrite unmarshal_pointers_spec by done.
  cbn [image_of im_mounts_count im_cgroup_count im_fs_rules_count im_seccomp_policy_path].
  rewrite Hmc, Hrc, Nat2Z.id, mounts_step by done.
  apply wp_bind, cgroups_step; [done|]. apply wp_bind, fs_rules_step; [done|]. intros abi fd Habi.
  destruct Hj, ma_strings0 as (_ & _ & _ & _ & Hpath & _), ma_ints0 as (_ & _ & _ & Hfd & _).
  rewrite (consume_enc c_int is_int), (dec_enc (c:=c_int) (P:=is_int))
    by (done || apply faithful_int).
  rewrite (proj2 (Z.eqb_neq _ _)) by done.
  rewrite <- (app_nil_r (opt_bytes _)), consume_opt_bytes by done. split; [done|]. exists abi.
  split; [exact Habi|]. apply last_step.
Qed.

Lemma serialize_nonempty j : (0 < length (serialize j))%nat.
Proof.
  assert (length (enc c_image (image_of j)) = size c_image) as H by apply (enc_size (P:=wf_image)).
  unfold serialize. rewrite length_app, H. apply Nat.add_pos_l. apply (bool_decide_unpack _). by vm_compute.
Qed.

(** C25: copying a jail through its bytes rebuilds it: every scalar, string, list,
    limit, descriptor, mount, cgroup, rule and the filter program, whatever the
    kernel answers meanwhile; the members that are not sent are empty, mounts force
    the mount namespace flag, and only the remembered Landlock version may be
    probed anew.  The jail has to be one whose bytes say all ([marshalable]): no NUL in a
    string, numbers within their width, counts that agree with their tables, at most
    NGROUPS_MAX supplementary groups, and a Landlock descriptor other than 0. *)
Theorem minijail_copy_jail_spec j out :
  marshalable j →
  wp (minijail_copy_jail j out) (λ r,
    r.1 = 0 ∧ ∃ abi, (j.(fs_rules) = [] ∨ 0 <= j.(fs_rules_landlock_abi) →
                        abi = j.(fs_rules_landlock_abi)) ∧
              r.2 = sent j <| fs_rules_landlock_abi := abi |>).
Proof.
  intros Hj. unfold minijail_copy_jail. cbv zeta. pose proof (serialize_nonempty j) as Hne.
  rewrite minijail_marshal_spec, minijail_size_spec, Nat.ltb_irrefl, take_ge by done.
  rewrite (proj2 (Nat.eqb_neq _ _)) by lia.
  by apply unmarshal_serialize.
Qed.

(** A truncated buffer: the flags of a rule are read through a null pointer. *)
Lemma unmarshal_fs_rules_truncated j path rest n :
  no_nul path → (length rest < size c_landlock_flags)%nat →
  unmarshal_fs_rules (S n) j ((path ++ [NUL]) ++ rest) = IUndef.
Proof.
  intros Hp Hr. cbn [unmarshal_fs_rules]. rewrite consumestr_bytes by done.
  unfold consumebytes. by rewrite (proj2 (Nat.ltb_lt _ _)).
Qed.
End RoundTrip.

(** ** An example *)

Definition example_jail : minijail :=
  minijail_new
    <| uid := 1000 |> <| user := Some (str "nobody") |> <| suppl_gid_count := 2 |>
    <| suppl_gid_list := Some [5; 6] |> <| chrootdir := Some (str "/var/empty") |>
    <| mounts := [{| m_src := str "/lib"; m_dest := str "/lib"; m_type := str "none";
                     m_data := None; m_flags := 4096 |}] |> <| mounts_count := 1 |>
    <| cgroups := [str "/sys/fs/cgroup/cpu/tasks"] |>
    <| rlimits := [{| rl_type := 7; rl_cur := 10; rl_max := 20 |}] |>
    <| preserved_fds := [{| parent_fd := 3; child_fd := 4 |}] |>
    <| fs_rules := [{| fr_path := str "/usr"; fr_landlock_flags := 5 |}] |> <| fs_rules_count := 1 |>
    <| filter_prog := Some [Instr 6 0 0 0] |> <| filter_len := 1 |>
    <| flags := {[F_uid; F_seccomp_filter]} |>.

Lemma example_marshalable : marshalable example_jail.
Proof. apply (bool_decide_unpack _). by vm_compute. Qed.

Lemma minijail_copy_jail_spec_witness :
  marshalable example_jail ∧
  wp (minijail_copy_jail example_jail minijail_new) (λ r,
    r.1 = 0 ∧ ∃ abi, (example_jail.(fs_rules) = [] ∨ 0 <= example_jail.(fs_rules_landlock_abi) →
                        abi = example_jail.(fs_rules_landlock_abi)) ∧
              r.2 = sent example_jail <| fs_rules_landlock_abi := abi |>).
Proof.
  split; [exact example_marshalable|].
  apply (minijail_copy_jail_spec example_jail minijail_new).
  exact example_marshalable.
Defined.
