(* ===== verification/FilterWidths.v ===== *)
(** * The instructions of a compiled policy fit their fields

    Every instruction the policy compiler emits keeps its operation code, jump offsets
    and operand within the widths of struct sock_filter, up to and with the resolved
    jumps: the program can be written out as bytes and read back. *)

From S2P Require Import Prelude CLib Util UtilProps Bpf SyscallFilter OS System Jail Codec Marshal MarshalProps.
Local Open Scope Z_scope.

(** What is true of the result when there is one. *)
Definition yields {A} (m : outcome A) (P : A → Prop) : Prop :=
  match m with Ret a => P a | _ => True end.

Lemma yields_bind {A C} (m : outcome A) (f : A → outcome C) P :
  yields m (λ a, yields (f a) P) → yields (m ≫= f) P.
Proof. by destruct m. Qed.

Lemma yields_mono {A} (m : outcome A) (P Q : A → Prop) : (∀ a, P a → Q a) → yields m P → yields m Q.
Proof. destruct m; simpl; auto. Qed.

Lemma yields_true {A} (m : outcome A) : yields m (λ _, True).
Proof. by destruct m. Qed.

Definition opt_all {A} (P : A → Prop) (o : option A) : Prop := match o with Some a => P a | None => True end.

Definition wf_blocks (h : fblocks) : Prop := Forall (Forall wf_instr) h.

(** ** Instructions *)

Lemma wf_set_bpf_instr c k_ t f : wf_instr (set_bpf_instr c k_ t f).
Proof. unfold wf_instr, fits. split_and!; by apply uwrap_range. Qed.

Create HintDb width.
#[local] Hint Extern 1 (wf_instr _) => apply wf_set_bpf_instr : width.

Ltac wf_code :=
  repeat first [apply list.Forall_app; split | apply list.Forall_cons; split | apply list.Forall_nil_2];
  auto with width.

Lemma wf_append h code : wf_blocks h → Forall wf_instr code → wf_blocks (append_filter_block h code).
Proof. intros Hh Hc. apply list.Forall_app. split; [done|]. by apply list.Forall_singleton. Qed.

Lemma wf_arg_comp op idx c id : opt_all (Forall wf_instr) (bpf_arg_comp op idx c id).
Proof.
  unfold bpf_arg_comp, comp_function_of. repeat case_match; simplify_eq; try exact I; cbn [opt_all].
  all: apply list.Forall_app; split; [by wf_code|]; apply list.Forall_app; split; [|by wf_code].
  all: unfold bpf_comp_jeq, bpf_comp_jgt, bpf_comp_jge, bpf_comp_jset, bpf_comp_jin, bpf_comp_jset,
    bpf_comp_jeq64, bpf_comp_jgt64, bpf_comp_jge64, bpf_comp_jset64; cbv zeta; try case_match; by wf_code.
Qed.

Section Compile.
Context {B : BuildConfig}.

(** ** Policy lines *)

Lemma wf_compile_atom h text labels nr idx :
  wf_blocks h → yields (compile_atom h text labels nr idx) (opt_all (λ r, wf_blocks r.1)).
Proof.
  intros Hh. unfold compile_atom. destruct (parse_atom text) as [a|]; [|done]. apply yields_bind.
  eapply yields_mono; [|apply yields_true]. intros [id labels'] _.
  pose proof (wf_arg_comp a.(at_op) a.(at_argidx) a.(at_const) id) as Hc.
  destruct (bpf_arg_comp _ _ _ _); [|done]. by apply wf_append.
Qed.

Lemma wf_compile_atoms atoms h labels nr idx :
  wf_blocks h → yields (compile_atoms h atoms labels nr idx) (opt_all (λ r, wf_blocks r.1)).
Proof.
  revert h labels. induction atoms as [|a atoms IH]; intros h labels Hh; [done|]. cbn [compile_atoms].
  apply yields_bind. eapply yields_mono; [|by apply wf_compile_atom]. intros [[h' labels']|] H; [|done].
  by apply IH.
Qed.

Lemma wf_compile_groups groups h labels nr idx :
  wf_blocks h → yields (compile_groups h groups labels nr idx) (opt_all (λ r, wf_blocks r.1)).
Proof.
  revert h labels idx. induction groups as [|g groups IH]; intros h labels idx Hh; [done|]. cbn [compile_groups].
  apply yields_bind. eapply yields_mono; [|by apply wf_compile_atoms]. intros [[h' labels']|] H; [|done].
  apply yields_bind. eapply yields_mono; [|apply yields_true]. intros [id1 l1] _.
  apply yields_bind. eapply yields_mono; [|apply yields_true]. intros [id2 l2] _.
  apply IH. apply wf_append; [done|by wf_code].
Qed.

Lemma wf_compile_errno h text act : wf_blocks h → opt_all wf_blocks (compile_errno h text act).
Proof.
  intros Hh. unfold compile_errno. repeat case_match; simplify_eq; try exact I; cbn [opt_all];
    (apply wf_append; [done|by wf_code]).
Qed.

Lemma wf_append_default h act : wf_blocks h → wf_blocks (append_default h act).
Proof. intros Hh. destruct act; (apply wf_append; [done|by wf_code]). Qed.

Lemma wf_compile_policy_line nr line id labels act :
  yields (compile_policy_line nr line id labels act) (opt_all (λ r, wf_blocks r.1)).
Proof.
  assert (wf_blocks (append_filter_block new_filter_block [set_bpf_lbl id])) as Hh.
  { apply wf_append; [apply list.Forall_nil_2|by wf_code]. }
  unfold compile_policy_line. destruct (bool_decide _); [done|].
  destruct (starts_with _ _).
  { pose proof (wf_compile_errno _ line act Hh) as H. by destruct (compile_errno _ _ _). }
  destruct (match strtok _ _ with Some _ => _ | None => _ end) as [arg_filter ret_errno].
  apply yields_bind. eapply yields_mono; [|by apply wf_compile_groups]. intros [[h labels']|] H; [|done].
  assert (opt_all wf_blocks (match ret_errno with
                             | Some e => compile_errno h e act
                             | None => Some (append_default h act) end)) as H'.
  { destruct ret_errno; [by apply wf_compile_errno|by apply wf_append_default]. }
  destruct (match ret_errno with Some _ => _ | None => _ end) as [h'|]; [|done].
  apply yields_bind. eapply yields_mono; [|apply yields_true]. intros [id' l'] _.
  apply wf_append; [done|by wf_code].
Qed.

(** ** Policy files *)

Definition wf_compiler (c : compiler) : Prop := wf_blocks c.(c_head) ∧ opt_all wf_blocks c.(c_arg_blocks).

Lemma wf_compile_regular_line opts st name rule ret c :
  wf_compiler c → yields (compile_regular_line opts st name rule ret c) (λ r, wf_compiler r.2).
Proof.
  intros [Hh Ha]. unfold compile_regular_line. destruct (lookup_syscall name) as [nr ind].
  destruct (nr <? 0); [destruct (allow_logging opts); by split|].
  apply yields_bind. eapply yields_mono; [|apply yields_true]. intros [fresh previous] _. cbv zeta.
  destruct (streq rule _).
  { split; [|done]. apply wf_append; [done|by wf_code]. }
  destruct (bpf_label_id _ _) as [lid labels].
  assert (wf_blocks (append_filter_block (c_head c) (bpf_allow_syscall_args nr (u32 lid)))) as Hh'.
  { apply wf_append; [done|by wf_code]. }
  apply yields_bind. eapply yields_mono; [|apply wf_compile_policy_line]. intros [[block labels']|] H; [|by split].
  split; [done|].
  change (wf_blocks match c_arg_blocks c with Some a => extend_filter_block_list a block | None => block end).
  cbn in H. destruct (c_arg_blocks c); [|done]. by apply list.Forall_app.
Qed.

Variable fs : cstr → option (list ascii).

Lemma wf_compile_lines include opts level filename fuel stream n ret c :
  (∀ name contents c, wf_compiler c → yields (include name contents c) (λ r, wf_compiler r.2)) →
  wf_compiler c → yields (compile_lines fs include opts level filename fuel stream n ret c) (λ r, wf_compiler r.2).
Proof.
  intros Hi. revert stream n ret c. induction fuel as [|fuel IH]; intros stream n ret c Hc; [done|].
  cbn [compile_lines]. destruct (getmultiline stream) as [[line|] rest]; [|done]. cbv zeta.
  destruct (bool_decide _ || bool_decide _); [by apply IH|]. destruct (bool_decide _).
  - destruct (starts_with _ _); [by apply IH|]. destruct (parse_include_statement _ _) as [name|]; [|done].
    destruct (fs name) as [contents|]; [|done]. apply yields_bind. eapply yields_mono; [|by apply Hi].
    intros [r c'] H. destruct (r =? -1); [done|by apply IH].
  - destruct (split_policy_line _) as [[name rule]|]; [|done]. apply yields_bind.
    eapply yields_mono; [|by apply wf_compile_regular_line]. intros [[go ret'] c'] H. destruct go; [by apply IH|done].
Qed.

Lemma wf_compile_file opts level filename stream c :
  wf_compiler c → yields (compile_file fs opts level filename stream c) (λ r, wf_compiler r.2).
Proof. apply wf_compile_lines. intros name contents c'. by apply wf_compile_lines. Qed.

(** ** The whole program *)

Lemma wf_flatten_block instrs filter index cap :
  Forall wf_instr instrs → Forall wf_instr filter →
  opt_all (λ r, Forall wf_instr r.1) (flatten_block instrs filter index cap).
Proof.
  revert filter index. induction instrs as [|i instrs IH]; intros filter index; [done|].
  intros [Hi His]%list.Forall_cons Hf. cbn. destruct (_ <=? _)%nat; [done|]. apply IH; [done|].
  by apply Forall_insert.
Qed.

Lemma wf_flatten_block_list blocks filter index cap :
  wf_blocks blocks → Forall wf_instr filter →
  opt_all (Forall wf_instr) (flatten_block_list blocks filter index cap).
Proof.
  revert filter index. induction blocks as [|b blocks IH]; intros filter index; [done|].
  intros [Hb Hbs]%list.Forall_cons Hf. cbn. pose proof (wf_flatten_block b filter index cap Hb Hf) as H.
  destruct (flatten_block _ _ _ _) as [[filter' index']|]; [|done]. by apply IH.
Qed.

Lemma wf_resolve_one labels offset i :
  wf_instr i → yields (resolve_one labels offset i) (opt_all (λ r, wf_instr r.2)).
Proof.
  intros (Hc & Hjt & Hjf & Hk). assert (∀ n, fits n 0) as H0 by (intros n; split; [done|by apply Z.pow_pos_nonneg; lia]).
  unfold resolve_one. repeat case_match; try exact I; cbn; unfold wf_instr; cbn; split_and!; try done.
  by apply uwrap_range.
Qed.

Lemma wf_resolve_from labels offset prog :
  Forall wf_instr prog → yields (resolve_from labels offset prog) (opt_all (λ r, Forall wf_instr r.2)).
Proof.
  revert offset. induction prog as [|i prog IH]; intros offset; [done|]. intros [Hi Hp]%list.Forall_cons.
  cbn [resolve_from]. apply yields_bind. eapply yields_mono; [|by apply IH]. intros [[labels' rest]|] H; [|done].
  apply yields_bind. eapply yields_mono; [|by apply wf_resolve_one]. intros [[labels'' i']|] Hi'; [|done].
  by constructor.
Qed.

Lemma wf_link_filter head arg_blocks labels :
  wf_blocks head → opt_all wf_blocks arg_blocks →
  yields (link_filter head arg_blocks labels) (opt_all (Forall wf_instr)).
Proof.
  intros Hh Ha. unfold link_filter. cbv zeta. destruct (_ <? _)%nat; [done|].
  set (len := (_ + _)%nat). clearbody len.
  assert (Forall wf_instr (replicate len zero_instr)) as Hz.
  { apply Forall_replicate. apply (bool_decide_unpack _). by vm_compute. }
  pose proof (wf_flatten_block_list head _ 0 len Hh Hz) as H1.
  destruct (flatten_block_list _ _ _ _) as [f1|]; [|done].
  assert (wf_blocks (default [] arg_blocks)) as Ha' by (destruct arg_blocks; [done|apply list.Forall_nil_2]).
  pose proof (wf_flatten_block_list _ f1 (total_len head) len Ha' H1) as H2.
  destruct (flatten_block_list _ _ _ _) as [f2|]; [|done].
  apply yields_bind. unfold bpf_resolve_jumps. destruct (_ <? _)%nat; [done|].
  eapply yields_mono; [|by apply wf_resolve_from]. by intros [[]|].
Qed.

Lemma compile_filter_widths opts filename file :
  yields (compile_filter fs opts filename file) (opt_all (Forall wf_instr)).
Proof.
  unfold compile_filter. destruct file as [stream|]; [|done]. cbv zeta. apply yields_bind.
  assert (∀ names h, wf_blocks h → wf_blocks (allow_logging_syscalls_of names h)) as Hlog.
  { intros names. induction names as [|n names IH]; intros h Hh; [done|]. cbn. apply IH, wf_append; [done|by wf_code]. }
  eapply yields_mono; [|apply wf_compile_file].
  - intros [r c] [Hh Ha]. destruct (r =? 0); [|done]. cbn in Hh, Ha. cbn [negb].
    assert (opt_all wf_blocks (append_final (c_head c) opts)) as Hf.
    { unfold append_final. repeat case_match; try exact I; (apply wf_append; [done|by wf_code]). }
    destruct (append_final _ _); [|done]. by apply wf_link_filter.
  - split; [|exact I]. cbn [c_head].
    assert (wf_blocks (append_filter_block (append_filter_block new_filter_block bpf_validate_arch)
                         [bpf_load_syscall_nr])) as H0.
    { apply wf_append; [apply wf_append; [apply list.Forall_nil_2|]|]; by wf_code. }
    destruct (allow_syscalls_for_logging opts); [by apply Hlog|done].
Qed.
End Compile.
