(* ===== verification/Enter.v ===== *)
(** * Entering a jail (libminijail.c, from mount_dev to minijail_enter)

    Every function is a program of calls.  pdie() and die() end the process;
    _exit() is a call after which nothing more happens. *)

From S2P Require Import Prelude CLib Util Bpf SyscallFilter OS System Jail.
Local Open Scope Z_scope.

(** ** /dev *)

Record dev_spec := { ds_name : cstr; ds_mode : Z; ds_major : Z; ds_minor : Z }.

Definition S_IFCHR : Z := 8192.

Definition device_nodes : list dev_spec := [
  {| ds_name := str "null"; ds_mode := Z.lor S_IFCHR 438; ds_major := 1; ds_minor := 3 |};
  {| ds_name := str "zero"; ds_mode := Z.lor S_IFCHR 438; ds_major := 1; ds_minor := 5 |};
  {| ds_name := str "full"; ds_mode := Z.lor S_IFCHR 438; ds_major := 1; ds_minor := 7 |};
  {| ds_name := str "urandom"; ds_mode := Z.lor S_IFCHR 292; ds_major := 1; ds_minor := 9 |};
  {| ds_name := str "tty"; ds_mode := Z.lor S_IFCHR 438; ds_major := 5; ds_minor := 0 |}].

(** Source (the link) and destination (what it points to). *)
Definition device_symlinks : list (cstr * cstr) := [
  (str "ptmx", str "pts/ptmx");
  (str "fd", str "/proc/self/fd");
  (str "stdin", str "fd/0");
  (str "stdout", str "fd/1");
  (str "stderr", str "fd/2")].

Definition mount_dev_cleanup (dev_path : cstr) : io unit :=
  _ ← call (Umount2 dev_path MNT_DETACH);
  _ ← call (Rmdir dev_path);
  mret tt.

Fixpoint make_nodes (dev_fd : Z) (nodes : list dev_spec) : io Z :=
  match nodes with
  | [] => mret 0
  | ds :: rest =>
      a ← call (Mknodat dev_fd ds.(ds_name) ds.(ds_mode) ds.(ds_major) ds.(ds_minor));
      if rv a =? 0 then make_nodes dev_fd rest else mret (rv a)
  end.

Fixpoint make_symlinks (dev_fd : Z) (links : list (cstr * cstr)) : io Z :=
  match links with
  | [] => mret 0
  | (source, dest) :: rest =>
      a ← call (Symlinkat dest dev_fd source);
      if rv a =? 0 then make_symlinks dev_fd rest else mret (rv a)
  end.

(** The return value and the path of the temporary directory, which mkdtemp(3)
    has written over its template. *)
Definition mount_dev : io (Z * cstr) :=
  a ← call (Mkdtemp (str "/tmp/minijail.dev.XXXXXX"));
  match bytes a with
  | None => IDie
  | Some dev_path =>
      a ← call (Mount (Some (str "minijail-devfs")) dev_path (Some (str "tmpfs"))
                  (Z.lor MS_NOEXEC MS_NOSUID) (Some (str "size=5M,mode=755")));
      if negb (rv a =? 0) then (_ ← call (Rmdir dev_path); mret (rv a, dev_path))
      else
        m ← call (Umask 0);
        a ← call (Open dev_path (Z.lor O_DIRECTORY (Z.lor O_PATH O_CLOEXEC)) 0);
        let dev_fd := rv a in
        ret ← (if dev_fd <? 0 then mret 1
               else
                 ret ← make_nodes dev_fd device_nodes;
                 if negb (ret =? 0) then mret ret
                 else
                   ret ← make_symlinks dev_fd device_symlinks;
                   if negb (ret =? 0) then mret ret
                   else (a ← call (Mkdirat dev_fd (str "shm") 1023); mret (rv a)));
        _ ← call (Umask (rv m));
        _ ← (if negb (ret =? 0) then mount_dev_cleanup dev_path else mret tt);
        _ ← cleanup_fd dev_fd;
        mret (ret, dev_path)
  end.

Definition mount_dev_finalize (j : minijail) (dev_path : cstr) : io Z :=
  a ← call (Umount2 (str "/dev") MNT_DETACH);
  ret ← (if negb (rv a =? 0) then mret (-1)
         else
           a ← call (Mount (Some dev_path) (default [] j.(chrootdir) ++ str "/dev") None MS_MOVE None);
           mret (if negb (rv a =? 0) then -1 else 0));
  _ ← mount_dev_cleanup dev_path;
  mret ret.

(** ** Mounts *)

Definition MS_USER_SETTABLE_MASK : Z :=
  or_all [MS_NOSUID; MS_NODEV; MS_NOEXEC; MS_NOATIME; MS_NODIRATIME; MS_RELATIME; MS_RDONLY].

(** Where a mount point goes: under the temporary /dev or under the new root. *)
Definition mount_dest (j : minijail) (m : mountpoint) (dev_path : option cstr) : cstr :=
  match dev_path with
  | Some dp => if starts_with (str "/dev/") m.(m_dest) then dp ++ drop 4 m.(m_dest)
               else default [] j.(chrootdir) ++ m.(m_dest)
  | None => default [] j.(chrootdir) ++ m.(m_dest)
  end.

Section Mounts.
Context {B : BuildConfig}.

(** The query of the source's flags: [None] is the goto error; otherwise the flags
    to add to the remount, if one is needed. *)
Definition bind_remount_flags (m : mountpoint) : io (option (option Z)) :=
  if mount_has_bind_flag m && streq m.(m_type) (str "minijail_bind")
     && (Z.land m.(m_flags) MS_REMOUNT =? 0) then
    r ← get_mount_flags m.(m_src);
    match r with
    | inl _ => mret None
    | inr original =>
        if Z.land m.(m_flags) MS_RDONLY =? Z.land original MS_RDONLY then mret (Some None)
        else mret (Some (Some (Z.land original (Z.ldiff MS_USER_SETTABLE_MASK MS_RDONLY))))
    end
  else mret (Some None).

(** The list from [m] on; the recursion of the code is the one on the list.  Both
    goto error in front of the first mount(2) leave [ret] at 0. *)
Fixpoint mount_one (j : minijail) (ms : list mountpoint) (dev_path : option cstr) : io Z :=
  match ms with
  | [] => mret 0
  | m :: next =>
      let dest := mount_dest j m dev_path in
      let has_bind_flag := mount_has_bind_flag m in
      let has_remount_flag := negb (Z.land m.(m_flags) MS_REMOUNT =? 0) in
      ret ← setup_mount_destination m.(m_src) dest j.(uid) j.(gid) has_bind_flag;
      if negb (ret =? 0) then mret ret
      else
        q ← bind_remount_flags m;
        match q with
        | None => mret ret
        | Some do_remount =>
            valid ← (if has_bind_flag && negb has_remount_flag then is_valid_bind_path m.(m_src)
                     else mret true);
            if negb valid then mret ret
            else
              a ← call (Mount (Some m.(m_src)) dest (Some m.(m_type)) m.(m_flags) m.(m_data));
              if negb (rv a =? 0) then mret (rv a)
              else
                ret ← match do_remount with
                      | None => mret 0
                      | Some original =>
                          a ← call (Mount (Some m.(m_src)) dest None
                                      (Z.lor m.(m_flags) (Z.lor original MS_REMOUNT)) m.(m_data));
                          mret (rv a)
                      end;
                if negb (ret =? 0) then mret ret else mount_one j next dev_path
        end
  end.

Definition MINIJAIL_ERR_MOUNT : Z := 251.

Definition process_mounts_or_die (j : minijail) : io unit :=
  dev_path ← (if flag j F_mount_dev
              then '(ret, p) ← mount_dev; if negb (ret =? 0) then IDie else mret (Some p)
              else mret None);
  ret ← mount_one j j.(mounts) dev_path;
  if negb (ret =? 0) then
    _ ← match dev_path with Some p => mount_dev_cleanup p | None => mret tt end;
    _ ← call (Exit MINIJAIL_ERR_MOUNT);
    IDie
  else
    match dev_path with
    | Some p => ret ← mount_dev_finalize j p; if negb (ret =? 0) then IDie else mret tt
    | None => mret tt
    end.
End Mounts.

(** ** Hooks and the root directory *)

Fixpoint run_hooks (hs : list hook) (event : Z) : io unit :=
  match hs with
  | [] => mret tt
  | h :: rest =>
      if h.(h_event) =? event then
        a ← call (RunHook h.(h_hook) h.(h_payload));
        if rv a =? 0 then run_hooks rest event else IDie
      else run_hooks rest event
  end.

Definition run_hooks_or_die (j : minijail) (event : Z) : io unit := run_hooks j.(hooks) event.

(** chroot(2) refuses a null path. *)
Definition enter_chroot (j : minijail) : io Z :=
  _ ← run_hooks_or_die j MINIJAIL_HOOK_EVENT_PRE_CHROOT;
  match j.(chrootdir) with
  | None => mret (- EFAULT)
  | Some dir =>
      a ← call (Chroot dir);
      if negb (rv a =? 0) then mret (- eno a)
      else
        a ← call (Chdir (str "/"));
        if negb (rv a =? 0) then mret (- eno a) else mret 0
  end.

(** The calls of the switch once both directories are open; its early returns are
    errno values. *)
Definition pivot (dir : cstr) (oldroot newroot : Z) : io Z :=
  a ← call (Mount (Some dir) dir (Some (str "bind")) (Z.lor MS_BIND MS_REC) (Some []));
  if negb (rv a =? 0) then IDie else
  a ← call (Chdir dir);
  if negb (rv a =? 0) then mret (- eno a) else
  a ← call (PivotRoot (str ".") (str "."));
  if negb (rv a =? 0) then IDie else
  a ← call (Fchdir oldroot);
  if negb (rv a =? 0) then IDie else
  a ← call (Mount None (str ".") None (Z.lor MS_REC MS_PRIVATE) None);
  if negb (rv a =? 0) then IDie else
  a ← call (Umount2 (str ".") MNT_DETACH);
  if negb (rv a =? 0) then IDie else
  a ← call (Fchdir newroot);
  if negb (rv a =? 0) then mret (- eno a) else
  a ← call (Chroot (str "/"));
  if negb (rv a =? 0) then mret (- eno a) else
  a ← call (Chdir (str "/"));
  if negb (rv a =? 0) then mret (- eno a) else mret 0.

(** open(2) refuses a null path. *)
Definition enter_pivot_root (j : minijail) : io Z :=
  _ ← run_hooks_or_die j MINIJAIL_HOOK_EVENT_PRE_CHROOT;
  let oflag := Z.lor O_DIRECTORY (Z.lor O_RDONLY O_CLOEXEC) in
  a ← call (Open (str "/") oflag 0);
  let oldroot := rv a in
  if oldroot <? 0 then IDie
  else
    match j.(chrootdir) with
    | None => IDie
    | Some dir =>
        a ← call (Open dir oflag 0);
        let newroot := rv a in
        if newroot <? 0 then IDie
        else
          ret ← pivot dir oldroot newroot;
          _ ← cleanup_fd newroot;
          _ ← cleanup_fd oldroot;
          mret ret
    end.

Section Enter.
Context {B : BuildConfig}.

(** sizeof(fmt) + sizeof("18446744073709551615ULL") *)
Definition tmp_data_size : nat := 43.

Definition mount_tmp (j : minijail) : io Z :=
  let data := str "size=" ++ fmt_d j.(tmpfs_size) ++ str ",mode=1777" in
  if (tmp_data_size <=? length data)%nat then IDie
  else
    let mf := Z.lor MS_NODEV (Z.lor MS_NOEXEC MS_NOSUID) in
    let mf := if block_symlinks_in_noninit_mountns_tmp then Z.lor mf MS_NOSYMFOLLOW else mf in
    a ← call (Mount (Some (str "none")) (str "/tmp") (Some (str "tmpfs")) mf (Some data));
    mret (rv a).

Definition remount_proc_readonly (j : minijail) : io Z :=
  let kSafeFlags := Z.lor MS_NODEV (Z.lor MS_NOEXEC MS_NOSUID) in
  ret ← (if flag j F_userns then mret 0
         else (a ← call (Umount2 (str "/proc") MNT_DETACH);
               mret (if negb (rv a =? 0) then - eno a else 0)));
  if negb (ret =? 0) then mret ret
  else
    a ← call (Mount (Some (str "proc")) (str "/proc") (Some (str "proc"))
                (Z.lor kSafeFlags MS_RDONLY) (Some []));
    mret (if negb (rv a =? 0) then - eno a else 0).

(** ** Identity *)

Definition drop_ugid (j : minijail) : io unit :=
  let count := (Z.b2z (flag j F_inherit_suppl_gids) + Z.b2z (flag j F_keep_suppl_gids)
                + Z.b2z (flag j F_set_suppl_gids)) in
  if 1 <? count then IDie
  else
    _ ← (if flag j F_inherit_suppl_gids then
           match j.(user) with
           | None => IUndef
           | Some name =>
               a ← call (Initgroups name j.(usergid));
               if negb (rv a =? 0) then IDie else mret tt
           end
         else if flag j F_set_suppl_gids then
           a ← call (Setgroups (default [] j.(suppl_gid_list)));
           if negb (rv a =? 0) then IDie else mret tt
         else if negb (flag j F_keep_suppl_gids) && negb (flag j F_disable_setgroups) then
           if flag j F_uid || flag j F_gid then
             a ← call (Setgroups []);
             if negb (rv a =? 0) then IDie else mret tt
           else mret tt
         else mret tt);
    _ ← (if flag j F_gid then
           a ← call (Setresgid j.(gid));
           if negb (rv a =? 0) then IDie else mret tt
         else mret tt);
    if flag j F_uid then
      a ← call (Setresuid j.(uid));
      if negb (rv a =? 0) then IDie else mret tt
    else mret tt.

(** ** Capabilities *)

(** for (i = from; i < from + n && i <= last; ++i) body(i) *)
Fixpoint for_caps (n : nat) (i last : Z) (body : Z → io unit) : io unit :=
  match n with
  | O => mret tt
  | S n => if i <=? last then (_ ← body i; for_caps n (i + 1) last body) else mret tt
  end.

Definition drop_capbset (keep_mask last_valid_cap : Z) : io unit :=
  for_caps 64 0 last_valid_cap (λ i,
    if Z.testbit keep_mask i then mret tt
    else (a ← call (Prctl PR_CAPBSET_DROP [i]); if negb (rv a =? 0) then IDie else mret tt)).

Definition CAP_SETPCAP : Z := 8.
Definition CAP_EFFECTIVE : Z := 0.
Definition CAP_PERMITTED : Z := 1.
Definition CAP_INHERITABLE : Z := 2.

(** A call that has to return 0. *)
Definition or_die (c : oscall) : io unit := a ← call c; if negb (rv a =? 0) then IDie else mret tt.

Definition set_cap_flags (cap : Z) (on : bool) : io unit :=
  _ ← or_die (CapSetFlag CAP_EFFECTIVE cap on);
  _ ← or_die (CapSetFlag CAP_PERMITTED cap on);
  or_die (CapSetFlag CAP_INHERITABLE cap on).

(** The capabilities that are kept at first: those asked for and CAP_SETPCAP. *)
Definition raise_caps (j : minijail) (last_valid_cap : Z) : io unit :=
  for_caps 64 0 last_valid_cap (λ i,
    if negb (i =? CAP_SETPCAP) && negb (Z.testbit j.(caps) i) then mret tt else set_cap_flags i true).

Definition set_ambient (j : minijail) (last_valid_cap : Z) : io unit :=
  if flag j F_set_ambient_caps then
    supported ← cap_ambient_supported;
    if negb supported then IDie
    else
      _ ← or_die (Prctl PR_CAP_AMBIENT [PR_CAP_AMBIENT_CLEAR_ALL; 0; 0; 0]);
      for_caps 64 0 last_valid_cap (λ i,
        if Z.testbit j.(caps) i then or_die (Prctl PR_CAP_AMBIENT [PR_CAP_AMBIENT_RAISE; i; 0; 0])
        else mret tt)
  else mret tt.

Definition drop_caps (j : minijail) (last_valid_cap : Z) : io unit :=
  if negb (flag j F_use_caps) then mret tt
  else
    a ← call CapGetProc;
    if rv a =? 0 then IDie
    else
      _ ← or_die CapClear;
      _ ← raise_caps j last_valid_cap;
      _ ← or_die CapSetProc;
      _ ← (if secure_noroot_set_and_locked (u64 (Z.lnot j.(securebits_skip_mask)))
           then drop_capbset j.(caps) last_valid_cap else mret tt);
      _ ← (if Z.testbit j.(caps) CAP_SETPCAP then mret tt else set_cap_flags CAP_SETPCAP false);
      _ ← or_die CapSetProc;
      _ ← set_ambient j last_valid_cap;
      _ ← call CapFree;
      mret tt.

(** ** Landlock and seccomp *)

Fixpoint populate_rules (rs : list fs_rule) (ruleset_fd : Z) : io unit :=
  match rs with
  | [] => mret tt
  | r :: rest =>
      _ ← populate_ruleset_internal r.(fr_path) ruleset_fd r.(fr_landlock_flags);
      populate_rules rest ruleset_fd
  end.

Definition apply_landlock_restrictions (j : minijail) : io unit :=
  if negb (flag j F_enable_fs_restrictions) || bool_decide (j.(fs_rules) = []) then mret tt
  else
    available ← minijail_is_fs_restriction_available;
    _ ← (if available : bool then populate_rules j.(fs_rules) j.(fs_rules_fd) else mret tt);
    if 0 <=? j.(fs_rules_fd) then
      _ ← or_die (LandlockRestrictSelf j.(fs_rules_fd));
      _ ← call (Close j.(fs_rules_fd));
      mret tt
    else mret tt.

Definition set_no_new_privs (j : minijail) : io unit :=
  if flag j F_no_new_privs then
    b ← sys_set_no_new_privs; if negb b then IDie else mret tt
  else mret tt.

Definition install_sigsys_handler : io Z :=
  a ← call (Sigaction SIGSYS);
  if rv a <? 0 then mret (rv a)
  else
    a ← call (SigUnblock SIGSYS);
    if rv a <? 0 then mret (rv a) else mret 0.

(** The handling of SIGSYS before the filter is installed; signal(2) reports an
    error as -1. *)
Definition prepare_sigsys (j : minijail) : io unit :=
  if seccomp_is_logging_allowed j then
    available ← seccomp_ret_log_available;
    if available : bool then mret tt
    else (ret ← install_sigsys_handler; if negb (ret =? 0) then IDie else mret tt)
  else if flag j F_seccomp_filter_tsync then
    a ← call (SignalDefault SIGSYS);
    if rv a =? -1 then IDie else mret tt
  else mret tt.

(** The call that installs the filter. *)
Definition install_call (j : minijail) : oscall :=
  if flag j F_seccomp_filter_tsync || flag j F_seccomp_filter_allow_speculation then
    SysSeccomp SECCOMP_SET_MODE_FILTER
      (Z.lor (if flag j F_seccomp_filter_tsync then SECCOMP_FILTER_FLAG_TSYNC else 0)
         (if flag j F_seccomp_filter_allow_speculation then SECCOMP_FILTER_FLAG_SPEC_ALLOW else 0))
      j.(filter_prog)
  else PrctlSeccomp j.(filter_prog).

Definition set_seccomp_filter (j : minijail) : io unit :=
  if flag j F_seccomp_filter && running_with_asan then mret tt
  else if flag j F_seccomp_filter then (_ ← prepare_sigsys j; or_die (install_call j))
  else mret tt.

(** ** minijail_enter *)

Fixpoint remount_all (root_mode : Z) (rs : list remount) : io unit :=
  match rs with
  | [] => mret tt
  | r :: rest =>
      if r.(remount_remount_mode) <? root_mode then IDie
      else
        _ ← or_die (Mount None r.(remount_mount_name) None
                      (Z.lor MS_REC r.(remount_remount_mode)) None);
        remount_all root_mode rest
  end.

Definition enter_mount_namespace (j : minijail) : io unit :=
  _ ← (if flag j F_enter_vfs then
         _ ← or_die (Setns j.(mountns_fd) CLONE_NEWNS);
         _ ← call (Close j.(mountns_fd));
         mret tt
       else mret tt);
  if flag j F_vfs then
    _ ← or_die (Unshare CLONE_NEWNS);
    if negb (j.(remount_mode) =? 0) then
      _ ← or_die (Mount None (str "/") None (Z.lor MS_REC j.(remount_mode)) None);
      remount_all j.(remount_mode) j.(remounts)
    else mret tt
  else mret tt.

Definition KEYCTL_JOIN_SESSION_KEYRING : Z := 1.

Definition enter_other_namespaces (j : minijail) : io unit :=
  _ ← (if flag j F_ipc then or_die (Unshare CLONE_NEWIPC) else mret tt);
  _ ← (if flag j F_uts then
         _ ← or_die (Unshare CLONE_NEWUTS);
         match j.(hostname) with Some h => or_die (Sethostname h) | None => mret tt end
       else mret tt);
  _ ← (if flag j F_enter_net then
         _ ← or_die (Setns j.(netns_fd) CLONE_NEWNET);
         _ ← call (Close j.(netns_fd));
         mret tt
       else if flag j F_net then
         _ ← or_die (Unshare CLONE_NEWNET);
         _ ← config_net_loopback;
         mret tt
       else mret tt);
  _ ← (if flag j F_ns_cgroups then or_die (Unshare CLONE_NEWCGROUP) else mret tt);
  if flag j F_new_session_keyring then
    a ← call (Keyctl KEYCTL_JOIN_SESSION_KEYRING);
    if rv a <? 0 then IDie else mret tt
  else mret tt.

(** A step that returns an error code or 0. *)
Definition zero_or_die (m : io Z) : io unit := ret ← m; if negb (ret =? 0) then IDie else mret tt.

Definition enter_root (j : minijail) : io unit :=
  _ ← (if flag j F_chroot then zero_or_die (enter_chroot j) else mret tt);
  _ ← (if flag j F_pivot_root then zero_or_die (enter_pivot_root j) else mret tt);
  _ ← (if flag j F_mount_tmp then zero_or_die (mount_tmp j) else mret tt);
  if flag j F_remount_proc_ro then zero_or_die (remount_proc_readonly j) else mret tt.

(** From the bounding set to the filter, in the order the no_new_privs flag asks for. *)
Definition drop_privileges (j : minijail) (last_valid_cap : Z) : io unit :=
  _ ← (if flag j F_capbset_drop then drop_capbset j.(cap_bset) last_valid_cap else mret tt);
  _ ← (if flag j F_use_caps then
         ret ← lock_securebits j.(securebits_skip_mask) (negb (flag j F_set_ambient_caps));
         if ret <? 0 then IDie else mret tt
       else mret tt);
  if flag j F_no_new_privs then
    _ ← drop_ugid j;
    _ ← drop_caps j last_valid_cap;
    _ ← set_no_new_privs j;
    _ ← apply_landlock_restrictions j;
    set_seccomp_filter j
  else
    _ ← apply_landlock_restrictions j;
    _ ← set_seccomp_filter j;
    _ ← drop_ugid j;
    drop_caps j last_valid_cap.

(** The alternate table and strict mode. *)
Definition enter_last (j : minijail) : io unit :=
  _ ← (if flag j F_alt_syscall then or_die (PrctlAltSyscall j.(alt_syscall_table)) else mret tt);
  if flag j F_seccomp then
    a ← call (Prctl PR_SET_SECCOMP [SECCOMP_MODE_STRICT]);
    if rv a =? 0 then mret tt
    else if (eno a =? EINVAL) && seccomp_can_softfail then mret tt
    else IDie
  else mret tt.

Definition minijail_enter (j : minijail) : io unit :=
  last_valid_cap ← (if flag j F_capbset_drop || flag j F_use_caps then get_last_valid_cap
                    else mret 0);
  if flag j F_pids then IDie
  else if flag j F_inherit_suppl_gids && negb (bool_decide (is_Some j.(user))) then IDie
  else
    _ ← enter_mount_namespace j;
    _ ← enter_other_namespaces j;
    _ ← process_mounts_or_die j;
    _ ← enter_root j;
    _ ← run_hooks_or_die j MINIJAIL_HOOK_EVENT_PRE_DROP_CAPS;
    _ ← drop_privileges j last_valid_cap;
    enter_last j.
End Enter.
