(* ===== verification/Emits.v ===== *)
(** * What a program has obtained by the time it returns

    The calls that have succeeded in a trace, in order, and programs that return only
    behind such calls: [emits] for a list that is known beforehand, [obtains] for one
    that depends on what the system answers. *)

From S2P Require Import Prelude OS Trace Enter.
Local Open Scope Z_scope.

(** ** Calls that have succeeded by the time of a return, in order *)

(** Most calls report success as 0, keyctl and the secure bits as a number that is
    not negative. *)
Definition successful (e : event) : bool :=
  match e.1 with
  | Keyctl _ => 0 <=? rv e.2
  | Prctl op _ => if op =? PR_SET_SECUREBITS then 0 <=? rv e.2 else rv e.2 =? 0
  | _ => rv e.2 =? 0
  end.

Definition succeeded (t : trace) : list oscall := fst <$> filter (λ e, successful e = true) t.

Lemma successful_zero c ans : rv ans = 0 → successful (c, ans) = true.
Proof. intros H. unfold successful. destruct c; cbn [fst snd]; rewrite H; try case_match; done. Qed.

(** A failing call of the kernel sets errno: chroot, chdir, fchdir, mount and
    umount2 return 0 or fail with an error number. *)
Definition honest (e : event) : Prop :=
  match e.1 with
  | Chroot _ | Chdir _ | Fchdir _ | Mount _ _ _ _ _ | Umount2 _ _ => rv e.2 ≠ 0 → eno e.2 ≠ 0
  | _ => True
  end.

(** A return of [m] comes after successful calls [l], in that order. *)
Definition emits {A} (m : io A) (l : list oscall) : Prop :=
  traces m (λ _ t, Forall honest t → l `sublist_of` succeeded t).

Lemma succeeded_app t t' : succeeded (t ++ t') = succeeded t ++ succeeded t'.
Proof. unfold succeeded. by rewrite list.filter_app, fmap_app. Qed.

Lemma succeeded_cons c ans t :
  succeeded ((c, ans) :: t) = (if successful (c, ans) then [c] else []) ++ succeeded t.
Proof.
  unfold succeeded. destruct (successful (c, ans)) eqn:E.
  - by rewrite filter_cons_True.
  - by rewrite filter_cons_False by congruence.
Qed.

Lemma emits_bind {A B} (m : io A) (f : A → io B) l1 l2 :
  emits m l1 → (∀ a, emits (f a) l2) → emits (m ≫= f) (l1 ++ l2).
Proof.
  intros Hm Hf. refine (traces_seq m f _ _ _ Hm Hf _). intros a b t t' H1 H2.
  rewrite list.Forall_app, succeeded_app. intros []. apply sublist_app; auto.
Qed.

Lemma emits_nil {A} (m : io A) : emits m [].
Proof. eapply traces_mono; [|apply traces_true]. intros. apply sublist_nil_l. Qed.

Lemma emits_l {A B} (m : io A) (f : A → io B) l : emits m l → emits (m ≫= f) l.
Proof. intros Hm. rewrite <- (app_nil_r l). apply emits_bind; [done|]. intros. apply emits_nil. Qed.

Lemma emits_r {A B} (m : io A) (f : A → io B) l : (∀ a, emits (f a) l) → emits (m ≫= f) l.
Proof. intros Hf. rewrite <- (app_nil_l l). apply emits_bind; [apply emits_nil|done]. Qed.

Lemma emits_die {A} l : emits (A:=A) IDie l.
Proof. done. Qed.

(** A call that is checked before the program goes on. *)
Lemma emits_checked {A} c (f : answer → io A) l :
  (∀ ans, rv ans ≠ 0 → f ans = IDie) → (∀ ans, emits (f ans) l) → emits (a ← call c; f a) (c :: l).
Proof.
  intros Hdie Hf ans. simpl. destruct (decide (rv ans = 0)) as [Hz|Hz]; [|by rewrite Hdie].
  eapply traces_mono; [|apply Hf]. intros a t Ht [_ Hh]%list.Forall_cons.
  rewrite succeeded_cons, successful_zero by done. simpl. by apply sublist_skip, Ht.
Qed.

Lemma emits_or_die c : emits (or_die c) [c].
Proof.
  apply emits_checked.
  - intros ans Hz. by rewrite (proj2 (Z.eqb_neq _ _) Hz).
  - intros. apply emits_nil.
Qed.

Definition when (b : bool) (l : list oscall) : list oscall := if b then l else [].

Lemma emits_when {A} (b : bool) (m : io A) (a : A) l :
  emits m l → emits (if b then m else mret a) (when b l).
Proof. destruct b; [done|]. intros. apply emits_nil. Qed.

(** The same for a program that returns an error code. *)
Definition emits0 (m : io Z) (l : list oscall) : Prop :=
  traces m (λ r t, Forall honest t → r = 0 → l `sublist_of` succeeded t).

Lemma emits_emits0 m l : emits m l → emits0 m l.
Proof. apply traces_mono. auto. Qed.

Lemma emits0_bind {A} (m : io A) (f : A → io Z) l1 l2 :
  emits m l1 → (∀ a, emits0 (f a) l2) → emits0 (m ≫= f) (l1 ++ l2).
Proof.
  intros Hm Hf. refine (traces_seq m f _ _ _ Hm Hf _). intros a b t t' H1 H2.
  rewrite list.Forall_app, succeeded_app. intros [] Hb. apply sublist_app; auto.
Qed.

Lemma emits0_r {A} (m : io A) (f : A → io Z) l : (∀ a, emits0 (f a) l) → emits0 (m ≫= f) l.
Proof. intros Hf. rewrite <- (app_nil_l l). apply emits0_bind; [apply emits_nil|done]. Qed.

Lemma emits0_ret r l : r ≠ 0 → emits0 (mret r) l.
Proof. intros Hr _. done. Qed.

(** A checked call whose failure returns a code that is not 0, or dies. *)
Lemma emits0_checked c (f : answer → io Z) k l :
  (∀ ans, honest (c, ans) → rv ans ≠ 0 → f ans = IDie ∨ ∃ r, r ≠ 0 ∧ f ans = mret r) →
  (∀ ans, rv ans = 0 → f ans = k) → emits0 k l → emits0 (a ← call c; f a) (c :: l).
Proof.
  intros Hbad Hgood Hk ans. simpl. destruct (decide (rv ans = 0)) as [Hz|Hz].
  - rewrite Hgood by done. eapply traces_mono; [|exact Hk]. intros r t Ht [_ Hh]%list.Forall_cons Hr.
    rewrite succeeded_cons, successful_zero by done. simpl. apply sublist_skip. auto.
  - destruct (f ans) as [r| | | |c' k'] eqn:E; try done.
    + simpl. intros [Hh _]%list.Forall_cons ->.
      destruct (Hbad ans Hh Hz) as [E'|(r & Hr & E')]; rewrite E in E'; [done|].
      by injection E'.
    + intros ans'. eapply traces_mono; [|apply traces_true]. intros r t _ [Hh _]%list.Forall_cons.
      destruct (Hbad ans Hh Hz) as [E'|(r' & _ & E')]; by rewrite E in E'.
Qed.

Lemma emits_zero_or_die m l : emits0 m l → emits (zero_or_die m) l.
Proof.
  intros Hm. unfold zero_or_die. apply traces_bind. eapply traces_mono; [|exact Hm].
  intros r t Ht. simpl. destruct (r =? 0) eqn:E; simpl; [|done].
  rewrite app_nil_r. intros Hh. apply Ht; [done|]. by apply Z.eqb_eq.
Qed.

(** One checked call of a sequence, the code of its failure being - errno. *)
Ltac checked :=
  refine (emits0_checked _ _ _ _ _ _ _);
  [ let Hh := fresh "Hh" in let Hz := fresh "Hz" in
    intros ans Hh Hz; cbv beta; rewrite (proj2 (Z.eqb_neq _ _) Hz); simpl negb; cbv iota;
    first [by left
          | right; eexists; split; [|reflexivity]; specialize (Hh Hz); cbn [snd] in Hh; lia]
  | let Hz := fresh "Hz" in intros ans Hz; cbv beta; rewrite (proj2 (Z.eqb_eq _ _) Hz); simpl negb; cbv iota; reflexivity
  | ].

(** ** Lists that depend on the answers

    [P t l]: given the answers in [t], the calls [l] are the ones that count.  What a
    trace shows stays true when the trace grows. *)

Definition evidence (P : trace → list oscall → Prop) : Prop :=
  ∀ t t' l, (∀ e, e ∈ t → e ∈ t') → P t l → P t' l.

Definition obtains {A} (m : io A) (P : trace → list oscall → Prop) : Prop :=
  traces m (λ _ t, Forall honest t → ∃ l, P t l ∧ l `sublist_of` succeeded t).

(** One after the other. *)
Definition followed_by (P Q : trace → list oscall → Prop) (t : trace) (l : list oscall) : Prop :=
  ∃ l1 l2, l = l1 ++ l2 ∧ P t l1 ∧ Q t l2.

Definition exactly (l : list oscall) (_ : trace) (l' : list oscall) : Prop := l' = l.

Lemma evidence_exactly l : evidence (exactly l).
Proof. by intros t t' l' _. Qed.

Lemma evidence_followed P Q : evidence P → evidence Q → evidence (followed_by P Q).
Proof. intros HP HQ t t' l Ht (l1 & l2 & -> & H1 & H2). exists l1, l2. eauto. Qed.

Lemma emits_obtains {A} (m : io A) l : emits m l → obtains m (exactly l).
Proof. apply traces_mono. intros _ t Ht Hh. exists l. split; [done|auto]. Qed.

Lemma obtains_bind {A B} (m : io A) (f : A → io B) P Q :
  evidence P → evidence Q → obtains m P → (∀ a, obtains (f a) Q) → obtains (m ≫= f) (followed_by P Q).
Proof.
  intros HP HQ Hm Hf. refine (traces_seq m f _ _ _ Hm Hf _). intros a b t t' H1 H2.
  rewrite list.Forall_app, succeeded_app. intros [Hh1 Hh2].
  destruct (H1 Hh1) as (l1 & HP1 & Hl1), (H2 Hh2) as (l2 & HQ2 & Hl2). exists (l1 ++ l2). split.
  - exists l1, l2. split_and!; [done|eapply HP; [|exact HP1]|eapply HQ; [|exact HQ2]]; set_solver.
  - by apply sublist_app.
Qed.

(** The calls in front do not matter. *)
Lemma obtains_r {A B} (m : io A) (f : A → io B) P : evidence P → (∀ a, obtains (f a) P) → obtains (m ≫= f) P.
Proof.
  intros HP Hf. refine (traces_seq m f _ _ _ (traces_true m) Hf _). intros a b t t' _ H2.
  rewrite list.Forall_app, succeeded_app. intros [_ Hh]. destruct (H2 Hh) as (l & Hl & Hs). exists l.
  split; [eapply HP; [|exact Hl]; set_solver|by apply sublist_inserts_l].
Qed.

Lemma obtains_mono {A} (m : io A) (P Q : trace → list oscall → Prop) :
  (∀ t l, P t l → Q t l) → obtains m P → obtains m Q.
Proof. intros HPQ. apply traces_mono. intros _ t H Hh. destruct (H Hh) as (l & Hl & Hs). eauto. Qed.

#[export] Hint Resolve evidence_exactly evidence_followed : core.
