(* ===== verification/MountProps.v ===== *)
(** * What the mount list becomes

    A return of 0 from [mount_one] accounts for every mount point in order, up to
    the first bind mount that is passed over, for a reason that the trace shows: that
    one and those behind it are skipped, and the return value does not tell.  With the
    /dev that is made next to it, this is what [process_mounts_or_die] obtains. *)

From S2P Require Import Prelude CLib Util UtilProps OS Trace System Jail JailSpec Enter Emits.
Local Open Scope Z_scope.
#[local] Arguments succeeded _ : simpl never.

(** ** One mount point *)

(** The flags of the file system that holds the source, as the kernel told. *)
Definition source_flags (t : trace) (m : mountpoint) (original : Z) : Prop :=
  ∃ ans, (Statvfs m.(m_src), ans) ∈ t ∧ rv ans = 0 ∧ original = default 0 (head (nums ans)).

(** A bind mount that is no remount. *)
Definition plain_bind (m : mountpoint) : Prop :=
  Z.land m.(m_flags) MS_BIND ≠ 0 ∧ Z.land m.(m_flags) MS_REMOUNT = 0.

(** One of the minijail_bind API. *)
Definition api_bind (m : mountpoint) : Prop := plain_bind m ∧ m.(m_type) = str "minijail_bind".

(** The flags of the source that a read-only remount has to repeat. *)
Definition inherited_flags : Z :=
  or_all [MS_NOSUID; MS_NODEV; MS_NOEXEC; MS_NOATIME; MS_NODIRATIME; MS_RELATIME].

(** Whether a second mount(2) call follows, and the flags it takes over from the
    source: it does exactly if an API bind mount differs from its source in being
    read-only. *)
Inductive decided (t : trace) (m : mountpoint) : option Z → Prop :=
  | decided_other : ¬ api_bind m → decided t m None
  | decided_same o :
      api_bind m → source_flags t m o →
      Z.land m.(m_flags) MS_RDONLY = Z.land o MS_RDONLY → decided t m None
  | decided_remount o :
      api_bind m → source_flags t m o →
      Z.land m.(m_flags) MS_RDONLY ≠ Z.land o MS_RDONLY →
      decided t m (Some (Z.land o inherited_flags)).

(** The place: what belongs under /dev goes into the temporary one, the rest under the
    new root. *)
Inductive placed (j : minijail) (m : mountpoint) : option cstr → cstr → Prop :=
  | placed_dev p rest :
      m.(m_dest) = str "/dev/" ++ rest → placed j m (Some p) (p ++ str "/" ++ rest)
  | placed_other dev :
      dev = None ∨ (∀ rest, m.(m_dest) ≠ str "/dev/" ++ rest) →
      placed j m dev (default [] j.(chrootdir) ++ m.(m_dest)).

Definition mount_calls (m : mountpoint) (dest : cstr) (q : option Z) : list oscall :=
  Mount (Some m.(m_src)) dest (Some m.(m_type)) m.(m_flags) m.(m_data) ::
  match q with
  | Some original =>
      [Mount (Some m.(m_src)) dest None (Z.lor m.(m_flags) (Z.lor original MS_REMOUNT)) m.(m_data)]
  | None => []
  end.

Section Mounts.
Context {B : BuildConfig}.

(** Why a mount point was passed over: the flags of the source of an API bind mount
    could not be read, or the source of a bind mount is not canonical. *)
Inductive skipped (t : trace) (m : mountpoint) : Prop :=
  | skipped_flags ans : api_bind m → (Statvfs m.(m_src), ans) ∈ t → rv ans ≠ 0 → skipped t m
  | skipped_link : plain_bind m → not_canonical t m.(m_src) → skipped t m.

(** ** The list *)

(** The calls that made the mount points, in order, or those in front of a skipped one. *)
Inductive mounted (j : minijail) (dev : option cstr) (t : trace) : list mountpoint → list oscall → Prop :=
  | mounted_end : mounted j dev t [] []
  | mounted_skip m rest : skipped t m → mounted j dev t (m :: rest) []
  | mounted_cons m rest dest q calls :
      placed j m dev dest → decided t m q → mounted j dev t rest calls →
      mounted j dev t (m :: rest) (mount_calls m dest q ++ calls).

Section Grow.
Context (t t' : trace) (Ht : ∀ e, e ∈ t → e ∈ t').

Lemma source_flags_grow m o : source_flags t m o → source_flags t' m o.
Proof. intros (ans & Hin & ?). exists ans. auto. Qed.

Lemma decided_grow m q : decided t m q → decided t' m q.
Proof.
  intros [H|o H Ho He|o H Ho He]; [by apply decided_other|apply (decided_same _ _ o)|
    apply (decided_remount _ _ o)]; auto using source_flags_grow.
Qed.

Lemma skipped_grow m : skipped t m → skipped t' m.
Proof.
  intros [ans H1 H2 H3|H1 (Hb & (ans & Hin & Hr) & Hp)]; [eapply skipped_flags; eauto|].
  apply skipped_link; [done|]. split_and!; [done| |done]. exists ans. auto.
Qed.

Lemma mounted_grow j dev ms calls : mounted j dev t ms calls → mounted j dev t' ms calls.
Proof. induction 1; eauto using mounted, decided_grow, skipped_grow. Qed.
End Grow.

Lemma mount_dest_placed j m dev : placed j m dev (mount_dest j m dev).
Proof.
  unfold mount_dest. destruct dev as [p|]; [|by apply placed_other; left].
  destruct (starts_with (str "/dev/") (m_dest m)) eqn:E.
  - apply starts_with_spec in E as [rest E]. rewrite E.
    change (drop 4 (str "/dev/" ++ rest)) with (str "/" ++ rest). by apply placed_dev.
  - apply placed_other. right. intros rest Hr. rewrite Hr in E.
    assert (starts_with (str "/dev/") (str "/dev/" ++ rest) = true) by (apply starts_with_spec; by exists rest).
    congruence.
Qed.

Lemma plain_bind_iff m :
  mount_has_bind_flag m && (Z.land m.(m_flags) MS_REMOUNT =? 0) = true ↔ plain_bind m.
Proof.
  unfold mount_has_bind_flag, plain_bind. by rewrite andb_true_iff, negb_true_iff, Z.eqb_neq, Z.eqb_eq.
Qed.

Lemma api_bind_iff m :
  mount_has_bind_flag m && streq m.(m_type) (str "minijail_bind") && (Z.land m.(m_flags) MS_REMOUNT =? 0) = true
  ↔ api_bind m.
Proof.
  unfold api_bind. rewrite <- plain_bind_iff, !andb_true_iff. unfold streq. rewrite bool_decide_eq_true. tauto.
Qed.

(** The query: either a decision or a failed one. *)
Lemma bind_remount_flags_spec m :
  traces (bind_remount_flags m) (λ q t, match q with Some d => decided t m d | None => skipped t m end).
Proof.
  unfold bind_remount_flags. pose proof (api_bind_iff m) as Hb. destruct (_ && _ && _).
  2: { apply decided_other. rewrite <- Hb. done. }
  assert (api_bind m) as Hm by (by apply Hb). intros ans. simpl.
  assert ((Statvfs (m_src m), ans) ∈ [(Statvfs (m_src m), ans)]) as Hin by left.
  destruct (rv ans =? 0) eqn:Ez; simpl.
  - apply Z.eqb_eq in Ez. assert (source_flags [(Statvfs (m_src m), ans)] m (default 0 (head (nums ans)))) as Hs
      by (by exists ans).
    destruct (_ =? _) eqn:Er; simpl.
    + apply Z.eqb_eq in Er. by eapply decided_same.
    + apply Z.eqb_neq in Er. by eapply decided_remount.
  - apply Z.eqb_neq in Ez. by eapply skipped_flags.
Qed.

(** The check of the source. *)
Lemma source_check_spec m :
  traces (if mount_has_bind_flag m && negb (negb (Z.land m.(m_flags) MS_REMOUNT =? 0))
          then is_valid_bind_path m.(m_src) else mret true)
    (λ valid t, valid = false → skipped t m).
Proof.
  rewrite negb_involutive. pose proof (plain_bind_iff m) as Hb. destruct (_ && _); [|done].
  eapply traces_mono; [|apply is_valid_bind_path_traces]. intros valid t [_ H] Hv.
  apply skipped_link; [by apply Hb|auto].
Qed.

(** The mount(2) calls of one mount point, then the rest. *)
Lemma mount_calls_spec m dest d (k : io Z) (P : trace → Prop) :
  traces k (λ r t, r = 0 → ∀ tm, mount_calls m dest d `sublist_of` succeeded tm → P (tm ++ t)) →
  traces
    (a ← call (Mount (Some m.(m_src)) dest (Some m.(m_type)) m.(m_flags) m.(m_data));
     if negb (rv a =? 0) then mret (rv a)
     else
       ret ← match d with
             | None => mret 0
             | Some original =>
                 a ← call (Mount (Some m.(m_src)) dest None
                             (Z.lor m.(m_flags) (Z.lor original MS_REMOUNT)) m.(m_data));
                 mret (rv a)
             end;
       if negb (ret =? 0) then mret ret else k) (λ r t, r = 0 → P t).
Proof.
  intros Hk ans. cbn [call mbind io_bind].
  destruct (rv ans =? 0) eqn:E; cbn [negb]; [|apply Z.eqb_neq in E; by intros ?].
  apply Z.eqb_eq in E. destruct d as [o|].
  - intros ans2. simpl.
    destruct (rv ans2 =? 0) eqn:E2; cbn [negb]; [|apply Z.eqb_neq in E2; by intros ?]. apply Z.eqb_eq in E2.
    eapply traces_mono; [|exact Hk]. intros r t Ht Hr.
    apply (Ht Hr [(_, ans); (_, ans2)]). by rewrite !succeeded_cons, !successful_zero.
  - eapply traces_mono; [|exact Hk]. intros r t Ht Hr.
    apply (Ht Hr [(_, ans)]). by rewrite succeeded_cons, successful_zero.
Qed.

Lemma mount_one_mounted j ms dev :
  traces (mount_one j ms dev) (λ r t, r = 0 → ∃ calls, mounted j dev t ms calls ∧ calls `sublist_of` succeeded t).
Proof.
  assert (∀ t m rest, skipped t m → ∃ calls, mounted j dev t (m :: rest) calls ∧ calls `sublist_of` succeeded t)
    as Hskip by (intros t m rest Hm; exists []; split; [by apply mounted_skip|apply sublist_nil_l]).
  induction ms as [|m next IH]; cbn [mount_one].
  { intros _. exists []. split; [apply mounted_end|done]. }
  cbv zeta. apply traces_bind. eapply traces_mono; [|apply traces_true]. intros ret t0 _.
  destruct (ret =? 0) eqn:Er; cbn [negb]; [|apply Z.eqb_neq in Er; by intros ?].
  apply traces_bind. eapply traces_mono; [|apply bind_remount_flags_spec]. intros [d|] t1 Hq.
  2: { intros _. apply Hskip. eapply skipped_grow; [|exact Hq]. set_solver. }
  apply traces_bind. eapply traces_mono; [|apply source_check_spec]. intros [|] t2 Hv; cbn [negb].
  2: { intros _. apply Hskip. eapply skipped_grow; [|by apply Hv]. set_solver. }
  apply mount_calls_spec. eapply traces_mono; [|exact IH]. intros r t Ht Hr tm Hm.
  destruct (Ht Hr) as (calls & Hc & Hs). eexists. split.
  - apply mounted_cons; [apply mount_dest_placed|eapply decided_grow; [|exact Hq]|
      eapply mounted_grow; [|exact Hc]]; set_solver.
  - rewrite !succeeded_app. do 3 apply sublist_inserts_l. by apply sublist_app.
Qed.

(** C36: a return of 0 from [mount_one] means that the mount points were mounted in
    order at their place under the new root (or the temporary /dev), with their
    flags and data, each API bind mount that differs from its source in being
    read-only by a second, remounting call.  The list ends early only at a bind mount
    (no remount) that the trace gives a reason to pass over: statvfs(2) failed for the
    source of an API bind mount, or the build blocks symbolic links, realpath(3) did
    not answer the source itself, and no allowed prefix covers it.  That mount point
    and all behind it are then not mounted, although the code is 0. *)
Theorem mount_one_spec j ms dev :
  traces (mount_one j ms dev) (λ r t, r = 0 → ∃ calls, mounted j dev t ms calls ∧ calls `sublist_of` succeeded t).
Proof. apply mount_one_mounted. Qed.

(** ** /dev *)

(** The temporary directory and the descriptor of it. *)
Definition temporary_dev (t : trace) (p : cstr) (fd : Z) : Prop :=
  (∃ ans, (Mkdtemp (str "/tmp/minijail.dev.XXXXXX"), ans) ∈ t ∧ bytes ans = Some p) ∧
  ∃ ans, (Open p (Z.lor O_DIRECTORY (Z.lor O_PATH O_CLOEXEC)) 0, ans) ∈ t ∧ rv ans = fd ∧ 0 <= fd.

Definition dev_calls (p : cstr) (fd : Z) : list oscall :=
  Mount (Some (str "minijail-devfs")) p (Some (str "tmpfs")) (Z.lor MS_NOEXEC MS_NOSUID)
    (Some (str "size=5M,mode=755")) ::
  ((λ ds, Mknodat fd ds.(ds_name) ds.(ds_mode) ds.(ds_major) ds.(ds_minor)) <$> device_nodes) ++
  ((λ l, Symlinkat l.2 fd l.1) <$> device_symlinks) ++ [Mkdirat fd (str "shm") 1023].

(** The temporary directory takes the place of /dev. *)
Definition dev_moved (j : minijail) (p : cstr) : list oscall :=
  [Umount2 (str "/dev") MNT_DETACH;
   Mount (Some p) (default [] j.(chrootdir) ++ str "/dev") None MS_MOVE None].

(** What the mount list and the flag for /dev come to. *)
Inductive mounts_made (j : minijail) (t : trace) : list oscall → Prop :=
  | mounts_only calls :
      flag j F_mount_dev = false → mounted j None t j.(mounts) calls → mounts_made j t calls
  | mounts_dev p fd calls :
      flag j F_mount_dev = true → temporary_dev t p fd → mounted j (Some p) t j.(mounts) calls →
      mounts_made j t (dev_calls p fd ++ calls ++ dev_moved j p).

Lemma temporary_dev_grow t t' p fd :
  (∀ e, e ∈ t → e ∈ t') → temporary_dev t p fd → temporary_dev t' p fd.
Proof. intros Ht [(a & ? & ?) (b & ? & ?)]. split; eauto. Qed.

Lemma mounts_made_evidence j : evidence (mounts_made j).
Proof.
  intros t t' l Ht [calls H1 H2|p fd calls H1 H2 H3].
  - apply mounts_only; [done|]. by eapply mounted_grow.
  - apply (mounts_dev _ _ p fd); [done|by eapply temporary_dev_grow|by eapply mounted_grow].
Qed.

(** Calls in a row, up to the first that fails. *)
Lemma make_nodes_emits fd nodes :
  traces (make_nodes fd nodes) (λ r t, r = 0 →
    ((λ ds, Mknodat fd ds.(ds_name) ds.(ds_mode) ds.(ds_major) ds.(ds_minor)) <$> nodes) `sublist_of` succeeded t).
Proof.
  induction nodes as [|ds nodes IH]; [intros _; apply sublist_nil_l|]. intros ans. cbn [mbind io_bind call]. destruct (rv ans =? 0) eqn:E.
  - apply Z.eqb_eq in E. eapply traces_mono; [|exact IH]. intros r t Ht Hr.
    rewrite succeeded_cons, successful_zero by done. by apply sublist_skip, Ht.
  - apply Z.eqb_neq in E. by intros ?.
Qed.

Lemma make_symlinks_emits fd links :
  traces (make_symlinks fd links) (λ r t, r = 0 →
    ((λ l, Symlinkat l.2 fd l.1) <$> links) `sublist_of` succeeded t).
Proof.
  induction links as [|[s d] links IH]; [intros _; apply sublist_nil_l|]. intros ans. cbn [mbind io_bind call]. destruct (rv ans =? 0) eqn:E.
  - apply Z.eqb_eq in E. eapply traces_mono; [|exact IH]. intros r t Ht Hr.
    rewrite succeeded_cons, successful_zero by done. by apply sublist_skip, Ht.
  - apply Z.eqb_neq in E. by intros ?.
Qed.

Lemma mount_dev_spec :
  traces mount_dev (λ r t, r.1 = 0 → ∃ fd, temporary_dev t r.2 fd ∧ dev_calls r.2 fd `sublist_of` succeeded t).
Proof.
  unfold mount_dev. intros a1. cbn [mbind io_bind call]. destruct (bytes a1) as [p|] eqn:Ep; [|done].
  intros a2. cbn [mbind io_bind call]. destruct (rv a2 =? 0) eqn:E2; cbn [negb].
  2: { intros a3. cbn. apply Z.eqb_neq in E2. by intros ?. }
  apply Z.eqb_eq in E2. intros a3 a4. cbn [mbind io_bind call]. cbv zeta.
  set (fd := rv a4). apply traces_bind.
  eapply (traces_mono _ (λ r t, r = 0 → 0 <= fd ∧
    (((λ ds, Mknodat fd ds.(ds_name) ds.(ds_mode) ds.(ds_major) ds.(ds_minor)) <$> device_nodes) ++
     ((λ l, Symlinkat l.2 fd l.1) <$> device_symlinks) ++ [Mkdirat fd (str "shm") 1023]) `sublist_of` succeeded t)).
  - intros ret t5 H5 a6. cbn [mbind io_bind call]. apply traces_bind. eapply traces_mono; [|apply traces_true]. intros _ t7 _.
    apply traces_bind. eapply traces_mono; [|apply traces_true]. intros _ t8 _. cbn. intros Hr.
    destruct (H5 Hr) as [Hfd Hs]. exists fd. split; [split|].
    + exists a1. split; [left|done].
    + exists a4. split; [do 3 right; left|by split].
    + unfold dev_calls. rewrite !succeeded_cons, (successful_zero (Mount _ _ _ _ _)) by done.
      do 1 apply sublist_inserts_l. cbn [app]. apply sublist_skip. do 2 apply sublist_inserts_l.
      rewrite succeeded_app. by apply sublist_inserts_r.
  - destruct (fd <? 0) eqn:Ef; [by intros ?|]. apply Z.ltb_ge in Ef.
    apply traces_bind. eapply traces_mono; [|apply make_nodes_emits]. intros r1 t1 H1.
    destruct (r1 =? 0) eqn:E1; cbn [negb]; [|apply Z.eqb_neq in E1; by intros ?]. apply Z.eqb_eq in E1.
    apply traces_bind. eapply traces_mono; [|apply make_symlinks_emits]. intros r2 t2 H2'.
    destruct (r2 =? 0) eqn:E2'; cbn [negb]; [|apply Z.eqb_neq in E2'; by intros ?]. apply Z.eqb_eq in E2'.
    intros a5 Hz. split; [done|]. rewrite !succeeded_app, succeeded_cons, successful_zero by done.
    apply sublist_app; [auto|]. by apply sublist_app; [auto|].
Qed.

Lemma mount_dev_finalize_spec j p :
  traces (mount_dev_finalize j p) (λ r t, r = 0 → dev_moved j p `sublist_of` succeeded t).
Proof.
  intros a1. cbn [mbind io_bind call]. apply traces_bind.
  eapply (traces_mono _ (λ r t, r = 0 → dev_moved j p `sublist_of` succeeded ((Umount2 (str "/dev") MNT_DETACH, a1) :: t))).
  - intros ret t Ht. apply traces_bind. eapply traces_mono; [|apply traces_true]. intros _ t' _. cbn. intros Hr.
    rewrite app_nil_r, app_comm_cons, succeeded_app. by apply sublist_inserts_r, Ht.
  - destruct (rv a1 =? 0) eqn:E1; cbn [negb]; [|by intros ?]. apply Z.eqb_eq in E1. intros a2. cbn.
    destruct (rv a2 =? 0) eqn:E2; cbn [negb]; [|by intros ?]. apply Z.eqb_eq in E2. intros _.
    by rewrite !succeeded_cons, !successful_zero.
Qed.

Lemma process_mounts_obtains j : obtains (process_mounts_or_die j) (mounts_made j).
Proof.
  unfold process_mounts_or_die. apply traces_bind.
  eapply (traces_mono _ (λ dev t, match dev with
    | None => flag j F_mount_dev = false
    | Some p => flag j F_mount_dev = true ∧ ∃ fd, temporary_dev t p fd ∧ dev_calls p fd `sublist_of` succeeded t
    end)).
  2: { destruct (flag j F_mount_dev); [|done]. apply traces_bind.
       eapply traces_mono; [|apply mount_dev_spec]. intros [ret p] t Ht.
       destruct (ret =? 0) eqn:E; cbn [negb]; [|done]. apply Z.eqb_eq in E. cbn. rewrite app_nil_r. auto. }
  intros dev t1 H1. apply traces_bind. eapply traces_mono; [|apply mount_one_mounted]. intros ret t2 H2.
  destruct (ret =? 0) eqn:E; cbn [negb].
  2: { apply traces_bind. eapply traces_mono; [|apply traces_true]. by intros _ t _ ans. }
  apply Z.eqb_eq in E. destruct (H2 E) as (calls & Hc & Hs). destruct dev as [p|].
  - destruct H1 as (Hf & fd & Hd & Hs1). apply traces_bind. eapply traces_mono; [|apply mount_dev_finalize_spec].
    intros r3 t3 H3. destruct (r3 =? 0) eqn:E3; cbn [negb]; [|done]. apply Z.eqb_eq in E3. cbn. intros _.
    eexists. split.
    + apply (mounts_dev _ _ p fd); [done|eapply temporary_dev_grow; [|exact Hd]|eapply mounted_grow; [|exact Hc]];
        set_solver.
    + rewrite app_nil_r, !succeeded_app. apply sublist_app; [done|]. apply sublist_app; auto.
  - cbn. intros _. exists calls. split.
    + apply mounts_only; [done|]. eapply mounted_grow; [|exact Hc]. set_solver.
    + rewrite app_nil_r, succeeded_app. by apply sublist_inserts_l.
Qed.

(** ** A skipped mount looks like a mounted one *)

Definition missing_source : mountpoint :=
  {| m_src := str "/missing"; m_dest := str "/data"; m_type := str "minijail_bind";
     m_data := None; m_flags := Z.lor MS_BIND MS_RDONLY |}.

(** A host without the source: its statvfs(2) fails, everything else succeeds. *)
Definition host_without_source (c : oscall) (h : unit) : answer * unit :=
  (match c with Statvfs _ => fails ENOENT | _ => ok end, h).

(** With a bind mount whose source does not exist, [mount_one] makes neither that mount
    nor the one behind it and returns 0. *)
Example mount_one_hides_failure :
  run_trace host_without_source
    (mount_one minijail_new [missing_source; missing_source] None) tt
  = (Finished 0, [(Stat (str "/data"), ok); (Statvfs (str "/missing"), fails ENOENT)], tt).
Proof. reflexivity. Qed.

End Mounts.
