(* ===== verification/EnterProps.v ===== *)
(** * What entering a jail guarantees

    Whatever the kernel answers, a return from [minijail_enter] means that what the
    configuration asks for was put in place, up to the exceptions of the code, each with
    its reason in the trace or in the build; the capability sets end up exact; and the
    filter is installed last where that is possible. *)

From S2P Require Import Prelude CLib Util UtilProps Bpf SyscallFilter OS Trace System Jail Enter JailSpec Emits MountProps.
Local Open Scope Z_scope.

(** ** What a configuration asks for *)

Definition hook_calls (j : minijail) (ev : Z) : list oscall :=
  (λ h, RunHook h.(h_hook) h.(h_payload)) <$> filter (λ h, h.(h_event) = ev) j.(hooks).

Definition remount_call (r : remount) : oscall :=
  Mount None r.(remount_mount_name) None (Z.lor MS_REC r.(remount_remount_mode)) None.

Definition mount_namespace_calls (j : minijail) : list oscall :=
  when (flag j F_enter_vfs) [Setns j.(mountns_fd) CLONE_NEWNS] ++
  when (flag j F_vfs)
    (Unshare CLONE_NEWNS ::
     when (negb (j.(remount_mode) =? 0))
       (Mount None (str "/") None (Z.lor MS_REC j.(remount_mode)) None :: (remount_call <$> j.(remounts)))).

Definition other_namespace_calls (j : minijail) : list oscall :=
  when (flag j F_ipc) [Unshare CLONE_NEWIPC] ++
  when (flag j F_uts)
    (Unshare CLONE_NEWUTS :: match j.(hostname) with Some h => [Sethostname h] | None => [] end) ++
  (if flag j F_enter_net then [Setns j.(netns_fd) CLONE_NEWNET]
   else when (flag j F_net) [Unshare CLONE_NEWNET]) ++
  when (flag j F_ns_cgroups) [Unshare CLONE_NEWCGROUP] ++
  when (flag j F_new_session_keyring) [Keyctl KEYCTL_JOIN_SESSION_KEYRING].

Definition chroot_calls (j : minijail) : list oscall :=
  hook_calls j MINIJAIL_HOOK_EVENT_PRE_CHROOT ++
  match j.(chrootdir) with Some dir => [Chroot dir; Chdir (str "/")] | None => [] end.

Definition pivot_root_calls (j : minijail) : list oscall :=
  hook_calls j MINIJAIL_HOOK_EVENT_PRE_CHROOT ++
  match j.(chrootdir) with
  | Some dir =>
      [Mount (Some dir) dir (Some (str "bind")) (Z.lor MS_BIND MS_REC) (Some []); Chdir dir;
       PivotRoot (str ".") (str "."); Mount None (str ".") None (Z.lor MS_REC MS_PRIVATE) None;
       Umount2 (str ".") MNT_DETACH; Chroot (str "/"); Chdir (str "/")]
  | None => []
  end.

Lemma run_hooks_emits hs ev :
  emits (run_hooks hs ev) ((λ h, RunHook h.(h_hook) h.(h_payload)) <$> filter (λ h, h.(h_event) = ev) hs).
Proof.
  induction hs as [|h hs IH]; [apply emits_nil|]. cbn [run_hooks].
  destruct (h_event h =? ev) eqn:E.
  - apply Z.eqb_eq in E. rewrite filter_cons_True by done. cbn [fmap list_fmap]. apply emits_checked.
    + intros ans Hz. by rewrite (proj2 (Z.eqb_neq _ _) Hz).
    + intros ans. destruct (_ =? 0); [exact IH|done].
  - apply Z.eqb_neq in E. by rewrite filter_cons_False.
Qed.

Lemma enter_chroot_emits j : emits0 (enter_chroot j) (chroot_calls j).
Proof.
  apply emits0_bind; [apply run_hooks_emits|]. intros _.
  destruct (chrootdir j) as [dir|]; [|by apply emits0_ret].
  checked. checked. apply emits_emits0, emits_nil.
Qed.

Lemma pivot_emits dir oldroot newroot :
  emits0 (pivot dir oldroot newroot)
    [Mount (Some dir) dir (Some (str "bind")) (Z.lor MS_BIND MS_REC) (Some []); Chdir dir;
     PivotRoot (str ".") (str "."); Fchdir oldroot; Mount None (str ".") None (Z.lor MS_REC MS_PRIVATE) None;
     Umount2 (str ".") MNT_DETACH; Fchdir newroot; Chroot (str "/"); Chdir (str "/")].
Proof. unfold pivot. do 9 checked. apply emits_emits0, emits_nil. Qed.

Lemma emits0_weaken m l l' : l `sublist_of` l' → emits0 m l' → emits0 m l.
Proof. intros Hl. apply traces_mono. intros r t Ht Hh Hr. etrans; [exact Hl|auto]. Qed.

(** What comes after keeps the return code. *)
Lemma emits0_keep m (f : Z → io Z) l :
  emits0 m l → (∀ r, traces (f r) (λ r' _, r' = r)) → emits0 (m ≫= f) l.
Proof.
  intros Hm Hf. refine (traces_seq m f _ _ _ Hm Hf _). intros r r' t t' Ht ->.
  rewrite list.Forall_app, succeeded_app. intros [Hh _] Hr. apply sublist_inserts_r. auto.
Qed.

Lemma enter_pivot_root_emits j : emits0 (enter_pivot_root j) (pivot_root_calls j).
Proof.
  apply emits0_bind; [apply run_hooks_emits|]. intros _. apply emits0_r. intros a.
  cbv beta zeta. destruct (_ <? 0); [done|]. destruct (chrootdir j) as [dir|]; [|done]. apply emits0_r. intros b.
  cbv beta zeta. destruct (_ <? 0); [done|]. apply emits0_keep.
  - eapply emits0_weaken; [|apply pivot_emits]. repeat constructor.
  - intros r. unfold cleanup_fd. destruct (_ <? 0), (_ <? 0); simpl; auto.
Qed.

Lemma emits0_then m k l1 l2 :
  emits0 m l1 → emits0 k l2 →
  emits0 (ret ← m; if negb (ret =? 0) then mret ret else k) (l1 ++ l2).
Proof.
  intros Hm Hk. apply traces_bind. eapply traces_mono; [|exact Hm]. intros r t Ht.
  destruct (r =? 0) eqn:E; simpl negb; cbv iota.
  - apply Z.eqb_eq in E. eapply traces_mono; [|exact Hk]. intros r' t' Ht'.
    rewrite list.Forall_app, succeeded_app. intros [] Hr. apply sublist_app; auto.
  - apply Z.eqb_neq in E. by intros _ ?.
Qed.

Lemma emits0_status c :
  (∀ ans, honest (c, ans) → rv ans ≠ 0 → eno ans ≠ 0) →
  emits0 (a ← call c; mret (if negb (rv a =? 0) then - eno a else 0)) [c].
Proof.
  intros Hc ans. simpl. intros [Hh _]%list.Forall_cons.
  destruct (decide (rv ans = 0)) as [Hz|Hz]; [by rewrite succeeded_cons, successful_zero|].
  rewrite (proj2 (Z.eqb_neq _ _) Hz). simpl. specialize (Hc ans Hh Hz). lia.
Qed.

Section Enter.
Context {B : BuildConfig}.

Definition mount_tmp_call (j : minijail) : oscall :=
  Mount (Some (str "none")) (str "/tmp") (Some (str "tmpfs"))
    (or_all ([MS_NODEV; MS_NOEXEC; MS_NOSUID] ++
             (if block_symlinks_in_noninit_mountns_tmp then [MS_NOSYMFOLLOW] else [])))
    (Some (str "size=" ++ fmt_d j.(tmpfs_size) ++ str ",mode=1777")).

Definition proc_calls (j : minijail) : list oscall :=
  when (negb (flag j F_userns)) [Umount2 (str "/proc") MNT_DETACH] ++
  [Mount (Some (str "proc")) (str "/proc") (Some (str "proc"))
     (or_all [MS_NODEV; MS_NOEXEC; MS_NOSUID; MS_RDONLY]) (Some [])].

Lemma mount_tmp_emits j : emits0 (mount_tmp j) [mount_tmp_call j].
Proof.
  unfold mount_tmp. destruct (_ <=? _)%nat; [done|]. intros ans. simpl. intros _ Hz.
  rewrite succeeded_cons, successful_zero by done.
  unfold mount_tmp_call. by destruct block_symlinks_in_noninit_mountns_tmp.
Qed.

Lemma remount_proc_emits j : emits0 (remount_proc_readonly j) (proc_calls j).
Proof.
  apply emits0_then; [|apply emits0_status; by intros ans Hh Hz; apply Hh].
  destruct (flag j F_userns); simpl negb; simpl when; [apply emits_emits0, emits_nil|].
  apply emits0_status. intros ans Hh Hz. by apply Hh.
Qed.

Lemma mount_namespace_emits j : emits (enter_mount_namespace j) (mount_namespace_calls j).
Proof.
  apply emits_bind.
  - apply emits_when, emits_l, emits_or_die.
  - intros _. apply emits_when. refine (emits_bind _ _ [_] _ (emits_or_die _) (λ _, _)).
    apply emits_when. refine (emits_bind _ _ [_] _ (emits_or_die _) (λ _, _)).
    induction (remounts j) as [|r rs IH]; [apply emits_nil|]. simpl. destruct (_ <? _); [done|].
    refine (emits_bind _ _ [_] _ (emits_or_die _) (λ _, _)). exact IH.
Qed.

Lemma other_namespaces_emits j : emits (enter_other_namespaces j) (other_namespace_calls j).
Proof.
  apply emits_bind; [apply emits_when, emits_or_die|]. intros _.
  apply emits_bind.
  { apply emits_when. refine (emits_bind _ _ [_] _ (emits_or_die _) (λ _, _)).
    destruct (hostname j); [apply emits_or_die|apply emits_nil]. }
  intros _. apply emits_bind.
  { destruct (flag j F_enter_net); [apply emits_l, emits_or_die|].
    apply emits_when, emits_l, emits_or_die. }
  intros _. apply emits_bind; [apply emits_when, emits_or_die|]. intros _. apply emits_when.
  intros ans. simpl. destruct (rv ans <? 0) eqn:E; [done|]. simpl. intros _.
  rewrite succeeded_cons. unfold successful; cbn [fst snd].
  by rewrite (proj2 (Z.leb_le 0 _)) by lia.
Qed.

Definition root_calls (j : minijail) : list oscall :=
  when (flag j F_chroot) (chroot_calls j) ++ when (flag j F_pivot_root) (pivot_root_calls j) ++
  when (flag j F_mount_tmp) [mount_tmp_call j] ++ when (flag j F_remount_proc_ro) (proc_calls j).

Lemma enter_root_emits j : emits (enter_root j) (root_calls j).
Proof.
  apply emits_bind; [apply emits_when, emits_zero_or_die, enter_chroot_emits|]. intros _.
  apply emits_bind; [apply emits_when, emits_zero_or_die, enter_pivot_root_emits|]. intros _.
  apply emits_bind; [apply emits_when, emits_zero_or_die, mount_tmp_emits|]. intros _.
  apply emits_when, emits_zero_or_die, remount_proc_emits.
Qed.

(** ** Privileges *)

Definition ugid_calls (j : minijail) : list oscall :=
  (if flag j F_inherit_suppl_gids then
     match j.(user) with Some name => [Initgroups name j.(usergid)] | None => [] end
   else if flag j F_set_suppl_gids then [Setgroups (default [] j.(suppl_gid_list))]
   else when (negb (flag j F_keep_suppl_gids) && negb (flag j F_disable_setgroups)
              && (flag j F_uid || flag j F_gid)) [Setgroups []]) ++
  when (flag j F_gid) [Setresgid j.(gid)] ++ when (flag j F_uid) [Setresuid j.(uid)].

Lemma drop_ugid_emits j : emits (drop_ugid j) (ugid_calls j).
Proof.
  unfold drop_ugid, ugid_calls. cbv zeta. destruct (1 <? _); [done|].
  assert (∀ c, emits (a ← call c; if negb (rv a =? 0) then IDie else mret tt) [c]) as Hc
    by apply emits_or_die.
  apply emits_bind.
  - destruct (flag j F_inherit_suppl_gids); [destruct (user j); [apply Hc|done]|].
    destruct (flag j F_set_suppl_gids); [apply Hc|].
    destruct (negb _ && negb _); [|apply emits_nil]. simpl andb. apply emits_when, Hc.
  - intros _. apply emits_bind; [apply emits_when, Hc|]. intros _. apply emits_when, Hc.
Qed.

(** The capabilities the kernel knows, of the 64 the masks have room for. *)
Definition caps_upto (last : Z) : list Z := filter (λ i, i <= last) (seqZ 0 64).

Lemma filter_none {A} (P : A → Prop) `{!∀ x, Decision (P x)} l :
  (∀ x, x ∈ l → ¬ P x) → filter P l = [].
Proof.
  induction l as [|x l IH]; intros Hl; [done|].
  rewrite filter_cons_False by (apply Hl; left). apply IH. intros y Hy. apply Hl. by right.
Qed.

Lemma for_caps_emits n i last body (g : Z → list oscall) :
  (∀ i, emits (body i) (g i)) →
  emits (for_caps n i last body) (mjoin (g <$> filter (λ i, i <= last) (seqZ i (Z.of_nat n)))).
Proof.
  intros Hg. revert i. induction n as [|n IH]; intros i; [apply emits_nil|].
  cbn [for_caps]. rewrite seqZ_cons by lia. destruct (i <=? last) eqn:E.
  - rewrite filter_cons_True by lia. rewrite fmap_cons. apply emits_bind; [apply Hg|]. intros _.
    replace (Z.pred (Z.of_nat (S n))) with (Z.of_nat n) by lia. apply IH.
  - rewrite <- seqZ_cons by lia. replace (filter _ _) with (@nil Z); [apply emits_nil|].
    symmetry. apply filter_none. intros z [Hz _]%elem_of_seqZ. lia.
Qed.

Definition bset_calls (keep last : Z) : list oscall :=
  mjoin ((λ i, if Z.testbit keep i then [] else [Prctl PR_CAPBSET_DROP [i]]) <$> caps_upto last).

Definition flag_calls (on : bool) (cap : Z) : list oscall :=
  [CapSetFlag CAP_EFFECTIVE cap on; CapSetFlag CAP_PERMITTED cap on; CapSetFlag CAP_INHERITABLE cap on].

Definition ambient_calls (j : minijail) (last : Z) : list oscall :=
  Prctl PR_CAP_AMBIENT [PR_CAP_AMBIENT_CLEAR_ALL; 0; 0; 0] ::
  mjoin ((λ i, when (Z.testbit j.(caps) i) [Prctl PR_CAP_AMBIENT [PR_CAP_AMBIENT_RAISE; i; 0; 0]])
         <$> caps_upto last).

Definition caps_calls (j : minijail) (last : Z) : list oscall :=
  [CapClear] ++
  mjoin ((λ i, if negb (i =? CAP_SETPCAP) && negb (Z.testbit j.(caps) i) then []
               else flag_calls true i) <$> caps_upto last) ++
  [CapSetProc] ++
  when (secure_noroot_set_and_locked (u64 (Z.lnot j.(securebits_skip_mask)))) (bset_calls j.(caps) last) ++
  (if Z.testbit j.(caps) CAP_SETPCAP then [] else flag_calls false CAP_SETPCAP) ++
  [CapSetProc] ++
  when (flag j F_set_ambient_caps) (ambient_calls j last).

Lemma set_cap_flags_emits i on : emits (set_cap_flags i on) (flag_calls on i).
Proof.
  refine (emits_bind _ _ [_] _ (emits_or_die _) (λ _, _)).
  refine (emits_bind _ _ [_] _ (emits_or_die _) (λ _, _)). apply emits_or_die.
Qed.

Lemma drop_capbset_emits keep last : emits (drop_capbset keep last) (bset_calls keep last).
Proof.
  apply (for_caps_emits 64). intros i. destruct (Z.testbit keep i); [apply emits_nil|apply emits_or_die].
Qed.

Lemma drop_caps_emits j last : emits (drop_caps j last) (when (flag j F_use_caps) (caps_calls j last)).
Proof.
  unfold drop_caps. destruct (flag j F_use_caps); [|apply emits_nil]. simpl when. simpl negb. cbv iota.
  apply emits_r. intros a. destruct (_ =? 0); [done|].
  apply emits_bind; [apply emits_or_die|]. intros _.
  apply emits_bind.
  { apply (for_caps_emits 64). intros i. destruct (_ && _); [apply emits_nil|apply set_cap_flags_emits]. }
  intros _. apply emits_bind; [apply emits_or_die|]. intros _.
  apply emits_bind; [apply emits_when, drop_capbset_emits|]. intros _.
  apply emits_bind; [destruct (Z.testbit _ _); [apply emits_nil|apply set_cap_flags_emits]|]. intros _.
  apply emits_bind; [apply emits_or_die|]. intros _. apply emits_l.
  apply emits_when. apply emits_r. intros []; [|done].
  refine (emits_bind _ _ [_] _ (emits_or_die _) (λ _, _)).
  apply (for_caps_emits 64). intros i. destruct (Z.testbit _ _); [apply emits_or_die|apply emits_nil].
Qed.

Definition landlock_calls (j : minijail) : list oscall :=
  when (flag j F_enable_fs_restrictions && negb (bool_decide (j.(fs_rules) = []))
        && (0 <=? j.(fs_rules_fd))) [LandlockRestrictSelf j.(fs_rules_fd)].

Lemma landlock_emits j : emits (apply_landlock_restrictions j) (landlock_calls j).
Proof.
  unfold apply_landlock_restrictions, landlock_calls.
  destruct (flag j F_enable_fs_restrictions), (bool_decide _); cbn [negb orb andb];
    try apply emits_nil.
  apply emits_r. intros available. apply emits_r. intros _. apply emits_when, emits_l, emits_or_die.
Qed.

Definition no_new_privs_call : oscall := Prctl PR_SET_NO_NEW_PRIVS [1; 0; 0; 0].

Lemma set_no_new_privs_emits j :
  emits (set_no_new_privs j) (when (flag j F_no_new_privs) [no_new_privs_call]).
Proof.
  apply emits_when. intros ans. simpl. destruct (rv ans =? 0) eqn:E; [|done]. simpl. intros _.
  by rewrite succeeded_cons, successful_zero by (by apply Z.eqb_eq).
Qed.

(** The call that installs the filter: seccomp(2) when a flag is asked for (1 for the
    whole thread group, 4 to allow speculation), prctl(2) otherwise. *)
Definition filter_call (j : minijail) : oscall :=
  let fl := (if flag j F_seccomp_filter_tsync then 1 else 0) +
            (if flag j F_seccomp_filter_allow_speculation then 4 else 0) in
  if fl =? 0 then PrctlSeccomp j.(filter_prog) else SysSeccomp 1 fl j.(filter_prog).

Lemma install_call_spec j : install_call j = filter_call j.
Proof.
  unfold install_call, filter_call.
  by destruct (flag j F_seccomp_filter_tsync), (flag j F_seccomp_filter_allow_speculation).
Qed.

(** A build with address sanitizer installs none. *)
Definition filter_calls (j : minijail) : list oscall :=
  when (flag j F_seccomp_filter && negb running_with_asan) [filter_call j].

Lemma set_seccomp_filter_emits j : emits (set_seccomp_filter j) (filter_calls j).
Proof.
  unfold set_seccomp_filter, filter_calls.
  destruct (flag j F_seccomp_filter), running_with_asan; cbn [negb andb]; try apply emits_nil.
  apply emits_r. intros _. rewrite <- install_call_spec. apply emits_or_die.
Qed.

(** The bits NOROOT, NO_SETUID_FIXUP and KEEP_CAPS with their locks, in the order of the
    kernel; ambient capabilities stay possible.  The mask of the caller's is left out, and
    so is KEEP_CAPS (4) where it may be: with ambient capabilities, when the process
    cannot have it because it is off and locked (5). *)
Definition wanted_bit (j : minijail) (cur i : Z) : bool :=
  (0 <=? i) && (i <? 6) && negb (Z.testbit j.(securebits_skip_mask) i) &&
  negb ((i =? 4) && flag j F_set_ambient_caps && Z.testbit cur 5 && negb (Z.testbit cur 4)).

(** The secure bits: [cur] are those of the process, which only ambient capabilities ask
    for. *)
Inductive securebits_set (j : minijail) (t : trace) : list oscall → Prop :=
  | securebits_off : flag j F_use_caps = false → securebits_set j t []
  | securebits_on cur bits :
      flag j F_use_caps = true →
      (flag j F_set_ambient_caps = true → ∃ ans, (Prctl PR_GET_SECUREBITS [], ans) ∈ t ∧ rv ans = cur ∧ 0 <= cur) →
      (∀ i, 0 <= i → Z.testbit bits i = wanted_bit j cur i) →
      securebits_set j t (when (negb (bits =? 0)) [Prctl PR_SET_SECUREBITS [bits]]).

Lemma securebits_evidence j : evidence (securebits_set j).
Proof.
  intros t t' l Ht [H|cur bits H1 H2 H3]; [by constructor|]. apply (securebits_on _ _ cur); [done| |done].
  intros H. destruct (H2 H) as (ans & ? & ?). eauto.
Qed.

Lemma set_securebits_obtains bits :
  traces (set_securebits bits) (λ r t, 0 <= r →
    when (negb (bits =? 0)) [Prctl PR_SET_SECUREBITS [bits]] `sublist_of` succeeded t).
Proof.
  unfold set_securebits. destruct (bits =? 0); [intros _; apply sublist_nil_l|]. intros ans. cbn -[succeeded].
  destruct (rv ans <? 0) eqn:E; [lia|]. intros _. rewrite succeeded_cons. unfold successful; cbn [fst snd].
  by rewrite Z.eqb_refl, (proj2 (Z.leb_le 0 _)) by lia.
Qed.

Lemma lock_securebits_obtains j :
  obtains (if flag j F_use_caps then
             ret ← lock_securebits j.(securebits_skip_mask) (negb (flag j F_set_ambient_caps));
             if ret <? 0 then IDie else mret tt
           else mret tt) (securebits_set j).
Proof.
  destruct (flag j F_use_caps) eqn:Eu; [|intros _; exists []; split; [by constructor|done]].
  assert (∀ bits (t : trace), traces (ret ← set_securebits bits; if ret <? 0 then IDie else mret tt)
    (λ _ t', when (negb (bits =? 0)) [Prctl PR_SET_SECUREBITS [bits]] `sublist_of` succeeded (t ++ t'))) as Hset.
  { intros bits t. apply traces_bind. eapply traces_mono; [|apply set_securebits_obtains]. intros r t' H.
    destruct (r <? 0) eqn:E; [done|]. apply Z.ltb_ge in E. cbn. rewrite app_nil_r, succeeded_app.
    by apply sublist_inserts_l, H. }
  unfold lock_securebits. destruct (flag j F_set_ambient_caps) eqn:Ea; cbn [negb].
  - intros ans. cbn [mbind io_bind call]. destruct (rv ans <? 0) eqn:E; [done|]. apply Z.ltb_ge in E.
    eapply traces_mono; [|apply (Hset _ [(Prctl PR_GET_SECUREBITS [], ans)])]. intros u t Ht _. eexists. split; [|exact Ht].
    apply (securebits_on _ _ (rv ans)); [done|intros _; exists ans; split; [left|done]|].
    intros i Hi. rewrite securebits_to_set_spec by done. unfold wanted_bit.
    rewrite Ea, (proj2 (Z.leb_le 0 i)) by done. cbn [andb]. rewrite andb_true_r.
    by rewrite (andb_comm (negb _)), <- (andb_assoc (i =? 4)).
  - eapply traces_mono; [|apply (Hset _ [])]. intros u t Ht _. eexists. split; [|exact Ht].
    apply (securebits_on _ _ 0); [done|by rewrite Ea|].
    intros i Hi. rewrite securebits_to_set_spec by done. unfold wanted_bit.
    rewrite Ea, (proj2 (Z.leb_le 0 i)) by done. cbn [andb]. rewrite !andb_false_r.
    by rewrite (andb_comm (negb _)).
Qed.

(** Identity, capabilities, Landlock and filter, in the order that no_new_privs allows. *)
Definition privilege_calls (j : minijail) (last : Z) : list oscall :=
  if flag j F_no_new_privs then
    ugid_calls j ++ when (flag j F_use_caps) (caps_calls j last) ++ [no_new_privs_call] ++
    landlock_calls j ++ filter_calls j
  else
    landlock_calls j ++ filter_calls j ++ ugid_calls j ++ when (flag j F_use_caps) (caps_calls j last).

Lemma drop_privileges_obtains j last :
  obtains (drop_privileges j last)
    (followed_by (exactly (when (flag j F_capbset_drop) (bset_calls j.(cap_bset) last)))
       (followed_by (securebits_set j) (exactly (privilege_calls j last)))).
Proof.
  pose proof (securebits_evidence j).
  apply obtains_bind; [auto..|apply emits_obtains, emits_when, drop_capbset_emits|]. intros _.
  apply obtains_bind; [auto..|apply lock_securebits_obtains|]. intros _. apply emits_obtains.
  unfold privilege_calls. destruct (flag j F_no_new_privs) eqn:E.
  - apply emits_bind; [apply drop_ugid_emits|]. intros _.
    apply emits_bind; [apply drop_caps_emits|]. intros _.
    apply emits_bind; [pose proof (set_no_new_privs_emits j) as H0; by rewrite E in H0|]. intros _.
    apply emits_bind; [apply landlock_emits|]. intros _. apply set_seccomp_filter_emits.
  - apply emits_bind; [apply landlock_emits|]. intros _.
    apply emits_bind; [apply set_seccomp_filter_emits|]. intros _.
    apply emits_bind; [apply drop_ugid_emits|]. intros _. apply drop_caps_emits.
Qed.

(** Strict mode: a build that lets seccomp fail softly goes on without it only if the
    kernel did not know it. *)
Inductive strict_mode (j : minijail) (t : trace) : list oscall → Prop :=
  | strict_off : flag j F_seccomp = false → strict_mode j t []
  | strict_on : flag j F_seccomp = true → strict_mode j t [Prctl PR_SET_SECCOMP [SECCOMP_MODE_STRICT]]
  | strict_soft ans :
      flag j F_seccomp = true → seccomp_can_softfail = true →
      (Prctl PR_SET_SECCOMP [SECCOMP_MODE_STRICT], ans) ∈ t → rv ans ≠ 0 → eno ans = EINVAL →
      strict_mode j t [].

Lemma strict_mode_evidence j : evidence (strict_mode j).
Proof.
  intros t t' l Ht [H|H|ans H1 H2 H3 H4 H5]; [by apply strict_off|by apply strict_on|].
  apply (strict_soft _ _ ans); auto.
Qed.

Lemma enter_last_obtains j :
  obtains (enter_last j)
    (followed_by (exactly (when (flag j F_alt_syscall) [PrctlAltSyscall j.(alt_syscall_table)])) (strict_mode j)).
Proof.
  pose proof (strict_mode_evidence j).
  apply obtains_bind; [auto..|apply emits_obtains, emits_when, emits_or_die|]. intros _.
  destruct (flag j F_seccomp) eqn:Ef; [|intros _; exists []; split; [by apply strict_off|done]].
  intros ans. cbn [mbind io_bind call]. destruct (rv ans =? 0) eqn:E.
  - apply Z.eqb_eq in E. intros _. eexists. split; [by apply strict_on|].
    by rewrite succeeded_cons, successful_zero.
  - apply Z.eqb_neq in E. destruct (_ && _) eqn:E2; [|done]. apply andb_prop in E2 as [E2%Z.eqb_eq E3].
    intros _. exists []. split; [|apply sublist_nil_l]. eapply strict_soft; [done..|left|done|done].
Qed.

(** Everything a configuration asks for, in order. *)
Definition required (j : minijail) (last : Z) : trace → list oscall → Prop :=
  followed_by (exactly (mount_namespace_calls j)) (
  followed_by (exactly (other_namespace_calls j)) (
  followed_by (mounts_made j) (
  followed_by (exactly (root_calls j)) (
  followed_by (exactly (hook_calls j MINIJAIL_HOOK_EVENT_PRE_DROP_CAPS)) (
  followed_by
    (followed_by (exactly (when (flag j F_capbset_drop) (bset_calls j.(cap_bset) last)))
       (followed_by (securebits_set j) (exactly (privilege_calls j last))))
    (followed_by (exactly (when (flag j F_alt_syscall) [PrctlAltSyscall j.(alt_syscall_table)]))
       (strict_mode j))))))).

Lemma required_evidence j last : evidence (required j last).
Proof.
  pose proof (mounts_made_evidence j). pose proof (securebits_evidence j). pose proof (strict_mode_evidence j).
  unfold required. auto 15.
Qed.

(** The program of [minijail_enter] after the early checks. *)
Lemma enter_obtains j last :
  obtains (_ ← enter_mount_namespace j; _ ← enter_other_namespaces j; _ ← process_mounts_or_die j;
           _ ← enter_root j; _ ← run_hooks_or_die j MINIJAIL_HOOK_EVENT_PRE_DROP_CAPS;
           _ ← drop_privileges j last; enter_last j) (required j last).
Proof.
  pose proof (mounts_made_evidence j). pose proof (securebits_evidence j). pose proof (strict_mode_evidence j).
  unfold required.
  apply obtains_bind; [auto 15..|apply emits_obtains, mount_namespace_emits|]. intros _.
  apply obtains_bind; [auto 15..|apply emits_obtains, other_namespaces_emits|]. intros _.
  apply obtains_bind; [auto 15..|apply process_mounts_obtains|]. intros _.
  apply obtains_bind; [auto 15..|apply emits_obtains, enter_root_emits|]. intros _.
  apply obtains_bind; [auto 15..|apply emits_obtains, run_hooks_emits|]. intros _.
  apply obtains_bind; [auto 15..|apply drop_privileges_obtains|]. intros _. apply enter_last_obtains.
Qed.

(** What /proc reports as the last capability, in a trace that asked for it. *)
Definition reports_last_cap (t : trace) (last : Z) : Prop :=
  ∃ ans content neg v rest,
    (FopenRead (str "/proc/sys/kernel/cap_last_cap"), ans) ∈ t ∧ bytes ans = Some content ∧
    scan_number 10 (c_str content) = Some (neg, v, rest) ∧ last = u32 (signed_of neg v).

Lemma reports_last_cap_app t t' last : reports_last_cap t last → reports_last_cap (t ++ t') last.
Proof.
  intros (ans & content & neg & v & rest & Hin & H). exists ans, content, neg, v, rest.
  split; [|done]. apply elem_of_app. by left.
Qed.

Lemma get_last_cap_reports j :
  traces (if flag j F_capbset_drop || flag j F_use_caps then get_last_valid_cap else mret 0)
    (λ last t, flag j F_capbset_drop || flag j F_use_caps = true → reports_last_cap t last).
Proof.
  destruct (_ || _); [|done]. intros ans. simpl. destruct (bytes ans) as [content|] eqn:Eb; [|done].
  destruct (scan_number 10 _) as [[[neg v] rest]|] eqn:Es; [|done]. simpl. intros _.
  exists ans, content, neg, v, rest. split; [left|done].
Qed.

(** The jail was entered in [t]: everything it asks for was granted, in order. *)
Definition entered (j : minijail) (t : trace) : Prop :=
  ∃ last l, (flag j F_capbset_drop || flag j F_use_caps = true → reports_last_cap t last) ∧
            required j last t l ∧ l `sublist_of` succeeded t.

Lemma entered_app j t1 t2 t3 : entered j t2 → entered j (t1 ++ t2 ++ t3).
Proof.
  intros (last & l & Hl & Hr & Hs). exists last, l. split_and!.
  - intros Hf. destruct (Hl Hf) as (ans & content & neg & v & rest & Hin & H).
    exists ans, content, neg, v, rest. split; [|done]. rewrite !elem_of_app. auto.
  - eapply required_evidence; [|exact Hr]. set_solver.
  - rewrite !succeeded_app. by apply sublist_inserts_l, sublist_inserts_r.
Qed.

Lemma minijail_enter_traces j : traces (minijail_enter j) (λ _ t, Forall honest t → entered j t).
Proof.
  unfold minijail_enter. apply traces_bind.
  eapply (traces_mono _ (λ last t, flag j F_capbset_drop || flag j F_use_caps = true →
                                   reports_last_cap t last)); [|apply get_last_cap_reports].
  intros last t Hlast. destruct (flag j F_pids); [done|].
  destruct (flag j F_inherit_suppl_gids && _); [done|].
  eapply traces_mono; [|apply (enter_obtains j last)]. intros u t' Ht'.
  rewrite list.Forall_app. intros [_ Hh]. destruct (Ht' Hh) as (l & Hl & Hs). exists last, l. split_and!.
  - intros Hf. by apply reports_last_cap_app, Hlast.
  - eapply required_evidence; [|exact Hl]. set_solver.
  - rewrite succeeded_app. by apply sublist_inserts_l.
Qed.

(** The call hands the program to the kernel. *)
Definition installs (c : oscall) (prog : list sock_filter) : Prop :=
  c = PrctlSeccomp (Some prog) ∨ ∃ fl, c = SysSeccomp SECCOMP_SET_MODE_FILTER fl (Some prog).

(** In a jail that was entered with a filter, the kernel has accepted the filter. *)
Lemma entered_installs j t prog :
  entered j t → flag j F_seccomp_filter = true → running_with_asan = false → j.(filter_prog) = Some prog →
  ∃ c ans, (c, ans) ∈ t ∧ rv ans = 0 ∧ installs c prog.
Proof.
  intros (last & l & _ & Hreq & Hsub) Hf Ha Hprog.
  assert (filter_call j ∈ privilege_calls j last) as Hin.
  { unfold privilege_calls, filter_calls. rewrite Hf, Ha.
    assert (filter_call j ∈ [filter_call j]) by left. destruct (flag j F_no_new_privs);
      rewrite !elem_of_app; tauto. }
  assert (filter_call j ∈ succeeded t) as Hs.
  { eapply elem_of_sublist; [|exact Hsub].
    destruct Hreq as (?&?&->&_&?&?&->&_&?&?&->&_&?&?&->&_&?&?&->&_&?&?&->&(?&?&->&_&?&?&->&_&->)&_).
    rewrite !elem_of_app. tauto. }
  unfold succeeded in Hs. apply list_elem_of_fmap in Hs as ([c ans] & Hc & Hs). cbn in Hc.
  apply list_elem_of_filter in Hs as [Hok Hs]. exists c, ans. split_and!; [done| |].
  - rewrite <- Hc in Hok. unfold filter_call in Hok. by destruct (_ =? 0); apply Z.eqb_eq in Hok.
  - rewrite <- Hc. unfold filter_call, installs. rewrite Hprog. destruct (_ =? 0); eauto.
Qed.


(** ** The filter comes last *)

(** The last call of a return of [m] is [c], and it succeeded. *)
Definition ends {A} (m : io A) (c : oscall) : Prop :=
  traces m (λ _ t, ∃ t1 ans, t = t1 ++ [(c, ans)] ∧ rv ans = 0).

Lemma ends_r {A C} (m : io A) (f : A → io C) c : (∀ a, ends (f a) c) → ends (m ≫= f) c.
Proof.
  intros Hf. refine (traces_seq m f _ _ _ (traces_true m) Hf _).
  intros a b t t' _ (t1 & ans & -> & Hz). exists (t ++ t1), ans. by rewrite app_assoc.
Qed.

Lemma ends_or_die c : ends (or_die c) c.
Proof.
  intros ans. simpl. destruct (rv ans =? 0) eqn:E; simpl; [|done].
  exists [], ans. split; [done|by apply Z.eqb_eq].
Qed.

Lemma calls_only_or_die (Q : oscall → Prop) c : Q c → calls_only Q (or_die c).
Proof. intros Hc. split; [done|]. intros ans. simpl. by destruct (_ =? 0). Qed.

(** Decide [calls_only] for a loop-free program. *)
Ltac calls_tac :=
  cbv beta zeta;
  lazymatch goal with
  | |- calls_only _ (or_die _) => apply calls_only_or_die; calls_tac
  | |- calls_only _ (mbind _ _) => apply calls_only_bind; [|intros]; calls_tac
  | |- calls_only _ (call _) => split; [|intros; exact I]; calls_tac
  | |- calls_only _ (if ?b then _ else _) => destruct b; calls_tac
  | |- calls_only _ (match ?o with Some _ => _ | None => _ end) => destruct o; calls_tac
  | |- calls_only _ (match ?p with (_, _) => _ end) => destruct p; calls_tac
  | |- calls_only _ _ => try exact I
  | |- _ => idtac
  end.

Definition is_last_call (j : minijail) (c : oscall) : Prop :=
  c = PrctlAltSyscall j.(alt_syscall_table) ∨ c = Prctl PR_SET_SECCOMP [SECCOMP_MODE_STRICT].

Lemma enter_last_only j : calls_only (is_last_call j) (enter_last j).
Proof. unfold enter_last. calls_tac; [by left|by right]. Qed.

(** C21: with no_new_privs the filter is installed after everything else: when
    [minijail_enter] returns, the call that installed it is followed by nothing but
    the selection of the alternate table and strict mode, so a policy needs to
    allow none of the calls that drop privileges. *)
Theorem minijail_enter_filter_last j :
  flag j F_no_new_privs = true → flag j F_seccomp_filter = true → running_with_asan = false →
  traces (minijail_enter j) (λ _ t, ∃ t1 ans t2,
    t = t1 ++ (install_call j, ans) :: t2 ∧ rv ans = 0 ∧ Forall (λ e : event, is_last_call j e.1) t2).
Proof.
  intros Hnnp Hf Hasan.
  assert (∀ last, ends (drop_privileges j last) (install_call j)) as Hends.
  { intros last. do 2 (apply ends_r; intros _). rewrite Hnnp. do 4 (apply ends_r; intros _).
    unfold set_seccomp_filter. rewrite Hf, Hasan. cbn [andb]. apply ends_r. intros _. apply ends_or_die. }
  assert (∀ A (m : io A) (f : A → io unit) (P : trace → Prop),
            (∀ t t', P t' → P (t ++ t')) → (∀ a, traces (f a) (λ _, P)) → traces (m ≫= f) (λ _, P)) as Hr.
  { intros A m f P HP Hm. refine (traces_seq m f _ _ _ (traces_true m) Hm _). auto. }
  unfold minijail_enter.
  match goal with |- traces _ (λ _ t, @?P t) => pose (Q := P); change (λ _ t, _) with (λ _ : unit, Q) end.
  assert (∀ t t', Q t' → Q (t ++ t')) as HQ.
  { intros t t' (t1 & ans & t2 & -> & ?). exists (t ++ t1), ans, t2. by rewrite app_assoc. }
  apply Hr; [exact HQ|]. intros last. destruct (flag j F_pids); [done|]. destruct (_ && _); [done|].
  do 5 (apply Hr; [exact HQ|]; intros _).
  refine (traces_seq _ _ _ _ _ (Hends last) (λ _, calls_only_traces _ _ (enter_last_only j)) _).
  intros _ _ t t' (t1 & ans & -> & Hz) Ht'. exists t1, ans, t'. by rewrite <- app_assoc.
Qed.

(** ** The capability sets *)

(** What libcap's calls do: a working copy of the three sets, and the sets the
    process has; [cs_work w c] is whether capability [c] is in the set [w]. *)
Record capstate := { cs_work : Z → Z → bool; cs_applied : Z → Z → bool }.

Definition cap_effect (s : capstate) (c : oscall) : capstate :=
  match c with
  | CapClear => {| cs_work := λ _ _, false; cs_applied := s.(cs_applied) |}
  | CapSetFlag w c on =>
      {| cs_work := λ w' c', if (w' =? w) && (c' =? c) then on else s.(cs_work) w' c';
         cs_applied := s.(cs_applied) |}
  | CapSetProc => {| cs_work := s.(cs_work); cs_applied := s.(cs_work) |}
  | _ => s
  end.

Definition cap_step (s : capstate) (e : event) : capstate :=
  if successful e then cap_effect s e.1 else s.

Definition caps_after (t : trace) (s : capstate) : capstate := foldl cap_step s t.

Definition caps_to {A} (m : io A) (s : capstate) (Q : A → capstate → Prop) : Prop :=
  traces m (λ a t, Q a (caps_after t s)).

Lemma caps_bind {A C} (m : io A) (f : A → io C) s Q :
  caps_to m s (λ a s', caps_to (f a) s' Q) → caps_to (m ≫= f) s Q.
Proof.
  intros Hm. apply traces_bind. eapply traces_mono; [|exact Hm]. intros a t Hf.
  eapply traces_mono; [|exact Hf]. intros b t' HQ. unfold caps_after in *. by rewrite foldl_app.
Qed.

Lemma caps_mono {A} (m : io A) s (P Q : A → capstate → Prop) :
  (∀ a s', P a s' → Q a s') → caps_to m s P → caps_to m s Q.
Proof. intros H. apply traces_mono. auto. Qed.

Definition no_cap_call (c : oscall) : Prop :=
  match c with CapClear | CapSetFlag _ _ _ | CapSetProc => False | _ => True end.

Lemma caps_frame {A} (m : io A) s : calls_only no_cap_call m → caps_to m s (λ _ s', s' = s).
Proof.
  intros Hm. eapply traces_mono; [|apply calls_only_traces, Hm]. intros a t. unfold caps_after.
  induction t as [|[c ans] t IH]; simpl; intros Ht; [done|]. apply list.Forall_cons in Ht as [Hc Ht].
  assert (cap_step s (c, ans) = s) as ->; [|by apply IH].
  unfold cap_step, cap_effect. destruct (successful _); [|done]. by destruct c.
Qed.

(** A step that touches no set, in front of the rest. *)
Lemma caps_skip {A C} (m : io A) (f : A → io C) s Q :
  calls_only no_cap_call m → (∀ a, caps_to (f a) s Q) → caps_to (m ≫= f) s Q.
Proof.
  intros Hm Hf. apply caps_bind. eapply caps_mono; [|apply caps_frame, Hm]. intros a s' ->. apply Hf.
Qed.

Lemma caps_or_die c s (Q : unit → capstate → Prop) :
  Q tt (cap_effect s c) → caps_to (or_die c) s Q.
Proof.
  intros HQ ans. simpl. destruct (rv ans =? 0) eqn:E; simpl; [|done].
  unfold cap_step. by rewrite successful_zero by (by apply Z.eqb_eq).
Qed.

Definition is_flag (w : Z) : Prop := w = CAP_EFFECTIVE ∨ w = CAP_PERMITTED ∨ w = CAP_INHERITABLE.

Lemma set_cap_flags_caps c on s (Q : unit → capstate → Prop) :
  (∀ s', cs_applied s' = cs_applied s →
     (∀ w c', is_flag w → cs_work s' w c' = if c' =? c then on else cs_work s w c') → Q tt s') →
  caps_to (set_cap_flags c on) s Q.
Proof.
  intros HQ. unfold set_cap_flags. do 2 apply caps_bind, caps_or_die. apply caps_or_die.
  apply HQ; [done|]. intros w c' Hw. cbn [cap_effect cs_work].
  destruct (c' =? c) eqn:E; rewrite ?andb_true_r, ?andb_false_r; [|done].
  by destruct Hw as [-> | [-> | ->]].
Qed.

Lemma for_caps_caps n i last body (keep : Z → bool) s (Q : unit → capstate → Prop) :
  (∀ i, body i = if keep i then set_cap_flags i true else mret tt) →
  (∀ s', cs_applied s' = cs_applied s →
     (∀ w c, is_flag w → cs_work s' w c =
        if (i <=? c) && (c <? i + Z.of_nat n) && (c <=? last) && keep c then true
        else cs_work s w c) → Q tt s') →
  caps_to (for_caps n i last body) s Q.
Proof.
  intros Hb. revert i s. induction n as [|n IH]; intros i s HQ.
  { apply HQ; [done|]. intros w c _.
    change (Z.of_nat 0) with 0. rewrite Z.add_0_r.
    destruct (i <=? c) eqn:E1, (c <? i) eqn:E2; cbn [andb]; try done. exfalso; lia. }
  cbn [for_caps]. destruct (i <=? last) eqn:Ei.
  - apply caps_bind.
    apply (caps_mono _ _ (λ _ s', cs_applied s' = cs_applied s ∧ ∀ w c, is_flag w →
             cs_work s' w c = if (c =? i) && keep c then true else cs_work s w c)).
    + intros _ s1 [Ha Hw]. apply IH. intros s2 Ha2 Hw2. apply HQ; [congruence|].
      intros w c Hf. rewrite Hw2, Hw by done. rewrite Nat2Z.inj_succ.
      assert ((i <=? c) && (c <? i + Z.succ (Z.of_nat n)) && (c <=? last) =
              (c =? i) || ((i + 1 <=? c) && (c <? i + 1 + Z.of_nat n) && (c <=? last))) as ->.
      { apply Z.leb_le in Ei. apply eq_true_iff_eq.
        rewrite orb_true_iff, !andb_true_iff, !Z.leb_le, !Z.ltb_lt, Z.eqb_eq. lia. }
      destruct (c =? i), (_ && (c <=? last)), (keep c); done.
    + rewrite Hb. destruct (keep i) eqn:Ek.
      * apply set_cap_flags_caps. intros s' Ha Hw. split; [done|]. intros w c Hf. rewrite Hw by done.
        destruct (c =? i) eqn:E; [|done]. apply Z.eqb_eq in E. subst. by rewrite Ek.
      * split; [done|]. intros w c Hf. simpl. destruct (c =? i) eqn:E; [|done].
        apply Z.eqb_eq in E. subst. by rewrite Ek.
  - apply HQ; [done|]. intros w c _.
    destruct (i <=? c) eqn:E1, (c <=? last) eqn:E2; try (exfalso; lia); cbn [andb];
      rewrite ?andb_false_r; done.
Qed.

Lemma for_caps_only n i last Q (body : Z → io unit) :
  (∀ i, calls_only Q (body i)) → calls_only Q (for_caps n i last body).
Proof.
  intros Hb. revert i. induction n as [|n IH]; intros i; [exact I|]. cbn [for_caps].
  destruct (_ <=? _); [|exact I]. by apply calls_only_bind.
Qed.

Lemma drop_capbset_only keep last : calls_only no_cap_call (drop_capbset keep last).
Proof. apply for_caps_only. intros i. by calls_tac. Qed.

Lemma set_ambient_only j last : calls_only no_cap_call (set_ambient j last).
Proof.
  unfold set_ambient, cap_ambient_supported. calls_tac; try done. apply for_caps_only. intros i. by calls_tac.
Qed.

(** The sets a jail is left with: the capabilities asked for that exist. *)
Definition wanted_cap (j : minijail) (last c : Z) : bool :=
  (0 <=? c) && (c <? 64) && (c <=? last) && Z.testbit j.(caps) c.

Lemma drop_caps_caps j last s :
  flag j F_use_caps = true →
  caps_to (drop_caps j last) s (λ _ s', ∀ w c, is_flag w → cs_applied s' w c = wanted_cap j last c).
Proof.
  intros Huse. unfold drop_caps. rewrite Huse. cbn [negb].
  apply caps_skip; [by calls_tac|]. intros a. destruct (_ =? 0); [done|].
  apply caps_bind, caps_or_die.
  apply caps_bind. unfold raise_caps.
  apply (for_caps_caps _ _ _ _ (λ i, (i =? CAP_SETPCAP) || Z.testbit j.(caps) i)).
  { intros i. by destruct (i =? CAP_SETPCAP), (Z.testbit _ _). }
  intros s1 _ Hw1. apply caps_bind, caps_or_die.
  apply caps_skip; [destruct (secure_noroot_set_and_locked _); [apply drop_capbset_only|done]|]. intros _.
  apply caps_bind.
  apply (caps_mono _ _ (λ _ s2, ∀ w c, is_flag w → cs_work s2 w c = wanted_cap j last c)).
  - intros _ s2 Hw2. apply caps_bind, caps_or_die.
    apply caps_skip; [apply set_ambient_only|]. intros _. apply caps_skip; [by calls_tac|]. intros _.
    intros w c Hf. simpl. by apply Hw2.
  - unfold wanted_cap.
    destruct (Z.testbit (caps j) CAP_SETPCAP) eqn:Ep.
    + intros w c Hf. cbn [caps_after foldl cap_effect cs_work]. rewrite Hw1 by done.
      cbn [cap_effect cs_work].
      destruct (c =? CAP_SETPCAP) eqn:E; cbn [orb].
      * apply Z.eqb_eq in E. subst c. rewrite Ep. by destruct (_ && _).
      * by destruct (_ && _ && _), (Z.testbit _ _).
    + apply set_cap_flags_caps. intros s3 _ Hw3 w c Hf. rewrite Hw3 by done. cbn [cap_effect cs_work].
      rewrite Hw1 by done. cbn [cap_effect cs_work]. destruct (c =? CAP_SETPCAP) eqn:E; cbn [orb].
      * apply Z.eqb_eq in E. subst c. rewrite Ep. by rewrite andb_false_r.
      * by destruct (_ && _ && _), (Z.testbit _ _).
Qed.

Lemma traces_forall {A T} (m : io A) (P : T → A → trace → Prop) :
  (∀ x, traces m (P x)) → traces m (λ a t, ∀ x, P x a t).
Proof. revert P. induction m as [a| | | |c k IH]; simpl; intros P H; auto. Qed.

(** Whatever the sets are in front of it. *)
Lemma caps_any {A C} (m : io A) (f : A → io C) s Q :
  (∀ a s', caps_to (f a) s' Q) → caps_to (m ≫= f) s Q.
Proof. intros Hf. apply caps_bind. eapply traces_mono; [|apply traces_true]. intros. apply Hf. Qed.

Lemma caps_then {A} (m : io A) (f : A → io unit) s (P : capstate → Prop) :
  caps_to m s (λ _, P) → (∀ a, calls_only no_cap_call (f a)) → caps_to (m ≫= f) s (λ _, P).
Proof.
  intros Hm Hf. apply caps_bind. eapply caps_mono; [|exact Hm]. intros a s' HP.
  eapply caps_mono; [|apply caps_frame, Hf]. by intros _ ? ->.
Qed.

Lemma cleanup_fd_only fd : calls_only no_cap_call (cleanup_fd fd).
Proof. unfold cleanup_fd. by calls_tac. Qed.

Lemma landlock_only j : calls_only no_cap_call (apply_landlock_restrictions j).
Proof.
  unfold apply_landlock_restrictions, minijail_is_fs_restriction_available. calls_tac; try done.
  induction (fs_rules j) as [|r rs IH]; [exact I|]. cbn [populate_rules].
  apply calls_only_bind; [|done]. unfold populate_ruleset_internal.
  calls_tac; try done; apply cleanup_fd_only.
Qed.

Lemma set_seccomp_filter_only j : calls_only no_cap_call (set_seccomp_filter j).
Proof.
  unfold set_seccomp_filter, prepare_sigsys, seccomp_ret_log_available, seccomp_action_is_available,
    install_sigsys_handler. calls_tac; try done.
  unfold install_call. by destruct (_ || _).
Qed.

Lemma enter_last_no_cap j : calls_only no_cap_call (enter_last j).
Proof. unfold enter_last. by calls_tac. Qed.

Lemma privileges_caps j last s :
  flag j F_use_caps = true →
  caps_to (_ ← drop_privileges j last; enter_last j) s
    (λ _ s', ∀ w c, is_flag w → cs_applied s' w c = wanted_cap j last c).
Proof.
  intros Huse. apply caps_then; [|intros; apply enter_last_no_cap].
  do 2 (apply caps_any; intros _ ?). destruct (flag j F_no_new_privs).
  - apply caps_any. intros _ ?. apply caps_then; [by apply drop_caps_caps|]. intros _.
    apply calls_only_bind.
    { unfold set_no_new_privs, sys_set_no_new_privs. by calls_tac. }
    intros _. apply calls_only_bind; [apply landlock_only|]. intros _. apply set_seccomp_filter_only.
  - do 3 (apply caps_any; intros _ ?). by apply drop_caps_caps.
Qed.

(** C20: when [minijail_enter] returns from a jail that restricts capabilities, the
    effective, permitted and inheritable sets hold exactly the capabilities asked
    for that the kernel knows, whatever they held before: CAP_SETPCAP, which is kept
    to shrink the bounding set, is gone again unless it was asked for. *)
Theorem minijail_enter_caps j :
  flag j F_use_caps = true →
  traces (minijail_enter j) (λ _ t, ∃ last, reports_last_cap t last ∧
    ∀ s w c, is_flag w → cs_applied (caps_after t s) w c = wanted_cap j last c).
Proof.
  intros Huse. unfold minijail_enter. apply traces_bind.
  eapply traces_mono; [|apply get_last_cap_reports]. intros last t Hlast.
  destruct (flag j F_pids); [done|]. destruct (flag j F_inherit_suppl_gids && _); [done|].
  set (m := enter_mount_namespace j ≫= _).
  assert (∀ s, caps_to m s (λ _ s', ∀ w c, is_flag w → cs_applied s' w c = wanted_cap j last c)) as Hm.
  { intros s. do 5 (apply caps_any; intros _ ?). by apply privileges_caps. }
  eapply traces_mono; [|apply (traces_forall m _ Hm)].
  intros u t' Ht'. exists last. split; [apply reports_last_cap_app, Hlast; rewrite Huse; apply orb_true_r|].
  intros s. unfold caps_after in *. rewrite foldl_app. apply Ht'.
Qed.
End Enter.


(** ** An example *)

Definition confined_jail : minijail :=
  minijail_new
    <| uid := 1000 |> <| gid := 1000 |> <| caps := 1024 |> <| chrootdir := Some (str "/var/empty") |>
    <| filter_prog := Some [Instr 6 0 0 0] |> <| filter_len := 1 |>
    <| flags := {[F_uid; F_gid; F_use_caps; F_vfs; F_net; F_pivot_root; F_no_new_privs;
                  F_seccomp_filter]} |>.

(** A host that grants everything and knows the capabilities 0 to 40. *)
Definition kind_host (c : oscall) (h : unit) : answer * unit :=
  (match c with
   | FopenRead _ => Answer 0 0 (Some (str "40")) []
   | CapGetProc => returns 1
   | _ => ok
   end, h).

(** On it the example is entered, so the theorems speak of some return. *)
Lemma confined_jail_enters :
  (run_trace kind_host (minijail_enter (B:=example_config) confined_jail) tt).1.1 = Finished tt.
Proof. vm_compute. reflexivity. Qed.

Lemma minijail_enter_filter_last_witness :
  flag confined_jail F_no_new_privs = true ∧
  traces (minijail_enter (B:=example_config) confined_jail) (λ _ t, ∃ t1 ans t2,
    t = t1 ++ (install_call confined_jail, ans) :: t2 ∧ rv ans = 0 ∧
    Forall (λ e : event, is_last_call confined_jail e.1) t2).
Proof.
  split; [reflexivity|].
  apply (minijail_enter_filter_last (B:=example_config) confined_jail); reflexivity.
Defined.

Lemma minijail_enter_caps_witness :
  flag confined_jail F_use_caps = true ∧
  traces (minijail_enter (B:=example_config) confined_jail) (λ _ t, ∃ last, reports_last_cap t last ∧
    ∀ s w c, is_flag w → cs_applied (caps_after t s) w c = wanted_cap confined_jail last c).
Proof.
  split; [reflexivity|]. apply (minijail_enter_caps (B:=example_config) confined_jail). reflexivity.
Defined.
