(* ===== verification/Fds.v ===== *)
(** * Descriptors of the child (libminijail.c, lines 3104 to 3300)

    The child gives the descriptors it hands on their requested numbers.  A
    descriptor that is still needed and whose number is wanted is moved out of
    the way first. *)

From S2P Require Import Prelude CLib Util OS Jail.
Local Open Scope Z_scope.

Definition FD_SETSIZE : Z := 1024.
Definition EBADF : Z := 9.
Definition F_GETFD : Z := 1.
Definition F_SETFD : Z := 2.
Definition FD_CLOEXEC : Z := 1.

(** An fd_set has [FD_SETSIZE] bits; testing or setting another one is outside it. *)
Definition FD_ISSET (fd : Z) (s : gset Z) : io bool :=
  if (0 <=? fd) && (fd <? FD_SETSIZE) then mret (bool_decide (fd ∈ s)) else IUndef.

Definition FD_SET (fd : Z) (s : gset Z) : io (gset Z) :=
  if (0 <=? fd) && (fd <? FD_SETSIZE) then mret ({[fd]} ∪ s) else IUndef.

Definition fd_is_open (fd : Z) : io bool :=
  a ← call (Fcntl fd F_GETFD 0); mret (negb (rv a =? -1) || negb (eno a =? EBADF)).

(** The search for an unused descriptor, from [n] down. *)
Fixpoint find_unused (n : nat) (child_fds : gset Z) : io Z :=
  let fd := Z.of_nat n in
  b ← FD_ISSET fd child_fds;
  busy ← (if b : bool then mret true else fd_is_open fd);
  if negb busy then mret fd
  else match n with O => IDie | S n => find_unused n child_fds end.

(** The return value and the descriptor the file now has. *)
Definition ensure_no_fd_conflict (child_fds : gset Z) (child_fd parent_fd : Z) : io (Z * Z) :=
  b ← FD_ISSET parent_fd child_fds;
  if negb b then mret (0, parent_fd)
  else
    taken ← (if child_fd =? -1 then mret true else fd_is_open child_fd);
    fd ← (if taken : bool then find_unused (Z.to_nat (FD_SETSIZE - 1)) child_fds else mret child_fd);
    a ← call (Dup2 parent_fd fd);
    if rv a =? -1 then mret (-1, parent_fd) else mret (0, fd).

(** The loop over the descriptors: the return value, the descriptors with their
    new parents, and the set of the numbers that will be replaced. *)
Fixpoint get_child_fds (fds : list preserved_fd) (child_fds : gset Z)
    : io (Z * list preserved_fd * gset Z) :=
  match fds with
  | [] => mret (0, [], child_fds)
  | p :: rest =>
      b ← FD_ISSET p.(child_fd) child_fds;
      if b : bool then IDie
      else
        '(r, fd) ← ensure_no_fd_conflict child_fds p.(child_fd) p.(parent_fd);
        if r =? -1 then mret (-1, p :: rest, child_fds)
        else
          child_fds ← FD_SET p.(child_fd) child_fds;
          '(r, rest, child_fds) ← get_child_fds rest child_fds;
          mret (r, {| parent_fd := fd; child_fd := p.(child_fd) |} :: rest, child_fds)
  end.

(** One redirection; [false] is the return of -1. *)
Definition redirect_one (p : preserved_fd) : io bool :=
  if p.(parent_fd) =? p.(child_fd) then
    a ← call (Fcntl p.(child_fd) F_GETFD 0);
    if (rv a =? -1) || (Z.land (rv a) FD_CLOEXEC =? 0) then mret true
    else (_ ← call (Fcntl p.(child_fd) F_SETFD (Z.ldiff (rv a) FD_CLOEXEC)); mret true)
  else
    a ← call (Dup2 p.(parent_fd) p.(child_fd));
    mret (negb (rv a =? -1)).

Fixpoint redirect_all (fds : list preserved_fd) : io bool :=
  match fds with
  | [] => mret true
  | p :: rest => b ← redirect_one p; if b : bool then redirect_all rest else mret false
  end.

Fixpoint close_parents (fds : list preserved_fd) (child_fds : gset Z) : io unit :=
  match fds with
  | [] => mret tt
  | p :: rest =>
      b ← FD_ISSET p.(parent_fd) child_fds;
      _ ← (if b : bool then mret tt else (_ ← call (Close p.(parent_fd)); mret tt));
      close_parents rest child_fds
  end.

Definition redirect_fds (fds : list preserved_fd) (child_fds : gset Z) : io Z :=
  b ← redirect_all fds;
  if negb b then mret (-1) else (_ ← close_parents fds child_fds; mret 0).

(** ** The pipes *)

(** struct minijail_run_state: the descriptors of its pipes. *)
Record minijail_run_state := {
  child_pid : Z;
  pipe_fds : Z * Z;
  stdin_fds : Z * Z;
  stdout_fds : Z * Z;
  stderr_fds : Z * Z;
  child_sync_pipe_fds : Z * Z;
  child_env : option (list cstr);
}.

#[export] Instance eta_run_state : Eta minijail_run_state := λ s,
  {| child_pid := s.(child_pid); pipe_fds := s.(pipe_fds); stdin_fds := s.(stdin_fds);
     stdout_fds := s.(stdout_fds); stderr_fds := s.(stderr_fds);
     child_sync_pipe_fds := s.(child_sync_pipe_fds); child_env := s.(child_env) |}.

(** One end of a pipe, if it is there. *)
Definition move_end (child_fds : gset Z) (fd : Z) : io (Z * Z) :=
  if fd =? -1 then mret (0, fd) else ensure_no_fd_conflict child_fds (-1) fd.

(** Both ends; a failure at the first one leaves the second where it is. *)
Definition move_pipe (child_fds : gset Z) (p : Z * Z) : io (Z * (Z * Z)) :=
  '(r, a) ← move_end child_fds p.1;
  if r =? -1 then mret (-1, (a, p.2))
  else
    '(r, b) ← move_end child_fds p.2;
    mret (if r =? -1 then -1 else 0, (a, b)).

(** The pipes in the order of the array: configuration, synchronisation, stdin,
    stdout, stderr. *)
Definition avoid_pipe_conflicts (st : minijail_run_state) (child_fds : gset Z)
    : io (Z * minijail_run_state) :=
  '(r, p) ← move_pipe child_fds st.(pipe_fds);
  let st := st <| pipe_fds := p |> in
  if r =? -1 then mret (-1, st) else
  '(r, p) ← move_pipe child_fds st.(child_sync_pipe_fds);
  let st := st <| child_sync_pipe_fds := p |> in
  if r =? -1 then mret (-1, st) else
  '(r, p) ← move_pipe child_fds st.(stdin_fds);
  let st := st <| stdin_fds := p |> in
  if r =? -1 then mret (-1, st) else
  '(r, p) ← move_pipe child_fds st.(stdout_fds);
  let st := st <| stdout_fds := p |> in
  if r =? -1 then mret (-1, st) else
  '(r, p) ← move_pipe child_fds st.(stderr_fds);
  mret (if r =? -1 then -1 else 0, st <| stderr_fds := p |>).

(** The descriptor part of the child in minijail_run_internal: every failure ends
    the child. *)
Definition setup_child_fds (fds : list preserved_fd) (st : minijail_run_state) (elf_fd : Z)
    : io (list preserved_fd * minijail_run_state * Z) :=
  '(r, fds, child_fds) ← get_child_fds fds ∅;
  if negb (r =? 0) then IDie else
  '(r, st) ← avoid_pipe_conflicts st child_fds;
  if negb (r =? 0) then IDie else
  '(r, elf_fd) ← move_end child_fds elf_fd;
  if negb (r =? 0) then IDie else
  r ← redirect_fds fds child_fds;
  if negb (r =? 0) then IDie else mret (fds, st, elf_fd).
