(* ===== verification/FdsProps.v ===== *)
(** * The child's descriptors end up where they were asked to be

    Over a table of open descriptors: the moves in front of the redirection keep
    every file reachable, and the redirection as a whole is the simultaneous
    assignment that the list of preserved descriptors describes. *)

From S2P Require Import Prelude CLib Util OS Jail Fds.
Local Open Scope Z_scope.

(** ** Descriptor tables

    What the kernel documents of the calls the redirection makes: a descriptor
    number stands for an open file; fcntl(2) reports EBADF exactly for a number
    that is not open; dup2(2) makes a number stand for the same file, or fails. *)

Notation fdtable := (gmap Z Z).

Inductive fd_step (T : fdtable) : oscall → answer → fdtable → Prop :=
  | fd_getfd_open fd x ans :
      T !! fd = Some x → rv ans ≠ -1 → fd_step T (Fcntl fd F_GETFD 0) ans T
  | fd_getfd_closed fd ans :
      T !! fd = None → rv ans = -1 → eno ans = EBADF → fd_step T (Fcntl fd F_GETFD 0) ans T
  | fd_setfd fd v ans : fd_step T (Fcntl fd F_SETFD v) ans T
  | fd_dup2 old new x ans :
      T !! old = Some x → rv ans ≠ -1 → fd_step T (Dup2 old new) ans (<[new := x]> T)
  | fd_dup2_fails old new ans : rv ans = -1 → fd_step T (Dup2 old new) ans T
  | fd_close fd ans : fd_step T (Close fd) ans (delete fd T).

(** Every behaviour of [m] over such a table: no undefined behaviour, and [Q] of
    each return and the table then. *)
Fixpoint on_table {A} (m : io A) (T : fdtable) (Q : A → fdtable → Prop) : Prop :=
  match m with
  | IRet a => Q a T
  | IDie | ILoop => True
  | IUndef => False
  | ICall c k => ∀ ans T', fd_step T c ans T' → on_table (k ans) T' Q
  end.

Lemma on_table_bind {A B} (m : io A) (f : A → io B) T Q :
  on_table m T (λ a T', on_table (f a) T' Q) → on_table (m ≫= f) T Q.
Proof.
  revert T. induction m as [a| | | |c k IH]; intros T; simpl; try done. intros H ans T' Hs.
  by apply IH, H.
Qed.

Lemma on_table_mono {A} (m : io A) T (P Q : A → fdtable → Prop) :
  (∀ a T', P a T' → Q a T') → on_table m T P → on_table m T Q.
Proof.
  intros HPQ. revert T. induction m as [a| | | |c k IH]; intros T; simpl; eauto.
Qed.

(** ** The single steps *)

Definition in_set (fd : Z) : Prop := 0 <= fd < FD_SETSIZE.

Lemma FD_ISSET_spec fd s T (Q : bool → fdtable → Prop) :
  in_set fd → Q (bool_decide (fd ∈ s)) T → on_table (FD_ISSET fd s) T Q.
Proof.
  intros [H1 H2] HQ. unfold FD_ISSET.
  by rewrite (proj2 (Z.leb_le _ _) H1), (proj2 (Z.ltb_lt _ _) H2).
Qed.

Lemma FD_SET_spec fd s T (Q : gset Z → fdtable → Prop) :
  in_set fd → Q ({[fd]} ∪ s) T → on_table (FD_SET fd s) T Q.
Proof.
  intros [H1 H2] HQ. unfold FD_SET.
  by rewrite (proj2 (Z.leb_le _ _) H1), (proj2 (Z.ltb_lt _ _) H2).
Qed.

Lemma fd_is_open_spec fd T (Q : bool → fdtable → Prop) :
  Q (bool_decide (is_Some (T !! fd))) T → on_table (fd_is_open fd) T Q.
Proof.
  intros HQ ans T' Hs. simpl. inversion Hs as [? x ? Hx Hr|? ? Hx Hr He| | | |]; subst.
  - rewrite (proj2 (Z.eqb_neq _ _) Hr). simpl. by rewrite bool_decide_true in HQ by eauto.
  - rewrite Hr, He. simpl. rewrite bool_decide_false in HQ; [done|]. rewrite Hx. by intros [].
Qed.

Lemma dup2_spec old new T (Q : answer → fdtable → Prop) :
  (∀ ans, rv ans = -1 → Q ans T) →
  (∀ ans x, rv ans ≠ -1 → T !! old = Some x → Q ans (<[new := x]> T)) →
  on_table (call (Dup2 old new)) T Q.
Proof. intros Hf Ho ans T' Hs. inversion Hs; subst; simpl; eauto. Qed.

Lemma find_unused_spec n s T (Q : Z → fdtable → Prop) :
  Z.of_nat n < FD_SETSIZE →
  (∀ fd, in_set fd → fd ∉ s → T !! fd = None → Q fd T) → on_table (find_unused n s) T Q.
Proof.
  intros Hn HQ. induction n as [|n IH].
  all: cbn [find_unused]; apply on_table_bind, FD_ISSET_spec; [unfold in_set; lia|].
  all: apply on_table_bind.
  all: case_bool_decide as Hs; [cbn [on_table negb mret io_ret]; auto; apply IH; lia|].
  all: apply fd_is_open_spec; case_bool_decide as Ho; cbn [negb];
    [done || (apply IH; lia)|].
  all: apply HQ; [unfold in_set; lia|done|by apply eq_None_not_Some].
Qed.

(** A descriptor is left alone when its number is not wanted; otherwise it moves to
    a number that was free and is not wanted. *)
Lemma ensure_no_fd_conflict_spec s c p T (Q : Z * Z → fdtable → Prop) :
  in_set p → (c = -1 ∨ c ∉ s ∧ in_set c) →
  (∀ ret, ret = -1 → Q (ret, p) T) →
  (p ∉ s → Q (0, p) T) →
  (∀ fd x, p ∈ s → in_set fd → fd ∉ s → T !! fd = None → T !! p = Some x → Q (0, fd) (<[fd := x]> T)) →
  on_table (ensure_no_fd_conflict s c p) T Q.
Proof.
  intros Hp Hc Hfail Hkeep Hmove. apply on_table_bind, FD_ISSET_spec; [done|].
  case_bool_decide as Hs; cbn [negb]; [|by apply Hkeep].
  assert (∀ fd, in_set fd → fd ∉ s → T !! fd = None →
            on_table (a ← call (Dup2 p fd); if rv a =? -1 then mret (-1, p) else mret (0, fd)) T Q) as Hdup.
  { intros fd Hr Hn Ho. apply on_table_bind, dup2_spec.
    - intros ans Hz. rewrite Hz. simpl. by apply Hfail.
    - intros ans x Hz Hx. rewrite (proj2 (Z.eqb_neq _ _) Hz). simpl. by apply Hmove. }
  apply on_table_bind.
  assert (on_table (fd ← find_unused (Z.to_nat (FD_SETSIZE - 1)) s;
                    a ← call (Dup2 p fd); if rv a =? -1 then mret (-1, p) else mret (0, fd)) T Q) as Hfind.
  { apply on_table_bind, find_unused_spec; [unfold FD_SETSIZE; lia|]. auto. }
  destruct (c =? -1) eqn:Ec; [exact Hfind|]. apply Z.eqb_neq in Ec. destruct Hc as [->|[Hcs Hci]]; [done|].
  apply fd_is_open_spec. case_bool_decide as Ho; [exact Hfind|].
  apply Hdup; [done|done|]. by apply eq_None_not_Some.
Qed.

(** ** Relocation: what [get_child_fds] leaves behind

    [relocated s T l l' T']: with the numbers [s] already promised, the list [l]
    becomes [l'] and the table [T] becomes [T']. *)
Inductive relocated : gset Z → fdtable → list preserved_fd → list preserved_fd → fdtable → Prop :=
  | relocated_nil s T : relocated s T [] [] T
  | relocated_keep s T p l l' T' :
      p.(child_fd) ∉ s → p.(parent_fd) ∉ s →
      relocated ({[p.(child_fd)]} ∪ s) T l l' T' → relocated s T (p :: l) (p :: l') T'
  | relocated_move s T p fd x l l' T' :
      p.(child_fd) ∉ s → p.(parent_fd) ∈ s → in_set fd → fd ∉ s → T !! fd = None →
      T !! p.(parent_fd) = Some x →
      relocated ({[p.(child_fd)]} ∪ s) (<[fd := x]> T) l l' T' →
      relocated s T (p :: l) ({| parent_fd := fd; child_fd := p.(child_fd) |} :: l') T'.

Definition fds_in_range (l : list preserved_fd) : Prop :=
  Forall (λ p, in_set p.(parent_fd) ∧ in_set p.(child_fd)) l.

Definition children (l : list preserved_fd) : gset Z := list_to_set (child_fd <$> l).
Definition parents (l : list preserved_fd) : gset Z := list_to_set (parent_fd <$> l).

Lemma get_child_fds_spec l s T (Q : Z * list preserved_fd * gset Z → fdtable → Prop) :
  fds_in_range l →
  (∀ ret l' s' T', ret ≠ 0 → Q (ret, l', s') T') →
  (∀ l' T', relocated s T l l' T' → Q (0, l', children l ∪ s) T') →
  on_table (get_child_fds l s) T Q.
Proof.
  intros Hr. revert s T Q. induction Hr as [|p l [Hp Hc] Hl IH]; intros s T Q Hfail Hok.
  { specialize (Hok [] T (relocated_nil _ _)). by replace (children [] ∪ s) with s in Hok by set_solver. }
  cbn [get_child_fds]. apply on_table_bind, FD_ISSET_spec; [done|]. case_bool_decide as Hcs; [done|].
  assert (∀ fd T1, (∀ l' T', relocated ({[child_fd p]} ∪ s) T1 l l' T' →
                      relocated s T (p :: l) ({| parent_fd := fd; child_fd := child_fd p |} :: l') T') →
            on_table (child_fds ← FD_SET (child_fd p) s;
                      '(r, rest, child_fds) ← get_child_fds l child_fds;
                      mret (r, {| parent_fd := fd; child_fd := child_fd p |} :: rest, child_fds)) T1 Q) as Hrest.
  { intros fd T1 Hrel. apply on_table_bind, FD_SET_spec; [done|]. apply on_table_bind, IH.
    - intros ret l' s' T' Hret. by apply Hfail.
    - intros l' T' HT'. cbn. replace (children l ∪ ({[child_fd p]} ∪ s)) with (children (p :: l) ∪ s).
      + by apply Hok, Hrel.
      + unfold children. rewrite fmap_cons, list_to_set_cons. set_solver. }
  apply on_table_bind, ensure_no_fd_conflict_spec; [done|by right| | |].
  - intros ret ->. cbn. by apply Hfail.
  - intros Hps. apply Hrest. intros l' T' HT'.
    replace {| parent_fd := _; child_fd := _ |} with p by (by destruct p). by constructor.
  - intros fd x Hps Hfd Hfs Hn Hx. apply Hrest. intros l' T' HT'. by eapply relocated_move.
Qed.

(** Nothing that was open is lost, and every new parent stands for the old one's file. *)
Lemma relocated_subseteq s T l l' T' : relocated s T l l' T' → T ⊆ T'.
Proof.
  induction 1 as [| |s T p fd x l l' T' ????? _ ? IH]; [done|done|].
  etrans; [|exact IH]. by apply insert_subseteq.
Qed.

Lemma relocated_children s T l l' T' :
  relocated s T l l' T' →
  child_fd <$> l' = child_fd <$> l ∧ NoDup (child_fd <$> l) ∧ (∀ c, c ∈ child_fd <$> l → c ∉ s).
Proof.
  induction 1 as [s T|s T p l l' T' Hc Hp _ (IH1 & IH2 & IH3)|s T p fd x l l' T' Hc Hp Hr Hf Hn Hx _ (IH1 & IH2 & IH3)].
  { split_and!; [done|constructor|]. intros c Hc. by apply elem_of_nil in Hc. }
  all: rewrite !fmap_cons; split_and!; [by f_equal/=|constructor; [|done]|].
  1,3: intros Hin; specialize (IH3 _ Hin); set_solver.
  all: intros c [->|Hin]%elem_of_cons; [done|]; specialize (IH3 _ Hin); set_solver.
Qed.

Lemma relocated_files T0 s T l l' T' :
  relocated s T l l' T' → T0 ⊆ T → Forall (λ p, is_Some (T0 !! p.(parent_fd))) l →
  Forall2 (λ p p', p'.(child_fd) = p.(child_fd) ∧ T' !! p'.(parent_fd) = T0 !! p.(parent_fd)) l l'.
Proof.
  induction 1 as [s T|s T p l l' T' Hc Hp Hrel IH|s T p fd x l l' T' Hc Hp Hr Hf Hn Hx Hrel IH];
    intros Hsub Hop; [constructor| |];
    apply list.Forall_cons in Hop as [[y Hy] Hop]; pose proof (relocated_subseteq _ _ _ _ _ Hrel) as HT'.
  - constructor; [|by apply IH]. split; [done|]. rewrite Hy.
    eapply lookup_weaken; [exact Hy|]. by etrans.
  - constructor.
    + split; [done|]. cbn. pose proof (lookup_weaken _ _ _ _ Hy Hsub). simplify_eq. rewrite Hy.
      eapply lookup_weaken; [apply lookup_insert_eq|exact HT'].
    + apply IH; [|done]. etrans; [exact Hsub|]. by apply insert_subseteq.
Qed.

(** Outside the new parents the table is the old one; a new parent is an old one or
    was free; an old parent is a new one or is promised to a child. *)
Lemma relocated_frame s T l l' T' :
  relocated s T l l' T' →
  (∀ f, f ∉ parents l' → T' !! f = T !! f) ∧
  (∀ f, f ∈ parents l' → f ∈ parents l ∨ T !! f = None) ∧
  (∀ f, f ∈ parents l → f ∈ parents l' ∨ f ∈ children l ∪ s).
Proof.
  unfold parents, children.
  induction 1 as [s T|s T p l l' T' Hc Hp Hrel (IH1 & IH2 & IH3)
                 |s T p fd x l l' T' Hc Hp Hr Hf Hn Hx Hrel (IH1 & IH2 & IH3)]; [set_solver|set_solver|].
  rewrite !fmap_cons, !list_to_set_cons. cbn [parent_fd child_fd]. split_and!.
  - intros f Hnf. rewrite IH1 by set_solver. apply lookup_insert_ne. set_solver.
  - intros f [->%elem_of_singleton|Hin]%elem_of_union; [by right|].
    destruct (IH2 f Hin) as [?|Hfree]; [set_solver|]. right.
    by apply lookup_insert_None in Hfree as [? _].
  - intros f [->%elem_of_singleton|Hin]%elem_of_union; [set_solver|]. destruct (IH3 f Hin); set_solver.
Qed.

(** ** Redirection *)

(** Each parent is still in place when its turn comes. *)
Inductive ordered : gset Z → list preserved_fd → Prop :=
  | ordered_nil s : ordered s []
  | ordered_cons s p l :
      p.(child_fd) ∉ s → p.(parent_fd) ∉ s → ordered ({[p.(child_fd)]} ∪ s) l → ordered s (p :: l).

Lemma relocated_ordered s T l l' T' : relocated s T l l' T' → ordered s l'.
Proof. induction 1; by constructor. Qed.

Lemma ordered_fresh s l : ordered s l → ∀ p, p ∈ l → p.(child_fd) ∉ s.
Proof.
  induction 1 as [s|s q l Hc Hp Ho IH]; intros p; [by intros ?%elem_of_nil|].
  intros [->|Hin]%elem_of_cons; [done|]. specialize (IH p Hin). set_solver.
Qed.

Lemma elem_of_children p l : p ∈ l → p.(child_fd) ∈ children l.
Proof. intros Hp. apply elem_of_list_to_set, list_elem_of_fmap. eauto. Qed.

Lemma children_cons p l : children (p :: l) = {[p.(child_fd)]} ∪ children l.
Proof. done. Qed.

Lemma redirect_one_spec p (R : fdtable) (Q : bool → fdtable → Prop) :
  (∀ R', Q false R') →
  (∀ R' : fdtable, R' !! p.(child_fd) = R !! p.(parent_fd) →
         (∀ f, f ≠ p.(child_fd) → R' !! f = R !! f) → Q true R') →
  on_table (redirect_one p) R Q.
Proof.
  intros Hfail Hok. unfold redirect_one. destruct (parent_fd p =? child_fd p) eqn:E.
  - apply Z.eqb_eq in E. assert (Q true R) as HR by (apply Hok; [by rewrite E|done]).
    intros ans R1 Hs. assert (R1 = R) as -> by (by inversion Hs).
    destruct ((rv ans =? -1) || (Z.land (rv ans) FD_CLOEXEC =? 0)) eqn:Eb;
      cbn [on_table mbind io_bind call mret io_ret]; rewrite Eb; [done|].
    intros ans' R2 Hs'. assert (R2 = R) as -> by (by inversion Hs'). done.
  - apply on_table_bind, dup2_spec.
    + intros ans Hz. rewrite Hz. apply Hfail.
    + intros ans x Hz Hx. rewrite (proj2 (Z.eqb_neq _ _) Hz). apply Hok.
      * by rewrite lookup_insert_eq.
      * intros f Hf. by apply lookup_insert_ne.
Qed.

(** With the children [s] done, the table [R] is [T] outside them. *)
Lemma redirect_all_spec l s (T R : fdtable) (Q : bool → fdtable → Prop) :
  ordered s l → (∀ f, f ∉ s → R !! f = T !! f) →
  (∀ R', Q false R') →
  (∀ R' : fdtable, (∀ p, p ∈ l → R' !! p.(child_fd) = T !! p.(parent_fd)) →
         (∀ f, f ∉ children l → R' !! f = R !! f) → Q true R') →
  on_table (redirect_all l) R Q.
Proof.
  intros Ho. revert R Q. induction Ho as [s|s p l Hc Hp Ho IH]; intros R Q HR Hfail Hok.
  { apply Hok; [|done]. by intros p ?%elem_of_nil. }
  apply on_table_bind, redirect_one_spec; [done|]. intros R1 H1 H2. rewrite (HR _ Hp) in H1.
  apply IH; [|done|].
  { intros f Hf. rewrite H2 by set_solver. apply HR. set_solver. }
  assert (child_fd p ∉ children l) as Hpl.
  { intros (q & Heq & Hq)%elem_of_list_to_set%list_elem_of_fmap.
    pose proof (ordered_fresh _ _ Ho q Hq). set_solver. }
  intros R' Hch Hfr. apply Hok.
  - intros q [->|Hq]%elem_of_cons; [by rewrite Hfr|by apply Hch].
  - intros f Hf. rewrite children_cons in Hf. rewrite Hfr by set_solver. apply H2. set_solver.
Qed.

Lemma close_parents_spec l s (T : fdtable) (Q : unit → fdtable → Prop) :
  Forall (λ p, in_set p.(parent_fd)) l →
  (∀ T' : fdtable, (∀ f, f ∈ parents l → f ∉ s → T' !! f = None) →
         (∀ f, f ∉ parents l ∨ f ∈ s → T' !! f = T !! f) → Q tt T') →
  on_table (close_parents l s) T Q.
Proof.
  intros Hr. revert T Q. induction Hr as [|p l Hp _ IH]; intros T Q HQ.
  { apply HQ; [set_solver|done]. }
  cbn [close_parents]. apply on_table_bind, FD_ISSET_spec; [done|]. unfold parents in *.
  case_bool_decide as Hs; apply on_table_bind.
  - apply IH. intros T' H1 H2. apply HQ; intros f; rewrite fmap_cons, list_to_set_cons; set_solver.
  - intros ans T1 Hstep. assert (T1 = delete (parent_fd p) T) as -> by (by inversion Hstep).
    apply IH. intros T' H1 H2. apply HQ; intros f; rewrite fmap_cons, list_to_set_cons.
    + intros Hf Hfs. destruct (decide (f ∈ (list_to_set (parent_fd <$> l) : gset Z))) as [Hin|Hout]; [by apply H1|].
      rewrite H2 by by left. assert (f = parent_fd p) as -> by set_solver. apply lookup_delete_eq.
    + intros Hf. assert (f ≠ parent_fd p) by set_solver. rewrite H2 by set_solver. by apply lookup_delete_ne.
Qed.

(** ** The pipes *)

(** The ends in the order in which they are moved. *)
Definition pipe_ends (st : minijail_run_state) : list Z :=
  [st.(pipe_fds).1; st.(pipe_fds).2; st.(child_sync_pipe_fds).1; st.(child_sync_pipe_fds).2;
   st.(stdin_fds).1; st.(stdin_fds).2; st.(stdout_fds).1; st.(stdout_fds).2;
   st.(stderr_fds).1; st.(stderr_fds).2].

(** With the numbers [s] wanted by the children, the ends [l] become [l']. *)
Inductive moved (s : gset Z) : fdtable → list Z → list Z → fdtable → Prop :=
  | moved_nil T : moved s T [] [] T
  | moved_keep T e l l' T' : e ∉ s → moved s T l l' T' → moved s T (e :: l) (e :: l') T'
  | moved_away T e fd x l l' T' :
      in_set fd → fd ∉ s → T !! fd = None → T !! e = Some x →
      moved s (<[fd := x]> T) l l' T' → moved s T (e :: l) (fd :: l') T'.

Definition end_ok (e : Z) : Prop := e = -1 ∨ in_set e.

Lemma moved_one s T e e' T' l l' T'' :
  moved s T [e] [e'] T' → moved s T' l l' T'' → moved s T (e :: l) (e' :: l') T''.
Proof.
  intros H. inversion H as [|? ? ? ? ? Hs Hn|? ? ? ? ? ? ? Hi Hs Hf Hx Hn]; subst;
    inversion Hn; subst; intros Hl; by econstructor.
Qed.

Lemma move_end_spec s e T (Q : Z * Z → fdtable → Prop) :
  end_ok e → -1 ∉ s →
  (∀ ret e' T', ret = -1 → Q (ret, e') T') →
  (∀ e' T', moved s T [e] [e'] T' → Q (0, e') T') → on_table (move_end s e) T Q.
Proof.
  intros He Hneg Hfail Hok. unfold move_end. destruct (e =? -1) eqn:E.
  { apply Z.eqb_eq in E as ->. apply Hok. repeat constructor. done. }
  apply Z.eqb_neq in E. destruct He as [?|He]; [done|].
  apply ensure_no_fd_conflict_spec; [done|by left| | |].
  - intros ret Hret. by apply Hfail.
  - intros Hs. apply Hok. by repeat constructor.
  - intros fd x Hs Hi Hfd Hn Hx. apply Hok. eapply moved_away; eauto using moved_nil.
Qed.

Lemma move_pipe_spec s p T (Q : Z * (Z * Z) → fdtable → Prop) :
  end_ok p.1 → end_ok p.2 → -1 ∉ s →
  (∀ ret p' T', ret = -1 → Q (ret, p') T') →
  (∀ p' T1 T', moved s T [p.1] [p'.1] T1 → moved s T1 [p.2] [p'.2] T' → Q (0, p') T') →
  on_table (move_pipe s p) T Q.
Proof.
  intros H1 H2 Hneg Hfail Hok. apply on_table_bind, move_end_spec; [done|done| |].
  { intros ret e' T' ->. cbn. by apply Hfail. }
  intros e1 T1 HT1. cbn. apply on_table_bind, move_end_spec; [done|done| |].
  { intros ret e' T' ->. cbn. by apply Hfail. }
  intros e2 T2 HT2. cbn. by eapply (Hok (e1, e2)).
Qed.

Ltac pipe_step H :=
  apply on_table_bind, move_pipe_spec;
  [by apply (proj1 (list.Forall_forall _ _) H); cbn; set_solver
  |by apply (proj1 (list.Forall_forall _ _) H); cbn; set_solver|done
  |intros ? ? ? ->; cbn; eauto|intros [? ?] ? ? ? ?; cbn].

Lemma avoid_pipe_conflicts_spec s st T (Q : Z * minijail_run_state → fdtable → Prop) :
  Forall end_ok (pipe_ends st) → -1 ∉ s →
  (∀ st' T', Q (-1, st') T') →
  (∀ st' T', moved s T (pipe_ends st) (pipe_ends st') T' → Q (0, st') T') →
  on_table (avoid_pipe_conflicts st s) T Q.
Proof.
  intros He Hneg Hfail Hok. destruct st as [pid [a1 a2] [c1 c2] [d1 d2] [e1 e2] [b1 b2] env].
  unfold pipe_ends in He. cbn in He. do 5 pipe_step He.
  apply Hok. unfold pipe_ends. cbn in *. eauto 12 using moved_one, moved_nil.
Qed.

Lemma moved_subseteq s T l l' T' : moved s T l l' T' → T ⊆ T'.
Proof.
  induction 1 as [| |T e fd x l l' T' Hi Hs Hn Hx _ IH]; [done|done|].
  etrans; [|exact IH]. by apply insert_subseteq.
Qed.

Lemma moved_app s T l1 l1' T1 l2 l2' T2 :
  moved s T l1 l1' T1 → moved s T1 l2 l2' T2 → moved s T (l1 ++ l2) (l1' ++ l2') T2.
Proof. induction 1; intros Hl; simpl; try econstructor; eauto. Qed.

(** No end is left on a wanted number; an end that moves takes a number that was
    free; a file that was open is still the end's. *)
Lemma moved_ends T0 s T l l' T' :
  moved s T l l' T' → T0 ⊆ T →
  Forall2 (λ e e', e' ∉ s ∧ (e' = e ∨ T0 !! e' = None ∧ e ≠ e' ∧ is_Some (T' !! e)) ∧
                   (is_Some (T0 !! e) → T' !! e' = T0 !! e)) l l'.
Proof.
  induction 1 as [T|T e l l' T' Hs Hm IH|T e fd x l l' T' Hi Hs Hn Hx Hm IH]; intros Hsub; constructor.
  - split_and!; [done|by left|]. intros [y Hy]. rewrite Hy. eapply lookup_weaken; [exact Hy|].
    etrans; [exact Hsub|by eapply moved_subseteq].
  - by apply IH.
  - pose proof (moved_subseteq _ _ _ _ _ Hm) as HT'. assert (fd ≠ e) as Hne by congruence. split_and!; [done| |].
    + right. split_and!; [by eapply lookup_weaken_None|done|]. exists x. eapply lookup_weaken; [|exact HT'].
      by rewrite lookup_insert_ne.
    + intros [y Hy]. pose proof (lookup_weaken _ _ _ _ Hy Hsub). simplify_eq. rewrite Hy.
      eapply lookup_weaken; [apply lookup_insert_eq|exact HT'].
  - apply IH. etrans; [exact Hsub|by apply insert_subseteq].
Qed.

Lemma moved_frame s T l l' T' : moved s T l l' T' → ∀ f, f ∉ l' → T' !! f = T !! f.
Proof.
  induction 1 as [T|T e l l' T' Hs _ IH|T e fd x l l' T' Hi Hs Hn Hx _ IH]; intros f Hf; [done| |];
    apply not_elem_of_cons in Hf as [Hne Hf]; rewrite IH by done; [done|]. by apply lookup_insert_ne.
Qed.

(** ** All of it *)

Lemma redirect_fds_spec l s (T : fdtable) (Q : Z → fdtable → Prop) :
  ordered ∅ l → Forall (λ p, in_set p.(parent_fd)) l → children l ⊆ s →
  (∀ T', Q (-1) T') →
  (∀ T' : fdtable, (∀ p, p ∈ l → T' !! p.(child_fd) = T !! p.(parent_fd)) →
     (∀ f, f ∈ parents l → f ∉ s → T' !! f = None) →
     (∀ f, f ∉ children l → f ∉ parents l ∨ f ∈ s → T' !! f = T !! f) → Q 0 T') →
  on_table (redirect_fds l s) T Q.
Proof.
  intros Ho Hr Hch Hfail Hok. apply on_table_bind.
  eapply redirect_all_spec; [exact Ho|done|done|]. intros R H1 H2. cbn [negb].
  apply on_table_bind, close_parents_spec; [done|]. intros T' H3 H4. apply Hok.
  - intros p Hp. rewrite H4; [by apply H1|]. right. apply Hch. by apply elem_of_children.
  - done.
  - intros f Hf Hpf. rewrite H4 by done. by apply H2.
Qed.

Lemma relocated_in_range s T l l' T' :
  relocated s T l l' T' → fds_in_range l → Forall (λ p, in_set p.(parent_fd)) l'.
Proof.
  induction 1 as [| |]; intros Hr; [constructor| |]; apply list.Forall_cons in Hr as [[? ?] Hr];
    constructor; eauto.
Qed.

(** What the child is meant to get: [ends'] are the new numbers of the descriptors
    [ends] that minijail needs for itself. *)
Record redirected (l : list preserved_fd) (ends ends' : list Z) (T T' : fdtable) : Prop := {
  redirected_children : ∀ p, p ∈ l → T' !! p.(child_fd) = T !! p.(parent_fd);
  redirected_closed : ∀ f, f ∈ parents l → f ∉ children l → T' !! f = None;
  redirected_ends : Forall2 (λ e e', e' ∉ children l ∧ (e = -1 → e' = -1) ∧
                               (e ≠ -1 → T' !! e' = T !! e)) ends ends';
  redirected_rest : ∀ f, f ∉ parents l → f ∉ children l → f ∉ ends' → T' !! f = T !! f;
}.

Lemma relocated_moved_redirected l l' es es' (T T1 T2 T' : fdtable) :
  relocated ∅ T l l' T1 → moved (children l) T1 es es' T2 →
  Forall (λ p, is_Some (T !! p.(parent_fd))) l →
  Forall (λ e, e = -1 ∨ is_Some (T !! e) ∧ e ∉ parents l) es → T2 !! (-1) = None →
  (∀ p, p ∈ l' → T' !! p.(child_fd) = T2 !! p.(parent_fd)) →
  (∀ f, f ∈ parents l' → f ∉ children l → T' !! f = None) →
  (∀ f, f ∉ children l → f ∉ parents l' → T' !! f = T2 !! f) →
  redirected l es es' T T'.
Proof.
  intros Hrel Hm Hop Hes Hneg H1 H2 H3.
  pose proof (relocated_subseteq _ _ _ _ _ Hrel) as HT1. pose proof (moved_subseteq _ _ _ _ _ Hm) as HT2.
  destruct (relocated_frame _ _ _ _ _ Hrel) as (Hf1 & Hf2 & Hf3).
  pose proof (relocated_files T _ _ _ _ _ Hrel (reflexivity _) Hop) as Hfiles.
  assert (∀ f, f ∈ parents l' → is_Some (T1 !! f)) as Hopen.
  { intros f (p' & -> & Hp')%elem_of_list_to_set%list_elem_of_fmap.
    apply list_elem_of_lookup in Hp' as [i Hi].
    destruct (Forall2_lookup_r _ _ _ _ _ Hfiles Hi) as (p & Hp & _ & ->).
    by apply (list.Forall_lookup_1 _ _ _ _ Hop Hp). }
  split.
  - intros p [i Hi]%list_elem_of_lookup. destruct (Forall2_lookup_l _ _ _ _ _ Hfiles Hi) as (p' & Hp' & <- & Heq).
    destruct (list.Forall_lookup_1 _ _ _ _ Hop Hi) as [x Hx]. rewrite H1 by (by eapply list_elem_of_lookup_2).
    rewrite Hx in *. by eapply lookup_weaken.
  - intros f Hp Hc. apply H2; [|done]. destruct (Hf3 f Hp); [done|set_solver].
  - pose proof (moved_ends T1 _ _ _ _ _ Hm (reflexivity _)) as He.
    apply Forall2_same_length_lookup. split; [by eapply Forall2_length|]. intros i e e' Hi Hi'.
    destruct (Forall2_lookup_lr _ _ _ _ _ _ He Hi Hi') as (Hs & Hcase & Hfile).
    pose proof (list.Forall_lookup_1 _ _ _ _ Hes Hi) as Hee. cbn in Hee. split_and!; [done| |].
    + intros ->. destruct Hcase as [?|(_ & _ & [y Hy])]; [done|congruence].
    + intros Hne. destruct Hee as [?|[[x Hx] Hpar]]; [done|]. rewrite Hx.
      pose proof (lookup_weaken _ _ _ _ Hx HT1) as Hx1. rewrite Hx1 in Hfile. rewrite H3; [by apply Hfile; eauto|done|].
      intros Hin. destruct Hcase as [->|(Hn & _)].
      * destruct (Hf2 _ Hin); [done|congruence].
      * destruct (Hopen _ Hin). congruence.
  - intros f Hp Hc He. destruct (decide (f ∈ parents l')) as [Hin|Hout].
    + destruct (Hf2 f Hin) as [?|Hn]; [done|]. by rewrite Hn, H2.
    + by rewrite H3, (moved_frame _ _ _ _ _ Hm), Hf1 by done.
Qed.

Lemma relocated_negative s T l l' T' : relocated s T l l' T' → T !! (-1) = None → T' !! (-1) = None.
Proof.
  induction 1 as [| |s T p fd x l l' T' Hc Hp [? _] Hf Hn Hx Hrel IH]; intros Hm; [done|eauto|].
  apply IH. rewrite lookup_insert_ne by lia. done.
Qed.

Lemma moved_negative s T l l' T' : moved s T l l' T' → T !! (-1) = None → T' !! (-1) = None.
Proof.
  induction 1 as [| |T e fd x l l' T' [? _] Hs Hn Hx Hm IH]; intros Hneg; [done|eauto|].
  apply IH. rewrite lookup_insert_ne by lia. done.
Qed.

Lemma children_relocated s T l l' T' : relocated s T l l' T' → children l' = children l.
Proof. intros H. unfold children. by destruct (relocated_children _ _ _ _ _ H) as [-> _]. Qed.

Lemma children_nonneg l : fds_in_range l → -1 ∉ children l.
Proof.
  intros Hr (p & Heq & Hp)%elem_of_list_to_set%list_elem_of_fmap.
  destruct (proj1 (list.Forall_forall _ _) Hr p Hp) as [_ [? _]]. lia.
Qed.

(** C15: the child's descriptors.  Take any list of preserved descriptors whose
    parents are open and whose numbers fit an fd_set, any pipe ends (or -1) and
    executable descriptor that minijail itself still needs and that are not among
    the parents.  Whatever the kernel answers, the set-up touches nothing outside
    the fd_set, and when it returns, the requested numbers are distinct, every
    requested number stands for the file its parent stood for at the start (as one
    simultaneous assignment: swaps and cycles included), every parent that is not
    itself requested is closed, each of minijail's own descriptors still stands for
    its file on a number that no redirection overwrites, and no other number has
    changed. *)
Theorem setup_child_fds_correct l st elf (T : fdtable) :
  fds_in_range l → Forall end_ok (pipe_ends st ++ [elf]) →
  Forall (λ p, is_Some (T !! p.(parent_fd))) l →
  Forall (λ e, e = -1 ∨ is_Some (T !! e) ∧ e ∉ parents l) (pipe_ends st ++ [elf]) → T !! (-1) = None →
  on_table (setup_child_fds l st elf) T (λ '(l', st', elf') T',
    NoDup (child_fd <$> l) ∧ child_fd <$> l' = child_fd <$> l ∧
    redirected l (pipe_ends st ++ [elf]) (pipe_ends st' ++ [elf']) T T').
Proof.
  intros Hr Hends Hop Hes Hneg. pose proof (children_nonneg l Hr) as Hcn.
  apply list.Forall_app in Hends as [Hst Helf]. apply list.Forall_cons in Helf as [Helf _].
  apply on_table_bind, get_child_fds_spec; [done| |].
  { intros ret l' s' T' Hret. rewrite (proj2 (Z.eqb_neq _ _) Hret). done. }
  intros l' T1 Hrel. cbn. rewrite (right_id_L ∅ (∪)).
  apply on_table_bind, avoid_pipe_conflicts_spec; [done|done|done|]. intros st' T2 Hm. cbn.
  apply on_table_bind, move_end_spec; [done|done|by intros ret e' T' ->|]. intros elf' T3 Hm'. cbn.
  pose proof (moved_app _ _ _ _ _ _ _ _ Hm Hm') as Hall.
  apply on_table_bind, redirect_fds_spec; [by eapply relocated_ordered|by eapply relocated_in_range| |done|].
  { by rewrite (children_relocated _ _ _ _ _ Hrel). }
  intros T' H1 H2 H3. cbn. rewrite (children_relocated _ _ _ _ _ Hrel) in H3.
  destruct (relocated_children _ _ _ _ _ Hrel) as (Hc & Hnd & _). split_and!; [done|done|].
  eapply relocated_moved_redirected; eauto using moved_negative, relocated_negative.
Qed.

(** ** A concrete table *)

(** A kernel over a table: dup2(2) and close(2) always succeed. *)
Definition fd_host (c : oscall) (T : fdtable) : answer * fdtable :=
  match c with
  | Fcntl fd cmd _ => (match T !! fd with Some _ => returns 0 | None => fails EBADF end, T)
  | Dup2 old new => match T !! old with
                    | Some x => (returns new, <[new := x]> T)
                    | None => (fails EBADF, T)
                    end
  | Close fd => (ok, delete fd T)
  | _ => (ok, T)
  end.

Definition no_pipes : minijail_run_state :=
  {| child_pid := 0; pipe_fds := (-1, -1); stdin_fds := (-1, -1); stdout_fds := (-1, -1);
     stderr_fds := (-1, -1); child_sync_pipe_fds := (-1, -1); child_env := None |}.

(** 3 and 4 change places, 5 is handed on as 8, and the pipe that was on 8 and 9
    keeps its files. *)
Definition swap_fds : list preserved_fd :=
  [{| parent_fd := 3; child_fd := 4 |}; {| parent_fd := 4; child_fd := 3 |};
   {| parent_fd := 5; child_fd := 8 |}].
Definition swap_state : minijail_run_state := no_pipes <| child_sync_pipe_fds := (8, 9) |>.
Definition swap_table : fdtable :=
  <[0 := 100]> (<[3 := 103]> (<[4 := 104]> (<[5 := 105]> (<[8 := 108]> (<[9 := 109]> ∅))))).

Example swap_runs :
  let '(r, _, T') := run fd_host (setup_child_fds swap_fds swap_state (-1)) swap_table in
  match r with Finished (_, st', _) => st'.(child_sync_pipe_fds) = (1022, 9) | _ => False end ∧
  (T' !! 0, T' !! 3, T' !! 4, T' !! 5, T' !! 8, T' !! 9, T' !! 1022, T' !! 1023) =
    (Some 100, Some 104, Some 103, None, Some 105, Some 109, Some 108, None).
Proof. vm_compute. done. Qed.

Lemma setup_child_fds_correct_witness :
  swap_table !! 3 = Some 103 ∧
  on_table (setup_child_fds swap_fds swap_state (-1)) swap_table (λ '(l', st', elf') T',
    NoDup (child_fd <$> swap_fds) ∧ child_fd <$> l' = child_fd <$> swap_fds ∧
    redirected swap_fds (pipe_ends swap_state ++ [-1]) (pipe_ends st' ++ [elf']) swap_table T').
Proof.
  split; [reflexivity|].
  apply setup_child_fds_correct.
  - repeat constructor; cbn; done.
  - repeat (apply List.Forall_cons; [first [by left|right; split; done]|]). apply List.Forall_nil.
  - repeat (apply List.Forall_cons; [by eexists|]). apply List.Forall_nil.
  - repeat (apply List.Forall_cons; [first [by left|right; split; [by eexists|]]|]); [| |apply List.Forall_nil].
    all: apply (bool_decide_unpack (_ ∉ _)); vm_compute; exact I.
  - reflexivity.
Defined.
