(* ===== verification/Run.v ===== *)
(** * Running a program in a jail (libminijail.c)

    The parent's side of a run, the hand-over of the configuration through a
    pipe, the child up to execve(2), the init process of a pid namespace, and
    waiting.  Loops that the kernel can keep going without bound (interrupted
    calls, a directory listing, orphans) take their number of rounds as fuel. *)

From S2P Require Import Prelude CLib Util Bpf OS System Jail Codec Marshal Enter Fds.
Local Open Scope Z_scope.

Definition SIGPIPE : Z := 13.
Definition SIGTERM : Z := 15.
Definition NSIG : Z := 65.
Definition SIGRTMIN : Z := 34.
Definition SIGRTMAX : Z := 64.
Definition ECHILD : Z := 10.
Definition STDIN_FILENO : Z := 0.
Definition STDOUT_FILENO : Z := 1.
Definition STDERR_FILENO : Z := 2.
Definition TIOCSCTTY : Z := 0x540E.

Definition MINIJAIL_ERR_NO_ACCESS : Z := 126.
Definition MINIJAIL_ERR_NO_COMMAND : Z := 127.
Definition MINIJAIL_ERR_SIG_BASE : Z := 128.
Definition MINIJAIL_ERR_PRELOAD : Z := 252.
Definition MINIJAIL_ERR_JAIL : Z := 253.
Definition MINIJAIL_ERR_INIT : Z := 254.

Definition kFdEnvVar : cstr := str "__MINIJAIL_FD".
Definition kLdPreloadEnvVar : cstr := str "LD_PRELOAD".
Definition kSeccompPolicyPathEnvVar : cstr := str "SECCOMP_POLICY_PATH".

(** ** Descriptors of the parent *)

(** A write that reports more than it was given would move the cursor past the
    buffer. *)
Fixpoint write_exactly (fuel : nat) (fd : Z) (buf : list ascii) : io Z :=
  match buf, fuel with
  | [], _ => mret 0
  | _, O => ILoop
  | _, S fuel =>
      a ← call (Write fd buf);
      if rv a <? 0 then
        if eno a =? EINTR then write_exactly fuel fd buf else mret (- eno a)
      else if Z.of_nat (length buf) <? rv a then IUndef
      else write_exactly fuel fd (drop (Z.to_nat (rv a)) buf)
  end.

(** The descriptor afterwards, which is always -1. *)
Definition close_and_reset (fd : Z) : io Z :=
  if fd =? -1 then mret (-1) else (_ ← call (Close fd); mret (-1)).

Definition close_pair (p : Z * Z) : io (Z * Z) :=
  a ← close_and_reset p.1; b ← close_and_reset p.2; mret (a, b).

(** ** The parent's part of the set-up *)

Definition kill_child_and_die {A} (j : minijail) : io A :=
  _ ← call (Kill j.(initpid) SIGKILL); IDie.

Definition zero_or_kill (j : minijail) (m : io Z) : io unit :=
  ret ← m; if negb (ret =? 0) then kill_child_and_die j else mret tt.

(** A null path is handed to fopen(3). *)
Definition write_pid_file_or_die (j : minijail) : io unit :=
  match j.(pid_file_path) with
  | Some path => zero_or_kill j (write_pid_to_path j.(initpid) path)
  | None => IUndef
  end.

Fixpoint add_to_cgroups_or_die (j : minijail) (cgs : list cstr) : io unit :=
  match cgs with
  | [] => mret tt
  | cg :: rest =>
      _ ← zero_or_kill j (write_pid_to_path j.(initpid) cg);
      add_to_cgroups_or_die j rest
  end.

Fixpoint set_rlimits_or_die (j : minijail) (rs : list minijail_rlimit) : io unit :=
  match rs with
  | [] => mret tt
  | r :: rest =>
      a ← call (Prlimit j.(initpid) r.(rl_type) r.(rl_cur) r.(rl_max));
      if negb (rv a =? 0) then kill_child_and_die j else set_rlimits_or_die j rest
  end.

Definition write_ugid_maps_or_die (j : minijail) : io unit :=
  _ ← match j.(uidmap) with
      | Some m => zero_or_kill j (write_proc_file j.(initpid) m (str "uid_map"))
      | None => mret tt
      end;
  _ ← (if bool_decide (is_Some j.(gidmap)) && flag j F_disable_setgroups then
         ret ← write_proc_file j.(initpid) (str "deny") (str "setgroups");
         if negb (ret =? 0) then
           if ret =? - ENOENT then mret tt else kill_child_and_die j
         else mret tt
       else mret tt);
  match j.(gidmap) with
  | Some m => zero_or_kill j (write_proc_file j.(initpid) m (str "gid_map"))
  | None => mret tt
  end.

Definition enter_user_namespace (j : minijail) : io unit :=
  let u := if flag j F_uid then j.(uid) else 0 in
  let g := if flag j F_gid then j.(gid) else 0 in
  _ ← (if bool_decide (is_Some j.(gidmap)) then or_die (Setresgid g) else mret tt);
  if bool_decide (is_Some j.(uidmap)) then or_die (Setresuid u) else mret tt.

Definition parent_setup_complete (p : Z * Z) : io (Z * Z) := close_pair p.

Definition wait_for_parent_setup (p : Z * Z) : io (Z * Z) :=
  b ← close_and_reset p.2;
  a ← call (Read p.1 1);
  if negb (rv a =? 0) then IDie
  else (c ← close_and_reset p.1; mret (c, b)).

(** Every signal but SIGCHLD is forwarded. *)
Fixpoint sigactions (n : nat) (sig : Z) : io unit :=
  match n with
  | O => mret tt
  | S n => _ ← call (Sigaction sig); sigactions n (sig + 1)
  end.

Definition install_signal_handlers : io unit :=
  _ ← sigactions (Z.to_nat (NSIG - 1)) 1;
  _ ← call (SignalDefault SIGCHLD);
  sigactions (Z.to_nat (SIGRTMAX - SIGRTMIN + 1)) SIGRTMIN.

(** ** Handing the configuration over *)

Definition size_bytes : nat := 8.

Section Run.
Context {B : BuildConfig}.

Definition minijail_to_fd (fuel : nat) (j : minijail) (fd : Z) : io Z :=
  let sz := minijail_size j in
  if (sz =? 0)%nat then mret (- EINVAL)
  else
    let '(err, buf) := minijail_marshal j sz in
    if err : bool then mret 1
    else
      err ← write_exactly fuel fd (le_bytes size_bytes (Z.of_nat sz));
      if negb (err =? 0) then mret err else write_exactly fuel fd buf.

(** What read(2) stored at the start of a buffer. *)
Definition read_bytes (a : answer) (n : nat) : list ascii := take n (default [] (bytes a)).

(** Both reads are single calls; a short one is an error. *)
Definition minijail_from_fd (fd : Z) (j : minijail) : io (Z * minijail) :=
  a ← call (Read fd (Z.of_nat size_bytes));
  if negb (rv a =? Z.of_nat size_bytes) then mret (- EINVAL, j)
  else
    let sz := le_value (read_bytes a size_bytes) in
    if USHRT_MAX <? sz then mret (- E2BIG, j)
    else
      a ← call (Read fd sz);
      if negb (rv a =? sz) then mret (- EINVAL, j)
      else minijail_unmarshal j (read_bytes a (Z.to_nat sz)).

(** ** The child's environment: the return code and the array *)

Definition setup_preload (j : minijail) (env : option (list cstr)) : Z * option (list cstr) :=
  let path := default preloadpath j.(preload_path) in
  let oldenv := default [] (minijail_getenv env (Some kLdPreloadEnvVar)) in
  let newenv := oldenv ++ (match oldenv with [] => [] | _ => [SPACE] end) ++ path in
  minijail_setenv env (Some kLdPreloadEnvVar) (Some newenv) true.

Definition setup_seccomp_policy_path (j : minijail) (env : option (list cstr))
    : Z * option (list cstr) :=
  minijail_setenv env (Some kSeccompPolicyPathEnvVar)
    (Some (default (str "NO-LABEL") j.(seccomp_policy_path))) true.

(** What pipe(2) stores. *)
Definition pipe_of (a : answer) : Z * Z :=
  (default 0 (nums a !! 0%nat), default 0 (nums a !! 1%nat)).

(** The return code, the array and the pipe. *)
Definition setup_pipe (env : option (list cstr)) (fds : Z * Z)
    : io (Z * option (list cstr) * (Z * Z)) :=
  a ← call Pipe;
  if negb (rv a =? 0) then mret (rv a, env, fds)
  else
    let fds := pipe_of a in
    let '(r, env) := minijail_setenv env (Some kFdEnvVar) (Some (snprintf 11 (fmt_d fds.1))) true in
    mret (r, env, fds).

(** ** Closing what the child must not inherit *)

Definition should_close (inheritable_fds : list Z) (dir_fd fd : Z) : bool :=
  negb (existsb (Z.eqb fd) inheritable_fds) && negb (fd =? dir_fd).

Fixpoint close_listed (fuel : nat) (inheritable_fds : list Z) (dir_fd : Z) : io unit :=
  match fuel with
  | O => ILoop
  | S fuel =>
      a ← call Readdir;
      match bytes a with
      | None => mret tt
      | Some name =>
          let '(v, end_, _) := strtol name 10 in
          let fd := s32 v in
          _ ← (if match end_ with [] => should_close inheritable_fds dir_fd fd | _ => false end
               then (_ ← call (Close fd); mret tt) else mret tt);
          close_listed fuel inheritable_fds dir_fd
      end
  end.

Definition close_open_fds (fuel : nat) (inheritable_fds : list Z) : io Z :=
  a ← call (Opendir (str "/proc/self/fd"));
  if rv a <? 0 then mret (-1)
  else
    _ ← close_listed fuel inheritable_fds (rv a);
    _ ← call Closedir;
    mret 0.

Definition minijail_free_run_state (st : minijail_run_state) : io minijail_run_state :=
  a ← close_pair st.(pipe_fds);
  b ← close_pair st.(stdin_fds);
  c ← close_pair st.(stdout_fds);
  d ← close_pair st.(stderr_fds);
  e ← close_pair st.(child_sync_pipe_fds);
  mret {| child_pid := -1; pipe_fds := a; stdin_fds := b; stdout_fds := c; stderr_fds := d;
          child_sync_pipe_fds := e; child_env := None |}.

(** ** The child's standard descriptors *)

Definition redirect_std (from to : Z) : io unit :=
  if (from =? -1) || (from =? to) then mret tt
  else (a ← call (Dup2 from to); if rv a =? -1 then IDie else mret tt).

Definition isatty (fd : Z) : io bool := a ← call (Isatty fd); mret (negb (rv a =? 0)).

(** Whether any standard descriptor is a terminal, asked in order until one is. *)
Definition any_tty : io bool :=
  b ← isatty STDIN_FILENO;
  if b : bool then mret true
  else
    b ← isatty STDOUT_FILENO;
    if b : bool then mret true else isatty STDERR_FILENO.

Definition new_session (j : minijail) : io unit :=
  b ← (if flag j F_setsid then mret true else any_tty);
  if b : bool then
    a ← call Setsid;
    if rv a <? 0 then IDie
    else
      b ← isatty STDIN_FILENO;
      if b : bool then (_ ← call (Ioctl STDIN_FILENO TIOCSCTTY 0); mret tt) else mret tt
  else mret tt.

Definition setup_child_std_fds (j : minijail) (st : minijail_run_state) : io minijail_run_state :=
  _ ← redirect_std st.(stdin_fds).1 STDIN_FILENO;
  _ ← redirect_std st.(stdout_fds).2 STDOUT_FILENO;
  _ ← redirect_std st.(stderr_fds).2 STDERR_FILENO;
  a ← close_pair st.(stdin_fds);
  b ← close_pair st.(stdout_fds);
  c ← close_pair st.(stderr_fds);
  _ ← new_session j;
  mret (st <| stdin_fds := a |> <| stdout_fds := b |> <| stderr_fds := c |>).

(** ** minijail_run_internal *)

(** struct minijail_run_config; of the pointers for results only whether they are
    given. *)
Record minijail_run_config := {
  rc_filename : option cstr;
  rc_elf_fd : Z;
  rc_argv : list cstr;
  rc_envp : option (list cstr);
  rc_use_preload : bool;
  rc_exec_in_child : bool;
  rc_pstdin_fd : bool;
  rc_pstdout_fd : bool;
  rc_pstderr_fd : bool;
  rc_pchild_pid : bool;
}.

(** The environment of the calling process. *)
Context (environ : list cstr).

Definition caller_env (config : minijail_run_config) : list cstr := default environ config.(rc_envp).

(** The early part: a code that is not 0 is returned at once. *)
Definition run_environment (j : minijail) (config : minijail_run_config) (st : minijail_run_state)
    : io (Z * minijail_run_state) :=
  let st := if config.(rc_use_preload) || bool_decide (is_Some j.(seccomp_policy_path))
            then st <| child_env := Some (minijail_copy_env (Some (caller_env config))) |> else st in
  let '(r, env) := if bool_decide (is_Some j.(seccomp_policy_path))
                   then setup_seccomp_policy_path j st.(child_env) else (0, st.(child_env)) in
  let st := st <| child_env := env |> in
  if negb (r =? 0) then mret (- EFAULT, st)
  else if config.(rc_use_preload) then
    match j.(hooks) with
    | _ :: _ => IDie
    | [] =>
        if negb config.(rc_exec_in_child) then IDie
        else
          let '(r, env) := setup_preload j st.(child_env) in
          let st := st <| child_env := env |> in
          if negb (r =? 0) then mret (- EFAULT, st)
          else
            '(r, env, fds) ← setup_pipe st.(child_env) st.(pipe_fds);
            let st := st <| child_env := env |> <| pipe_fds := fds |> in
            mret (if negb (r =? 0) then - EFAULT else 0, st)
    end
  else if flag j F_use_caps && negb (j.(caps) =? 0) && negb (flag j F_set_ambient_caps) then IDie
  else mret (0, st).

Definition request_pipe (requested : bool) (fds : Z * Z) : io (bool * (Z * Z)) :=
  if requested then
    a ← call Pipe;
    mret (if rv a =? -1 then (false, fds) else (true, pipe_of a))
  else mret (true, fds).

Definition run_pipes (config : minijail_run_config) (st : minijail_run_state)
    : io (Z * minijail_run_state) :=
  '(ok_, p) ← request_pipe config.(rc_pstdin_fd) st.(stdin_fds);
  let st := st <| stdin_fds := p |> in
  if negb ok_ then mret (EFAULT, st) else
  '(ok_, p) ← request_pipe config.(rc_pstdout_fd) st.(stdout_fds);
  let st := st <| stdout_fds := p |> in
  if negb ok_ then mret (EFAULT, st) else
  '(ok_, p) ← request_pipe config.(rc_pstderr_fd) st.(stderr_fds);
  mret (if negb ok_ then EFAULT else 0, st <| stderr_fds := p |>).

(** Whether the child has to wait for the parent. *)
Definition sync_child (j : minijail) : bool :=
  flag j F_forward_signals || flag j F_pid_file || flag j F_cgroups || nonempty j.(rlimits)
  || flag j F_userns.

Definition run_sync_pipe (j : minijail) (st : minijail_run_state) : io (Z * minijail_run_state) :=
  if sync_child j then
    a ← call Pipe;
    mret (if negb (rv a =? 0) then (- EFAULT, st)
          else (0, st <| child_sync_pipe_fds := pipe_of a |>))
  else mret (0, st).

Definition run_fork (j : minijail) : io Z :=
  if flag j F_pids then
    let clone_flags := Z.lor CLONE_NEWPID SIGCHLD in
    let clone_flags := if flag j F_userns then Z.lor clone_flags CLONE_NEWUSER else clone_flags in
    a ← call (Clone clone_flags);
    if rv a <? 0 then IDie else mret (rv a)
  else if flag j F_userns then IDie
  else
    a ← call Fork;
    if rv a <? 0 then IDie else mret (rv a).

(** The ruleset of the process; both return codes are ignored. *)
Definition run_fs_rules (j : minijail) : io minijail :=
  match j.(fs_rules) with
  | [] => mret j
  | _ =>
      '(_, j) ← setup_fs_rules_fd j;
      mret (minijail_preserve_fd j j.(fs_rules_fd) j.(fs_rules_fd)).2
  end.

(** *** The parent *)

(** Take the SIGPIPE that writing to a closed pipe raised. *)
Fixpoint accept_sigpipe (fuel : nat) : io unit :=
  match fuel with
  | O => ILoop
  | S fuel =>
      a ← call (Sigtimedwait SIGPIPE);
      if rv a <? 0 then
        if negb (eno a =? EINTR) then mret tt else accept_sigpipe fuel
      else if negb (rv a =? SIGPIPE) then IDie
      else accept_sigpipe fuel
  end.

(** The configuration goes through the pipe with SIGPIPE blocked; a failure kills
    the child. *)
Definition run_send (fuel : nat) (j : minijail) (p : Z * Z) : io (Z * Z) :=
  a ← call (SigBlock SIGPIPE);
  if rv a <? 0 then IDie
  else
    x ← close_and_reset p.1;
    ret ← minijail_to_fd fuel j p.2;
    y ← close_and_reset p.2;
    _ ← accept_sigpipe fuel;
    a ← call (SigSetmask true);
    if rv a <? 0 then IDie
    else
      _ ← (if negb (ret =? 0) then (_ ← call (Kill j.(initpid) SIGKILL); mret tt) else mret tt);
      mret (x, y).

(** What the parent does for the child before it is released. *)
Definition run_parent_setup (j : minijail) : io unit :=
  _ ← (if flag j F_forward_signals then install_signal_handlers else mret tt);
  _ ← (if flag j F_pid_file then write_pid_file_or_die j else mret tt);
  _ ← (if flag j F_cgroups then add_to_cgroups_or_die j j.(cgroups) else mret tt);
  _ ← (if nonempty j.(rlimits) then set_rlimits_or_die j j.(rlimits) else mret tt);
  if flag j F_userns then write_ugid_maps_or_die j else mret tt.

Definition run_parent (fuel : nat) (j : minijail) (config : minijail_run_config)
    (st : minijail_run_state) (pid : Z) : io (Z * minijail * minijail_run_state) :=
  let j := j <| initpid := pid |> in
  _ ← run_parent_setup j;
  _ ← (if flag j F_enter_vfs then (_ ← call (Close j.(mountns_fd)); mret tt) else mret tt);
  _ ← (if flag j F_enter_net then (_ ← call (Close j.(netns_fd)); mret tt) else mret tt);
  sync ← (if sync_child j then parent_setup_complete st.(child_sync_pipe_fds)
          else mret st.(child_sync_pipe_fds));
  pipe ← (if config.(rc_use_preload) then run_send fuel j st.(pipe_fds) else mret st.(pipe_fds));
  mret (0, j, st <| child_sync_pipe_fds := sync |> <| pipe_fds := pipe |>).

(** *** The child *)

Fixpoint reset_handlers (n : nat) (signum : Z) : io unit :=
  match n with
  | O => mret tt
  | S n =>
      a ← call (SignalDefault signum);
      if (rv a =? -1) && negb (eno a =? EINVAL) then IDie else reset_handlers n (signum + 1)
  end.

Definition run_child_signals (j : minijail) : io unit :=
  _ ← (if flag j F_reset_signal_mask
       then (a ← call (SigSetmask false); if negb (rv a =? 0) then IDie else mret tt) else mret tt);
  if flag j F_reset_signal_handlers then reset_handlers (Z.to_nat (SIGRTMAX + 1)) 0 else mret tt.

Definition present (fd : Z) : list Z := if fd =? -1 then [] else [fd].
Definition present_pair (p : Z * Z) : list Z := present p.1 ++ present p.2.

(** The jail with the namespace descriptors preserved, and the array
    inheritable_fds. *)
Definition inheritable (j : minijail) (st : minijail_run_state) (elf_fd : Z) : minijail * list Z :=
  let pipes := present_pair st.(pipe_fds) ++ present_pair st.(child_sync_pipe_fds)
               ++ present_pair st.(stdin_fds) ++ present_pair st.(stdout_fds)
               ++ present_pair st.(stderr_fds) in
  let j := if flag j F_enter_vfs then (minijail_preserve_fd j j.(mountns_fd) j.(mountns_fd)).2 else j in
  let j := if flag j F_enter_net then (minijail_preserve_fd j j.(netns_fd) j.(netns_fd)).2 else j in
  (j, pipes ++ (parent_fd <$> j.(preserved_fds)) ++ (if -1 <? elf_fd then [elf_fd] else [])).

Definition run_child_close (fuel : nat) (j : minijail) (st : minijail_run_state) (elf_fd : Z)
    : io minijail :=
  if flag j F_close_open_fds then
    let '(j, fds) := inheritable j st elf_fd in
    ret ← close_open_fds fuel fds;
    if ret <? 0 then IDie else mret j
  else mret j.

(** The jail as it is entered: with the preloaded library only what survives
    execve(2) is left out; otherwise all of it but the pid namespace. *)
Definition child_jail (j : minijail) (use_preload : bool) : minijail :=
  let do_init := flag j F_do_init && negb (flag j F_run_as_init) in
  let j' := if flag j F_pids && negb do_init then clear_flag F_remount_proc_ro j else j in
  if use_preload then minijail_preexec j' else clear_flag F_pids j'.

(** Up to and with minijail_enter. *)
Definition run_child_enter (fuel : nat) (j : minijail) (config : minijail_run_config)
    (st : minijail_run_state) : io (minijail * minijail_run_state * Z) :=
  _ ← run_child_signals j;
  j ← run_child_close fuel j st config.(rc_elf_fd);
  '(fds, st, elf_fd) ← setup_child_fds j.(preserved_fds) st config.(rc_elf_fd);
  let j := j <| preserved_fds := fds |> in
  sync ← (if sync_child j then wait_for_parent_setup st.(child_sync_pipe_fds)
          else mret st.(child_sync_pipe_fds));
  let st := st <| child_sync_pipe_fds := sync |> in
  _ ← (if flag j F_userns then enter_user_namespace j else mret tt);
  st ← setup_child_std_fds j st;
  let j := child_jail j config.(rc_use_preload) in
  _ ← minijail_enter j;
  mret (j, st, elf_fd).

Definition WIFEXITED (status : Z) : bool := Z.land status 0x7f =? 0.
Definition WEXITSTATUS (status : Z) : Z := Z.shiftr (Z.land status 0xff00) 8.
Definition WTERMSIG (status : Z) : Z := Z.land status 0x7f.
Definition WIFSIGNALED (status : Z) : bool :=
  let t := Z.land status 0x7f + 1 in 0 <? Z.shiftr (if t =? 128 then -128 else t) 1.

Definition exit_ {A} (status : Z) : io A := _ ← call (Exit status); IDie.

(** What wait(2) stored. *)
Definition status_of (a : answer) : Z := default 0 (head (nums a)).

(** The first process of a pid namespace reaps all others; [init_exitstatus] is
    the status of the program. *)
Fixpoint init_loop {A} (fuel : nat) (rootpid init_exitstatus : Z) : io A :=
  match fuel with
  | O => ILoop
  | S fuel =>
      a ← call Wait;
      if 0 <? rv a then
        init_loop fuel rootpid (if rv a =? rootpid then status_of a else init_exitstatus)
      else if negb (WIFEXITED init_exitstatus) then exit_ MINIJAIL_ERR_INIT
      else exit_ (WEXITSTATUS init_exitstatus)
  end.

(** The handler of SIGTERM: _exit(2) is given the wait status, not the exit code in it. *)
Definition init_term {A} (init_exitstatus : Z) : io A := exit_ init_exitstatus.

(** The handler itself interrupts [init_loop] at any point; no run of the model takes it. *)
Definition init {A} (fuel : nat) (rootpid : Z) : io A :=
  _ ← call SignalInitTerm;
  init_loop fuel rootpid 0.

(** The name itself is not modelled. *)
Definition PR_SET_NAME : Z := 15.

(** The init process forks the program off; the result is the pid. *)
Definition run_child_init (fuel : nat) (do_init : bool) (st : minijail_run_state) : io minijail_run_state :=
  if do_init then
    a ← call Fork;
    if rv a <? 0 then exit_ (rv a)
    else if 0 <? rv a then
      _ ← minijail_free_run_state st;
      _ ← call (Prctl PR_SET_NAME []);
      init fuel (rv a)
    else mret (st <| child_pid := rv a |>)
  else mret st.

(** execve(2) with a null path fails with EFAULT. *)
Definition run_exec {A} (config : minijail_run_config) (env : list cstr) (elf_fd : Z) : io A :=
  a ← (if -1 <? elf_fd then call (Fexecve elf_fd config.(rc_argv) env)
       else match config.(rc_filename) with
            | Some path => call (Execve path config.(rc_argv) env)
            | None => mret (fails EFAULT)
            end);
  if negb (rv a =? -1) then IDie
  else exit_ (if eno a =? ENOENT then MINIJAIL_ERR_NO_COMMAND else MINIJAIL_ERR_NO_ACCESS).

Definition run_child (fuel : nat) (j : minijail) (config : minijail_run_config)
    (st : minijail_run_state) : io (Z * minijail * minijail_run_state) :=
  let do_init := flag j F_do_init && negb (flag j F_run_as_init) in
  let pid_namespace := flag j F_pids in
  '(j, st, elf_fd) ← run_child_enter fuel j config st;
  st ← run_child_init fuel (config.(rc_exec_in_child) && pid_namespace && do_init) st;
  _ ← run_hooks_or_die j MINIJAIL_HOOK_EVENT_PRE_EXECVE;
  if negb config.(rc_exec_in_child) then mret (0, j, st)
  else
    let env := default (caller_env config) st.(child_env) in
    let st := st <| pipe_fds := (-1, st.(pipe_fds).2) |> <| child_env := None |> in
    _ ← minijail_free_run_state st;
    run_exec config env elf_fd.

(** *** All of it *)

Definition run_start (j : minijail) (config : minijail_run_config) (st : minijail_run_state)
    : io (Z * minijail_run_state) :=
  '(r, st) ← run_environment j config st;
  if negb (r =? 0) then mret (r, st) else
  '(r, st) ← run_pipes config st;
  if negb (r =? 0) then mret (r, st) else
  run_sync_pipe j st.

Definition minijail_run_internal (fuel : nat) (j : minijail) (config : minijail_run_config)
    (st : minijail_run_state) : io (Z * minijail * minijail_run_state) :=
  if bool_decide (is_Some config.(rc_filename)) && negb (config.(rc_elf_fd) =? -1) then IDie
  else
    let j := match config.(rc_filename) with
             | Some f => j <| filename := Some f |>
             | None => j
             end in
    '(r, st) ← run_start j config st;
    if negb (r =? 0) then mret (r, j, st)
    else
      pid ← run_fork j;
      j ← run_fs_rules j;
      let st := st <| child_pid := pid |> in
      if negb (pid =? 0) then run_parent fuel j config st pid else run_child fuel j config st.

Definition initial_run_state : minijail_run_state :=
  {| child_pid := -1; pipe_fds := (-1, -1); stdin_fds := (-1, -1); stdout_fds := (-1, -1);
     stderr_fds := (-1, -1); child_sync_pipe_fds := (-1, -1); child_env := None |}.

(** What a run stores through the caller's pointers. *)
Record run_results := {
  out_child_pid : option Z;
  out_stdin_fd : option Z;
  out_stdout_fd : option Z;
  out_stderr_fd : option Z;
}.

Definition no_results : run_results :=
  {| out_child_pid := None; out_stdin_fd := None; out_stdout_fd := None; out_stderr_fd := None |}.

Definition given (b : bool) (v : Z) : option Z := if b then Some v else None.
Definition taken (b : bool) (v : Z) : Z := if b then -1 else v.

(** The return value, the jail and the results. *)
Definition minijail_run_config_internal (fuel : nat) (j : minijail) (config : minijail_run_config)
    : io (Z * minijail * run_results) :=
  '(ret, j, st) ← minijail_run_internal fuel j config initial_run_state;
  if ret =? 0 then
    let out := {| out_child_pid := given config.(rc_pchild_pid) st.(child_pid);
                  out_stdin_fd := given config.(rc_pstdin_fd) st.(stdin_fds).2;
                  out_stdout_fd := given config.(rc_pstdout_fd) st.(stdout_fds).1;
                  out_stderr_fd := given config.(rc_pstderr_fd) st.(stderr_fds).1 |} in
    let ret := if negb config.(rc_exec_in_child) then st.(child_pid) else ret in
    let st := st <| stdin_fds := (st.(stdin_fds).1, taken config.(rc_pstdin_fd) st.(stdin_fds).2) |>
                 <| stdout_fds := (taken config.(rc_pstdout_fd) st.(stdout_fds).1, st.(stdout_fds).2) |>
                 <| stderr_fds := (taken config.(rc_pstderr_fd) st.(stderr_fds).1, st.(stderr_fds).2) |> in
    _ ← minijail_free_run_state st;
    mret (ret, j, out)
  else
    _ ← minijail_free_run_state st;
    mret (ret, j, no_results).

(** *** The entry points *)

Definition run_config (filename : option cstr) (elf_fd : Z) (argv : list cstr)
    (envp : option (list cstr)) (preload exec pin pout perr pid : bool) : minijail_run_config :=
  {| rc_filename := filename; rc_elf_fd := elf_fd; rc_argv := argv; rc_envp := envp;
     rc_use_preload := preload; rc_exec_in_child := exec; rc_pstdin_fd := pin;
     rc_pstdout_fd := pout; rc_pstderr_fd := perr; rc_pchild_pid := pid |}.

Definition minijail_run (fuel : nat) (j : minijail) (filename : cstr) (argv : list cstr) :=
  minijail_run_config_internal fuel j
    (run_config (Some filename) (-1) argv None true true false false false false).

Definition minijail_run_env (fuel : nat) (j : minijail) (filename : cstr) (argv envp : list cstr) :=
  minijail_run_config_internal fuel j
    (run_config (Some filename) (-1) argv (Some envp) true true false false false false).

Definition minijail_run_pid (fuel : nat) (j : minijail) (filename : cstr) (argv : list cstr) (ppid : bool) :=
  minijail_run_config_internal fuel j
    (run_config (Some filename) (-1) argv None true true false false false ppid).

Definition minijail_run_pipe (fuel : nat) (j : minijail) (filename : cstr) (argv : list cstr) (pin : bool) :=
  minijail_run_config_internal fuel j
    (run_config (Some filename) (-1) argv None true true pin false false false).

Definition minijail_run_pid_pipes (fuel : nat) (j : minijail) (filename : cstr) (argv : list cstr)
    (ppid pin pout perr : bool) :=
  minijail_run_config_internal fuel j
    (run_config (Some filename) (-1) argv None true true pin pout perr ppid).

Definition minijail_run_env_pid_pipes (fuel : nat) (j : minijail) (filename : cstr)
    (argv envp : list cstr) (ppid pin pout perr : bool) :=
  minijail_run_config_internal fuel j
    (run_config (Some filename) (-1) argv (Some envp) true true pin pout perr ppid).

Definition minijail_run_fd_env_pid_pipes (fuel : nat) (j : minijail) (elf_fd : Z)
    (argv envp : list cstr) (ppid pin pout perr : bool) :=
  minijail_run_config_internal fuel j
    (run_config None elf_fd argv (Some envp) true true pin pout perr ppid).

Definition minijail_run_no_preload (fuel : nat) (j : minijail) (filename : cstr) (argv : list cstr) :=
  minijail_run_config_internal fuel j
    (run_config (Some filename) (-1) argv None false true false false false false).

Definition minijail_run_pid_pipes_no_preload (fuel : nat) (j : minijail) (filename : cstr)
    (argv : list cstr) (ppid pin pout perr : bool) :=
  minijail_run_config_internal fuel j
    (run_config (Some filename) (-1) argv None false true pin pout perr ppid).

Definition minijail_run_env_pid_pipes_no_preload (fuel : nat) (j : minijail) (filename : cstr)
    (argv envp : list cstr) (ppid pin pout perr : bool) :=
  minijail_run_config_internal fuel j
    (run_config (Some filename) (-1) argv (Some envp) false true pin pout perr ppid).

Definition minijail_fork (fuel : nat) (j : minijail) :=
  minijail_run_config_internal fuel j
    (run_config None (-1) [] None false false false false false false).

(** ** Waiting *)

(** waitpid(2) until it is not interrupted: the error code or the status. *)
Fixpoint waitpid_loop (fuel : nat) (pid : Z) : io (Z + Z) :=
  match fuel with
  | O => ILoop
  | S fuel =>
      a ← call (Waitpid pid);
      if 0 <=? rv a then mret (inr (status_of a))
      else if negb (eno a =? EINTR) then mret (inl (- eno a))
      else waitpid_loop fuel pid
  end.

(** The value reported for a status. *)
Definition reported_status (st : Z) : Z :=
  if negb (WIFEXITED st) then
    if negb (WIFSIGNALED st) then st
    else if WTERMSIG st =? SIGSYS then MINIJAIL_ERR_JAIL
    else MINIJAIL_ERR_SIG_BASE + WTERMSIG st
  else WEXITSTATUS st.

Definition minijail_wait_internal (fuel : nat) (j : minijail) : io Z :=
  if j.(initpid) <=? 0 then mret (- ECHILD)
  else
    r ← waitpid_loop fuel j.(initpid);
    mret (match r with inl e => e | inr st => reported_status st end).

Definition minijail_kill (fuel : nat) (j : minijail) : io Z :=
  if j.(initpid) <=? 0 then mret (- ECHILD)
  else
    a ← call (Kill j.(initpid) SIGTERM);
    if negb (rv a =? 0) then mret (- eno a) else minijail_wait_internal fuel j.

Definition minijail_wait (fuel : nat) (j : minijail) : io Z := minijail_wait_internal fuel j.
End Run.
