(* ===== verification/Preload.v ===== *)
(** * libminijailpreload.c

    The library that is preloaded into the program: its main() reads the
    configuration from the pipe, enters the second half of the jail and calls the
    program's own main(). *)

From S2P Require Import Prelude CLib Util Bpf OS Jail Marshal Enter Run.
Local Open Scope Z_scope.

(** The text in front of the last space. *)
Fixpoint strrchr_split (s : cstr) : option cstr :=
  match s with
  | [] => None
  | c :: rest =>
      match strrchr_split rest with
      | Some p => Some (c :: p)
      | None => if bool_decide (c = SPACE) then Some [] else None
      end
  end.

(** The array after the call: the last path is cut off in place. *)
Definition truncate_preload_env (envp : list cstr) (name : cstr) : list cstr :=
  match getenv_index envp name with
  | (true, i) =>
      match drop (length name + 1) <$> envp !! i with
      | None => envp
      | Some env_value =>
          match strrchr_split env_value with
          | Some before => <[i := name ++ str "=" ++ before]> envp
          | None => default envp (minijail_unsetenv (Some envp) (Some name)).2
          end
      end
  | (false, _) => envp
  end.

(** Whether the program runs with raised ids, asked in order until one differs. *)
Definition ids_differ : io bool :=
  a ← call Geteuid; b ← call Getuid;
  if negb (rv a =? rv b) then mret true
  else (a ← call Getegid; b ← call Getgid; mret (negb (rv a =? rv b))).

Section Preload.
Context {B : BuildConfig}.

(** The array that getenv(3) searches is the one handed to main(). *)
Definition fake_main (argv envp : list cstr) : io Z :=
  let fd_name := minijail_getenv (Some envp) (Some kFdEnvVar) in
  differ ← ids_differ;
  if differ : bool then mret MINIJAIL_ERR_PRELOAD
  else
    match fd_name with
    | None => mret MINIJAIL_ERR_PRELOAD
    | Some name =>
        let fd := s32 (strtol name 10).1.1 in
        if fd <? 0 then mret MINIJAIL_ERR_PRELOAD
        else
          '(ret, j) ← minijail_from_fd fd minijail_new;
          if negb (ret =? 0) then IDie
          else
            _ ← call (Close fd);
            let envp := default envp (minijail_unsetenv (Some envp) (Some kFdEnvVar)).2 in
            let envp := truncate_preload_env envp kLdPreloadEnvVar in
            let j := minijail_preenter j in
            _ ← minijail_enter j;
            _ ← call Dlclose;
            a ← call (CallMain argv envp);
            mret (rv a)
    end.

(** What dlsym(3) finds, the C library's own function: from the main() it is given,
    the arguments and the environment behind them. *)
Variable real_libc_start_main : (list cstr → list cstr → io Z) → list cstr → list cstr → io Z.

(** The library's replacement of __libc_start_main(). *)
Definition libc_start_main (ubp_av envp : list cstr) : io Z :=
  libc_handle ← call (Dlopen (str "libc.so.6"));
  if rv libc_handle =? 0 then exit_ 1
  else
    sym ← call (Dlsym (str "__libc_start_main"));
    if rv sym =? 0 then exit_ 1
    else real_libc_start_main fake_main ubp_av envp.
End Preload.
