(* ===== verification/RunProps.v ===== *)
(** * What running a program in a jail guarantees

    The program is executed, and its main() called, only inside the jail; the
    parent finishes its part of the set-up before the child goes on, and kills the
    child where it cannot; the configuration survives the pipe; and the status
    that is reported is the program's. *)

From S2P Require Import Prelude CLib Util UtilProps Bpf SyscallFilter OS Trace System Jail Codec.
From S2P Require Import Marshal MarshalProps Enter Emits MountProps EnterProps Fds Run Preload.
Local Open Scope Z_scope.

(** ** Code that executes nothing *)

Definition no_exec (c : oscall) : Prop :=
  match c with Execve _ _ _ | Fexecve _ _ _ | CallMain _ _ => False | _ => True end.

(** Go through a program, unfolding its functions; loops have a lemma in [mj]. *)
Ltac head_of t := lazymatch t with ?f _ => head_of f | _ => t end.
Ltac quiet :=
  cbv beta zeta;
  lazymatch goal with
  | |- calls_only _ (mbind _ _) => apply calls_only_bind; [|intros ?]; quiet
  | |- calls_only _ (call _) => apply calls_only_call; first [exact I | solve [auto 2 with mj]]
  | |- calls_only _ (lift _) => apply calls_only_lift
  | |- calls_only _ (mret _) => exact I
  | |- calls_only _ (IRet _) => exact I
  | |- calls_only _ IDie => exact I
  | |- calls_only _ IUndef => exact I
  | |- calls_only _ ILoop => exact I
  | |- calls_only _ (for_caps _ _ _ _) => apply for_caps_only; intros ?; quiet
  | |- calls_only _ (match ?x with _ => _ end) => destruct x; quiet
  | |- calls_only _ ?m => first [solve [auto 2 with mj] | let h := head_of m in unfold h; quiet]
  end.

Section NoExec.
Context {B : BuildConfig}.

Lemma mkdir_all_quiet ds mode : calls_only no_exec (mkdir_all ds mode).
Proof. induction ds; cbn [mkdir_all]; [exact I|]; quiet. Qed.
Hint Resolve mkdir_all_quiet : mj.

Lemma make_nodes_quiet fd l : calls_only no_exec (make_nodes fd l).
Proof. induction l; cbn [make_nodes]; [exact I|]; quiet. Qed.
Hint Resolve make_nodes_quiet : mj.

Lemma make_symlinks_quiet fd l : calls_only no_exec (make_symlinks fd l).
Proof. induction l as [|[] l]; cbn [make_symlinks]; [exact I|]; quiet. Qed.
Hint Resolve make_symlinks_quiet : mj.

Lemma mount_one_quiet j ms dev : calls_only no_exec (mount_one j ms dev).
Proof. induction ms; cbn [mount_one]; [exact I|]. quiet. Qed.
Hint Resolve mount_one_quiet : mj.

Lemma run_hooks_quiet hs ev : calls_only no_exec (run_hooks hs ev).
Proof. induction hs; cbn [run_hooks]; [exact I|]. quiet. Qed.
Hint Resolve run_hooks_quiet : mj.

Lemma remount_all_quiet mode rs : calls_only no_exec (remount_all mode rs).
Proof. induction rs; cbn [remount_all]; [exact I|]. quiet. Qed.
Hint Resolve remount_all_quiet : mj.

Lemma populate_rules_quiet rs fd : calls_only no_exec (populate_rules rs fd).
Proof. induction rs; cbn [populate_rules]; [exact I|]. quiet. Qed.
Hint Resolve populate_rules_quiet : mj.

Lemma install_call_quiet j : no_exec (install_call j).
Proof. unfold install_call. by destruct (_ || _). Qed.
Hint Resolve install_call_quiet : mj.

Lemma minijail_enter_quiet j : calls_only no_exec (minijail_enter j).
Proof. unfold minijail_enter. quiet. Qed.
Hint Resolve minijail_enter_quiet : mj.

(** *** The run *)

Lemma find_unused_quiet n s : calls_only no_exec (find_unused n s).
Proof. induction n; cbn [find_unused]; quiet. Qed.
Hint Resolve find_unused_quiet : mj.

Lemma get_child_fds_quiet l s : calls_only no_exec (get_child_fds l s).
Proof. revert s. induction l; intros s; cbn [get_child_fds]; [exact I|]. quiet. Qed.
Hint Resolve get_child_fds_quiet : mj.

Lemma redirect_all_quiet l : calls_only no_exec (redirect_all l).
Proof. induction l; cbn [redirect_all]; [exact I|]. quiet. Qed.
Hint Resolve redirect_all_quiet : mj.

Lemma close_parents_quiet l s : calls_only no_exec (close_parents l s).
Proof. induction l; cbn [close_parents]; [exact I|]. quiet. Qed.
Hint Resolve close_parents_quiet : mj.

Lemma write_exactly_quiet fuel fd buf : calls_only no_exec (write_exactly fuel fd buf).
Proof. revert buf. induction fuel; intros [|? buf]; cbn [write_exactly]; try exact I. quiet. Qed.
Hint Resolve write_exactly_quiet : mj.

Lemma cgroups_quiet j l : calls_only no_exec (add_to_cgroups_or_die j l).
Proof. induction l; cbn [add_to_cgroups_or_die]; [exact I|]. quiet. Qed.
Hint Resolve cgroups_quiet : mj.

Lemma rlimits_quiet j l : calls_only no_exec (set_rlimits_or_die j l).
Proof. induction l; cbn [set_rlimits_or_die]; [exact I|]. quiet. Qed.
Hint Resolve rlimits_quiet : mj.

Lemma sigactions_quiet n sig : calls_only no_exec (sigactions n sig).
Proof. revert sig. induction n; intros sig; cbn [sigactions]; [exact I|]. quiet. Qed.
Hint Resolve sigactions_quiet : mj.

Lemma close_listed_quiet fuel l d : calls_only no_exec (close_listed fuel l d).
Proof. induction fuel; cbn [close_listed]; [exact I|]. quiet. Qed.
Hint Resolve close_listed_quiet : mj.

Lemma accept_sigpipe_quiet fuel : calls_only no_exec (accept_sigpipe fuel).
Proof. induction fuel; cbn [accept_sigpipe]; [exact I|]. quiet. Qed.
Hint Resolve accept_sigpipe_quiet : mj.

Lemma reset_handlers_quiet n s : calls_only no_exec (reset_handlers n s).
Proof. revert s. induction n; intros s; cbn [reset_handlers]; [exact I|]. quiet. Qed.
Hint Resolve reset_handlers_quiet : mj.

Lemma init_loop_quiet {A} fuel p s : calls_only no_exec (init_loop (A:=A) fuel p s).
Proof. revert s. induction fuel; intros s; cbn [init_loop]; [exact I|]. quiet. Qed.
Hint Resolve init_loop_quiet : mj.

Context (environ : list cstr).

Lemma run_start_quiet j config st : calls_only no_exec (run_start environ j config st).
Proof. unfold run_start. quiet. Qed.

Lemma run_fork_quiet j : calls_only no_exec (run_fork j).
Proof. quiet. Qed.

Lemma run_fs_rules_quiet j : calls_only no_exec (run_fs_rules j).
Proof. quiet. Qed.

Lemma run_parent_quiet fuel j config st pid : calls_only no_exec (run_parent fuel j config st pid).
Proof. quiet. Qed.

Lemma run_child_init_quiet fuel b st : calls_only no_exec (run_child_init fuel b st).
Proof. quiet. Qed.

Lemma run_child_enter_quiet fuel j config st : calls_only no_exec (run_child_enter fuel j config st).
Proof. quiet. Qed.

Lemma unmarshal_cgroups_quiet n j buf : calls_only no_exec (unmarshal_cgroups n j buf).
Proof. revert j buf. induction n; intros j buf; cbn [unmarshal_cgroups]; [exact I|]. quiet. Qed.
Hint Resolve unmarshal_cgroups_quiet : mj.

Lemma unmarshal_fs_rules_quiet n j buf : calls_only no_exec (unmarshal_fs_rules n j buf).
Proof. revert j buf. induction n; intros j buf; cbn [unmarshal_fs_rules]; [exact I|]. quiet. Qed.
Hint Resolve unmarshal_fs_rules_quiet : mj.

Lemma minijail_from_fd_quiet fd j : calls_only no_exec (minijail_from_fd fd j).
Proof. quiet. Qed.
End NoExec.

(** ** The program runs inside the jail *)

Lemma traces_wait p :
  traces (wait_for_parent_setup p) (λ _ t, ∃ fd ans, (Read fd 1, ans) ∈ t ∧ rv ans = 0).
Proof.
  apply traces_bind. eapply traces_mono; [|apply traces_true]. intros b t _ ans. cbn.
  destruct (rv ans =? 0) eqn:E; [|done]. apply Z.eqb_eq in E. cbn.
  unfold close_and_reset. destruct (p.1 =? -1); cbn.
  - exists p.1, ans. split; [|done]. apply elem_of_app. right. left.
  - intros ans'. exists p.1, ans. split; [|done]. apply elem_of_app. right. left.
Qed.

Section Child.
Context {B : BuildConfig} (environ : list cstr).

(** What a run changes of the configuration before it is entered. *)
Definition same_confinement (j j' : minijail) : Prop :=
  ∃ name fd abi fds, j' = j <| filename := name |> <| fs_rules_fd := fd |>
                            <| fs_rules_landlock_abi := abi |> <| preserved_fds := fds |>.

(** The child went on after the parent was done, entered the jail and ran the last
    hooks. *)
Definition jailed (j : minijail) (config : minijail_run_config) (t : trace) : Prop :=
  ∃ j' t1 t2 t3, t = t1 ++ t2 ++ t3 ∧ same_confinement j j' ∧
    (sync_child j = true → ∃ fd ans, (Read fd 1, ans) ∈ t1 ∧ rv ans = 0) ∧
    (Forall honest t → entered (child_jail j' config.(rc_use_preload)) t2 ∧
       hook_calls (child_jail j' config.(rc_use_preload)) MINIJAIL_HOOK_EVENT_PRE_EXECVE
         `sublist_of` succeeded t3).

Lemma same_confinement_refl j : same_confinement j j.
Proof. exists j.(filename), j.(fs_rules_fd), j.(fs_rules_landlock_abi), j.(preserved_fds). by destruct j. Qed.

Lemma same_confinement_trans j1 j2 j3 :
  same_confinement j1 j2 → same_confinement j2 j3 → same_confinement j1 j3.
Proof.
  intros (n & f & a & l & ->) (n' & f' & a' & l' & ->). exists n', f', a', l'. by destruct j1.
Qed.

Lemma same_confinement_sync j j' : same_confinement j j' → sync_child j' = sync_child j.
Proof. intros (n & f & a & l & ->). by destruct j. Qed.

Lemma filename_same j f :
  same_confinement j match f with Some f => j <| filename := Some f |> | None => j end.
Proof.
  destruct f as [f|]; [|apply same_confinement_refl].
  exists (Some f), j.(fs_rules_fd), j.(fs_rules_landlock_abi), j.(preserved_fds). by destruct j.
Qed.

Lemma preserve_same j a b : same_confinement j (minijail_preserve_fd j a b).2.
Proof.
  unfold minijail_preserve_fd. destruct (_ || _); [apply same_confinement_refl|].
  destruct (_ <=? _)%nat; [apply same_confinement_refl|].
  eexists j.(filename), j.(fs_rules_fd), j.(fs_rules_landlock_abi), _. by destruct j.
Qed.

Lemma run_fs_rules_same j : traces (run_fs_rules j) (λ j' _, same_confinement j j').
Proof.
  unfold run_fs_rules. destruct (fs_rules j) eqn:E; [apply same_confinement_refl|].
  assert (∀ a f, same_confinement j (j <| fs_rules_landlock_abi := a |> <| fs_rules_fd := f |>)) as H0.
  { intros a f'. eexists j.(filename), f', a, j.(preserved_fds). by destruct j. }
  assert (∀ f, same_confinement j (j <| fs_rules_fd := f |>)) as H1.
  { intros f'. eexists j.(filename), f', j.(fs_rules_landlock_abi), j.(preserved_fds). by destruct j. }
  unfold setup_fs_rules_fd, fs_refer_restriction_supported. destruct (_ <? 0); cbn.
  - intros a b. destruct (0 <? rv a); (eapply same_confinement_trans; [|apply preserve_same]); eauto.
  - intros b. eapply same_confinement_trans; [|apply preserve_same]. eauto.
Qed.

Lemma run_child_close_same fuel j st elf :
  traces (run_child_close fuel j st elf) (λ j' _, same_confinement j j').
Proof.
  unfold run_child_close. destruct (flag j F_close_open_fds); [|apply same_confinement_refl].
  unfold inheritable. cbv zeta. apply traces_bind. eapply traces_mono; [|apply traces_true].
  intros ret t _. destruct (ret <? 0); [done|]. cbn.
  destruct (flag j F_enter_vfs), (flag _ F_enter_net);
    eauto using same_confinement_trans, preserve_same, same_confinement_refl.
Qed.

(** Whatever [m] does, the rest decides. *)
Lemma traces_skip {A C} (m : io A) (f : A → io C) (P : C → trace → Prop) :
  (∀ a t, traces (f a) (λ c t', P c (t ++ t'))) → traces (m ≫= f) P.
Proof. intros H. apply traces_bind. eapply traces_mono; [|apply traces_true]. simpl. auto. Qed.

Lemma run_child_enter_traces fuel j config st :
  traces (run_child_enter fuel j config st) (λ r t,
    ∃ j' t1 t2, t = t1 ++ t2 ∧ same_confinement j j' ∧ r.1.1 = child_jail j' config.(rc_use_preload) ∧
      (sync_child j = true → ∃ fd ans, (Read fd 1, ans) ∈ t1 ∧ rv ans = 0) ∧
      (Forall honest t2 → entered (child_jail j' config.(rc_use_preload)) t2)).
Proof.
  apply traces_skip. intros _ t0. apply traces_bind.
  eapply traces_mono; [|apply run_child_close_same]. intros j1 t1 H1.
  apply traces_skip. intros [[fds st1] elf] t2. cbv zeta.
  assert (same_confinement j (j1 <| preserved_fds := fds |>)) as H2.
  { eapply same_confinement_trans; [exact H1|]. by eexists _, _, _, _. }
  clear H1. set (j2 := j1 <| preserved_fds := fds |>) in *. clearbody j2.
  apply traces_bind.
  eapply (traces_mono _ (λ _ t, sync_child j = true → ∃ fd ans, (Read fd 1, ans) ∈ t ∧ rv ans = 0)).
  2: { rewrite (same_confinement_sync _ _ H2). destruct (sync_child j); [|done].
       eapply traces_mono; [|apply traces_wait]. auto. }
  intros sync t3 H3. cbv zeta. apply traces_skip. intros _ t4. apply traces_skip. intros st2 t5.
  cbv zeta. apply traces_bind. eapply traces_mono; [|apply minijail_enter_traces]. intros u t6 H6. cbn in H6.
  cbn. exists j2, (t0 ++ t1 ++ t2 ++ t3 ++ t4 ++ t5), t6.
  split_and!; [by rewrite !app_nil_r, <- !app_assoc|done|done| |done].
  intros Hs. destruct (H3 Hs) as (fd & ans & Hin & Hz). exists fd, ans. split; [|done].
  rewrite !elem_of_app. auto.
Qed.

Lemma run_child_jailed fuel j config st :
  before (run_child environ fuel j config st) [] (λ c t, ¬ no_exec c → jailed j config t).
Proof.
  apply before_bind.
  { eapply before_only; [apply run_child_enter_quiet|done]. }
  eapply traces_mono; [|apply run_child_enter_traces].
  intros [[je st1] elf] t (j' & t1 & t2 & -> & Hj & Hje & Hs & He). cbn in Hje. subst je. cbn [app].
  apply before_bind; [eapply before_only; [apply run_child_init_quiet|done]|].
  eapply traces_mono; [|apply traces_true]. intros st2 t3 _.
  apply before_bind; [eapply before_only; [apply run_hooks_quiet|done]|].
  eapply traces_mono; [|apply run_hooks_emits]. intros u t4 Hh. cbn in Hh.
  destruct (rc_exec_in_child config); [|done]. cbn [negb]. cbv zeta.
  apply before_bind; [eapply (before_only no_exec); [quiet|done]|].
  eapply traces_mono; [|apply traces_true]. intros _ t5 _.
  assert (jailed j config ((((t1 ++ t2) ++ t3) ++ t4) ++ t5)) as Hgood.
  { exists j', t1, t2, (t3 ++ t4 ++ t5). split_and!; [by rewrite <- !app_assoc|done|done|].
    rewrite !list.Forall_app. intros ((((H1 & H2) & H3) & H4) & H5).
    split; [by apply He|]. rewrite !succeeded_app. apply sublist_inserts_l, sublist_inserts_r. by apply Hh. }
  unfold run_exec. destruct (-1 <? elf), (rc_filename config) as [path|]; cbn [mbind io_bind call mret io_ret].
  all: try (split; [done|]; intros ans; cbn [mbind io_bind]; destruct (rv ans =? -1)); cbn; try done.
  all: split; [|done]; intros Hx; by destruct Hx.
Qed.

Lemma run_internal_jailed fuel j config st :
  before (minijail_run_internal environ fuel j config st) [] (λ c t, ¬ no_exec c → jailed j config t).
Proof.
  unfold minijail_run_internal. destruct (_ && _); [done|]. cbv zeta.
  set (j1 := match rc_filename config with Some f => _ | None => _ end).
  assert (same_confinement j j1) as H1 by apply filename_same.
  clearbody j1. apply before_bind; [eapply before_only; [apply run_start_quiet|done]|].
  eapply traces_mono; [|apply traces_true]. intros [r st1] t1 _. destruct (_ =? 0); [|done]. cbn [negb].
  apply before_bind; [eapply before_only; [apply run_fork_quiet|done]|].
  eapply traces_mono; [|apply traces_true]. intros pid t2 _.
  apply before_bind; [eapply before_only; [apply run_fs_rules_quiet|done]|].
  eapply traces_mono; [|apply run_fs_rules_same]. intros j2 t3 H2. cbv zeta.
  destruct (pid =? 0); cbn [negb]; [|eapply before_only; [apply run_parent_quiet|done]].
  eapply before_shift; [|apply run_child_jailed]. intros c t Hc Hex.
  destruct (Hc Hex) as (j' & u1 & u2 & u3 & -> & Hj & Hs & He).
  exists j', ((([] ++ t1) ++ t2) ++ t3 ++ u1), u2, u3. split_and!.
  - by rewrite <- !app_assoc.
  - by eapply same_confinement_trans; [|exact Hj]; eapply same_confinement_trans.
  - intros Hsync. destruct Hs as (fd & ans & Hin & Hz).
    { by rewrite (same_confinement_sync _ _ H2), (same_confinement_sync _ _ H1). }
    exists fd, ans. split; [|done]. rewrite !elem_of_app. auto.
  - rewrite !list.Forall_app. intros (_ & ? & ? & ?). apply He. by rewrite !list.Forall_app.
Qed.

End Child.
