(* ===== verification/HandOver.v ===== *)
(** * The configuration on its way to the preloaded library

    What the parent writes into the pipe is what the library reads, the library
    enters that configuration before it calls the program's main(), and the
    environment is as it was. *)

From S2P Require Import Prelude CLib Util UtilProps Bpf OS Trace System Jail Codec Marshal.
From S2P Require Import MarshalProps Enter Emits MountProps EnterProps Fds Run Preload RunProps.
Local Open Scope Z_scope.

(** ** Writing *)

(** What the kernel took of the writes to [fd]. *)
Definition taken_by (fd : Z) (e : event) : list ascii :=
  match e with
  | (Write fd' data, a) => if (fd' =? fd) && (0 <=? rv a) then take (Z.to_nat (rv a)) data else []
  | _ => []
  end.
Definition accepted (fd : Z) (t : trace) : list ascii := mjoin (taken_by fd <$> t).

(** write(2) of some bytes takes at least one of them and not more than all, or
    fails with an error number. *)
Definition write_answer (e : event) : Prop :=
  match e with
  | (Write _ data, a) => 1 <= rv a <= Z.of_nat (length data) ∨ rv a < 0 ∧ 0 < eno a
  | _ => True
  end.

Definition interrupted (e : event) : bool :=
  match e with (Write _ _, a) => (rv a <? 0) && (eno a =? EINTR) | _ => false end.
Definition interruptions (t : trace) : nat := length (filter (λ e, interrupted e = true) t).

(** A run in which at most [n] writes are interrupted. *)
Definition writes_within (n : nat) (t : trace) : Prop :=
  Forall write_answer t ∧ (interruptions t <= n)%nat.

Lemma interruptions_snoc t e :
  interruptions (t ++ [e]) = (interruptions t + if interrupted e then 1 else 0)%nat.
Proof.
  unfold interruptions. rewrite list.filter_app, length_app. f_equal.
  destruct (interrupted e) eqn:E; [by rewrite filter_cons_True|by rewrite filter_cons_False by congruence].
Qed.

Lemma accepted_app fd t t' : accepted fd (t ++ t') = accepted fd t ++ accepted fd t'.
Proof. unfold accepted. by rewrite fmap_app, join_app. Qed.

Lemma writes_within_snoc n t e :
  writes_within n (t ++ [e]) →
  write_answer e ∧ (interruptions t + (if interrupted e then 1 else 0) <= n)%nat.
Proof.
  intros [Hf Hn]. rewrite interruptions_snoc in Hn. apply list.Forall_app in Hf as [_ Hf].
  apply list.Forall_cons in Hf as [Hf _]. done.
Qed.

(** Short writes and interruptions only delay the end; the return code says whether
    all of the buffer was taken. *)
Lemma write_exactly_total fuel fd buf n t (P : Z → trace → Prop) :
  (interruptions t <= n)%nat → (length buf + n <= fuel + interruptions t)%nat →
  (∀ r t', (r = 0 → accepted fd t' = accepted fd t ++ buf) → (interruptions t <= interruptions t' <= n)%nat →
     P r t') →
  total (writes_within n) (write_exactly fuel fd buf) t P.
Proof.
  revert buf t P. induction fuel as [|fuel IH]; intros [|b buf] t P Ht Hf HP; cbn [write_exactly].
  1,3: apply HP; [by rewrite app_nil_r|lia].
  { simpl in Hf. lia. }
  cbn [length] in Hf. intros ans (Hans & Hn)%writes_within_snoc.
  pose proof (interruptions_snoc t (Write fd (b :: buf), ans)) as Hs.
  assert (accepted fd (t ++ [(Write fd (b :: buf), ans)]) =
          accepted fd t ++ taken_by fd (Write fd (b :: buf), ans)) as Hacc.
  { rewrite accepted_app. f_equal. unfold accepted. cbn. by rewrite app_nil_r. }
  cbn in Hacc, Hans, Hn. rewrite Z.eqb_refl in Hacc. cbn in Hs. cbn [mbind io_bind call].
  destruct (rv ans <? 0) eqn:Eneg.
  - apply Z.ltb_lt in Eneg. rewrite (proj2 (Z.leb_gt _ _)) in Hacc by lia. cbn in Hacc, Hs, Hn.
    rewrite app_nil_r in Hacc. destruct (eno ans =? EINTR).
    + apply IH; [rewrite Hs; lia|rewrite Hs; cbn [length]; lia|]. rewrite Hs, Hacc. intros r t' H1 H2.
      apply HP; [done|lia].
    + apply HP; [lia|rewrite Hs; lia].
  - apply Z.ltb_ge in Eneg. rewrite (proj2 (Z.leb_le _ _)) in Hacc by lia. cbn in Hacc, Hs, Hn.
    destruct Hans as [Hr|]; [|lia]. rewrite (proj2 (Z.ltb_ge _ _)) by (cbn [length]; lia).
    apply IH; [rewrite Hs; lia| |].
    + rewrite Hs, length_drop. cbn [length] in *. lia.
    + rewrite Hs, Hacc, <- app_assoc, take_drop. intros r t' H1 H2. apply HP; [done|lia].
Qed.

(** ** The message *)

Definition message (j : minijail) : list ascii :=
  le_bytes size_bytes (Z.of_nat (length (serialize j))) ++ serialize j.

(** Reads on [fd] deliver [data] in order, each as much as is asked for and there. *)
Fixpoint reads_from (fd : Z) (data : list ascii) (t : trace) : Prop :=
  match t with
  | [] => True
  | (Read fd' n, a) :: t =>
      if fd' =? fd then
        let chunk := take (Z.to_nat n) data in
        rv a = Z.of_nat (length chunk) ∧ bytes a = Some chunk ∧ reads_from fd (drop (Z.to_nat n) data) t
      else reads_from fd data t
  | _ :: t => reads_from fd data t
  end.

Lemma reads_from_app fd data t t' : reads_from fd data (t ++ t') → reads_from fd data t.
Proof.
  revert data. induction t as [|[c a] t IH]; intros data; [done|]. cbn [app reads_from].
  destruct c; try apply IH. case_match; [|apply IH]. intros (? & ? & ?). split_and!; auto.
Qed.

Section HandOver.
Context {B : BuildConfig}.

Lemma minijail_to_fd_total fuel j fd n :
  (length (serialize j) + size_bytes + n <= fuel)%nat →
  total (writes_within n) (minijail_to_fd fuel j fd) [] (λ r t, r = 0 → accepted fd t = message j).
Proof.
  intros Hf. unfold minijail_to_fd. cbv zeta. pose proof (serialize_nonempty j) as Hne.
  rewrite minijail_marshal_spec, minijail_size_spec, Nat.ltb_irrefl, take_ge by done.
  destruct (_ =? 0)%nat eqn:E; [apply Nat.eqb_eq in E; lia|]. apply total_bind.
  apply write_exactly_total; [apply Nat.le_0_l|rewrite length_le_bytes; change (interruptions []) with 0%nat; lia|]. intros r t H1 H2.
  destruct (r =? 0) eqn:Er; cbn [negb]; [|apply Z.eqb_neq in Er; by intros ?]. apply Z.eqb_eq in Er.
  apply write_exactly_total; [lia|lia|]. intros r' t' H3 H4 Hr'. rewrite (H3 Hr'), (H1 Er). done.
Qed.

Ltac returns_tac :=
  cbv beta zeta;
  lazymatch goal with
  | |- ends_in_return (mbind _ _) => apply ends_in_return_bind; [|intros ?]; returns_tac
  | |- ends_in_return (match ?x with _ => _ end) => destruct x; returns_tac
  | |- ends_in_return (call _) => intros ?; exact I
  | |- ends_in_return (mret _) => exact I
  | |- ends_in_return IUndef => exact I
  | |- ends_in_return ?m => first [done | solve [auto 2] | let h := head_of m in unfold h; returns_tac]
  end.

Lemma unmarshal_returns j buf : ends_in_return (minijail_unmarshal j buf).
Proof.
  assert (∀ n j buf, ends_in_return (unmarshal_cgroups n j buf)).
  { intros n. induction n; intros j' buf'; cbn [unmarshal_cgroups]; returns_tac. }
  assert (∀ n j buf, ends_in_return (unmarshal_fs_rules n j buf)).
  { intros n. induction n; intros j' buf'; cbn [unmarshal_fs_rules]; returns_tac. }
  unfold minijail_unmarshal. returns_tac.
Qed.

(** What the reader makes of the message. *)
Definition received (j out : minijail) (r : Z * minijail) : Prop :=
  if Z.of_nat (minijail_size j) <=? USHRT_MAX then
    r.1 = 0 ∧ ∃ abi, (j.(fs_rules) = [] ∨ 0 <= j.(fs_rules_landlock_abi) → abi = j.(fs_rules_landlock_abi)) ∧
              r.2 = sent j <| fs_rules_landlock_abi := abi |>
  else r = (- E2BIG, out).

Lemma minijail_from_fd_total fd j out :
  marshalable j → Z.of_nat (minijail_size j) < 2 ^ 64 →
  total (reads_from fd (message j)) (minijail_from_fd fd out) [] (λ r _, received j out r).
Proof.
  intros Hj. unfold received, message. rewrite minijail_size_spec. intros Hlt.
  pose proof (unmarshal_serialize out j Hj) as Hun. revert Hlt Hun. generalize (serialize j). intros s Hlt Hun.
  set (len := le_bytes size_bytes (Z.of_nat (length s))).
  assert (length len = size_bytes) as Hlen by apply length_le_bytes.
  assert (le_value len = Z.of_nat (length s)) as Hval by (apply le_value_bytes; split; [lia|exact Hlt]).
  clearbody len. unfold minijail_from_fd. intros ans HK. cbn [app reads_from] in HK.
  rewrite Z.eqb_refl, Nat2Z.id, take_app_le, take_ge, Hlen in HK by lia.
  destruct HK as (Hrv & Hby & _). cbn [mbind io_bind call]. rewrite Hrv, Z.eqb_refl. cbn [negb].
  assert (le_value (read_bytes ans size_bytes) = Z.of_nat (length s)) as Hsz.
  { unfold read_bytes. rewrite Hby. change (default [] (Some len)) with len. by rewrite take_ge by (by rewrite Hlen). }
  rewrite !Hsz. cbv zeta.
  destruct (Z.of_nat (length s) <=? USHRT_MAX) eqn:E.
  2: { apply Z.leb_gt in E. by rewrite (proj2 (Z.ltb_lt _ _) E). }
  apply Z.leb_le in E. rewrite (proj2 (Z.ltb_ge _ _) E). intros ans2 HK. cbn [app reads_from] in HK.
  rewrite !Z.eqb_refl, !Nat2Z.id in HK. destruct HK as (_ & _ & HK).
  rewrite drop_app_length', (take_ge s) in HK by done. destruct HK as (Hrv2 & Hby2 & _). cbn [mbind io_bind call]. rewrite Hrv2, Z.eqb_refl. cbn [negb].
  unfold read_bytes. rewrite Hby2. change (default [] (Some s)) with s. rewrite Nat2Z.id, take_ge by done.
  apply wp_total; [exact Hun|apply unmarshal_returns].
Qed.

(** C16: the configuration survives the pipe.  Let the kernel take any part of each
    write, interrupt at most [n] of them, or fail; with fuel for every byte and every
    interruption minijail_to_fd returns, and when it returns 0, then minijail_from_fd
    at the other end, whose reads deliver what was written, returns too: it rebuilds
    the configuration (as [minijail_copy_jail] does) when its serialised form has at
    most 65535 bytes, and otherwise refuses it with -E2BIG and leaves its argument
    alone. *)
Theorem pipe_handover fuel j n wfd :
  marshalable j → Z.of_nat (minijail_size j) < 2 ^ 64 →
  (minijail_size j + size_bytes + n <= fuel)%nat →
  total (writes_within n) (minijail_to_fd fuel j wfd) [] (λ r t, r = 0 →
    ∀ rfd out, total (reads_from rfd (accepted wfd t)) (minijail_from_fd rfd out) []
                 (λ r' _, received j out r')).
Proof.
  rewrite minijail_size_spec. intros Hj Hlt Hf.
  eapply total_mono; [|by apply minijail_to_fd_total]. intros r t Ht Hr rfd out. cbv beta in Ht.
  rewrite (Ht Hr). apply minijail_from_fd_total; [done|]. by rewrite minijail_size_spec.
Qed.

(** ** The preloaded library *)

(** The environment of the program's main(). *)
Definition program_env (envp : list cstr) : list cstr :=
  truncate_preload_env (default envp (minijail_unsetenv (Some envp) (Some kFdEnvVar)).2) kLdPreloadEnvVar.

(** The library's main() calls the program's main() only inside the jail: the call comes
    after everything the configuration asks for beyond the parent's part was granted. *)
Lemma fake_main_jailed argv envp name j :
  marshalable j → Z.of_nat (minijail_size j) < 2 ^ 64 →
  minijail_getenv (Some envp) (Some kFdEnvVar) = Some name →
  before (fake_main argv envp) [] (λ c t, ¬ no_exec c →
    reads_from (s32 (strtol name 10).1.1) (message j) t → Forall honest t →
    c = CallMain argv (program_env envp) ∧
    ∃ abi, (j.(fs_rules) = [] ∨ 0 <= j.(fs_rules_landlock_abi) → abi = j.(fs_rules_landlock_abi)) ∧
           entered (minijail_preenter (sent j <| fs_rules_landlock_abi := abi |>)) t).
Proof.
  intros Hj Hlt Hname. unfold fake_main. rewrite Hname. set (fd := s32 (strtol name 10).1.1). clearbody fd.
  apply before_bind; [eapply (before_only no_exec); [quiet|done]|].
  apply (traces_mono _ (λ _ t, ∀ t', reads_from fd (message j) (t ++ t') → reads_from fd (message j) t')).
  2: { unfold ids_differ. intros a b. cbn. destruct (rv a =? rv b); cbn; auto. }
  intros differ t0 H0. destruct differ; [done|]. cbv zeta. destruct (fd <? 0); [done|].
  apply before_bind; [eapply before_only; [apply minijail_from_fd_quiet|done]|].
  eapply traces_mono; [|apply (total_traces _ _ _ _ (minijail_from_fd_total fd j minijail_new Hj Hlt))].
  intros [ret j1] t1 H1. cbn [app] in *. destruct (ret =? 0) eqn:Eret; [|done]. cbn [negb]. apply Z.eqb_eq in Eret.
  apply before_bind; [split; [|done]; by intros Hx; destruct Hx|]. intros ans.
  apply before_bind; [eapply before_only; [apply minijail_enter_quiet|done]|].
  eapply traces_mono; [|apply minijail_enter_traces]. intros u t2 H2. cbv beta in H2.
  apply before_bind; [split; [|done]; by intros Hx; destruct Hx|]. intros ans2.
  split; [|done]. intros _ Hreads Hh.
  split; [done|].
  assert (received j minijail_new (ret, j1)) as Hrec.
  { apply H1. intros u1 u2 ->. rewrite <- !app_assoc in Hreads. by eapply reads_from_app, H0. }
  unfold received in Hrec. destruct (_ <=? USHRT_MAX); [|by injection Hrec; intros; subst ret].
  destruct Hrec as (_ & abi & Habi & Hj1). cbn [snd] in Hj1. exists abi. split; [done|]. rewrite <- Hj1.
  rewrite !list.Forall_app in Hh. rewrite <- (app_assoc _ t2). apply entered_app, H2. naive_solver.
Qed.

(** What the C library does in front of main(): it runs no program and does not read
    the descriptor of the configuration. *)
Definition c_runtime (fd : Z) (c : oscall) : Prop :=
  no_exec c ∧ match c with Read fd' _ => fd' ≠ fd | _ => True end.

Lemma reads_from_skip fd data t t' :
  Forall (λ e, c_runtime fd e.1) t → reads_from fd data (t ++ t') → reads_from fd data t'.
Proof.
  induction 1 as [|[c a] t [_ Hc] Ht IH]; [done|]. cbn [app reads_from].
  destruct c; try exact IH. by rewrite (proj2 (Z.eqb_neq fd0 fd) Hc).
Qed.

(** The C library's own start-up in front of it changes nothing. *)
Lemma libc_start_main_jailed real set_up argv envp name j :
  (∀ main, real main argv envp = set_up ≫= λ _, main argv envp) →
  marshalable j → Z.of_nat (minijail_size j) < 2 ^ 64 →
  minijail_getenv (Some envp) (Some kFdEnvVar) = Some name →
  calls_only (c_runtime (s32 (strtol name 10).1.1)) (set_up : io unit) →
  before (libc_start_main real argv envp) [] (λ c t, ¬ no_exec c →
    reads_from (s32 (strtol name 10).1.1) (message j) t → Forall honest t →
    c = CallMain argv (program_env envp) ∧
    ∃ abi, (j.(fs_rules) = [] ∨ 0 <= j.(fs_rules_landlock_abi) → abi = j.(fs_rules_landlock_abi)) ∧
           entered (minijail_preenter (sent j <| fs_rules_landlock_abi := abi |>)) t).
Proof.
  intros Hreal Hj Hsz Hname Hset. unfold libc_start_main.
  apply before_bind; [split; [|done]; by intros Hx; destruct Hx|]. intros a1.
  cbn [traces]. destruct (rv a1 =? 0); [eapply (before_only no_exec); [quiet|done]|].
  apply before_bind; [split; [|done]; by intros Hx; destruct Hx|]. intros a2.
  cbn [traces]. destruct (rv a2 =? 0); [eapply (before_only no_exec); [quiet|done]|].
  rewrite Hreal.
  apply before_bind; [eapply before_only; [exact Hset|]; intros c t Hc Hx; destruct Hc; by destruct Hx|].
  eapply traces_mono; [|apply (calls_only_traces _ _ Hset)]. intros u t Ht. cbv beta in Ht.
  eapply before_shift; [|by apply fake_main_jailed].
  intros c t' H Hx Hr Hh. apply list.Forall_app in Hh as [_ Hh]. cbn [app] in Hr |- *.
  destruct (H Hx) as (Hc & abi & Habi & He); [| |split; [done|]].
  - by eapply reads_from_skip.
  - done.
  - exists abi. split; [done|]. pose proof (entered_app _ ((Dlopen (str "libc.so.6"), a1) :: (Dlsym (str "__libc_start_main"), a2) :: t) t' [] He) as G.
    by rewrite app_nil_r in G.
Qed.

(** C17: the preloaded library runs the program only inside the jail.  Let the C library's
    __libc_start_main() set up the process, without a read of the descriptor that the
    environment names, and call the main() it is given.  If a configuration arrives on
    that descriptor, then whatever the kernel answers, the call of the program's main()
    comes after what [entered] lists was granted for the part of that configuration that
    [minijail_preenter] leaves to the library, with the arguments of the program and an
    environment without the library's own variables; no other program is run.  The
    exceptions are those of minijail_enter: a mount list that ends at a bind mount whose
    source the kernel could not examine or the build's check refused, as the trace shows;
    secure bits that the caller or a locked KEEP_CAPS excepts; no Landlock without a
    ruleset descriptor; no filter in a build with address sanitizer; no strict mode where
    the kernel does not know it and the build lets that pass.  The configuration is one
    that can be sent ([marshalable]) and shorter than 2^64 bytes; a chroot, chdir, fchdir,
    mount or umount2 that fails sets errno ([honest]). *)
Theorem preload_main_jailed real set_up argv envp name j :
  (∀ main, real main argv envp = set_up ≫= λ _, main argv envp) →
  marshalable j → Z.of_nat (minijail_size j) < 2 ^ 64 →
  minijail_getenv (Some envp) (Some kFdEnvVar) = Some name →
  calls_only (c_runtime (s32 (strtol name 10).1.1)) (set_up : io unit) →
  before (libc_start_main real argv envp) [] (λ c t, ¬ no_exec c →
    reads_from (s32 (strtol name 10).1.1) (message j) t → Forall honest t →
    c = CallMain argv (program_env envp) ∧
    ∃ abi, (j.(fs_rules) = [] ∨ 0 <= j.(fs_rules_landlock_abi) → abi = j.(fs_rules_landlock_abi)) ∧
           entered (minijail_preenter (sent j <| fs_rules_landlock_abi := abi |>)) t).
Proof. apply libc_start_main_jailed. Qed.
End HandOver.

(** ** The environment comes back *)

Lemma strrchr_split_none s : SPACE ∉ s → strrchr_split s = None.
Proof.
  induction s as [|c s IH]; intros Hs; [done|]. cbn. apply not_elem_of_cons in Hs as [Hc Hs].
  rewrite IH by done. by rewrite bool_decide_false.
Qed.

Lemma strrchr_split_app s p : SPACE ∉ p → strrchr_split (s ++ SPACE :: p) = Some s.
Proof.
  intros Hp. induction s as [|c s IH]; cbn; [|by rewrite IH].
  by rewrite strrchr_split_none, bool_decide_true.
Qed.

Lemma unsetenv_snoc env name v :
  (∀ e, e ∈ env → env_entry_matches name e = false) →
  minijail_unsetenv (Some (env ++ [name ++ str "=" ++ v])) (Some name) = (true, Some env).
Proof.
  intros Hn. unfold minijail_unsetenv.
  rewrite (getenv_index_snoc env name) by (done || (apply env_entry_matches_spec; by exists v)).
  rewrite length_app. cbn [length]. rewrite Nat.add_sub, lookup_app_r, Nat.sub_diag by done. cbn.
  by rewrite take_insert_ge, take_app_length by done.
Qed.

Lemma truncate_absent env name p :
  (∀ e, e ∈ env → env_entry_matches name e = false) → SPACE ∉ p →
  truncate_preload_env (env ++ [name ++ str "=" ++ p]) name = env.
Proof.
  intros Hn Hp. unfold truncate_preload_env.
  rewrite (getenv_index_snoc env name) by (done || (apply env_entry_matches_spec; by exists p)).
  rewrite lookup_app_r, Nat.sub_diag by done. cbn [lookup list_lookup fmap option_fmap option_map].
  rewrite drop_app_ge by lia. replace (length name + 1 - length name)%nat with 1%nat by lia.
  change (drop 1 (str "=" ++ p)) with p. by rewrite strrchr_split_none, unsetenv_snoc.
Qed.

Lemma truncate_present env name v p i :
  getenv_index env name = (true, i) → env !! i = Some (name ++ str "=" ++ v) → SPACE ∉ p →
  truncate_preload_env (<[i := name ++ str "=" ++ v ++ SPACE :: p]> env) name = env.
Proof.
  intros Hi Hl Hp. unfold truncate_preload_env.
  rewrite (getenv_index_insert env name) by (done || (apply env_entry_matches_spec; by eexists)).
  rewrite list_lookup_insert_eq by (by eapply lookup_lt_Some).
  cbn [fmap option_fmap option_map]. rewrite drop_app_ge by lia.
  replace (length name + 1 - length name)%nat with 1%nat by lia.
  change (drop 1 (str "=" ++ v ++ SPACE :: p)) with (v ++ SPACE :: p).
  rewrite strrchr_split_app, list_insert_insert_eq by done. by apply list_insert_id.
Qed.

Lemma setenv_overwrite env name v :
  name ≠ [] →
  minijail_setenv (Some env) (Some name) (Some v) true =
    (0, Some (match getenv_index env name with
              | (true, i) => <[i := name ++ str "=" ++ v]> env
              | (false, _) => env ++ [name ++ str "=" ++ v]
              end)).
Proof. destruct name; [done|]. intros _. cbn [minijail_setenv negb]. by destruct (getenv_index env _) as [[] i]. Qed.

(** A variable that is not set, set and removed. *)
Lemma set_unset env name v :
  name ≠ [] → (∀ e, e ∈ env → env_entry_matches name e = false) →
  minijail_unsetenv (minijail_setenv (Some env) (Some name) (Some v) true).2 (Some name) = (true, Some env).
Proof.
  intros Hne Hn. rewrite setenv_overwrite by done. pose proof (getenv_index_spec env name) as Hi.
  destruct (getenv_index env name) as [[] i]; cbn [snd]; [|by apply unsetenv_snoc].
  destruct Hi as (e & He & Hm & _). rewrite Hn in Hm; [done|]. by eapply list_elem_of_lookup_2.
Qed.

Lemma setup_preload_spec `{B : BuildConfig} j env :
  minijail_getenv (Some env) (Some kLdPreloadEnvVar) ≠ Some [] →
  SPACE ∉ default preloadpath j.(preload_path) →
  ∃ env', setup_preload j (Some env) = (0, Some env') ∧ truncate_preload_env env' kLdPreloadEnvVar = env ∧
    ∀ e, e ∈ env' → e ∈ env ∨ ∃ v, e = kLdPreloadEnvVar ++ str "=" ++ v.
Proof.
  intros Hne Hp. unfold setup_preload. set (p := default preloadpath _) in *. cbv zeta.
  rewrite setenv_overwrite by done. unfold minijail_getenv in *.
  pose proof (getenv_index_spec env kLdPreloadEnvVar) as Hi. eexists. split; [reflexivity|].
  destruct (getenv_index env kLdPreloadEnvVar) as [[] i] eqn:Ei.
  - destruct Hi as (e & He & (v & ->)%env_entry_matches_spec & _). rewrite He in *.
    assert (drop (length kLdPreloadEnvVar + 1) <$> Some (kLdPreloadEnvVar ++ str "=" ++ v) = Some v) as Hv.
    { cbn [fmap option_fmap option_map]. rewrite drop_app_ge by lia.
      by replace (length kLdPreloadEnvVar + 1 - length kLdPreloadEnvVar)%nat with 1%nat by lia. }
    rewrite Hv in *. change (default [] (Some v)) with v. destruct v as [|c v]; [done|]. split.
    + by apply truncate_present.
    + intros e [k Hk]%list_elem_of_lookup. destruct (decide (i = k)) as [<-|Hik].
      * rewrite list_lookup_insert_eq in Hk by (by eapply lookup_lt_Some). injection Hk as <-. eauto.
      * rewrite list_lookup_insert_ne in Hk by done. left. by eapply list_elem_of_lookup_2.
  - destruct Hi as [_ Hn]. split; [by apply truncate_absent|].
    intros e [?|Hx%list_elem_of_singleton]%elem_of_app; [eauto|subst e]; eauto.
Qed.

(** C38: the program sees the environment the caller gave it.  When that does not
    hold the library's descriptor variable and LD_PRELOAD is absent or not empty,
    then adding the preloaded library and the descriptor before execve(2) and
    removing them again in the library gives back the same array; the path of the
    library has to be free of spaces, as LD_PRELOAD separates with them. *)
Theorem preload_env_roundtrip `{B : BuildConfig} j env number :
  (∀ e, e ∈ env → env_entry_matches kFdEnvVar e = false) →
  minijail_getenv (Some env) (Some kLdPreloadEnvVar) ≠ Some [] →
  SPACE ∉ default preloadpath j.(preload_path) →
  program_env (default env (minijail_setenv (setup_preload j (Some env)).2 (Some kFdEnvVar) (Some number) true).2)
    = env.
Proof.
  intros Hfd Hne Hp. destruct (setup_preload_spec j env Hne Hp) as (env' & -> & Htr & Hin).
  assert (∀ e, e ∈ env' → env_entry_matches kFdEnvVar e = false) as Hfd'.
  { intros e [He|[v ->]]%Hin; [by apply Hfd|]. apply env_entry_matches_other; [| |done].
    all: by apply (bool_decide_unpack _). }
  unfold program_env. cbn [snd].
  assert (∃ env'', minijail_setenv (Some env') (Some kFdEnvVar) (Some number) true = (0, Some env'')) as [env'' E].
  { rewrite setenv_overwrite by done. by eexists. }
  pose proof (set_unset env' kFdEnvVar number) as Hs. rewrite E in *. cbn [snd] in Hs.
  cbn [snd]. change (default env (Some env'')) with env''. rewrite Hs by done. exact Htr.
Qed.

(** ** Examples *)

Lemma pipe_handover_witness :
  Z.of_nat (minijail_size example_jail) <= USHRT_MAX ∧
  total (writes_within 2) (minijail_to_fd 4000 example_jail 5) [] (λ r t, r = 0 →
    ∀ rfd out, total (reads_from rfd (accepted 5 t)) (minijail_from_fd rfd out) []
                 (λ r' _, received example_jail out r')).
Proof.
  split; [by vm_compute|].
  apply pipe_handover; [apply example_marshalable|by vm_compute|].
  apply (bool_decide_unpack _). by vm_compute.
Defined.

Definition example_env : list cstr :=
  [str "PATH=/bin"; str "LD_PRELOAD=/lib/libminijailpreload.so"; str "__MINIJAIL_FD=7"].

(** A C library that asks for one limit of the system first. *)
Definition example_start (main : list cstr → list cstr → io Z) (argv envp : list cstr) : io Z :=
  (_ ← call (Sysconf 0); mret tt) ≫= λ _, main argv envp.

Lemma preload_main_jailed_witness :
  minijail_getenv (Some example_env) (Some kFdEnvVar) = Some (str "7") ∧
  before (libc_start_main (B:=example_config) example_start [str "prog"] example_env) [] (λ c t, ¬ no_exec c →
    reads_from 7 (message example_jail) t → Forall honest t →
    c = CallMain [str "prog"] [str "PATH=/bin"] ∧
    ∃ abi, (example_jail.(fs_rules) = [] ∨ 0 <= example_jail.(fs_rules_landlock_abi) →
              abi = example_jail.(fs_rules_landlock_abi)) ∧
           entered (B:=example_config) (minijail_preenter (sent example_jail <| fs_rules_landlock_abi := abi |>)) t).
Proof.
  split; [by vm_compute|].
  apply (preload_main_jailed (B:=example_config) example_start (_ ← call (Sysconf 0); mret tt) [str "prog"]
           example_env (str "7") example_jail);
    [done|apply example_marshalable|by vm_compute|by vm_compute|done].
Defined.

Lemma preload_env_roundtrip_witness :
  program_env (default [] (minijail_setenv (setup_preload (B:=example_config) minijail_new
    (Some [str "LD_PRELOAD=/lib/a.so"; str "HOME=/"])).2 (Some kFdEnvVar) (Some (str "7")) true).2)
    = [str "LD_PRELOAD=/lib/a.so"; str "HOME=/"].
Proof.
  apply (preload_env_roundtrip (B:=example_config) minijail_new
           [str "LD_PRELOAD=/lib/a.so"; str "HOME=/"] (str "7")).
  - intros e [->|[->|H%elem_of_nil]%elem_of_cons]%elem_of_cons; [reflexivity|reflexivity|done].
  - discriminate.
  - apply (bool_decide_unpack _). by vm_compute.
Defined.
