(* ===== verification/ParentProps.v ===== *)
(** * The parent's part of a run

    The child is released only when the parent has done its part, and killed when
    the parent fails; over every interleaving of the two processes the program is
    executed after that. *)

From S2P Require Import Prelude CLib Util UtilProps Bpf OS Trace System Jail Marshal Enter Emits MountProps EnterProps.
From S2P Require Import Fds Run Preload RunProps.
Local Open Scope Z_scope.

(** ** Files that were written *)

(** stdio: opened, printed to and closed without an error. *)
Definition wrote_file (t : trace) (path text : cstr) : Prop :=
  ∃ a1 a2 a3, [(FopenWrite path, a1); (Fprintf path text, a2); (Fclose path, a3)] `sublist_of` t ∧
    0 <= rv a1 ∧ 0 <= rv a2 ∧ rv a3 = 0.

Definition proc_path (pid : Z) (basename : cstr) : cstr :=
  str "/proc/" ++ fmt_d pid ++ str "/" ++ basename.

Definition open_proc (pid : Z) (basename : cstr) : oscall :=
  Open (proc_path pid basename) (Z.lor O_WRONLY O_CLOEXEC) 0.

(** Opened and written in full. *)
Definition wrote_proc (t : trace) (pid : Z) (content basename : cstr) : Prop :=
  ∃ a1 a2, [(open_proc pid basename, a1); (Write (rv a1) content, a2)] `sublist_of` t ∧
    0 <= rv a1 ∧ Z.of_nat (length content) <= rv a2.

(** The kernel said that the file is not there. *)
Definition no_proc (t : trace) (pid : Z) (basename : cstr) : Prop :=
  ∃ c ans, (c, ans) ∈ t ∧ rv ans < 0 ∧ eno ans = ENOENT ∧
    (c = open_proc pid basename ∨ ∃ fd data, c = Write fd data).

(** A failing call sets errno. *)
Definition honest_file (e : event) : Prop :=
  match e.1 with
  | FopenWrite _ | Open _ _ _ | Write _ _ => rv e.2 < 0 → 0 < eno e.2
  | Fclose _ => rv e.2 ≠ 0 → 0 < eno e.2
  | _ => True
  end.

Lemma write_pid_to_path_traces pid path :
  traces (write_pid_to_path pid path)
    (λ r t, Forall honest_file t → r = 0 → wrote_file t path (fmt_d pid ++ [NL])).
Proof.
  intros a1. cbn. destruct (rv a1 <? 0) eqn:E1.
  { apply Z.ltb_lt in E1. cbn. intros [H _]%list.Forall_cons. specialize (H E1). cbn in H. lia. }
  apply Z.ltb_ge in E1. intros a2. cbn. destruct (rv a2 <? 0) eqn:E2; [cbn; intros; lia|].
  apply Z.ltb_ge in E2. intros a3. cbn. rewrite !list.Forall_cons. intros (_ & _ & H & _).
  destruct (rv a3 =? 0) eqn:E3; [|apply Z.eqb_neq in E3; specialize (H E3); cbn in H; lia].
  apply Z.eqb_eq in E3. intros _. by exists a1, a2, a3.
Qed.

Lemma write_proc_file_traces pid content basename :
  traces (write_proc_file pid content basename)
    (λ r t, Forall honest_file t → (r = 0 → wrote_proc t pid content basename) ∧
            (r = - ENOENT → no_proc t pid basename)).
Proof.
  unfold write_proc_file. cbv zeta. destruct (_ <=? _)%nat; [done|]. intros a1. cbn.
  destruct (rv a1 <? 0) eqn:E1.
  { apply Z.ltb_lt in E1. cbn. intros [H _]%list.Forall_cons. specialize (H E1). cbn in H. split; [lia|].
    intros Hr. exists (open_proc pid basename), a1. split_and!; [left|done|lia|by left]. }
  intros a2. unfold cleanup_fd. rewrite E1. intros a3. cbn. apply Z.ltb_ge in E1.
  destruct (rv a2 <? 0) eqn:E2.
  { apply Z.ltb_lt in E2. cbn. rewrite !list.Forall_cons. intros (_ & H & _). specialize (H E2). cbn in H.
    split; [lia|]. intros Hr. eexists _, a2. split_and!; [right; left|done|lia|right; eauto]. }
  destruct (rv a2 <? Z.of_nat (length content)) eqn:E3; cbn; [done|]. apply Z.ltb_ge in E3. intros _. split; [|done]. intros _.
  exists a1, a2. split_and!; [|done|done]. by repeat constructor.
Qed.

(** ** What the parent has done *)

Record parent_done (j : minijail) (t : trace) : Prop := {
  pd_signals : flag j F_forward_signals = true →
    ∀ sig, 1 <= sig < NSIG → ∃ ans, (Sigaction sig, ans) ∈ t;
  pd_pid_file : flag j F_pid_file = true →
    ∃ path, j.(pid_file_path) = Some path ∧ wrote_file t path (fmt_d j.(initpid) ++ [NL]);
  pd_cgroups : flag j F_cgroups = true →
    Forall (λ cg, wrote_file t cg (fmt_d j.(initpid) ++ [NL])) j.(cgroups);
  pd_rlimits : Forall (λ r, did t (Prlimit j.(initpid) r.(rl_type) r.(rl_cur) r.(rl_max))) j.(rlimits);
  pd_uidmap : flag j F_userns = true → ∀ m, j.(uidmap) = Some m →
    wrote_proc t j.(initpid) m (str "uid_map");
  pd_setgroups : flag j F_userns = true → is_Some j.(gidmap) → flag j F_disable_setgroups = true →
    wrote_proc t j.(initpid) (str "deny") (str "setgroups") ∨ no_proc t j.(initpid) (str "setgroups");
  pd_gidmap : flag j F_userns = true → ∀ m, j.(gidmap) = Some m →
    wrote_proc t j.(initpid) m (str "gid_map");
}.

(** All of these stay true when the trace goes on. *)
Definition lasting (P : trace → Prop) : Prop := ∀ t t', t `sublist_of` t' → P t → P t'.

Lemma wrote_file_lasting path text : lasting (λ t, wrote_file t path text).
Proof. intros t t' Hs (a1 & a2 & a3 & H & ?). exists a1, a2, a3. split; [by etrans|done]. Qed.

Lemma wrote_proc_lasting pid content base : lasting (λ t, wrote_proc t pid content base).
Proof. intros t t' Hs (a1 & a2 & H & ?). exists a1, a2. split; [by etrans|done]. Qed.

Lemma elem_lasting (e : event) : lasting (λ t, e ∈ t).
Proof. intros t t' Hs He. by eapply elem_of_sublist. Qed.

Lemma no_proc_lasting pid base : lasting (λ t, no_proc t pid base).
Proof. intros t t' Hs (c & a & H & ?). exists c, a. split; [by eapply elem_lasting|done]. Qed.

Lemma did_lasting c : lasting (λ t, did t c).
Proof.
  intros t t' Hs. unfold did. rewrite !list.Exists_exists. intros (e & He & H). exists e.
  split; [by eapply elem_lasting|done].
Qed.

Lemma parent_done_lasting j : lasting (parent_done j).
Proof.
  intros t t' Hs [H1 H2 H3 H4 H5 H6 H7]. split.
  - intros Hf sig Hr. destruct (H1 Hf sig Hr) as [ans ?]. exists ans. by eapply elem_lasting.
  - intros Hf. destruct (H2 Hf) as (path & ? & ?). exists path. split; [done|by eapply wrote_file_lasting].
  - intros Hf. eapply list.Forall_impl; [by apply H3|]. intros. by eapply wrote_file_lasting.
  - eapply list.Forall_impl; [exact H4|]. intros. by eapply did_lasting.
  - intros Hf m Hm. eapply wrote_proc_lasting; eauto.
  - intros Hf Hg Hd. destruct (H6 Hf Hg Hd); [left; by eapply wrote_proc_lasting|right; by eapply no_proc_lasting].
  - intros Hf m Hm. eapply wrote_proc_lasting; eauto.
Qed.

(** ** The set-up does all of it *)

(** A property of the trace that [m] brings about. *)
Definition achieves {A} (m : io A) (P : trace → Prop) : Prop :=
  traces m (λ _ t, Forall honest_file t → P t).

Lemma achieves_bind {A C} (m : io A) (f : A → io C) (P Q : trace → Prop) :
  lasting P → lasting Q → achieves m P → (∀ a, achieves (f a) Q) →
  achieves (m ≫= f) (λ t, P t ∧ Q t).
Proof.
  intros HP HQ Hm Hf. refine (traces_seq m f _ _ _ Hm Hf _). intros a b t t' H1 H2.
  rewrite list.Forall_app. intros [Ht Ht']. split.
  - eapply HP; [|by apply H1]. by apply sublist_inserts_r.
  - eapply HQ; [|by apply H2]. by apply sublist_inserts_l.
Qed.

Lemma achieves_mono {A} (m : io A) (P Q : trace → Prop) :
  (∀ t, P t → Q t) → achieves m P → achieves m Q.
Proof. intros H. apply traces_mono. auto. Qed.

Lemma achieves_when {A} (b : bool) (m : io A) (a : A) (P : trace → Prop) :
  achieves m P → achieves (if b then m else mret a) (λ t, b = true → P t).
Proof. destruct b; [|done]. intros H. eapply achieves_mono; [|exact H]. auto. Qed.

Lemma achieves_zero_or_kill j m (P : trace → Prop) :
  traces m (λ r t, Forall honest_file t → r = 0 → P t) → lasting P → achieves (zero_or_kill j m) P.
Proof.
  intros Hm HP. apply traces_bind. eapply traces_mono; [|exact Hm]. intros r t Ht.
  destruct (r =? 0) eqn:E; cbn [negb]; [|done]. apply Z.eqb_eq in E. cbn.
  rewrite app_nil_r. intros Hh. by apply Ht.
Qed.

Lemma lasting_when b P : lasting P → lasting (λ t, b = true → P t).
Proof. intros HP t t' Hs H Hb. eapply HP; eauto. Qed.

Lemma lasting_forall {A} (l : list A) (P : A → trace → Prop) :
  (∀ a, lasting (P a)) → lasting (λ t, Forall (λ a, P a t) l).
Proof. intros HP t t' Hs H. eapply list.Forall_impl; [exact H|]. intros a. by apply HP. Qed.

Lemma lasting_and P Q : lasting P → lasting Q → lasting (λ t, P t ∧ Q t).
Proof. intros HP HQ t t' Hs [? ?]. split; eauto. Qed.

Lemma cgroups_achieve j cgs :
  achieves (add_to_cgroups_or_die j cgs) (λ t, Forall (λ cg, wrote_file t cg (fmt_d j.(initpid) ++ [NL])) cgs).
Proof.
  induction cgs as [|cg cgs IH]; cbn [add_to_cgroups_or_die]; [by constructor|].
  apply (achieves_mono _ (λ t, wrote_file t cg (fmt_d j.(initpid) ++ [NL]) ∧
                               Forall (λ cg, wrote_file t cg (fmt_d j.(initpid) ++ [NL])) cgs)).
  { intros t [? ?]. by constructor. }
  apply achieves_bind; [apply wrote_file_lasting| | |done].
  - apply (lasting_forall cgs (λ cg t, wrote_file t cg _)). intros a. apply wrote_file_lasting.
  - apply achieves_zero_or_kill; [apply write_pid_to_path_traces|apply wrote_file_lasting].
Qed.

Lemma rlimits_achieve j rs :
  achieves (set_rlimits_or_die j rs)
    (λ t, Forall (λ r, did t (Prlimit j.(initpid) r.(rl_type) r.(rl_cur) r.(rl_max))) rs).
Proof.
  induction rs as [|r rs IH]; cbn [set_rlimits_or_die]; [by constructor|]. intros ans. cbn.
  destruct (rv ans =? 0) eqn:E; cbn [negb]; [|done]. apply Z.eqb_eq in E.
  eapply traces_mono; [|exact IH]. intros u t Ht [_ Hh]%list.Forall_cons. constructor.
  - apply did_cons. by left.
  - eapply list.Forall_impl; [by apply Ht|]. intros r' H. apply did_cons. by right.
Qed.

Lemma sigactions_achieve n sig :
  achieves (sigactions n sig) (λ t, ∀ s, sig <= s < sig + Z.of_nat n → ∃ ans, (Sigaction s, ans) ∈ t).
Proof.
  revert sig. induction n as [|n IH]; intros sig; [intros _ s; cbn; lia|]. intros ans.
  eapply traces_mono; [|apply (IH (sig + 1))]. intros u t Ht [_ Hh]%list.Forall_cons s Hs.
  destruct (decide (s = sig)) as [->|]; [exists ans; left|].
  destruct (Ht Hh s) as [a Ha]; [lia|]. exists a. by right.
Qed.

Definition maps_done (j : minijail) (t : trace) : Prop :=
  (∀ m, j.(uidmap) = Some m → wrote_proc t j.(initpid) m (str "uid_map")) ∧
  (bool_decide (is_Some j.(gidmap)) && flag j F_disable_setgroups = true →
     wrote_proc t j.(initpid) (str "deny") (str "setgroups") ∨ no_proc t j.(initpid) (str "setgroups")) ∧
  (∀ m, j.(gidmap) = Some m → wrote_proc t j.(initpid) m (str "gid_map")).

Lemma map_achieve j (o : option cstr) base :
  achieves (match o with Some m => zero_or_kill j (write_proc_file j.(initpid) m base) | None => mret tt end)
    (λ t, ∀ m, o = Some m → wrote_proc t j.(initpid) m base).
Proof.
  destruct o as [m|]; [|done].
  apply (achieves_mono _ (λ t, wrote_proc t j.(initpid) m base)); [by intros t H ? [= <-]|].
  apply achieves_zero_or_kill; [|apply wrote_proc_lasting].
  eapply traces_mono; [|apply write_proc_file_traces]. intros r t H Hh. by apply H.
Qed.

Lemma map_lasting pid (o : option cstr) base : lasting (λ t, ∀ m, o = Some m → wrote_proc t pid m base).
Proof. intros t t' Hs H m Hm. eapply wrote_proc_lasting; eauto. Qed.

Lemma setgroups_lasting pid :
  lasting (λ t, wrote_proc t pid (str "deny") (str "setgroups") ∨ no_proc t pid (str "setgroups")).
Proof.
  intros t t' Hs [H|H]; [left; by eapply wrote_proc_lasting|right; by eapply no_proc_lasting].
Qed.

Lemma maps_achieve j : achieves (write_ugid_maps_or_die j) (maps_done j).
Proof.
  apply achieves_bind; [apply map_lasting| |apply map_achieve|]; [|intros _].
  { apply lasting_and; [apply lasting_when, setgroups_lasting|apply map_lasting]. }
  apply achieves_bind; [apply lasting_when, setgroups_lasting|apply map_lasting| |intros _; apply map_achieve].
  apply achieves_when. apply traces_bind. eapply traces_mono; [|apply write_proc_file_traces].
  intros r t Ht. destruct (r =? 0) eqn:E; cbn [negb].
  { apply Z.eqb_eq in E. cbn. rewrite app_nil_r. intros Hh. left. by apply Ht. }
  destruct (r =? - ENOENT) eqn:E'; [|done]. apply Z.eqb_eq in E'. cbn. rewrite app_nil_r. intros Hh.
  right. by apply Ht.
Qed.

Lemma signals_achieve :
  achieves install_signal_handlers (λ t, ∀ s, 1 <= s < NSIG → ∃ ans, (Sigaction s, ans) ∈ t).
Proof.
  refine (traces_seq _ _ _ _ _ (sigactions_achieve _ 1) (λ _, traces_true _) _).
  intros _ _ t t' Ht _ [Hh _]%list.Forall_app s Hs. destruct (Ht Hh s) as [a Ha]; [unfold NSIG in *; lia|].
  exists a. apply elem_of_app. by left.
Qed.

Lemma signals_lasting : lasting (λ t, ∀ s, 1 <= s < NSIG → ∃ ans, (Sigaction s, ans) ∈ t).
Proof. intros t t' Hs H s Hr. destruct (H s Hr) as [a ?]. exists a. by eapply elem_lasting. Qed.

Definition pid_file_done (j : minijail) (t : trace) : Prop :=
  ∃ path, j.(pid_file_path) = Some path ∧ wrote_file t path (fmt_d j.(initpid) ++ [NL]).

Lemma pid_file_achieve j : achieves (write_pid_file_or_die j) (pid_file_done j).
Proof.
  unfold write_pid_file_or_die, pid_file_done. destruct (pid_file_path j) as [path|]; [|done].
  apply (achieves_mono _ (λ t, wrote_file t path (fmt_d j.(initpid) ++ [NL]))); [eauto|].
  apply achieves_zero_or_kill; [apply write_pid_to_path_traces|apply wrote_file_lasting].
Qed.

Lemma pid_file_lasting j : lasting (pid_file_done j).
Proof. intros t t' Hs (path & ? & ?). exists path. split; [done|by eapply wrote_file_lasting]. Qed.

Lemma maps_lasting j : lasting (maps_done j).
Proof.
  apply lasting_and; [apply map_lasting|]. apply lasting_and; [apply lasting_when, setgroups_lasting|apply map_lasting].
Qed.

Lemma cgroups_lasting j :
  lasting (λ t, Forall (λ cg, wrote_file t cg (fmt_d j.(initpid) ++ [NL])) j.(cgroups)).
Proof. apply (lasting_forall _ (λ cg t, wrote_file t cg _)). intros a. apply wrote_file_lasting. Qed.

Lemma rlimits_lasting j :
  lasting (λ t, Forall (λ r, did t (Prlimit j.(initpid) r.(rl_type) r.(rl_cur) r.(rl_max))) j.(rlimits)).
Proof. apply (lasting_forall _ (λ r t, did t _)). intros a. apply did_lasting. Qed.

Lemma parent_setup_achieves j : achieves (run_parent_setup j) (parent_done j).
Proof.
  pose (S t := ∀ s, 1 <= s < NSIG → ∃ ans : answer, (Sigaction s, ans) ∈ (t : trace)).
  pose (C t := Forall (λ cg, wrote_file t cg (fmt_d j.(initpid) ++ [NL])) j.(cgroups)).
  pose (L t := Forall (λ r, did t (Prlimit j.(initpid) r.(rl_type) r.(rl_cur) r.(rl_max))) j.(rlimits)).
  assert (lasting S) as HS by apply signals_lasting. assert (lasting C) as HC by apply cgroups_lasting.
  assert (lasting L) as HL by apply rlimits_lasting. pose proof (pid_file_lasting j) as HF.
  pose proof (maps_lasting j) as HM.
  apply (achieves_mono _ (λ t, (flag j F_forward_signals = true → S t) ∧
    (flag j F_pid_file = true → pid_file_done j t) ∧ (flag j F_cgroups = true → C t) ∧
    (nonempty j.(rlimits) = true → L t) ∧ (flag j F_userns = true → maps_done j t))).
  { intros t (H1 & H2 & H3 & H4 & H5). split; try done.
    - subst L. destruct (rlimits j); [constructor|by apply H4].
    - intros Hf. by apply H5.
    - intros Hf Hg Hd. apply H5; [done|]. rewrite Hd, andb_true_r. by apply bool_decide_true.
    - intros Hf. by apply H5. }
  unfold run_parent_setup.
  apply achieves_bind; [by apply lasting_when| |apply achieves_when, signals_achieve|intros _].
  { do 3 (apply lasting_and; [by apply lasting_when|]). by apply lasting_when. }
  apply achieves_bind; [by apply lasting_when| |apply achieves_when, pid_file_achieve|intros _].
  { do 2 (apply lasting_and; [by apply lasting_when|]). by apply lasting_when. }
  apply achieves_bind; [by apply lasting_when| |apply achieves_when, cgroups_achieve|intros _].
  { apply lasting_and; by apply lasting_when. }
  apply achieves_bind; [by apply lasting_when|by apply lasting_when|apply achieves_when, rlimits_achieve|intros _].
  apply achieves_when, maps_achieve.
Qed.

(** ** A failure kills the child *)

(** The process ends only right after it has sent SIGKILL to [pid]. *)
Definition kills {A} (pid : Z) (m : io A) : Prop :=
  deaths m (λ t, ∃ t' ans, t = t' ++ [(Kill pid SIGKILL, ans)]).

Lemma kills_bind {A C} pid (m : io A) (f : A → io C) :
  kills pid m → (∀ a, kills pid (f a)) → kills pid (m ≫= f).
Proof.
  intros Hm Hf. apply deaths_bind; [done|]. eapply traces_mono; [|apply traces_true]. intros a t _.
  eapply deaths_mono; [|apply Hf]. intros t0 (t1 & ans & ->). exists (t ++ t1), ans. by rewrite app_assoc.
Qed.

Lemma kills_call pid c : kills pid (call c).
Proof. done. Qed.

Lemma kills_die {A} j : kills j.(initpid) (kill_child_and_die (A:=A) j).
Proof. intros ans. by exists [], ans. Qed.

(** Go through a program that dies nowhere else. *)
Ltac kill_tac :=
  cbv beta zeta;
  lazymatch goal with
  | |- kills _ (mbind _ _) => apply kills_bind; [|intros ?]; kill_tac
  | |- kills _ (match ?x with _ => _ end) => destruct x; kill_tac
  | |- kills _ (call _) => apply kills_call
  | |- kills _ (mret _) => exact I
  | |- kills _ IUndef => exact I
  | |- kills _ (kill_child_and_die _) => apply kills_die
  | |- kills _ ?m => first [solve [auto 2] | let h := head_of m in unfold h; kill_tac]
  end.


(** ** Release *)

(** No file was opened on the number [w]. *)
Definition fresh (w : Z) (t : trace) : Prop :=
  Forall (λ e : event, match e.1 with Open _ _ _ => rv e.2 ≠ w | _ => True end) t.

(** [m] closes [w] only if it got that number from open(2). *)
Definition closes_own {A} (w : Z) (m : io A) : Prop :=
  ∀ t, before m t (λ c t, c = Close w → ¬ fresh w t).

Lemma closes_own_bind {A C} w (m : io A) (f : A → io C) :
  closes_own w m → (∀ a, closes_own w (f a)) → closes_own w (m ≫= f).
Proof.
  intros Hm Hf t. apply before_bind; [apply Hm|]. eapply traces_mono; [|apply traces_true].
  intros a t' _. apply Hf.
Qed.

Lemma closes_own_call w c : c ≠ Close w → closes_own w (call c).
Proof. intros Hc t. split; [|done]. by intros ->. Qed.

Lemma write_proc_file_closes w pid content base : closes_own w (write_proc_file pid content base).
Proof.
  intros t. unfold write_proc_file. cbv zeta. destruct (_ <=? _)%nat; [done|].
  split; [done|]. intros a1. cbn. destruct (rv a1 <? 0) eqn:E1; [done|]. cbn. split; [done|]. intros a2.
  unfold cleanup_fd. rewrite E1. cbn. split.
  - intros [= Hw] [Hf _]%list.Forall_app. apply list.Forall_app in Hf as [_ Hf].
    apply list.Forall_cons in Hf as [Hf _]. by apply Hf.
  - intros a3. by repeat case_match.
Qed.

Ltac closes_tac :=
  cbv beta zeta;
  lazymatch goal with
  | |- closes_own _ (mbind _ _) => apply closes_own_bind; [|intros ?]; closes_tac
  | |- closes_own _ (match ?x with _ => _ end) => destruct x; closes_tac
  | |- closes_own _ (call _) => apply closes_own_call; discriminate
  | |- closes_own _ (mret _) => intros ?; exact I
  | |- closes_own _ IUndef => intros ?; exact I
  | |- closes_own _ IDie => intros ?; exact I
  | |- closes_own _ (write_proc_file _ _ _) => apply write_proc_file_closes
  | |- closes_own _ ?m => first [solve [auto 2] | let h := head_of m in unfold h; closes_tac]
  end.

Lemma parent_setup_closes w j : closes_own w (run_parent_setup j).
Proof.
  assert (∀ l, closes_own w (add_to_cgroups_or_die j l)).
  { intros l. induction l; cbn [add_to_cgroups_or_die]; closes_tac. }
  assert (∀ l, closes_own w (set_rlimits_or_die j l)).
  { intros l. induction l; cbn [set_rlimits_or_die]; closes_tac. }
  assert (∀ n sig, closes_own w (sigactions n sig)).
  { intros n. induction n; intros sig; cbn [sigactions]; closes_tac. }
  closes_tac.
Qed.

Lemma before_true {A} (m : io A) t : before m t (λ _ _, True).
Proof. revert t. induction m as [a| | | |c k IH]; intros t; simpl; auto. Qed.

(** The parent closes the pipe's end [w] only when its part is done. *)
Lemma run_parent_releases fuel j config st pid w :
  before (run_parent fuel j config st pid) [] (λ c t, c = Close w →
    Forall honest_file t → fresh w t → parent_done (j <| initpid := pid |>) t).
Proof.
  unfold run_parent. cbv zeta. set (j1 := j <| initpid := pid |>). apply before_bind.
  { eapply before_mono; [|apply parent_setup_closes]. intros c t H Hc _ Hf. by destruct (H Hc). }
  eapply traces_mono; [|apply parent_setup_achieves]. intros u t Ht. cbn [app].
  match goal with |- before ?m _ _ => generalize m end. intros m.
  apply (before_shift m t (λ _ _, True)); [|apply before_true]. intros c t' _ _.
  rewrite list.Forall_app. intros [Hh _] _. eapply parent_done_lasting; [|by apply Ht].
  by apply sublist_inserts_r.
Qed.

(** ** Both processes

    A history of the two processes after the fork: the parent's events on the left,
    the child's on the right. *)
Notation history := (list (event + event)).

Definition parents_part (g : history) : trace := omap (λ e, match e with inl e => Some e | inr _ => None end) g.
Definition childs_part (g : history) : trace := omap (λ e, match e with inr e => Some e | inl _ => None end) g.

(** Reading the pipe gives the end of file only after the parent has closed its
    write end [w] (the child has closed its own copy before). *)
Definition pipe_law (w : Z) (g : history) : Prop :=
  ∀ g1 fd ans g2, g = g1 ++ inr (Read fd 1, ans) :: g2 → rv ans = 0 → ∃ a, inl (Close w, a) ∈ g1.

Lemma parents_part_app g g' : parents_part (g ++ g') = parents_part g ++ parents_part g'.
Proof. apply omap_app. Qed.
Lemma childs_part_app g g' : childs_part (g ++ g') = childs_part g ++ childs_part g'.
Proof. apply omap_app. Qed.

Lemma childs_part_elem g e : e ∈ childs_part g → inr e ∈ g.
Proof. intros (x & Hx & He)%list_elem_of_omap. destruct x; [done|]. by injection He as ->. Qed.


(** ** An example: the parent runs first *)

Definition sequential (tp tc : trace) : history := (inl <$> tp) ++ (inr <$> tc).

Lemma sequential_parts tp tc :
  parents_part (sequential tp tc) = tp ∧ childs_part (sequential tp tc) = tc.
Proof.
  unfold sequential. rewrite parents_part_app, childs_part_app.
  assert (parents_part (inl <$> tp) = tp) as -> by (induction tp; csimpl; congruence).
  assert (parents_part (inr <$> tc) = []) as -> by (induction tc; csimpl; congruence).
  assert (childs_part (inl <$> tp) = []) as -> by (induction tp; csimpl; congruence).
  assert (childs_part (inr <$> tc) = tc) as -> by (induction tc; csimpl; congruence).
  by rewrite app_nil_r.
Qed.

Lemma sequential_law w a tp tc : (Close w, a) ∈ tp → pipe_law w (sequential tp tc).
Proof.
  intros Hin g1 fd ans g2 Hg _. exists a.
  assert (∀ (l : trace) g1, (inl <$> l) ++ (inr <$> tc) = g1 ++ inr (Read fd 1, ans) :: g2 →
            ∀ e, e ∈ l → inl e ∈ g1) as H.
  { induction l as [|x l IH]; intros [|y h1] Heq e He; csimpl in Heq; simplify_eq.
    - by apply elem_of_nil in He.
    - by apply elem_of_nil in He.
    - apply elem_of_cons in He as [->|He]; [left|right]. by eapply IH. }
  by eapply H.
Qed.

Definition ok_host (c : oscall) (h : unit) : answer * unit := (ok, h).

Definition waiting_jail : minijail :=
  minijail_new <| flags := {[F_pid_file]} |> <| pid_file_path := Some (str "/run/x.pid") |>
    <| rlimits := [{| rl_type := 7; rl_cur := 10; rl_max := 20 |}] |>.
Definition waiting_config : minijail_run_config :=
  run_config (Some (str "/bin/true")) (-1) [str "true"] None false true false false false false.
Definition waiting_state : minijail_run_state :=
  initial_run_state <| child_sync_pipe_fds := (8, 9) |>.

Definition parent_trace : trace :=
  (run_trace ok_host (run_parent 0 waiting_jail waiting_config waiting_state 42) tt).1.2.
Definition child_trace : trace :=
  (run_trace ok_host (run_child (B:=example_config) [] 0 waiting_jail waiting_config waiting_state) tt).1.2.

(** The child gets as far as executing the program. *)
Example child_executes :
  list.last child_trace = Some (Execve (str "/bin/true") [str "true"] [], ok).
Proof. vm_compute. reflexivity. Qed.

