(* ===== verification/WaitProps.v ===== *)
(** * The status that is reported

    minijail_wait gives the program's exit code or what a shell would report of the
    signal that ended it; the init process of a pid namespace ends with the code of
    the program it started, whatever orphans it reaps. *)

From S2P Require Import Prelude CLib Util UtilProps OS Trace Jail Fds Run.
Local Open Scope Z_scope.

(** ** Statuses of wait(2) *)

Definition exited (code : Z) : Z := Z.shiftl code 8.
Definition signaled (sig : Z) (core : bool) : Z := Z.lor sig (if core then 0x80 else 0).

Lemma forall_below (n : nat) (P : Z → bool) :
  forallb P (seqZ 0 (Z.of_nat n)) = true → ∀ z, 0 <= z < Z.of_nat n → P z = true.
Proof.
  intros H z Hz. rewrite forallb_forall in H. apply H. apply list_elem_of_In, elem_of_seqZ. lia.
Qed.

(** A status fits in 16 bits, so these are decided by evaluation. *)
Lemma exited_spec code :
  0 <= code < 256 → WIFEXITED (exited code) = true ∧ WEXITSTATUS (exited code) = code.
Proof.
  intros H. pose proof (forall_below 256 (λ c, WIFEXITED (exited c) && (WEXITSTATUS (exited c) =? c))) as F.
  specialize (F ltac:(by vm_compute) code H). apply andb_true_iff in F as [? ?%Z.eqb_eq]. done.
Qed.

Lemma signaled_spec sig core :
  1 <= sig < 127 →
  WIFEXITED (signaled sig core) = false ∧ WIFSIGNALED (signaled sig core) = true ∧
  WTERMSIG (signaled sig core) = sig.
Proof.
  intros H. pose proof (forall_below 127 (λ s, (s =? 0) || negb (WIFEXITED (signaled s core)) &&
    WIFSIGNALED (signaled s core) && (WTERMSIG (signaled s core) =? s))) as F.
  assert (0 <= sig < Z.of_nat 127) as Hr by lia. destruct core.
  all: specialize (F ltac:(by vm_compute) sig Hr); apply orb_true_iff in F as [?%Z.eqb_eq|F]; [lia|].
  all: rewrite !andb_true_iff, negb_true_iff, Z.eqb_eq in F; naive_solver.
Qed.

(** ** minijail_wait *)

Definition wait_answer (e : event) : Prop :=
  match e with (Waitpid _, a) => rv a < 0 → 0 < eno a | _ => True end.
Definition wait_interrupted (e : event) : bool :=
  match e with (Waitpid _, a) => (rv a <? 0) && (eno a =? EINTR) | _ => false end.

(** A run in which at most [n] calls of waitpid(2) are interrupted. *)
Definition waits_within (n : nat) (t : trace) : Prop :=
  Forall wait_answer t ∧ (length (filter (λ e, wait_interrupted e = true) t) <= n)%nat.

(** What a last answer of waitpid(2) is reported as. *)
Record reported (ans : answer) (r : Z) : Prop := {
  reported_exit : ∀ code, 0 <= rv ans → 0 <= code < 256 → status_of ans = exited code → r = code;
  reported_signal : ∀ sig core, 0 <= rv ans → 1 <= sig < 127 → status_of ans = signaled sig core →
    r = if sig =? SIGSYS then MINIJAIL_ERR_JAIL else MINIJAIL_ERR_SIG_BASE + sig;
  reported_error : rv ans < 0 → r = - eno ans ∧ eno ans ≠ EINTR;
}.

Lemma reported_status_spec ans : 0 <= rv ans → reported ans (reported_status (status_of ans)).
Proof.
  intros Hr. split; [| |lia].
  - intros code _ Hc ->. unfold reported_status. by destruct (exited_spec code Hc) as [-> ->].
  - intros sig core _ Hs ->. unfold reported_status.
    by destruct (signaled_spec sig core Hs) as (-> & -> & ->).
Qed.

Lemma waitpid_loop_total fuel pid n t (P : Z + Z → trace → Prop) :
  (length (filter (λ e, wait_interrupted e = true) t) <= n)%nat →
  (n < fuel + length (filter (λ e, wait_interrupted e = true) t))%nat →
  (∀ t' ans, 0 <= rv ans → P (inr (status_of ans)) (t' ++ [(Waitpid pid, ans)])) →
  (∀ t' ans, rv ans < 0 → eno ans ≠ EINTR → P (inl (- eno ans)) (t' ++ [(Waitpid pid, ans)])) →
  total (waits_within n) (waitpid_loop fuel pid) t P.
Proof.
  intros Hk Hf HP HE. revert t Hk Hf. induction fuel as [|fuel IH]; intros t Hk Hf; [lia|].
  cbn [waitpid_loop]. intros ans [_ Hn]. cbn [mbind io_bind call].
  destruct (0 <=? rv ans) eqn:E; [apply HP; by apply Z.leb_le|]. apply Z.leb_gt in E.
  destruct (eno ans =? EINTR) eqn:E'; cbn [negb]; [|apply HE; [done|by apply Z.eqb_neq]].
  assert (wait_interrupted (Waitpid pid, ans) = true) as Hi by (cbn; by rewrite E', (proj2 (Z.ltb_lt _ _) E)).
  rewrite list.filter_app, length_app, filter_cons_True in Hn by done. cbn [length filter] in Hn.
  apply IH; rewrite list.filter_app, length_app, filter_cons_True by done; cbn [length filter]; cbn in Hn |- *; lia.
Qed.

(** C31: waiting for the jailed process.  With fuel for the interruptions the kernel
    may make, minijail_wait returns; the code is the exit code of the process, or
    253 when SIGSYS ended it (a system call that the policy does not allow), or 128
    plus the number of the signal that did, or the error of waitpid(2), which is
    never an interruption. *)
Theorem minijail_wait_spec fuel j n :
  0 < j.(initpid) → (n < fuel)%nat →
  total (waits_within n) (minijail_wait fuel j) [] (λ r t,
    ∃ t' ans, t = t' ++ [(Waitpid j.(initpid), ans)] ∧ reported ans r).
Proof.
  intros Hp Hf. unfold minijail_wait, minijail_wait_internal.
  rewrite (proj2 (Z.leb_gt _ _) Hp). apply total_bind, waitpid_loop_total; [apply Nat.le_0_l|cbn; lia| |].
  - intros t' ans Hr. eexists t', ans. split; [done|by apply reported_status_spec].
  - intros t' ans Hr He. eexists t', ans. split; [done|]. split; [lia|lia|done].
Qed.

Definition waited_jail : minijail := minijail_new <| initpid := 42 |>.

Lemma minijail_wait_spec_witness :
  0 < waited_jail.(initpid) ∧
  total (waits_within 3) (minijail_wait 4 waited_jail) [] (λ r t,
    ∃ t' ans, t = t' ++ [(Waitpid waited_jail.(initpid), ans)] ∧ reported ans r).
Proof. split; [by vm_compute|]. apply (minijail_wait_spec 4 waited_jail 3); [by vm_compute|lia]. Defined.

(** ** The init process *)

(** The processes that end, in that order, with their statuses; then there is none. *)
Definition reaper (c : oscall) (h : list (Z * Z)) : answer * list (Z * Z) :=
  match c, h with
  | Wait, (pid, status) :: h => (Answer pid 0 None [status], h)
  | Wait, [] => (fails ECHILD, [])
  | _, _ => (ok, h)
  end.

(** The status of the last of them that is [root]. *)
Definition status_among (root status0 : Z) (h : list (Z * Z)) : Z :=
  foldl (λ s p, if p.1 =? root then p.2 else s) status0 h.

Definition init_code (status : Z) : Z := if WIFEXITED status then WEXITSTATUS status else MINIJAIL_ERR_INIT.

Lemma init_loop_runs {A} fuel root s h :
  (length h < fuel)%nat → Forall (λ p, 0 < p.1) h →
  let '(r, t, h') := run_trace reaper (init_loop (A:=A) fuel root s) h in
  r = Died ∧ h' = [] ∧ list.last t = Some (Exit (init_code (status_among root s h)), ok) ∧
  length t = S (S (length h)).
Proof.
  revert s h. induction fuel as [|fuel IH]; intros s [|[pid st] h] Hf Hp; cbn [length] in Hf; try lia.
  - cbn. unfold init_code. by destruct (WIFEXITED s).
  - apply list.Forall_cons in Hp as [Hp1 Hp2]. cbn in Hp1. cbn. rewrite (proj2 (Z.ltb_lt _ _) Hp1).
    specialize (IH (if pid =? root then st else s) h ltac:(lia) Hp2).
    destruct (run_trace _ _ h) as [[r t] h']. destruct IH as (-> & -> & Hl & Hlen).
    split_and!; [done|done| |cbn; by rewrite Hlen].
    destruct t; [done|]. exact Hl.
Qed.

(** C32: the init process of a pid namespace reaps every process of the namespace,
    however many and in whatever order they end, and then ends itself: with the exit
    code of the program it started, or with 254 when a signal ended the program.  No
    signal interrupts wait(2) here and nobody sends SIGTERM, whose handler ends init at
    once ([init_term]). *)
Theorem init_reports {A} fuel root h code sig core :
  (length h < fuel)%nat → Forall (λ p, 0 < p.1) h → 0 <= code < 256 → 1 <= sig < 127 →
  let '(r, t, h') := run_trace reaper (init (A:=A) fuel root) h in
  r = Died ∧ h' = [] ∧
  (status_among root 0 h = exited code → list.last t = Some (Exit code, ok)) ∧
  (status_among root 0 h = signaled sig core → list.last t = Some (Exit MINIJAIL_ERR_INIT, ok)).
Proof.
  intros Hf Hp Hc Hs. pose proof (init_loop_runs (A:=A) fuel root 0 h Hf Hp) as H.
  unfold init. cbn. destruct (run_trace _ _ h) as [[r t] h']. destruct H as (-> & -> & Hl & Hlen).
  split_and!; [done|done| |]; intros Hst; rewrite Hst in Hl; unfold init_code in Hl.
  - destruct (exited_spec code Hc) as [E1 E2]. rewrite E1, E2 in Hl. by destruct t.
  - destruct (signaled_spec sig core Hs) as (E1 & _). rewrite E1 in Hl. by destruct t.
Qed.

(** Ended by SIGTERM instead, init reports 0 for every exit code: the low byte of a
    status holds the signal. *)
Lemma init_term_status {A} code h :
  0 <= code < 256 →
  (run_trace reaper (init_term (A:=A) (exited code)) h).1 = (Died, [(Exit (exited code), ok)]) ∧
  Z.land (exited code) 0xff = 0.
Proof.
  intros H. split; [done|].
  pose proof (forall_below 256 (λ c, Z.land (exited c) 0xff =? 0) ltac:(by vm_compute) code H) as F.
  by apply Z.eqb_eq in F.
Qed.

Lemma init_reports_witness :
  let h := [(7, exited 3); (5, exited 9); (8, signaled 9 false)] in
  let '(r, t, h') := run_trace reaper (init (A:=unit) 4 5) h in
  r = Died ∧ h' = [] ∧
  (status_among 5 0 h = exited 9 → list.last t = Some (Exit 9, ok)) ∧
  (status_among 5 0 h = signaled 11 true → list.last t = Some (Exit MINIJAIL_ERR_INIT, ok)).
Proof.
  apply (init_reports 4 5 [(7, exited 3); (5, exited 9); (8, signaled 9 false)] 9 11 true);
    [cbn; lia| |lia|lia].
  repeat (apply List.Forall_cons; [cbn; lia|]). apply List.Forall_nil.
Defined.
