(* ===== verification/ConfigParser.v ===== *)
(** * config_parser.c

    Configuration files: a directive in the first line, then one entry per logical
    line, a key with an optional value.  The list grows by doubling; a store behind
    its capacity is outside the array. *)

From S2P Require Import Prelude CLib Util UtilProps.
Local Open Scope Z_scope.

Record config_entry := { key : cstr; value : option cstr }.

(** struct config_entry_list: the entries, and the capacity of the array. *)
Record config_entry_list := { entries : list config_entry; num_allocated : nat }.

Definition LIST_DEFAULT_SIZE : nat := 100.

Definition new_config_entry_list : config_entry_list :=
  {| entries := []; num_allocated := LIST_DEFAULT_SIZE |}.

(** [None] is the return of false. *)
Definition parse_config_line (config_line : cstr) : option config_entry :=
  let '(k, v) := tokenize (Some config_line) (str "=") in
  match strip <$> k, strip <$> v with
  | None, _ | Some [], _ | _, Some [] => None
  | Some k, v => Some {| key := k; value := v |}
  end.

Definition directive : cstr := str "% minijail-config-file v0" ++ [NL].

Definition match_special_directive (line : cstr) : bool := streq line directive.

(** Make room for one more entry. *)
Definition grow (l : config_entry_list) : config_entry_list :=
  if (num_allocated l <=? length (entries l))%nat
  then {| entries := entries l; num_allocated := num_allocated l * 2 |} else l.

Definition append_entry (l : config_entry_list) (e : config_entry) : outcome config_entry_list :=
  if (num_allocated l <=? length (entries l))%nat then Undef
  else Ret {| entries := entries l ++ [e]; num_allocated := num_allocated l |}.

(** Whether a line is skipped. *)
Definition blank_or_comment (line : cstr) : bool :=
  match line with [] => true | c :: _ => bool_decide (c = "#"%char) end.

(** The loop: [None] for the end of the file, [Some false] for a line that cannot
    be parsed. *)
Fixpoint parse_lines (fuel : nat) (stream : list ascii) (l : config_entry_list)
    : outcome (bool * config_entry_list) :=
  match fuel with
  | O => Ret (true, l)
  | S fuel =>
      match getmultiline stream with
      | (None, _) => Ret (true, l)
      | (Some line, stream) =>
          let stripped_line := strip (c_str line) in
          if blank_or_comment stripped_line then parse_lines fuel stream l
          else
            let l := grow l in
            match parse_config_line stripped_line with
            | None => Ret (false, l)
            | Some e => l ← append_entry l e; parse_lines fuel stream l
            end
      end
  end.

Definition shrink (l : config_entry_list) : config_entry_list :=
  {| entries := entries l; num_allocated := length (entries l) |}.

(** [errno_] is errno after the last line was read; the list is returned with the
    flag, as the caller's list is changed either way. *)
Definition parse_config_file (errno_ : Z) (config_file : list ascii) (l : config_entry_list)
    : outcome (bool * config_entry_list) :=
  match getline config_file with
  | None => Ret (false, l)
  | Some (line, stream) =>
      if negb (match_special_directive (c_str line)) then Ret (false, l)
      else
        '(ok_, l) ← parse_lines (S (length stream)) stream l;
        if negb ok_ then Ret (false, l)
        else if errno_ =? ENOMEM then Ret (false, l)
        else Ret (true, shrink l)
  end.

Example config_example :
  parse_config_file 0 (directive ++ str "# a comment" ++ [NL] ++ str " mount = none,/tmp,tmpfs \" ++ [NL]
      ++ str "x" ++ [NL; NL] ++ str "ns-mount" ++ [NL]) new_config_entry_list =
  Ret (true, {| entries := [{| key := str "mount"; value := Some (str "none,/tmp,tmpfs  x") |};
                            {| key := str "ns-mount"; value := None |}]; num_allocated := 2 |}).
Proof. vm_compute. reflexivity. Qed.
