(* ===== verification/ConfigProps.v ===== *)
(** * Configuration files, as their manual describes them

    The reader of config_parser.c against the grammar of a file ([config_text]): its
    logical lines without blank ones and comments, each a key with an optional value.
    [read_config] is the reader on lists, in between. *)

From S2P Require Import Prelude CLib Util UtilProps SyscallFilter Policy ConfigParser.
Local Open Scope Z_scope.

(** The entries of the lines behind the directive, if every line is one. *)
Definition read_config (stream : list ascii) : option (list config_entry) :=
  mapM parse_config_line (filter (λ line, blank_or_comment line = false) (lines_of stream)).

Definition list_ok (l : config_entry_list) : Prop :=
  (length (entries l) <= num_allocated l)%nat ∧ (0 < num_allocated l)%nat.

Lemma grow_ok l :
  list_ok l → entries (grow l) = entries l ∧ list_ok (grow l) ∧
  (length (entries (grow l)) < num_allocated (grow l))%nat.
Proof.
  intros [H1 H2]. unfold grow, list_ok. destruct (_ <=? _)%nat eqn:E; cbn.
  - apply Nat.leb_le in E. split_and!; [done|lia..].
  - apply Nat.leb_gt in E. split_and!; done.
Qed.

Lemma append_entry_ok l e :
  (length (entries l) < num_allocated l)%nat →
  append_entry l e = Ret {| entries := entries l ++ [e]; num_allocated := num_allocated l |}.
Proof. intros H. unfold append_entry. by rewrite (proj2 (Nat.leb_gt _ _) H). Qed.

Lemma parse_lines_spec fuel stream l :
  list_ok l →
  match mapM parse_config_line (filter (λ line, blank_or_comment line = false) (lines_of_fuel fuel stream)) with
  | Some es => ∃ l', parse_lines fuel stream l = Ret (true, l') ∧ entries l' = entries l ++ es
  | None => ∃ l', parse_lines fuel stream l = Ret (false, l')
  end.
Proof.
  revert stream l. induction fuel as [|fuel IH]; intros stream l Hl; cbn [parse_lines lines_of_fuel].
  { exists l. by rewrite app_nil_r. }
  destruct (getmultiline stream) as [[line|] stream']; [|exists l; by rewrite app_nil_r].
  cbv zeta. set (s := strip (c_str line)). rewrite filter_cons. destruct (blank_or_comment s) eqn:Eb.
  { rewrite decide_False by done. by apply IH. }
  rewrite decide_True by done. cbn [mapM]. destruct (grow_ok l Hl) as (Hg1 & Hg2 & Hg3).
  destruct (parse_config_line s) as [e|]; cbn; [|by eexists]. rewrite append_entry_ok by done. cbn.
  specialize (IH stream' {| entries := entries (grow l) ++ [e]; num_allocated := num_allocated (grow l) |}).
  cbn in IH. rewrite Hg1 in *. destruct (mapM _ _) as [es|]; cbn in *.
  - destruct IH as (l' & Hl' & He); [split; cbn; [rewrite length_app; cbn|]; lia|].
    exists l'. split; [done|]. by rewrite He, <- app_assoc.
  - apply IH. split; cbn; [rewrite length_app; cbn|]; lia.
Qed.

Lemma getline_directive stream : getline (directive ++ stream) = Some (directive, stream).
Proof. done. Qed.

Lemma parse_config_file_reads errno_ stream :
  errno_ ≠ ENOMEM →
  match read_config stream with
  | Some es => parse_config_file errno_ (directive ++ stream) new_config_entry_list =
                 Ret (true, {| entries := es; num_allocated := length es |})
  | None => ∃ l, parse_config_file errno_ (directive ++ stream) new_config_entry_list = Ret (false, l)
  end.
Proof.
  intros He. unfold parse_config_file, read_config. rewrite getline_directive.
  change (match_special_directive (c_str directive)) with true. cbn [negb].
  pose proof (parse_lines_spec (S (length stream)) stream new_config_entry_list) as H.
  unfold lines_of. rewrite (proj2 (Z.eqb_neq _ _) He).
  destruct (mapM _ _) as [es|].
  - destruct H as (l' & -> & Hl); [split; cbn; unfold LIST_DEFAULT_SIZE; lia|]. cbn in *.
    unfold shrink. by rewrite Hl.
  - destruct H as (l' & ->); [split; cbn; unfold LIST_DEFAULT_SIZE; lia|]. by exists l'.
Qed.

(** ** Logical lines *)

Lemma getmultiline_shorter fuel s line rest :
  getmultiline_fuel fuel s = (Some line, rest) → (length rest < length s)%nat.
Proof.
  revert s line rest. induction fuel as [|fuel IH]; intros s line rest; cbn; [done|].
  destruct (getline s) as [[l r]|] eqn:E; [|done]. apply getline_shorter in E.
  case_bool_decide; [|intros [= _ <-]; lia].
  destruct (getmultiline_fuel fuel r) as [[l'|] r'] eqn:E'; [|done]. intros [= _ <-].
  apply IH in E'. lia.
Qed.

Lemma lines_of_fuel_enough n stream :
  (length stream < n)%nat → lines_of_fuel n stream = lines_of stream.
Proof.
  unfold lines_of. assert (∀ m s, (length s < m)%nat → ∀ n, (length s < n)%nat →
    lines_of_fuel m s = lines_of_fuel n s) as H; [|intros; apply H; lia].
  induction m as [|m IH]; intros s Hm [|n'] Hn; try lia. cbn [lines_of_fuel].
  destruct (getmultiline s) as [[l|] r] eqn:E; [|done]. apply getmultiline_shorter in E.
  f_equal. apply IH; lia.
Qed.

(** A line without a continuation. *)
Lemma lines_of_line l rest :
  NL ∉ l → list.last l ≠ Some BACKSLASH →
  lines_of (l ++ NL :: rest) = strip (c_str l) :: lines_of rest.
Proof.
  intros Hn Hb. unfold lines_of at 1. cbn [lines_of_fuel].
  replace (getmultiline (l ++ NL :: rest)) with (Some l, rest).
  - f_equal. apply lines_of_fuel_enough. rewrite length_app. cbn. lia.
  - pose proof (getmultiline_fuel_continued (S (length (l ++ NL :: rest))) [] l rest) as H.
    cbn [continued length app] in H. rewrite <- app_assoc in H. cbn [app] in H.
    unfold getmultiline. rewrite H; [reflexivity|lia|constructor|done|done].
Qed.

(** ** The grammar of configuration files

    Written down without the functions of the reader. *)

(** [s] is [text] without the blanks around it. *)
Definition trimmed (text s : cstr) : Prop :=
  ∃ pre post, text = pre ++ s ++ post ∧ Forall isblank pre ∧ Forall (λ c, isblank c ∨ c = NL) post ∧
    (∀ c, head s = Some c → ¬ isblank c) ∧ (∀ c, list.last s = Some c → ¬ (isblank c ∨ c = NL)).

(** The C string at the start of [text]. *)
Definition upto_nul (text s : list ascii) : Prop := NUL ∉ s ∧ (text = s ∨ ∃ rest, text = s ++ NUL :: rest).

(** A key, or a key and a value behind the first equals sign; none is empty. *)
Inductive entry_text : cstr → config_entry → Prop :=
  | entry_key text k :
      "="%char ∉ text → trimmed text k → k ≠ [] → entry_text text {| key := k; value := None |}
  | entry_key_value kt vt k v :
      "="%char ∉ kt → trimmed kt k → k ≠ [] → trimmed vt v → v ≠ [] →
      entry_text (kt ++ "="%char :: vt) {| key := k; value := Some v |}.

(** The first logical line of a stream and what is behind it: a backslash at the end of
    a line joins the next one to it, with a space. *)
Inductive logical_line : list ascii → list ascii → list ascii → Prop :=
  | line_ended l rest :
      NL ∉ l → list.last l ≠ Some BACKSLASH → logical_line (l ++ NL :: rest) l rest
  | line_at_eof l :
      l ≠ [] → NL ∉ l → list.last l ≠ Some BACKSLASH → logical_line l l []
  | line_continued l rest text rest' :
      NL ∉ l → logical_line rest text rest' →
      logical_line (l ++ BACKSLASH :: NL :: rest) (l ++ SPACE :: text) rest'.

(** There is no further line, also behind backslashes at the end of the file. *)
Inductive no_line : list ascii → Prop :=
  | no_line_end : no_line []
  | no_line_eof l : NL ∉ l → no_line (l ++ [BACKSLASH])
  | no_line_continued l rest : NL ∉ l → no_line rest → no_line (l ++ BACKSLASH :: NL :: rest).

(** The lines behind the directive, and their entries. *)
Inductive config_text : list ascii → list config_entry → Prop :=
  | text_end stream : no_line stream → config_text stream []
  | text_ignored stream line rest cs s es :
      logical_line stream line rest → upto_nul line cs → trimmed cs s →
      s = [] ∨ head s = Some "#"%char → config_text rest es → config_text stream es
  | text_entry stream line rest cs s e es :
      logical_line stream line rest → upto_nul line cs → trimmed cs s →
      s ≠ [] → head s ≠ Some "#"%char → entry_text s e → config_text rest es → config_text stream (e :: es).

(** *** Its parts and the functions *)

Lemma strippable_iff c : strippable_right c ↔ isblank c ∨ c = NL.
Proof. unfold strippable_right. by rewrite orb_True, bool_decide_spec. Qed.

Lemma strip_left_app pre s : Forall isblank pre → strip_left (pre ++ s) = strip_left s.
Proof. induction 1 as [|c pre Hc _ IH]; [done|]. cbn. by destruct (isblank c). Qed.

Lemma strip_right_app s post : Forall strippable_right post → strip_right (s ++ post) = strip_right s.
Proof.
  revert s. induction post as [|c post IH] using rev_ind; intros s; [by rewrite app_nil_r|].
  rewrite list.Forall_app, list.Forall_singleton. intros [Hp Hc]. rewrite app_assoc, strip_right_snoc by (by destruct (strippable_right c)).
  auto.
Qed.

Lemma trimmed_strip text s : trimmed text s ↔ strip text = s.
Proof.
  split.
  - intros (pre & post & -> & Hpre & Hpost & Hh & Hl). unfold strip. rewrite strip_left_app by done.
    assert (Forall strippable_right post) as Hp.
    { revert Hpost. apply Forall_impl. intros c. apply strippable_iff. }
    destruct s as [|c s].
    + cbn [app]. destruct (strip_left_spec post) as (p & E & _ & _). rewrite E in Hp.
      apply list.Forall_app in Hp as [_ Hp]. by apply (strip_right_app [] (strip_left post)).
    + rewrite strip_left_id, strip_right_app; [|done|].
      2: { intros d [= <-]. specialize (Hh c eq_refl). by destruct (isblank c). }
      apply strip_right_id. intros d Hd. apply Hl in Hd. rewrite <- strippable_iff in Hd. by destruct (strippable_right d).
  - intros <-. destruct (strip_spec text) as (pre & post & E & Hpre & Hpost & Hh & Hl). exists pre, post.
    split_and!; [done|done| | |].
    + revert Hpost. apply Forall_impl. intros c. apply strippable_iff.
    + intros c Hc. rewrite (Hh c Hc). by intros [].
    + intros c Hc. rewrite <- strippable_iff, (Hl c Hc). by intros [].
Qed.

Lemma upto_nul_c_str text s : upto_nul text s ↔ c_str text = s.
Proof.
  split.
  - intros [Hs [->|[rest ->]]]; [by apply c_str_plain|by apply c_str_app].
  - intros <-. split; [apply c_str_no_nul|]. destruct (c_str_split text) as [H|H]; auto.
Qed.

Lemma starts_with_char c d s : c ≠ d → starts_with [d] (c :: s) = false.
Proof. intros Hc. apply not_true_is_false. intros [t Ht]%starts_with_spec. cbn in Ht. congruence. Qed.

Lemma split_eq_app pre post : "="%char ∉ pre → strstr_split (str "=") (pre ++ "="%char :: post) = Some (pre, post).
Proof.
  induction pre as [|c pre IH]; intros H; [done|]. apply not_elem_of_cons in H as [Hc Hp].
  cbn [app strstr_split]. replace (starts_with (str "=") (c :: pre ++ "="%char :: post)) with false.
  - by rewrite IH.
  - symmetry. apply starts_with_char. congruence.
Qed.

Lemma split_eq_none s : "="%char ∉ s → strstr_split (str "=") s = None.
Proof.
  induction s as [|c s IH]; intros H; [done|]. apply not_elem_of_cons in H as [Hc Hp].
  cbn [strstr_split]. replace (starts_with (str "=") (c :: s)) with false.
  - by rewrite IH.
  - symmetry. apply starts_with_char. congruence.
Qed.

Lemma split_at_equals s :
  match strstr_split (str "=") s with
  | Some (k, v) => s = k ++ "="%char :: v ∧ "="%char ∉ k
  | None => "="%char ∉ s
  end.
Proof.
  assert (∀ k, strstr_split (str "=") k = None → "="%char ∉ k) as Hnone.
  { intros k Hk (l1 & l2 & -> & Hn)%list_elem_of_split_l. by rewrite split_eq_app in Hk. }
  destruct (strstr_split (str "=") s) as [[k v]|] eqn:E; [|auto].
  split; [by apply strstr_split_Some in E|]. eapply Hnone, strstr_split_first; [|exact E]. done.
Qed.

Lemma entry_text_parse s e : entry_text s e ↔ parse_config_line s = Some e.
Proof.
  unfold parse_config_line. split.
  - intros [text k Hn Hk%trimmed_strip Hne|kt vt k v Hn Hk%trimmed_strip Hne Hv%trimmed_strip Hne'];
      rewrite tokenize_Some by done.
    + rewrite split_eq_none by done. cbn. rewrite Hk. by destruct k.
    + rewrite split_eq_app by done. cbn. rewrite Hk, Hv. by destruct k, v.
  - rewrite tokenize_Some by done. pose proof (split_at_equals s) as Hs.
    destruct (strstr_split _ s) as [[k v]|]; cbn.
    + destruct Hs as [-> Hn]. destruct (strip k) as [|c k'] eqn:Ek, (strip v) as [|d v'] eqn:Ev; try done.
      intros [= <-]. apply entry_key_value; [done|by apply trimmed_strip|done|by apply trimmed_strip|done].
    + destruct (strip s) as [|c k] eqn:Ek; [done|]. intros [= <-].
      by apply entry_key; [|apply trimmed_strip|].
Qed.

(** *** Logical lines *)

Lemma getline_cases stream :
  match getline stream with
  | Some (line, rest) =>
      (∃ l, line = l ++ [NL] ∧ NL ∉ l ∧ stream = l ++ NL :: rest) ∨ (line = stream ∧ rest = [] ∧ NL ∉ stream)
  | None => stream = []
  end.
Proof.
  induction stream as [|c s IH]; [done|]. cbn [getline]. case_bool_decide as Hc.
  - subst c. left. exists []. split_and!; [done|set_solver|done].
  - destruct (getline s) as [[line rest]|].
    + destruct IH as [(l & -> & Hn & ->)|(-> & -> & Hn)]; [left; exists (c :: l)|right];
        (split_and!; [done| |]); set_solver.
    + subst s. right. set_solver.
Qed.

Lemma eat_newline_none l : NL ∉ l → eat_newline l = l.
Proof.
  intros Hn. unfold eat_newline. rewrite bool_decide_false; [done|].
  intros Hl. apply last_Some in Hl as [l' ->]. set_solver.
Qed.

(** One physical line, with its newline eaten: what is left and whether it goes on. *)
Lemma physical_line stream :
  match getline stream with
  | Some (line, rest) =>
      let l := eat_newline line in
      NL ∉ l ∧ (stream = l ++ NL :: rest ∨ stream = l ∧ rest = [] ∧ l ≠ [])
  | None => stream = []
  end.
Proof.
  pose proof (getline_cases stream) as H. destruct (getline stream) as [[line rest]|] eqn:E; [|done].
  destruct H as [(l & -> & Hn & ->)|(-> & -> & Hn)]; cbv zeta.
  - rewrite eat_newline_app. auto.
  - rewrite eat_newline_none by done. split; [done|]. right. by apply getline_Some in E as [_ ?].
Qed.

Lemma getmultiline_reads fuel stream :
  (length stream < fuel)%nat →
  match getmultiline_fuel fuel stream with
  | (Some line, rest) => logical_line stream line rest
  | (None, _) => no_line stream
  end.
Proof.
  revert stream. induction fuel as [|fuel IH]; intros stream Hf; [lia|]. cbn [getmultiline_fuel].
  pose proof (physical_line stream) as Hp. pose proof (getline_shorter stream) as Hs.
  destruct (getline stream) as [[line rest]|]; [|subst; apply no_line_end]. specialize (Hs _ _ eq_refl).
  cbv zeta in Hp. set (l := eat_newline line) in *. clearbody l. destruct Hp as [Hn Hst].
  case_bool_decide as Hb.
  - apply last_Some in Hb as [l' ->]. rewrite length_app, Nat.add_sub, take_app_length.
    assert (NL ∉ l') as Hn' by set_solver. specialize (IH rest ltac:(lia)).
    destruct Hst as [->|(-> & -> & _)].
    + rewrite <- app_assoc. cbn [app]. destruct (getmultiline_fuel fuel rest) as [[line'|] rest'].
      * by apply line_continued.
      * by apply no_line_continued.
    + destruct (getmultiline_fuel fuel []) as [[line'|] rest'] eqn:E; [|by apply no_line_eof].
      destruct fuel; discriminate E.
  - destruct Hst as [->|(-> & -> & Hne)]; [by apply line_ended|by apply line_at_eof].
Qed.

Lemma getline_at_eof l : l ≠ [] → NL ∉ l → getline l = Some (l, []).
Proof.
  intros Hne Hn. pose proof (getline_cases l) as H. destruct (getline l) as [[line rest]|]; [|done].
  destruct H as [(l' & _ & _ & ->)|(-> & -> & _)]; [set_solver|done].
Qed.

Lemma logical_line_fuel fuel stream line rest :
  logical_line stream line rest → (length stream < fuel)%nat → getmultiline_fuel fuel stream = (Some line, rest).
Proof.
  intros H. revert fuel. induction H as [l rest Hn Hb|l Hne Hn Hb|l rest text rest' Hn _ IH];
    intros [|fuel] Hf; try lia; cbn [getmultiline_fuel].
  - rewrite getline_app, eat_newline_app by done. by rewrite bool_decide_false.
  - rewrite getline_at_eof, eat_newline_none by done. by rewrite bool_decide_false.
  - replace (l ++ BACKSLASH :: NL :: rest) with ((l ++ [BACKSLASH]) ++ NL :: rest) by (by rewrite <- app_assoc).
    rewrite getline_app, eat_newline_app by (rewrite elem_of_app; set_solver). rewrite last_snoc, bool_decide_true by done.
    rewrite length_app, Nat.add_sub, take_app_length. rewrite IH; [done|].
    rewrite length_app in Hf. cbn in Hf. lia.
Qed.

Lemma no_line_fuel fuel stream :
  no_line stream → (length stream < fuel)%nat → (getmultiline_fuel fuel stream).1 = None.
Proof.
  intros H. revert fuel. induction H as [|l Hn|l rest Hn _ IH]; intros [|fuel] Hf; try lia; cbn [getmultiline_fuel].
  - done.
  - assert (NL ∉ l ++ [BACKSLASH]) by (rewrite elem_of_app; set_solver).
    rewrite getline_at_eof, eat_newline_none by (done || by destruct l). rewrite last_snoc, bool_decide_true by done.
    by destruct fuel.
  - replace (l ++ BACKSLASH :: NL :: rest) with ((l ++ [BACKSLASH]) ++ NL :: rest) by (by rewrite <- app_assoc).
    rewrite getline_app, eat_newline_app by (rewrite elem_of_app; set_solver). rewrite last_snoc, bool_decide_true by done.
    rewrite length_app in Hf. cbn in Hf. specialize (IH fuel ltac:(lia)).
    by destruct (getmultiline_fuel fuel rest) as [[line|] rest'].
Qed.

Lemma logical_line_read stream line rest :
  logical_line stream line rest → lines_of stream = strip (c_str line) :: lines_of rest.
Proof.
  intros H. unfold lines_of at 1. cbn [lines_of_fuel]. unfold getmultiline.
  assert (getmultiline_fuel (S (length stream)) stream = (Some line, rest)) as E
    by (apply logical_line_fuel; [done|lia]).
  rewrite E. f_equal. apply lines_of_fuel_enough. by eapply getmultiline_shorter.
Qed.

Lemma no_line_read stream : no_line stream → lines_of stream = [].
Proof.
  intros H. unfold lines_of. cbn [lines_of_fuel]. unfold getmultiline.
  pose proof (no_line_fuel (S (length stream)) stream H ltac:(lia)) as E.
  by destruct (getmultiline_fuel _ _) as [[line|] rest].
Qed.

Lemma ignored_iff s : blank_or_comment s = true ↔ s = [] ∨ head s = Some "#"%char.
Proof.
  destruct s as [|c s]; cbn; [by split; auto|]. rewrite bool_decide_eq_true. split; [intros ->; by right|].
  by intros [|[= ->]].
Qed.

Lemma config_text_read stream es : config_text stream es ↔ read_config stream = Some es.
Proof.
  unfold read_config. split.
  - induction 1 as [stream H|stream line rest cs s es Hl Hu%upto_nul_c_str Hs%trimmed_strip Hi _ IH
                    |stream line rest cs s e es Hl Hu%upto_nul_c_str Hs%trimmed_strip Hne Hh He _ IH].
    + by rewrite no_line_read.
    + rewrite (logical_line_read _ _ _ Hl), Hu, Hs, filter_cons_False; [done|].
      apply ignored_iff in Hi. by rewrite Hi.
    + rewrite (logical_line_read _ _ _ Hl), Hu, Hs, filter_cons_True.
      * cbn [mapM]. apply entry_text_parse in He. rewrite He. cbn [mbind option_bind]. by rewrite IH.
      * apply not_true_is_false. rewrite ignored_iff. tauto.
  - remember (length stream) as n eqn:En. revert stream es En.
    induction (lt_wf n) as [n _ IH]. intros stream es ->.
    pose proof (getmultiline_reads (S (length stream)) stream ltac:(lia)) as Hr.
    destruct (getmultiline_fuel (S (length stream)) stream) as [[line|] rest] eqn:E.
    2: { rewrite no_line_read by done. intros [= <-]. by apply text_end. }
    rewrite (logical_line_read _ _ _ Hr). apply getmultiline_shorter in E.
    specialize (IH _ E rest). set (s := strip (c_str line)).
    assert (upto_nul line (c_str line)) as Hu by (by apply upto_nul_c_str).
    assert (trimmed (c_str line) s) as Hs by (by apply trimmed_strip).
    destruct (blank_or_comment s) eqn:Eb.
    + rewrite filter_cons_False by congruence. intros H. apply ignored_iff in Eb. eapply text_ignored; eauto.
    + rewrite filter_cons_True by done. cbn [mapM].
      destruct (parse_config_line s) as [e|] eqn:Ep; [|done]. cbn [mbind option_bind].
      destruct (mapM _ _) as [es'|] eqn:Em; [|done]. intros [= <-].
      assert (¬ (s = [] ∨ head s = Some "#"%char)) as Hi by (rewrite <- ignored_iff; congruence).
      apply entry_text_parse in Ep. eapply text_entry; eauto.
Qed.

(** ** Reading a file *)

Lemma parse_config_file_undirected errno_ file l :
  (∀ stream, file ≠ str "% minijail-config-file v0" ++ NL :: stream) →
  parse_config_file errno_ file l = Ret (false, l).
Proof.
  intros Hn. unfold parse_config_file. destruct (getline file) as [[line stream]|] eqn:E; [|done].
  destruct (match_special_directive (c_str line)) eqn:Em; [|done]. exfalso. apply (Hn stream).
  apply bool_decide_eq_true in Em. pose proof (getline_cases file) as H. rewrite E in H.
  assert (NL ∈ directive) as Hd by (by apply (bool_decide_unpack _)).
  destruct H as [(l' & -> & Hl & ->)|(-> & _ & Hl)].
  - destruct (c_str_split (l' ++ [NL])) as [Ec|[r Ec]]; rewrite Em in Ec.
    + rewrite (cons_middle NL l' stream), app_assoc, <- Ec. done.
    + exfalso. apply Hl. destruct r as [|x r _] using rev_ind.
      * by apply app_inj_tail in Ec as [_ [=]].
      * rewrite app_comm_cons, app_assoc in Ec.
        apply app_inj_tail in Ec as [-> _]. rewrite !elem_of_app. auto.
  - exfalso. apply Hl. destruct (c_str_split file) as [Ec|[r Ec]]; rewrite Em in Ec; [by rewrite <- Ec|].
    rewrite Ec. apply elem_of_app. auto.
Qed.

(** C34: reading a configuration file, against its grammar ([config_text]).  Where
    reading does not leave errno at ENOMEM, the reader accepts a file exactly when its
    first line is the directive and every logical line behind it, stripped, is empty, a
    comment, a key, or a key, an equals sign and a value, neither of them empty; the list
    then holds these entries in the order of the file, and no more room than they need.
    Every other file is refused, one without the directive with the list as it was.
    However many entries there are, the array is never written outside its bounds.  (The
    manual restricts keys to letters and hyphens; the reader does not.) *)
Theorem parse_config_file_spec errno_ :
  errno_ ≠ ENOMEM →
  (∀ stream,
     (∀ es, config_text stream es ↔
        parse_config_file errno_ (str "% minijail-config-file v0" ++ NL :: stream) new_config_entry_list =
          Ret (true, {| entries := es; num_allocated := length es |})) ∧
     ((∀ es, ¬ config_text stream es) →
        ∃ l, parse_config_file errno_ (str "% minijail-config-file v0" ++ NL :: stream) new_config_entry_list =
          Ret (false, l))) ∧
  ∀ file, (∀ stream, file ≠ str "% minijail-config-file v0" ++ NL :: stream) →
    parse_config_file errno_ file new_config_entry_list = Ret (false, new_config_entry_list).
Proof.
  intros He. split; [|intros file; apply parse_config_file_undirected]. intros stream.
  pose proof (parse_config_file_reads errno_ stream He) as H. setoid_rewrite config_text_read.
  change (str "% minijail-config-file v0" ++ NL :: stream) with (directive ++ stream).
  destruct (read_config stream) as [es|]; [|destruct H as [l ->]].
  - rewrite H. split; [intros es'; split; [by intros [= ->]|by intros [= ->]]|]. intros Hn. by destruct (Hn es).
  - split; [intros es; by split|eauto].
Qed.

Lemma parse_config_file_spec_witness :
  parse_config_file 0 (str "% minijail-config-file v0" ++ NL :: str "mount = none,/tmp,tmpfs" ++ [NL] ++ str "#" ++ [NL] ++ str "n")
      new_config_entry_list
  = Ret (true, {| entries := [{| key := str "mount"; value := Some (str "none,/tmp,tmpfs") |};
                              {| key := str "n"; value := None |}]; num_allocated := 2 |}) ∧
  parse_config_file 0 (str "mount") new_config_entry_list = Ret (false, new_config_entry_list).
Proof.
  destruct (parse_config_file_spec 0) as [H1 H2]; [discriminate|]. split; [|by apply H2].
  destruct (H1 (str "mount = none,/tmp,tmpfs" ++ [NL] ++ str "#" ++ [NL] ++ str "n")) as [H _].
  etrans; [apply (H [{| key := str "mount"; value := Some (str "none,/tmp,tmpfs") |}; {| key := str "n"; value := None |}])|reflexivity].
  apply config_text_read. vm_compute. reflexivity.
Defined.
