(* ===== verification/ConfigMem.v ===== *)
(** * config_parser.c in memory

    struct config_entry_list, its array of entries, and the strings of the entries as
    objects.  [ConfigParser] has the same functions on values.  The buffers of
    getline(3) are not modelled. *)

From AAC_tactics Require Import AAC.
From S2P Require Import Prelude CLib Util UtilProps Heap ConfigParser ConfigProps.
Local Open Scope heap_scope.

(** ** Objects *)

(** The members of a struct config_entry. *)
Abbreviation entry_p := (option loc * option loc)%type.

Inductive config_object :=
  | CStr (s : cstr)
  | CEntries (cells : list entry_p)
  | CList (entries_ : option loc) (num_entries num_allocated_ : nat).

Abbreviation cm A := (hm config_object A).

(** ** C library *)

(** free(3) does nothing with NULL. *)
Definition free_ptr (p : option loc) : cm unit :=
  match p with Some l => free l | None => mret tt end.

Definition strdup_value (s : option cstr) : cm (option loc) :=
  match s with Some s => l ← alloc (CStr s); mret (Some l) | None => mret None end.

Definition blank_entry : entry_p := (None, None).

(** The array at [p], behind a pointer that may be NULL. *)
Definition load_cells (p : option loc) : cm (list entry_p) :=
  l ← target p;
  o ← load l;
  match o with CEntries cells => mret cells | _ => undefined end.

(** realloc(3) of the array to [n] entries: it moves, and with no entries it is freed and
    the result is NULL.  The new entries are written before they are read; here they are
    NULL. *)
Definition realloc_cells (p : option loc) (n : nat) : cm (option loc) :=
  match p with
  | None => l ← alloc (CEntries (replicate n blank_entry)); mret (Some l)
  | Some l =>
      o ← load l;
      match o with
      | CEntries cells =>
          _ ← free l;
          if (n =? 0)%nat then mret None
          else
            l ← alloc (CEntries (take n cells ++ replicate (n - length cells) blank_entry));
            mret (Some l)
      | _ => undefined
      end
  end.

(** entries[i] = e *)
Definition store_cell (p : option loc) (i : nat) (e : entry_p) : cm unit :=
  cells ← load_cells p;
  if (i <? length cells)%nat then
    l ← target p;
    update l (λ _, CEntries (<[i := e]> cells))
  else undefined.

(** ** The functions *)

Definition new_config_entry_list_p : cm loc :=
  es ← alloc (CEntries (replicate LIST_DEFAULT_SIZE blank_entry));
  alloc (CList (Some es) 0 LIST_DEFAULT_SIZE).

Definition clear_config_entry (entry : entry_p) : cm unit :=
  _ ← free_ptr entry.1; free_ptr entry.2.

(** The loop of [free_config_entry_list], over [n] entries from [i] on. *)
Fixpoint clear_entries (p : option loc) (i n : nat) : cm unit :=
  match n with
  | O => mret tt
  | S n =>
      cells ← load_cells p;
      match cells !! i with
      | Some e => _ ← clear_config_entry e; clear_entries p (S i) n
      | None => undefined
      end
  end.

Definition free_config_entry_list (list_ : option loc) : cm unit :=
  match list_ with
  | None => mret tt
  | Some l =>
      o ← load l;
      match o with
      | CList es num _ => _ ← clear_entries es 0 num; _ ← free_ptr es; free l
      | _ => undefined
      end
  end.

(** The text is taken apart in a copy, and what is kept of it is copied again, into the
    entry number [i]. *)
Definition parse_config_line_p (config_line : cstr) (es : option loc) (i : nat) : cm bool :=
  line ← alloc (CStr config_line);
  match parse_config_line config_line with
  | None => _ ← free line; mret false
  | Some e =>
      k ← alloc (CStr e.(key));
      v ← strdup_value e.(value);
      _ ← store_cell es i (Some k, v);
      _ ← free line;
      mret true
  end.

(** Double the array when it is full; false when there is no array afterwards. *)
Definition grow_p (l : loc) : cm bool :=
  o ← load l;
  match o with
  | CList es num allocated =>
      if (allocated <=? num)%nat then
        es ← realloc_cells es (allocated * 2);
        _ ← update l (λ _, CList es num (allocated * 2));
        mret (bool_decide (is_Some es))
      else mret true
  | _ => undefined
  end.

(** Parse a line into the entry behind the last one. *)
Definition append_line_p (l : loc) (line : cstr) : cm bool :=
  o ← load l;
  match o with
  | CList es num allocated =>
      ok_ ← parse_config_line_p line es num;
      if negb ok_ then mret false
      else (_ ← update l (λ _, CList es (S num) allocated); mret true)
  | _ => undefined
  end.

Fixpoint parse_lines_p (fuel : nat) (stream : list ascii) (l : loc) : cm bool :=
  match fuel with
  | O => mret true
  | S fuel =>
      match getmultiline stream with
      | (None, _) => mret true
      | (Some line, stream) =>
          let stripped_line := strip (c_str line) in
          if blank_or_comment stripped_line then parse_lines_p fuel stream l
          else
            grown ← grow_p l;
            if negb grown then mret false
            else
              ok_ ← append_line_p l stripped_line;
              if negb ok_ then mret false else parse_lines_p fuel stream l
      end
  end.

Definition shrink_p (l : loc) : cm unit :=
  o ← load l;
  match o with
  | CList es num allocated =>
      if (num <? allocated)%nat then
        es ← realloc_cells es num;
        update l (λ _, CList es num num)
      else mret tt
  | _ => undefined
  end.

Definition parse_config_file_p (errno_ : Z) (config_file : list ascii) (l : loc) : cm bool :=
  match getline config_file with
  | None => mret false
  | Some (line, stream) =>
      if negb (match_special_directive (c_str line)) then mret false
      else
        ok_ ← parse_lines_p (S (length stream)) stream l;
        if negb ok_ then mret false
        else if (errno_ =? ENOMEM)%Z then mret false
        else (_ ← shrink_p l; mret true)
  end.

(** ** The reader

    What getopt_from_conf() (minijail0_cli.c) finds in the list: for each entry the key
    and the value behind its pointers. *)

Definition load_str (l : loc) : cm cstr :=
  o ← load l;
  match o with CStr s => mret s | _ => undefined end.

Definition read_entry_p (e : entry_p) : cm config_entry :=
  kl ← target e.1;
  k ← load_str kl;
  match e.2 with
  | Some vl => v ← load_str vl; mret {| key := k; value := Some v |}
  | None => mret {| key := k; value := None |}
  end.

Fixpoint read_entries_p (p : option loc) (i n : nat) : cm (list config_entry) :=
  match n with
  | O => mret []
  | S n =>
      cells ← load_cells p;
      match cells !! i with
      | Some c => e ← read_entry_p c; es ← read_entries_p p (S i) n; mret (e :: es)
      | None => undefined
      end
  end.

Definition read_list_p (l : loc) : cm (list config_entry) :=
  o ← load l;
  match o with
  | CList es num _ => read_entries_p es 0 num
  | _ => undefined
  end.

(** The list of a configuration file: made, filled, read and freed. *)
Definition config_life (errno_ : Z) (config_file : list ascii) : cm (bool * list config_entry) :=
  l ← new_config_entry_list_p;
  ok_ ← parse_config_file_p errno_ config_file l;
  es ← read_list_p l;
  _ ← free_config_entry_list (Some l);
  mret (ok_, es).

(** ** Ownership *)

Abbreviation assertion_c := (hprop config_object).

(** A pointer and the string it leads to, or NULL and no string. *)
Definition ptr_at (p : option loc) (s : option cstr) : assertion_c :=
  match p, s with
  | Some l, Some s => l ↦ CStr s
  | None, None => emp
  | _, _ => λ _, False
  end.

Definition entry_at (c : entry_p) (e : config_entry) : assertion_c :=
  ptr_at c.1 (Some e.(key)) ∗ ptr_at c.2 e.(value).

Fixpoint entries_at (cs : list entry_p) (es : list config_entry) : assertion_c :=
  match cs, es with
  | [], [] => emp
  | c :: cs, e :: es => entry_at c e ∗ entries_at cs es
  | _, _ => λ _, False
  end.

Definition array_at (p : option loc) (cells : list entry_p) : assertion_c :=
  match p with Some l => l ↦ CEntries cells | None => hpure (cells = []) end.

(** The list at [l] holds the entries of [cl], and the array has its capacity. *)
Definition list_at (l : loc) (cl : config_entry_list) : assertion_c := λ h,
  ∃ p used spare, (length used = length (entries cl) ∧ length (used ++ spare) = num_allocated cl) ∧
    (l ↦ CList p (length (entries cl)) (num_allocated cl) ∗ array_at p (used ++ spare)
     ∗ entries_at used (entries cl)) h.

Section Config.
Context {A C : Type} (Q : A → C → assertion_c).

Lemma sim_false (P R : assertion_c) (m : cm A) (o : outcome C) :
  (∀ h, P h → False) → sim (P ∗ R) m o Q.
Proof. intros HP h hf (h1 & h2 & _ & _ & H1 & _). by destruct (HP h1). Qed.

Lemma sim_open_config R l cl (m : cm A) o :
  (∀ p used spare, length used = length (entries cl) → length (used ++ spare) = num_allocated cl →
     sim (l ↦ CList p (length (entries cl)) (num_allocated cl) ∗ array_at p (used ++ spare)
          ∗ entries_at used (entries cl) ∗ R) m o Q) →
  sim (list_at l cl ∗ R) m o Q.
Proof.
  intros H. apply sim_ex. intros p. apply sim_ex. intros used. apply sim_ex. intros spare.
  apply sim_and. intros [H1 H2]. eapply sim_pre; [|by apply (H p used spare)]. aac_reflexivity.
Qed.

Lemma sim_close_config R l cl p used spare (m : cm A) o :
  length used = length (entries cl) → length (used ++ spare) = num_allocated cl →
  sim (list_at l cl ∗ R) m o Q →
  sim (l ↦ CList p (length (entries cl)) (num_allocated cl) ∗ array_at p (used ++ spare)
       ∗ entries_at used (entries cl) ∗ R) m o Q.
Proof.
  intros H1 H2. apply (sim_weaken (list_at l cl ∗ R)). intros h H.
  apply (sep_mono_l (l ↦ CList p (length (entries cl)) (num_allocated cl) ∗ array_at p (used ++ spare)
                     ∗ entries_at used (entries cl))).
  - intros h' H'. exists p, used, spare. by split.
  - apply sep_assoc. eapply sep_mono_r; [|exact H]. intros h' H'. by apply sep_assoc.
Qed.

(** *** The array *)

Lemma sim_load_cells R p cells f (o : outcome C) :
  cells ≠ [] → sim (array_at p cells ∗ R) (f cells) o Q →
  sim (array_at p cells ∗ R) (load_cells p ≫= f) o Q.
Proof.
  intros Hne H. destruct p as [a|]; [|by apply sim_false; intros h [-> _]].
  cbn [array_at] in *. unfold load_cells. by sim_steps.
Qed.

Lemma sim_realloc R a cells n f (o : outcome C) :
  n ≠ 0 →
  (∀ a', sim (a' ↦ CEntries (take n cells ++ replicate (n - length cells) blank_entry) ∗ R) (f (Some a')) o Q) →
  sim (a ↦ CEntries cells ∗ R) (realloc_cells (Some a) n ≫= f) o Q.
Proof.
  intros Hn H. unfold realloc_cells. sim_steps. rewrite (proj2 (Nat.eqb_neq _ _) Hn). sim_steps. apply H.
Qed.

Lemma sim_free_ptr R p s f (o : outcome C) :
  sim R (f tt) o Q → sim (ptr_at p s ∗ R) (free_ptr p ≫= f) o Q.
Proof.
  intros H. destruct p as [l|], s as [s|]; cbn [ptr_at free_ptr]; try (by apply sim_false).
  - by sim_step.
  - eapply sim_pre; [|sim_step; exact H]. aac_reflexivity.
Qed.

Lemma sim_clear_entries R p cs es pre post f (o : outcome C) :
  sim (array_at p (pre ++ cs ++ post) ∗ R) (f tt) o Q →
  sim (array_at p (pre ++ cs ++ post) ∗ entries_at cs es ∗ R) (clear_entries p (length pre) (length cs) ≫= f) o Q.
Proof.
  revert pre es. induction cs as [|c cs IH]; intros pre [|e es] H; cbn [entries_at length clear_entries].
  - eapply sim_pre; [|sim_step; exact H]. aac_reflexivity.
  - sim_front ((λ _, False) : assertion_c). by apply sim_false.
  - sim_front ((λ _, False) : assertion_c). by apply sim_false.
  - cbn [app] in *. sim_step. apply sim_load_cells; [by destruct pre|]. rewrite list_lookup_middle by done.
    unfold clear_config_entry, entry_at. sim_steps. sim_front (ptr_at c.1 (Some e.(key))). apply sim_free_ptr.
    sim_front (ptr_at c.2 e.(value)). apply sim_free_ptr.
    specialize (IH (pre ++ [c]) es). rewrite length_app, Nat.add_1_r, <- app_assoc in IH. cbn [app] in IH.
    eapply sim_pre; [|exact (IH H)]. aac_reflexivity.
Qed.

Lemma sim_read_entries R p cs es pre post f (o : outcome C) :
  sim (array_at p (pre ++ cs ++ post) ∗ entries_at cs es ∗ R) (f es) o Q →
  sim (array_at p (pre ++ cs ++ post) ∗ entries_at cs es ∗ R) (read_entries_p p (length pre) (length cs) ≫= f) o Q.
Proof.
  revert pre es R f. induction cs as [|c cs IH]; intros pre [|e es] R f H; cbn [entries_at length read_entries_p] in *.
  - by sim_step.
  - sim_front ((λ _, False) : assertion_c). by apply sim_false.
  - sim_front ((λ _, False) : assertion_c). by apply sim_false.
  - cbn [app] in *. sim_step. apply sim_load_cells; [by destruct pre|]. rewrite list_lookup_middle by done.
    destruct e as [ke ve]. unfold entry_at in *. cbn [fst snd key value] in *.
    destruct c as [[k|] v]; cbn [fst snd ptr_at] in *;
      [|sim_front ((λ _, False) : assertion_c); by apply sim_false].
    specialize (IH (pre ++ [(Some k, v)]) es (k ↦ CStr ke ∗ ptr_at v ve ∗ R)).
    rewrite length_app, Nat.add_1_r, <- app_assoc in IH. cbn [app] in IH.
    unfold read_entry_p, load_str. cbn [fst snd]. sim_steps.
    destruct v as [v|], ve as [ve|]; cbn [ptr_at] in *;
      try (sim_front ((λ _, False) : assertion_c); by apply sim_false).
    + sim_steps. eapply sim_pre; [|apply IH; sim_steps; eapply sim_pre; [|exact H]]; aac_reflexivity.
    + sim_steps. eapply sim_pre; [|apply IH; sim_steps; eapply sim_pre; [|exact H]]; aac_reflexivity.
Qed.

(** *** Filling the list *)

Lemma entries_at_snoc cs es c e :
  length cs = length es → entries_at (cs ++ [c]) (es ++ [e]) ≡h entry_at c e ∗ entries_at cs es.
Proof.
  revert es. induction cs as [|c' cs IH]; intros [|e' es] Hl; try done. cbn [entries_at app].
  rewrite IH by (cbn in Hl; lia). aac_reflexivity.
Qed.

Lemma sim_strdup_value R s f (o : outcome C) :
  (∀ p, sim (ptr_at p s ∗ R) (f p) o Q) → sim R (strdup_value s ≫= f) o Q.
Proof.
  intros H. destruct s as [s|]; cbn [strdup_value]; sim_steps.
  - specialize (H (Some l)). exact H.
  - eapply sim_pre; [|exact (H None)]. cbn [ptr_at]. aac_reflexivity.
Qed.

Lemma sim_append_line R l cl line f (o : outcome C) :
  length (entries cl) < num_allocated cl →
  match parse_config_line line with
  | Some e => sim (list_at l {| entries := entries cl ++ [e]; num_allocated := num_allocated cl |} ∗ R) (f true) o Q
  | None => sim (list_at l cl ∗ R) (f false) o Q
  end →
  sim (list_at l cl ∗ R) (append_line_p l line ≫= f) o Q.
Proof.
  intros Hlt H. apply sim_open_config. intros p used spare H1 H2. unfold append_line_p, parse_config_line_p. sim_steps.
  destruct (parse_config_line line) as [e|].
  2: { sim_steps. cbn [negb]. sim_steps. by apply sim_close_config. }
  destruct spare as [|c0 spare]; [rewrite app_nil_r in H2; lia|].
  sim_steps. apply sim_strdup_value. intros v. unfold store_cell. sim_steps.
  sim_front (array_at p (used ++ c0 :: spare)). apply sim_load_cells; [by destruct used|].
  rewrite (proj2 (Nat.ltb_lt _ _)) by (rewrite H2; lia).
  destruct p as [a|]; [|by apply sim_false; intros h [E _]; destruct used].
  cbn [array_at]. sim_steps. cbn [negb]. sim_steps.
  rewrite <- H1, insert_app_r_alt, Nat.sub_diag by done. cbn [list_insert insert].
  set (c := (Some l1, v) : entry_p).
  eapply sim_pre; [|apply (sim_close_config R l {| entries := entries cl ++ [e]; num_allocated := num_allocated cl |} (Some a)
    (used ++ [c]) spare); [cbn; rewrite !length_app; cbn; lia| |exact H]].
  - cbn [entries num_allocated array_at]. rewrite entries_at_snoc by done.
    rewrite length_app, Nat.add_1_r, H1, <- app_assoc. cbn [app]. unfold entry_at. cbn [fst snd ptr_at c].
    aac_reflexivity.
  - cbn. rewrite <- H2, !length_app. cbn. lia.
Qed.

Lemma sim_grow R l cl f (o : outcome C) :
  0 < num_allocated cl →
  (length (entries cl) < num_allocated (grow cl) → sim (list_at l (grow cl) ∗ R) (f true) o Q) →
  sim (list_at l cl ∗ R) (grow_p l ≫= f) o Q.
Proof.
  intros Hpos H. apply sim_open_config. intros p used spare H1 H2. unfold grow_p. unfold grow in H. sim_steps.
  rewrite length_app in H2. destruct (_ <=? _) eqn:E.
  - apply Nat.leb_le in E. cbn [entries num_allocated] in H. destruct spare; [|cbn in H2; lia].
    destruct p as [a|]; [|sim_front (array_at None (used ++ [])); apply sim_false; intros h [E' _];
      rewrite app_nil_r in E'; subst used; cbn in *; lia].
    cbn [array_at]. rewrite app_nil_r. sim_steps.
    match goal with |- context [a ↦ CEntries used] => sim_front (a ↦ CEntries used) end.
    apply sim_realloc; [lia|]. intros a'. sim_steps. rewrite bool_decide_true by done.
    rewrite take_ge by lia.
    eapply sim_pre; [|apply (sim_close_config R l {| entries := entries cl; num_allocated := num_allocated cl * 2 |} (Some a')
      used (replicate (num_allocated cl * 2 - length used) blank_entry)); [done| |apply H; lia]].
    + cbn [entries num_allocated array_at]. aac_reflexivity.
    + cbn. rewrite length_app, length_replicate. lia.
  - apply Nat.leb_gt in E. sim_steps. apply sim_close_config; [done|by rewrite length_app|by apply H].
Qed.

Lemma sim_parse_lines R fuel stream l cl f (g : bool * config_entry_list → outcome C) :
  0 < num_allocated cl →
  (∀ ok_ cl', 0 < num_allocated cl' → sim (list_at l cl' ∗ R) (f ok_) (g (ok_, cl')) Q) →
  sim (list_at l cl ∗ R) (parse_lines_p fuel stream l ≫= f) (parse_lines fuel stream cl ≫= g) Q.
Proof.
  revert stream cl. induction fuel as [|fuel IH]; intros stream cl Hpos H; cbn [parse_lines parse_lines_p].
  { sim_steps. by apply H. }
  destruct (getmultiline stream) as [[line|] rest]; [|sim_steps; by apply H].
  cbv zeta. destruct (blank_or_comment _); [by apply IH|].
  assert (0 < num_allocated (grow cl)) as Hpos' by (unfold grow; case_match; cbn; lia).
  sim_steps. apply sim_grow; [done|]. intros Hroom. cbn [negb]. sim_steps. apply sim_append_line.
  { unfold grow in *. case_match; done. }
  destruct (parse_config_line _) as [e|]; cbn [negb]; sim_steps; [|by apply H].
  unfold append_entry. rewrite (proj2 (Nat.leb_gt _ _)) by (unfold grow in *; case_match; done).
  sim_steps. by apply IH.
Qed.

Lemma sim_shrink R l cl f (o : outcome C) :
  sim (list_at l (shrink cl) ∗ R) (f tt) o Q →
  sim (list_at l cl ∗ R) (shrink_p l ≫= f) o Q.
Proof.
  intros H. apply sim_open_config. intros p used spare H1 H2. unfold shrink_p, shrink in *. sim_steps.
  pose proof H2 as H2'. rewrite length_app in H2'. destruct (_ <? _) eqn:E.
  - apply Nat.ltb_lt in E. destruct p as [a|].
    2: { sim_front (array_at None (used ++ spare)). apply sim_false. intros h [E' _].
         rewrite E' in H2. cbn in H2. lia. }
    cbn [array_at]. sim_steps.
    match goal with |- context [a ↦ CEntries (used ++ spare)] => sim_front (a ↦ CEntries (used ++ spare)) end.
    destruct (entries cl) as [|e es] eqn:Ee.
    + destruct used; [|done]. unfold realloc_cells. sim_steps. rewrite Nat.eqb_refl. sim_steps.
      eapply sim_pre; [|apply (sim_close_config R l {| entries := []; num_allocated := 0 |} None [] []); [done|done|exact H]].
      cbn [entries num_allocated array_at length app].
      assert (hpure (V:=config_object) ([] = ([] : list entry_p)) ≡h emp) as Hp.
      { intros h. unfold hpure, emp. tauto. }
      rewrite Hp. aac_reflexivity.
    + apply sim_realloc; [done|]. intros a'. sim_steps.
      rewrite take_app_length' by done. rewrite (proj2 (Nat.sub_0_le _ _)) by (rewrite length_app; lia).
      cbn [replicate]. eapply sim_pre; [|apply (sim_close_config R l {| entries := e :: es; num_allocated := length (e :: es) |}
        (Some a') used []); [done|by rewrite app_nil_r|exact H]].
      cbn [entries num_allocated array_at]. aac_reflexivity.
  - apply Nat.ltb_ge in E. sim_steps.
    assert (num_allocated cl = length (entries cl)) as Hn by lia.
    eapply sim_pre; [|apply (sim_close_config R l {| entries := entries cl; num_allocated := length (entries cl) |} p
      used spare); [done|by rewrite <- Hn|exact H]].
    cbn [entries num_allocated]. by rewrite Hn.
Qed.

Lemma sim_parse_config_file R errno_ file l cl f (g : bool * config_entry_list → outcome C) :
  0 < num_allocated cl →
  (∀ ok_ cl', sim (list_at l cl' ∗ R) (f ok_) (g (ok_, cl')) Q) →
  sim (list_at l cl ∗ R) (parse_config_file_p errno_ file l ≫= f) (parse_config_file errno_ file cl ≫= g) Q.
Proof.
  intros Hpos H. unfold parse_config_file_p, parse_config_file.
  destruct (getline file) as [[line stream]|]; [|sim_steps; apply H].
  destruct (match_special_directive _); cbn [negb]; [|sim_steps; apply H]. sim_steps.
  apply sim_parse_lines; [done|]. intros ok_ cl' Hpos'. destruct ok_; cbn [negb]; [|sim_steps; apply H].
  destruct (errno_ =? ENOMEM)%Z; sim_steps; [apply H|]. apply sim_shrink. sim_steps. apply H.
Qed.

(** *** Its end *)

Lemma sim_read_list R l cl f (o : outcome C) :
  sim (list_at l cl ∗ R) (f (entries cl)) o Q → sim (list_at l cl ∗ R) (read_list_p l ≫= f) o Q.
Proof.
  intros H. apply sim_open_config. intros p used spare H1 H2. unfold read_list_p. sim_steps.
  pose proof (sim_read_entries (l ↦ CList p (length (entries cl)) (num_allocated cl) ∗ R) p used (entries cl) []
    spare f o) as Hr.
  cbn [app length] in Hr. rewrite H1 in Hr. eapply sim_pre; [|apply Hr]; [aac_reflexivity|].
  eapply sim_pre; [|by apply (sim_close_config R l cl p used spare)]. aac_reflexivity.
Qed.

Lemma sim_free_config R l cl f (o : outcome C) :
  sim R (f tt) o Q → sim (list_at l cl ∗ R) (free_config_entry_list (Some l) ≫= f) o Q.
Proof.
  intros H. apply sim_open_config. intros p used spare H1 H2. unfold free_config_entry_list. sim_steps.
  pose proof (λ f, sim_clear_entries (l ↦ CList p (length (entries cl)) (num_allocated cl) ∗ R) p used (entries cl) []
    spare f o) as Hr.
  cbn [app length] in Hr. rewrite H1 in Hr. eapply sim_pre; [|apply Hr]; [aac_reflexivity|].
  destruct p as [a|]; cbn [array_at free_ptr].
  - sim_steps. exact H.
  - eapply (sim_weaken (l ↦ CList None (length (entries cl)) (num_allocated cl) ∗ R)); [|by sim_steps].
    intros h (h1 & h2 & -> & _ & [_ ->] & Hh). by rewrite map_empty_union.
Qed.
End Config.

Lemma sim_config_life errno_ file :
  sim emp (config_life errno_ file)
    ('(ok_, cl) ← parse_config_file errno_ file new_config_entry_list; Ret (ok_, entries cl))
    (λ a b, hpure (a = b)).
Proof.
  unfold config_life, new_config_entry_list_p. sim_steps.
  eapply sim_pre; [|apply (sim_close_config _ emp l0 new_config_entry_list (Some l) [] (replicate LIST_DEFAULT_SIZE blank_entry));
    [done|by rewrite length_app, length_replicate|]].
  { cbn [new_config_entry_list entries num_allocated length array_at entries_at app]. aac_reflexivity. }
  apply sim_parse_config_file; [apply (bool_decide_unpack _); by vm_compute|]. intros ok_ cl.
  apply sim_read_list, sim_free_config. apply sim_ret. by intros h ->.
Qed.

(** The parser returns, whatever is in the file. *)
Lemma parse_config_file_returns errno_ file :
  ∃ ok_ cl, parse_config_file errno_ file new_config_entry_list = Ret (ok_, cl).
Proof.
  unfold parse_config_file. destruct (getline file) as [[line stream]|]; [|by do 2 eexists].
  destruct (match_special_directive _); cbn [negb]; [|by do 2 eexists].
  pose proof (parse_lines_spec (S (length stream)) stream new_config_entry_list) as H.
  assert (list_ok new_config_entry_list) as Hok by (split; cbn; unfold LIST_DEFAULT_SIZE; lia).
  destruct (mapM _ _) as [es|]; [destruct (H Hok) as (l & -> & _)|destruct (H Hok) as (l & ->)];
    cbn; [destruct (_ =? _)%Z|]; by do 2 eexists.
Qed.

(** C13: the list of a configuration file in memory.  Whatever is in the file, the list
    is made, filled, read and freed without an access outside an object and without a
    use of a freed one, however often the array grows and also when it shrinks to
    nothing; what is read is what the parser on values finds, whether or not the file can
    be parsed; and nothing is left behind. *)
Theorem config_memory errno_ file h :
  ∃ ok_ cl, parse_config_file errno_ file new_config_entry_list = Ret (ok_, cl) ∧
    config_life errno_ file h = Ret ((ok_, entries cl), h).
Proof.
  destruct (parse_config_file_returns errno_ file) as (ok_ & cl & E). exists ok_, cl. split; [done|].
  pose proof (sim_emp _ _ _ h (sim_config_life errno_ file)) as H. rewrite E in H.
  by destruct H as (a & -> & ->).
Qed.
