(* ===== verification/EnvMem.v ===== *)
(** * Environment arrays in memory (util.c)

    The arrays that minijail_copy_env() makes and minijail_setenv() changes: a
    NULL-terminated array of pointers, and the strings behind them, as objects.  [Util]
    has the same functions on values.  The array that is copied is read by its values. *)

From AAC_tactics Require Import AAC.
From S2P Require Import Prelude CLib Util UtilProps Heap.
Local Open Scope heap_scope.

(** ** Objects *)

Inductive env_object := EStr (s : cstr) | EArr (cells : list (option loc)).

Abbreviation em A := (hm env_object A).

Definition load_arr (l : loc) : em (list (option loc)) :=
  o ← load l; match o with EArr cells => mret cells | _ => undefined end.
Definition load_estr (l : loc) : em cstr :=
  o ← load l; match o with EStr s => mret s | _ => undefined end.

(** array[i] = p *)
Definition store_arr (l : loc) (i : nat) (p : option loc) : em unit :=
  cells ← load_arr l;
  if (i <? length cells)%nat then update l (λ _, EArr (<[i := p]> cells)) else undefined.

(** realloc(3) of an array to [n] cells, more than it has. *)
Definition realloc_arr (l : loc) (n : nat) : em loc :=
  cells ← load_arr l;
  _ ← free l;
  alloc (EArr (take n cells ++ replicate (n - length cells) None)).

(** ** The functions *)

Fixpoint copy_entries (env : list cstr) (copy : loc) (i : nat) : em unit :=
  match env with
  | [] => mret tt
  | entry :: env => s ← alloc (EStr entry); _ ← store_arr copy i (Some s); copy_entries env copy (S i)
  end.

Definition minijail_copy_env_p (env : option (list cstr)) : em loc :=
  match env with
  | None => alloc (EArr [None])
  | Some env =>
      copy ← alloc (EArr (replicate (length env + 1) None));
      _ ← copy_entries env copy 0;
      mret copy
  end.

(** The cells up to the terminator; to run over the end of the array is undefined. *)
Fixpoint free_cells (cells : list (option loc)) : em unit :=
  match cells with
  | [] => undefined
  | None :: _ => mret tt
  | Some s :: cells => _ ← free s; free_cells cells
  end.

Definition minijail_free_env (env : option loc) : em unit :=
  match env with
  | None => mret tt
  | Some l => cells ← load_arr l; _ ← free_cells cells; free l
  end.

(** Whether [name] is found, and where, or else where the terminator is. *)
Fixpoint getenv_index_p (cells : list (option loc)) (name : cstr) (i : nat) : em (bool * nat) :=
  match cells with
  | [] => undefined
  | None :: _ => mret (false, i)
  | Some s :: cells =>
      entry ← load_estr s;
      if env_entry_matches name entry then mret (true, i) else getenv_index_p cells name (S i)
  end.

(** The return value and the array, which may have moved. *)
Definition minijail_setenv_p (env : option loc) (name value : option cstr) (overwrite : bool)
    : em (Z * option loc) :=
  match env, name, value with
  | Some l, Some (c :: n), Some v =>
      let name := c :: n in
      cells ← load_arr l;
      '(found, i) ← getenv_index_p cells name 0;
      if found && negb overwrite then mret (0%Z, env)
      else
        new_entry ← alloc (EStr (name ++ str "=" ++ v));
        if found : bool then
          cells ← load_arr l;
          dest ← target (default None (cells !! i));
          _ ← free dest;
          _ ← store_arr l i (Some new_entry);
          mret (0%Z, env)
        else
          new_env ← realloc_arr l (i + 2);
          _ ← store_arr new_env i (Some new_entry);
          _ ← store_arr new_env (S i) None;
          mret (0%Z, Some new_env)
  | _, _, _ => mret (EINVAL, env)
  end.

(** What a reader finds: the strings up to the terminator. *)
Fixpoint read_cells (cells : list (option loc)) : em (list cstr) :=
  match cells with
  | [] => undefined
  | None :: _ => mret []
  | Some s :: cells => e ← load_estr s; es ← read_cells cells; mret (e :: es)
  end.

(** ** The life of an environment *)

(** Calls of minijail_setenv(): the name, the value, and whether to overwrite. *)
Abbreviation env_call := (option cstr * option cstr * bool)%type.

Fixpoint set_all_p (env : option loc) (calls : list env_call) : em (list Z * option loc) :=
  match calls with
  | [] => mret ([], env)
  | (name, value, overwrite) :: calls =>
      '(r, env) ← minijail_setenv_p env name value overwrite;
      '(rs, env) ← set_all_p env calls;
      mret (r :: rs, env)
  end.

Fixpoint set_all (env : option (list cstr)) (calls : list env_call) : list Z * option (list cstr) :=
  match calls with
  | [] => ([], env)
  | (name, value, overwrite) :: calls =>
      let '(r, env) := minijail_setenv env name value overwrite in
      let '(rs, env) := set_all env calls in
      (r :: rs, env)
  end.

(** Copied, changed, read and freed. *)
Definition env_life (env : option (list cstr)) (calls : list env_call) : em (list Z * list cstr) :=
  l ← minijail_copy_env_p env;
  '(rs, env) ← set_all_p (Some l) calls;
  l ← target env;
  cells ← load_arr l;
  es ← read_cells cells;
  _ ← minijail_free_env env;
  mret (rs, es).

(** ** Ownership *)

Abbreviation assertion_e := (hprop env_object).

Fixpoint strings_at (ls : list loc) (es : list cstr) : assertion_e :=
  match ls, es with
  | [], [] => emp
  | l :: ls, e :: es => l ↦ EStr e ∗ strings_at ls es
  | _, _ => λ _, False
  end.

(** The array with the strings and its terminator. *)
Definition env_cells (ls : list loc) : list (option loc) := (Some <$> ls) ++ [None].
Definition env_at (l : loc) (es : list cstr) : assertion_e := λ h,
  ∃ ls, length ls = length es ∧ (l ↦ EArr (env_cells ls) ∗ strings_at ls es) h.

Lemma strings_at_app ls ls' es es' :
  length ls = length es → strings_at (ls ++ ls') (es ++ es') ≡h strings_at ls es ∗ strings_at ls' es'.
Proof.
  revert es. induction ls as [|l ls IH]; intros [|e es] Hl; try done; cbn [strings_at app].
  - aac_reflexivity.
  - rewrite IH by (cbn in Hl; lia). aac_reflexivity.
Qed.

Section Env.
Context {A C : Type} (Q : A → C → assertion_e).

Lemma sim_nothing (P R : assertion_e) (m : em A) (o : outcome C) :
  (∀ h, P h → False) → sim (P ∗ R) m o Q.
Proof. intros HP h hf (h1 & h2 & _ & _ & H1 & _). by destruct (HP h1). Qed.

Lemma sim_open_env R l es (m : em A) o :
  (∀ ls, length ls = length es → sim (l ↦ EArr (env_cells ls) ∗ strings_at ls es ∗ R) m o Q) →
  sim (env_at l es ∗ R) m o Q.
Proof.
  intros H. apply sim_ex. intros ls. apply sim_and. intros Hl. eapply sim_pre; [|by apply (H ls)]. aac_reflexivity.
Qed.

Lemma sim_close_env R l ls es (m : em A) o :
  length ls = length es → sim (env_at l es ∗ R) m o Q →
  sim (l ↦ EArr (env_cells ls) ∗ strings_at ls es ∗ R) m o Q.
Proof.
  intros Hl. apply (sim_weaken (env_at l es ∗ R)). intros h H.
  apply (sep_mono_l (l ↦ EArr (env_cells ls) ∗ strings_at ls es)).
  - intros h' H'. exists ls. by split.
  - by apply sep_assoc.
Qed.

Lemma sim_store R l cells i p f (o : outcome C) :
  i < length cells → sim (l ↦ EArr (<[i := p]> cells) ∗ R) (f tt) o Q →
  sim (l ↦ EArr cells ∗ R) (store_arr l i p ≫= f) o Q.
Proof.
  intros Hi H. unfold store_arr, load_arr. sim_steps. rewrite (proj2 (Nat.ltb_lt _ _) Hi). by sim_steps.
Qed.

(** *** Copying *)

Lemma sim_copy_entries R env l ls es post f (o : outcome C) :
  length ls = length es → length post = length env →
  (∀ ls', length ls' = length (es ++ env) →
     sim (l ↦ EArr (env_cells ls') ∗ strings_at ls' (es ++ env) ∗ R) (f tt) o Q) →
  sim (l ↦ EArr ((Some <$> ls) ++ post ++ [None]) ∗ strings_at ls es ∗ R) (copy_entries env l (length ls) ≫= f) o Q.
Proof.
  revert ls es post. induction env as [|entry env IH]; intros ls es [|c post] Hl Hp H; try done; cbn [copy_entries].
  - sim_step. rewrite app_nil_r in H. by apply H.
  - sim_steps. match goal with |- context [l ↦ ?v] => sim_front (l ↦ v) end.
    apply sim_store; [rewrite length_app, length_fmap; cbn; lia|].
    rewrite insert_app_r_alt, length_fmap, Nat.sub_diag by (by rewrite length_fmap). cbn [list_insert insert app].
    specialize (IH (ls ++ [l0]) (es ++ [entry]) post). rewrite length_app, Nat.add_1_r, fmap_app, <- !app_assoc in IH.
    eapply sim_pre; [|apply IH; [rewrite length_app; cbn; lia|cbn in Hp; lia|exact H]].
    cbn [fmap list_fmap app]. rewrite strings_at_app by done. cbn [strings_at]. aac_reflexivity.
Qed.

Lemma sim_copy_env R env f (o : outcome C) :
  (∀ l, sim (env_at l (minijail_copy_env env) ∗ R) (f l) o Q) →
  sim R (minijail_copy_env_p env ≫= f) o Q.
Proof.
  intros H. destruct env as [env|]; cbn [minijail_copy_env_p]; sim_steps.
  - rewrite Nat.add_1_r, replicate_S_end. eapply sim_pre; [|apply (sim_copy_entries R env l [] [] (replicate (length env) None));
      [done|by rewrite length_replicate|]].
    + cbn [fmap list_fmap app strings_at]. aac_reflexivity.
    + cbn [app]. intros ls Hls. sim_steps. apply sim_close_env; [done|]. apply H.
  - eapply sim_pre; [|apply (sim_close_env R l [] []); [done|apply H]].
    cbn [env_cells fmap list_fmap app strings_at]. aac_reflexivity.
Qed.

(** *** Searching and setting *)

Lemma sim_getenv_index R ls es name i f (o : outcome C) :
  length ls = length es →
  sim (strings_at ls es ∗ R) (f ((getenv_index es name).1, i + (getenv_index es name).2)) o Q →
  sim (strings_at ls es ∗ R) (getenv_index_p (env_cells ls) name i ≫= f) o Q.
Proof.
  revert ls i R. induction es as [|e es IH]; intros [|l ls] i R Hl H; try done; cbn in Hl.
  - cbn in *. rewrite Nat.add_0_r in H. by sim_step.
  - change (env_cells (l :: ls)) with (Some l :: env_cells ls). cbn [getenv_index_p strings_at getenv_index] in *.
    unfold load_estr. sim_steps. destruct (env_entry_matches name e).
    + sim_steps. cbn in H. rewrite Nat.add_0_r in H. eapply sim_pre; [|exact H]. aac_reflexivity.
    + specialize (IH ls (S i) (l ↦ EStr e ∗ R)). destruct (getenv_index es name) as [found k]. cbn in *.
      rewrite <- plus_n_Sm in H. eapply sim_pre; [|apply IH; [lia|]]; [aac_reflexivity|].
      eapply sim_pre; [|exact H]. aac_reflexivity.
Qed.

Lemma env_cells_middle l1 l l2 : env_cells (l1 ++ l :: l2) = (Some <$> l1) ++ Some l :: env_cells l2.
Proof. unfold env_cells. by rewrite fmap_app, <- app_assoc. Qed.

Lemma sim_setenv R l es name value overwrite f (o : outcome C) :
  (∀ r l' es', minijail_setenv (Some es) name value overwrite = (r, Some es') →
     sim (env_at l' es' ∗ R) (f (r, Some l')) o Q) →
  sim (env_at l es ∗ R) (minijail_setenv_p (Some l) name value overwrite ≫= f) o Q.
Proof.
  intros H. unfold minijail_setenv_p. unfold minijail_setenv in *.
  destruct name as [[|c n]|]; [sim_steps; by apply H| |sim_steps; by apply H].
  destruct value as [v|]; [|sim_steps; by apply H].
  apply sim_open_env. intros ls Hl. cbv zeta. unfold load_arr. sim_steps.
  sim_front (strings_at ls es). apply sim_getenv_index; [done|]. rewrite Nat.add_0_l.
  pose proof (getenv_index_spec es (c :: n)) as Hi. destruct (getenv_index es (c :: n)) as [[] i]; cbn [fst snd andb].
  - destruct overwrite; cbn [negb] in *; sim_steps.
    2: { eapply sim_pre; [|apply (sim_close_env R l ls es); [done|by apply H]]. aac_reflexivity. }
    destruct Hi as (e & He & _ & _). destruct (lookup_lt_is_Some_2 ls i) as [li Hli].
    { rewrite Hl. by eapply lookup_lt_Some. }
    apply list_elem_of_split_length in He as (e1 & e2 & -> & ->).
    apply list_elem_of_split_length in Hli as (l1 & l2 & -> & E1).
    rewrite !length_app in Hl. cbn in Hl. rewrite env_cells_middle, list_lookup_middle by (by rewrite length_fmap).
    cbn [default id]. sim_steps. rewrite strings_at_app by done. cbn [strings_at].
    sim_focus li. sim_steps. match goal with |- context [l ↦ ?v] => sim_front (l ↦ v) end.
    apply sim_store; [rewrite length_app, length_fmap; cbn; lia|]. sim_steps.
    rewrite insert_app_r_alt, length_fmap, E1, Nat.sub_diag by (by rewrite length_fmap, E1).
    rewrite insert_app_r_alt, E1, Nat.sub_diag in * by (by rewrite E1). cbn [list_insert insert] in *.
    eapply sim_pre; [|apply (sim_close_env R l (l1 ++ l0 :: l2) (e1 ++ ((c :: n) ++ str "=" ++ v) :: e2));
      [rewrite !length_app; cbn; lia|by apply H]].
    rewrite env_cells_middle, strings_at_app by done. cbn [strings_at]. aac_reflexivity.
  - destruct Hi as [-> _]. unfold realloc_arr, load_arr. sim_steps.
    assert (length (env_cells ls) = length es + 1) as Hc.
    { unfold env_cells. by rewrite length_app, length_fmap, Hl. }
    rewrite take_ge, Hc by (rewrite Hc; lia). replace (length es + 2 - (length es + 1)) with 1 by lia.
    cbn [replicate].
    match goal with |- context [l1 ↦ ?v] => sim_front (l1 ↦ v) end.
    apply sim_store; [rewrite length_app, Hc; cbn; lia|].
    unfold env_cells. rewrite <- app_assoc. cbn [app].
    rewrite insert_app_r_alt, length_fmap, Hl, Nat.sub_diag by (by rewrite length_fmap, Hl).
    cbn [list_insert insert]. sim_step. apply sim_store; [rewrite length_app, length_fmap; cbn; lia|]. sim_steps.
    rewrite insert_app_r_alt, length_fmap, Hl by (rewrite length_fmap; lia).
    replace (S (length es) - length es) with 1 by lia. cbn [list_insert insert].
    eapply sim_pre; [|apply (sim_close_env R l1 (ls ++ [l0]) (es ++ [(c :: n) ++ str "=" ++ v]));
      [rewrite !length_app; cbn; lia|by apply H]].
    unfold env_cells. rewrite fmap_app, <- app_assoc, strings_at_app by done.
    cbn [fmap list_fmap app strings_at]. aac_reflexivity.
Qed.

(** *** Reading and freeing *)

Lemma sim_read_cells R ls es f (o : outcome C) :
  sim (strings_at ls es ∗ R) (f es) o Q → sim (strings_at ls es ∗ R) (read_cells (env_cells ls) ≫= f) o Q.
Proof.
  revert es R f. induction ls as [|l ls IH]; intros [|e es] R f H; cbn [strings_at] in *;
    try (by apply sim_nothing).
  - cbn. by sim_step.
  - change (env_cells (l :: ls)) with (Some l :: env_cells ls). cbn [read_cells]. unfold load_estr. sim_steps.
    specialize (IH es (l ↦ EStr e ∗ R)). eapply sim_pre; [|apply IH; sim_steps; eapply sim_pre; [|exact H]].
    all: aac_reflexivity.
Qed.

Lemma sim_free_cells R ls es f (o : outcome C) :
  sim R (f tt) o Q → sim (strings_at ls es ∗ R) (free_cells (env_cells ls) ≫= f) o Q.
Proof.
  revert es. induction ls as [|l ls IH]; intros [|e es] H; cbn [strings_at]; try (by apply sim_nothing).
  - cbn. eapply sim_pre; [|sim_step; exact H]. aac_reflexivity.
  - change (env_cells (l :: ls)) with (Some l :: env_cells ls). cbn [free_cells]. sim_steps.
    eapply sim_pre; [|exact (IH es H)]. aac_reflexivity.
Qed.

Lemma sim_set_all R calls l es f (o : outcome C) :
  (∀ rs l' es', set_all (Some es) calls = (rs, Some es') → sim (env_at l' es' ∗ R) (f (rs, Some l')) o Q) →
  sim (env_at l es ∗ R) (set_all_p (Some l) calls ≫= f) o Q.
Proof.
  revert l es f. induction calls as [|[[name value] overwrite] calls IH]; intros l es f H; cbn [set_all_p set_all] in *.
  - sim_steps. by apply H.
  - sim_step. apply sim_setenv. intros r l' es' E. rewrite E in H. sim_step. apply IH.
    intros rs l'' es'' E2. rewrite E2 in H. sim_steps. by apply H.
Qed.
End Env.

Lemma sim_env_life env calls :
  sim emp (env_life env calls)
    (let '(rs, env') := set_all (Some (minijail_copy_env env)) calls in Ret (rs, default [] env'))
    (λ a b, hpure (a = b)).
Proof.
  unfold env_life. eapply sim_pre; [|apply (sim_copy_env _ emp)]; [aac_reflexivity|]. intros l.
  apply sim_set_all. intros rs l' es ->. sim_steps. apply sim_open_env. intros ls Hl. unfold load_arr. sim_steps.
  sim_front (strings_at ls es). apply sim_read_cells. unfold minijail_free_env, load_arr. sim_steps.
  sim_front (strings_at ls es). apply sim_free_cells. sim_steps.
  eapply (sim_pre emp); [aac_reflexivity|]. apply sim_ret. by intros h ->.
Qed.

(** C14: the environment of the child in memory.  An environment that is copied, changed
    by any calls of minijail_setenv(), also with null pointers and empty names, and freed
    reads as the calls on values say, each with its return code, without an access
    outside the arrays, and leaves nothing behind: an entry that is replaced is freed and
    an array that grows keeps its terminator. *)
Theorem env_memory env calls h :
  env_life env calls h =
    (let '(rs, env') := set_all (Some (minijail_copy_env env)) calls in Ret ((rs, default [] env'), h)).
Proof.
  pose proof (sim_emp _ _ _ h (sim_env_life env calls)) as H.
  destruct (set_all _ calls) as [rs env']. by destruct H as (a & -> & ->).
Qed.
