(* ===== verification/TablesProps.v ===== *)
(** * The names a policy may use

    The generated tables of linux-x86 seen from the policy compiler: every system call
    and every constant they list can be used in a policy, and the policy that allows a
    set of listed system calls compiles to the filter that allows exactly that set. *)

From S2P Require Import Prelude CLib Util UtilProps Bpf BpfMachine BpfCompare SyscallFilter Policy FilterCorrect FilterComplete.
From S2P Require Import Tables ConfigProps.
Local Open Scope Z_scope.

(** ** The names *)

Definition word_char (c : ascii) : bool :=
  isalpha c || is_decimal c || bool_decide (c = "_"%char).

(** A name as the tables list them: a C identifier that fits a label. *)
Definition wordb (s : cstr) : bool :=
  negb (bool_decide (s = [])) && negb (head_decimal s) && forallb word_char s &&
  (length s <=? MAX_BPF_LABEL_LEN)%nat.

Lemma syscall_names_words : forallb (λ n, wordb (str n)) syscall_names = true.
Proof. vm_compute. reflexivity. Qed.

Lemma syscall_names_NoDup : NoDup syscall_names.
Proof. apply (bool_decide_unpack _). vm_compute. exact I. Qed.

Lemma constant_names_words :
  forallb (λ n, negb (bool_decide (str n = [])) && forallb word_char (str n)) constant_names = true.
Proof. vm_compute. reflexivity. Qed.

#[local] Opaque syscall_names constant_names.
#[local] Typeclasses Opaque syscall_names constant_names.

Lemma word_char_not c d : word_char c → word_char d = false → c ≠ d.
Proof. intros H1 H2 ->. by rewrite H2 in H1. Qed.

Lemma word_not_in (s : cstr) d : forallb word_char s = true → word_char d = false → d ∉ s.
Proof.
  intros H Hd Hin. rewrite forallb_forall in H. apply list_elem_of_In, H in Hin. congruence.
Qed.

Lemma syscall_name_word n : n ∈ syscall_names →
  str n ≠ [] ∧ head_decimal (str n) = false ∧ forallb word_char (str n) = true ∧
  (length (str n) <= MAX_BPF_LABEL_LEN)%nat.
Proof.
  intros Hn. pose proof syscall_names_words as H. rewrite forallb_forall in H.
  apply list_elem_of_In, H in Hn. unfold wordb in Hn. rewrite !andb_true_iff, !negb_true_iff in Hn.
  destruct Hn as [[[H1 H2] H3] H4]. apply Nat.leb_le in H4. by apply bool_decide_eq_false in H1.
Qed.

Lemma constant_name_word n :
  n ∈ constant_names → str n ≠ [] ∧ forallb word_char (str n) = true.
Proof.
  intros Hn. pose proof constant_names_words as H. rewrite forallb_forall in H.
  apply list_elem_of_In, H in Hn. rewrite andb_true_iff, negb_true_iff in Hn.
  destruct Hn as [H1 H2]. by apply bool_decide_eq_false in H1.
Qed.

(** ** Entries that allow *)

Lemma eval_allow_entries d es dflt :
  Forall (λ e, e.(e_rule) = RAllow) es →
  eval_entries d es dflt =
    Some (if bool_decide (u32 d.(sd_nr) ∈ (λ e, u32 e.(e_nr)) <$> es) then Allow else dflt).
Proof.
  induction 1 as [|e es He _ IH]; [done|]. cbn [eval_entries]. destruct (Z.eqb_spec (u32 (sd_nr d)) (u32 (e_nr e))).
  - rewrite He, bool_decide_true; [done|]. rewrite fmap_cons. set_solver.
  - rewrite IH, fmap_cons. f_equal.
    by rewrite (bool_decide_ext (_ ∈ _ :: _) (u32 (sd_nr d) ∈ (λ e, u32 (e_nr e)) <$> es)) by set_solver.
Qed.

(** ** The tables in a build *)

Section Build.
Context {B : BuildConfig}.
Variable macro : string → option Z.

Definition nr_of (n : string) : option Z := macro ("__NR_" +:+ n).

(** What the kernel headers promise: the numbers of the listed system calls are
    distinct, and those of an [int]. *)
Record headers_ok : Prop := {
  hdr_range : ∀ n nr, n ∈ syscall_names → nr_of n = Some nr → 0 <= nr < 2 ^ 31;
  hdr_inj : ∀ n n' nr, n ∈ syscall_names → n' ∈ syscall_names →
    nr_of n = Some nr → nr_of n' = Some nr → n = n';
}.

Hypothesis Hhdr : headers_ok.
Hypothesis Hsys : syscall_table = x86_syscall_table macro.

Lemma elem_of_table (names : list string) p :
  p ∈ omap (syscall_entry macro) names → ∃ n nr, n ∈ names ∧ nr_of n = Some nr ∧ p = (str n, nr).
Proof.
  intros (n & Hn & H)%list_elem_of_omap. unfold syscall_entry in H. fold (nr_of n) in H.
  destruct (nr_of n) as [nr|] eqn:E; [|done]. injection H as <-. eauto.
Qed.

Lemma table_numbers_NoDup (names : list string) :
  names ⊆ syscall_names → NoDup names → NoDup (omap (syscall_entry macro) names).*2.
Proof.
  destruct Hhdr as [_ Hinj]. intros Hsub. induction 1 as [|n names Hno _ IH]; [constructor|]. cbn.
  unfold syscall_entry at 1. fold (nr_of n). destruct (nr_of n) as [nr|] eqn:E; [|apply IH; set_solver]. cbn.
  constructor; [|apply IH; set_solver]. intros (p & Hnr & Hp)%list_elem_of_fmap.
  apply elem_of_table in Hp as (n' & nr' & Hn' & E' & ->). cbn in Hnr. subst nr'.
  rewrite (Hinj n n' nr) in Hno; set_solver.
Qed.

Lemma x86_table_ok : table_ok.
Proof.
  destruct Hhdr as [Hrange _]. split; rewrite Hsys; unfold x86_syscall_table.
  - apply list.Forall_forall. intros p (n & nr & Hn & _ & ->)%elem_of_table. cbn.
    by destruct (syscall_name_word n Hn) as (_ & ? & _ & ?).
  - apply list.Forall_forall. intros p (n & nr & Hn & E & ->)%elem_of_table. cbn.
    by eapply Hrange.
  - apply table_numbers_NoDup; [done|apply syscall_names_NoDup].
Qed.

Lemma lookup_syscall_names k (names : list string) n nr :
  names ⊆ syscall_names → n ∈ names → nr_of n = Some nr →
  ∃ ind, lookup_syscall_from k (omap (syscall_entry macro) names) (str n) = (nr, ind).
Proof.
  destruct Hhdr as [Hrange _]. revert k; induction names as [|m names IH]; intros k Hsub Hn E; [set_solver|].
  cbn. unfold syscall_entry at 1. fold (nr_of m). destruct (nr_of m) as [nr'|] eqn:E'; cbn.
  - assert (0 <= nr') as H0 by (eapply Hrange; [|exact E']; set_solver).
    rewrite (proj2 (Z.ltb_ge _ _)) by done. unfold streq. case_bool_decide as Eq.
    + apply (inj str) in Eq as ->. rewrite E in E'. injection E' as <-. by eexists.
    + apply IH; [set_solver| |done]. apply elem_of_cons in Hn as [->|?]; done.
  - apply IH; [set_solver| |done]. apply elem_of_cons in Hn as [->|?]; [congruence|done].
Qed.

(** A listed system call is found, under its number. *)
Lemma lookup_syscall_x86 n nr :
  n ∈ syscall_names → nr_of n = Some nr → ∃ ind, lookup_syscall (str n) = (nr, ind).
Proof. unfold lookup_syscall. rewrite Hsys. by apply lookup_syscall_names. Qed.

(** ** Lists of allowed system calls *)

Definition allow_line (n : string) : cstr := str n ++ str ": 1".

(** The policy file that allows [names]: one line each. *)
Definition allowlist (names : list string) : list ascii := mjoin ((λ n, allow_line n ++ [NL]) <$> names).

Definition listed (n : string) : Prop := n ∈ syscall_names ∧ is_Some (nr_of n).

Definition allow_entry (n : string) : entry :=
  {| e_nr := (lookup_syscall (str n)).1; e_ind := (lookup_syscall (str n)).2; e_rule := RAllow |}.

Lemma allow_line_last n : list.last (allow_line n) = Some "1"%char.
Proof. unfold allow_line. change (str ": 1") with (str ": " ++ ["1"%char]). by rewrite app_assoc, last_snoc. Qed.

Lemma allow_line_not_in n d : n ∈ syscall_names → word_char d = false → d ∉ str ": 1" → d ∉ allow_line n.
Proof.
  intros (_ & _ & Hw & _)%syscall_name_word Hd Hs. unfold allow_line. rewrite not_elem_of_app.
  split; [by apply word_not_in|done].
Qed.

Lemma allow_line_head n : n ∈ syscall_names → ∃ c r, allow_line n = c :: r ∧ word_char c.
Proof.
  intros (Hne & _ & Hw & _)%syscall_name_word. unfold allow_line. destruct (str n) as [|c r]; [done|].
  cbn in Hw. apply andb_true_iff in Hw as [Hc _]. exists c, (r ++ str ": 1"). split; [done|]. by rewrite Hc.
Qed.

Lemma isblank_word c : word_char c → isblank c = false.
Proof.
  intros Hc. unfold isblank. apply bool_decide_eq_false. intros [->| ->]; by vm_compute in Hc.
Qed.

Lemma allow_line_plain n : n ∈ syscall_names → plain (allow_line n).
Proof.
  intros Hn. destruct (allow_line_head n Hn) as (c & r & Hc & Hw). split.
  - by rewrite Hc.
  - apply allow_line_not_in; [done|done|]. by apply (bool_decide_unpack _).
  - apply allow_line_not_in; [done|done|]. by apply (bool_decide_unpack _).
  - rewrite Hc. intros d [= <-]. by apply isblank_word.
  - rewrite allow_line_last. by intros d [= <-].
Qed.

Lemma split_allow_line n : n ∈ syscall_names → split_policy_line (allow_line n) = Some (str n, str "1").
Proof.
  intros Hn. destruct (syscall_name_word n Hn) as (Hne & _ & Hw & _). unfold split_policy_line, strsep, allow_line.
  change (str ": 1") with (":"%char :: str " 1"). rewrite strchr_split_app by (by apply word_not_in).
  change (strip (str " 1")) with (str "1"). rewrite bool_decide_false by done. f_equal. f_equal.
  rewrite forallb_forall in Hw. apply strip_id.
  - intros c Hc. apply isblank_word. destruct (str n); [done|]. injection Hc as ->. rewrite Hw; [done|by left].
  - intros c Hc. apply last_Some_elem_of, list_elem_of_In, Hw in Hc. unfold strippable_right.
    rewrite isblank_word by (by rewrite Hc). apply bool_decide_eq_false. intros ->. by vm_compute in Hc.
Qed.

Lemma allowlist_cons n (names : list string) :
  allowlist (n :: names) = allow_line n ++ NL :: allowlist names.
Proof. unfold allowlist. rewrite fmap_cons. cbn [mjoin list_join]. by rewrite <- app_assoc. Qed.

Lemma lines_of_allowlist (names : list string) :
  Forall listed names → lines_of (allowlist names) = allow_line <$> names.
Proof.
  induction 1 as [|n names [Hn _] _ IH]; [done|]. rewrite allowlist_cons, fmap_cons.
  pose proof (allow_line_plain n Hn) as Hp. pose proof Hp as [_ Hnl Hnul _ _].
  rewrite lines_of_line; [|done|by rewrite allow_line_last]. by rewrite IH, c_str_plain, strip_plain.
Qed.

Lemma read_allow_line inc opts n : listed n → read_line inc opts (allow_line n) = Some [allow_entry n].
Proof.
  intros [Hn [nr Hnr]]. destruct (allow_line_head n Hn) as (c & r & Hc & Hw).
  destruct (lookup_syscall_x86 n nr Hn Hnr) as [ind Hl].
  assert (0 <= nr) as H0 by (by eapply hdr_range).
  unfold read_line. rewrite Hc. cbn [head list.head].
  rewrite !bool_decide_false; [|intros [= ->]; by vm_compute in Hw|done|intros [= ->]; by vm_compute in Hw].
  cbn [orb]. rewrite <- Hc. unfold read_entry, allow_entry. rewrite split_allow_line by done. cbn.
  rewrite Hl. by rewrite (proj2 (Z.ltb_ge _ _)).
Qed.

Lemma read_allowlist fs opts (names : list string) :
  Forall listed names → read_policy fs opts (allowlist names) = Some (allow_entry <$> names).
Proof.
  intros Hl. unfold read_policy, read_lines. rewrite lines_of_allowlist by done.
  set (inc := Some _). assert (mapM (read_line inc opts) (allow_line <$> names) =
    Some ((λ n, [allow_entry n]) <$> names)) as ->.
  { apply mapM_Some. induction Hl as [|n names Hn _ IH]; constructor; [by apply read_allow_line|done]. }
  cbn. f_equal. clear. induction names as [|n names IH]; [done|]. cbn. by f_equal.
Qed.

Lemma allow_entries_NoDup (names : list string) :
  Forall listed names → NoDup names → NoDup (e_ind <$> (allow_entry <$> names)).
Proof.
  intros Hl Hnd. rewrite <- list_fmap_compose. apply NoDup_fmap_2_strong; [|done].
  rewrite list.Forall_forall in Hl. intros n n' [Hn [nr Hnr]]%Hl [Hn' [nr' Hnr']]%Hl. cbn.
  destruct (lookup_syscall_x86 n nr Hn Hnr) as [ind Hi], (lookup_syscall_x86 n' nr' Hn' Hnr') as [ind' Hi'].
  rewrite Hi, Hi'. cbn. intros ->.
  destruct (lookup_syscall_from_found _ _ _ _ _ Hi) as (i & E1 & L1); [by apply (hdr_range Hhdr n)|].
  destruct (lookup_syscall_from_found _ _ _ _ _ Hi') as (i' & E2 & L2); [by apply (hdr_range Hhdr n')|].
  assert (i = i') as -> by lia. rewrite L1 in L2. injection L2 as E _. by apply (inj str) in E.
Qed.

(** The numbers a filter for [names] allows, with those syslog(3) needs. *)
Definition allowed_numbers (opts : filter_options) (names : list string) : list Z :=
  (if opts.(allow_syscalls_for_logging) then (λ n, (lookup_syscall n).1) <$> log_syscalls else [])
  ++ omap nr_of names.

Lemma allow_entry_numbers opts (names : list string) :
  Forall listed names →
  e_nr <$> (logging_entries opts ++ (allow_entry <$> names)) = allowed_numbers opts names.
Proof.
  intros Hl. unfold allowed_numbers, logging_entries. rewrite fmap_app. f_equal.
  - by destruct (allow_syscalls_for_logging opts).
  - induction Hl as [|n names [Hn [nr Hnr]] _ IH]; [done|]. cbn. rewrite Hnr, <- IH.
    by destruct (lookup_syscall_x86 n nr Hn Hnr) as [ind ->].
Qed.

Lemma allow_entries_allow opts (names : list string) :
  Forall (λ e, e.(e_rule) = RAllow) (logging_entries opts ++ (allow_entry <$> names)).
Proof.
  apply list.Forall_app. split; [|by apply list.Forall_fmap, list.Forall_true].
  unfold logging_entries. destruct (allow_syscalls_for_logging opts); [by repeat constructor|constructor].
Qed.

Lemma allow_entries_size opts (names : list string) :
  Forall listed names → NoDup names →
  (policy_len opts (allow_entry <$> names) <= BPF_MAXINSNS)%nat ∧ policy_labels (allow_entry <$> names) = [].
Proof.
  intros Hl Hnd. assert (length names <= 352)%nat as Hlen.
  { replace 352%nat with (length syscall_names) by (vm_compute; reflexivity).
    apply submseteq_length, NoDup_submseteq; [done|]. intros n Hn.
    by apply (proj1 (list.Forall_forall _ _) Hl). }
  assert (args_len (allow_entry <$> names) = 0%nat) as Ha by (clear; induction names; done).
  assert (length (logging_entries opts) <= 4)%nat as Hlog.
  { unfold logging_entries. destruct (allow_syscalls_for_logging opts); cbn; lia. }
  split.
  - unfold policy_len, BPF_MAXINSNS. rewrite length_app, length_fmap, Ha. lia.
  - clear. induction names as [|n names IH]; [done|]. by rewrite fmap_cons, policy_labels_cons, IH.
Qed.
End Build.

(** ** Constants *)

Lemma uwrap_lor w a b : 0 <= w → uwrap w (Z.lor a b) = Z.lor (uwrap w a) (uwrap w b).
Proof. intros Hw. unfold uwrap. rewrite <- !Z.land_ones by done. apply Z.land_lor_distr_l. Qed.

Lemma u64_s64 z : u64 (s64 z) = u64 z.
Proof. unfold uwrap, swrap. rewrite Zminus_mod_idemp_l. f_equal. lia. Qed.

Lemma uwrap_idemp w z : uwrap w (uwrap w z) = uwrap w z.
Proof. apply Zmod_mod. Qed.

Lemma strtok_word c w rest : w ≠ [] → c ∉ w → strtok c (w ++ c :: rest) = Some (w, rest).
Proof.
  intros Hne Hc. unfold strtok. destruct w as [|x w]; [done|]. cbn [app skip_char].
  rewrite bool_decide_false by set_solver.
  pose proof (strchr_split_app c (x :: w) rest Hc) as Hs. cbn [app] in Hs. by rewrite Hs.
Qed.

Lemma strtok_last c w : w ≠ [] → c ∉ w → strtok c w = Some (w, []).
Proof.
  intros Hne Hc. unfold strtok. destruct w as [|x w]; [done|]. cbn [skip_char].
  rewrite bool_decide_false by set_solver. by rewrite (proj2 (strchr_split_None c (x :: w))).
Qed.

(** The operators of minijail0(5): the text, the number that bpf.h gives it, and the
    relation of the argument to the constant. *)
Definition operators : list (cstr * Z * (Z → Z → bool)) :=
  [(str "==", 128, λ v c, v =? c); (str "!=", 129, λ v c, negb (v =? c));
   (str "<", 130, λ v c, v <? c); (str "<=", 131, λ v c, v <=? c);
   (str ">", 132, λ v c, c <? v); (str ">=", 133, λ v c, c <=? v);
   (str "&", 134, λ v c, negb (Z.land v c =? 0)); (str "in", 135, λ v c, Z.ldiff v c =? 0)].

(** The kernel's comparison of a 64-bit argument is the relation of the operator. *)
Lemma operators_eval op code holds v c :
  (op, code, holds) ∈ operators → 0 <= v < 2 ^ 64 →
  str_to_op op = code ∧ MIN_OPERATOR <= code ∧ eval_op code v c = holds v c.
Proof.
  intros Hop Hv.
  assert (Z.land v (u64 (Z.lnot c)) = Z.ldiff v c) as Hin.
  { unfold uwrap. rewrite <- Z.land_ones, (Z.land_comm (Z.lnot c)), Z.land_assoc, Z.land_ones by lia.
    by rewrite Z.mod_small, Z.ldiff_land. }
  repeat (apply elem_of_cons in Hop as [E|Hop];
    [injection E as -> -> ->; split_and!; [reflexivity|unfold MIN_OPERATOR; lia|
       first [reflexivity|etrans; [reflexivity|]; by rewrite <- Hin]]|]).
  by apply elem_of_nil in Hop.
Qed.

(** The text of a comparison. *)
Definition atom_text (i : Z) (op constant : cstr) : cstr :=
  str "arg" ++ fmt_d i ++ SPACE :: op ++ SPACE :: constant.

Section Constants.
Context {B : BuildConfig}.
Variable macro : string → option Z.
Hypothesis Hconst : constant_table = x86_constant_table macro.

Definition defined_as (n : string) (v : Z) : Prop := n ∈ constant_names ∧ macro n = Some v.

Lemma lookup_constant_names (names : list string) n v :
  n ∈ names → macro n = Some v → lookup_constant (omap (constant_entry macro) names) (str n) = Some (u64 v).
Proof.
  induction names as [|m names IH]; intros Hn E; [set_solver|]. cbn. unfold constant_entry at 1.
  apply elem_of_cons in Hn as [<-|Hn].
  - rewrite E. cbn. unfold streq. by rewrite bool_decide_true.
  - destruct (macro m) as [v'|] eqn:E'; [|by apply IH]. cbn. unfold streq. case_bool_decide as Eq; [|by apply IH].
    apply (inj str) in Eq as ->. congruence.
Qed.

Lemma parse_single_constant_x86 n v : defined_as n v → parse_single_constant (str n) = Some (s64 (u64 v)).
Proof.
  intros [Hn E]. unfold parse_single_constant. rewrite Hconst. unfold x86_constant_table.
  by rewrite (lookup_constant_names _ _ _ Hn E).
Qed.

Lemma defined_plain n v : defined_as n v → plain_constant (str n).
Proof.
  intros Hd. pose proof (parse_single_constant_x86 n v Hd) as Hp. destruct Hd as [Hn _].
  destruct (constant_name_word n Hn) as [Hne Hw]. split_and!; [by eexists|done|].
  apply list.Forall_forall. intros c Hc Hin. rewrite forallb_forall in Hw.
  apply list_elem_of_In, Hw in Hc. unfold str in Hin. cbn in Hin.
  repeat (apply elem_of_cons in Hin as [->|Hin]; [by vm_compute in Hc|]). set_solver.
Qed.

Definition flag_terms (names : list string) : list cterm := (λ n, CSingle false (str n)) <$> names.

Lemma print_flag_terms (names : list string) : print_terms (flag_terms names) = join (str "|") (str <$> names).
Proof. unfold print_terms, flag_terms. by rewrite <- list_fmap_compose. Qed.

Lemma flag_terms_wf names vs : Forall2 defined_as names vs → wf_terms (flag_terms names).
Proof. induction 1; [done|]. split; [by eapply defined_plain|done]. Qed.

Lemma flag_terms_value names vs acc acc' :
  Forall2 defined_as names vs → u64 acc = u64 acc' →
  u64 (foldl Z.lor acc (eval_term <$> flag_terms names)) = u64 (foldl Z.lor acc' vs).
Proof.
  intros H. revert acc acc'; induction H as [|n v names vs Hn _ IH]; intros acc acc' E; [done|].
  cbn. apply IH. rewrite (parse_single_constant_x86 n v Hn). cbn.
  by rewrite !uwrap_lor, E, u64_s64, uwrap_idemp by lia.
Qed.

(** Listed constants joined by bars stand for the disjunction of their values. *)
Lemma parse_flags names vs :
  names ≠ [] → Forall2 defined_as names vs →
  ∃ z, parse_constant (join (str "|") (str <$> names)) = Some z ∧ u64 z = u64 (foldl Z.lor 0 vs).
Proof.
  intros Hne Hd. pose proof (flag_terms_wf names vs Hd) as Hw. rewrite <- print_flag_terms.
  pose proof (print_terms_nonempty (flag_terms names) ltac:(by destruct names) Hw) as Hl.
  eexists. split; [|by apply flag_terms_value]. unfold parse_constant.
  destruct (print_terms (flag_terms names)) eqn:E; [simpl in Hl; lia|]. rewrite <- E.
  apply parse_loop_terms; [done|]. rewrite E. simpl. lia.
Qed.

Lemma flags_no_space names vs : Forall2 defined_as names vs → SPACE ∉ join (str "|") (str <$> names).
Proof.
  induction 1 as [|n v names vs [Hn _] Hs IH]; [set_solver|]. destruct (constant_name_word n Hn) as [_ Hw].
  apply (word_not_in _ SPACE) in Hw; [|done]. destruct names as [|m names]; [done|].
  change (SPACE ∉ str n ++ str "|" ++ join (str "|") (str <$> m :: names)).
  rewrite !not_elem_of_app. split_and!; [done| |done]. by apply (bool_decide_unpack _).
Qed.

Lemma flags_nonempty names vs :
  names ≠ [] → Forall2 defined_as names vs → join (str "|") (str <$> names) ≠ [].
Proof.
  intros Hne Hd. rewrite <- print_flag_terms. intros E.
  pose proof (print_terms_nonempty (flag_terms names) ltac:(by destruct names) (flag_terms_wf names vs Hd)) as Hl.
  rewrite E in Hl. simpl in Hl. lia.
Qed.
End Constants.

(** ** Properties *)

(** C30: every system call the x86 table lists can be allowed: a policy with one line
    "name: 1" for each of any number of listed system calls compiles, and the filter
    answers "allow" for exactly these (and those syslog(3) needs, when asked for) and the
    default action for every other, on the right architecture; another is killed. *)
Theorem allowlist_policy {B : BuildConfig} macro fs opts filename names :
  headers_ok macro → syscall_table = x86_syscall_table macro →
  Forall (listed macro) names → NoDup names →
  (opts.(action) = ACTION_RET_LOG → opts.(allow_logging) = true) →
  ∃ prog, compile_filter fs opts (Some filename) (Some (allowlist names)) = Ret (Some prog) ∧
    ∀ d, bpf_run d prog = Some (verdict_code
      (if u32 d.(sd_arch) =? MINIJAIL_ARCH_NR then
         if bool_decide (u32 d.(sd_nr) ∈ u32 <$> allowed_numbers macro opts names) then Allow
         else action_verdict opts.(action)
       else Kill)).
Proof.
  intros Hhdr Hsys Hl Hnd Hact.
  pose proof (read_allowlist macro Hhdr Hsys fs opts names Hl) as Hread.
  destruct (allow_entries_size macro opts names Hl Hnd) as [Hlen Hlab].
  destruct (compile_filter_succeeds (x86_table_ok macro Hhdr Hsys) fs opts filename (allowlist names)
    (allow_entry <$> names)) as (prog & E & _);
    [done|by eapply allow_entries_NoDup|done|done|by rewrite Hlab; simpl; lia|].
  exists prog. split; [done|]. intros d. destruct (compile_filter_run _ _ _ _ _ E) as (es & Hes & _ & _ & ->).
  rewrite Hread in Hes. injection Hes as <-. unfold eval_policy. destruct (_ =? _); [|done].
  rewrite eval_allow_entries by apply allow_entries_allow. cbn. do 2 f_equal.
  rewrite <- (allow_entry_numbers macro Hhdr Hsys) by done. by rewrite <- list_fmap_compose.
Qed.

(** C39: every constant the x86 table lists can be used in a comparison: the text of an
    argument, an operator and listed constants joined by bars is parsed to the comparison
    of that argument with the disjunction of the constants' values, under the number
    that bpf.h gives the operator, and with that number the comparison means what the
    manual says of the operator: equality, the unsigned orders, a common bit (&), or no
    bit outside the constant (in). *)
Theorem flags_atom {B : BuildConfig} macro i op code holds names vs :
  constant_table = x86_constant_table macro →
  0 <= i <= 5 → (op, code, holds) ∈ operators → names ≠ [] → Forall2 (defined_as macro) names vs →
  let c := u64 (foldl Z.lor 0 vs) in
  parse_atom (atom_text i op (join (str "|") (str <$> names))) =
    Some {| at_argidx := i; at_op := code; at_const := c |} ∧
  ∀ v, 0 <= v < 2 ^ 64 → eval_op code v c = holds v c.
Proof.
  intros Hconst Hi Hop Hne Hd c. split; [|intros v Hv; by eapply operators_eval].
  pose proof (flags_no_space macro Hconst names vs Hd) as Hsp.
  pose proof (flags_nonempty macro Hconst names vs Hne Hd) as Hnil.
  destruct (parse_flags macro Hconst names vs Hne Hd) as (z & Hz & Hu).
  set (flags := join _ _) in *. unfold parse_atom, atom_text. rewrite app_assoc.
  assert (i ∈ [0; 1; 2; 3; 4; 5]) as Hin by (rewrite !elem_of_cons; lia).
  assert (∃ w, str "arg" ++ fmt_d i = w ∧ SPACE ∉ w ∧ w ≠ [] ∧ strncmp_eq w (str "arg") 3 = true ∧
    strtol (drop 3 w) 10 = (i, [], false) ∧ drop 3 w ≠ [] ∧ s32 i = i) as (w & -> & Hw & Hwn & Harg & Hnum & Hd3 & Hs).
  { repeat (apply elem_of_cons in Hin as [->|Hin]; [eexists; split_and!; [reflexivity|..]; try done;
      by apply (bool_decide_unpack _)|]). set_solver. }
  destruct (operators_eval op code holds 0 c Hop ltac:(lia)) as (Hcode & Hmin & _).
  assert (SPACE ∉ op ∧ op ≠ []) as (Ho & Hon).
  { repeat (apply elem_of_cons in Hop as [E|Hop]; [injection E as -> -> ->; by split; [apply (bool_decide_unpack _)|]|]).
    by apply elem_of_nil in Hop. }
  rewrite !strtok_word, strtok_last by done. cbn [strtok skip_char].
  rewrite Harg, Hnum. cbn [negb]. rewrite bool_decide_false by (intros E; by rewrite <- E in Hd3).
  cbn [negb orb]. rewrite bool_decide_true by done. by rewrite Hcode, (proj2 (Z.ltb_ge _ _) Hmin), Hz, Hs, Hu.
Qed.

(** ** A build for examples *)

(** Headers that number the listed system calls in the order of the table. *)
Definition example_macro (m : string) : option Z :=
  match list_find (λ n, m = "__NR_" +:+ n) syscall_names with
  | Some (i, _) => Some (Z.of_nat i)
  | None => if bool_decide (m = "O_CREAT") then Some 64
            else if bool_decide (m = "O_EXCL") then Some 128
            else if bool_decide (m = "WCHAR_MIN") then Some (-2147483648) else None
  end.

Definition x86_config : BuildConfig := {|
  syscall_table := x86_syscall_table example_macro;
  constant_table := x86_constant_table example_macro;
  debug_logging_allowed := true;
  seccomp_default_ret_log := false;
  block_symlinks_in_bindmount_paths := false;
  block_symlinks_in_noninit_mountns_tmp := false;
  bindmount_allowed_prefixes := [];
  seccomp_can_softfail := false;
  allow_duplicate_syscalls := false;
  running_with_asan := false;
  preloadpath := str "/lib/libminijailpreload.so";
  default_pivot_root := str "/var/empty";
  block_noexec_conf := false;
  enforce_rootfs_conf := true;
|}.

Lemma example_macro_index n nr :
  nr_of example_macro n = Some nr → ∃ i, nr = Z.of_nat i ∧ syscall_names !! i = Some n.
Proof.
  unfold nr_of, example_macro. destruct (list_find _ _) as [[i y]|] eqn:E.
  - apply list_find_Some in E as (Hy & En & _). intros [= <-]. exists i. split; [done|].
    apply (inj (String.append "__NR_")) in En. by subst.
  - intros H. repeat (case_bool_decide as X; [discriminate X|]). done.
Qed.

Lemma example_headers_ok : headers_ok example_macro.
Proof.
  split.
  - intros n nr _ (i & -> & Hi%lookup_lt_Some)%example_macro_index.
    replace (length syscall_names) with 352%nat in Hi by (vm_compute; reflexivity). lia.
  - intros n n' nr _ _ (i & -> & Hi)%example_macro_index (i' & E & Hi')%example_macro_index.
    assert (i = i') as -> by lia. congruence.
Qed.

Lemma allowlist_policy_witness :
  ∃ prog, compile_filter (B := x86_config) (λ _, None) example_opts (Some (str "p"))
            (Some (str "read: 1" ++ NL :: str "exit_group: 1" ++ [NL])) = Ret (Some prog) ∧
    bpf_run (example_data 0 0 0) prog = Some 0x7fff0000 ∧ bpf_run (example_data 2 0 0) prog = Some 0x80000000.
Proof.
  destruct (allowlist_policy (B := x86_config) example_macro (λ _, None) example_opts (str "p")
    ["read"; "exit_group"]%string) as (prog & E & H).
  - exact example_headers_ok.
  - reflexivity.
  - repeat (constructor; [split; [apply (bool_decide_unpack _); vm_compute; exact I|]|]); try done;
      apply (bool_decide_unpack (is_Some _)); vm_compute; exact I.
  - apply (bool_decide_unpack _). vm_compute. exact I.
  - done.
  - exists prog. split; [exact E|]. split; (etrans; [apply H|]); vm_compute; reflexivity.
Defined.

Lemma flags_atom_witness :
  parse_atom (B := x86_config) (str "arg2 in O_CREAT|WCHAR_MIN") =
    Some {| at_argidx := 2; at_op := IN; at_const := 0xffffffff80000040 |} ∧
  eval_op IN 0x80000040 0xffffffff80000040 = true ∧ eval_op IN 0x41 0xffffffff80000040 = false.
Proof.
  destruct (flags_atom (B := x86_config) example_macro 2 (str "in") 135 (λ v c, Z.ldiff v c =? 0)
             ["O_CREAT"; "WCHAR_MIN"]%string [64; -2147483648]) as [H1 H2].
  - reflexivity.
  - lia.
  - do 7 right. left.
  - discriminate.
  - repeat (constructor; [split; [apply (bool_decide_unpack _); vm_compute; exact I|vm_compute; reflexivity]|]).
    constructor.
  - split; [etrans; [apply H1|]; vm_compute; reflexivity|].
    split; (etrans; [apply H2; lia|]); vm_compute; reflexivity.
Defined.

(** A full label table: the entry label of one more system call is -1, which
    [compile_file] does not notice, and resolving it reads outside the table. *)
Definition crowded_policy : list ascii :=
  str "read: arg0 == 0" ++ mjoin (replicate (Z.to_nat 299) (str " || arg0 == 0")) ++ [NL] ++
  mjoin ((λ n, str n ++ str ": return 1" ++ [NL]) <$> take (Z.to_nat 211) (drop 1 syscall_names)).

Definition crowded_config : BuildConfig := {|
  syscall_table := imap (λ i n, (str n, Z.of_nat i)) syscall_names;
  constant_table := [];
  debug_logging_allowed := true;
  seccomp_default_ret_log := false;
  block_symlinks_in_bindmount_paths := false;
  block_symlinks_in_noninit_mountns_tmp := false;
  bindmount_allowed_prefixes := [];
  seccomp_can_softfail := false;
  allow_duplicate_syscalls := false;
  running_with_asan := false;
  preloadpath := [];
  default_pivot_root := [];
  block_noexec_conf := false;
  enforce_rootfs_conf := true;
|}.

#[local] Arguments kind_of _ : simpl never.
#[local] Arguments resolve_one _ _ _ : simpl never.

Lemma resolve_from_outside labels off pre i j :
  kind_of i = KLabel → kind_of j = KPlain → Z.of_nat (length labels) <= i.(k) →
  resolve_from labels off (pre ++ [i; j]) = Undef.
Proof.
  intros Hi Hj Hk. revert off; induction pre as [|x pre IH]; intros off; cbn; [|by rewrite IH].
  assert (resolve_one labels (S off) j = Ret (Some (labels, j))) as -> by (unfold resolve_one; by rewrite Hj).
  cbn. unfold resolve_one. by rewrite Hi, lookup_ge_None_2 by lia.
Qed.

Lemma link_filter_outside (head : fblocks) arg_blocks labels prog pre i j :
  prog = mjoin (M:=list) head ++ mjoin (M:=list) (default [] arg_blocks) → prog = pre ++ [i; j] →
  (length prog <= BPF_MAXINSNS)%nat → kind_of i = KLabel → kind_of j = KPlain →
  Z.of_nat (length labels) <= i.(k) → link_filter head arg_blocks labels = Undef.
Proof.
  intros Hp Hs Hl Hi Hj Hk. rewrite link_filter_spec, <- Hp. cbv zeta.
  rewrite (proj2 (Nat.ltb_ge _ _)) by done. rewrite Hs, resolve_from_outside by done. done.
Qed.

(** The state behind the last line: a full table, a program the kernel would take, and
    the label -1 of the last line in front of its return. *)
Definition crowded_state (r : Z) (c : compiler) : bool :=
  let prog := mjoin (default [] (append_final c.(c_head) example_opts)) ++ mjoin (default [] c.(c_arg_blocks)) in
  (r =? 0) && (length c.(c_labels) =? BPF_LABELS_MAX)%nat && (length prog <=? BPF_MAXINSNS)%nat &&
  bool_decide (drop (length prog - 2) prog = [set_bpf_lbl (u32 (-1)); set_bpf_ret_errno 1]).

Lemma crowded_compiles :
  match compile_file (B := crowded_config) (λ _, None) example_opts 0 (Some (str "p")) crowded_policy
          (initial_compiler (B := crowded_config) example_opts) with
  | Ret (r, c) => crowded_state r c
  | _ => false
  end = true.
Proof. vm_compute. reflexivity. Qed.

Example label_table_full :
  compile_filter (B := crowded_config) (λ _, None) example_opts (Some (str "p")) (Some crowded_policy) = Undef.
Proof.
  pose proof crowded_compiles as H. revert H.
  destruct (compile_file _ _ _ _ _ _) as [[r c]| |] eqn:E; [|discriminate..]. intros H.
  unfold crowded_state in H. rewrite !andb_true_iff, bool_decide_eq_true, Z.eqb_eq, Nat.eqb_eq, Nat.leb_le in H.
  destruct H as [[[-> Hlab] Hlen] Htail].
  assert (action example_opts = ACTION_RET_LOG → allow_logging example_opts = true) as Hact by done.
  rewrite (compile_filter_link (B := crowded_config) _ _ _ _ _ _ E (append_final_total _ example_opts Hact)).
  rewrite (append_final_total _ example_opts Hact) in Htail, Hlen. cbn [default] in Htail, Hlen.
  eapply link_filter_outside; [reflexivity| |exact Hlen|..].
  - rewrite <- Htail. symmetry. apply take_drop.
  - done.
  - done.
  - rewrite Hlab. by vm_compute.
Qed.
