(* ===== verification/Elfparse.v ===== *)
(** * elfparse.c

    Whether a program is linked statically or dynamically, from the bytes of its
    file.  The host is little-endian, as in the rest of the development. *)

From S2P Require Import Prelude CLib Codec.
Local Open Scope Z_scope.

Inductive ElfType := ELFERROR | ELFSTATIC | ELFDYNAMIC.

#[export] Instance ElfType_eq_dec : EqDecision ElfType.
Proof. solve_decision. Defined.

Definition HEADERSIZE : nat := 128.
Definition PT_INTERP : Z := 3.
Definition EI_CLASS : nat := 4.
Definition EI_DATA : nat := 5.
Definition ELFCLASS32 : Z := 1.
Definition ELFCLASS64 : Z := 2.
Definition ELFDATA2LSB : Z := 1.
Definition ELFDATA2MSB : Z := 2.

(** Where the fields of the two packed headers are: the offset and the width of
    e_phoff, the offsets of e_phentsize and e_phnum, and the size of a program
    header, whose first four bytes are p_type. *)
Record layout := {
  phoff_at : nat;
  phoff_width : nat;
  phentsize_at : nat;
  phnum_at : nat;
  sizeof_phdr : nat;
}.

Definition layout64 : layout :=
  {| phoff_at := 32; phoff_width := 8; phentsize_at := 54; phnum_at := 56; sizeof_phdr := 56 |}.
Definition layout32 : layout :=
  {| phoff_at := 28; phoff_width := 4; phentsize_at := 42; phnum_at := 44; sizeof_phdr := 32 |}.

Definition byte_at (buf : list ascii) (i : nat) : Z := default 0 (code_of <$> buf !! i).

Definition is_elf_magic (buf : list ascii) : bool :=
  (byte_at buf 0 =? 0x7f) && (byte_at buf 1 =? 69) && (byte_at buf 2 =? 76) && (byte_at buf 3 =? 70).

(** A field converted to the byte order of the host. *)
Definition field (little_endian : bool) (buf : list ascii) (at_ width : nat) : Z :=
  let bs := take width (drop at_ buf) in
  le_value (if little_endian then bs else rev bs).

(** The loop over [n] program headers from the current position of the file on;
    p_type is compared as it lies in memory. *)
Fixpoint scan_phdrs (l : layout) (n : nat) (stream : list ascii) : ElfType :=
  match n with
  | O => ELFSTATIC
  | S n =>
      if (length stream <? sizeof_phdr l)%nat then ELFERROR
      else if le_value (take 4 stream) =? PT_INTERP then ELFDYNAMIC
      else scan_phdrs l n (drop (sizeof_phdr l) stream)
  end.

(** fseek(3) takes a signed offset. *)
Definition parseElf (l : layout) (file pHead : list ascii) (little_endian : bool) : ElfType :=
  let e_phoff := field little_endian pHead (phoff_at l) (phoff_width l) in
  let e_phentsize := field little_endian pHead (phentsize_at l) 2 in
  let e_phnum := field little_endian pHead (phnum_at l) 2 in
  if negb (e_phentsize =? Z.of_nat (sizeof_phdr l)) then ELFERROR
  else if s64 e_phoff <? 0 then ELFERROR
  else scan_phdrs l (Z.to_nat e_phnum) (drop (Z.to_nat e_phoff) file).

(** The file, or [None] when it cannot be opened. *)
Definition get_elf_linkage (elf_file : option (list ascii)) : ElfType :=
  match elf_file with
  | None => ELFERROR
  | Some file =>
      let pHeader := take HEADERSIZE file in
      if (length pHeader =? HEADERSIZE)%nat then
        if is_elf_magic pHeader then
          let data := byte_at pHeader EI_DATA in
          let class := byte_at pHeader EI_CLASS in
          if (data =? ELFDATA2LSB) && (class =? ELFCLASS64) then parseElf layout64 file pHeader true
          else if (data =? ELFDATA2MSB) && (class =? ELFCLASS64) then parseElf layout64 file pHeader false
          else if (data =? ELFDATA2LSB) && (class =? ELFCLASS32) then parseElf layout32 file pHeader true
          else if (data =? ELFDATA2MSB) && (class =? ELFCLASS32) then parseElf layout32 file pHeader false
          else ELFERROR
        else ELFDYNAMIC
      else ELFDYNAMIC
  end.
