(* ===== verification/ElfProps.v ===== *)
(** * What get_elf_linkage() decides

    The scan over the program headers as a statement about all of them. *)

From S2P Require Import Prelude CLib Codec Elfparse.
Local Open Scope Z_scope.

(** ** What is decided *)

(** The type of the program header [i], as the host reads it. *)
Definition p_type (l : layout) (stream : list ascii) (i : nat) : Z :=
  le_value (take 4 (drop (i * sizeof_phdr l) stream)).

(** Whether one of [n] headers names an interpreter. *)
Definition has_interp (l : layout) (stream : list ascii) (n : nat) : bool :=
  existsb (λ i, p_type l stream i =? PT_INTERP) (seq 0 n).

Lemma existsb_seq_S (f : nat → bool) k n : existsb f (seq (S k) n) = existsb (λ i, f (S i)) (seq k n).
Proof. revert k. induction n as [|n IH]; intros k; cbn; [done|]. by rewrite IH. Qed.

Lemma existsb_ext {A} (f g : A → bool) xs : (∀ x, f x = g x) → existsb f xs = existsb g xs.
Proof. intros H. induction xs as [|x xs IH]; cbn; [done|]. by rewrite H, IH. Qed.

Lemma p_type_S l stream i : p_type l stream (S i) = p_type l (drop (sizeof_phdr l) stream) i.
Proof. unfold p_type. by rewrite drop_drop. Qed.

Lemma has_interp_S l stream n :
  has_interp l stream (S n) = (p_type l stream 0 =? PT_INTERP) || has_interp l (drop (sizeof_phdr l) stream) n.
Proof.
  unfold has_interp. cbn [seq existsb]. f_equal. rewrite existsb_seq_S. apply existsb_ext.
  intros i. by rewrite p_type_S.
Qed.

(** The scan ends at the first header that names an interpreter, or is not there. *)
Lemma scan_phdrs_spec l n stream :
  (0 < sizeof_phdr l)%nat →
  let complete := (length stream / sizeof_phdr l)%nat in
  scan_phdrs l n stream =
  if has_interp l stream (n `min` complete) then ELFDYNAMIC
  else if (n <=? complete)%nat then ELFSTATIC else ELFERROR.
Proof.
  intros Hl. cbv zeta. revert stream. induction n as [|n IH]; intros stream; [done|]. cbn [scan_phdrs].
  destruct (_ <? _)%nat eqn:E.
  - apply Nat.ltb_lt in E. by rewrite Nat.div_small.
  - apply Nat.ltb_ge in E.
    assert (length stream / sizeof_phdr l = S (length (drop (sizeof_phdr l) stream) / sizeof_phdr l))%nat as ->.
    { rewrite length_drop. replace (length stream) with (length stream - sizeof_phdr l + 1 * sizeof_phdr l)%nat at 1 by lia.
      rewrite Nat.div_add by lia. lia. }
    rewrite <- Nat.succ_min_distr, has_interp_S. change (le_value (take 4 stream)) with (p_type l stream 0).
    destruct (_ =? PT_INTERP); [done|]. cbn [orb]. by rewrite IH.
Qed.

(** A file of at least 128 bytes that begins as an ELF file of 64 or 32 bits, in
    little-endian or big-endian order. *)
Record elf_header (file : list ascii) (is64 little_endian : bool) : Prop := {
  eh_size : (HEADERSIZE <= length file)%nat;
  eh_magic : is_elf_magic file = true;
  eh_class : byte_at file EI_CLASS = if is64 then ELFCLASS64 else ELFCLASS32;
  eh_data : byte_at file EI_DATA = if little_endian then ELFDATA2LSB else ELFDATA2MSB;
}.

Definition layout_of (is64 : bool) : layout := if is64 then layout64 else layout32.

Lemma byte_at_take file n i : (i < n)%nat → byte_at (take n file) i = byte_at file i.
Proof. intros H. unfold byte_at. by rewrite lookup_take_lt. Qed.

(** C35: the linkage of an ELF file.  The headers that count are the e_phnum ones at
    e_phoff, both read in the file's byte order; of these the ones the file is long
    enough for are looked at, in order, and the file is dynamic exactly when one of
    them has the type PT_INTERP in the host's byte order (so that the types of a
    big-endian file are read backwards); it is an error when headers are missing
    and none before them has that type, when a header has another size than the
    format's, and when the offset does not fit fseek(3). *)
Theorem get_elf_linkage_spec file is64 little_endian :
  elf_header file is64 little_endian →
  let l := layout_of is64 in
  let num at_ width := field little_endian (take HEADERSIZE file) at_ width in
  let phnum := Z.to_nat (num (phnum_at l) 2%nat) in
  let phdrs := drop (Z.to_nat (num (phoff_at l) (phoff_width l))) file in
  let complete := (length phdrs / sizeof_phdr l)%nat in
  get_elf_linkage (Some file) =
  if (num (phentsize_at l) 2%nat =? Z.of_nat (sizeof_phdr l)) && (0 <=? s64 (num (phoff_at l) (phoff_width l))) then
    if has_interp l phdrs (phnum `min` complete) then ELFDYNAMIC
    else if (phnum <=? complete)%nat then ELFSTATIC else ELFERROR
  else ELFERROR.
Proof.
  intros [Hsize Hmagic Hclass Hdata]. cbv zeta.
  rewrite <- scan_phdrs_spec by (destruct is64; cbn; lia).
  assert (get_elf_linkage (Some file) = parseElf (layout_of is64) file (take HEADERSIZE file) little_endian) as ->.
  { unfold get_elf_linkage. rewrite length_take_le by done. rewrite Nat.eqb_refl.
    unfold is_elf_magic in *. rewrite !byte_at_take by (unfold HEADERSIZE, EI_DATA, EI_CLASS; lia).
    rewrite Hmagic, Hclass, Hdata. by destruct is64, little_endian. }
  unfold parseElf. destruct (_ =? _); cbn [negb andb]; [|done]. rewrite Z.leb_antisym.
  by destruct (s64 _ <? 0).
Qed.

(** A 64-bit big-endian file of 128 bytes with one header of the type PT_INTERP. *)
Definition big_endian_file : list ascii :=
  ascii_of_nat <$> ([127; 69; 76; 70; 2; 2] ++ repeat 0 33 ++ [64] ++ repeat 0 15 ++ [56; 0; 1] ++ repeat 0 6 ++
                    [0; 0; 0; 3] ++ repeat 0 60)%nat.

Lemma get_elf_linkage_spec_witness :
  length big_endian_file = 128%nat ∧ get_elf_linkage (Some big_endian_file) = ELFSTATIC.
Proof.
  split; [reflexivity|]. rewrite (get_elf_linkage_spec big_endian_file true false); [vm_compute; reflexivity|].
  split; [apply Nat.leb_le; reflexivity|reflexivity|reflexivity|reflexivity].
Defined.
