(* ===== verification/Cli.v ===== *)
(** * minijail0_cli.c

    The values of the options of the command line, the names of the options, and
    what --gen-config writes; ParseArgs has the options themselves.  The messages of
    errx(3) are not modelled; it ends the process. *)

From S2P Require Import Prelude CLib Util Bpf OS System Jail Codec Marshal Enter ConfigParser Elfparse.
Local Open Scope Z_scope.

Definition DEFAULT_TMP_SIZE : Z := 64 * 1024 * 1024.
Definition IDMAP_LEN : nat := 32.
Definition RLIM_INFINITY : Z := ULONG_MAX.
Definition CAP_SETGID : Z := 6.

(** A C function that reads its string argument. *)
Definition deref {A} (arg : option cstr) (f : cstr → io A) : io A :=
  match arg with Some s => f s | None => IUndef end.

(** Whether a number fills the whole argument. *)
Definition whole_number (arg : cstr) : option Z :=
  let '(v, end_, _) := strtoul arg 10 in
  match end_, arg with [], _ :: _ => Some (u32 v) | _, _ => None end.

(** The jail and the user and group chosen. *)
Definition set_user (j : minijail) (arg : cstr) (g : Z) : io (minijail * Z * Z) :=
  match whole_number arg with
  | Some u => j ← lift (minijail_change_uid j u); mret (j, u, g)
  | None =>
      r ← lookup_user arg;
      match r with
      | inl _ => IDie
      | inr (u, g) =>
          '(ret, j) ← minijail_change_user j arg;
          if negb (ret =? 0) then IDie else mret (j, u, g)
      end
  end.

Definition group_of (arg : cstr) : io Z :=
  match whole_number arg with
  | Some g => mret g
  | None => r ← lookup_group arg; match r with inl _ => IDie | inr g => mret g end
  end.

Definition set_group (j : minijail) (arg : cstr) : io (minijail * Z) :=
  g ← group_of arg;
  j ← lift (minijail_change_gid j g);
  mret (j, g).

Definition suppl_group_add (suppl_gids : list Z) (arg : cstr) : io (list Z) :=
  g ← group_of arg; mret (suppl_gids ++ [g]).

(** A hexadecimal mask with nothing behind it. *)
Definition hex_mask (arg : cstr) : io Z :=
  let '(v, end_, _) := strtoul arg 16 in
  match end_ with [] => mret v | _ => IDie end.

Definition skip_securebits (j : minijail) (arg : cstr) : io minijail :=
  mask ← hex_mask arg; mret (minijail_skip_setting_securebits j mask).

(** The next [n] capabilities that libcap finds set; a shift by 64 or more is
    undefined. *)
Fixpoint parsed_caps (n : nat) (i caps_ : Z) : io Z :=
  match n with
  | O => mret caps_
  | S n =>
      a ← call (CapGetFlag i);
      if negb (rv a =? 0) then
        if eno a =? EINVAL then parsed_caps n (i + 1) caps_ else IDie
      else if bool_decide (head (nums a) = Some 1) then
        if 64 <=? i then IUndef else parsed_caps n (i + 1) (Z.lor caps_ (Z.shiftl 1 i))
      else parsed_caps n (i + 1) caps_
  end.

Definition use_caps (j : minijail) (arg : cstr) : io minijail :=
  a ← call (CapFromText arg);
  caps_ ← (if negb (rv a =? 0) then
             last_valid_cap ← get_last_valid_cap;
             c ← parsed_caps (Z.to_nat (last_valid_cap + 1)) 0 0;
             _ ← call CapFree;
             mret c
           else hex_mask arg);
  mret (minijail_use_caps j caps_).

Section Cli.
Context {B : BuildConfig}.

Definition add_binding (j : minijail) (arg : option cstr) : io minijail :=
  let '(src, arg) := tokenize arg (str ",") in
  let '(dest, arg) := tokenize arg (str ",") in
  let '(flags_, arg) := tokenize arg (str ",") in
  match src with
  | None | Some [] => IDie
  | Some src =>
      if bool_decide (is_Some arg) then IDie
      else
        let dest := match dest with None | Some [] => src | Some d => d end in
        writable ← match flags_ with
                   | None | Some [] => mret false
                   | Some f => if streq f (str "0") then mret false
                               else if streq f (str "1") then mret true else IDie
                   end;
        '(ret, j) ← minijail_bind j src dest writable;
        if negb (ret =? 0) then IDie else mret j
  end.

Definition rlimit_value (s : cstr) : io Z :=
  if streq s (str "unlimited") then mret RLIM_INFINITY
  else
    let '(v, end_, _) := strtoul s 0 in
    match end_ with [] => mret v | _ => IDie end.

Definition add_rlimit (j : minijail) (arg : option cstr) : io minijail :=
  let '(type, arg) := tokenize arg (str ",") in
  let '(cur, arg) := tokenize arg (str ",") in
  let '(max, arg) := tokenize arg (str ",") in
  match type, cur, max, arg with
  | Some (_ :: _ as type), Some (_ :: _ as cur), Some (_ :: _ as max), None =>
      cur ← rlimit_value cur;
      max ← rlimit_value max;
      match parse_single_constant type with
      | None => IDie
      | Some resource =>
          let '(ret, j) := minijail_rlimit_ j (s32 resource) cur max in
          if negb (ret =? 0) then IDie else mret j
      end
  | _, _, _, _ => IDie
  end.

(** The data keeps its own commas: what is left of the argument is put back. *)
Definition add_mount (j : minijail) (arg : option cstr) : io minijail :=
  let '(src, arg) := tokenize arg (str ",") in
  let '(dest, arg) := tokenize arg (str ",") in
  let '(type, arg) := tokenize arg (str ",") in
  let '(flags_, arg) := tokenize arg (str ",") in
  let '(data, arg) := tokenize arg (str ",") in
  match src, dest, type with
  | Some (_ :: _ as src), Some (_ :: _ as dest), Some (_ :: _ as type) =>
      let data := match data, arg with
                  | Some d, Some rest => Some (d ++ str "," ++ rest)
                  | _, _ => data
                  end in
      mountflags ← match flags_ with
                   | None | Some [] => mret 0
                   | Some f => match parse_constant f with
                               | None => IDie
                               | Some v => mret (u64 v)
                               end
                   end;
      let '(ret, j) := minijail_mount_with_data j src dest type mountflags data in
      if negb (ret =? 0) then IDie else mret j
  | _, _, _ => IDie
  end.

(** The ids are unsigned but printed as ints. *)
Definition build_idmap (id lowerid : Z) : io cstr :=
  let s := fmt_d (s32 id) ++ str " " ++ fmt_d (s32 lowerid) ++ str " 1" in
  if (IDMAP_LEN <=? length s)%nat then IDie else mret s.

Definition has_cap_setgid : io bool :=
  a ← call (CapGetBound CAP_SETGID);
  if rv a <? 0 then mret false
  else
    a ← call CapGetProc;
    if rv a =? 0 then IDie
    else
      f ← call (CapGetFlag CAP_SETGID);
      if negb (rv f =? 0) then IDie
      else
        a ← call CapFree;
        if negb (rv a =? 0) then IDie else mret (bool_decide (head (nums f) = Some 1)).

Definition or_exit (r : Z * minijail) : io minijail := if negb (r.1 =? 0) then IDie else mret r.2.

Definition set_ugid_mapping (j : minijail) (set_uidmap : bool) (u : Z) (uidmap_ : option cstr)
    (set_gidmap : bool) (g : Z) (gidmap_ : option cstr) : io minijail :=
  j ← (if set_uidmap then
         let j := minijail_namespace_pids (minijail_namespace_user j) in
         m ← match uidmap_ with
             | Some m => mret m
             | None => a ← call Getuid; build_idmap u (rv a)
             end;
         or_exit (minijail_uidmap j m)
       else mret j);
  if set_gidmap then
    let j := minijail_namespace_pids (minijail_namespace_user j) in
    m ← match gidmap_ with
        | Some m => mret m
        | None => a ← call Getgid; build_idmap g (rv a)
        end;
    can ← has_cap_setgid;
    let j := if can : bool then j else minijail_namespace_user_disable_setgroups j in
    or_exit (minijail_gidmap j m)
  else mret j.

Definition use_chroot (j : minijail) (path : option cstr) (pivot_root : bool) : io minijail :=
  if pivot_root then IDie else deref path (λ p, or_exit (minijail_enter_chroot j p)).

Definition use_pivot_root (j : minijail) (path : option cstr) (chroot : bool) : io minijail :=
  if chroot then IDie
  else deref path (λ p, j ← or_exit (minijail_enter_pivot_root j p); mret (minijail_namespace_vfs j)).

Definition bind_or_exit (j : minijail) (path : cstr) : io minijail :=
  r ← minijail_bind j path path false; or_exit r.

(** The jail and the size of /tmp. *)
Definition use_profile (j : minijail) (profile : cstr) (chroot : bool) (tmp_size : Z)
    : io (minijail * Z) :=
  if streq profile (str "minimalistic-mountns") || streq profile (str "minimalistic-mountns-nodev") then
    let j := minijail_namespace_vfs j in
    j ← bind_or_exit j (str "/");
    j ← bind_or_exit j (str "/proc");
    j ← (if streq profile (str "minimalistic-mountns")
         then (j ← bind_or_exit j (str "/dev/log"); mret (minijail_mount_dev j)) else mret j);
    let tmp_size := if tmp_size =? 0 then DEFAULT_TMP_SIZE else tmp_size in
    let j := minijail_set_using_minimalistic_mountns (minijail_remount_proc_readonly j) in
    j ← use_pivot_root j (Some default_pivot_root) chroot;
    mret (j, tmp_size)
  else IDie.

Definition set_remount_mode (j : minijail) (mode : cstr) : io minijail :=
  if streq mode (str "shared") then mret (minijail_remount_mode j MS_SHARED)
  else if streq mode (str "private") then mret (minijail_remount_mode j MS_PRIVATE)
  else if streq mode (str "slave") then mret (minijail_remount_mode j MS_SLAVE)
  else if streq mode (str "unbindable") then mret (minijail_remount_mode j MS_UNBINDABLE)
  else IDie.

(** The number of instructions is an unsigned short. *)
Definition read_seccomp_filter (filter_path : cstr) : io (list sock_filter) :=
  a ← call (FopenRead filter_path);
  match bytes a with
  | None => IDie
  | Some content =>
      let filter_size := Z.of_nat (length content) in
      if negb (filter_size mod 8 =? 0) then IDie
      else mret (dec_array c_instr (Z.to_nat (u16 (filter_size / 8))) content)
  end.

Definition set_seccomp_filters (j : minijail) (filter_path : cstr) : io minijail :=
  f ← read_seccomp_filter filter_path; minijail_set_seccomp_filters j f.

(** The environment of the child after --env-add. *)
Definition set_child_env (envp : option (list cstr)) (arg : cstr) (environ : list cstr)
    : io (option (list cstr)) :=
  match strchr_split "=" arg with
  | None => IDie
  | Some (name, env_value) =>
      let envp := match envp with None => Some (minijail_copy_env (Some environ)) | e => e end in
      let '(r, envp) := minijail_setenv envp (Some name) (Some env_value) true in
      if negb (r =? 0) then IDie else mret envp
  end.

(** ** The options *)

(** The options that only have a long name. *)
Inductive long_opt :=
  | OPT_ADD_SUPPL_GROUP | OPT_ALLOW_SPECULATIVE_EXECUTION | OPT_AMBIENT | OPT_CONFIG | OPT_ENV_ADD
  | OPT_ENV_RESET | OPT_ENABLE_PROFILE_FS_RESTRICTIONS | OPT_FS_DEFAULT_PATHS | OPT_FS_PATH_RX
  | OPT_FS_PATH_RO | OPT_FS_PATH_RW | OPT_FS_PATH_ADVANCED_RW | OPT_GEN_CONFIG | OPT_LOGGING
  | OPT_NO_DEFAULT_RUNTIME | OPT_NO_FS_RESTRICTIONS | OPT_PRELOAD_LIBRARY | OPT_PROFILE
  | OPT_SECCOMP_BPF_BINARY | OPT_UTS.

(** What getopt returns: a character, or a number out of the range of bytes. *)
Inductive opt := Short (c : ascii) | Long (l : long_opt).

#[export] Instance long_opt_eq_dec : EqDecision long_opt.
Proof. solve_decision. Defined.
#[export] Instance opt_eq_dec : EqDecision opt.
Proof. solve_decision. Defined.

Definition optstring : cstr :=
  str "+a:b:c:de::f:g:hik:lm::nprst::u:vwyzB:C:GHIK::LM::NP:R:S:T:UV:Y".

Definition config_flag_name : cstr := str "config".
Definition gen_config_flag_name : cstr := str "gen-config".

Definition long_options : list (cstr * opt) := [
  (str "help", Short "h"); (str "mount-dev", Short "d"); (str "ambient", Long OPT_AMBIENT);
  (str "uts", Long OPT_UTS); (str "logging", Long OPT_LOGGING); (str "profile", Long OPT_PROFILE);
  (str "preload-library", Long OPT_PRELOAD_LIBRARY);
  (str "seccomp-bpf-binary", Long OPT_SECCOMP_BPF_BINARY);
  (str "add-suppl-group", Long OPT_ADD_SUPPL_GROUP);
  (str "allow-speculative-execution", Long OPT_ALLOW_SPECULATIVE_EXECUTION);
  (config_flag_name, Long OPT_CONFIG); (gen_config_flag_name, Long OPT_GEN_CONFIG);
  (str "env-add", Long OPT_ENV_ADD); (str "env-reset", Long OPT_ENV_RESET);
  (str "mount", Short "k"); (str "bind-mount", Short "b"); (str "ns-mount", Short "v");
  (str "enable-profile-fs-restrictions", Long OPT_ENABLE_PROFILE_FS_RESTRICTIONS);
  (str "fs-default-paths", Long OPT_FS_DEFAULT_PATHS); (str "fs-path-rx", Long OPT_FS_PATH_RX);
  (str "fs-path-ro", Long OPT_FS_PATH_RO); (str "fs-path-rw", Long OPT_FS_PATH_RW);
  (str "fs-path-advanced-rw", Long OPT_FS_PATH_ADVANCED_RW);
  (str "no-default-runtime-environment", Long OPT_NO_DEFAULT_RUNTIME);
  (str "no-fs-restrictions", Long OPT_NO_FS_RESTRICTIONS)].

Fixpoint find_long (key_ : cstr) (opts : list (cstr * opt)) : option opt :=
  match opts with
  | [] => None
  | (name, val) :: rest => if streq key_ name then Some val else find_long key_ rest
  end.

(** The option a configuration entry stands for; its value is the argument. *)
Definition getopt_from_conf (e : config_entry) : outcome opt :=
  match find_long e.(key) long_options with
  | Some val => Ret val
  | None =>
      match e.(key) with
      | [c] => if isalpha c && bool_decide (is_Some (strchr_split c optstring)) then Ret (Short c) else Die
      | _ => Die
      end
  end.

Fixpoint getname_from (o : opt) (opts : list (cstr * opt)) : option cstr :=
  match opts with
  | [] => None
  | (name, val) :: rest => if bool_decide (o = val) then Some name else getname_from o rest
  end.

Definition getname_from_opt (o : opt) : option cstr := getname_from o long_options.

(** The name under which an option is tracked. *)
Definition opt_name (o : opt) : cstr :=
  match getname_from_opt o with
  | Some name => name
  | None => match o with Short c => [c] | Long _ => [] end
  end.

(** ** Generating a configuration file *)

(** struct option_entry *)
Record option_entry := { oe_name : cstr; oe_args : option cstr }.

Definition track (o : opt) (optarg : option cstr) : option_entry :=
  {| oe_name := opt_name o; oe_args := optarg |}.

Definition gen_entry (r : option_entry) : cstr :=
  if streq r.(oe_name) config_flag_name || streq r.(oe_name) gen_config_flag_name then []
  else match r.(oe_args) with
       | None => r.(oe_name) ++ [NL]
       | Some a => r.(oe_name) ++ str " = " ++ a ++ [NL]
       end.

Definition gen_config (rs : list option_entry) : cstr :=
  directive ++ [NL] ++ mjoin (gen_entry <$> rs).
End Cli.
