(* ===== verification/ParseArgs.v ===== *)
(** * parse_args() and main() of minijail0

    The options in the order in which they arrive from the command line and from
    configuration files, what is checked and set up after the last of them
    (minijail0_cli.c), and the program itself (minijail0.c).  getopt_long(3) is not
    modelled: the options of the command line are a list of options with their
    arguments, then the words behind them.  An option that requires an argument has
    one on the command line, but not always in a configuration file: a NULL
    argument that the source reads is undefined behaviour here too. *)

From S2P Require Import Prelude CLib Util Bpf OS System Jail Codec Marshal Enter Fds Run.
From S2P Require Import ConfigParser Elfparse Cli.
Local Open Scope Z_scope.

Section ParseArgs.
Context {B : BuildConfig}.

(** ** Parsing the options *)

Inductive seccomp_type := None_ | Strict | Filter | BpfBinaryFilter.

#[export] Instance seccomp_type_eq_dec : EqDecision seccomp_type.
Proof. solve_decision. Defined.

Record cli := {
  c_seccomp : seccomp_type;
  c_use_seccomp_filter : bool;
  c_use_seccomp_filter_binary : bool;
  c_use_seccomp_log : bool;
  c_forward : bool;
  c_binding : bool;
  c_chroot : bool;
  c_pivot_root : bool;
  c_mount_ns : bool;
  c_change_remount : bool;
  c_remount_mode_ : option cstr;
  c_inherit_suppl_gids : bool;
  c_keep_suppl_gids : bool;
  c_caps_ : bool;
  c_ambient_caps : bool;
  c_use_uid : bool;
  c_use_gid : bool;
  c_uid_ : Z;
  c_gid_ : Z;
  c_suppl_gids : list Z;
  c_uidmap_ : option cstr;
  c_gidmap_ : option cstr;
  c_set_uidmap : bool;
  c_set_gidmap : bool;
  c_tmp_size : Z;
  c_filter_path : option cstr;
  c_log_to_stderr : Z;
  c_parse_mode : bool;
  c_opt_entries : list option_entry;
  c_config_path : option cstr;
  c_fs_path_flag_used : bool;
  c_fs_path_rules_enabled : bool;
  c_exit_immediately : bool;
  c_elftype : ElfType;
  c_preload_path_ : option cstr;
  c_envp : option (list cstr);
}.

#[export] Instance eta_cli : Eta cli := λ c, {|
  c_seccomp := c.(c_seccomp); c_use_seccomp_filter := c.(c_use_seccomp_filter); c_use_seccomp_filter_binary := c.(c_use_seccomp_filter_binary);
  c_use_seccomp_log := c.(c_use_seccomp_log); c_forward := c.(c_forward); c_binding := c.(c_binding);
  c_chroot := c.(c_chroot); c_pivot_root := c.(c_pivot_root); c_mount_ns := c.(c_mount_ns);
  c_change_remount := c.(c_change_remount); c_remount_mode_ := c.(c_remount_mode_); c_inherit_suppl_gids := c.(c_inherit_suppl_gids);
  c_keep_suppl_gids := c.(c_keep_suppl_gids); c_caps_ := c.(c_caps_); c_ambient_caps := c.(c_ambient_caps);
  c_use_uid := c.(c_use_uid); c_use_gid := c.(c_use_gid); c_uid_ := c.(c_uid_);
  c_gid_ := c.(c_gid_); c_suppl_gids := c.(c_suppl_gids); c_uidmap_ := c.(c_uidmap_);
  c_gidmap_ := c.(c_gidmap_); c_set_uidmap := c.(c_set_uidmap); c_set_gidmap := c.(c_set_gidmap);
  c_tmp_size := c.(c_tmp_size); c_filter_path := c.(c_filter_path); c_log_to_stderr := c.(c_log_to_stderr);
  c_parse_mode := c.(c_parse_mode); c_opt_entries := c.(c_opt_entries); c_config_path := c.(c_config_path);
  c_fs_path_flag_used := c.(c_fs_path_flag_used); c_fs_path_rules_enabled := c.(c_fs_path_rules_enabled); c_exit_immediately := c.(c_exit_immediately);
  c_elftype := c.(c_elftype); c_preload_path_ := c.(c_preload_path_); c_envp := c.(c_envp) |}.

(** The locals of parse_args, and the results as minijail0's main() initialises them. *)
Definition initial_cli : cli := {|
  c_seccomp := None_; c_use_seccomp_filter := false; c_use_seccomp_filter_binary := false;
  c_use_seccomp_log := false; c_forward := true; c_binding := false;
  c_chroot := false; c_pivot_root := false; c_mount_ns := false;
  c_change_remount := false; c_remount_mode_ := None; c_inherit_suppl_gids := false;
  c_keep_suppl_gids := false; c_caps_ := false; c_ambient_caps := false;
  c_use_uid := false; c_use_gid := false; c_uid_ := 0;
  c_gid_ := 0; c_suppl_gids := []; c_uidmap_ := None;
  c_gidmap_ := None; c_set_uidmap := false; c_set_gidmap := false;
  c_tmp_size := 0; c_filter_path := None; c_log_to_stderr := -1;
  c_parse_mode := false; c_opt_entries := []; c_config_path := None;
  c_fs_path_flag_used := false; c_fs_path_rules_enabled := true; c_exit_immediately := false;
  c_elftype := ELFERROR; c_preload_path_ := Some preloadpath; c_envp := None |}.

(** The environment of minijail0, the files policies are read from, and errno as
    parse_size and parse_config_file find it (neither resets it first). *)
Context (environ : list cstr) (fs : cstr → option (list ascii)) (errno_ : Z).

Notation step := (io (cli * minijail)).

(** A setting of the jail and nothing else. *)
Definition jail_only (st : cli) (m : io minijail) : step := j ← m; mret (st, j).

(** Two of -s, -S and --seccomp-bpf-binary. *)
Definition seccomp_clash (st : cli) (t : seccomp_type) : bool :=
  bool_decide (st.(c_seccomp) ≠ None_) && bool_decide (st.(c_seccomp) ≠ t).

(** The options with a short name; -h and every other character print the usage. *)
Definition short_option (st : cli) (j : minijail) (c : ascii) (optarg : option cstr) : step :=
  match c with
  | "u"%char =>
      if st.(c_use_uid) then IDie
      else
        let st := st <| c_use_uid := true |> in
        if st.(c_parse_mode) then mret (st, j)
        else deref optarg (λ a, '(j, u, g) ← set_user j a st.(c_gid_);
                               mret (st <| c_uid_ := u |> <| c_gid_ := g |>, j))
  | "g"%char =>
      if st.(c_use_gid) then IDie
      else
        let st := st <| c_use_gid := true |> in
        if st.(c_parse_mode) then mret (st, j)
        else deref optarg (λ a, '(j, g) ← set_group j a; mret (st <| c_gid_ := g |>, j))
  | "n"%char => mret (st, minijail_no_new_privs j)
  | "s"%char =>
      if seccomp_clash st Strict then IDie
      else mret (st <| c_seccomp := Strict |>, minijail_use_seccomp j)
  | "S"%char =>
      if seccomp_clash st Filter then IDie
      else deref optarg (λ a, mret (st <| c_seccomp := Filter |> <| c_filter_path := Some a |>
                                      <| c_use_seccomp_filter := true |>, minijail_use_seccomp_filter j))
  | "l"%char => mret (st, minijail_namespace_ipc j)
  | "L"%char =>
      if bool_decide (st.(c_seccomp) = BpfBinaryFilter) then IDie
      else jail_only (st <| c_use_seccomp_log := true |>) (minijail_log_seccomp_filter_failures j)
  | "b"%char =>
      j ← (if st.(c_parse_mode) then mret j else add_binding j optarg);
      mret (st <| c_binding := true |>, j)
  | "B"%char => deref optarg (λ a, jail_only st (skip_securebits j a))
  | "c"%char => deref optarg (λ a, jail_only (st <| c_caps_ := true |>) (use_caps j a))
  | "C"%char => j ← use_chroot j optarg st.(c_pivot_root); mret (st <| c_chroot := true |>, j)
  | "k"%char => if st.(c_parse_mode) then mret (st, j) else jail_only st (add_mount j optarg)
  | "K"%char => mret (st <| c_remount_mode_ := optarg |> <| c_change_remount := true |>, j)
  | "P"%char => j ← use_pivot_root j optarg st.(c_chroot); mret (st <| c_pivot_root := true |>, j)
  | "f"%char =>
      if st.(c_parse_mode) then mret (st, j)
      else deref optarg (λ a, jail_only st (or_exit (minijail_write_pid_file j a)))
  | "t"%char =>
      let j := minijail_namespace_vfs j in
      let size := if st.(c_tmp_size) =? 0 then DEFAULT_TMP_SIZE else st.(c_tmp_size) in
      match optarg with
      | None => mret (st <| c_tmp_size := size |>, j)
      | Some a =>
          match parse_size errno_ a with
          | (0, Some size) => mret (st <| c_tmp_size := size |>, j)
          | (0, None) => mret (st <| c_tmp_size := size |>, j)
          | _ => IDie
          end
      end
  | "v"%char => mret (st <| c_mount_ns := true |>, minijail_remount_mode (minijail_namespace_vfs j) MS_SLAVE)
  | "V"%char =>
      if st.(c_parse_mode) then mret (st, j)
      else match optarg with Some a => jail_only st (minijail_namespace_enter_vfs j a) | None => IDie end
  | "r"%char => mret (st, minijail_remount_proc_readonly j)
  | "G"%char =>
      if st.(c_keep_suppl_gids) then IDie
      else mret (st <| c_inherit_suppl_gids := true |>, minijail_inherit_usergroups j)
  | "y"%char =>
      if st.(c_inherit_suppl_gids) then IDie
      else mret (st <| c_keep_suppl_gids := true |>, minijail_keep_supplementary_gids j)
  | "N"%char => mret (st, minijail_namespace_cgroups j)
  | "p"%char => mret (st, minijail_namespace_pids j)
  | "e"%char =>
      if st.(c_parse_mode) then mret (st, j)
      else match optarg with
           | Some a => jail_only st (minijail_namespace_enter_net j a)
           | None => mret (st, minijail_namespace_net j)
           end
  | "i"%char => mret (st <| c_exit_immediately := true |>, j)
  | "H"%char => exit_ 0
  | "I"%char => mret (st, minijail_run_as_init (minijail_namespace_pids j))
  | "U"%char => mret (st, minijail_namespace_pids (minijail_namespace_user j))
  | "m"%char => mret (st <| c_set_uidmap := true |> <| c_uidmap_ := optarg |>, j)
  | "M"%char => mret (st <| c_set_gidmap := true |> <| c_gidmap_ := optarg |>, j)
  | "a"%char => deref optarg (λ a, jail_only st (or_exit (minijail_use_alt_syscall j a)))
  | "R"%char => jail_only st (add_rlimit j optarg)
  | "T"%char =>
      deref optarg (λ a, if streq a (str "static") then mret (st <| c_elftype := ELFSTATIC |>, j)
                         else if streq a (str "dynamic") then mret (st <| c_elftype := ELFDYNAMIC |>, j)
                         else IDie)
  | "w"%char => mret (st, minijail_new_session_keyring j)
  | "Y"%char => jail_only st (minijail_set_seccomp_filter_tsync j)
  | "z"%char => mret (st <| c_forward := false |>, j)
  | "d"%char => mret (st, minijail_mount_dev (minijail_namespace_vfs j))
  | "h"%char => exit_ 0
  | _ => exit_ 1
  end.

(** The entries of the file named by --config. *)
Definition st_dev (a : answer) : Z := default 0 (nums a !! 1%nat).

Definition check_exec_mount (path : cstr) : io () :=
  if block_noexec_conf then
    a ← call (Statfs path);
    if negb (rv a =? 0) then IDie
    else if negb (Z.land (default 0 (head (nums a))) MS_NOEXEC =? 0) then IDie else mret ()
  else mret ().

Definition check_rootfs (path : cstr) : io () :=
  if enforce_rootfs_conf then
    root ← call (Stat (str "/"));
    if negb (rv root =? 0) then IDie
    else
      conf ← call (Stat path);
      if negb (rv conf =? 0) then IDie
      else if negb (st_dev root =? st_dev conf) then IDie else mret ()
  else mret ().

Definition read_config_entries (path : cstr) : io (list config_entry) :=
  _ ← check_exec_mount path;
  _ ← check_rootfs path;
  a ← call (FopenRead path);
  match bytes a with
  | None => IDie
  | Some config_file =>
      '(ok_, l) ← lift (parse_config_file errno_ config_file new_config_entry_list);
      if ok_ : bool then mret (entries l) else IDie
  end.

(** A rule whose return value is ignored, by an option that uses paths. *)
Definition fs_path_rule (st : cli) (optarg : option cstr) (rule : cstr → io (Z * minijail)) : step :=
  deref optarg (λ a, '(_, j) ← rule a; mret (st <| c_fs_path_flag_used := true |>, j)).

(** The options with a long name only, --config apart. *)
Definition long_option (st : cli) (j : minijail) (l : long_opt) (optarg : option cstr) : step :=
  match l with
  | OPT_AMBIENT => mret (st <| c_ambient_caps := true |>, minijail_set_ambient_caps j)
  | OPT_UTS =>
      let j := minijail_namespace_uts j in
      mret (st, match optarg with Some a => (minijail_namespace_set_hostname j a).2 | None => j end)
  | OPT_LOGGING =>
      deref optarg (λ a, if streq a (str "auto") then mret (st <| c_log_to_stderr := -1 |>, j)
                         else if streq a (str "syslog") then mret (st <| c_log_to_stderr := 0 |>, j)
                         else if streq a (str "stderr") then mret (st <| c_log_to_stderr := 1 |>, j)
                         else IDie)
  | OPT_PROFILE =>
      deref optarg (λ a, '(j, size) ← use_profile j a st.(c_chroot) st.(c_tmp_size);
                         mret (st <| c_pivot_root := true |> <| c_tmp_size := size |>, j))
  | OPT_PRELOAD_LIBRARY => mret (st <| c_preload_path_ := optarg |>, j)
  | OPT_ENABLE_PROFILE_FS_RESTRICTIONS => mret (st, minijail_set_enable_profile_fs_restrictions j)
  | OPT_FS_DEFAULT_PATHS =>
      jail_only (st <| c_fs_path_flag_used := true |>) (minijail_enable_default_fs_restrictions j)
  | OPT_FS_PATH_RX => fs_path_rule st optarg (minijail_add_fs_restriction_rx j)
  | OPT_FS_PATH_RO => fs_path_rule st optarg (minijail_add_fs_restriction_ro j)
  | OPT_FS_PATH_RW => fs_path_rule st optarg (minijail_add_fs_restriction_rw j)
  | OPT_FS_PATH_ADVANCED_RW => fs_path_rule st optarg (minijail_add_fs_restriction_advanced_rw j)
  | OPT_NO_FS_RESTRICTIONS =>
      mret (st <| c_fs_path_rules_enabled := false |>, minijail_disable_fs_restrictions j)
  | OPT_NO_DEFAULT_RUNTIME => mret (st, minijail_set_enable_default_runtime j false)
  | OPT_SECCOMP_BPF_BINARY =>
      if seccomp_clash st BpfBinaryFilter then IDie
      else if st.(c_use_seccomp_log) then IDie
      else mret (st <| c_seccomp := BpfBinaryFilter |> <| c_filter_path := optarg |>
                    <| c_use_seccomp_filter_binary := true |>, minijail_use_seccomp_filter j)
  | OPT_ADD_SUPPL_GROUP =>
      deref optarg (λ a, gids ← suppl_group_add st.(c_suppl_gids) a;
                         mret (st <| c_suppl_gids := gids |>, j))
  | OPT_ALLOW_SPECULATIVE_EXECUTION =>
      jail_only st (lift (minijail_set_seccomp_filter_allow_speculation j))
  | OPT_CONFIG => mret (st, j)
  | OPT_GEN_CONFIG =>
      deref optarg (λ a, mret (st <| c_parse_mode := true |> <| c_config_path := Some a |>, j))
  | OPT_ENV_ADD =>
      deref optarg (λ a, envp ← set_child_env st.(c_envp) a environ; mret (st <| c_envp := envp |>, j))
  | OPT_ENV_RESET => mret (st <| c_envp := Some [] |>, j)
  end.

(** One option, tracked first. *)
Definition option_step (st : cli) (j : minijail) (o : opt) (optarg : option cstr) : step :=
  let st := st <| c_opt_entries := st.(c_opt_entries) ++ [track o optarg] |> in
  match o with
  | Short c => short_option st j c optarg
  | Long l => long_option st j l optarg
  end.

(** The entries of a configuration file; one that names another file is an error. *)
Fixpoint conf_options (es : list config_entry) (st : cli) (j : minijail) : step :=
  match es with
  | [] => mret (st, j)
  | e :: rest =>
      o ← lift (getopt_from_conf e);
      if bool_decide (o = Long OPT_CONFIG) then IDie
      else
        '(st, j) ← option_step st j o e.(value);
        conf_options rest st j
  end.

(** The options of the command line, each file's entries in place of its option. *)
Fixpoint cli_options (opts : list (opt * option cstr)) (st : cli) (j : minijail) : step :=
  match opts with
  | [] => mret (st, j)
  | (o, optarg) :: rest =>
      '(st, j) ← option_step st j o optarg;
      '(st, j) ← (if bool_decide (o = Long OPT_CONFIG) then
                    deref optarg (λ path, es ← read_config_entries path; conf_options es st j)
                  else mret (st, j));
      cli_options rest st j
  end.

(** ** After the last option *)

Definition STDERR_FILENO_ : Z := 2.
Definition F_OK : Z := 0.
Definition X_OK : Z := 1.
Definition default_policy_path : cstr := str "/etc/security/minijail/v0.bin".

Definition setup_logging (st : cli) (j : minijail) : io minijail :=
  log_to_stderr ← (if st.(c_log_to_stderr) =? -1 then
                     a ← call (Isatty 0); mret (negb (rv a =? 0))
                   else mret (negb (st.(c_log_to_stderr) =? 0)));
  if log_to_stderr : bool then or_exit (minijail_preserve_fd j STDERR_FILENO_ STDERR_FILENO_)
  else mret j.

(** The file is written and the process ends. *)
Definition write_config {A} (st : cli) : io A :=
  deref st.(c_config_path) (λ path,
    a ← call (Access path F_OK);
    if rv a =? 0 then IDie
    else
      a ← call (FopenWrite path);
      if rv a <? 0 then IDie
      else
        _ ← call (Fprintf path (gen_config st.(c_opt_entries)));
        exit_ 0).

Definition setup_remount (st : cli) (j : minijail) : io minijail :=
  if st.(c_change_remount) then
    match st.(c_remount_mode_) with
    | Some mode => set_remount_mode j mode
    | None => mret (minijail_skip_remount_private j)
    end
  else mret j.

Definition setup_suppl_gids (st : cli) (j : minijail) : io minijail :=
  if bool_decide (st.(c_suppl_gids) = []) then mret j
  else lift (minijail_set_supplementary_gids j st.(c_suppl_gids)).

Definition setup_seccomp (st : cli) (j : minijail) : io minijail :=
  if st.(c_use_seccomp_filter) then
    deref st.(c_filter_path) (minijail_parse_seccomp_filters fs j)
  else if st.(c_use_seccomp_filter_binary) then
    deref st.(c_filter_path) (set_seccomp_filters j)
  else if minijail_get_enable_default_runtime j then
    a ← call (Access default_policy_path F_OK);
    j ← (if rv a =? 0 then set_seccomp_filters (minijail_use_seccomp_filter j) default_policy_path
         else mret j);
    mret (minijail_no_new_privs j)
  else mret j.

(** The linkage of the program, unless -T gave it. *)
Definition find_linkage (st : cli) (j : minijail) (program : cstr) : io ElfType :=
  if bool_decide (st.(c_elftype) = ELFERROR) then
    let program_path := minijail_get_original_path j program in
    a ← call (Access program_path X_OK);
    if negb (rv a =? 0) then IDie
    else
      a ← call (FopenRead program_path);
      mret (get_elf_linkage (bytes a))
  else mret st.(c_elftype).

Definition finish_args (st : cli) (j : minijail) (rest : list cstr) : io (cli * minijail) :=
  j ← setup_logging st j;
  if st.(c_fs_path_flag_used) && negb st.(c_fs_path_rules_enabled) then IDie else
  if st.(c_parse_mode) then write_config st else
  j ← (if st.(c_set_uidmap) || st.(c_set_gidmap) then
         set_ugid_mapping j st.(c_set_uidmap) st.(c_uid_) st.(c_uidmap_) st.(c_set_gidmap) st.(c_gid_)
           st.(c_gidmap_)
       else mret j);
  if st.(c_ambient_caps) && negb st.(c_caps_) then IDie else
  let j := if st.(c_forward) then (minijail_forward_signals j).2 else j in
  if st.(c_binding) && negb (st.(c_chroot) || st.(c_pivot_root) || st.(c_mount_ns)) then IDie else
  if st.(c_change_remount) && negb st.(c_mount_ns) then IDie else
  j ← setup_remount st j;
  j ← setup_suppl_gids st j;
  j ← setup_seccomp st j;
  let j := if st.(c_tmp_size) =? 0 then j else minijail_mount_tmp_size j st.(c_tmp_size) in
  j ← minijail_add_minimalistic_mountns_fs_rules j;
  let envp := match st.(c_envp) with None => Some (minijail_copy_env (Some environ)) | e => e end in
  match rest with
  | [] => exit_ 1
  | program :: _ =>
      elftype ← find_linkage st j program;
      if st.(c_caps_) && bool_decide (elftype = ELFSTATIC) && negb st.(c_ambient_caps) then IDie
      else mret (st <| c_envp := envp |> <| c_elftype := elftype |>, j)
  end.

(** [opts] and [rest] are what getopt_long(3) makes of the command line. *)
Definition parse_args (j : minijail) (opts : list (opt * option cstr)) (rest : list cstr) : step :=
  '(st, j) ← cli_options opts initial_cli j;
  finish_args st j rest.

(** ** minijail0.c *)

Definition run_target (fuel : nat) (st : cli) (j : minijail) (program : cstr) (argv : list cstr)
    : io minijail :=
  match st.(c_elftype) with
  | ELFSTATIC => '(_, j, _) ← minijail_run_no_preload environ fuel j program argv; mret j
  | ELFDYNAMIC =>
      deref st.(c_preload_path_) (λ preload_path,
        a ← call (Dlopen preload_path);
        if rv a =? 0 then IDie
        else
          let j := (minijail_set_preload_path j preload_path).2 in
          match st.(c_envp) with
          | Some envp => '(_, j, _) ← minijail_run_env environ fuel j program argv envp; mret j
          | None => '(_, j, _) ← minijail_run environ fuel j program argv; mret j
          end)
  | ELFERROR => IDie
  end.

Definition main_ (fuel : nat) (opts : list (opt * option cstr)) (argv : list cstr) : io Z :=
  '(st, j) ← parse_args minijail_new opts argv;
  a ← call Setpgid;
  if negb (rv a =? 0) && negb (eno a =? EPERM) then IDie
  else
    match argv with
    | [] => IUndef
    | program :: _ =>
        j ← run_target fuel st j program argv;
        if st.(c_exit_immediately) then mret 0 else minijail_wait fuel j
    end.
End ParseArgs.
