(* ===== verification/CliProps.v ===== *)
(** * The command line's configuration files

    What --gen-config writes is what --config reads: the same options with the same
    arguments, in the same order. *)

From S2P Require Import Prelude CLib Util UtilProps SyscallFilter Policy ConfigParser ConfigProps Cli.
Local Open Scope Z_scope.

(** ** Lines of the file *)

(** A key alone, and a key with its value. *)
Lemma parse_config_line_key k :
  plain k → "="%char ∉ k → parse_config_line k = Some {| key := k; value := None |}.
Proof.
  intros Hk He. unfold parse_config_line. rewrite tokenize_Some, split_eq_none by done. cbn [fmap option_fmap option_map].
  rewrite strip_plain by done. destruct Hk. by destruct k.
Qed.

Lemma parse_config_line_value k v :
  plain k → "="%char ∉ k → plain v →
  parse_config_line (k ++ str " = " ++ v) = Some {| key := k; value := Some v |}.
Proof.
  intros Hk He Hv. unfold parse_config_line.
  replace (k ++ str " = " ++ v) with ((k ++ [SPACE]) ++ "="%char :: SPACE :: v) by (by rewrite <- app_assoc).
  rewrite tokenize_Some, split_eq_app by (done || (rewrite elem_of_app; set_solver)).
  cbn [fmap option_fmap option_map]. rewrite strip_plain_space, strip_space_plain by done.
  destruct Hk, Hv. by destruct k, v.
Qed.

(** ** The names of the options *)

(** The options that getopt can return. *)
Definition known (o : opt) : bool :=
  match o with
  | Short c => isalpha c && bool_decide (is_Some (strchr_split c optstring))
  | Long _ => true
  end.

(** A name that can stand in front of the equals sign and is no comment. *)
Definition name_ok (s : cstr) : bool :=
  forallb (λ c, negb (bool_decide (c = NL ∨ c = NUL ∨ c = "="%char ∨ isblank c = true ∨ c = BACKSLASH
                                   ∨ c = "#"%char))) s && negb (bool_decide (s = [])).

(** The options are finitely many: looked through one by one. *)
Lemma known_name o v :
  known o = true → name_ok (opt_name o) = true ∧ getopt_from_conf {| key := opt_name o; value := v |} = Ret o.
Proof.
  destruct o as [c|l].
  - destruct c as [[] [] [] [] [] [] [] []]; intros H; try (vm_compute in H; discriminate H); split; reflexivity.
  - intros _. destruct l; split; reflexivity.
Qed.

Lemma name_ok_plain s :
  name_ok s = true → plain s ∧ "="%char ∉ s ∧ (∀ c, head s = Some c → c ≠ "#"%char).
Proof.
  unfold name_ok. intros [H Hne]%andb_true_iff. rewrite forallb_forall in H.
  assert (∀ c, c ∈ s → ¬ (c = NL ∨ c = NUL ∨ c = "="%char ∨ isblank c = true ∨ c = BACKSLASH ∨ c = "#"%char)) as Hc.
  { intros c Hin. apply list_elem_of_In in Hin. specialize (H c Hin).
    by apply negb_true_iff, bool_decide_eq_false in H. }
  apply negb_true_iff, bool_decide_eq_false in Hne.
  assert (∀ c, head s = Some c → c ∈ s) as Hh by (destruct s; [done|]; intros c [= ->]; left).
  assert (∀ c, list.last s = Some c → c ∈ s) as Hl by (intros c; apply list.last_Some_elem_of).
  split; [split|split]; auto.
  - intros Hn. apply (Hc _ Hn). auto.
  - intros Hn. apply (Hc _ Hn). auto.
  - intros c Hin%Hh%Hc. destruct (isblank c); naive_solver.
  - intros c Hin%Hl%Hc. split; [|naive_solver]. unfold strippable_right. apply orb_false_iff.
    split; [destruct (isblank c); naive_solver|apply bool_decide_false; naive_solver].
  - intros Hn. apply (Hc _ Hn). auto.
  - intros c Hin%Hh%Hc. naive_solver.
Qed.

(** ** Writing and reading *)

Lemma read_config_line l rest e :
  plain l → blank_or_comment l = false → parse_config_line l = Some e →
  read_config (l ++ NL :: rest) = es ← read_config rest; Some (e :: es).
Proof.
  intros Hl Hb Hp. unfold read_config. pose proof Hl as [_ Hnl Hnul _ Hlast].
  rewrite lines_of_line; [|done|intros Hx; by destruct (Hlast _ Hx)].
  rewrite c_str_plain, strip_plain, filter_cons_True by done. cbn [mapM]. by rewrite Hp.
Qed.

Definition entry_of (p : opt * option cstr) : config_entry := {| key := opt_name p.1; value := p.2 |}.

(** The options that are written. *)
Definition written (p : opt * option cstr) : Prop := p.1 ≠ Long OPT_CONFIG ∧ p.1 ≠ Long OPT_GEN_CONFIG.
#[export] Instance written_dec p : Decision (written p).
Proof. unfold written. apply _. Defined.

(** An option whose argument, if any, fits on a line as it is. *)
Definition storable (p : opt * option cstr) : Prop :=
  known p.1 = true ∧ match p.2 with Some a => plain a | None => True end.

Lemma flag_names o name val :
  known o = true → In (name, val) [(config_flag_name, Long OPT_CONFIG); (gen_config_flag_name, Long OPT_GEN_CONFIG)] →
  streq (opt_name o) name = bool_decide (o = val).
Proof.
  intros Hk Hin. unfold streq. apply bool_decide_ext. split; [|intros ->; destruct Hin as [[= <- <-]|[[= <- <-]|[]]]; done].
  intros Hn. destruct (known_name o None Hk) as [_ Hg]. rewrite Hn in Hg.
  destruct Hin as [[= <- <-]|[[= <- <-]|[]]]; vm_compute in Hg; congruence.
Qed.

Lemma plain_line k v : plain k → plain v → plain (k ++ str " = " ++ v).
Proof.
  intros [H1 H2 H3 H4 _] [G1 G2 G3 _ G5]. split.
  - by destruct k.
  - rewrite !elem_of_app. intros [?|[Hin|?]]; try done. by vm_compute in Hin; set_solver.
  - rewrite !elem_of_app. intros [?|[Hin|?]]; try done. by vm_compute in Hin; set_solver.
  - destruct k; [done|]. exact H4.
  - intros c. rewrite !app_assoc, last_app. destruct (list.last v) eqn:E; [intros [= ->]; by apply G5|].
    by apply last_None in E.
Qed.

Lemma gen_entry_read p rest :
  storable p →
  read_config (gen_entry (track p.1 p.2) ++ rest) =
    es ← read_config rest; Some ((if decide (written p) then [entry_of p] else []) ++ es).
Proof.
  destruct p as [o a]. intros [Hk Ha]. cbn [fst snd] in *. unfold gen_entry, track. cbn [oe_name oe_args].
  rewrite (flag_names o _ (Long OPT_CONFIG)), (flag_names o _ (Long OPT_GEN_CONFIG)) by (done || (cbn; auto)).
  destruct (decide (written (o, a))) as [Hw|Hw]; unfold written in Hw; cbn in Hw.
  2: { replace (bool_decide (o = Long OPT_CONFIG) || bool_decide (o = Long OPT_GEN_CONFIG)) with true.
       - cbn [app]. by destruct (read_config rest).
       - symmetry. apply orb_true_iff. rewrite !bool_decide_eq_true.
         destruct (decide (o = Long OPT_CONFIG)), (decide (o = Long OPT_GEN_CONFIG)); tauto. }
  destruct Hw as [Hw1 Hw2]. rewrite !bool_decide_false by done. cbn [orb].
  destruct (known_name o a Hk) as [Hn _]. destruct (name_ok_plain _ Hn) as (Hp & He & Hh).
  assert (∀ tail, blank_or_comment (opt_name o ++ tail) = false) as Hb.
  { intros tail. destruct (opt_name o) as [|c s]; [by destruct Hp|]. cbn. apply bool_decide_false. by apply Hh. }
  destruct a as [a|].
  - replace ((opt_name o ++ str " = " ++ a ++ [NL]) ++ rest)
      with ((opt_name o ++ str " = " ++ a) ++ NL :: rest) by (by rewrite <- !app_assoc).
    apply read_config_line; [by apply plain_line|apply Hb|]. by apply parse_config_line_value.
  - rewrite <- app_assoc. cbn [app]. apply read_config_line; [done| |by apply parse_config_line_key].
    rewrite <- (app_nil_r (opt_name o)). apply Hb.
Qed.

(** C33: --gen-config and --config are inverse to each other: for any options that
    getopt can return, each with an argument that fits on a line as it is (not empty,
    no newline, no blanks at its ends, no backslash at its end) or none, the file that
    is generated is accepted, and its entries stand for the same options with the same
    arguments in the same order, the two options that name configuration files left
    out. *)
Theorem gen_config_roundtrip opts :
  Forall storable opts →
  ∃ es, parse_config_file 0 (gen_config ((λ p, track p.1 p.2) <$> opts)) new_config_entry_list =
          Ret (true, {| entries := es; num_allocated := length es |}) ∧
        Forall2 (λ e p, getopt_from_conf e = Ret p.1 ∧ e.(value) = p.2) es (filter written opts).
Proof.
  intros Hs.
  assert (∀ l, Forall storable l →
    read_config (mjoin (gen_entry <$> ((λ p, track p.1 p.2) <$> l))) = Some (entry_of <$> filter written l)) as Hr.
  { induction 1 as [|p l Hp Hl IH]; [done|]. csimpl. rewrite (gen_entry_read p _ Hp), IH.
    rewrite filter_cons. by destruct (decide (written p)). }
  assert (read_config (NL :: mjoin (gen_entry <$> ((λ p, track p.1 p.2) <$> opts))) =
            Some (entry_of <$> filter written opts)) as Hr'.
  { rewrite <- (Hr opts Hs). unfold read_config. by f_equal. }
  pose proof (parse_config_file_reads 0 (NL :: mjoin (gen_entry <$> ((λ p, track p.1 p.2) <$> opts)))) as Hf.
  rewrite Hr' in Hf. specialize (Hf ltac:(done)).
  eexists. split; [exact Hf|]. apply Forall2_fmap_l, Forall_Forall2_diag, list.Forall_forall.
  intros p [_ Hp]%list_elem_of_filter. split; [|done].
  apply known_name. by apply (proj1 (list.Forall_forall _ _) Hs p Hp).
Qed.

Lemma gen_config_roundtrip_witness :
  ∃ es, parse_config_file 0 (gen_config ((λ p, track p.1 p.2) <$>
            [(Short "k", Some (str "none,/tmp,tmpfs,0xe,mode=0755")); (Long OPT_GEN_CONFIG, Some (str "f")); (Short "n", None)]))
          new_config_entry_list = Ret (true, {| entries := es; num_allocated := length es |}) ∧
        Forall2 (λ e p, getopt_from_conf e = Ret p.1 ∧ e.(value) = p.2) es
          [(Short "k", Some (str "none,/tmp,tmpfs,0xe,mode=0755")); (Short "n", None)].
Proof.
  apply (gen_config_roundtrip [(Short "k", Some (str "none,/tmp,tmpfs,0xe,mode=0755"));
                               (Long OPT_GEN_CONFIG, Some (str "f")); (Short "n", None)]).
  assert (∀ s c d, s ≠ [] → bool_decide (NL ∉ s) = true → bool_decide (NUL ∉ s) = true → head s = Some c →
            list.last s = Some d → isblank c = false → strippable_right d = false → d ≠ BACKSLASH → plain s) as Hp.
  { intros s c d ? ?%bool_decide_eq_true ?%bool_decide_eq_true Hc Hd ???. split; [done..| |].
    - intros x Hx. rewrite Hc in Hx. by injection Hx as <-.
    - intros x Hx. rewrite Hd in Hx. by injection Hx as <-. }
  repeat (apply List.Forall_cons; [split; [reflexivity|]|]); [| |exact I|apply List.Forall_nil].
  - by eapply Hp.
  - by eapply Hp.
Defined.
