(* ===== verification/ArgsInv.v ===== *)
(** * The options of the command line and the jail

    What each option of minijail0 does to the jail, as an invariant between the
    locals of parse_args() and the jail that every option keeps. *)

From S2P Require Import Prelude CLib Util UtilProps Bpf OS System Jail JailProps ConfigParser Elfparse Cli ParseArgs.
Local Open Scope Z_scope.

(** ** Calls that do not concern the options that are checked *)

Definition tracked : gset jflag :=
  {[F_uid; F_gid; F_use_caps; F_set_ambient_caps; F_inherit_suppl_gids; F_keep_suppl_gids;
    F_set_suppl_gids; F_seccomp; F_seccomp_filter]}.

(** The flags of [T] and the filter are the same. *)
Definition keeps (T : gset jflag) (j j' : minijail) : Prop :=
  (∀ f, f ∈ T → f ∈ j'.(flags) ↔ f ∈ j.(flags)) ∧ j'.(filter_prog) = j.(filter_prog).

(** The jail stays well formed and the tracked flags are the same. *)
Definition neutral (j j' : minijail) : Prop := (jail_ok j → jail_ok j') ∧ keeps tracked j j'.

Section Keeps.
Context {T : gset jflag}.

#[export] Instance keeps_preorder : PreOrder (keeps T).
Proof.
  split; [by split|]. intros j1 j2 j3 [K1 E1] [K2 E2]. split; [|congruence].
  intros f Hf. by rewrite (K2 f Hf), (K1 f Hf).
Qed.

Lemma keeps_trans j1 j2 j3 : keeps T j1 j2 → keeps T j2 j3 → keeps T j1 j3.
Proof. apply transitivity. Qed.

Lemma keeps_same j j' : j'.(flags) = j.(flags) → j'.(filter_prog) = j.(filter_prog) → keeps T j j'.
Proof. intros H ?. split; [|done]. intros f _. by rewrite H. Qed.

Lemma keeps_set f j : f ∉ T → keeps T j (set_flag f j).
Proof. intros Hf. split; [|done]. intros g Hg. unfold_jail. set_solver. Qed.

Lemma keeps_clear f j : f ∉ T → keeps T j (clear_flag f j).
Proof. intros Hf. split; [|done]. intros g Hg. unfold_jail. set_solver. Qed.
End Keeps.

#[export] Instance neutral_preorder : PreOrder neutral.
Proof. split; [by split|]. intros j1 j2 j3 [H1 K1] [H2 K2]. split; [by auto|by etrans]. Qed.

Section Args.
Context {B : BuildConfig} (fs : cstr → option (list ascii)).

Definition neutral_call (c : api_call) : bool :=
  match c with
  | A_namespace_ipc | A_namespace_uts | A_namespace_net | A_namespace_cgroups | A_namespace_vfs
  | A_namespace_pids | A_namespace_user | A_namespace_user_disable_setgroups | A_run_as_init
  | A_no_new_privs | A_mount_dev | A_new_session_keyring | A_remount_proc_readonly
  | A_skip_remount_private | A_set_using_minimalistic_mountns | A_disable_fs_restrictions
  | A_set_enable_profile_fs_restrictions | A_set_enable_default_runtime _
  | A_skip_setting_securebits _ | A_remount_mode _ | A_mount_tmp_size _
  | A_set_seccomp_filter_allow_speculation | A_namespace_set_hostname _ | A_uidmap _ | A_gidmap _
  | A_enter_chroot _ | A_enter_pivot_root _ | A_write_pid_file _ | A_use_alt_syscall _
  | A_mount_with_data _ _ _ _ _ | A_mount _ _ _ _ | A_rlimit _ _ _ | A_forward_signals
  | A_preserve_fd _ _ | A_bind _ _ _ | A_add_fs_restriction_rx _ | A_add_fs_restriction_ro _
  | A_add_fs_restriction_rw _ | A_add_fs_restriction_advanced_rw _ | A_add_fs_restriction_edit _
  | A_set_seccomp_filter_tsync | A_log_seccomp_filter_failures | A_enable_default_fs_restrictions
  | A_add_minimalistic_mountns_fs_rules | A_namespace_enter_vfs _ | A_namespace_enter_net _ => true
  | _ => false
  end.

Lemma wlp_keeps_path T j path f :
  wlp (add_fs_restriction_path j path f) (λ r, keeps T j r.2).
Proof.
  unfold add_fs_restriction_path. apply wlp_bind. set (j1 := j <| fs_rules := _ |>).
  apply (wlp_mono _ (keeps T j1)); [by intros j2 H2|].
  destruct (_ =? 0); [|by apply keeps_same]. apply wlp_bind.
  eapply wlp_mono; [|apply setup_fs_rules_fd_frame]. intros [rc j2] (abi & fd & E). cbn in E.
  apply keeps_same; by rewrite E.
Qed.

Lemma wlp_keeps_negated T j m : wlp m (λ r, keeps T j r.2) → wlp (negated m) (λ r, keeps T j r.2).
Proof. intros H. apply wlp_bind. eapply wlp_mono; [|exact H]. by intros [rc j2]. Qed.

Lemma wlp_keeps_advanced T j path :
  wlp (minijail_add_fs_restriction_advanced_rw j path) (λ r, keeps T j r.2).
Proof.
  apply wlp_bind. eapply wlp_mono; [|apply refer_supported_frame]. intros [refer j1] [abi E].
  cbn in E. apply wlp_keeps_negated. eapply wlp_mono; [|apply wlp_keeps_path].
  intros r Hr. eapply keeps_trans; [|exact Hr]. apply keeps_same; by rewrite E.
Qed.

(** A rule after others. *)
Lemma wlp_keeps_then T j (m : minijail → io (Z * minijail)) (f : minijail → io minijail) j1 :
  keeps T j j1 → (∀ j1, wlp (m j1) (λ r, keeps T j1 r.2)) → (∀ j2, keeps T j j2 → wlp (f j2) (keeps T j)) →
  wlp ('(_, j2) ← m j1; f j2) (keeps T j).
Proof.
  intros H1 Hm Hf. apply wlp_bind. eapply wlp_mono; [|apply Hm]. intros [rc j2] H2.
  apply Hf. by eapply keeps_trans.
Qed.

Lemma wlp_keeps_default T j : wlp (minijail_enable_default_fs_restrictions j) (keeps T j).
Proof.
  unfold minijail_enable_default_fs_restrictions.
  generalize [str "/lib"; str "/lib64"; str "/usr/lib"; str "/usr/lib64";
              str "/bin"; str "/sbin"; str "/usr/sbin"; str "/usr/bin"]. intros paths.
  assert (∀ j0, keeps T j0 j → wlp (add_fs_restrictions_rx j paths) (keeps T j0)) as H.
  { revert j. induction paths as [|p paths IH]; intros j j0 H0; [done|].
    apply (wlp_keeps_then T j0 (λ j, minijail_add_fs_restriction_rx j p)); [done| |auto].
    intros j1. apply wlp_keeps_negated, wlp_keeps_path. }
  apply H. by apply keeps_same.
Qed.

Lemma wlp_keeps_mount_rules T ms j0 j : keeps T j0 j → wlp (add_mount_fs_rules j ms) (keeps T j0).
Proof.
  revert j. induction ms as [|m ms IH]; intros j H0; [done|].
  apply (wlp_keeps_then T j0 (λ j, minijail_add_fs_restriction_rx j (m_dest m))); [done| |].
  { intros j1. apply wlp_keeps_negated, wlp_keeps_path. }
  intros j1 H1. apply wlp_bind. eapply wlp_mono; [intros j2; apply IH|].
  destruct (_ || _); [|done].
  apply (wlp_keeps_then T j0 (λ j, minijail_add_fs_restriction_advanced_rw j (m_dest m))); [done| |done].
  intros j2. apply wlp_keeps_advanced.
Qed.

Lemma wlp_keeps_minimalistic T j : wlp (minijail_add_minimalistic_mountns_fs_rules j) (keeps T j).
Proof.
  unfold minijail_add_minimalistic_mountns_fs_rules. destruct (_ || _); [by apply keeps_same|].
  apply wlp_bind. eapply wlp_mono; [|apply (wlp_keeps_mount_rules T _ j); reflexivity].
  intros j1 H1. destruct (negb _); [|done]. apply wlp_bind. eapply wlp_mono; [|apply (wlp_keeps_default T)].
  intros j2 H2. assert (keeps T j j2) as K2 by (by eapply keeps_trans). clear H1 H2.
  apply (wlp_keeps_then T j (λ j, minijail_add_fs_restriction_edit j _)); [done| |].
  { intros j3. apply wlp_keeps_negated, wlp_keeps_path. }
  intros j3 K3. apply (wlp_keeps_then T j (λ j, minijail_add_fs_restriction_ro j _)); [done| |].
  { intros j4. apply wlp_keeps_negated, wlp_keeps_path. }
  intros j4 K4. destruct (flag j4 F_vfs); [|done].
  apply (wlp_keeps_then T j (λ j, minijail_add_fs_restriction_rw j _)); [done| |done].
  intros j5. apply wlp_keeps_negated, wlp_keeps_path.
Qed.

Lemma wlp_keeps_void T j m : wlp m (keeps T j) → wlp (void m) (λ r, keeps T j r.2).
Proof. intros H. apply wlp_bind. by eapply wlp_mono; [|exact H]. Qed.

(** An untracked flag, by computation; a change of other fields. *)
Ltac untracked := apply keeps_set; by apply (bool_decide_unpack _); vm_compute.
Ltac keeps_flags :=
  first [ apply keeps_same; [reflexivity|reflexivity]
        | (eapply keeps_trans; [|untracked]); keeps_flags
        | apply keeps_clear; by apply (bool_decide_unpack _); vm_compute ].

Lemma keeps_namespace_vfs j : keeps tracked j (minijail_namespace_vfs j).
Proof. untracked. Qed.

Lemma keeps_mount j src dest type mf data :
  keeps tracked j (minijail_mount_with_data j src dest type mf data).2.
Proof.
  unfold minijail_mount_with_data. destruct (negb _); [by apply keeps_same|]. cbv zeta.
  destruct (negb (flag _ _)); cbn [snd]; [|by apply keeps_same].
  eapply keeps_trans; [apply keeps_namespace_vfs|]. by apply keeps_same.
Qed.

Lemma api_keeps c j : neutral_call c = true → wlp (api_step fs c j) (λ r, keeps tracked j r.2).
Proof.
  intros Hc. destruct c; try discriminate Hc; clear Hc; cbn [api_step].
  all: try (by cbn; keeps_flags).
  all: try (by apply wlp_keeps_negated, wlp_keeps_path).
  all: try (by apply wlp_keeps_advanced).
  all: try (by apply keeps_mount).
  all: try (apply wlp_keeps_void).
  - cbn. destruct b; keeps_flags.
  - apply wlp_lift. intros j'. unfold minijail_set_seccomp_filter_allow_speculation.
    destruct (filter_installed j); [done|]. intros [= <-]. keeps_flags.
  - cbn. unfold minijail_namespace_set_hostname. case_bool_decide; keeps_flags.
  - cbn. unfold minijail_enter_chroot. case_bool_decide; keeps_flags.
  - cbn. unfold minijail_enter_pivot_root. case_bool_decide; keeps_flags.
  - cbn. unfold minijail_rlimit_. destruct (_ <=? _)%nat; [keeps_flags|]. destruct (existsb _ _); keeps_flags.
  - cbn. unfold minijail_preserve_fd. destruct (_ || _); [keeps_flags|]. destruct (_ <=? _)%nat; keeps_flags.
  - apply wlp_bind_any. intros []; cbn; [apply keeps_mount|keeps_flags].
  - unfold minijail_set_seccomp_filter_tsync. destruct (filter_installed j); [done|].
    destruct (seccomp_is_logging_allowed j); [|cbn; keeps_flags].
    apply wlp_bind_any. intros []; cbn; [keeps_flags|done].
  - unfold minijail_log_seccomp_filter_failures. destruct (filter_installed j); [done|].
    destruct (flag j F_seccomp_filter_tsync); [apply wlp_bind_any; intros []|].
    all: destruct debug_logging_allowed; cbn; first [exact I | keeps_flags].
  - apply wlp_keeps_default.
  - apply wlp_keeps_minimalistic.
  - intros a. cbn. destruct (rv a <? 0); cbn; [done|keeps_flags].
  - intros a. cbn. destruct (rv a <? 0); cbn; [done|keeps_flags].
Qed.

Lemma wlp_conj {A} (m : io A) (P Q : A → Prop) : wlp m P → wlp m Q → wlp m (λ a, P a ∧ Q a).
Proof. induction m as [a| | | |c k IH]; simpl; eauto. Qed.

(** A neutral call, in the middle of a computation that keeps [P]. *)
Lemma wlp_neutral c j (P : Z * minijail → Prop) :
  neutral_call c = true → (∀ r, neutral j r.2 → P r) → jail_ok j → wlp (api_step fs c j) P.
Proof.
  intros Hc HP Hj. eapply wlp_mono; [|apply wlp_conj; [by apply api_step_ok|by apply api_keeps]].
  intros r [H1 H2]. apply HP. by split.
Qed.

(** ** The options and the jail agree *)

Record args_inv (st : cli) (j : minijail) : Prop := {
  ai_jail : jail_ok j;
  ai_caps : F_use_caps ∈ j.(flags) ↔ st.(c_caps_) = true;
  ai_ambient : F_set_ambient_caps ∈ j.(flags) ↔ st.(c_ambient_caps) = true;
  ai_inherit : F_inherit_suppl_gids ∈ j.(flags) ↔ st.(c_inherit_suppl_gids) = true;
  ai_keep : F_keep_suppl_gids ∈ j.(flags) ↔ st.(c_keep_suppl_gids) = true;
  ai_gids : ¬ (st.(c_inherit_suppl_gids) = true ∧ st.(c_keep_suppl_gids) = true);
  ai_no_gids : F_set_suppl_gids ∉ j.(flags);
  ai_strict : F_seccomp ∈ j.(flags) ↔ st.(c_seccomp) = Strict;
  ai_filter : F_seccomp_filter ∈ j.(flags) ↔ st.(c_seccomp) = Filter ∨ st.(c_seccomp) = BpfBinaryFilter;
  ai_text : st.(c_use_seccomp_filter) = true ↔ st.(c_seccomp) = Filter;
  ai_binary : st.(c_use_seccomp_filter_binary) = true ↔ st.(c_seccomp) = BpfBinaryFilter;
  ai_uid : st.(c_use_uid) = true → st.(c_parse_mode) = true ∨ F_uid ∈ j.(flags);
  ai_gid : st.(c_use_gid) = true → st.(c_parse_mode) = true ∨ F_gid ∈ j.(flags);
}.

(** The options the invariant speaks of. *)
Definition view (st : cli) :=
  (st.(c_caps_), st.(c_ambient_caps), st.(c_inherit_suppl_gids), st.(c_keep_suppl_gids), st.(c_seccomp),
   st.(c_use_seccomp_filter), st.(c_use_seccomp_filter_binary), st.(c_use_uid), st.(c_use_gid),
   st.(c_parse_mode)).

Lemma inv_view st st' j : view st' = view st → args_inv st j → args_inv st' j.
Proof.
  unfold view. intros E []. injection E as E1 E2 E3 E4 E5 E6 E7 E8 E9 E10.
  split; rewrite ?E1, ?E2, ?E3, ?E4, ?E5, ?E6, ?E7, ?E8, ?E9, ?E10; assumption.
Qed.

Lemma initial_inv : args_inv initial_cli minijail_new.
Proof. split; [apply minijail_new_ok|..]; cbn; set_unfold; naive_solver. Qed.

(** One tracked flag is set, the others are the same. *)
Record sets (f : jflag) (j j' : minijail) : Prop := {
  sets_ok : jail_ok j';
  sets_it : f ∈ j'.(flags);
  sets_others : ∀ g, g ∈ tracked → g ≠ f → g ∈ j'.(flags) ↔ g ∈ j.(flags);
}.

Lemma sets_set_flag f j : jail_ok (set_flag f j) → sets f j (set_flag f j).
Proof. intros H. split; [done|unfold_jail; set_solver|]. intros g Hg Hne. unfold_jail. set_solver. Qed.

(** What is known of every tracked flag. *)
Ltac tracked_flag K f :=
  try (let H := fresh "Hflag" in
       pose proof (K f ltac:(apply (bool_decide_unpack _); vm_compute; exact I) ltac:(discriminate)) as H).
Ltac tracked_flags K :=
  tracked_flag K F_uid; tracked_flag K F_gid; tracked_flag K F_use_caps;
  tracked_flag K F_set_ambient_caps; tracked_flag K F_inherit_suppl_gids;
  tracked_flag K F_keep_suppl_gids; tracked_flag K F_set_suppl_gids; tracked_flag K F_seccomp;
  tracked_flag K F_seccomp_filter; clear K.

Lemma inv_neutral st j j' : args_inv st j → neutral j j' → args_inv st j'.
Proof.
  intros [] [Hj [K _]].
  assert (∀ f, f ∈ tracked → f ≠ F_vfs → f ∈ j'.(flags) ↔ f ∈ j.(flags)) as K' by auto. clear K.
  tracked_flags K'. split; [by apply Hj|..]; cbn in *; naive_solver.
Qed.

(** An option that sets a tracked flag: each part of the invariant from the same
    part before and from what is known of its flag. *)
Ltac inv_part Hi Hs old f :=
  let H := fresh "Hold" in let K := fresh "Hothers" in let Hit := fresh "Hit" in
  pose proof (old Hi) as H; destruct Hs as [_ Hit K];
  tracked_flag K f; clear K Hi; repeat read_field; intuition congruence.

Ltac inv_sets :=
  match goal with
  | Hi : args_inv ?st ?j, Hs : sets _ ?j ?j' |- args_inv _ ?j' =>
      split;
      [ exact (sets_ok _ _ _ Hs) | inv_part Hi Hs (ai_caps st j) F_use_caps
      | inv_part Hi Hs (ai_ambient st j) F_set_ambient_caps
      | inv_part Hi Hs (ai_inherit st j) F_inherit_suppl_gids
      | inv_part Hi Hs (ai_keep st j) F_keep_suppl_gids | inv_part Hi Hs (ai_gids st j) F_uid
      | inv_part Hi Hs (ai_no_gids st j) F_set_suppl_gids | inv_part Hi Hs (ai_strict st j) F_seccomp
      | inv_part Hi Hs (ai_filter st j) F_seccomp_filter | inv_part Hi Hs (ai_text st j) F_seccomp_filter
      | inv_part Hi Hs (ai_binary st j) F_seccomp_filter | inv_part Hi Hs (ai_uid st j) F_uid
      | inv_part Hi Hs (ai_gid st j) F_gid ]
  end.

(** *** The values of the options *)

Lemma neutral_step c j : jail_ok j → neutral_call c = true → wlp (api_step fs c j) (λ r, neutral j r.2).
Proof. intros Hj Hc. by apply wlp_neutral. Qed.

Lemma neutral_ok j j' : jail_ok j → neutral j j' → jail_ok j'.
Proof. intros Hj [H _]. auto. Qed.

(** The first of two neutral steps. *)
Lemma wlp_neutral_bind {A C} (m : io A) (g : A → minijail) (f : A → io C) (h : C → minijail) j :
  jail_ok j → wlp m (λ a, neutral j (g a)) →
  (∀ a, jail_ok (g a) → wlp (f a) (λ c, neutral (g a) (h c))) → wlp (m ≫= f) (λ c, neutral j (h c)).
Proof.
  intros Hj Hm Hf. apply wlp_bind. eapply wlp_mono; [|exact Hm]. intros a Ha.
  eapply wlp_mono; [|apply Hf; by apply (neutral_ok j)]. intros c Hc. exact (transitivity Ha Hc).
Qed.

Lemma or_exit_neutral j r : neutral j r.2 → wlp (or_exit r) (neutral j).
Proof. intros H. unfold or_exit. by destruct (negb _). Qed.

Lemma add_binding_neutral j arg : jail_ok j → wlp (add_binding j arg) (neutral j).
Proof.
  intros Hj. unfold add_binding. destruct (tokenize arg _) as [src arg1].
  destruct (tokenize arg1 _) as [dest arg2]. destruct (tokenize arg2 _) as [fl arg3].
  destruct src as [[|c src]|]; try done. destruct (bool_decide _); [done|]. cbv zeta.
  apply wlp_bind_any. intros w. apply wlp_bind.
  eapply wlp_mono; [|apply (neutral_step (A_bind _ _ w) j Hj eq_refl)].
  intros [ret j1] H1. by destruct (negb _).
Qed.

Lemma add_rlimit_neutral j arg : jail_ok j → wlp (add_rlimit j arg) (neutral j).
Proof.
  intros Hj. unfold add_rlimit. destruct (tokenize arg _) as [type arg1].
  destruct (tokenize arg1 _) as [cur arg2]. destruct (tokenize arg2 _) as [max arg3].
  destruct type as [[|? type]|], cur as [[|? cur]|], max as [[|? max]|], arg3; try done.
  apply wlp_bind_any. intros c. apply wlp_bind_any. intros m.
  destruct (parse_single_constant _) as [r|]; [|done].
  pose proof (neutral_step (A_rlimit (s32 r) c m) j Hj eq_refl) as H. cbn [api_step] in H.
  destruct (minijail_rlimit_ j _ c m) as [ret j1]. by destruct (negb _).
Qed.

Lemma add_mount_neutral j arg : jail_ok j → wlp (add_mount j arg) (neutral j).
Proof.
  intros Hj. unfold add_mount. destruct (tokenize arg _) as [src arg1].
  destruct (tokenize arg1 _) as [dest arg2]. destruct (tokenize arg2 _) as [type arg3].
  destruct (tokenize arg3 _) as [fl arg4]. destruct (tokenize arg4 _) as [data arg5].
  destruct src as [[|? src]|], dest as [[|? dest]|], type as [[|? type]|]; try done.
  cbv zeta. apply wlp_bind_any. intros mf.
  match goal with |- context [minijail_mount_with_data j ?s ?d ?t mf ?da] =>
    pose proof (neutral_step (A_mount_with_data s d t mf da) j Hj eq_refl) as H end.
  cbn [api_step] in H. destruct (minijail_mount_with_data j _ _ _ mf _) as [ret j1]. by destruct (negb (_ =? _)).
Qed.

Lemma bind_or_exit_neutral j path : jail_ok j → wlp (bind_or_exit j path) (neutral j).
Proof.
  intros Hj. apply wlp_bind. eapply wlp_mono; [|apply (neutral_step (A_bind path path false) j Hj eq_refl)].
  intros r. apply or_exit_neutral.
Qed.

Lemma use_chroot_neutral j path b : jail_ok j → wlp (use_chroot j path b) (neutral j).
Proof.
  intros Hj. unfold use_chroot. destruct b; [done|]. destruct path as [p|]; [|done].
  apply or_exit_neutral, (neutral_step (A_enter_chroot p) j Hj eq_refl).
Qed.

Lemma use_pivot_root_neutral j path b : jail_ok j → wlp (use_pivot_root j path b) (neutral j).
Proof.
  intros Hj. unfold use_pivot_root. destruct b; [done|]. destruct path as [p|]; [|done].
  apply (wlp_neutral_bind _ id _ id); [done| |].
  - apply or_exit_neutral, (neutral_step (A_enter_pivot_root p) j Hj eq_refl).
  - intros j1 H1. exact (neutral_step A_namespace_vfs j1 H1 eq_refl).
Qed.

Lemma use_profile_neutral j profile b size :
  jail_ok j → wlp (use_profile j profile b size) (λ r, neutral j r.1).
Proof.
  intros Hj. unfold use_profile. destruct (_ || _); [|done]. cbv zeta.
  pose proof (neutral_step A_namespace_vfs j Hj eq_refl) as H1. cbn [api_step wlp mret io_ret snd] in H1.
  set (j1 := minijail_namespace_vfs j) in *. clearbody j1.
  assert (jail_ok j1) as Hj1 by (by apply (neutral_ok j)).
  eapply wlp_mono; [intros r Hr; exact (transitivity H1 Hr)|]. clear j Hj H1.
  apply (wlp_neutral_bind _ id _ fst); [done|by apply bind_or_exit_neutral|]. intros j2 H2.
  apply (wlp_neutral_bind _ id _ fst); [done|by apply bind_or_exit_neutral|]. intros j3 H3.
  apply (wlp_neutral_bind _ id _ fst); [done| |].
  { destruct (streq _ _); [|by cbn]. apply (wlp_neutral_bind _ id _ id); [done|by apply bind_or_exit_neutral|].
    intros j4 H4. exact (neutral_step A_mount_dev j4 H4 eq_refl). }
  intros j4 H4. unfold id in *.
  pose proof (neutral_step A_remount_proc_readonly j4 H4 eq_refl) as H5. cbn [api_step wlp mret io_ret snd] in H5.
  assert (jail_ok (minijail_remount_proc_readonly j4)) as Hj5 by (by apply (neutral_ok j4)).
  pose proof (neutral_step A_set_using_minimalistic_mountns _ Hj5 eq_refl) as H6.
  cbn [api_step wlp mret io_ret snd] in H6.
  eapply wlp_mono; [intros r Hr; exact (transitivity (transitivity H5 H6) Hr)|].
  set (j6 := minijail_set_using_minimalistic_mountns _) in *.
  assert (jail_ok j6) as Hj6 by (by apply (neutral_ok _ _ Hj5)). clearbody j6.
  apply (wlp_neutral_bind _ id _ fst); [done|by apply use_pivot_root_neutral|]. by intros j7 _.
Qed.

Lemma change_uid_sets j u j' : jail_ok j → minijail_change_uid j u = Ret j' → sets F_uid j j'.
Proof.
  intros Hj H. pose proof (change_uid_ok _ _ _ Hj H) as Hj'. revert H Hj'. unfold minijail_change_uid.
  destruct (u =? 0); [done|]. intros [= <-] Hj'. by destruct (sets_set_flag _ _ Hj').
Qed.

Lemma set_user_sets j arg g : jail_ok j → wlp (set_user j arg g) (λ r, sets F_uid j r.1.1).
Proof.
  intros Hj. unfold set_user. destruct (whole_number arg) as [u|].
  - apply wlp_bind, wlp_lift. intros j1 H1. by apply (change_uid_sets _ u).
  - apply wlp_bind_any. intros [rc|[u g']]; [done|]. apply wlp_bind. unfold minijail_change_user.
    apply wlp_bind. unfold lookup_user. apply wlp_bind_any. intros a.
    eapply wlp_mono; [|apply lookup_loop_error]. intros [rc|[u1 g1]] Hrc.
    { cbn. by rewrite (proj2 (Z.eqb_neq rc 0) Hrc). }
    apply wlp_bind, wlp_lift. intros j1 H1. cbn. apply change_uid_sets in H1; [|done].
    destruct H1 as [H1 H2 H3]. split; [clear H2 H3; jail_solve|done|done].
Qed.

Lemma change_gid_sets j g j' : jail_ok j → minijail_change_gid j g = Ret j' → sets F_gid j j'.
Proof.
  intros Hj H. pose proof (change_gid_ok _ _ _ Hj H) as Hj'. revert H Hj'. unfold minijail_change_gid.
  destruct (g =? 0); [done|]. intros [= <-] Hj'. by destruct (sets_set_flag _ _ Hj').
Qed.

Lemma set_group_sets j arg : jail_ok j → wlp (set_group j arg) (λ r, sets F_gid j r.1).
Proof.
  intros Hj. apply wlp_bind_any. intros g. apply wlp_bind, wlp_lift. intros j1 H1.
  by apply (change_gid_sets _ g).
Qed.

Lemma minijail_use_caps_sets j m : jail_ok j → sets F_use_caps j (minijail_use_caps j m).
Proof.
  intros Hj. split; [by apply use_caps_ok|unfold minijail_use_caps; unfold_jail; set_solver|].
  intros f Hf Hne. unfold minijail_use_caps, flag. case_bool_decide; unfold_jail; set_solver.
Qed.

Lemma use_caps_sets j arg : jail_ok j → wlp (use_caps j arg) (sets F_use_caps j).
Proof.
  intros Hj. apply wlp_bind_any. intros a. apply wlp_bind_any. intros m. by apply minijail_use_caps_sets.
Qed.

Lemma namespaces_neutral j :
  jail_ok j → neutral j (minijail_namespace_pids (minijail_namespace_user j)).
Proof.
  intros Hj. pose proof (neutral_step A_namespace_user j Hj eq_refl) as H1.
  assert (jail_ok (minijail_namespace_user j)) as Hj1 by (by apply (neutral_ok j)).
  exact (transitivity H1 (neutral_step A_namespace_pids _ Hj1 eq_refl)).
Qed.

Lemma set_ugid_mapping_neutral j b1 u m1 b2 g m2 :
  jail_ok j → wlp (set_ugid_mapping j b1 u m1 b2 g m2) (neutral j).
Proof.
  intros Hj. apply (wlp_neutral_bind _ id _ id); [done| |].
  - destruct b1; [|by cbn]. cbv zeta. pose proof (namespaces_neutral j Hj) as H1.
    apply wlp_bind_any. intros m. unfold id. apply or_exit_neutral.
    assert (jail_ok (minijail_namespace_pids (minijail_namespace_user j))) as Hj1 by (by apply (neutral_ok j)).
    exact (transitivity H1 (neutral_step (A_uidmap m) _ Hj1 eq_refl)).
  - unfold id. intros j1 Hj1. destruct b2; [|by cbn]. cbv zeta. pose proof (namespaces_neutral j1 Hj1) as H1.
    apply wlp_bind_any. intros m. apply wlp_bind_any. intros can. apply or_exit_neutral.
    set (j2 := minijail_namespace_pids _) in *. assert (jail_ok j2) as Hj2 by (by apply (neutral_ok j1)).
    assert (neutral j1 (if can then j2 else minijail_namespace_user_disable_setgroups j2)) as H3.
    { destruct can; [done|].
      exact (transitivity H1 (neutral_step A_namespace_user_disable_setgroups _ Hj2 eq_refl)). }
    assert (jail_ok (if can then j2 else minijail_namespace_user_disable_setgroups j2)) as Hj3
      by (by apply (neutral_ok j1)).
    exact (transitivity H3 (neutral_step (A_gidmap m) _ Hj3 eq_refl)).
Qed.

Lemma set_remount_mode_neutral j mode : jail_ok j → wlp (set_remount_mode j mode) (neutral j).
Proof.
  intros Hj. pose proof (λ m, neutral_step (A_remount_mode m) j Hj eq_refl) as H.
  cbn [api_step wlp mret io_ret snd] in H. unfold set_remount_mode.
  repeat (destruct (streq _ _); [apply H|]). done.
Qed.

(** *** One option *)

Context (environ : list cstr) (errno_ : Z).

Notation inv_after := (λ r : cli * minijail, args_inv r.1 r.2).

(** The jail of a neutral step, whatever else of the options it changes. *)
Lemma wlp_neutral_then {A} st j (m : io A) (g : A → minijail) (f : A → io (cli * minijail)) :
  args_inv st j → wlp m (λ a, neutral j (g a)) → (∀ a, args_inv st (g a) → wlp (f a) inv_after) →
  wlp (m ≫= f) inv_after.
Proof.
  intros Hi Hm Hf. apply wlp_bind. eapply wlp_mono; [|exact Hm]. intros a Ha.
  apply Hf. by apply (inv_neutral st j).
Qed.

Lemma wlp_sets_then {A} f j (m : io A) (g : A → minijail) (k : A → io (cli * minijail)) :
  wlp m (λ a, sets f j (g a)) → (∀ a, sets f j (g a) → wlp (k a) inv_after) → wlp (m ≫= k) inv_after.
Proof. intros Hm Hk. apply wlp_bind. by eapply wlp_mono; [|exact Hm]. Qed.

(** A flag that is set directly. *)
Lemma api_sets c f j :
  jail_ok j → api_step fs c j = mret (0, set_flag f j) → sets f j (set_flag f j).
Proof. intros Hj E. apply sets_set_flag. pose proof (api_step_ok fs c j Hj) as H. by rewrite E in H. Qed.

(** The branch of the option. *)
Ltac open_option := cbv beta iota zeta delta [short_option long_option deref].

(** The invariant of options that only differ outside its view. *)
Ltac view_of H := refine (inv_view _ _ _ _ H); reflexivity.

Ltac neutral_option c := match goal with
  | Hi : args_inv ?st ?j |- _ =>
      view_of (inv_neutral st j _ Hi (neutral_step c j (ai_jail _ _ Hi) eq_refl))
  end.
Ltac setting_option c f := match goal with
  | Hi : args_inv ?st ?j |- _ =>
      let Hs := fresh "Hs" in pose proof (api_sets c f j (ai_jail _ _ Hi) eq_refl) as Hs;
      match goal with |- wlp (mret (?st', _)) _ => change (args_inv st' (set_flag f j)) end; inv_sets
  end.

Lemma seccomp_clash_false st t : seccomp_clash st t = false → st.(c_seccomp) = None_ ∨ st.(c_seccomp) = t.
Proof.
  unfold seccomp_clash. destruct (st.(c_seccomp)), t; cbn; auto; discriminate.
Qed.

Lemma option_u st j optarg : args_inv st j → wlp (short_option errno_ st j "u" optarg) inv_after.
Proof.
  intros Hi. open_option. destruct (c_use_uid st); [done|].
  change (c_parse_mode (_ <| _ := true |>)) with (c_parse_mode st).
  destruct (c_parse_mode st) eqn:E; [cbn; destruct Hi; split; cbn; auto|]. destruct optarg as [a|]; [|done].
  apply (wlp_sets_then F_uid j _ (λ r, r.1.1)); [apply set_user_sets, Hi|].
  intros [[j1 u] g] Hs. cbn in *. inv_sets.
Qed.

Lemma option_g st j optarg : args_inv st j → wlp (short_option errno_ st j "g" optarg) inv_after.
Proof.
  intros Hi. open_option. destruct (c_use_gid st); [done|].
  change (c_parse_mode (_ <| _ := true |>)) with (c_parse_mode st).
  destruct (c_parse_mode st) eqn:E; [cbn; destruct Hi; split; cbn; auto|]. destruct optarg as [a|]; [|done].
  apply (wlp_sets_then F_gid j _ fst); [apply set_group_sets, Hi|].
  intros [j1 g] Hs. cbn in *. inv_sets.
Qed.

Lemma option_seccomp st j optarg :
  args_inv st j → wlp (short_option errno_ st j "s" optarg) inv_after ∧
                  wlp (short_option errno_ st j "S" optarg) inv_after.
Proof.
  intros Hi. split; open_option.
  - destruct (seccomp_clash st Strict) eqn:E; [done|]. apply seccomp_clash_false in E.
    setting_option A_use_seccomp F_seccomp.
  - destruct (seccomp_clash st Filter) eqn:E; [done|]. apply seccomp_clash_false in E.
    destruct optarg; [|done]. setting_option A_use_seccomp_filter F_seccomp_filter.
Qed.

Lemma option_groups st j optarg :
  args_inv st j → wlp (short_option errno_ st j "G" optarg) inv_after ∧
                  wlp (short_option errno_ st j "y" optarg) inv_after.
Proof.
  intros Hi. split; open_option.
  - destruct (c_keep_suppl_gids st) eqn:E; [done|]. setting_option A_inherit_usergroups F_inherit_suppl_gids.
  - destruct (c_inherit_suppl_gids st) eqn:E; [done|].
    setting_option A_keep_supplementary_gids F_keep_suppl_gids.
Qed.

Lemma option_c st j optarg : args_inv st j → wlp (short_option errno_ st j "c" optarg) inv_after.
Proof.
  intros Hi. open_option. destruct optarg as [a|]; [|done].
  apply (wlp_sets_then F_use_caps j _ id); [apply use_caps_sets, Hi|]. unfold id.
  intros j1 Hs. cbn. inv_sets.
Qed.

(** Two neutral calls. *)
Lemma neutral_two c c' j j' :
  jail_ok j → neutral_call c = true → neutral_call c' = true →
  api_step fs c j = mret (0, j') → wlp (api_step fs c' j') (λ r, neutral j r.2).
Proof.
  intros Hj Hc Hc' E. pose proof (neutral_step c j Hj Hc) as H. rewrite E in H. cbn in H.
  eapply wlp_mono; [|apply neutral_step; [by apply (neutral_ok j)|done]].
  intros r Hr. exact (transitivity H Hr).
Qed.

Ltac neutral_options c c' := match goal with
  | Hi : args_inv ?st ?j |- _ =>
      view_of (inv_neutral st j _ Hi (neutral_two c c' j _ (ai_jail _ _ Hi) eq_refl eq_refl eq_refl))
  end.

(** A call of the API that may fail, then a change of the options. *)
Lemma wlp_api_option st j c m :
  args_inv st j → neutral_call c = true → void m = api_step fs c j → wlp (jail_only st m) inv_after.
Proof.
  intros Hi Hc E. apply wlp_bind.
  pose proof (neutral_step c j (ai_jail _ _ Hi) Hc) as H. rewrite <- E in H. unfold void in H.
  clear E. induction m as [j1| | | |o k IH]; cbn in *; auto. by apply (inv_neutral st j).
Qed.

Lemma wlp_or_exit_option st j r c :
  args_inv st j → neutral_call c = true → api_step fs c j = mret r → wlp (jail_only st (or_exit r)) inv_after.
Proof.
  intros Hi Hc E. pose proof (neutral_step c j (ai_jail _ _ Hi) Hc) as H. rewrite E in H. cbn in H.
  apply wlp_bind. eapply wlp_mono; [|by apply or_exit_neutral]. intros j1. by apply inv_neutral.
Qed.

Lemma option_t st j optarg : args_inv st j → wlp (short_option errno_ st j "t" optarg) inv_after.
Proof.
  intros Hi. open_option. destruct optarg as [a|]; [|neutral_option A_namespace_vfs].
  destruct (parse_size errno_ a) as [[|p|p] [sz|]]; try done; neutral_option A_namespace_vfs.
Qed.

Lemma option_bk st j optarg :
  args_inv st j → wlp (short_option errno_ st j "b" optarg) inv_after ∧
                  wlp (short_option errno_ st j "k" optarg) inv_after.
Proof.
  intros Hi. split; open_option; destruct (c_parse_mode st); try view_of Hi.
  - apply (wlp_neutral_then st j _ id); [done|apply add_binding_neutral, Hi|]. intros j1 H1. view_of H1.
  - apply (wlp_neutral_then st j _ id); [done|apply add_mount_neutral, Hi|]. intros j1 H1. view_of H1.
Qed.

Lemma option_root st j optarg :
  args_inv st j → wlp (short_option errno_ st j "C" optarg) inv_after ∧
                  wlp (short_option errno_ st j "P" optarg) inv_after ∧
                  wlp (short_option errno_ st j "R" optarg) inv_after.
Proof.
  intros Hi. split_and!; cbv beta iota zeta delta [short_option].
  - apply (wlp_neutral_then st j _ id); [done|apply use_chroot_neutral, Hi|]. intros j1 H1. view_of H1.
  - apply (wlp_neutral_then st j _ id); [done|apply use_pivot_root_neutral, Hi|]. intros j1 H1. view_of H1.
  - apply (wlp_neutral_then st j _ id); [done|apply add_rlimit_neutral, Hi|]. intros j1 H1. view_of H1.
Qed.

Lemma option_BfaT st j optarg :
  args_inv st j → wlp (short_option errno_ st j "B" optarg) inv_after ∧
                  wlp (short_option errno_ st j "f" optarg) inv_after ∧
                  wlp (short_option errno_ st j "a" optarg) inv_after ∧
                  wlp (short_option errno_ st j "T" optarg) inv_after.
Proof.
  intros Hi. split_and!; open_option.
  - destruct optarg as [a|]; [|done]. apply wlp_bind, wlp_bind_any. intros m.
    neutral_option (A_skip_setting_securebits m).
  - destruct (c_parse_mode st); [view_of Hi|]. destruct optarg as [a|]; [|done].
    by apply (wlp_or_exit_option st j _ (A_write_pid_file a)).
  - destruct optarg as [a|]; [|done]. by apply (wlp_or_exit_option st j _ (A_use_alt_syscall a)).
  - destruct optarg as [a|]; [|done]. repeat (destruct (streq _ _); [view_of Hi|]). done.
Qed.

Lemma option_namespaces st j optarg :
  args_inv st j → wlp (short_option errno_ st j "V" optarg) inv_after ∧
                  wlp (short_option errno_ st j "e" optarg) inv_after ∧
                  wlp (short_option errno_ st j "L" optarg) inv_after ∧
                  wlp (short_option errno_ st j "Y" optarg) inv_after.
Proof.
  intros Hi. split_and!; open_option.
  - destruct (c_parse_mode st); [view_of Hi|]. destruct optarg as [a|]; [|done].
    by apply (wlp_api_option st j (A_namespace_enter_vfs a)).
  - destruct (c_parse_mode st); [view_of Hi|]. destruct optarg as [a|]; [|neutral_option A_namespace_net].
    by apply (wlp_api_option st j (A_namespace_enter_net a)).
  - destruct (bool_decide _); [done|]. 
    apply (wlp_api_option (st <| c_use_seccomp_log := true |>) j A_log_seccomp_filter_failures); [|done|done].
    view_of Hi.
  - by apply (wlp_api_option st j A_set_seccomp_filter_tsync).
Qed.

Lemma short_option_inv st j c optarg : args_inv st j → wlp (short_option errno_ st j c optarg) inv_after.
Proof.
  intros Hi. destruct (option_seccomp st j optarg Hi), (option_groups st j optarg Hi),
    (option_bk st j optarg Hi), (option_root st j optarg Hi) as (? & ? & ?),
    (option_BfaT st j optarg Hi) as (? & ? & ? & ?), (option_namespaces st j optarg Hi) as (? & ? & ? & ?).
  pose proof (option_u st j optarg Hi). pose proof (option_g st j optarg Hi).
  pose proof (option_c st j optarg Hi). pose proof (option_t st j optarg Hi).
  destruct c as [[] [] [] [] [] [] [] []]; try assumption; try (intros ?; exact I); try view_of Hi.
  all: first
    [ neutral_option A_no_new_privs | neutral_option A_namespace_ipc
    | neutral_options A_namespace_vfs (A_remount_mode MS_SLAVE) | neutral_option A_remount_proc_readonly
    | neutral_option A_namespace_cgroups | neutral_option A_namespace_pids
    | neutral_options A_namespace_pids A_run_as_init | neutral_options A_namespace_user A_namespace_pids
    | neutral_option A_new_session_keyring | neutral_options A_namespace_vfs A_mount_dev ].
Qed.

Lemma fs_path_rule_inv st j optarg (rule : cstr → io (Z * minijail)) (c : cstr → api_call) :
  args_inv st j → (∀ a, neutral_call (c a) = true) → (∀ a, rule a = api_step fs (c a) j) →
  wlp (fs_path_rule st optarg rule) inv_after.
Proof.
  intros Hi Hc E. unfold fs_path_rule. destruct optarg as [a|]; [|done]. cbn [deref]. rewrite E.
  apply (wlp_neutral_then st j _ snd); [done|by apply neutral_step, Hc; apply Hi|].
  intros [rc j1] H1. view_of H1.
Qed.

Lemma option_uts st j optarg :
  args_inv st j → wlp (long_option environ st j OPT_UTS optarg) inv_after.
Proof.
  intros Hi. open_option. destruct optarg as [a|]; [|neutral_option A_namespace_uts].
  neutral_options A_namespace_uts (A_namespace_set_hostname a).
Qed.

Lemma option_binary st j optarg :
  args_inv st j → wlp (long_option environ st j OPT_SECCOMP_BPF_BINARY optarg) inv_after.
Proof.
  intros Hi. open_option. destruct (seccomp_clash st BpfBinaryFilter) eqn:E; [done|].
  apply seccomp_clash_false in E. destruct (c_use_seccomp_log st); [done|].
  setting_option A_use_seccomp_filter F_seccomp_filter.
Qed.

Lemma option_gen_config st j optarg :
  args_inv st j → wlp (long_option environ st j OPT_GEN_CONFIG optarg) inv_after.
Proof.
  intros Hi. open_option. destruct optarg as [a|]; [|done]. destruct Hi; split; cbn; auto.
Qed.

Lemma long_option_inv st j l optarg : args_inv st j → wlp (long_option environ st j l optarg) inv_after.
Proof.
  intros Hi. destruct l; try (by apply option_uts); try (by apply option_binary);
    try (by apply option_gen_config); cbv beta iota zeta delta [long_option]; try view_of Hi.
  - destruct optarg as [a|]; [|done]. apply wlp_bind_any. intros l. view_of Hi.
  - apply (wlp_api_option st j A_set_seccomp_filter_allow_speculation); done.
  - setting_option A_set_ambient_caps F_set_ambient_caps.
  - destruct optarg as [a|]; [|done]. apply wlp_bind_any. intros e. view_of Hi.
  - neutral_option A_set_enable_profile_fs_restrictions.
  - apply (wlp_api_option _ j A_enable_default_fs_restrictions); [view_of Hi|done|done].
  - by apply (fs_path_rule_inv st j _ _ A_add_fs_restriction_rx).
  - by apply (fs_path_rule_inv st j _ _ A_add_fs_restriction_ro).
  - by apply (fs_path_rule_inv st j _ _ A_add_fs_restriction_rw).
  - by apply (fs_path_rule_inv st j _ _ A_add_fs_restriction_advanced_rw).
  - destruct optarg as [a|]; [|done]. cbn [deref]. repeat (destruct (streq _ _); [view_of Hi|]). done.
  - neutral_option (A_set_enable_default_runtime false).
  - neutral_option A_disable_fs_restrictions.
  - destruct optarg as [a|]; [|done].
    apply (wlp_neutral_then st j _ fst); [done|apply use_profile_neutral, Hi|]. intros [j1 sz] H1. view_of H1.
Qed.

Lemma option_step_inv st j o optarg :
  args_inv st j → wlp (option_step environ errno_ st j o optarg) inv_after.
Proof.
  intros Hi. unfold option_step. set (st1 := st <| c_opt_entries := _ |>). assert (args_inv st1 j) as H1 by view_of Hi.
  destruct o; [by apply short_option_inv|by apply long_option_inv].
Qed.

Lemma conf_options_inv es st j : args_inv st j → wlp (conf_options environ errno_ es st j) inv_after.
Proof.
  revert st j. induction es as [|e es IH]; intros st j Hi; [done|]. cbn [conf_options].
  apply wlp_bind_any. intros o. destruct (bool_decide _); [done|]. apply wlp_bind.
  eapply wlp_mono; [|by apply option_step_inv]. intros [st1 j1]. apply IH.
Qed.

Lemma cli_options_inv opts st j : args_inv st j → wlp (cli_options environ errno_ opts st j) inv_after.
Proof.
  revert st j. induction opts as [|[o a] opts IH]; intros st j Hi; [done|]. cbn [cli_options].
  apply wlp_bind. eapply wlp_mono; [|by apply option_step_inv]. intros [st1 j1] H1. apply wlp_bind.
  apply (wlp_mono _ inv_after); [intros [st2 j2]; apply IH|]. destruct (bool_decide _); [|done].
  destruct a as [path|]; [|done]. apply wlp_bind_any. intros es. by apply conf_options_inv.
Qed.
End Args.
