(* ===== verification/ArgsProps.v ===== *)
(** * What a command line that minijail0 accepts guarantees

    The options are combined consistently: the jail is well formed, what an option
    promises is in it, and options that exclude each other are not; and the program
    is executed in the jail that the options describe. *)

From S2P Require Import SyscallFilter BpfMachine Policy FilterCorrect JailSpec.
From S2P Require Import Prelude CLib Util UtilProps Bpf OS Trace System Jail JailProps Codec Marshal Enter.
From S2P Require Import Emits MountProps EnterProps Fds Run Preload RunProps ConfigParser Elfparse Cli ParseArgs ArgsInv.
Local Open Scope Z_scope.

Section Accepted.
Context {B : BuildConfig} (fs : cstr → option (list ascii)).

(** ** The seccomp filter *)

Definition kept_flags : gset jflag :=
  {[F_uid; F_gid; F_use_caps; F_set_ambient_caps; F_inherit_suppl_gids; F_keep_suppl_gids;
    F_set_suppl_gids; F_seccomp; F_enable_default_runtime]}.

Definition same_flags (j j' : minijail) : Prop :=
  ∀ f, f ∈ kept_flags → f ∈ j'.(flags) ↔ f ∈ j.(flags).

(** The filter is there, or the kernel has none and the build allows that. *)
Record installed (j j' : minijail) : Prop := {
  in_ok : jail_ok j';
  in_flags : same_flags j j';
  in_filter : (F_seccomp_filter ∈ j'.(flags) ↔ F_seccomp_filter ∈ j.(flags)) ∧ is_Some j'.(filter_prog) ∨
              F_seccomp_filter ∉ j'.(flags) ∧ seccomp_can_softfail = true;
}.

Lemma clear_same_flags f j : f ∉ kept_flags → same_flags j (clear_flag f j).
Proof. intros Hf g Hg. unfold_jail. set_solver. Qed.

Lemma clear_seccomp_installed j : jail_ok j → seccomp_can_softfail = true → installed j (clear_seccomp_options j).
Proof.
  intros Hj Hs. split; [by apply clear_seccomp_options_ok| |right; split; [|done]]; unfold clear_seccomp_options.
  - intros f Hf. unfold kept_flags in Hf. unfold_jail. set_solver.
  - unfold_jail. set_solver.
Qed.

Lemma should_use_filters_installs j :
  jail_ok j →
  wlp (seccomp_should_use_filters j) (λ r,
    if r.1 : bool then jail_ok r.2 ∧ same_flags j r.2 ∧
                       (F_seccomp_filter ∈ r.2.(flags) ↔ F_seccomp_filter ∈ j.(flags))
    else installed j r.2).
Proof.
  intros Hj. apply wlp_bind, wlp_call. intros a. destruct (_ && _) eqn:E.
  { apply andb_true_iff in E as [_ E]. apply andb_true_iff in E as [_ E]. by apply clear_seccomp_installed. }
  clear E. apply wlp_bind.
  apply (wlp_mono _ (λ b, b = true → seccomp_can_softfail = true)).
  - intros [] Hb; [by apply clear_seccomp_installed; auto|].
    destruct (flag j F_seccomp_filter_allow_speculation); [|done].
    apply wlp_bind_any. intros []; cbn; [done|]. split_and!.
    + apply clear_flag_ok; [by apply (bool_decide_unpack _); vm_compute|done].
    + apply clear_same_flags. by apply (bool_decide_unpack _); vm_compute.
    + unfold_jail. set_solver.
  - destruct (flag j F_seccomp_filter_tsync); cbn; [|done].
    intros b [_ H]%andb_true_iff. done.
Qed.

Lemma filters_installed j prog j' :
  jail_ok j' → same_flags j j' → (F_seccomp_filter ∈ j'.(flags) ↔ F_seccomp_filter ∈ j.(flags)) →
  installed j (set_seccomp_filters_internal j' prog).
Proof. intros H1 H2 H3. split; [by apply set_filters_ok|done|left; by eauto]. Qed.

Lemma set_filters_installed j path : jail_ok j → wlp (set_seccomp_filters j path) (installed j).
Proof.
  intros Hj. apply wlp_bind_any. intros prog. apply wlp_bind.
  eapply wlp_mono; [|by apply should_use_filters_installs]. intros [[] j1] H1; [|done].
  destruct H1 as (H1 & H2 & H3). cbn [negb]. destruct (seccomp_is_logging_allowed j1); [done|].
  by apply filters_installed.
Qed.

Lemma policy_path_installed j j' p : installed j j' → installed j (j' <| seccomp_policy_path := p |>).
Proof. intros []. split; [by apply policy_path_ok|done|done]. Qed.

Lemma parse_filters_installed j path :
  jail_ok j → wlp (minijail_parse_seccomp_filters fs j path) (installed j).
Proof.
  intros Hj. apply wlp_bind. eapply wlp_mono; [|by apply should_use_filters_installs].
  intros [[] j1] H1; [|done]. destruct H1 as (H1 & H2 & H3). cbn [negb].
  destruct (fs path) as [file|]; [|done]. apply wlp_bind, wlp_bind_any. intros opts. apply wlp_bind_any.
  intros [prog|]; [|done]. cbn. by apply policy_path_installed, filters_installed.
Qed.

(** ** After the last option *)

Context (environ : list cstr) (errno_ : Z).

(** What is true of the jail once the supplementary groups are chosen. *)
Record settled (st : cli) (j : minijail) : Prop := {
  se_jail : jail_ok j;
  se_caps : F_use_caps ∈ j.(flags) ↔ st.(c_caps_) = true;
  se_ambient : F_set_ambient_caps ∈ j.(flags) ↔ st.(c_ambient_caps) = true;
  se_gids : ¬ (F_inherit_suppl_gids ∈ j.(flags) ∧ F_keep_suppl_gids ∈ j.(flags)) ∧
            (F_set_suppl_gids ∈ j.(flags) →
             F_inherit_suppl_gids ∉ j.(flags) ∧ F_keep_suppl_gids ∉ j.(flags));
  se_strict : F_seccomp ∈ j.(flags) ↔ st.(c_seccomp) = Strict;
  se_uid : st.(c_use_uid) = true → F_uid ∈ j.(flags);
  se_gid : st.(c_use_gid) = true → F_gid ∈ j.(flags);
}.

(** The policy of -S is in the jail's program. *)
Definition policy_read (st : cli) (j : minijail) : Prop :=
  F_seccomp_filter ∈ j.(flags) → ∃ path file prog,
    st.(c_filter_path) = Some path ∧ fs path = Some file ∧ j.(filter_prog) = Some prog ∧
    decides fs prog (debug_logging_allowed && seccomp_is_logging_allowed j) file.

(** What is true of the jail once the filter is installed. *)
Record filtered (st : cli) (j : minijail) : Prop := {
  fi_prog : F_seccomp_filter ∈ j.(flags) → is_Some j.(filter_prog);
  fi_asked : st.(c_seccomp) = Filter ∨ st.(c_seccomp) = BpfBinaryFilter →
             F_seccomp_filter ∈ j.(flags) ∨ seccomp_can_softfail = true;
  fi_modes : F_seccomp ∈ j.(flags) → F_seccomp_filter ∈ j.(flags) → F_enable_default_runtime ∈ j.(flags);
  fi_default : st.(c_seccomp) = None_ ∨ st.(c_seccomp) = Strict → F_enable_default_runtime ∈ j.(flags) →
               F_no_new_privs ∈ j.(flags);
  fi_policy : st.(c_seccomp) = Filter → policy_read st j;
}.

Lemma same_flag f j j' : same_flags j j' → f ∈ kept_flags → f ∈ j'.(flags) ↔ f ∈ j.(flags).
Proof. auto. Qed.

Ltac kept K f := rewrite (same_flag f _ _ K) by (apply (bool_decide_unpack _); vm_compute; exact I).

Lemma settled_same st j j' : settled st j → jail_ok j' → same_flags j j' → settled st j'.
Proof.
  intros [] Hj K. split; try done.
  - by kept K F_use_caps.
  - by kept K F_set_ambient_caps.
  - by kept K F_inherit_suppl_gids; kept K F_keep_suppl_gids; kept K F_set_suppl_gids.
  - by kept K F_seccomp.
  - by kept K F_uid.
  - by kept K F_gid.
Qed.

Lemma setup_logging_neutral st j : jail_ok j → wlp (setup_logging st j) (neutral j).
Proof.
  intros Hj. apply wlp_bind_any. intros []; [|by cbn].
  apply or_exit_neutral, (neutral_step fs (A_preserve_fd STDERR_FILENO_ STDERR_FILENO_) j Hj eq_refl).
Qed.

Lemma setup_remount_neutral st j : jail_ok j → wlp (setup_remount st j) (neutral j).
Proof.
  intros Hj. unfold setup_remount. destruct (c_change_remount st); [|by cbn].
  destruct (c_remount_mode_ st); [by apply (set_remount_mode_neutral fs)|].
  exact (neutral_step fs A_skip_remount_private j Hj eq_refl).
Qed.

Lemma set_gids_cases j l j' :
  minijail_set_supplementary_gids j l = Ret j' →
  F_inherit_suppl_gids ∉ j.(flags) ∧ F_keep_suppl_gids ∉ j.(flags) ∧
  j'.(flags) = {[F_set_suppl_gids]} ∪ j.(flags).
Proof.
  unfold minijail_set_supplementary_gids, flag. do 2 (case_bool_decide; [done|]).
  case_bool_decide; intros [= <-]; done.
Qed.

Lemma setup_suppl_gids_settled st j :
  args_inv st j → st.(c_parse_mode) = false →
  wlp (setup_suppl_gids st j)
    (λ j', settled st j' ∧ (F_seccomp_filter ∈ j'.(flags) ↔ F_seccomp_filter ∈ j.(flags))).
Proof.
  intros [] Hp. unfold setup_suppl_gids. rewrite Hp in *. case_bool_decide.
  - cbn. split; [|done]. split; try done; naive_solver.
  - apply wlp_lift. intros j' E. pose proof (set_supplementary_gids_ok _ _ _ ai_jail E) as Hj'.
    apply set_gids_cases in E as (H1 & H2 & E). rewrite E. split; [|set_solver].
    split; try done; rewrite E; set_unfold; naive_solver.
Qed.

Lemma no_new_privs_settled st j :
  settled st j → (F_seccomp_filter ∈ j.(flags) → is_Some j.(filter_prog)) →
  F_enable_default_runtime ∈ j.(flags) →
  ¬ (st.(c_seccomp) = Filter ∨ st.(c_seccomp) = BpfBinaryFilter) →
  settled st (minijail_no_new_privs j) ∧ filtered st (minijail_no_new_privs j).
Proof.
  intros Hs Hp Hd Hm. pose proof (neutral_step fs A_no_new_privs j (se_jail _ _ Hs) eq_refl) as Hn.
  assert (same_flags j (minijail_no_new_privs j)) as K.
  { intros f Hf. unfold kept_flags in Hf. unfold minijail_no_new_privs. unfold_jail. set_solver. }
  split; [apply (settled_same st j); [done|by apply (neutral_ok j); [apply Hs|]|done]|].
  clear Hn K. split; unfold minijail_no_new_privs; unfold_jail; set_unfold; intuition congruence.
Qed.

Lemma setup_seccomp_filtered st j :
  settled st j →
  (F_seccomp_filter ∈ j.(flags) ↔ st.(c_seccomp) = Filter ∨ st.(c_seccomp) = BpfBinaryFilter) →
  (st.(c_use_seccomp_filter) = true ↔ st.(c_seccomp) = Filter) →
  (st.(c_use_seccomp_filter_binary) = true ↔ st.(c_seccomp) = BpfBinaryFilter) →
  wlp (setup_seccomp fs st j) (λ j', settled st j' ∧ filtered st j').
Proof.
  intros Hs Hf Ht Hb. assert (st.(c_seccomp) = Filter ∨ st.(c_seccomp) = BpfBinaryFilter → ∀ j',
    installed j j' → (st.(c_seccomp) = Filter → policy_read st j') → settled st j' ∧ filtered st j') as Hfi.
  { intros Hm j' [Hok K Hin] Hpol. assert (settled st j') as Hs' by (by apply (settled_same st j)). split; [done|].
    assert (F_seccomp ∉ j'.(flags)) as Hn. { rewrite (se_strict _ _ Hs'). by destruct Hm as [-> | ->]. }
    split.
    - intros H. destruct Hin as [[_ ?]|[Hc _]]; [done|by destruct Hc].
    - intros _. destruct Hin as [[E _]|[_ ?]]; [left; by apply E, Hf|by right].
    - intros H. by destruct Hn.
    - intros [E|E]; rewrite E in Hm; by destruct Hm.
    - exact Hpol. }
  unfold setup_seccomp. destruct (c_use_seccomp_filter st).
  { destruct (c_filter_path st) as [path|] eqn:Epath; [|done].
    eapply wlp_mono; [|apply wlp_conj; [apply parse_filters_installed, Hs|apply parse_filters_enforced]].
    intros j' [Hin Hpol]. apply Hfi; [left; by apply Ht|done|]. intros _ Hflag.
    destruct Hpol as [(file & Hfile & _ & (prog & Hprog & _ & Hd) & _ & Hl)|(_ & _ & Hno)]; [|done].
    exists path, file, prog. split_and!; [done..|]. by rewrite Hl. }
  destruct (c_use_seccomp_filter_binary st).
  { destruct (c_filter_path st); [|done].
    eapply wlp_mono; [|apply set_filters_installed, Hs]. intros j' Hin. apply Hfi; [right; by apply Hb|done|].
    intros E. rewrite (proj1 Hb eq_refl) in E. done. }
  assert (F_seccomp_filter ∉ j.(flags)) as Hnf by naive_solver.
  unfold minijail_get_enable_default_runtime, flag. case_bool_decide as Hd.
  2: { cbn. split; [done|]. split; naive_solver. }
  apply wlp_bind, wlp_call. intros a. apply wlp_bind.
  apply (wlp_mono _ (λ j', jail_ok j' ∧ same_flags j j' ∧
                           (F_seccomp_filter ∈ j'.(flags) → is_Some j'.(filter_prog)))).
  - intros j' (Hok & K & Hp). cbn. apply no_new_privs_settled; [by apply (settled_same st j)|done| |].
    + by kept K F_enable_default_runtime.
    + rewrite Hf in Hnf. tauto.
  - destruct (rv a =? 0); [|cbn; split_and!; [apply Hs|done|done]].
    assert (jail_ok (minijail_use_seccomp_filter j)) as Hj.
    { exact (api_step_ok fs A_use_seccomp_filter j (se_jail _ _ Hs)). }
    eapply wlp_mono; [|by apply set_filters_installed]. intros j' [Hok K Hin]. split_and!; [done| |].
    + intros f Hfk. rewrite (K f Hfk). unfold minijail_use_seccomp_filter, kept_flags in *. unfold_jail. set_solver.
    + intros H. destruct Hin as [[_ ?]|[Hc _]]; [done|by destruct Hc].
Qed.

(** *** What an accepted command line promises *)

Record accepted_jail (st : cli) (j : minijail) (rest : list cstr) : Prop := {
  ac_settled : settled st j;
  ac_filtered : filtered st j;
  ac_ambient : F_set_ambient_caps ∈ j.(flags) → F_use_caps ∈ j.(flags);
  ac_static : st.(c_elftype) = ELFSTATIC → F_use_caps ∈ j.(flags) → F_set_ambient_caps ∈ j.(flags);
  ac_program : rest ≠ [];
  ac_environment : is_Some st.(c_envp);
}.

(** The last calls change neither these flags nor the filter. *)
Definition final_flags : gset jflag := kept_flags ∪ {[F_seccomp_filter; F_no_new_privs; F_seccomp_filter_logging]}.

Lemma final_keeps st j j' :
  settled st j ∧ filtered st j → jail_ok j' → keeps final_flags j j' → settled st j' ∧ filtered st j'.
Proof.
  intros [Hs []] Hj [K E].
  assert (same_flags j j') as K' by (intros f Hf; apply K; unfold final_flags; set_solver).
  split; [by apply (settled_same st j)|].
  assert (seccomp_is_logging_allowed j' = seccomp_is_logging_allowed j) as El.
  { unfold seccomp_is_logging_allowed, flag. f_equal. apply bool_decide_ext, K.
    apply (bool_decide_unpack _). vm_compute. exact I. }
  unfold policy_read in *.
  split; unfold policy_read; rewrite ?El, ?E, ?(K F_seccomp_filter), ?(K F_no_new_privs),
    ?(K F_enable_default_runtime), ?(K F_seccomp)
    by (apply (bool_decide_unpack _); vm_compute; exact I); assumption.
Qed.

Lemma mount_tmp_keeps st j :
  jail_ok j →
  let j' := if c_tmp_size st =? 0 then j else minijail_mount_tmp_size j (c_tmp_size st) in
  jail_ok j' ∧ keeps final_flags j j'.
Proof.
  intros Hj. destruct (_ =? 0); cbv zeta; [done|].
  split; [exact (api_step_ok fs (A_mount_tmp_size (c_tmp_size st)) j Hj)|].
  eapply keeps_trans; [by apply (keeps_same j (j <| tmpfs_size := c_tmp_size st |>))|].
  apply keeps_set. by apply (bool_decide_unpack _); vm_compute.
Qed.

(** --gen-config never returns. *)
Lemma write_config_ends {A} st (P : A → Prop) : wlp (write_config st) P.
Proof.
  unfold write_config. destruct (c_config_path st); [|done]. cbn. intros a. destruct (rv a =? 0); [done|].
  intros b. by destruct (rv b <? 0).
Qed.

(** The program is known and its linkage goes with the capabilities. *)
Lemma find_linkage_accepted st j rest e :
  settled st j ∧ filtered st j → (c_ambient_caps st && negb (c_caps_ st) = false) → is_Some e →
  wlp (match rest with
       | [] => exit_ 1
       | program :: _ =>
           elftype ← find_linkage st j program;
           if st.(c_caps_) && bool_decide (elftype = ELFSTATIC) && negb st.(c_ambient_caps) then IDie
           else mret (st <| c_envp := e |> <| c_elftype := elftype |>, j)
       end) (λ r, accepted_jail r.1 r.2 rest).
Proof.
  intros [Hs Hf] Ha He. destruct rest as [|program rest]; [done|]. apply wlp_bind_any. intros ty.
  destruct (_ && negb (c_ambient_caps st)) eqn:E; [done|]. cbn. destruct Hs, Hf. split; [by split|by split| | |done|done].
  - rewrite se_ambient0, se_caps0. by destruct (c_ambient_caps st), (c_caps_ st).
  - rewrite se_ambient0, se_caps0. intros Hty Hc. change (ty = ELFSTATIC) in Hty. subst ty. rewrite Hc in E. cbn in E.
    by destruct (c_ambient_caps st).
Qed.

Lemma finish_args_accepted st j rest :
  args_inv st j → wlp (finish_args environ fs st j rest) (λ r, accepted_jail r.1 r.2 rest).
Proof.
  intros Hi. unfold finish_args. apply wlp_bind.
  eapply wlp_mono; [|apply setup_logging_neutral, Hi]. intros j1 H1%(inv_neutral _ _ _ Hi). clear j Hi.
  destruct (_ && _); [done|]. destruct (c_parse_mode st) eqn:Hp; [apply write_config_ends|].
  apply wlp_bind. apply (wlp_mono _ (args_inv st)).
  2: { destruct (_ || _); [|done]. eapply wlp_mono; [|apply (set_ugid_mapping_neutral fs), H1].
       intros j2. by apply inv_neutral. }
  clear j1 H1. intros j1 H1. destruct (c_ambient_caps st && _) eqn:Ha; [done|]. cbv zeta.
  set (j2 := if c_forward st then _ else _). assert (args_inv st j2) as H2.
  { subst j2. destruct (c_forward st); [|done]. apply (inv_neutral st j1); [done|].
    exact (neutral_step fs A_forward_signals j1 (ai_jail _ _ H1) eq_refl). }
  clearbody j2. clear j1 H1. destruct (c_binding st && _); [done|]. destruct (c_change_remount st && _); [done|].
  apply wlp_bind. eapply wlp_mono; [|apply setup_remount_neutral, H2]. intros j3 H3%(inv_neutral _ _ _ H2).
  clear j2 H2. apply wlp_bind. eapply wlp_mono; [|by apply setup_suppl_gids_settled]. intros j4 [Hs Hf].
  apply wlp_bind. eapply wlp_mono; [|apply setup_seccomp_filtered;
    [done|rewrite Hf; exact (ai_filter _ _ H3)|exact (ai_text _ _ H3)|exact (ai_binary _ _ H3)]].
  clear j4 Hs Hf j3 H3. intros j5 H5. pose proof (mount_tmp_keeps st j5 (se_jail _ _ (proj1 H5))) as [Hj6 K6].
  set (j6 := if c_tmp_size st =? 0 then _ else _) in *. clearbody j6.
  assert (settled st j6 ∧ filtered st j6) as H6 by (by apply (final_keeps st j5)). apply wlp_bind.
  eapply wlp_mono; [|apply wlp_conj; [by apply minimalistic_rules_ok|apply (wlp_keeps_minimalistic final_flags)]].
  intros j7 [Hj7 K7]. apply find_linkage_accepted; [by apply (final_keeps st j6)|done|].
  destruct (c_envp st); by eauto.
Qed.

Lemma parse_args_wlp opts rest :
  wlp (parse_args environ fs errno_ minijail_new opts rest) (λ r, accepted_jail r.1 r.2 rest).
Proof.
  apply wlp_bind. eapply wlp_mono; [|apply (cli_options_inv fs), initial_inv].
  intros [st j]. apply finish_args_accepted.
Qed.

End Accepted.

(** ** The program runs in the jail the options describe *)

Section Main.
Context {B : BuildConfig} (environ : list cstr) (fs : cstr → option (list ascii)) (errno_ : Z).

Lemma lookup_loop_quiet {A} n call_r (found : list Z → option A) max sz :
  (∀ sz, no_exec (call_r sz)) → calls_only no_exec (lookup_loop n call_r found max sz).
Proof.
  intros Hc. revert sz. induction n as [|n IH]; intros sz; cbn [lookup_loop]; [exact I|].
  apply calls_only_bind; [by apply calls_only_call|]. intros a. quiet.
Qed.

Lemma lookup_user_quiet u : calls_only no_exec (lookup_user u).
Proof. apply calls_only_bind; [by apply calls_only_call|intros a; by apply lookup_loop_quiet]. Qed.
Lemma lookup_group_quiet g : calls_only no_exec (lookup_group g).
Proof. apply calls_only_bind; [by apply calls_only_call|intros a; by apply lookup_loop_quiet]. Qed.
Hint Resolve lookup_user_quiet lookup_group_quiet : mj.

Lemma parsed_caps_quiet n i c : calls_only no_exec (parsed_caps n i c).
Proof. revert i c. induction n as [|n IH]; intros i c; cbn [parsed_caps]; [exact I|]. quiet. Qed.
Hint Resolve parsed_caps_quiet : mj.

Lemma add_fs_restrictions_rx_quiet j ps : calls_only no_exec (add_fs_restrictions_rx j ps).
Proof. revert j. induction ps as [|p ps IH]; intros j; cbn [add_fs_restrictions_rx]; [exact I|]. quiet. Qed.
Hint Resolve add_fs_restrictions_rx_quiet : mj.

Lemma add_mount_fs_rules_quiet j ms : calls_only no_exec (add_mount_fs_rules j ms).
Proof. revert j. induction ms as [|m ms IH]; intros j; cbn [add_mount_fs_rules]; [exact I|]. quiet. Qed.
Hint Resolve add_mount_fs_rules_quiet : mj.

Lemma option_step_quiet st j o a : calls_only no_exec (option_step environ errno_ st j o a).
Proof. unfold option_step. destruct o as [c|l]; [|destruct l; quiet]. unfold short_option. quiet. Qed.
Hint Resolve option_step_quiet : mj.

Lemma conf_options_quiet es st j : calls_only no_exec (conf_options environ errno_ es st j).
Proof. revert st j. induction es as [|e es IH]; intros st j; cbn [conf_options]; [exact I|]. quiet. Qed.
Hint Resolve conf_options_quiet : mj.

Lemma cli_options_quiet opts st j : calls_only no_exec (cli_options environ errno_ opts st j).
Proof.
  revert st j. induction opts as [|[o a] opts IH]; intros st j; cbn [cli_options]; [exact I|]. quiet.
Qed.
Hint Resolve cli_options_quiet : mj.

Lemma parse_args_quiet j opts rest : calls_only no_exec (parse_args environ fs errno_ j opts rest).
Proof. unfold parse_args. quiet. Qed.

(** *** The run and the wait *)

Lemma config_internal_jailed fuel j config :
  before (minijail_run_config_internal environ fuel j config) [] (λ c t, ¬ no_exec c → jailed j config t).
Proof.
  apply before_bind; [apply run_internal_jailed|]. eapply traces_mono; [|apply traces_true].
  intros [[ret j1] st] t _. eapply (before_only no_exec); [|done]. quiet.
Qed.

Lemma waitpid_loop_quiet fuel pid : calls_only no_exec (waitpid_loop fuel pid).
Proof. induction fuel as [|fuel IH]; cbn [waitpid_loop]; [exact I|]. quiet. Qed.
Hint Resolve waitpid_loop_quiet : mj.

(** What minijail0 runs: the words behind the options, with the preloaded library
    when the program is dynamic. *)
Record runs (st : cli) (argv : list cstr) (config : minijail_run_config) : Prop := {
  runs_program : config.(rc_filename) = head argv;
  runs_argv : config.(rc_argv) = argv;
  runs_preload : config.(rc_use_preload) = bool_decide (st.(c_elftype) = ELFDYNAMIC);
}.

Lemma set_preload_path_same j path : ∃ p, (minijail_set_preload_path j path).2 = j <| preload_path := p |>.
Proof.
  unfold minijail_set_preload_path. case_bool_decide; [|by eexists]. exists j.(preload_path). by destruct j.
Qed.

Lemma jailed_app j config t0 t : jailed j config t → jailed j config (t0 ++ t).
Proof.
  intros (j' & t1 & t2 & t3 & -> & Hs & Hr & He). exists j', (t0 ++ t1), t2, t3. split_and!; [by rewrite app_assoc|done| |].
  - intros H. destruct (Hr H) as (fd & ans & Hin & Hz). exists fd, ans. rewrite elem_of_app. auto.
  - rewrite list.Forall_app. intros [_ H]. by apply He.
Qed.

Lemma traces_wlp {A} (m : io A) (P : A → Prop) : wlp m P → traces m (λ a _, P a).
Proof. induction m as [a| | | |c k IH]; simpl; auto. Qed.

(** A run whose results are dropped. *)
Lemma run_jailed_then st argv config fuel j j0 p :
  runs st argv config → j0 = j <| preload_path := p |> →
  before ('(_, j, _) ← minijail_run_config_internal environ fuel j0 config; mret j) [] (λ c t, ¬ no_exec c →
    ∃ p config, runs st argv config ∧ jailed (j <| preload_path := p |>) config t).
Proof.
  intros Hr ->. apply before_bind.
  - eapply before_mono; [|apply config_internal_jailed]. intros c t H Hc. exists p, config. by auto.
  - eapply traces_mono; [|apply traces_true]. by intros [[? ?] ?] t _.
Qed.

Lemma run_target_jailed fuel st j program rest :
  before (run_target environ fuel st j program (program :: rest)) [] (λ c t, ¬ no_exec c →
    ∃ p config, runs st (program :: rest) config ∧ jailed (j <| preload_path := p |>) config t).
Proof.
  unfold run_target. destruct (c_elftype st) eqn:E; [done| |].
  - apply (run_jailed_then st _ _ fuel j j j.(preload_path)); [|by destruct j]. split; [done|done|by rewrite E].
  - destruct (c_preload_path_ st) as [path|]; [|done]. cbn [deref].
    apply before_bind; [by split|]. intros a.
    change (before (if rv a =? 0 then IDie else
                    let j := (minijail_set_preload_path j path).2 in
                    match st.(c_envp) with
                    | Some envp => '(_, j, _) ← minijail_run_env environ fuel j program (program :: rest) envp; mret j
                    | None => '(_, j, _) ← minijail_run environ fuel j program (program :: rest); mret j
                    end) [(Dlopen path, a)] (λ c t, ¬ no_exec c →
      ∃ p config, runs st (program :: rest) config ∧ jailed (j <| preload_path := p |>) config t)).
    destruct (rv a =? 0); [done|]. cbv zeta. destruct (set_preload_path_same j path) as [p Hp].
    eapply before_shift; [|destruct (c_envp st) as [envp|];
      apply (run_jailed_then st (program :: rest) _ fuel j _ p); [|exact Hp| |exact Hp];
      (split; [reflexivity|reflexivity|rewrite E; reflexivity])].
    intros c t H Hc. destruct (H Hc) as (p' & config & Hr & Hj). exists p', config. split; [done|].
    by apply jailed_app.
Qed.

Lemma main_run_jailed fuel st j argv a :
  before (if negb (rv a =? 0) && negb (eno a =? EPERM) then IDie
          else match argv with
               | [] => IUndef
               | program :: _ =>
                   j ← run_target environ fuel st j program argv;
                   if st.(c_exit_immediately) then mret 0 else minijail_wait fuel j
               end) [] (λ c t, ¬ no_exec c →
    ∃ p config, runs st argv config ∧ jailed (j <| preload_path := p |>) config t).
Proof.
  destruct (_ && _); [done|]. destruct argv as [|program rest]; [done|].
  apply before_bind; [apply run_target_jailed|]. eapply traces_mono; [|apply traces_true]. intros j1 t _.
  eapply (before_only no_exec); [|done]. quiet.
Qed.

Lemma main_jailed fuel opts argv :
  before (main_ environ fs errno_ fuel opts argv) [] (λ c t, ¬ no_exec c →
    ∃ t1 t2 st j p config, t = t1 ++ t2 ∧
      ran (parse_args environ fs errno_ minijail_new opts argv) t1 (st, j) ∧ accepted_jail fs st j argv ∧
      runs st argv config ∧ jailed (j <| preload_path := p |>) config t2).
Proof.
  apply before_bind; [eapply before_only; [apply parse_args_quiet|done]|].
  eapply traces_mono; [|apply traces_conj; [apply traces_ran|apply traces_wlp, parse_args_wlp]].
  intros [st j] t1 [Hran Hacc]. cbn [app fst snd] in *. apply before_bind; [by split|]. intros a.
  eapply (before_shift _ (t1 ++ [(Setpgid, a)])); [|eapply (main_run_jailed fuel st j argv a)].
  intros c t H Hc. destruct (H Hc) as (p & config & Hr & Hj).
  exists t1, ((Setpgid, a) :: t), st, j, p, config. split_and!; [by rewrite <- app_assoc|done..|].
  by apply (jailed_app _ _ [(Setpgid, a)]).
Qed.


(** A jail without the preloaded library installs its filter itself. *)
Lemma jailed_filter j config t prog :
  jailed j config t → config.(rc_use_preload) = false → Forall honest t →
  flag j F_seccomp_filter = true → running_with_asan = false → j.(filter_prog) = Some prog →
  ∃ c ans, (c, ans) ∈ t ∧ rv ans = 0 ∧ installs c prog.
Proof.
  intros (j' & t1 & t2 & t3 & -> & (n & fd & abi & fds & ->) & _ & He) Hp Hh Hf Ha Hprog.
  destruct (He Hh) as [Hent _]. rewrite Hp in Hent.
  set (j' := j <| filename := n |> <| fs_rules_fd := fd |> <| fs_rules_landlock_abi := abi |>
               <| preserved_fds := fds |>) in *.
  assert (flag (child_jail j' false) F_seccomp_filter = true) as Hcf.
  { apply bool_decide_eq_true in Hf. unfold child_jail. subst j'. case_match; unfold_jail; apply bool_decide_eq_true;
      set_solver. }
  assert ((child_jail j' false).(filter_prog) = Some prog) as Hcp.
  { unfold child_jail. subst j'. by case_match. }
  destruct (entered_installs _ t2 prog Hent Hcf Ha Hcp) as (c & ans & Hin & H). exists c, ans.
  rewrite !elem_of_app. auto.
Qed.

End Main.

(** ** A command line *)

(** A kernel that grants everything and has no default policy, as the child sees it. *)
Definition child_host (c : oscall) (h : unit) : answer * unit :=
  (match c with Access _ _ => fails ENOENT | _ => ok end, h).

(** minijail0 -u 1000 -n -T static -- /bin/true: the child waits for the parent,
    drops its groups and user, gives up new privileges and becomes the program. *)
Example minijail0_example :
  let opts := [(Short "u", Some (str "1000")); (Short "n", None); (Short "T", Some (str "static"))] in
  (run child_host (main_ (B := example_config) [] (λ _, None) 0 100 opts [str "/bin/true"]) tt).1 =
  (Died, [Isatty 0; Access default_policy_path F_OK; Setpgid; Pipe; Fork; Close 0; Read 0 1; Close 0;
          Isatty 0; Isatty 1; Isatty 2; Setgroups []; Setresuid 1000; Prctl PR_SET_NO_NEW_PRIVS [1; 0; 0; 0];
          Execve (str "/bin/true") [str "/bin/true"] []]).
Proof. vm_compute. reflexivity. Qed.

(** minijail0 -n -S /p -T static -- /bin/true with the policy "read: 1": the filter is
    the child's last call before the program, and it allows read and kills for open. *)
Definition read_only_fs (_ : cstr) : option (list ascii) := Some (str "read: 1" ++ [NL]).

Example minijail0_policy_example :
  let opts := [(Short "n", None); (Short "S", Some (str "/p")); (Short "T", Some (str "static"))] in
  match reverse (run child_host (main_ (B := example_config) [] read_only_fs 0 100 opts [str "/bin/true"]) tt).1.2 with
  | Execve path _ env :: PrctlSeccomp (Some prog) :: _ =>
      path = str "/bin/true" ∧ env = [str "SECCOMP_POLICY_PATH=/p"] ∧
      bpf_run (example_data 0 0 0) prog = Some (verdict_code Allow) ∧
      bpf_run (example_data 2 0 0) prog = Some (verdict_code Policy.Kill)
  | _ => False
  end.
Proof. vm_compute. by split_and!. Qed.
