(* ===== verification/DynamicPolicy.v ===== *)
(** * The policy of a program that is linked dynamically

    Two processes take part: minijail0 compiles the policy and writes the jail into
    the pipe, and the preloaded library in the child reads the jail, enters it and
    calls the program's main().  The policy file decides the system calls of the
    program once both are put together. *)

From S2P Require Import SyscallFilter BpfMachine Policy FilterCorrect JailSpec.
From S2P Require Import Prelude CLib Util UtilProps Bpf OS Trace System Jail JailProps Codec Marshal MarshalProps.
From S2P Require Import Enter Emits MountProps EnterProps Fds Run Preload RunProps HandOver.
From S2P Require Import ConfigParser Elfparse Cli ParseArgs ArgsInv ArgsProps.
Local Open Scope Z_scope.

(** ** What the parent writes *)

Section Parent.
Context {B : BuildConfig} (environ : list cstr).

Lemma accepted_cons fd e t : accepted fd (e :: t) = taken_by fd e ++ accepted fd t.
Proof. done. Qed.

Lemma write_exactly_traces fuel fd buf :
  traces (write_exactly fuel fd buf) (λ r t, Forall write_answer t → r = 0 → accepted fd t = buf).
Proof.
  revert buf. induction fuel as [|fuel IH]; intros [|b buf]; cbn [write_exactly]; try done.
  intros ans. cbn [mbind io_bind call]. destruct (rv ans <? 0) eqn:E.
  - apply Z.ltb_lt in E. destruct (eno ans =? EINTR).
    + eapply traces_mono; [|apply IH]. intros r t H [_ Hw]%list.Forall_cons Hr.
      rewrite accepted_cons, (H Hw Hr). cbn. by rewrite Z.eqb_refl, (proj2 (Z.leb_gt _ _)).
    + intros [Ha _]%list.Forall_cons Hr. cbn in Ha. lia.
  - apply Z.ltb_ge in E. destruct (_ <? rv ans); [done|]. eapply traces_mono; [|apply IH].
    intros r t H [_ Hw]%list.Forall_cons Hr. rewrite accepted_cons, (H Hw Hr). cbn [taken_by].
    rewrite Z.eqb_refl, (proj2 (Z.leb_le _ _)) by done. apply take_drop.
Qed.

Lemma minijail_to_fd_traces fuel j fd :
  traces (minijail_to_fd fuel j fd) (λ r t, Forall write_answer t → r = 0 → accepted fd t = message j).
Proof.
  unfold minijail_to_fd. cbv zeta. pose proof (serialize_nonempty j) as Hne.
  rewrite minijail_marshal_spec, minijail_size_spec, Nat.ltb_irrefl, take_ge by done.
  rewrite (proj2 (Nat.eqb_neq _ _)) by lia.
  apply traces_bind. eapply traces_mono; [|apply write_exactly_traces]. intros r t H.
  destruct (r =? 0) eqn:E; cbn [negb]; [|apply Z.eqb_neq in E; cbn; by intros _ ?]. apply Z.eqb_eq in E.
  eapply traces_mono; [|apply write_exactly_traces]. intros r' t' H' [Hw Hw']%list.Forall_app Hr.
  by rewrite accepted_app, (H Hw E), (H' Hw' Hr).
Qed.

(** In [t] the jail went into the write end of a pipe, or the child was killed. *)
Definition handed_over (j : minijail) (wfd : Z) (t : trace) : Prop :=
  (∃ ans, (Kill j.(initpid) SIGKILL, ans) ∈ t) ∨
  ∃ t1 t2 t3, t = t1 ++ t2 ++ t3 ∧ accepted wfd t2 = message j.

Lemma handed_over_app j wfd t t' u : handed_over j wfd t → handed_over j wfd (t' ++ t ++ u).
Proof.
  intros [[ans H]|(t1 & t2 & t3 & -> & H)].
  - left. exists ans. rewrite !elem_of_app. auto.
  - right. exists (t' ++ t1), t2, (t3 ++ u). by rewrite <- !app_assoc.
Qed.

Lemma run_send_traces fuel j p :
  traces (run_send fuel j p) (λ _ t, Forall write_answer t → handed_over j p.2 t).
Proof.
  intros a. cbn [mbind io_bind call]. destruct (rv a <? 0); [done|].
  apply traces_skip. intros x t0. apply traces_bind. eapply traces_mono; [|apply minijail_to_fd_traces].
  intros ret t1 H1. apply traces_skip. intros y t2. apply traces_skip. intros _ t3 b. cbn [mbind io_bind call].
  destruct (rv b <? 0); [done|]. destruct (ret =? 0) eqn:E; cbn.
  - apply Z.eqb_eq in E. rewrite list.Forall_cons, !list.Forall_app. intros (_ & _ & Hw & _).
    right. exists ((SigBlock SIGPIPE, a) :: t0), t1, (t2 ++ t3 ++ [(SigSetmask true, b)]).
    by rewrite (H1 Hw E).
  - intros k _. left. exists k. rewrite elem_of_cons, !elem_of_app, !elem_of_cons. naive_solver.
Qed.

Lemma run_parent_traces fuel j config st pid :
  config.(rc_use_preload) = true →
  traces (run_parent fuel j config st pid) (λ r t, Forall write_answer t →
    r.1.2 = j <| initpid := pid |> ∧ handed_over r.1.2 st.(pipe_fds).2 t).
Proof.
  intros Hp. unfold run_parent. cbv zeta. rewrite Hp.
  apply traces_skip. intros _ t0. apply traces_skip. intros _ t1. apply traces_skip. intros _ t2.
  apply traces_skip. intros sync t3. apply traces_bind. eapply traces_mono; [|apply run_send_traces].
  intros pipe t4 H4. cbn. rewrite !list.Forall_app. intros (_ & _ & _ & _ & Hw & _). split; [done|].
  pose proof (handed_over_app _ _ t4 (t0 ++ t1 ++ t2 ++ t3) [] (H4 Hw)) as H. by rewrite <- !app_assoc in H.
Qed.

(** The pipe of the configuration is a fresh one. *)
Definition pipe_made (p : Z * Z) (t : trace) : Prop := ∃ a, (Pipe, a) ∈ t ∧ rv a = 0 ∧ p = pipe_of a.

Lemma pipe_made_app p t t' u : pipe_made p t → pipe_made p (t' ++ t ++ u).
Proof. intros (a & Hin & H). exists a. rewrite !elem_of_app. auto. Qed.

Lemma run_environment_pipe j config st :
  config.(rc_use_preload) = true →
  traces (run_environment environ j config st) (λ r t, r.1 = 0 → pipe_made r.2.(pipe_fds) t).
Proof.
  intros Hp. unfold run_environment. rewrite Hp. cbv zeta.
  destruct (if bool_decide _ then setup_seccomp_policy_path _ _ else _) as [r env].
  destruct (r =? 0); cbn [negb]; [|done]. destruct (hooks j); [|done].
  destruct (rc_exec_in_child config); [|done]. cbn [negb].
  destruct (setup_preload j _) as [r' env']. destruct (r' =? 0); cbn [negb]; [|done].
  intros a. cbn [mbind io_bind call]. destruct (rv a =? 0) eqn:E; cbn [negb].
  - destruct (minijail_setenv _ _ _ _). cbn. intros _. exists a. split; [left|].
    split; [by apply Z.eqb_eq|done].
  - cbn. rewrite E. done.
Qed.

Lemma run_pipes_keeps config st :
  traces (run_pipes config st) (λ r _, r.2.(pipe_fds) = st.(pipe_fds)).
Proof.
  unfold run_pipes.
  apply traces_skip. intros [[] p] t; [|done]. apply traces_skip. intros [[] p'] t'; [|done].
  apply traces_skip. by intros [ok_ p''] t''.
Qed.

Lemma run_start_pipe j config st :
  config.(rc_use_preload) = true →
  traces (run_start environ j config st) (λ r t, r.1 = 0 → pipe_made r.2.(pipe_fds) t).
Proof.
  intros Hp. unfold run_start. apply traces_bind. eapply traces_mono; [|by apply run_environment_pipe]. intros [r st1] t1 H1.
  cbn in H1. destruct (r =? 0) eqn:E; cbn [negb]; [|apply Z.eqb_neq in E; by intros ?].
  apply Z.eqb_eq in E. specialize (H1 E).
  apply traces_bind. eapply traces_mono; [|apply run_pipes_keeps]. intros [r2 st2] t2 H2. cbn in H2.
  assert (∀ t, pipe_made st2.(pipe_fds) (t1 ++ t)) as H3.
  { intros t. rewrite H2. by apply (pipe_made_app _ t1 []). }
  destruct (r2 =? 0); cbn [negb]; [|cbn; intros _; apply H3].
  unfold run_sync_pipe. destruct (sync_child j); [|cbn; intros _; apply H3].
  intros a. cbn. destruct (rv a =? 0); cbn; intros _; apply H3.
Qed.

(** The child does not come back. *)
Lemma run_child_gone fuel j config st :
  config.(rc_exec_in_child) = true → traces (run_child environ fuel j config st) (λ _ _, False).
Proof.
  intros Hx. unfold run_child. apply traces_skip. intros [[j1 st1] elf] t1. apply traces_skip. intros st2 t2.
  apply traces_skip. intros _ t3. rewrite Hx. cbn [negb]. cbv zeta. apply traces_skip. intros _ t4.
  unfold run_exec. apply traces_skip. intros a t5. destruct (rv a =? -1); [|done]. by intros b.
Qed.

(** A run that succeeds hands the jail it returns to the child, through the pipe it
    has made. *)
Lemma run_config_hands_over fuel j config :
  config.(rc_use_preload) = true → config.(rc_exec_in_child) = true →
  traces (minijail_run_config_internal environ fuel j config) (λ r t, r.1.1 = 0 → Forall write_answer t →
    ∃ j1 pid p, same_confinement j j1 ∧ r.1.2 = j1 <| initpid := pid |> ∧ pid ≠ 0 ∧
      pipe_made p t ∧ handed_over r.1.2 p.2 t).
Proof.
  intros Hp Hx. apply traces_bind.
  apply (traces_mono _ (λ r t, r.1.1 = 0 → Forall write_answer t →
    ∃ j1 pid p, same_confinement j j1 ∧ r.1.2 = j1 <| initpid := pid |> ∧ pid ≠ 0 ∧
      pipe_made p t ∧ handed_over r.1.2 p.2 t)).
  - intros [[ret j1] st] t H. cbn [fst snd] in H. rewrite Hx. cbn [negb].
    destruct (ret =? 0) eqn:E; apply traces_skip; intros _ t'; cbn.
    + rewrite !list.Forall_app. intros Hr (Hw & _ & _). destruct (H Hr Hw) as (j2 & pid & p & H1 & H2 & H3 & H4 & H5).
      exists j2, pid, p. split_and!; try done; by apply (pipe_made_app _ t []) || by apply (handed_over_app _ _ t []).
    + intros Hr. by apply Z.eqb_neq in E.
  - unfold minijail_run_internal. destruct (_ && _); [done|]. cbv zeta.
    set (j1 := match rc_filename config with Some f => _ | None => _ end).
    assert (same_confinement j j1) as H1 by (apply filename_same).
    clearbody j1. apply traces_bind. eapply traces_mono; [|by apply run_start_pipe].
    intros [r st1] t1 Hst. cbn [fst snd] in Hst. destruct (r =? 0) eqn:E; cbn [negb]; [|apply Z.eqb_neq in E; by intros ?].
    apply Z.eqb_eq in E. specialize (Hst E). apply traces_skip. intros pid t2.
    apply traces_bind. eapply traces_mono; [|apply run_fs_rules_same]. intros j2 t3 H2. cbv zeta.
    destruct (pid =? 0) eqn:Epid; cbn [negb].
    { eapply traces_mono; [|by apply run_child_gone]. done. }
    eapply traces_mono; [|by apply run_parent_traces]. intros [[ret j3] st3] t4 H4. cbn [fst snd] in *.
    rewrite !list.Forall_app. intros _ (_ & _ & _ & Hw). destruct (H4 Hw) as [Hj3 Hh].
    exists j2, pid, st1.(pipe_fds). split_and!; [by eapply same_confinement_trans|done|by apply Z.eqb_neq| |].
    + by apply (pipe_made_app _ t1 []).
    + pose proof (handed_over_app _ _ t4 (t1 ++ t2 ++ t3) [] Hh) as G. by rewrite app_nil_r, <- !app_assoc in G.
Qed.
End Parent.

(** ** What the library installs *)

Section Policy.
Context {B : BuildConfig} (environ : list cstr) (fs : cstr → option (list ascii)) (errno_ : Z).

(** A program that decides anything has an instruction. *)
Lemma decides_nonempty prog logging file : decides fs prog logging file → prog ≠ [].
Proof.
  intros (opts & es & _ & _ & _ & Hrun) ->.
  specialize (Hrun {| sd_nr := 0; sd_arch := 0; sd_instruction_pointer := 0; sd_args := [] |}).
  vm_compute in Hrun. discriminate.
Qed.

(** The filter survives the pipe and the second half of the set-up. *)
Lemma arrives_filter j abi prog :
  F_seccomp_filter ∈ j.(flags) → j.(filter_prog) = Some prog → prog ≠ [] →
  flag (minijail_preenter (sent j <| fs_rules_landlock_abi := abi |>)) F_seccomp_filter = true ∧
  (minijail_preenter (sent j <| fs_rules_landlock_abi := abi |>)).(filter_prog) = Some prog.
Proof.
  intros Hf Hp Hne. split.
  - apply bool_decide_eq_true.
    change (F_seccomp_filter ∈ sent_flags j.(flags) j.(mounts) ∖ preenter_cleared).
    apply elem_of_difference. split; [|by vm_compute].
    unfold sent_flags. destruct (_ || _); [done|]. apply elem_of_union. by right.
  - change (sent_filter j = Some prog). unfold sent_filter. rewrite Hp. destruct prog; [done|].
    unfold flag. by rewrite bool_decide_true.
Qed.

(** A process that starts with the library and reads its jail from [rfd]. *)
Definition preloaded (real : (list cstr → list cstr → io Z) → list cstr → list cstr → io Z)
    (argv envp : list cstr) (rfd : Z) : Prop :=
  ∃ name set_up, (∀ main, real main argv envp = set_up ≫= λ _, main argv envp) ∧
    minijail_getenv (Some envp) (Some kFdEnvVar) = Some name ∧ s32 (strtol name 10).1.1 = rfd ∧
    calls_only (c_runtime rfd) (set_up : io unit).

Lemma preloaded_filter real argv envp rfd j prog :
  preloaded real argv envp rfd → marshalable j → Z.of_nat (minijail_size j) < 2 ^ 64 →
  F_seccomp_filter ∈ j.(flags) → j.(filter_prog) = Some prog → prog ≠ [] → running_with_asan = false →
  before (libc_start_main real argv envp) [] (λ c t, ¬ no_exec c →
    reads_from rfd (message j) t → Forall honest t →
    c = CallMain argv (program_env envp) ∧
    ∃ call_ ans, (call_, ans) ∈ t ∧ rv ans = 0 ∧ installs call_ prog).
Proof.
  intros (name & set_up & Hreal & Hname & <- & Hset) Hj Hsz Hf Hp Hne Ha.
  eapply before_mono; [|by eapply libc_start_main_jailed].
  intros c t H Hc Hr Hh. destruct (H Hc Hr Hh) as (Hm & abi & _ & He). split; [done|].
  destruct (arrives_filter j abi prog Hf Hp Hne) as [Hf' Hp']. by eapply entered_installs.
Qed.

End Policy.

(** ** A command line *)

(** The parent's kernel: descriptors 5 and 6 are the pipes, 42 is the child, and no
    signal is pending. *)
Definition parent_host (c : oscall) (h : unit) : answer * unit :=
  (match c with
   | Access _ _ => fails ENOENT
   | Pipe => Answer 0 0 None [5; 6]
   | Fork => returns 42
   | Write _ [] => fails EINVAL
   | Write _ data => returns (Z.of_nat (length data))
   | Sigtimedwait _ => fails ENOENT
   | _ => ok
   end, h).

Lemma parent_writes c h : write_answer (c, (parent_host c h).1).
Proof. destruct c; try exact I. destruct data; [by right|left; cbn -[Z.of_nat]; lia]. Qed.

(** minijail0 -n -S /p -T dynamic -- /bin/true with the policy "read: 1". *)
Definition dynamic_opts : list (opt * option cstr) :=
  [(Short "n", None); (Short "S", Some (str "/p")); (Short "T", Some (str "dynamic"))].
Definition dynamic_run_config : minijail_run_config :=
  run_config (Some (str "/bin/true")) (-1) [str "/bin/true"] (Some []) true true false false false false.

Definition dynamic_parse :=
  run_trace parent_host
    (parse_args (B:=example_config) [] read_only_fs 0 minijail_new dynamic_opts [str "/bin/true"]) tt.
Definition dynamic_jail : minijail :=
  match dynamic_parse.1.1 with Finished (_, j) => j | _ => minijail_new end.
Definition dynamic_run :=
  run_trace parent_host
    (minijail_run_config_internal (B:=example_config) [] 9
       (minijail_set_preload_path dynamic_jail (str "/l.so")).2 dynamic_run_config) tt.

Lemma dynamic_parse_ran r :
  dynamic_parse.1.1 = Finished r →
  ran (parse_args (B:=example_config) [] read_only_fs 0 minijail_new dynamic_opts [str "/bin/true"])
    dynamic_parse.1.2 r.
Proof. exact (run_trace_ran parent_host _ tt r). Qed.

Lemma dynamic_run_ran r :
  dynamic_run.1.1 = Finished r →
  ran (minijail_run_config_internal (B:=example_config) [] 9
         (minijail_set_preload_path dynamic_jail (str "/l.so")).2 dynamic_run_config) dynamic_run.1.2 r.
Proof. exact (run_trace_ran parent_host _ tt r). Qed.

Lemma dynamic_parse_finishes :
  ∃ st, dynamic_parse.1.1 = Finished (st, dynamic_jail) ∧ st.(c_seccomp) = Filter.
Proof.
  assert (match dynamic_parse.1.1 with
          | Finished (st, _) => match st.(c_seccomp) with Filter => true | _ => false end
          | _ => false
          end = true) as H by (vm_compute; reflexivity).
  unfold dynamic_jail. destruct dynamic_parse.1.1 as [[st j]| | |]; [|done..]. exists st.
  by destruct (c_seccomp st).
Qed.

Lemma dynamic_run_finishes :
  ∃ j' out, dynamic_run.1.1 = Finished (0, j', out) ∧ marshalable j' ∧ Z.of_nat (minijail_size j') < 2 ^ 64.
Proof.
  assert (match dynamic_run.1.1 with
          | Finished (ret, j', _) =>
              (ret =? 0) && bool_decide (marshalable j') && (Z.of_nat (minijail_size j') <? 2 ^ 64)
          | _ => false
          end = true) as H by (vm_compute; reflexivity).
  destruct dynamic_run.1.1 as [[[ret j'] out]| | |]; [|done..].
  apply andb_prop in H as [[H1%Z.eqb_eq H2%bool_decide_eq_true]%andb_prop H3%Z.ltb_lt]. subst ret. eauto.
Qed.

Lemma dynamic_run_writes : Forall write_answer dynamic_run.1.2.
Proof. exact (run_trace_forall parent_host write_answer _ tt parent_writes). Qed.


(** The library's kernel: the state is what is left in the pipe. *)
Definition library_host (c : oscall) (left : list ascii) : answer * list ascii :=
  match c with
  | Read 5 n =>
      let chunk := take (Z.to_nat n) left in
      (Answer (Z.of_nat (length chunk)) 0 (Some chunk) [], drop (Z.to_nat n) left)
  | Dlopen _ | Dlsym _ => (returns 1, left)
  | _ => (ok, left)
  end.

(** Both processes run to their ends: what the parent wrote makes the library install
    the filter, and then it calls main() with the program's environment. *)
Example dynamic_policy_runs :
  let envp := [str "LD_PRELOAD=/l.so"; str "__MINIJAIL_FD=5"; str "HOME=/"] in
  match reverse (run library_host (libc_start_main (B:=example_config) example_start [str "true"] envp)
                   (accepted 6 dynamic_run.1.2)).1.2 with
  | CallMain args env :: Dlclose :: PrctlSeccomp (Some prog) :: _ =>
      args = [str "true"] ∧ env = [str "HOME=/"] ∧
      bpf_run (example_data 0 0 0) prog = Some (verdict_code Allow) ∧
      bpf_run (example_data 2 0 0) prog = Some (verdict_code Policy.Kill)
  | _ => False
  end.
Proof. vm_compute. by split_and!. Qed.
