(* ===== verification/Tools.v ===== *)
(** * The small programs: parse_seccomp_policy.cc, dump_constants.cc, syscall_wrapper.c

    The policy compiler as a program of its own, which prints the compiled filter or
    writes it as the binary that minijail0 reads with --seccomp-bpf-binary; the program
    that prints the tables of the build for the Python compiler; and the wrapper of the
    seccomp system call.  A stream is named by its path, "<stdout>" for standard
    output. *)

From S2P Require Import Prelude CLib Util Bpf SyscallFilter OS System Jail Codec Marshal Run.
Local Open Scope Z_scope.

(** ** Printing *)

Definition hex_digit (d : Z) : ascii :=
  default "0"%char (str "0123456789abcdef" !! Z.to_nat d).

Fixpoint hex_digits (fuel : nat) (z : Z) (tail : cstr) : cstr :=
  match fuel with
  | O => tail
  | S fuel =>
      if z =? 0 then tail
      else hex_digits fuel (Z.shiftr z 4) (hex_digit (Z.land z 15) :: tail)
  end.

(** [printf("%#x", z)] of an unsigned int. *)
Definition fmt_hex (z : Z) : cstr := if z =? 0 then str "0" else str "0x" ++ hex_digits 8 z [].

Definition DQUOTE : ascii := "034".
Definition quoted (s : cstr) : cstr := DQUOTE :: s ++ [DQUOTE].

Definition stdout_ : cstr := str "<stdout>".

(** ** parse_seccomp_policy.cc *)

Definition dump_instr (i : nat) (f : sock_filter) : cstr :=
  fmt_d (Z.of_nat i) ++ str ": " ++ [TAB] ++ str "{ code=" ++ fmt_hex f.(code) ++ str ", jt=" ++ fmt_d f.(jt)
  ++ str ", jf=" ++ fmt_d f.(jf) ++ str ", k=" ++ fmt_hex f.(k) ++ str " " ++ [TAB] ++ str "}" ++ [NL].

(** The length is an [unsigned short]. *)
Definition DumpBpfProg (filter : list sock_filter) : cstr :=
  let len := u16 (Z.of_nat (length filter)) in
  str "len == " ++ fmt_d len ++ [NL] ++ str "filter:" ++ [NL] ++
  mjoin (imap dump_instr (take (Z.to_nat len) filter)).

(** What getopt_long(3) returns: -h or --help; -d with its argument or --dump with or
    without one; anything else is not looked at. *)
Inductive tool_opt := T_help | T_dump (optarg : option cstr) | T_other.

(** Whether to dump, and where to: the empty path is standard output.  The text of the
    usage message is not modelled. *)
Fixpoint tool_options (opts : list tool_opt) (dump : bool) (dump_path : cstr) : io (bool * cstr) :=
  match opts with
  | [] => mret (dump, dump_path)
  | T_help :: _ => exit_ 0
  | T_dump optarg :: rest => tool_options rest true (default dump_path optarg)
  | T_other :: rest => tool_options rest dump dump_path
  end.

(** The bytes of the program in memory. *)
Definition filter_binary (filter : list sock_filter) : list ascii := mjoin (enc c_instr <$> filter).

Section Tools.
Context {B : BuildConfig} (fs : cstr → option (list ascii)) (stdin : list ascii).

Definition tool_filter_options : filter_options :=
  {| action := ACTION_RET_KILL; allow_logging := false; allow_syscalls_for_logging := false;
     opt_allow_duplicate_syscalls := allow_duplicate_syscalls |}.

(** The policy: the first word behind the options, or standard input. *)
Definition tool_policy (rest : list cstr) : option (list ascii) :=
  match rest with
  | name :: _ => if negb (streq name (str "-")) then fs name else Some stdin
  | [] => Some stdin
  end.

Definition write_dump (dump_path : cstr) (filter : list sock_filter) : io unit :=
  out ← (if negb (bool_decide (dump_path = [])) then
           a ← call (FopenWrite dump_path);
           if rv a <? 0 then IDie else mret dump_path
         else mret stdout_);
  a ← call (Fwrite out (filter_binary filter));
  if negb (rv a =? Z.of_nat (length filter)) then IDie
  else (_ ← call (Fclose out); mret tt).

(** [argv1] is argv[1], NULL when there is none: whatever stands there is the name the
    policy gets. *)
Definition parse_seccomp_policy_main (argv1 : option cstr) (opts : list tool_opt) (rest : list cstr) : io Z :=
  '(dump, dump_path) ← tool_options opts false [];
  match tool_policy rest with
  | None => IDie
  | Some policy =>
      r ← lift (compile_filter fs tool_filter_options argv1 (Some policy));
      match r with
      | None => IDie
      | Some filter =>
          _ ← (if dump : bool then write_dump dump_path filter
               else (_ ← call (Fprintf stdout_ (DumpBpfProg filter)); mret tt));
          mret 0
      end
  end.

(** ** dump_constants.cc *)

Definition MINIJAIL_ARCH_NAME : cstr := str "x86_64".
Definition MINIJAIL_ARCH_BITS : Z := 64.

(** One loop over a table: the entries are separated by commas. *)
Fixpoint dump_entries (first : bool) (table : list (cstr * Z)) : cstr :=
  match table with
  | [] => []
  | (name, value) :: rest =>
      (if first then [] else str "," ++ [NL]) ++ str "    " ++ quoted name ++ str ": " ++ fmt_d value
      ++ dump_entries false rest
  end.

Definition dump_constants_main : cstr :=
  str "{" ++ [NL] ++
  str "  " ++ quoted (str "arch_nr") ++ str ": " ++ fmt_d MINIJAIL_ARCH_NR ++ str "," ++ [NL] ++
  str "  " ++ quoted (str "arch_name") ++ str ": " ++ quoted MINIJAIL_ARCH_NAME ++ str "," ++ [NL] ++
  str "  " ++ quoted (str "bits") ++ str ": " ++ fmt_d MINIJAIL_ARCH_BITS ++ str "," ++ [NL] ++
  str "  " ++ quoted (str "syscalls") ++ str ": {" ++ [NL] ++
  dump_entries true syscall_table ++
  [NL] ++ str "  }," ++ [NL] ++
  str "  " ++ quoted (str "constants") ++ str ": {" ++ [NL] ++
  dump_entries true constant_table ++
  [NL] ++ str "  }" ++ [NL] ++
  str "}" ++ [NL].
End Tools.

(** ** syscall_wrapper.c *)

Definition SYS_seccomp : Z := 317.
Definition sys_seccomp (operation flags_ : Z) (args : option (list sock_filter)) : io answer :=
  call (SysSeccomp operation flags_ args).
