(* ===== verification/ToolsProps.v ===== *)
(** * A policy that is compiled ahead of time

    parse_seccomp_policy writes the compiled filter to a file and minijail0 reads the
    file with --seccomp-bpf-binary: the program that arrives in the jail is the compiled
    one, and it decides as the policy says. *)

From S2P Require Import Prelude CLib Util UtilProps Bpf BpfMachine SyscallFilter Policy FilterCorrect Tables OS Trace.
From S2P Require Import System Jail JailProps Codec Marshal MarshalProps FilterWidths Run RunProps Cli TablesProps ArgsProps Tools.
Local Open Scope Z_scope.

Section Binary.
Context {B : BuildConfig} (fs : cstr → option (list ascii)) (stdin : list ascii).

(** ** Reading the binary *)

(** The file at [path] reads as [content]. *)
Definition holds_file (path : cstr) (content : list ascii) (t : trace) : Prop :=
  ∀ ans, (FopenRead path, ans) ∈ t → bytes ans = Some content.

Lemma read_seccomp_filter_binary path prog :
  Forall wf_instr prog → Z.of_nat (length prog) < 2 ^ 16 →
  traces (read_seccomp_filter path) (λ r t, holds_file path (filter_binary prog) t → r = prog).
Proof.
  intros Hw Hl ans. cbn [mbind io_bind call]. destruct (bytes ans) as [content|] eqn:E; [|done]. cbv zeta.
  destruct (negb _) eqn:Em; [done|]. intros Hf. specialize (Hf ans ltac:(by left)). rewrite E in Hf.
  injection Hf as ->. unfold filter_binary. rewrite (length_join_enc c_instr wf_instr _ faithful_instr).
  change (size c_instr) with 8%nat. rewrite Nat2Z.inj_mul, Z.div_mul by done.
  rewrite uwrap_small by lia. rewrite Nat2Z.id. exact (dec_array_join c_instr wf_instr prog faithful_instr Hw).
Qed.

Lemma should_use_filters_off j :
  traces (seccomp_should_use_filters j) (λ r _, r.1 = false →
    F_seccomp_filter ∉ r.2.(flags) ∧ seccomp_can_softfail = true).
Proof.
  assert (F_seccomp_filter ∉ (clear_seccomp_options j).(flags)) as Hc.
  { unfold clear_seccomp_options. unfold_jail. set_solver. }
  intros a. cbn [mbind io_bind call]. destruct (_ && _) eqn:E.
  { cbn. intros _. split; [done|]. by apply andb_true_iff in E as [_ [_ ?]%andb_true_iff]. }
  apply traces_bind. apply (traces_mono _ (λ b _, b = true → seccomp_can_softfail = true)).
  - intros [] t Hb; [cbn; intros _; split; [done|by apply Hb]|].
    destruct (flag j F_seccomp_filter_allow_speculation); [|done].
    apply traces_skip. by intros avail t'.
  - destruct (flag j F_seccomp_filter_tsync); [|done].
    intros b. cbn. by intros [_ ?]%andb_true_iff.
Qed.

(** The jail holds the program and its length, or filters are off. *)
Definition holds_filter (j : minijail) (prog : list sock_filter) : Prop :=
  j.(filter_prog) = Some prog ∧ j.(filter_len) = Z.of_nat (length prog) ∨
  F_seccomp_filter ∉ j.(flags) ∧ seccomp_can_softfail = true.

Lemma set_seccomp_filters_binary j path prog :
  Forall wf_instr prog → Z.of_nat (length prog) < 2 ^ 16 →
  traces (set_seccomp_filters j path) (λ j' t, holds_file path (filter_binary prog) t → holds_filter j' prog).
Proof.
  intros Hw Hl. apply traces_bind. eapply traces_mono; [|by apply read_seccomp_filter_binary].
  intros f t Hf. apply traces_bind. eapply traces_mono; [|apply should_use_filters_off].
  intros [use j1] t1 Huse. cbn in Huse. destruct use; cbn [negb]; [|by right; apply Huse].
  destruct (seccomp_is_logging_allowed j1); [done|]. intros Hfile. left.
  rewrite Hf; [done|]. intros ans Hin. apply Hfile. rewrite elem_of_app. auto.
Qed.

(** ** Writing it *)

Lemma write_dump_traces path prog :
  path ≠ [] →
  traces (write_dump path prog) (λ _ t, ∃ ans, (Fwrite path (filter_binary prog), ans) ∈ t ∧
                                               rv ans = Z.of_nat (length prog)).
Proof.
  intros Hp. unfold write_dump. rewrite bool_decide_false by done. cbn [negb].
  intros a. cbn [mbind io_bind call]. destruct (rv a <? 0); [done|]. intros b. cbn [mbind io_bind call].
  destruct (_ =? _) eqn:E; cbn [negb]; [|done]. intros c. exists b.
  split; [by right; left|by apply Z.eqb_eq].
Qed.

(** C26: a policy that is compiled ahead of time reaches the jail.  When
    parse_seccomp_policy with --dump=[path] returns, it has written all of a program
    to [path] that decides every system call as the policy says, kills for everything
    the policy does not name, and fits the kernel's limit.  minijail0, told to read its
    filter from a file with those bytes, holds exactly that program and its length
    (unless the kernel has no seccomp and the build lets that pass). *)
Theorem policy_binary_roundtrip argv1 opts rest t path :
  ran (parse_seccomp_policy_main fs stdin argv1 opts rest) t 0 →
  ran (tool_options opts false []) [] (true, path) → path ≠ [] →
  ∃ policy es prog ans,
    tool_policy fs stdin rest = Some policy ∧ read_policy fs tool_filter_options policy = Some es ∧
    (∀ d, bpf_run d prog = verdict_code <$> eval_policy d es Policy.Kill) ∧
    (length prog <= BPF_MAXINSNS)%nat ∧
    (Fwrite path (filter_binary prog), ans) ∈ t ∧ rv ans = Z.of_nat (length prog) ∧
    ∀ j, traces (set_seccomp_filters j path) (λ j' u,
      holds_file path (filter_binary prog) u → holds_filter j' prog).
Proof.
  intros Hran Hopts Hp. revert Hran. unfold parse_seccomp_policy_main.
  destruct (tool_options opts false []) as [[dump p]| | | |]; try done. cbn in Hopts. injection Hopts as -> ->.
  cbn [mbind io_bind]. destruct (tool_policy fs stdin rest) as [policy|]; [|done].
  pose proof (compile_filter_widths fs tool_filter_options argv1 (Some policy)) as Hw.
  destruct (compile_filter fs tool_filter_options argv1 (Some policy)) as [[prog|]| |] eqn:Ec; [|done..].
  cbn in Hw. intros Hran. apply compile_filter_run in Ec as (es & Hr & _ & [_ Hl] & Hrun).
  exists policy, es, prog.
  assert (traces (_ ← write_dump path prog; mret 0) (λ _ t, ∃ ans,
    (Fwrite path (filter_binary prog), ans) ∈ t ∧ rv ans = Z.of_nat (length prog))) as Ht.
  { apply traces_bind. eapply traces_mono; [|by apply write_dump_traces]. intros u t' (ans & Hin & Ha).
    exists ans. by rewrite app_nil_r. }
  destruct (ran_traces _ _ _ _ Ht Hran) as (ans & Hin & Ha). exists ans. split_and!; [done..|].
  intros j. apply set_seccomp_filters_binary; [done|].
  eapply Z.le_lt_trans; [apply inj_le, Hl|]. by vm_compute.
Qed.
End Binary.

(** ** Examples *)

Definition tool_fs (path : cstr) : option (list ascii) :=
  if streq path (str "/p") then Some (str "read: 1" ++ [NL] ++ str "open: arg1 == O_RDONLY" ++ [NL]) else None.

(** A file system that takes what is written, as many items of eight bytes. *)
Definition tool_host (c : oscall) (h : unit) : answer * unit :=
  (match c with Fwrite _ data => returns (Z.of_nat (length data) / 8) | _ => ok end, h).

Definition tool_run :=
  run_trace tool_host (parse_seccomp_policy_main (B:=example_config) tool_fs [] (Some (str "--dump=/p.bpf"))
    [T_dump (Some (str "/p.bpf"))] [str "/p"]) tt.

Lemma policy_binary_roundtrip_witness :
  ∃ policy es prog ans,
    tool_policy tool_fs [] [str "/p"] = Some policy ∧
    read_policy (B:=example_config) tool_fs (tool_filter_options (B:=example_config)) policy = Some es ∧
    (∀ d, bpf_run d prog = verdict_code <$> eval_policy d es Policy.Kill) ∧
    (length prog <= BPF_MAXINSNS)%nat ∧
    (Fwrite (str "/p.bpf") (filter_binary prog), ans) ∈ tool_run.1.2 ∧ rv ans = Z.of_nat (length prog) ∧
    ∀ j, traces (set_seccomp_filters (B:=example_config) j (str "/p.bpf")) (λ j' u,
      holds_file (str "/p.bpf") (filter_binary prog) u → holds_filter (B:=example_config) j' prog).
Proof.
  apply (policy_binary_roundtrip (B:=example_config) tool_fs [] (Some (str "--dump=/p.bpf"))
           [T_dump (Some (str "/p.bpf"))] [str "/p"] tool_run.1.2 (str "/p.bpf")).
  - apply (run_trace_ran tool_host _ tt). vm_compute. reflexivity.
  - reflexivity.
  - discriminate.
Defined.

(** Without an argument the policy comes from standard input and has no name: the
    first system call of the policy is recorded under a copy of the null pointer. *)
Example policy_from_stdin :
  (run tool_host (parse_seccomp_policy_main (B:=example_config) tool_fs (str "read: 1" ++ [NL]) None [] []) tt).1.1
    = Undefined ∧
  (run tool_host (parse_seccomp_policy_main (B:=example_config) tool_fs (str "read: 1" ++ [NL])
     (Some (str "-")) [] [str "-"]) tt).1.1 = Finished 0.
Proof. split; vm_compute; reflexivity. Qed.

(** The text of a small program. *)
Example dump_text :
  DumpBpfProg [set_bpf_ret_allow] =
  str "len == 1" ++ [NL] ++ str "filter:" ++ [NL] ++
  str "0: " ++ [TAB] ++ str "{ code=0x6, jt=0, jf=0, k=0x7fff0000 " ++ [TAB] ++ str "}" ++ [NL].
Proof. vm_compute. reflexivity. Qed.

(** The number in the wrapper is the one of the table. *)
Example sys_seccomp_number : (lookup_syscall (B:=x86_config) (str "seccomp")).1 = SYS_seccomp.
Proof. vm_compute. reflexivity. Qed.
